(* ===== verification/_CoqProject ===== *)
-Q . S2P
Prelude.v
PrefixCode.v
Paths.v
Protocol.v
Framing.v
Wire.v
AgentWire.v
Ids.v
Observability.v
Gateway.v
GatewayProps.v
Negotiate.v
UploadProto.v
Utf8.v
Auth.v
Pam.v
History.v
Modes.v
TerminalModel.v
Launch.v
SpawnerWire.v
SessionCore.v
SessionSteps.v
SessionProps.v
SessionWitness.v
Agent.v
AgentProps.v
AgentLink.v
UploadStore.v
Spawner.v
SpawnerProps.v
SpawnerWitness.v
RateLimiter.v
Forward.v
ForwardTask.v
Uploads.v
Conn.v
ConnProps.v
ConnTotal.v
ConnWitness.v
ConnAuth.v
AgentWitness.v
ClientStore.v
ReplaceFile.v
ClientStoreProps.v
ClientApi.v
ClientUpload.v
ClientCore.v
ClientFacade.v
ClientFacadeProps.v
DesktopOutput.v
ClientProps.v
ClientLink.v
Socks.v
ForwardLink.v
Frontdoor.v
FrontdoorProps.v
Transport.v
TransportProps.v
TransportSession.v
Startup.v
Holdfastd.v
HoldfastdProps.v
SshAdapter.v
SshAdapterProps.v
HfState.v
HfCli.v
HfProps.v
ClientPump.v
ClientPumpProps.v
ClientWitness.v
TransportWitness.v
HoldfastdWitness.v
SshAdapterWitness.v
HfWitness.v
DesktopOutputProps.v
DockerWm.v
WidthTables.v
WidthTablesText.v
WidthTablesProps.v
