(* ===== verification/Prelude.v ===== *)
(** * Holdfast: a verification library

    Holdfast keeps shells running on a server and lets clients come and go: a
    daemon owns PTYs, a model of each terminal screen and its scrollback;
    clients speak a framed protobuf protocol over WebSocket or WebTransport,
    authenticate, open shells, attach to them with rotating resume tokens,
    upload files and forward TCP connections. A managed server may also dial
    out to a gateway, which then opens and attaches shells through the server's
    own policy; an adapter lets an OpenSSH client use a remote shell. This library
    models the decision-making code of the daemon, the agent, the gateway, the
    clients and the adapter (Rust, [src/crates]) and the generator of the width
    tables ([src/tools]) as executable definitions and proves what makes it
    correct.

    ** Conventions

    Rust integers are [Z] with their wrap-around, saturation or checks written
    out ([wrap16], [sat_sub], [checked_add64]); a panic (overflow in a checked
    operation, slicing, [unwrap]) is [None]; [Result] is [result]; a [String]
    is the list of its scalar values ([str], with [str_bytes] its UTF-8), a
    [Vec<u8>] a list of bytes, a [HashMap] a [gmap]. Loops whose recursion is
    not structural take fuel computed from their data, and the theorems show
    the fuel is enough, since they give the result. Random values, clocks and
    the outcome of a blocking wait are arguments. Code outside the repository
    is a type class of operations: [ProstMessage] (protobuf), [VtOps] (the avt
    emulator), [HashOps] (SHA-256), [GrantCrypto] and [SshCrypto] (Ed25519,
    base64, JSON, the ssh-key crate), [PamLib] (libpam), [Host] (files,
    accounts, environment), [SpawnerJson] and [ErrnoText] (serde_json and the
    text of system errors), [StoreJson], [HfJson], [DwJson] and [Base64] (the
    clients' files);
    so is [PtyOps] (PTYs and the spawner socket as the
    shell manager sees them), which only wraps system calls. Interfaces between
    components are classes too: [AuthOps], which [ConnAuth] implements with the
    verifiers of [Auth], and [UploadBackend], which the same-uid store and the
    spawner both implement. Laws relied on are separate classes
    ([ProstRoundtrip], [VtLaws], [GrantCryptoLaws], [UploadBackendLaws]) with
    concrete instances.

    ** Files

    - [Prelude]: results, widths, bytes, arrays, strings, decimal and
      hexadecimal text, tactics and shared lemmas; [PrefixCode]: a concrete
      self-delimiting encoding the witnesses share.
    - [Protocol] ([protocol/messages.proto], [protocol/src/lib.rs]), [Framing]
      ([framing.rs]), [Wire] ([daemon/src/wire.rs]), [Ids], [Negotiate],
      [UploadProto]: the wire. The incremental decoder implements a relational
      semantics of the byte stream ([Frames]) for every fragmentation; round
      trips; exactness and buffer bounds; what a hello may agree on.
    - [AgentWire] ([AgentEnvelope] and its limits): envelopes on streams that
      can finish, break or lose a dropped read at any byte.
    - [Auth] ([auth/src/grant.rs], [ssh.rs]): grants and SSH challenge
      signatures are accepted exactly when they should be; [Pam]
      ([auth/src/pam.rs]): the C callback on an explicit heap neither leaks nor
      frees twice, and every error denies.
    - [Observability] ([daemon/src/observability.rs]): the bounded audit ring
      and the counters refine the full log of events.
    - [Utf8], [History], [Modes], [TerminalModel] ([terminal-model/src]): the
      screen model. Decoding does not depend on chunk boundaries; the scrollback
      ring refines an append-only log and paging back is complete; the mode
      scanner is safe on hostile output and its replay restores the modes; feed
      and resize lose no line.
    - [Launch] ([launch/src/lib.rs]): command lines under limits and privilege
      drop fail closed.
    - [SessionCore] ([session-core/src]): the shell manager, one definition per
      method, the pump thread and the reaper; [SessionSteps]: all of them as
      labels of one transition system ([exec], [step], [reachable]);
      [SessionProps]: limits and lifecycle by induction over every
      interleaving, token rotation, ownership, idempotent open, termination,
      in-order delivery; [SessionWitness]: concrete runs. Each method holds the
      manager's or the shell's mutex while it works, so it is one step;
      [terminate], which waits, is two.
    - [UploadStore] ([upload-store/src/lib.rs]): uploads against a disk whose
      calls can fail: all or nothing, and a round trip for any content.
    - [SpawnerWire] (messages of [spawner/src/lib.rs]), [Spawner]: the
      privileged helper process and the daemon's side of its socket;
      [SpawnerProps]: it only ever acts as an allowed, unprivileged account, a
      remote upload does to the disk what the local store would, and a remote
      shell is created, resized, killed and reaped in order; [SpawnerWitness]:
      concrete runs.
    - [RateLimiter] ([daemon/src/auth.rs]): lockout and the bounded table.
    - [Forward] ([protocol/src/forward.rs], [daemon/src/forward.rs]), [Uploads]
      ([daemon/src/uploads.rs]): permits, destination checks, backends;
      [ForwardTask]: the task behind a forward, whose two copying halves take
      one step per await, with the sockets and timers as its events.
    - [Conn] ([daemon/src/conn.rs]): one connection as handlers in a state
      monad over the world it sees ([World]): authentication, every arm of
      [dispatch], channel bindings, upload actors, disconnect. [ConnProps]:
      what happens before authentication, who may authenticate, that every
      message only performs manager operations the user is entitled to, and
      that losing a connection ends no shell; [ConnTotal]: no message makes
      [dispatch] panic; [ConnWitness]: concrete runs; [ConnAuth]: the
      connection with the real verifiers, and the grant a login returns is
      usable until it expires.
    - [Gateway] ([gateway/src/lib.rs]): certificate registry, acceptance,
      leases, requests to agents; [GatewayProps]: any number of acceptances in
      two halves, revocations, requests and disconnects as a transition system;
      leases and identities by induction over it.
    - [Agent] ([agent/src/lib.rs]): registration, reconnect loop, control and
      attachment streams over [SessionCore]; [AgentProps]: the served link, its
      tasks and all other users of the manager as one transition system; what a
      gateway can reach, leases, and lost links. [AgentLink] composes [Agent]
      and [Gateway]; [AgentWitness]: concrete runs of all four.
    - [ClientStore] ([client-core/src/store.rs]): the desktop client's state
      file, one definition per operation, on a disk whose calls may fail or be
      the last of the process and whose directory a power loss may roll back;
      [ReplaceFile]: replacing a file by write, sync and rename, for any state;
      [ClientStoreProps]: operations are atomic, and any history of operations,
      kills and power losses leaves a file that loads.
    - [ClientApi] ([native-client/src/lib.rs]): channels, handshake,
      authentication, requests and attachments against scripted streams;
      [ClientUpload]: [upload_file], composed with [UploadStore].
    - [ClientCore] ([client-core/src/server.rs]): the control-channel actor and
      the reconnecting supervisor with every command, in a state monad over the
      world it sees ([Sup]); [ClientProps]: multiplexing, keepalive,
      credentials, interactive authentication; [ClientLink]: the journal of
      opens, alone and against the daemon's [Conn]. [ClientFacade]
      ([client-core/src/lib.rs]): the interface of the graphical client;
      [ClientFacadeProps]: supervisors, their queues and what is shown.
    - [DesktopOutput] ([desktop/src-tauri/src]): the windowed delivery of terminal
      output to the webview, one await per step; [DesktopOutputProps]: order,
      bounds and progress in every interleaving, and a run.
    - [ClientPump] ([client-core/src/shell.rs]): the reader and writer tasks of
      an attached shell, one loop turn per step; [ClientPumpProps]: what they
      deliver in every interleaving. [ClientWitness]: concrete runs of the
      client.
    - [Socks] ([native-client/src/socks.rs]): the SOCKS5 request in an I/O
      monad over the application's socket, opening a forward, the relay loop.
      [ForwardLink] composes the relay, the stream, the gate and the task:
      byte streams arrive intact whatever fails, and nothing deadlocks,
      with a concrete run.
    - [Paths]: [std::path] on Unix as far as the code uses it.
    - [Frontdoor] ([daemon/src/frontdoor_bridge.rs]): configuration checks, the
      bridge header, and the accept loop with its handshakes, sessions and
      streams as a step function ([bridge_step]) with one step per await;
      [FrontdoorProps]: the header's encoding is canonical, what reaches the
      daemon is authorised, matched to its session and bounded, and a timed out
      acknowledgement keeps its session identity for good.
    - [Transport] ([daemon/src/webtransport.rs]): the bounded queue of a
      channel, its writer and the router of all of them, static files, base64;
      [TransportProps]: in-order delivery with at most one overload error,
      files below the web root only, a base64 round trip. [TransportSession]
      ([ProtocolSessionRuntime], [ws.rs]): the readers of a session's streams
      over [Framing] and [Conn], and the WebSocket loop; messages are dispatched
      in order for every fragmentation. [TransportWitness]: concrete runs.
    - [Startup] ([daemon/src/lib.rs], the listeners of [webtransport.rs],
      [agent_mode.rs]): configuration, start-up checks and what they lead to,
      the routes of the TCP side; [Holdfastd] ([daemon/src/main.rs]): the
      command line, the grant key file, agent mode. [HoldfastdProps]: every
      command line is refused or starts a daemon that keeps the rules of the
      threat model, grants outlive a restart, and how the idle time to live
      counts; [HoldfastdWitness]: concrete starts.

    - [SshAdapter] ([ssh-adapter/src]): options, key files, the callbacks of one
      SSH connection and the task that bridges its channel to a remote shell, all
      as labels of one step function; [SshAdapterProps]: who gets a shell, what
      reaches it and that it is ended, and what a started adapter has checked;
      [SshAdapterWitness]: concrete connections.
    - [HfState] ([native-client/src/state.rs]), [HfCli] ([cli.rs]): the state
      file of the command-line client, its commands and the interactive session,
      in a monad over what the program finds ([Hf]); [HfProps]: a small Hoare
      logic for it, what becomes of the credentials in every run, and that the
      desktop client takes them over; [HfWitness]: concrete runs.
    - [DockerWm] ([client-core/src/dockerwm.rs]): handing a link to another
      application through its descriptor file, and what is sent to whom.
    - [WidthTables] ([tools/xterm-width-tables/src/main.rs]): the generator of the
      character widths and the code it generates; [WidthTablesText]: reading the
      tables back from the generated text; [WidthTablesProps]: the terminal model
      and both clients measure as the dump does, and a run of the generator.

    ** Not modelled

    Sockets, TLS and QUIC and their accept loops; waiting on full queues;
    tracing output and messages to the user; raw mode and the PTY system calls;
    Windows-only code, and the user interfaces of the graphical and web clients.

    ** Plan

    Next: permit conservation over all connection steps. *)
From stdpp Require Export prelude gmap sorting strings.
From stdpp Require Export ssreflect.
From Stdlib Require Export ZArith Lia.
From Stdlib Require Import Strings.Byte.

(** ** Tactics

    [zlia] is [lia] with division and modulo by constants turned into their
    Euclidean equations first. *)
Ltac zlia := Z.to_euclidean_division_equations; lia.

(** Case analysis on the scrutinee of a [match] in the goal or a hypothesis. *)
Ltac split_match :=
  match goal with
  | |- context [match ?x with _ => _ end] => destruct x eqn:?
  | H : context [match ?x with _ => _ end] |- _ => destruct x eqn:?
  end.

(** Turn boolean tests of the code into the propositions they decide. *)
Ltac to_prop :=
  repeat match goal with
  | H : (_ && _) = true |- _ => apply andb_true_iff in H as [? ?]
  | H : (_ || _) = false |- _ => apply orb_false_iff in H as [? ?]
  | H : negb _ = true |- _ => apply negb_true_iff in H
  | H : negb _ = false |- _ => apply negb_false_iff in H
  | H : (_ <=? _)%Z = true |- _ => apply Z.leb_le in H
  | H : (_ <=? _)%Z = false |- _ => apply Z.leb_gt in H
  | H : (_ <? _)%Z = true |- _ => apply Z.ltb_lt in H
  | H : (_ <? _)%Z = false |- _ => apply Z.ltb_ge in H
  | H : (_ =? _)%Z = true |- _ => apply Z.eqb_eq in H
  | H : (_ =? _)%Z = false |- _ => apply Z.eqb_neq in H
  | H : bool_decide _ = true |- _ => apply bool_decide_eq_true in H
  | H : bool_decide _ = false |- _ => apply bool_decide_eq_false in H
  end.

(** Facts every component may use for its bookkeeping: sizes, counters,
    non-negativity. Each component adds its own invariants. *)
Create HintDb holdfast.
Create HintDb len.

(** ** Rust results *)

(** [Result<A, E>] of the source. *)
Inductive result (A E : Type) : Type :=
  | Ok (a : A)
  | Err (e : E).
Arguments Ok {A E} a.
Arguments Err {A E} e.

Declare Scope rust_scope.
Delimit Scope rust_scope with rust.
Open Scope rust_scope.
Open Scope Z_scope.

(** [let x = e?; k]: propagate the error, continue with the value. *)
Notation "'let?' x ':=' e 'in' k" :=
  (match e with Ok x => k | Err err => Err err end)
  (at level 200, x pattern, e at level 100, k at level 200) : rust_scope.

#[export] Instance result_eq_dec {A E} `{EqDecision A, EqDecision E} :
  EqDecision (result A E).
Proof. solve_decision. Defined.

(** [Result::is_ok]. *)
Definition is_ok {A E} (r : result A E) : bool :=
  match r with Ok _ => true | Err _ => false end.

(** [Result::map_err]. *)
Definition map_err {A E F} (f : E → F) (r : result A E) : result A F :=
  match r with Ok a => Ok a | Err e => Err (f e) end.

(** [str::starts_with]. *)
Definition starts_with {A} `{EqDecision A} (p s : list A) : bool := bool_decide (take (length p) s = p).

(** [Option::ok_or]. *)
Definition ok_or {A E} (o : option A) (e : E) : result A E :=
  match o with Some a => Ok a | None => Err e end.

Lemma ok_or_Ok {A E} (o : option A) (e : E) a : ok_or o e = Ok a ↔ o = Some a.
Proof. destruct o; naive_solver. Qed.

(** ** Machine integers

    An unsigned integer of the source is a [Z] in range; [as uN] casts and
    wrapping additions are written with [wrapN]. *)
Definition u8_max : Z := 2 ^ 8 - 1.
Definition u16_max : Z := 2 ^ 16 - 1.
Definition u32_max : Z := 2 ^ 32 - 1.
Definition u64_max : Z := 2 ^ 64 - 1.
Definition i64_max : Z := 2 ^ 63 - 1.
Definition i64_min : Z := - 2 ^ 63.
Definition wrap8 (z : Z) : Z := z mod 2 ^ 8.
Definition wrap16 (z : Z) : Z := z mod 2 ^ 16.
Definition wrap32 (z : Z) : Z := z mod 2 ^ 32.
Definition wrap64 (z : Z) : Z := z mod 2 ^ 64.

(** [a.saturating_sub(b)] on an unsigned type. *)
Definition sat_sub (a b : Z) : Z := Z.max 0 (a - b).

(** [u64::checked_add]. *)
Definition checked_add64 (a b : Z) : option Z :=
  if a + b <=? u64_max then Some (a + b) else None.

(** [i64] saturation, for [saturating_add] and [saturating_sub]. *)
Definition sat_i64 (z : Z) : Z := Z.max i64_min (Z.min i64_max z).

(** [z as i32] of an unsigned value. *)
Definition as_i32 (z : Z) : Z := let v := wrap32 z in if v <? 2 ^ 31 then v else v - 2 ^ 32.

Lemma wrap16_small z : 0 ≤ z ≤ u16_max → wrap16 z = z.
Proof. rewrite /wrap16 /u16_max => ?. apply Z.mod_small. lia. Qed.
Lemma wrap16_range z : 0 ≤ wrap16 z ≤ u16_max.
Proof. rewrite /wrap16 /u16_max. pose proof (Z.mod_pos_bound z (2 ^ 16)). lia. Qed.
Lemma wrap32_small z : 0 ≤ z ≤ u32_max → wrap32 z = z.
Proof. rewrite /wrap32 /u32_max => ?. apply Z.mod_small. lia. Qed.
Lemma wrap32_range z : 0 ≤ wrap32 z ≤ u32_max.
Proof. rewrite /wrap32 /u32_max. pose proof (Z.mod_pos_bound z (2 ^ 32)). lia. Qed.
Lemma wrap64_small z : 0 ≤ z ≤ u64_max → wrap64 z = z.
Proof. rewrite /wrap64 /u64_max => ?. apply Z.mod_small. lia. Qed.
Lemma wrap64_range z : 0 ≤ wrap64 z ≤ u64_max.
Proof. rewrite /wrap64 /u64_max. pose proof (Z.mod_pos_bound z (2 ^ 64)). lia. Qed.

(** Disjoint bit fields add up. *)
Lemma lor_shiftl_add a b n :
  0 ≤ n → 0 ≤ a < 2 ^ n → Z.lor a (Z.shiftl b n) = a + b * 2 ^ n.
Proof.
  intros Hn Ha. rewrite -Z.add_nocarry_lor ?Z.shiftl_mul_pow2 //.
  apply Z.bits_inj' => i Hi. rewrite Z.land_spec Z.bits_0.
  destruct (decide (i < n)).
  - by rewrite Z.mul_pow2_bits_low // andb_false_r.
  - rewrite -(Z.mod_small a (2 ^ n)) // Z.mod_pow2_bits_high //. lia.
Qed.

(** A decidable fact about the numbers below a bound, by computation. *)
Lemma forallb_seqZ (P : Z → bool) m n :
  forallb P (seqZ m n) = true → ∀ z, m ≤ z < m + n → P z = true.
Proof.
  rewrite forallb_forall => HP z Hz. apply HP, list_elem_of_In. by apply elem_of_seqZ.
Qed.

(** ** Bytes *)
Notation byte := Byte.byte (only parsing).
Notation bytes := (list Byte.byte) (only parsing).

#[export] Instance byte_eq_dec : EqDecision byte := Byte.byte_eq_dec.

#[export] Program Instance byte_countable : Countable byte :=
  inj_countable Byte.to_N Byte.of_N _.
Next Obligation. intros b. apply Byte.of_to_N. Qed.

Definition byte_Z (b : byte) : Z := Z.of_N (Byte.to_N b).

(** [z as u8]. *)
Definition Z_byte (z : Z) : byte :=
  match Byte.of_N (Z.to_N (wrap8 z)) with Some b => b | None => Byte.x00 end.

Lemma byte_Z_range b : 0 ≤ byte_Z b < 256.
Proof. rewrite /byte_Z. pose proof (Byte.to_N_bounded b). lia. Qed.

Lemma byte_Z_of_Z z : byte_Z (Z_byte z) = wrap8 z.
Proof.
  rewrite /byte_Z /Z_byte /wrap8.
  have Hr := Z.mod_pos_bound z (2 ^ 8).
  destruct (Byte.of_N _) as [b|] eqn:E.
  - apply Byte.to_of_N in E. rewrite E. lia.
  - apply Byte.of_N_None_iff in E. lia.
Qed.

Lemma Z_byte_of_byte b : Z_byte (byte_Z b) = b.
Proof.
  rewrite /Z_byte /wrap8 Z.mod_small; last by pose proof (byte_Z_range b); lia.
  by rewrite /byte_Z N2Z.id Byte.of_to_N.
Qed.

#[export] Instance byte_Z_inj : Inj (=) (=) byte_Z.
Proof. intros a b H. by rewrite -(Z_byte_of_byte a) H Z_byte_of_byte. Qed.

(** Length of a Rust slice, as the [usize] it is. *)
Definition len {A} (l : list A) : Z := Z.of_nat (length l).

Lemma len_nonneg {A} (l : list A) : 0 ≤ len l.
Proof. rewrite /len. lia. Qed.
Lemma len_nil {A} : len (@nil A) = 0.
Proof. done. Qed.
Lemma len_cons {A} (x : A) l : len (x :: l) = 1 + len l.
Proof. rewrite /len /=. lia. Qed.
Lemma len_app {A} (l k : list A) : len (l ++ k) = len l + len k.
Proof. rewrite /len length_app. lia. Qed.
Lemma len_take {A} n (l : list A) : len (take n l) = Z.min (Z.of_nat n) (len l).
Proof. rewrite /len length_take. lia. Qed.
Lemma len_drop {A} n (l : list A) : len (drop n l) = sat_sub (len l) (Z.of_nat n).
Proof. rewrite /len /sat_sub length_drop. lia. Qed.
Lemma len_0_nil {A} (l : list A) : len l = 0 → l = [].
Proof. destruct l; [done|]. rewrite len_cons. pose proof (len_nonneg l). lia. Qed.

#[export] Hint Rewrite @len_nil @len_cons @len_app @len_take @len_drop : len.

(** Normalise the lengths in the goal, then decide the arithmetic. *)
Ltac len_lia := autorewrite with len; rewrite ?/sat_sub; lia.

(** ** Fixed-size arrays [[u8; n]] *)
Definition array (n : nat) : Type := { l : bytes | length l = n }.

#[export] Instance array_eq_dec n : EqDecision (array n).
Proof. rewrite /array. apply _. Defined.
#[export] Instance array_countable n : Countable (array n).
Proof. rewrite /array. apply _. Defined.

(** [array.to_vec()] / [as_slice()]. *)
Definition array_bytes {n} (a : array n) : bytes := proj1_sig a.

(** [<[u8; n]>::try_from(slice)]: only the exact length converts. *)
Definition array_of (n : nat) (l : bytes) : option (array n) :=
  match decide (length l = n) with
  | left H => Some (exist _ l H)
  | right _ => None
  end.

Lemma array_bytes_length {n} (a : array n) : length (array_bytes a) = n.
Proof. by destruct a. Qed.

#[export] Instance array_bytes_inj n : Inj (=) (=) (@array_bytes n).
Proof. intros a b. rewrite /array_bytes => H. by apply (sig_eq_pi _). Qed.

Lemma array_of_Some n l (a : array n) : array_of n l = Some a ↔ array_bytes a = l.
Proof.
  rewrite /array_of. case_decide as Hl.
  - split; [by intros [= <-]|]. intros <-. f_equal. by apply (inj array_bytes).
  - split; [done|]. intros <-. by rewrite array_bytes_length in Hl.
Qed.

Lemma array_of_bytes {n} (a : array n) : array_of n (array_bytes a) = Some a.
Proof. by apply array_of_Some. Qed.

Lemma array_of_None n l : array_of n l = None ↔ length l ≠ n.
Proof. rewrite /array_of. by case_decide. Qed.

(** A constant array, for concrete inputs ([[b; n]] of the source). *)
Definition array_repeat (n : nat) (b : byte) : array n :=
  exist _ (replicate n b) (length_replicate n b).

(** ** Text

    A Rust [String] is the sequence of its [char]s, the Unicode scalar values;
    its bytes are their UTF-8 encodings, and [str::len] counts those bytes. *)
Notation char := Z (only parsing).
Notation str := (list Z) (only parsing).

Definition is_scalar (c : char) : bool :=
  ((0 <=? c) && (c <? 0xD800)) || ((0xE000 <=? c) && (c <? 0x110000)).

Definition utf8_encode_char (c : char) : bytes :=
  if c <? 0x80 then [Z_byte c]
  else if c <? 0x800 then [Z_byte (0xC0 + c / 64); Z_byte (0x80 + c mod 64)]
  else if c <? 0x10000 then
    [Z_byte (0xE0 + c / 4096); Z_byte (0x80 + (c / 64) mod 64); Z_byte (0x80 + c mod 64)]
  else
    [Z_byte (0xF0 + c / 262144); Z_byte (0x80 + (c / 4096) mod 64);
     Z_byte (0x80 + (c / 64) mod 64); Z_byte (0x80 + c mod 64)].

(** [s.as_bytes()]. *)
Definition str_bytes (s : str) : bytes := concat (map utf8_encode_char s).

(** [s.len()]. *)
Definition str_len (s : str) : Z := len (str_bytes s).

(** [str::strip_prefix]. *)
Definition strip_prefix (p s : str) : option str :=
  if decide (take (length p) s = p) then Some (drop (length p) s) else None.

(** An ASCII literal of the source. *)
Definition lit (s : string) : str :=
  map (λ a, Z.of_N (Ascii.N_of_ascii a)) (String.list_ascii_of_string s).

Definition is_empty {A} (l : list A) : bool :=
  match l with [] => true | _ => false end.

Lemma is_empty_true {A} (l : list A) : is_empty l = true ↔ l = [].
Proof. by destruct l. Qed.

Lemma str_bytes_app s t : str_bytes (s ++ t) = str_bytes s ++ str_bytes t.
Proof. by rewrite /str_bytes map_app concat_app. Qed.

Lemma str_len_app s t : str_len (s ++ t) = str_len s + str_len t.
Proof. by rewrite /str_len str_bytes_app len_app. Qed.

Lemma str_len_nonneg s : 0 ≤ str_len s.
Proof. apply len_nonneg. Qed.

(** [u8::is_ascii_alphanumeric] and its parts, on a byte or a char value. *)
Definition is_ascii_digit (c : Z) : bool := (0x30 <=? c) && (c <=? 0x39).
Definition is_ascii_upper (c : Z) : bool := (0x41 <=? c) && (c <=? 0x5A).
Definition is_ascii_lower (c : Z) : bool := (0x61 <=? c) && (c <=? 0x7A).
Definition is_ascii_alphanumeric (c : Z) : bool :=
  is_ascii_digit c || is_ascii_upper c || is_ascii_lower c.

(** [is_ascii_hexdigit] and [to_ascii_lowercase]. *)
Definition is_ascii_hexdigit (c : char) : bool :=
  is_ascii_digit c || ((0x61 <=? c) && (c <=? 0x66)) || ((0x41 <=? c) && (c <=? 0x46)).
Definition ascii_lowercase (c : char) : char := if is_ascii_upper c then c + 32 else c.

(** ** Decimal text *)

(** [Display] of an unsigned integer: the digits, most significant first. *)
Fixpoint dec_digits (fuel : nat) (z : Z) (acc : str) : str :=
  match fuel with
  | O => acc
  | S fuel =>
      let acc := (0x30 + z mod 10) :: acc in
      if z / 10 =? 0 then acc else dec_digits fuel (z / 10) acc
  end.

(** Twenty digits hold every [u64]. *)
Definition dec_str (z : Z) : str := dec_digits 20 z [].

(** [str::parse] to an unsigned type with maximum [max]: an optional [+], at
    least one decimal digit, no overflow. *)
Fixpoint parse_digits (max acc : Z) (s : str) : option Z :=
  match s with
  | [] => Some acc
  | c :: s =>
      if is_ascii_digit c && (acc * 10 + (c - 0x30) <=? max)
      then parse_digits max (acc * 10 + (c - 0x30)) s
      else None
  end.

Definition parse_uint (max : Z) (s : str) : option Z :=
  match s with
  | [] => None
  | c :: s' =>
      if c =? 0x2B then (if is_empty s' then None else parse_digits max 0 s')
      else parse_digits max 0 s
  end.

Lemma dec_digits_Forall fuel z acc :
  0 ≤ z → Forall (λ c, is_ascii_digit c = true) acc →
  Forall (λ c, is_ascii_digit c = true) (dec_digits fuel z acc).
Proof.
  revert z acc. induction fuel as [|fuel IH]; intros z acc Hz Ha; [done|]. simpl.
  have Hd : is_ascii_digit (0x30 + z mod 10) = true by rewrite /is_ascii_digit; zlia.
  destruct (z / 10 =? 0); [by constructor|]. apply IH; [zlia|by constructor].
Qed.

Lemma parse_dec_digits fuel max z acc :
  0 ≤ z < 10 ^ Z.of_nat fuel → z ≤ max → (0 < fuel)%nat →
  parse_digits max 0 (dec_digits fuel z acc) = parse_digits max z acc.
Proof.
  revert z acc. induction fuel as [|fuel IH]; intros z acc Hz Hm Hf; [lia|].
  rewrite Nat2Z.inj_succ Z.pow_succ_r in Hz; last lia. cbn [dec_digits].
  have Hd : is_ascii_digit (0x30 + z mod 10) = true by rewrite /is_ascii_digit; zlia.
  destruct (z / 10 =? 0) eqn:E.
  - cbn [parse_digits]. rewrite Hd. replace (0 * 10 + (0x30 + z mod 10 - 0x30)) with z by zlia.
    by rewrite (proj2 (Z.leb_le z max)).
  - rewrite IH; [|zlia|zlia|destruct fuel; [simpl in Hz; zlia|lia]].
    cbn [parse_digits]. rewrite Hd.
    replace (z / 10 * 10 + (0x30 + z mod 10 - 0x30)) with z by zlia.
    by rewrite (proj2 (Z.leb_le z max)).
Qed.

Lemma dec_digits_nonempty fuel z acc : acc ≠ [] → dec_digits fuel z acc ≠ [].
Proof.
  revert z acc. induction fuel as [|fuel IH]; intros z acc Ha; [done|]. simpl.
  destruct (_ =? 0); [done|by apply IH].
Qed.

Lemma dec_str_nonempty z : dec_str z ≠ [].
Proof.
  rewrite /dec_str. cbn [dec_digits]. cbv zeta. destruct (z / 10 =? 0); [done|].
  by apply (dec_digits_nonempty 19).
Qed.

Lemma dec_str_digits z : 0 ≤ z → Forall (λ c, is_ascii_digit c = true) (dec_str z).
Proof. intros. by apply dec_digits_Forall. Qed.

(** Printing then parsing a [u64] or narrower gives it back. *)
Lemma parse_dec_str max z : 0 ≤ z ≤ u64_max → z ≤ max → parse_uint max (dec_str z) = Some z.
Proof.
  rewrite /u64_max => Hz Hm. have Hp : parse_digits max 0 (dec_str z) = Some z.
  { rewrite /dec_str parse_dec_digits //; simpl; lia. }
  have Hd : Forall (λ c, is_ascii_digit c = true) (dec_str z) by apply dec_str_digits; lia.
  pose proof (dec_str_nonempty z) as Hn.
  destruct (dec_str z) as [|c s]; [done|]. apply Forall_cons in Hd as [Hc _]. rewrite /parse_uint /is_ascii_digit in Hc |- *.
  rewrite (proj2 (Z.eqb_neq c 0x2B)) //. lia.
Qed.

(** [str::split] on one character: never empty. *)
Fixpoint split_char (sep : char) (s : str) : list str :=
  match s with
  | [] => [[]]
  | c :: s =>
      if c =? sep then [] :: split_char sep s
      else match split_char sep s with
           | [] => [[c]]
           | p :: ps => (c :: p) :: ps
           end
  end.

Lemma split_char_notin sep s : sep ∉ s → split_char sep s = [s].
Proof.
  induction s as [|c s IH]; intros Hs; [done|]. rewrite not_elem_of_cons in Hs.
  simpl. rewrite (proj2 (Z.eqb_neq c sep)); last naive_solver. by rewrite IH; last naive_solver.
Qed.

Lemma split_char_cons sep s t :
  sep ∉ s → split_char sep (s ++ sep :: t) = s :: split_char sep t.
Proof.
  induction s as [|c s IH]; intros Hs; simpl; [by rewrite Z.eqb_refl|].
  rewrite not_elem_of_cons in Hs. rewrite (proj2 (Z.eqb_neq c sep)); last naive_solver.
  by rewrite IH; last naive_solver.
Qed.

(** ** The end of a list *)

(** The last [n] elements. *)
Definition lastn {A} (n : nat) (l : list A) : list A := drop (length l - n) l.

Lemma lastn_snoc {A} n (l : list A) x :
  (length l ≤ n)%nat → (0 < n)%nat →
  (if (length l =? n)%nat then tail l else l) ++ [x] = lastn n (l ++ [x]).
Proof.
  intros Hl Hn. rewrite /lastn length_app /=. destruct (length l =? n)%nat eqn:E.
  - apply Nat.eqb_eq in E. replace (length l + 1 - n)%nat with 1%nat by lia.
    destruct l; [simpl in E; lia|done].
  - apply Nat.eqb_neq in E. by replace (length l + 1 - n)%nat with 0%nat by lia.
Qed.

Lemma lastn_lastn_app {A} n (l k : list A) : lastn n (lastn n l ++ k) = lastn n (l ++ k).
Proof.
  rewrite /lastn !length_app !length_drop.
  destruct (decide (length l ≤ n)%nat).
  - replace (length l - n)%nat with 0%nat by lia. by rewrite drop_0 Nat.sub_0_r.
  - rewrite -(drop_app_le l k); last lia. rewrite drop_drop. f_equal. lia.
Qed.

Lemma lastn_length {A} n (l : list A) : (length (lastn n l) ≤ n)%nat.
Proof. rewrite /lastn length_drop. lia. Qed.

(** [char::is_whitespace], [str::trim_end], [trim_start] and [trim]. *)
Definition is_whitespace (c : char) : bool :=
  ((0x9 <=? c) && (c <=? 0xD)) || (c =? 0x20) || (c =? 0x85) || (c =? 0xA0) || (c =? 0x1680) ||
  ((0x2000 <=? c) && (c <=? 0x200A)) || (c =? 0x2028) || (c =? 0x2029) || (c =? 0x202F) ||
  (c =? 0x205F) || (c =? 0x3000).

Fixpoint trim_end (s : str) : str :=
  match s with
  | [] => []
  | c :: s => match trim_end s with
              | [] => if is_whitespace c then [] else [c]
              | t => c :: t
              end
  end.

Fixpoint trim_start (s : str) : str :=
  match s with
  | [] => []
  | c :: rest => if is_whitespace c then trim_start rest else s
  end.

Definition trim (s : str) : str := trim_end (trim_start s).

Lemma trim_end_id s c : last s = Some c → is_whitespace c = false → trim_end s = s.
Proof.
  induction s as [|d s IH]; [done|]. intros Hl Hc. destruct s as [|e s].
  - injection Hl as ->. simpl. by rewrite Hc.
  - cbn [trim_end]. rewrite -/(trim_end (e :: s)) IH //.
Qed.

(** Text without white space is its own trimming. *)
Lemma trim_id s : Forall (λ c, is_whitespace c = false) s → trim s = s.
Proof.
  intros Hs. rewrite /trim. destruct s as [|c s]; [done|]. cbn [trim_start].
  rewrite (Forall_inv Hs). destruct (last (c :: s)) as [d|] eqn:El.
  - apply (trim_end_id _ d); [done|]. rewrite Forall_forall in Hs. apply Hs. by apply last_Some_elem_of.
  - by apply last_None in El.
Qed.

(** ** SHA-256

    [Sha256::digest], of a crate outside the repository: a parameter. *)
Class HashOps := { sha256 : bytes → array 32 }.

(** ** Big-endian [u32] *)
Definition u32_to_be (z : Z) : bytes :=
  [Z_byte (z / 2 ^ 24); Z_byte (z / 2 ^ 16); Z_byte (z / 2 ^ 8); Z_byte z].

Definition u32_from_be (l : bytes) : Z :=
  foldl (λ acc b, acc * 256 + byte_Z b) 0 l.

Lemma u32_be_roundtrip z : 0 ≤ z ≤ u32_max → u32_from_be (u32_to_be z) = z.
Proof.
  rewrite /u32_from_be /u32_to_be /u32_max. cbn [foldl].
  rewrite !byte_Z_of_Z /wrap8 => ?. zlia.
Qed.

Lemma u32_to_be_length z : length (u32_to_be z) = 4%nat.
Proof. done. Qed.

Lemma u32_from_be_range l : length l = 4%nat → 0 ≤ u32_from_be l ≤ u32_max.
Proof.
  destruct l as [|a [|b [|c [|d [|? ?]]]]] => //= _.
  pose proof (byte_Z_range a); pose proof (byte_Z_range b);
  pose proof (byte_Z_range c); pose proof (byte_Z_range d).
  rewrite /u32_from_be /u32_max /=. lia.
Qed.

Lemma u32_to_from_be l : length l = 4%nat → u32_to_be (u32_from_be l) = l.
Proof.
  destruct l as [|a [|b [|c [|d [|? ?]]]]] => //= _.
  pose proof (byte_Z_range a); pose proof (byte_Z_range b);
  pose proof (byte_Z_range c); pose proof (byte_Z_range d).
  rewrite /u32_from_be /u32_to_be. cbn [foldl].
  repeat f_equal; apply (inj byte_Z); rewrite byte_Z_of_Z /wrap8; zlia.
Qed.

(** ** Lowercase hexadecimal: [format!("{b:02x}")] *)
Definition hex_digit (n : Z) : char := if n <? 10 then 0x30 + n else 0x61 + (n - 10).
Definition hex_byte (b : byte) : str := [hex_digit (byte_Z b / 16); hex_digit (byte_Z b mod 16)].
Definition hex_bytes (l : bytes) : str := concat (map hex_byte l).

Lemma hex_digit_ascii n : 0 ≤ n < 16 → 0x30 ≤ hex_digit n < 0x67.
Proof. rewrite /hex_digit. case_match; to_prop; lia. Qed.

Lemma hex_bytes_length l : length (hex_bytes l) = (2 * length l)%nat.
Proof. rewrite /hex_bytes. induction l; simpl in *; lia. Qed.

(** ASCII text is its own encoding. *)
Definition is_ascii (c : char) : bool := (0 <=? c) && (c <? 0x80).

Lemma str_bytes_ascii s :
  Forall (λ c, is_ascii c = true) s → str_bytes s = map Z_byte s.
Proof.
  rewrite /str_bytes. induction 1 as [|c s Hc _ IH]; [done|]. simpl. rewrite IH.
  rewrite /is_ascii in Hc. rewrite /utf8_encode_char. to_prop.
  by rewrite (proj2 (Z.ltb_lt c 0x80)); last lia.
Qed.

Lemma hex_bytes_ascii l : Forall (λ c, is_ascii c = true) (hex_bytes l).
Proof.
  rewrite /hex_bytes. induction l as [|b l IH]; simpl; [constructor|].
  pose proof (byte_Z_range b).
  have Hd n : 0 ≤ n < 16 → is_ascii (hex_digit n) = true.
  { intros Hn. pose proof (hex_digit_ascii n Hn). rewrite /is_ascii. lia. }
  constructor; [apply Hd; zlia|]. constructor; [apply Hd; zlia|done].
Qed.
