(* ===== verification/PrefixCode.v ===== *)
(** * A prefix code

    A concrete encoding of records of numbers, flags, byte strings and texts that
    reads back what it writes. It stands in for the external codecs (protobuf,
    JSON) where a property is applied to a concrete run. *)
From S2P Require Import Prelude.

(** A positive number as its bits. *)
Fixpoint pos_bytes (p : positive) : bytes :=
  match p with
  | xH => []
  | xO p => Byte.x00 :: pos_bytes p
  | xI p => Byte.x01 :: pos_bytes p
  end.
Fixpoint bytes_pos (l : bytes) : positive :=
  match l with
  | [] => xH
  | Byte.x00 :: l => xO (bytes_pos l)
  | _ :: l => xI (bytes_pos l)
  end.

Lemma bytes_pos_bytes p : bytes_pos (pos_bytes p) = p.
Proof. by induction p; simpl; f_equal. Qed.

(** Numbers are their bits and an end mark; texts and byte strings carry their
    length. *)
Definition put_Z (z : Z) : bytes := pos_bytes (countable.encode z) ++ [Byte.x02].

Fixpoint get_pos (l : bytes) : option (bytes * bytes) :=
  match l with
  | [] => None
  | Byte.x02 :: l => Some ([], l)
  | b :: l => '(p, r) ← get_pos l; Some (b :: p, r)
  end.
Definition get_Z (l : bytes) : option (Z * bytes) :=
  '(p, r) ← get_pos l; z ← countable.decode (bytes_pos p); Some (z, r).

Lemma get_pos_bytes p r : get_pos (pos_bytes p ++ Byte.x02 :: r) = Some (pos_bytes p, r).
Proof. induction p as [p IH|p IH|]; simpl; [by rewrite IH..|done]. Qed.

Lemma get_put_Z z r : get_Z (put_Z z ++ r) = Some (z, r).
Proof.
  rewrite /get_Z /put_Z -app_assoc get_pos_bytes. cbn [mbind option_bind].
  by rewrite bytes_pos_bytes decode_encode.
Qed.

Definition put_bytes (b : bytes) : bytes := put_Z (len b) ++ b.
Definition get_bytes (l : bytes) : option (bytes * bytes) :=
  '(n, l) ← get_Z l;
  if (0 <=? n) && (n <=? len l) then Some (take (Z.to_nat n) l, drop (Z.to_nat n) l) else None.

Lemma get_put_bytes b r : get_bytes (put_bytes b ++ r) = Some (b, r).
Proof.
  rewrite /get_bytes /put_bytes -app_assoc get_put_Z. cbn [mbind option_bind].
  rewrite (proj2 (Z.leb_le _ _)); [|apply len_nonneg].
  rewrite (proj2 (Z.leb_le _ _)); [|rewrite len_app; pose proof (len_nonneg r); lia].
  rewrite /len Nat2Z.id take_app_length drop_app_length //.
Qed.

(** A list of items, with its length. *)
Fixpoint get_n {A} (get : bytes → option (A * bytes)) (n : nat) (l : bytes)
    : option (list A * bytes) :=
  match n with
  | O => Some ([], l)
  | S n => '(x, l) ← get l; '(xs, l) ← get_n get n l; Some (x :: xs, l)
  end.
Definition put_list {A} (put : A → bytes) (xs : list A) : bytes :=
  put_Z (len xs) ++ concat (map put xs).
Definition get_list {A} (get : bytes → option (A * bytes)) (l : bytes) : option (list A * bytes) :=
  '(n, l) ← get_Z l; get_n get (Z.to_nat n) l.

Lemma get_put_list {A} (put : A → bytes) get xs r :
  (∀ x r, get (put x ++ r) = Some (x, r)) → get_list get (put_list put xs ++ r) = Some (xs, r).
Proof.
  intros Hg. rewrite /get_list /put_list -app_assoc get_put_Z. cbn [mbind option_bind].
  rewrite /len Nat2Z.id. induction xs as [|x xs IH]; simpl; [done|].
  by rewrite -app_assoc Hg /= IH.
Qed.

Definition put_str : str → bytes := put_list put_Z.
Definition get_str : bytes → option (str * bytes) := get_list get_Z.
Lemma get_put_str s r : get_str (put_str s ++ r) = Some (s, r).
Proof. apply get_put_list, get_put_Z. Qed.

Definition put_bool (b : bool) : bytes := put_Z (if b then 1 else 0).
Definition get_bool (l : bytes) : option (bool * bytes) := '(z, l) ← get_Z l; Some (z =? 1, l).
Lemma get_put_bool b r : get_bool (put_bool b ++ r) = Some (b, r).
Proof. rewrite /get_bool /put_bool get_put_Z. by destruct b. Qed.

(** Every message is numbers, flags, byte strings and texts, in this order. *)
Definition Parts : Type := Z * list Z * list bool * list bytes * list str.

Definition put_parts (p : Parts) : bytes :=
  let '(tag, zs, bs, ds, ts) := p in
  put_Z tag ++ put_list put_Z zs ++ put_list put_bool bs ++ put_list put_bytes ds ++
  put_list put_str ts.

Definition get_parts (l : bytes) : option Parts :=
  '(tag, l) ← get_Z l; '(zs, l) ← get_list get_Z l; '(bs, l) ← get_list get_bool l;
  '(ds, l) ← get_list get_bytes l; '(ts, _) ← get_list get_str l;
  Some (tag, zs, bs, ds, ts).

Lemma get_put_parts p : get_parts (put_parts p) = Some p.
Proof.
  destruct p as [[[[tag zs] bs] ds] ts]. rewrite /get_parts /put_parts get_put_Z /=.
  rewrite get_put_list /=; [|apply get_put_Z]. rewrite get_put_list /=; [|apply get_put_bool].
  rewrite get_put_list /=; [|apply get_put_bytes]. rewrite -(app_nil_r (put_list put_str ts)).
  rewrite get_put_list /=; [|apply get_put_str]. done.
Qed.

(** ** Lengths *)
Lemma pos_bytes_len p k : Z.pos p < 2 ^ Z.of_nat k → len (pos_bytes p) < Z.of_nat k.
Proof.
  revert k. induction p as [p IH|p IH|]; intros k Hp; simpl.
  - destruct k as [|k]; [lia|]. rewrite Nat2Z.inj_succ Z.pow_succ_r in Hp; [|lia].
    rewrite len_cons. specialize (IH k ltac:(lia)). lia.
  - destruct k as [|k]; [lia|]. rewrite Nat2Z.inj_succ Z.pow_succ_r in Hp; [|lia].
    rewrite len_cons. specialize (IH k ltac:(lia)). lia.
  - rewrite len_nil. destruct k; lia.
Qed.

Lemma put_Z_len z k : 0 ≤ z < 2 ^ Z.of_nat k → len (put_Z z) ≤ Z.of_nat k + 1.
Proof.
  intros Hz. rewrite /put_Z len_app len_cons len_nil. destruct z as [|p|p]; [| |lia].
  - change (pos_bytes (countable.encode 0)) with (@nil Byte.byte). rewrite len_nil. lia.
  - change (countable.encode (Z.pos p)) with (xO p).
    pose proof (pos_bytes_len (xO p) (S k)) as Hl.
    rewrite Nat2Z.inj_succ Z.pow_succ_r in Hl; [|lia]. specialize (Hl ltac:(lia)). lia.
Qed.

Lemma put_nat_len (n : nat) : len (put_Z (Z.of_nat n)) ≤ Z.of_nat n + 1.
Proof. apply put_Z_len. split; [lia|]. apply Z.pow_gt_lin_r; lia. Qed.

Lemma put_bytes_len b : len (put_bytes b) ≤ 2 * len b + 1.
Proof. rewrite /put_bytes len_app. pose proof (put_nat_len (length b)). rewrite /len in H |- *. lia. Qed.

Lemma put_parts_nonempty p : put_parts p ≠ [].
Proof.
  destruct p as [[[[tag zs] bs] ds] ts]. rewrite /put_parts /put_Z -app_assoc.
  by destruct (pos_bytes (countable.encode tag)).
Qed.
