(* ===== verification/Paths.v ===== *)
(** * Paths

    The part of [std::path] on Unix that the daemon's transports use: a path is
    its text, read component by component. *)
From S2P Require Import Prelude.

Inductive Component := RootDir | CurDir | ParentDir | Normal (name : str).

#[export] Instance component_eq_dec : EqDecision Component.
Proof. solve_decision. Defined.

Definition SLASH : char := 0x2F.

Definition is_absolute (path : str) : bool := bool_decide (head path = Some SLASH).

Definition component_of (name : str) : Component :=
  if decide (name = lit "..") then ParentDir else Normal name.

(** Empty components and [.] say nothing. *)
Definition said (name : str) : bool := negb (is_empty name) && negb (bool_decide (name = lit ".")).
Definition named (pieces : list str) : list Component := map component_of (filter (λ p, said p = true) pieces).

(** [Path::components]: a leading slash is the root, and the [.] that begins a
    relative path is kept. *)
Definition lead (path : str) : list Component :=
  if is_absolute path then [RootDir]
  else if bool_decide (head (split_char SLASH path) = Some (lit ".")) then [CurDir]
  else [].
Definition components (path : str) : list Component := lead path ++ named (split_char SLASH path).

(** [Path::file_name]. *)
Definition file_name (path : str) : option str :=
  match last (components path) with Some (Normal name) => Some name | _ => None end.

(** [Path::extension]: what follows the last dot of the file name, unless that
    dot begins it. *)
Fixpoint rsplit_dot (s : str) : option (str * str) :=
  match s with
  | [] => None
  | c :: s =>
      match rsplit_dot s with
      | Some (before, after) => Some (c :: before, after)
      | None => if c =? 0x2E then Some ([], s) else None
      end
  end.
Definition extension (path : str) : option str :=
  name ← file_name path;
  '(before, after) ← rsplit_dot name;
  if is_empty before then None else Some after.

(** [Path::join]: an absolute path replaces, any other is appended. *)
Definition join (root path : str) : str :=
  if is_absolute path || is_empty root then path
  else if decide (last root = Some SLASH) then root ++ path
  else root ++ SLASH :: path.

Example components_ex :
  map components [lit "/"; lit "/run//a/./b/"; lit "./a"; lit "a/../b"] =
  [[RootDir]; [RootDir; Normal (lit "run"); Normal (lit "a"); Normal (lit "b")];
   [CurDir; Normal (lit "a")]; [Normal (lit "a"); ParentDir; Normal (lit "b")]].
Proof. vm_compute. reflexivity. Qed.

Example extension_ex :
  map extension [lit "/web/app.min.js"; lit "/web/.profile"; lit "/web/dir.d/"; lit "/web/.."; lit "name."] =
  [Some (lit "js"); None; Some (lit "d"); None; Some []].
Proof. vm_compute. reflexivity. Qed.

(** ** Joining *)
Lemma named_app ps qs : named (ps ++ qs) = named ps ++ named qs.
Proof. by rewrite /named filter_app map_app. Qed.

Lemma split_char_nonempty sep s : split_char sep s ≠ [].
Proof. destruct s; simpl; repeat case_match; done. Qed.

Lemma split_char_app sep s t : split_char sep (s ++ sep :: t) = split_char sep s ++ split_char sep t.
Proof.
  induction s as [|c s IH]; simpl; [by rewrite Z.eqb_refl|]. rewrite IH. case_match; [done|].
  destruct (split_char sep s) eqn:E; [by apply split_char_nonempty in E|done].
Qed.

(** A component has no slash in it. *)
Lemma split_char_clean sep s : Forall (λ p, sep ∉ p) (split_char sep s).
Proof.
  induction s as [|c s IH]; simpl; [repeat constructor; apply not_elem_of_nil|].
  case_match eqn:E; to_prop; [constructor; [apply not_elem_of_nil|done]|].
  destruct (split_char sep s) as [|p ps]; [by repeat constructor; rewrite list_elem_of_singleton|].
  apply Forall_cons in IH as [Hp Hps]. constructor; [|done]. rewrite not_elem_of_cons. by split.
Qed.

Lemma named_clean ps : Forall (λ p, SLASH ∉ p) ps →
  Forall (λ c, match c with Normal n => SLASH ∉ n ∧ n ≠ [] ∧ n ≠ lit "." ∧ n ≠ lit ".." | _ => True end) (named ps).
Proof.
  intros Hp. rewrite /named Forall_map Forall_forall. intros p [Hk Hi]%list_elem_of_filter.
  rewrite Forall_forall in Hp. specialize (Hp p Hi). rewrite /= /component_of. case_decide; [done|]. rewrite /said in Hk. to_prop.
  split_and!; try done. by destruct p.
Qed.

Lemma lead_app r path : lead (r ++ SLASH :: path) = lead (r ++ [SLASH]).
Proof.
  rewrite /lead !split_char_app. destruct (split_char SLASH r) eqn:E; [by apply split_char_nonempty in E|].
  by destruct r.
Qed.
Lemma lead_trailing r : r ≠ [] → lead (r ++ [SLASH]) = lead r.
Proof.
  intros Hr. rewrite /lead split_char_app. destruct (split_char SLASH r) eqn:E; [by apply split_char_nonempty in E|].
  by destruct r.
Qed.

Lemma components_trailing r path :
  components (r ++ SLASH :: path) = components (r ++ [SLASH]) ++ named (split_char SLASH path).
Proof. rewrite /components lead_app !split_char_app !named_app -!app_assoc. done. Qed.

(** The components of a joined path, if it does not begin with a root or a [.] *)
Lemma components_join root path :
  lead path = [] → components (join root path) = components root ++ components path.
Proof.
  intros Hl. rewrite {3}/components Hl /=. assert (is_absolute path = false) as Ha.
  { revert Hl. rewrite /lead. by case_match. }
  rewrite /join Ha /=. destruct (is_empty root) eqn:Er.
  { apply is_empty_true in Er as ->. by rewrite /components Hl. }
  assert (root ≠ []) as Hr by (by intros ->). case_decide as Hs.
  - apply last_Some in Hs as [r ->]. by rewrite -app_assoc /= components_trailing.
  - rewrite components_trailing. f_equal. rewrite /components lead_trailing // split_char_app named_app. by rewrite app_nil_r.
Qed.
