(* ===== verification/Protocol.v ===== *)
(** * Wire messages and protocol constants

    The constants of [crates/protocol/src/lib.rs] and the message types that
    the build generates from [protocol/messages.proto]. A [uint32]/[uint64]
    field is a [Z], [bytes] a byte list, [string] a [str]; an enum-typed field
    is the [i32] that prost stores, so unknown values are representable. *)
From S2P Require Import Prelude.

(** ** Constants *)
Definition PROTOCOL_MAJOR : Z := 0.
Definition PROTOCOL_MINOR : Z := 3.
Definition TCP_FORWARD_PROTOCOL_MINOR : Z := 3.
Definition FORWARD_DATA_BYTES_MAX : Z := 8 * 1024.
Definition FILE_TRANSFER_PROTOCOL_MINOR : Z := 2.
Definition UPLOAD_CHUNK_BYTES_MAX : Z := 64 * 1024.
Definition UPLOAD_FILE_BYTES_DEFAULT : Z := 256 * 1024 * 1024.
Definition UPLOAD_FILE_BYTES_HARD_MAX : Z := 4 * 1024 * 1024 * 1024.
Definition UPLOAD_ORIGINAL_NAME_BYTES_MAX : Z := 255.
Definition UPLOAD_ID_BYTES : nat := 16.
Definition UPLOAD_SHA256_BYTES : nat := 32.
Definition UPLOAD_ABORT_REASON_BYTES_MAX : Z := 128.
Definition FRAME_BYTES_CEILING : Z := 1024 * 1024.
Definition FRAME_BYTES_DEFAULT : Z := 256 * 1024.
Definition FRAME_BYTES_FLOOR : Z := 16 * 1024.

(** ** Enumerations *)
Inductive Capability := CapUnspecified | Datagrams | Clipboard | FileTransfer | TcpForward.

Definition capability_i32 (c : Capability) : Z :=
  match c with
  | CapUnspecified => 0 | Datagrams => 1 | Clipboard => 2
  | FileTransfer => 3 | TcpForward => 4
  end.

#[export] Instance capability_eq_dec : EqDecision Capability.
Proof. solve_decision. Defined.

#[export] Instance capability_i32_inj : Inj (=) (=) capability_i32.
Proof. by intros [] []. Qed.

Definition ENCODING_UTF8 : Z := 1.

(** [pb::ShellState]. *)
Definition SHELL_STATE_RUNNING : Z := 2.
Definition SHELL_STATE_EXITED : Z := 3.
Definition SHELL_STATE_TERMINATING : Z := 4.

Inductive ErrorCode :=
  | ErrVersion | ErrUnauthenticated | ErrForbidden | ErrNotFound
  | ErrFrameTooLarge | ErrUnknownMessage | ErrInputOverflow | ErrTooSlow
  | ErrNotReady | ErrTokenExpired | ErrTokenReplayed | ErrLimitExceeded
  | ErrServerUnavailable | ErrInternal | ErrInvalidArgument | ErrChecksumMismatch.

Definition error_code_i32 (c : ErrorCode) : Z :=
  match c with
  | ErrVersion => 1 | ErrUnauthenticated => 2 | ErrForbidden => 3 | ErrNotFound => 4
  | ErrFrameTooLarge => 5 | ErrUnknownMessage => 6 | ErrInputOverflow => 7
  | ErrTooSlow => 8 | ErrNotReady => 9 | ErrTokenExpired => 10
  | ErrTokenReplayed => 11 | ErrLimitExceeded => 12 | ErrServerUnavailable => 13
  | ErrInternal => 14 | ErrInvalidArgument => 15 | ErrChecksumMismatch => 16
  end.

#[export] Instance error_code_eq_dec : EqDecision ErrorCode.
Proof. solve_decision. Defined.

#[export] Instance error_code_i32_inj : Inj (=) (=) error_code_i32.
Proof. by intros [] []. Qed.

(** ** Message bodies *)
Record ClientHello := {
  ch_protocol_major : Z; ch_protocol_minor : Z; ch_client_kind : Z;
  ch_client_build : str; ch_capabilities : list Z; ch_max_frame_bytes : Z;
  ch_max_datagram_bytes : Z; ch_encodings : list Z }.

Record ServerHello := {
  sh_protocol_major : Z; sh_protocol_minor : Z; sh_capabilities : list Z;
  sh_max_frame_bytes : Z; sh_max_datagram_bytes : Z;
  sh_keepalive_interval_ms : Z }.

Record BeginUpload := {
  bu_original_name : str; bu_total_bytes : Z; bu_sha256 : bytes }.
Record UploadAccepted := { ua_upload_id : bytes; ua_maximum_chunk_bytes : Z }.
Record UploadChunk := { uc_upload_id : bytes; uc_offset : Z; uc_data : bytes }.
Record UploadFinished := {
  uf_upload_id : bytes; uf_remote_path : str; uf_bytes_written : Z; uf_sha256 : bytes }.
Record AbortUpload := { au_upload_id : bytes; au_reason : str }.

Record PbError := { err_code : Z; err_human_message : str; err_retryable : bool }.

Inductive AuthMethodMsg :=
  | MConnectionGrant (grant : bytes)
  | MSshChallengeRequest (username : str) (public_key : bytes)
  | MSshChallengeResponse (challenge signature : bytes)
  | MPasswordRequest (username password : str).

Record AuthenticationResult := {
  ar_ok : bool; ar_user_id : str; ar_expires_at_ms : Z; ar_error_code : Z;
  ar_error_message : str; ar_challenge : bytes }.

Record ServerInfo := { si_server_id : bytes; si_display_name : str; si_healthy : bool }.

Record PbShellInfo := {
  psi_server_id : bytes; psi_shell_id : bytes; psi_state : Z; psi_title : str;
  psi_created_at_ms : Z; psi_last_attached_at_ms : Z }.

Record OpenShell := {
  os_unix_account : str; os_command : str; os_initial_cols : Z;
  os_initial_rows : Z; os_idempotency_key : bytes }.
Record ShellOpened := { so_resume_token : bytes; so_expires_at_ms : Z }.
Record AttachShell := {
  as_resume_token : bytes; as_cols : Z; as_rows : Z;
  as_last_seen_revision : Z; as_last_history_line_id : Z }.
Record ShellAttached := {
  sa_screen_snapshot : bytes; sa_screen_revision : Z;
  sa_rotated_resume_token : bytes; sa_oldest_history_line_id : Z;
  sa_newest_history_line_id : Z }.
Record ShellExited := { se_exit_code : Z; se_signaled : bool; se_signal : str }.
Record RequestHistory := {
  rh_before_line_id : Z; rh_maximum_lines : Z; rh_maximum_bytes : Z }.
Record HistoryChunk := {
  hc_first_line_id : Z; hc_lines : list str; hc_truncated_by_eviction : bool }.

(** The [oneof message] of [Envelope]. *)
Inductive Msg :=
  | MsgClientHello (m : ClientHello)
  | MsgServerHello (m : ServerHello)
  | MsgTerminalInput (data : bytes)
  | MsgTerminalOutput (data : bytes)
  | MsgTerminalResize (cols rows : Z)
  | MsgError (m : PbError)
  | MsgAuthenticate (m : option AuthMethodMsg)
  | MsgAuthenticationResult (m : AuthenticationResult)
  | MsgListServers
  | MsgServerList (servers : list ServerInfo)
  | MsgListShells
  | MsgShellList (shells : list PbShellInfo)
  | MsgOpenShell (m : OpenShell)
  | MsgShellOpened (m : ShellOpened)
  | MsgAttachShell (m : AttachShell)
  | MsgShellAttached (m : ShellAttached)
  | MsgDetachShell
  | MsgTerminateShell
  | MsgShellExited (m : ShellExited)
  | MsgRequestHistory (m : RequestHistory)
  | MsgHistoryChunk (m : HistoryChunk)
  | MsgHistoryEnd (oldest_available_line_id : Z)
  | MsgScreenSnapshot (revision : Z) (packed_screen : bytes)
  | MsgScreenDelta (revision base_revision : Z) (ops : bytes)
  | MsgAckScreenRevision (revision : Z)
  | MsgPing (nonce : Z)
  | MsgPong (nonce : Z)
  | MsgClose (code : Z) (reason : str)
  | MsgBeginUpload (m : BeginUpload)
  | MsgUploadAccepted (m : UploadAccepted)
  | MsgUploadChunk (m : UploadChunk)
  | MsgFinishUpload (upload_id : bytes)
  | MsgUploadFinished (m : UploadFinished)
  | MsgAbortUpload (m : AbortUpload)
  | MsgOpenTcpForward (host : str) (port : Z)
  | MsgTcpForwardOpened (bound_ip : str) (bound_port : Z)
  | MsgTcpForwardData (data : bytes)
  | MsgTcpForwardEof
  | MsgTcpForwardAck.

Record Envelope := {
  env_request_id : Z; env_server_id : bytes; env_shell_id : bytes;
  env_message : option Msg }.

(** ** Protobuf codec

    [prost::Message] is a library: its encoder and decoder are a parameter.
    [prost_roundtrip] is what its documentation promises and the framing layer
    relies on: a message decodes from its own encoding. *)
Class ProstMessage (M : Type) := {
  prost_encode : M → bytes;
  prost_decode : bytes → option M }.

Class ProstRoundtrip (M : Type) `{ProstMessage M} : Prop :=
  prost_roundtrip : ∀ m : M, prost_decode (prost_encode m) = Some m.
