(* ===== verification/Framing.v ===== *)
(** * Reliable-stream framing

    [crates/protocol/src/framing.rs]: a frame is a big-endian [u32] length and
    that many payload bytes. The encoder, the incremental [FrameDecoder] with
    its early rejection of oversized headers, and the transport read loop of
    [crates/daemon/src/webtransport.rs] that drives it. *)
From Stdlib Require Import Strings.Byte.
From S2P Require Import Prelude Protocol.

Definition LENGTH_PREFIX_BYTES : nat := 4.

Inductive FrameError :=
  | TooLarge (flen fmax : Z)
  | Decode
  | EncodeTooLarge (fmax : Z).

#[export] Instance frame_error_eq_dec : EqDecision FrameError.
Proof. solve_decision. Defined.

Definition checked_payload_len (header : bytes) (maximum : Z) : result Z FrameError :=
  let flen := u32_from_be header in
  if maximum <? flen then Err (TooLarge flen maximum) else Ok flen.

Record FrameDecoder := { max_frame_bytes : Z; buf : bytes }.

Definition decoder_new (max : Z) : FrameDecoder :=
  {| max_frame_bytes := max; buf := [] |}.

(** [self.buf.extend_from_slice(bs)]. *)
Definition buf_extend (d : FrameDecoder) (bs : bytes) : FrameDecoder :=
  {| max_frame_bytes := max_frame_bytes d; buf := buf d ++ bs |}.

Definition buffered (d : FrameDecoder) : Z := len (buf d).

Definition check_header (d : FrameDecoder) : result unit FrameError :=
  if (LENGTH_PREFIX_BYTES <=? length (buf d))%nat then
    let flen := u32_from_be (take LENGTH_PREFIX_BYTES (buf d)) in
    if max_frame_bytes d <? flen then Err (TooLarge flen (max_frame_bytes d))
    else Ok tt
  else Ok tt.

Definition extend (d : FrameDecoder) (bs : bytes) : FrameDecoder * result unit FrameError :=
  if (length (buf d) <? LENGTH_PREFIX_BYTES)%nat then
    let header_bytes := ((LENGTH_PREFIX_BYTES - length (buf d)) `min` length bs)%nat in
    let d1 := buf_extend d (take header_bytes bs) in
    match check_header d1 with
    | Err e => (d1, Err e)
    | Ok _ =>
        let d2 := buf_extend d1 (drop header_bytes bs) in
        (d2, check_header d2)
    end
  else
    match check_header d with
    | Err e => (d, Err e)
    | Ok _ =>
        let d2 := buf_extend d bs in
        (d2, check_header d2)
    end.

Section codec.
Context {M : Type} `{ProstMessage M}.

Definition encode_delimited (m : M) (max : Z) : result bytes FrameError :=
  let l := len (prost_encode m) in
  if max <? l then Err (EncodeTooLarge max)
  else Ok (u32_to_be (wrap32 l) ++ prost_encode m).

(** [encode_frame] and [encode_agent_frame] are [encode_delimited] at the
    two envelope types. *)
Definition encode_frame (m : M) (max : Z) : result bytes FrameError :=
  encode_delimited m max.

(** [decode_agent_payload]. *)
Definition decode_payload (payload : bytes) : result M FrameError :=
  ok_or (prost_decode payload) Decode.

Definition next_frame (d : FrameDecoder) : FrameDecoder * result (option M) FrameError :=
  match check_header d with
  | Err e => (d, Err e)
  | Ok _ =>
      if (length (buf d) <? LENGTH_PREFIX_BYTES)%nat then (d, Ok None)
      else
        let flen := Z.to_nat (u32_from_be (take LENGTH_PREFIX_BYTES (buf d))) in
        if (length (buf d) <? LENGTH_PREFIX_BYTES + flen)%nat then (d, Ok None)
        else
          let rest := drop LENGTH_PREFIX_BYTES (buf d) in
          let payload := take flen rest in
          let d' := {| max_frame_bytes := max_frame_bytes d; buf := drop flen rest |} in
          match prost_decode payload with
          | Some m => (d', Ok (Some m))
          | None => (d', Err Decode)
          end
  end.

(** The inner [loop] of the transport reader: pop frames until none is
    complete. Each turn that continues consumes a length prefix, so the
    buffer length is enough fuel ([drain_fuel_enough]). *)
Fixpoint drain (fuel : nat) (d : FrameDecoder) :
    list M * (FrameDecoder * option FrameError) :=
  match fuel with
  | O => ([], (d, None))
  | S fuel =>
      match next_frame d with
      | (d', Ok (Some m)) => let '(ms, r) := drain fuel d' in (m :: ms, r)
      | (d', Ok None) => ([], (d', None))
      | (d', Err e) => ([], (d', Some e))
      end
  end.

(** The outer reader loop over the chunks the transport returns: extend,
    drain, stop at the first error. *)
Fixpoint read_loop (d : FrameDecoder) (chunks : list bytes) :
    list M * (FrameDecoder * option FrameError) :=
  match chunks with
  | [] => ([], (d, None))
  | c :: cs =>
      match extend d c with
      | (d', Err e) => ([], (d', Some e))
      | (d', Ok _) =>
          match drain (S (length (buf d'))) d' with
          | (ms, (d'', Some e)) => (ms, (d'', Some e))
          | (ms, (d'', None)) =>
              let '(ms', r) := read_loop d'' cs in (ms ++ ms', r)
          end
      end
  end.

(** ** Reference semantics of a byte stream

    [Frames max bs ms o]: the stream [bs] holds the messages [ms], and then
    ends as [o] says: with an incomplete frame [Pending rest], or at a frame
    the protocol refuses. *)
Inductive stream_end := Pending (rest : bytes) | Failed (e : FrameError).

Inductive Frames (max : Z) : bytes → list M → stream_end → Prop :=
  | frames_short bs :
      (length bs < 4)%nat → Frames max bs [] (Pending bs)
  | frames_oversized hdr bs :
      length hdr = 4%nat → max < u32_from_be hdr →
      Frames max (hdr ++ bs) [] (Failed (TooLarge (u32_from_be hdr) max))
  | frames_partial hdr bs :
      length hdr = 4%nat → u32_from_be hdr ≤ max → len bs < u32_from_be hdr →
      Frames max (hdr ++ bs) [] (Pending (hdr ++ bs))
  | frames_malformed hdr payload bs :
      length hdr = 4%nat → u32_from_be hdr ≤ max → len payload = u32_from_be hdr →
      prost_decode payload = None →
      Frames max (hdr ++ payload ++ bs) [] (Failed Decode)
  | frames_message hdr payload bs m ms o :
      length hdr = 4%nat → u32_from_be hdr ≤ max → len payload = u32_from_be hdr →
      prost_decode payload = Some m → Frames max bs ms o →
      Frames max (hdr ++ payload ++ bs) (m :: ms) o.
End codec.

(** ** Shapes of a buffered stream *)
Inductive stream_view (max : Z) : bytes → Prop :=
  | view_short bs : (length bs < 4)%nat → stream_view max bs
  | view_oversized hdr bs :
      length hdr = 4%nat → max < u32_from_be hdr → stream_view max (hdr ++ bs)
  | view_partial hdr bs :
      length hdr = 4%nat → u32_from_be hdr ≤ max → len bs < u32_from_be hdr →
      stream_view max (hdr ++ bs)
  | view_full hdr payload bs :
      length hdr = 4%nat → u32_from_be hdr ≤ max → len payload = u32_from_be hdr →
      stream_view max (hdr ++ payload ++ bs).

Lemma stream_viewP max bs : stream_view max bs.
Proof.
  destruct (decide (length bs < 4)%nat) as [|Hl]; first by apply view_short.
  rewrite -(take_drop 4 bs).
  set (hdr := take 4 bs). set (rest := drop 4 bs).
  have Hh : length hdr = 4%nat by rewrite /hdr length_take; lia.
  have Hr := u32_from_be_range hdr Hh.
  destruct (decide (max < u32_from_be hdr)); first by apply view_oversized.
  destruct (decide (len rest < u32_from_be hdr)); first by (apply view_partial; lia).
  rewrite -(take_drop (Z.to_nat (u32_from_be hdr)) rest).
  apply view_full; [done|lia|]. rewrite len_take. lia.
Qed.

Lemma check_header_short d : (length (buf d) < 4)%nat → check_header d = Ok tt.
Proof. rewrite /check_header => ?. by rewrite (proj2 (Nat.leb_gt _ _)). Qed.

Lemma check_header_app max hdr bs :
  length hdr = 4%nat →
  check_header {| max_frame_bytes := max; buf := hdr ++ bs |} =
  if max <? u32_from_be hdr then Err (TooLarge (u32_from_be hdr) max) else Ok tt.
Proof.
  intros Hh. rewrite /check_header. cbn [buf max_frame_bytes]. rewrite take_app_length' //.
  rewrite (proj2 (Nat.leb_le _ _)) // length_app Hh /LENGTH_PREFIX_BYTES. lia.
Qed.

Lemma check_header_Err d e :
  check_header d = Err e →
  ∃ l, e = TooLarge l (max_frame_bytes d) ∧ max_frame_bytes d < l.
Proof.
  rewrite /check_header. destruct (_ <=? _)%nat; [|done].
  case_match eqn:E; [|done]. intros [= <-]. to_prop. eauto.
Qed.

Section proofs.
Context {M : Type} `{ProstMessage M}.
Implicit Types (d : FrameDecoder) (m : M) (ms : list M).

Let D (max : Z) (b : bytes) : FrameDecoder := {| max_frame_bytes := max; buf := b |}.

Lemma next_frame_short max bs :
  (length bs < 4)%nat → next_frame (M:=M) (D max bs) = (D max bs, Ok None).
Proof.
  intros Hl. rewrite /next_frame check_header_short //.
  by rewrite (proj2 (Nat.ltb_lt _ _)).
Qed.

Lemma next_frame_oversized max hdr bs :
  length hdr = 4%nat → max < u32_from_be hdr →
  next_frame (M:=M) (D max (hdr ++ bs)) =
  (D max (hdr ++ bs), Err (TooLarge (u32_from_be hdr) max)).
Proof.
  intros Hh Hm. rewrite /next_frame /D check_header_app //.
  by rewrite (proj2 (Z.ltb_lt _ _) Hm).
Qed.

Lemma next_frame_partial max hdr bs :
  length hdr = 4%nat → u32_from_be hdr ≤ max → len bs < u32_from_be hdr →
  next_frame (M:=M) (D max (hdr ++ bs)) = (D max (hdr ++ bs), Ok None).
Proof.
  intros Hh Hm Hl. rewrite /next_frame /D check_header_app // (proj2 (Z.ltb_ge _ _) Hm).
  cbn [buf max_frame_bytes]. rewrite take_app_length' // length_app Hh.
  rewrite (proj2 (Nat.ltb_ge _ _)); last by rewrite /LENGTH_PREFIX_BYTES; lia.
  rewrite (proj2 (Nat.ltb_lt _ _)) //. rewrite /len in Hl. rewrite /LENGTH_PREFIX_BYTES. lia.
Qed.

Lemma next_frame_full max hdr payload bs :
  length hdr = 4%nat → u32_from_be hdr ≤ max → len payload = u32_from_be hdr →
  next_frame (M:=M) (D max (hdr ++ payload ++ bs)) =
  (D max bs, match prost_decode payload with Some m => Ok (Some m) | None => Err Decode end).
Proof.
  intros Hh Hm Hl. rewrite /next_frame /D check_header_app // (proj2 (Z.ltb_ge _ _) Hm).
  cbn [buf max_frame_bytes]. rewrite take_app_length' // drop_app_length' //.
  have Hp : length payload = Z.to_nat (u32_from_be hdr) by rewrite /len in Hl; lia.
  rewrite take_app_length' // drop_app_length' // !length_app Hh.
  rewrite (proj2 (Nat.ltb_ge _ _)); last by rewrite /LENGTH_PREFIX_BYTES; lia.
  rewrite (proj2 (Nat.ltb_ge _ _)); last by rewrite /LENGTH_PREFIX_BYTES; lia.
  by destruct (prost_decode payload).
Qed.

(** The fuel of [drain] is never exhausted: with more fuel than buffered
    bytes it runs to an incomplete frame or an error, as the stream says. *)
Lemma drain_frames max bs fuel :
  (length bs < fuel)%nat →
  ∃ ms d r, drain (M:=M) fuel (D max bs) = (ms, (d, r)) ∧ max_frame_bytes d = max ∧
    match r with
    | None => Frames max bs ms (Pending (buf d)) ∧ next_frame (M:=M) d = (d, Ok None)
    | Some e => Frames max bs ms (Failed e)
    end.
Proof.
  revert bs. induction fuel as [|fuel IH]; intros bs Hf; first lia.
  destruct (stream_viewP max bs) as [bs Hs|hdr bs Hh Ho|hdr bs Hh Hm Hl|hdr p bs Hh Hm Hl]; simpl.
  - rewrite next_frame_short //. eexists _, _, _. split; first done.
    split; [done|]. split; [by constructor|by apply next_frame_short].
  - rewrite next_frame_oversized //. eexists _, _, _. split; first done. by split; [|constructor].
  - rewrite next_frame_partial //. eexists _, _, _. split; first done.
    split; [done|]. split; [by constructor|by apply next_frame_partial].
  - rewrite next_frame_full //. rewrite !length_app in Hf.
    destruct (prost_decode p) as [m|] eqn:E; last first.
    { eexists _, _, _. split; first done. by split; [|constructor]. }
    destruct (IH bs) as (ms & d & r & Hd & Hmax & Hr); first lia.
    rewrite Hd. eexists _, _, _. split; first done. split; first done.
    destruct r; [|destruct Hr as [Hr ?]; split; [|done]]; by econstructor.
Qed.

Lemma frames_app_failed max bs ms e ext :
  Frames max bs ms (Failed e) → Frames (M:=M) max (bs ++ ext) ms (Failed e).
Proof.
  remember (Failed e) as o eqn:Eo. intros HF. revert Eo.
  induction HF; intros Eo; simplify_eq; rewrite -!app_assoc.
  - by apply frames_oversized.
  - by apply frames_malformed.
  - eapply frames_message; eauto.
Qed.

Lemma frames_app_pending max bs ms r ext ms' o :
  Frames max bs ms (Pending r) → Frames max (r ++ ext) ms' o →
  Frames (M:=M) max (bs ++ ext) (ms ++ ms') o.
Proof.
  remember (Pending r) as p eqn:Ep. intros HF. revert Ep.
  induction HF; intros Ep HF'; simplify_eq; [done|done|].
  rewrite -!app_assoc. eapply frames_message; eauto.
Qed.

(** Conversely [drain] computes whatever the stream holds. *)
Lemma frames_drain max bs ms o fuel :
  Frames (M:=M) max bs ms o → (length bs < fuel)%nat →
  ∃ d, drain (M:=M) fuel (D max bs) =
    (ms, match o with Pending r => (D max r, None) | Failed e => (d, Some e) end).
Proof.
  intros HF. revert fuel.
  induction HF as [bs Hs|hdr bs Hh Ho|hdr bs Hh Hm Hl|hdr p bs Hh Hm Hl Hd
    |hdr p bs m ms o Hh Hm Hl Hd HF IH]; intros [|fuel] Hf; try lia; simpl.
  - exists (D max bs). by rewrite next_frame_short.
  - eexists. by rewrite next_frame_oversized.
  - exists (D max bs). by rewrite next_frame_partial.
  - eexists. by rewrite next_frame_full // Hd.
  - rewrite next_frame_full // Hd. rewrite !length_app in Hf.
    destruct (IH fuel) as [d Hdr]; first lia. exists d. by rewrite Hdr.
Qed.

Lemma frames_det max bs ms o ms' o' :
  Frames (M:=M) max bs ms o → Frames max bs ms' o' → ms = ms' ∧ o = o'.
Proof.
  intros H1 H2.
  destruct (frames_drain _ _ _ _ (S (length bs)) H1) as [d1 E1]; first lia.
  destruct (frames_drain _ _ _ _ (S (length bs)) H2) as [d2 E2]; first lia.
  rewrite E1 in E2. destruct o, o'; naive_solver.
Qed.

Lemma extend_spec d c :
  check_header d = Ok tt →
  extend d c = match check_header (buf_extend d c) with
               | Ok _ => (buf_extend d c, Ok tt)
               | Err e => (buf_extend d (take (4 - length (buf d)) c), Err e)
               end.
Proof.
  destruct d as [max b]. rewrite /extend /buf_extend. cbn [buf max_frame_bytes].
  intros Hc. destruct (decide (length b < 4)%nat) as [Hb|Hb].
  - rewrite (proj2 (Nat.ltb_lt _ _) Hb). rewrite -app_assoc take_drop.
    destruct (decide (length b + length c < 4)%nat) as [Hs|Hs].
    + rewrite Nat.min_r; last by rewrite /LENGTH_PREFIX_BYTES; lia.
      rewrite take_ge // !check_header_short //= length_app; lia.
    + rewrite Nat.min_l; last by rewrite /LENGTH_PREFIX_BYTES; lia.
      set (n := (4 - length b)%nat). change (LENGTH_PREFIX_BYTES - length b)%nat with n.
      have Hh : length (b ++ take n c) = 4%nat by rewrite length_app length_take; lia.
      have E1 := check_header_app max (b ++ take n c) [] Hh.
      have E2 := check_header_app max (b ++ take n c) (drop n c) Hh.
      rewrite -app_assoc take_drop in E2. rewrite app_nil_r in E1.
      rewrite E1 E2. by destruct (max <? _).
  - rewrite (proj2 (Nat.ltb_ge _ _)); last by rewrite /LENGTH_PREFIX_BYTES; lia.
    rewrite Hc. rewrite -(take_drop 4 b) in Hc |- *.
    have Hh : length (take 4 b) = 4%nat by rewrite length_take; lia.
    rewrite check_header_app // in Hc. rewrite -app_assoc check_header_app //.
    by case_match.
Qed.

Lemma drained_header d : next_frame (M:=M) d = (d, Ok None) → check_header d = Ok tt.
Proof. rewrite /next_frame. by destruct (check_header d) as [[]|]. Qed.

Lemma check_header_failed max bs e :
  check_header (D max bs) = Err e → Frames (M:=M) max bs [] (Failed e).
Proof.
  destruct (stream_viewP max bs) as [bs Hs|hdr bs Hh Ho|hdr bs Hh Hm Hl|hdr p bs Hh Hm Hl].
  - by rewrite check_header_short.
  - rewrite check_header_app // (proj2 (Z.ltb_lt _ _) Ho) => [= <-]. by constructor.
  - by rewrite check_header_app // (proj2 (Z.ltb_ge _ _) Hm).
  - by rewrite check_header_app // (proj2 (Z.ltb_ge _ _) Hm).
Qed.

Lemma read_loop_frames max b chunks :
  next_frame (M:=M) (D max b) = (D max b, Ok None) →
  ∃ ms d r, read_loop (M:=M) (D max b) chunks = (ms, (d, r)) ∧
    Frames max (b ++ concat chunks) ms
      (match r with None => Pending (buf d) | Some e => Failed e end).
Proof.
  revert b. induction chunks as [|c cs IH]; intros b Hd; cbn [read_loop concat].
  { eexists _, _, _. split; first done. rewrite app_nil_r.
    destruct (drain_frames max b (S (length b))) as (ms & d & r & E & _ & HF); first lia.
    simpl in E. rewrite Hd in E. simplify_eq. by destruct HF. }
  rewrite extend_spec; last by apply drained_header.
  destruct (check_header (buf_extend (D max b) c)) as [[]|e] eqn:Hc; last first.
  { eexists _, _, _. split; first done. rewrite app_assoc.
    apply frames_app_failed. by apply check_header_failed. }
  destruct (drain_frames max (b ++ c) (S (length (b ++ c))))
    as (ms & d & r & E & Hmax & HF); first lia.
  change (buf_extend (D max b) c) with (D max (b ++ c)). change (buf (D max (b ++ c))) with (b ++ c). rewrite E.
  destruct r as [e|].
  { eexists _, _, _. split; first done. rewrite app_assoc. by apply frames_app_failed. }
  destruct HF as [HF Hnf]. destruct d as [max' b']. simpl in Hmax. subst max'.
  destruct (IH b' Hnf) as (ms' & d' & r & E' & HF').
  change {| max_frame_bytes := max; buf := b' |} with (D max b'). rewrite E'.
  eexists _, _, _. split; first done. rewrite app_assoc.
  by eapply frames_app_pending.
Qed.
End proofs.

(** ** Properties *)
Section properties.
Context {M : Type} `{ProstMessage M}.

Lemma drained_new max : next_frame (M:=M) (decoder_new max) = (decoder_new max, Ok None).
Proof. apply next_frame_short. simpl. lia. Qed.

(** C38: The reader loop over any division of a byte stream into transport
    chunks delivers exactly the messages the stream holds and ends as the
    stream ends: the incremental decoder agrees with the reference semantics
    of the whole stream, errors included. *)
Theorem read_loop_correct (max : Z) (chunks : list bytes) (ms : list M) (o : stream_end) :
  Frames max (concat chunks) ms o ↔
  ∃ d r, read_loop (decoder_new max) chunks = (ms, (d, r)) ∧
    o = match r with None => Pending (buf d) | Some e => Failed e end.
Proof.
  destruct (read_loop_frames max [] chunks (drained_new max)) as (ms' & d & r & E & HF).
  rewrite -/(decoder_new max) in E. simpl in HF. split.
  - intros HF'. destruct (frames_det _ _ _ _ _ _ HF' HF) as [-> ->]. eauto.
  - intros (d' & r' & E' & ->). rewrite E' in E. by simplify_eq.
Qed.

Lemma encode_frame_Ok (m : M) max w :
  encode_frame m max = Ok w → max ≤ u32_max →
  ∃ hdr, w = hdr ++ prost_encode m ∧ length hdr = 4%nat ∧
    u32_from_be hdr = len (prost_encode m) ∧ len (prost_encode m) ≤ max.
Proof.
  rewrite /encode_frame /encode_delimited. case_match eqn:E; [done|].
  intros [= <-] Hm. to_prop. pose proof (len_nonneg (prost_encode m)).
  exists (u32_to_be (wrap32 (len (prost_encode m)))). split; [done|]. split; [done|].
  rewrite wrap32_small; last lia. rewrite u32_be_roundtrip; lia.
Qed.

Lemma frames_encoded `{!ProstRoundtrip M} max (ms : list M) ws :
  max ≤ u32_max → Forall2 (λ m w, encode_frame m max = Ok w) ms ws →
  Frames max (concat ws) ms (Pending []).
Proof.
  intros Hm. induction 1 as [|m w ms ws Hw _ IH]; simpl; first by constructor; simpl; lia.
  destruct (encode_frame_Ok _ _ _ Hw Hm) as (hdr & -> & Hh & Hu & Hl).
  rewrite -app_assoc. eapply frames_message; [done|lia|lia| |done]. apply prost_roundtrip.
Qed.

(** Messages encoded within the negotiated maximum arrive, in order and
    without error, however the transport fragments their frames; nothing
    stays buffered. *)
Theorem frame_roundtrip `{!ProstRoundtrip M} (max : Z) (ms : list M) (ws chunks : list bytes) :
  max ≤ u32_max →
  Forall2 (λ m w, encode_frame m max = Ok w) ms ws →
  concat chunks = concat ws →
  ∃ d, read_loop (decoder_new max) chunks = (ms, (d, None)) ∧ buffered d = 0.
Proof.
  intros Hm Hws Hc. pose proof (frames_encoded max ms ws Hm Hws) as HF.
  destruct (read_loop_frames max [] chunks (drained_new max)) as (ms' & d & r & E & HF').
  rewrite /= Hc in HF'. destruct (frames_det _ _ _ _ _ _ HF HF') as [-> Eo].
  destruct r as [e|]; [done|]. injection Eo as Eo. exists d. by rewrite /buffered -Eo.
Qed.

(** An oversized header is refused before its payload is copied: when
    [extend] fails, at most the four header bytes are held; and a drained
    decoder never holds more than one frame plus the bytes just read. *)
Theorem extend_bounded (d : FrameDecoder) (c : bytes) :
  next_frame (M:=M) d = (d, Ok None) → 0 ≤ max_frame_bytes d →
  match extend d c with
  | (d', Err e) => buffered d' ≤ 4 ∧
      ∃ l, e = TooLarge l (max_frame_bytes d) ∧ max_frame_bytes d < l
  | (d', Ok _) => buffered d' = buffered d + len c ∧
      buffered d' < 4 + max_frame_bytes d + len c
  end.
Proof.
  destruct d as [max b]. intros Hnf Hm. simpl in Hm.
  pose proof (drained_header _ Hnf) as Hc. rewrite extend_spec // /buf_extend /buffered.
  cbn [buf max_frame_bytes].
  destruct (check_header {| max_frame_bytes := max; buf := b ++ c |}) as [[]|e] eqn:Ec.
  - split; first by rewrite len_app. rewrite len_app. enough (len b < 4 + max) by lia.
    destruct (stream_viewP max b) as [bs Hs|hdr bs Hh Ho|hdr bs Hh Hm' Hl|hdr p bs Hh Hm' Hl].
    + rewrite /len. lia.
    + by rewrite next_frame_oversized in Hnf.
    + rewrite len_app /len Hh. rewrite /len in Hl. lia.
    + rewrite next_frame_full // in Hnf. by destruct (prost_decode p).
  - have Hb : (length b < 4)%nat.
    { destruct (decide (length b < 4)%nat) as [|Hb]; [done|exfalso].
      rewrite -(take_drop 4 b) in Hc Ec.
      have Hh : length (take 4 b) = 4%nat by rewrite length_take; lia.
      rewrite check_header_app // in Hc. rewrite -app_assoc check_header_app // in Ec.
      by case_match. }
    split; [rewrite /len length_app length_take; lia|].
    by apply check_header_Err in Ec.
Qed.
End properties.

(** A concrete codec: the message is its bytes. *)
Definition raw_message : ProstMessage bytes :=
  {| prost_encode := id; prost_decode := Some |}.

Lemma raw_roundtrip : @ProstRoundtrip bytes raw_message.
Proof. done. Qed.

Lemma frame_roundtrip_witness :
  ∃ d, read_loop (H:=raw_message) (decoder_new 1024)
         [[x00; x00]; [x00; x02; x61]; [x62; x00; x00; x00]; [x00]] =
       ([[x61; x62]; []], (d, None)) ∧ buffered d = 0.
Proof.
  apply (@frame_roundtrip bytes raw_message raw_roundtrip 1024 [[x61; x62]; []]
           [[x00; x00; x00; x02; x61; x62]; [x00; x00; x00; x00]]); [done| |done].
  repeat constructor.
Defined.

Lemma extend_bounded_witness :
  match extend (decoder_new 1024) [x00; x10; x00; x00; x61] with
  | (d', Err e) => buffered d' ≤ 4 ∧ ∃ l, e = TooLarge l 1024 ∧ 1024 < l
  | (d', Ok _) => buffered d' = 0 + 5 ∧ buffered d' < 4 + 1024 + 5
  end.
Proof.
  exact (@extend_bounded bytes raw_message (decoder_new 1024) [x00; x10; x00; x00; x61]
           eq_refl ltac:(done)).
Defined.
