(* ===== verification/Wire.v ===== *)
(** * WebSocket wire mapping

    [crates/daemon/src/wire.rs]: a binary message is an unsigned LEB128 channel
    id followed by exactly one frame. *)
From Stdlib Require Import Strings.Byte.
From S2P Require Import Prelude Protocol Framing.

Inductive WireError :=
  | BadVarint
  | WireFrame (e : FrameError)
  | NotExactlyOneFrame.

(** The [loop] of [encode_varint]. A [u64] has at most ten 7-bit groups, so
    ten turns reach the [break]. *)
Fixpoint encode_varint_loop (fuel : nat) (v : Z) : bytes :=
  match fuel with
  | O => []
  | S fuel =>
      let byte := Z.land v 0x7f in
      let v' := Z.shiftr v 7 in
      if v' =? 0 then [Z_byte byte]
      else Z_byte (Z.lor byte 0x80) :: encode_varint_loop fuel v'
  end.

Definition encode_varint (v : Z) : bytes := encode_varint_loop 10 v.

(** The [for] loop of [decode_varint]: [value] and [shift] are its locals,
    [i] the loop index. The shift is a [u64] shift: bits pushed past bit 63
    are lost. *)
Fixpoint decode_varint_loop (l : bytes) (value shift i : Z) : option (Z * Z) :=
  match l with
  | [] => None
  | b :: rest =>
      if 64 <=? shift then None
      else
        let value' := Z.lor value (wrap64 (Z.shiftl (Z.land (byte_Z b) 0x7f) shift)) in
        if Z.land (byte_Z b) 0x80 =? 0 then Some (value', i + 1)
        else decode_varint_loop rest value' (shift + 7) (i + 1)
  end.

Definition decode_varint (l : bytes) : option (Z * Z) := decode_varint_loop l 0 0 0.

Section message.
Context {M : Type} `{ProstMessage M}.

Definition encode_message (channel : Z) (m : M) (max : Z) : result bytes WireError :=
  match encode_frame m max with
  | Ok frame => Ok (encode_varint channel ++ frame)
  | Err e => Err (WireFrame e)
  end.

Definition decode_message (data : bytes) (max : Z) : result (Z * M) WireError :=
  match decode_varint data with
  | None => Err BadVarint
  | Some (channel, used) =>
      match extend (decoder_new max) (drop (Z.to_nat used) data) with
      | (_, Err e) => Err (WireFrame e)
      | (d, Ok _) =>
          match next_frame d with
          | (_, Err e) => Err (WireFrame e)
          | (_, Ok None) => Err NotExactlyOneFrame
          | (d', Ok (Some m)) =>
              if buffered d' =? 0 then Ok (channel, m) else Err NotExactlyOneFrame
          end
      end
  end.
End message.

(** ** Bit arithmetic of the groups *)
Lemma land_7f v : Z.land v 0x7f = v mod 128.
Proof. apply (Z.land_ones v 7). lia. Qed.

Lemma shiftr_7 v : Z.shiftr v 7 = v / 128.
Proof. by rewrite Z.shiftr_div_pow2. Qed.

Lemma lor_80 g : 0 ≤ g < 128 → Z.lor g 0x80 = g + 128.
Proof. intros Hg. by rewrite (lor_shiftl_add g 1 7). Qed.

Lemma land_80 b : 0 ≤ b < 256 → (Z.land b 0x80 =? 0) = (b <? 128).
Proof.
  intros Hb. apply eqb_prop.
  apply (forallb_seqZ (λ b, eqb (Z.land b 0x80 =? 0) (b <? 128)) 0 256); [by vm_compute|lia].
Qed.

(** A group that fits is added above the bits already read. *)
Lemma group_shift value g shift :
  0 ≤ shift → 0 ≤ value < 2 ^ shift → 0 ≤ g → g * 2 ^ shift < 2 ^ 64 →
  Z.lor value (wrap64 (Z.shiftl g shift)) = value + g * 2 ^ shift.
Proof.
  intros Hs Hval Hg Hfit. rewrite wrap64_small; first by rewrite lor_shiftl_add.
  rewrite Z.shiftl_mul_pow2 // /u64_max.
  pose proof (Z.pow_nonneg 2 shift). nia.
Qed.

(** The loop decodes what the encoder wrote, onto the bits already read. *)
Lemma decode_encode_loop fuel v value shift i rest :
  0 ≤ v < 128 ^ Z.of_nat fuel → 0 ≤ shift < 64 → 0 ≤ value < 2 ^ shift →
  v * 2 ^ shift < 2 ^ 64 → (0 < fuel)%nat →
  decode_varint_loop (encode_varint_loop fuel v ++ rest) value shift i =
  Some (value + v * 2 ^ shift, i + len (encode_varint_loop fuel v)).
Proof.
  revert v value shift i.
  induction fuel as [|fuel IH]; intros v value shift i Hv Hs Hval Hfit Hf; [lia|].
  have Hp : 0 < 2 ^ shift by apply Z.pow_pos_nonneg; lia.
  have Hg := Z.mod_pos_bound v 128 ltac:(lia).
  have Hdm := Z.div_mod v 128 ltac:(lia).
  cbn [encode_varint_loop]. rewrite shiftr_7 land_7f.
  destruct (Z.eqb_spec (v / 128) 0) as [Hz|Hz]; cbn [app decode_varint_loop];
    rewrite (proj2 (Z.leb_gt 64 shift)) ?(lor_80 (v mod 128)); try lia;
    rewrite byte_Z_of_Z /wrap8 Z.mod_small ?land_7f; try lia; rewrite land_80; try lia.
  - have -> : v mod 128 = v by lia. rewrite (proj2 (Z.ltb_lt v 128)); last lia.
    rewrite (Z.mod_small v 128); last lia. rewrite group_shift //; lia.
  - rewrite (proj2 (Z.ltb_ge (v mod 128 + 128) 128)); last lia.
    have Hq : 0 < v / 128 by zlia.
    have -> : (v mod 128 + 128) mod 128 = v mod 128 by zlia.
    have Hs7 : 2 ^ (shift + 7) = 2 ^ shift * 128 by rewrite Z.pow_add_r //; lia.
    rewrite group_shift; [|lia|lia|lia|nia].
    have Hsh : shift + 7 < 64 by apply (Z.pow_lt_mono_r_iff 2); nia.
    rewrite Nat2Z.inj_succ Z.pow_succ_r in Hv; last lia.
    have Hf' : (0 < fuel)%nat by destruct fuel; [simpl in Hv; lia|lia].
    rewrite IH; try nia; rewrite Hs7; try nia.
    rewrite len_cons. f_equal. f_equal; [nia|lia].
Qed.

Lemma encode_varint_loop_length fuel v :
  len (encode_varint_loop fuel v) ≤ Z.of_nat fuel.
Proof.
  revert v. induction fuel as [|fuel IH]; intros v; cbn [encode_varint_loop]; [done|].
  case_match; rewrite len_cons ?len_nil; [lia|]. specialize (IH (Z.shiftr v 7)). lia.
Qed.

Lemma encode_varint_nonempty v : 1 ≤ len (encode_varint v).
Proof.
  rewrite /encode_varint. cbn [encode_varint_loop].
  case_match; rewrite len_cons; [done|].
  match goal with |- context [len ?l] => pose proof (len_nonneg l) end. lia.
Qed.

Lemma decode_varint_loop_used l value shift i v used :
  decode_varint_loop l value shift i = Some (v, used) → i + 1 ≤ used ≤ i + len l.
Proof.
  revert value shift i. induction l as [|b l IH]; intros value shift i; [done|].
  cbn [decode_varint_loop]. rewrite len_cons. pose proof (len_nonneg l).
  case_match; [done|]. case_match; [intros [= <- <-]; lia|]. intros ?%IH. lia.
Qed.

Lemma decode_encode_varint v rest :
  0 ≤ v ≤ u64_max → decode_varint (encode_varint v ++ rest) = Some (v, len (encode_varint v)).
Proof.
  intros Hv. rewrite /decode_varint /encode_varint decode_encode_loop; rewrite /u64_max in Hv; try lia.
  by rewrite Z.mul_1_r.
Qed.

(** A channel id survives the varint encoding, whatever follows it; the
    decoder reports exactly the bytes the encoder wrote, at most ten. *)
Theorem varint_roundtrip (v : Z) (rest : bytes) :
  0 ≤ v ≤ u64_max →
  decode_varint (encode_varint v ++ rest) = Some (v, len (encode_varint v)) ∧
  1 ≤ len (encode_varint v) ≤ 10.
Proof.
  intros Hv. split; first by apply decode_encode_varint.
  split; [apply encode_varint_nonempty|apply (encode_varint_loop_length 10)].
Qed.

Lemma varint_roundtrip_witness :
  decode_varint (encode_varint 300 ++ [x07]) = Some (300, 2) ∧ 1 ≤ 2 ≤ 10.
Proof. exact (varint_roundtrip 300 [x07] ltac:(rewrite /u64_max; lia)). Defined.

(** A tenth group with bits above bit 63 is not refused: its excess bits
    are shifted out, so distinct prefixes name the same channel. *)
Theorem varint_excess_bits_dropped (b : byte) :
  byte_Z b < 128 →
  decode_varint (replicate 9 xff ++ [b]) = Some (2 ^ 63 - 1 + byte_Z b mod 2 * 2 ^ 63, 10).
Proof. by destruct b. Qed.

Lemma varint_excess_bits_dropped_witness :
  decode_varint (replicate 9 xff ++ [x7f]) = Some (u64_max, 10).
Proof. exact (varint_excess_bits_dropped x7f eq_refl). Defined.

Section message_properties.
Context {M : Type} `{ProstMessage M}.

(** A frame alone in a fresh decoder. *)
Lemma single_frame max hdr payload (m : M) :
  length hdr = 4%nat → u32_from_be hdr ≤ max → len payload = u32_from_be hdr →
  prost_decode payload = Some m →
  extend (decoder_new max) (hdr ++ payload) =
    ({| max_frame_bytes := max; buf := hdr ++ payload |}, Ok tt) ∧
  next_frame {| max_frame_bytes := max; buf := hdr ++ payload |} =
    (decoder_new max, Ok (Some m)).
Proof.
  intros Hh Hm Hl Hd. split.
  - rewrite extend_spec //. rewrite /buf_extend /= check_header_app //.
    by rewrite (proj2 (Z.ltb_ge _ _) Hm).
  - rewrite -{1}(app_nil_r payload) next_frame_full // Hd //.
Qed.

(** A message encoded for a channel decodes to that channel and message. *)
Theorem message_roundtrip `{!ProstRoundtrip M} (channel max : Z) (m : M) (w : bytes) :
  0 ≤ channel ≤ u64_max → max ≤ u32_max →
  encode_message channel m max = Ok w →
  decode_message w max = Ok (channel, m).
Proof.
  intros Hc Hm. rewrite /encode_message. destruct (encode_frame m max) as [f|] eqn:E; [|done].
  intros [= <-]. destruct (encode_frame_Ok _ _ _ E Hm) as (hdr & -> & Hh & Hu & Hl).
  rewrite /decode_message decode_encode_varint // drop_app_length'; last by rewrite /len; lia.
  destruct (single_frame max hdr (prost_encode m) m) as [-> ->]; try done; try lia.
Qed.

(** A message is accepted only when it is a channel prefix and exactly
    one whole frame within the limit, with nothing after it. *)
Theorem decode_message_exact (data : bytes) (max channel : Z) (m : M) :
  decode_message data max = Ok (channel, m) →
  ∃ used hdr payload,
    decode_varint data = Some (channel, used) ∧
    data = take (Z.to_nat used) data ++ hdr ++ payload ∧
    length hdr = 4%nat ∧ u32_from_be hdr = len payload ∧ len payload ≤ max ∧
    prost_decode payload = Some m.
Proof.
  rewrite /decode_message. destruct (decode_varint data) as [[c used]|] eqn:Ev; [|done].
  remember (drop (Z.to_nat used) data) as f eqn:Ef.
  rewrite extend_spec //. destruct (check_header _) as [|e] eqn:Ech; [|done].
  change (buf_extend (decoder_new max) f) with {| max_frame_bytes := max; buf := f |}.
  have Hdata : data = take (Z.to_nat used) data ++ f by rewrite Ef take_drop.
  destruct (stream_viewP max f) as [f Hs|hdr f Hh Ho|hdr f Hh Hm Hl|hdr p f Hh Hm Hl].
  - by rewrite next_frame_short.
  - by rewrite next_frame_oversized.
  - by rewrite next_frame_partial.
  - rewrite next_frame_full //. destruct (prost_decode p) as [m'|] eqn:Ep; [|done].
    case_match eqn:Eb; [|done]. intros [= -> ->]. apply Z.eqb_eq in Eb.
    apply (len_0_nil f) in Eb as ->. rewrite app_nil_r in Hdata.
    exists used, hdr, p. split_and!; try done; lia.
Qed.
End message_properties.

Lemma message_roundtrip_witness :
  decode_message (H:=raw_message) [xac; x02; x00; x00; x00; x01; x61] 1024 = Ok (300, [x61]).
Proof.
  apply (@message_roundtrip bytes raw_message raw_roundtrip 300 1024 [x61]);
    [rewrite /u64_max; lia|done|by vm_compute].
Defined.

Lemma decode_message_exact_witness :
  ∃ used hdr payload,
    decode_varint [x01; x00; x00; x00; x01; x61] = Some (1, used) ∧
    [x01; x00; x00; x00; x01; x61] =
      take (Z.to_nat used) [x01; x00; x00; x00; x01; x61] ++ hdr ++ payload ∧
    length hdr = 4%nat ∧ u32_from_be hdr = len payload ∧ len payload ≤ 1024 ∧
    Some payload = Some [x61].
Proof.
  exact (@decode_message_exact bytes raw_message [x01; x00; x00; x00; x01; x61] 1024 1 [x61]
           eq_refl).
Defined.
