(* ===== verification/AgentWire.v ===== *)
(** * The managed-server link: messages and streams

    The agent constants of [crates/protocol/src/lib.rs], [AgentEnvelope] and
    its messages ([protocol/messages.proto]), and the two functions the gateway
    and the agent both define over a QUIC stream, [write_envelope] and
    [read_envelope]. A receiving stream is the bytes that arrive before it
    ends; a sending stream records what was written and may break after some
    number of bytes. *)
From S2P Require Import Prelude Protocol Framing.

(** ** Constants *)
Definition AGENT_CONTROL_FRAME_BYTES_MAX : Z := 16 * 1024.
Definition AGENT_CONTROL_FRAME_BYTES_MIN : Z := 1024.
Definition AGENT_BUILD_BYTES_MAX : Z := 128.
Definition AGENT_USER_ID_BYTES_MAX : Z := 128.
Definition AGENT_UNIX_ACCOUNT_BYTES_MAX : Z := 128.
Definition AGENT_COMMAND_BYTES_MAX : Z := 4096.
Definition AGENT_GRANT_BYTES_MAX : Z := 8192.
Definition AGENT_AUDIENCE_BYTES_MAX : Z := 256.
Definition AGENT_ATTACHMENT_FRAME_BYTES_MAX : Z := FRAME_BYTES_DEFAULT.
Definition AGENT_TERMINAL_INPUT_BYTES_MAX : Z := 64 * 1024.
Definition AGENT_TERMINAL_OUTPUT_BYTES_MAX : Z := 8 * 1024.
Definition AGENT_ATTACHMENT_OUTPUT_QUEUE_MESSAGES : Z := 64.
Definition AGENT_ATTACHMENT_STREAMS_MAX : Z := 64.
Definition AGENT_HISTORY_LINES_MAX : Z := 10000.

(** ** Messages *)
Record AgentRegister := {
  reg_protocol_major : Z; reg_protocol_minor : Z; reg_server_id : bytes;
  reg_agent_build : str; reg_max_frame_bytes : Z }.
Record AgentRegistration := {
  rn_accepted : bool; rn_server_id : bytes; rn_max_frame_bytes : Z;
  rn_keepalive_interval_ms : Z; rn_rejection_reason : str }.
Record AgentOpenShell := {
  ao_user_id : str; ao_unix_account : str; ao_command : str; ao_initial_cols : Z;
  ao_initial_rows : Z; ao_idempotency_key : bytes; ao_connection_grant : bytes }.
Record AgentShellOpened := { aso_shell_id : bytes; aso_reused : bool }.
Record AgentAttachShell := {
  aa_user_id : str; aa_connection_grant : bytes; aa_cols : Z; aa_rows : Z }.
Record AgentShellAttached := {
  asa_screen_snapshot : bytes; asa_screen_revision : Z;
  asa_oldest_history_line_id : Z; asa_newest_history_line_id : Z }.

(** The [oneof message] of [AgentEnvelope]. *)
Inductive AgentMsg :=
  | AgRegister (m : AgentRegister)
  | AgRegistration (m : AgentRegistration)
  | AgPing (nonce : Z)
  | AgPong (nonce : Z)
  | AgError (m : PbError)
  | AgOpenShell (m : AgentOpenShell)
  | AgShellOpened (m : AgentShellOpened)
  | AgAttachShell (m : AgentAttachShell)
  | AgShellAttached (m : AgentShellAttached)
  | AgTerminalInput (data : bytes)
  | AgTerminalOutput (data : bytes)
  | AgTerminalResize (cols rows : Z)
  | AgDetachShell
  | AgRequestHistory (m : RequestHistory)
  | AgHistoryChunk (m : HistoryChunk)
  | AgHistoryEnd (oldest_available_line_id : Z)
  | AgShellExited (m : ShellExited).

Record AgentEnvelope := {
  ae_request_id : Z; ae_server_id : bytes; ae_shell_id : bytes;
  ae_message : option AgentMsg }.

(** ** Streams *)
Inductive ReadExactError := FinishedEarly (n : Z) | ReadLost.
Inductive WriteError := WriteLost.

(** [arriving]: the bytes still to come; [rx_lost]: whether the stream then
    fails instead of finishing. *)
Record RecvStream := { arriving : bytes; rx_lost : bool }.

Definition read_exact (s : RecvStream) (n : nat) : RecvStream * result bytes ReadExactError :=
  if (n <=? length (arriving s))%nat
  then ({| arriving := drop n (arriving s); rx_lost := rx_lost s |}, Ok (take n (arriving s)))
  else ({| arriving := []; rx_lost := rx_lost s |},
        Err (if rx_lost s then ReadLost else FinishedEarly (len (arriving s)))).

(** [room]: how many more bytes the stream takes before it breaks, if it does. *)
Record SendStream := { written : bytes; room : option nat }.

Definition write_all (s : SendStream) (data : bytes) : SendStream * result unit WriteError :=
  match room s with
  | None => ({| written := written s ++ data; room := None |}, Ok ())
  | Some n =>
      if (length data <=? n)%nat
      then ({| written := written s ++ data; room := Some (n - length data)%nat |}, Ok ())
      else ({| written := written s ++ take n data; room := Some O |}, Err WriteLost)
  end.

(** A [select!] drops the branches that lose. A dropped read has already taken
    [n] bytes off the stream, and they are gone; a dropped write has written only
    [n] of its bytes. *)
Definition drop_read (s : RecvStream) (n : nat) : RecvStream :=
  {| arriving := drop n (arriving s); rx_lost := rx_lost s |}.

Definition drop_write (before after : SendStream) (n : nat) : SendStream :=
  {| written := take (length (written before) + n) (written after); room := room after |}.

(** The three errors both ends convert with [From]. *)
Inductive StreamError :=
  | SeFrame (e : FrameError)
  | SeRead (e : ReadExactError)
  | SeWrite (e : WriteError).

Section streams.
Context `{ProstMessage AgentEnvelope}.

Definition encode_agent_frame (env : AgentEnvelope) (max : Z) : result bytes FrameError :=
  encode_delimited env max.

Definition decode_agent_payload (payload : bytes) : result AgentEnvelope FrameError :=
  decode_payload payload.

Definition write_envelope (s : SendStream) (env : AgentEnvelope) (maximum : Z)
    : SendStream * result unit StreamError :=
  match encode_agent_frame env maximum with
  | Err e => (s, Err (SeFrame e))
  | Ok frame => let '(s, r) := write_all s frame in (s, map_err SeWrite r)
  end.

Definition read_envelope (s : RecvStream) (maximum : Z)
    : RecvStream * result AgentEnvelope StreamError :=
  let '(s, header) := read_exact s 4 in
  match map_err SeRead header with
  | Err e => (s, Err e)
  | Ok header =>
      match checked_payload_len header maximum with
      | Err e => (s, Err (SeFrame e))
      | Ok n =>
          let '(s, payload) := read_exact s (Z.to_nat n) in
          match payload with
          | Err e => (s, Err (SeRead e))
          | Ok payload => (s, map_err SeFrame (decode_agent_payload payload))
          end
      end
  end.

(** ** Lemmas *)

(** A frame of an envelope within the limit, and its length. *)
Definition frame_of (env : AgentEnvelope) : bytes :=
  u32_to_be (wrap32 (len (prost_encode env))) ++ prost_encode env.

Definition frame_fits (env : AgentEnvelope) (maximum : Z) : Prop := len (prost_encode env) ≤ maximum.

#[export] Instance frame_fits_dec env maximum : Decision (frame_fits env maximum).
Proof. rewrite /frame_fits. apply _. Defined.

Lemma encode_agent_frame_Ok env maximum :
  frame_fits env maximum → encode_agent_frame env maximum = Ok (frame_of env).
Proof.
  rewrite /frame_fits /encode_agent_frame /encode_delimited => Hf.
  by rewrite (proj2 (Z.ltb_ge _ _)).
Qed.

Lemma write_envelope_Ok s env maximum s' :
  write_envelope s env maximum = (s', Ok ()) →
  frame_fits env maximum ∧ written s' = written s ++ frame_of env.
Proof.
  rewrite /write_envelope /encode_agent_frame /encode_delimited /frame_fits.
  destruct (maximum <? len (prost_encode env)) eqn:E; [done|]. to_prop.
  rewrite /write_all. destruct (room s) as [n|]; [destruct (_ <=? _)%nat|]; simpl;
    try done; intros [= <-]; done.
Qed.

Lemma write_envelope_open s env maximum :
  room s = None → frame_fits env maximum →
  write_envelope s env maximum = ({| written := written s ++ frame_of env; room := None |}, Ok ()).
Proof.
  intros Hr Hf. rewrite /write_envelope encode_agent_frame_Ok // /write_all Hr //.
Qed.

(** Reading the frame that was written, whatever follows it. *)
Lemma read_envelope_frame `{!ProstRoundtrip AgentEnvelope} env maximum rest lost :
  frame_fits env maximum → 0 ≤ maximum ≤ u32_max →
  read_envelope {| arriving := frame_of env ++ rest; rx_lost := lost |} maximum =
    ({| arriving := rest; rx_lost := lost |}, Ok env).
Proof.
  rewrite /frame_fits => Hf Hm. pose proof (len_nonneg (prost_encode env)) as Hl.
  rewrite /read_envelope /frame_of /read_exact. cbn [arriving rx_lost].
  rewrite wrap32_small; last lia. rewrite -app_assoc.
  rewrite (proj2 (Nat.leb_le _ _)); last by rewrite length_app u32_to_be_length; lia.
  rewrite take_app_length' // drop_app_length' //. cbn [map_err].
  rewrite /checked_payload_len u32_be_roundtrip; last lia.
  rewrite (proj2 (Z.ltb_ge _ _)) //. cbn [arriving rx_lost].
  replace (Z.to_nat (len (prost_encode env))) with (length (prost_encode env)) by (rewrite /len; lia).
  rewrite (proj2 (Nat.leb_le _ _)); last by rewrite length_app; lia.
  rewrite take_app_length drop_app_length /decode_agent_payload /decode_payload prost_roundtrip //.
Qed.

(** What a successful read consumed: a header within the limit, then exactly
    the payload it announces. *)
Lemma read_envelope_Ok s maximum s' env :
  read_envelope s maximum = (s', Ok env) →
  ∃ header payload, arriving s = header ++ payload ++ arriving s' ∧ length header = 4%nat ∧
    len payload = u32_from_be header ∧ len payload ≤ maximum ∧ prost_decode payload = Some env.
Proof.
  rewrite /read_envelope /read_exact.
  destruct (4 <=? length (arriving s))%nat eqn:E4; simpl; [|done]. apply Nat.leb_le in E4.
  set (hd := take 4 (arriving s)). have Hh : length hd = 4%nat by rewrite length_take; lia.
  pose proof (u32_from_be_range hd Hh) as Hr. rewrite /checked_payload_len.
  destruct (maximum <? u32_from_be hd) eqn:Em; [done|]. to_prop.
  destruct (_ <=? _)%nat eqn:En; simpl; [|done]. apply Nat.leb_le in En.
  rewrite /decode_agent_payload /decode_payload.
  destruct (prost_decode _) as [env'|] eqn:Ed; simpl; [|done]. intros [= <- <-].
  exists hd, (take (Z.to_nat (u32_from_be hd)) (drop 4 (arriving s))). simpl.
  rewrite take_drop take_drop. split_and!; try done; rewrite len_take /len; lia.
Qed.
End streams.
