(* ===== verification/Ids.v ===== *)
(** * Opaque identifiers

    [crates/protocol/src/ids.rs]: the 128-bit [ServerId] and [ShellId] of the
    [opaque_id!] macro, their wire form and their textual form. Parsing slices
    the text by bytes, which panics inside a multi-byte character: [None] is
    that panic. *)
From Stdlib Require Import Strings.Byte.
From S2P Require Import Prelude.

Inductive IdError := BadLength (n : Z) | BadEncoding.

Definition WIRE_LEN : nat := 16.

(** [ServerId] and [ShellId]: the macro's struct around [[u8; 16]]. *)
Definition opaque_id : Type := array 16.
Definition ServerId : Type := opaque_id.
Definition ShellId : Type := opaque_id.

#[export] Instance opaque_id_eq_dec : EqDecision opaque_id := array_eq_dec 16.
#[export] Instance opaque_id_countable : Countable opaque_id := array_countable 16.
#[export] Instance shell_id_eq_dec : EqDecision ShellId := array_eq_dec 16.
#[export] Instance shell_id_countable : Countable ShellId := array_countable 16.

Definition from_wire (l : bytes) : result opaque_id IdError :=
  ok_or (array_of 16 l) (BadLength (len l)).

Definition to_wire (i : opaque_id) : bytes := array_bytes i.

(** The literal prefixes of the two macro instances. *)
Definition SERVER_PREFIX : str := lit "srv".
Definition SHELL_PREFIX : str := lit "sh".

(** [impl Display]. *)
Definition display (prefix : str) (i : opaque_id) : str :=
  prefix ++ lit "_" ++ hex_bytes (array_bytes i).

(** [char::to_digit(16)] on an ASCII byte. *)
Definition to_digit16 (b : byte) : option Z :=
  let c := byte_Z b in
  if is_ascii_digit c then Some (c - 0x30)
  else if (0x61 <=? c) && (c <=? 0x66) then Some (c - 0x61 + 10)
  else if (0x41 <=? c) && (c <=? 0x46) then Some (c - 0x41 + 10)
  else None.

(** [u8::from_str_radix(pair, 16)] on a two-byte slice: an optional leading
    [+], then digits. *)
Definition radix16 (a b : byte) : option byte :=
  if byte_Z a =? 0x2B then Z_byte <$> to_digit16 b
  else h ← to_digit16 a; l ← to_digit16 b; Some (Z_byte (16 * h + l)).

(** [str::is_char_boundary] at the position where [rest] starts. *)
Definition char_boundary (rest : bytes) : bool :=
  match rest with
  | [] => true
  | b :: _ => negb ((0x80 <=? byte_Z b) && (byte_Z b <? 0xC0))
  end.

(** The loop over the sixteen slots. *)
Fixpoint parse_slots (n : nat) (hex : bytes) : option (result bytes IdError) :=
  match n, hex with
  | O, _ => Some (Ok [])
  | S n, a :: b :: rest =>
      if char_boundary (a :: b :: rest) && char_boundary rest then
        match radix16 a b with
        | None => Some (Err BadEncoding)
        | Some v =>
            r ← parse_slots n rest;
            Some (match r with Ok vs => Ok (v :: vs) | Err e => Err e end)
        end
      else None
  | S _, _ => None
  end.

Arguments parse_slots : simpl never.

(** [value.strip_prefix(p).unwrap_or(value)]. *)
Definition strip_prefix_or (p value : str) : str :=
  if decide (take (length p) value = p) then drop (length p) value else value.

Definition from_str (prefix value : str) : option (result opaque_id IdError) :=
  let hex := str_bytes (strip_prefix_or (prefix ++ lit "_") value) in
  if len hex =? 32 then
    r ← parse_slots 16 hex;
    Some (match r with
          | Ok vs => ok_or (array_of 16 vs) BadEncoding
          | Err e => Err e
          end)
  else Some (Err BadEncoding).

(** ** Parsing what was displayed *)
Lemma hex_digit_to_digit n :
  0 ≤ n < 16 → to_digit16 (Z_byte (hex_digit n)) = Some n ∧
               byte_Z (Z_byte (hex_digit n)) ≠ 0x2B ∧
               0 ≤ byte_Z (Z_byte (hex_digit n)) < 0x80.
Proof.
  intros Hn.
  have Hb := forallb_seqZ (λ n, bool_decide (to_digit16 (Z_byte (hex_digit n)) = Some n) &&
    (negb (byte_Z (Z_byte (hex_digit n)) =? 0x2B) &&
    ((0 <=? byte_Z (Z_byte (hex_digit n))) && (byte_Z (Z_byte (hex_digit n)) <? 0x80))))
    0 16 ltac:(by vm_compute) n ltac:(lia).
  simpl in Hb.
  to_prop. split_and!; done.
Qed.

Lemma radix16_hex b :
  radix16 (Z_byte (hex_digit (byte_Z b / 16))) (Z_byte (hex_digit (byte_Z b mod 16))) = Some b.
Proof.
  pose proof (byte_Z_range b).
  destruct (hex_digit_to_digit (byte_Z b / 16)) as (E1 & N1 & _); first zlia.
  destruct (hex_digit_to_digit (byte_Z b mod 16)) as (E2 & _ & _); first zlia.
  rewrite /radix16 E1 E2 (proj2 (Z.eqb_neq _ _) N1) /=.
  rewrite -Z.div_mod // Z_byte_of_byte //.
Qed.

Lemma parse_slots_hex l : parse_slots (length l) (map Z_byte (hex_bytes l)) = Some (Ok l).
Proof.
  rewrite /hex_bytes. induction l as [|b l IH]; [done|].
  cbn [length map concat hex_byte app]. rewrite -/(hex_bytes l) /parse_slots -/parse_slots.
  pose proof (byte_Z_range b).
  destruct (hex_digit_to_digit (byte_Z b / 16)) as (_ & _ & R1); first zlia.
  rewrite radix16_hex IH /=.
  have -> : char_boundary (map Z_byte (hex_bytes l)) = true.
  { destruct l as [|b' l']; [done|]. cbn. pose proof (byte_Z_range b').
    destruct (hex_digit_to_digit (byte_Z b' / 16)) as (_ & _ & R2); first zlia. lia. }
  by have -> : (128 <=? byte_Z (Z_byte (hex_digit (byte_Z b / 16)))) = false by lia.
Qed.

Lemma from_str_hex prefix value (i : opaque_id) :
  strip_prefix_or (prefix ++ lit "_") value = hex_bytes (array_bytes i) →
  from_str prefix value = Some (Ok i).
Proof.
  intros Hs. rewrite /from_str Hs str_bytes_ascii; last apply hex_bytes_ascii.
  have Hl := array_bytes_length i.
  have Hp := parse_slots_hex (array_bytes i). rewrite Hl in Hp.
  rewrite Hp /len length_map hex_bytes_length Hl /= array_of_bytes //.
Qed.

(** An identifier parses back from the text it displays as, and from its
    bare 32 hexadecimal digits, for either prefix. *)
Theorem id_text_roundtrip (prefix : str) (i : opaque_id) :
  prefix = SERVER_PREFIX ∨ prefix = SHELL_PREFIX →
  from_str prefix (display prefix i) = Some (Ok i) ∧
  from_str prefix (hex_bytes (array_bytes i)) = Some (Ok i).
Proof.
  intros Hp. split; apply from_str_hex; rewrite /strip_prefix_or.
  - rewrite /display app_assoc take_app_length drop_app_length. by case_decide.
  - case_decide as Hd; [exfalso|done].
    have Hl := array_bytes_length i.
    destruct (array_bytes i) as [|b l]; [done|].
    pose proof (byte_Z_range b). pose proof (hex_digit_ascii (byte_Z b / 16) ltac:(zlia)).
    apply (f_equal (λ s, default 0 (head s))) in Hd.
    destruct Hp as [-> | ->]; simpl in Hd; lia.
Qed.

Lemma id_text_roundtrip_witness :
  from_str SHELL_PREFIX (display SHELL_PREFIX (array_repeat 16 xab)) = Some (Ok (array_repeat 16 xab)) ∧
  from_str SHELL_PREFIX (hex_bytes (replicate 16 xab)) = Some (Ok (array_repeat 16 xab)).
Proof. exact (id_text_roundtrip SHELL_PREFIX (array_repeat 16 xab) (or_intror eq_refl)). Defined.

(** Wire form: every identifier, and only 16-byte strings. *)
Lemma wire_roundtrip i : from_wire (to_wire i) = Ok i.
Proof. by rewrite /from_wire /to_wire array_of_bytes. Qed.

Lemma from_wire_Ok l i : from_wire l = Ok i ↔ to_wire i = l.
Proof. by rewrite /from_wire ok_or_Ok array_of_Some. Qed.


Lemma char_boundary_ascii s :
  Forall (λ c, is_ascii c = true) s → char_boundary (map Z_byte s) = true.
Proof.
  intros [|c s' Hc]; [done|]. rewrite /is_ascii in Hc. cbn. to_prop.
  rewrite byte_Z_of_Z /wrap8 Z.mod_small; lia.
Qed.

Lemma parse_slots_ascii n s :
  Forall (λ c, is_ascii c = true) s → length s = (2 * n)%nat →
  is_Some (parse_slots n (map Z_byte s)).
Proof.
  revert s. induction n as [|n IH]; intros s Ha Hl; first by eexists.
  destruct s as [|a [|b s]]; simpl in Hl; try lia.
  pose proof (char_boundary_ascii _ Ha) as Hb.
  apply Forall_cons in Ha as [_ Ha]. apply Forall_cons in Ha as [_ Ha].
  rewrite /parse_slots -/parse_slots /=. simpl in Hb. rewrite Hb (char_boundary_ascii s) //=.
  case_match; [|by eexists]. destruct (IH s) as [r ->]; [done|lia|]. by eexists.
Qed.

(** Parsing an identifier never panics on ASCII text, but a multi-byte
    character that straddles a two-byte slot makes it panic where it should
    return [BadEncoding]; and a [+] passes as a digit. *)
Theorem from_str_totality (prefix value : str) :
  (Forall (λ c, is_ascii c = true) value → is_Some (from_str prefix value)) ∧
  from_str SERVER_PREFIX (lit "a" ++ [0xE9] ++ replicate 29 0x30) = None ∧
  from_str SERVER_PREFIX (concat (replicate 16 (lit "+1"))) = Some (Ok (array_repeat 16 x01)).
Proof.
  split_and!; [|by vm_compute|].
  - intros Ha. rewrite /from_str.
    set (v := strip_prefix_or _ value).
    have Hv : Forall (λ c, is_ascii c = true) v.
    { rewrite /v /strip_prefix_or. case_decide; [by apply Forall_drop|done]. }
    rewrite str_bytes_ascii // /len length_map. case_match eqn:El; [|by eexists].
    apply Z.eqb_eq in El. destruct (parse_slots_ascii 16 v) as [r ->]; [done|lia|]. by eexists.
  - have Hp : parse_slots 16 (str_bytes (concat (replicate 16 (lit "+1")))) =
              Some (Ok (array_bytes (array_repeat 16 x01))) by vm_compute.
    rewrite /from_str.
    have -> : strip_prefix_or (SERVER_PREFIX ++ lit "_") (concat (replicate 16 (lit "+1")))
            = concat (replicate 16 (lit "+1")) by vm_compute.
    have -> : len (str_bytes (concat (replicate 16 (lit "+1")))) = 32 by vm_compute.
    rewrite Hp. cbn [Z.eqb Pos.eqb mbind option_bind]. by rewrite array_of_bytes.
Qed.
