(* ===== verification/Observability.v ===== *)
(** * Audit ring and counters

    [crates/daemon/src/observability.rs]: the closed schema of audit events,
    their sanitisation, the bounded ring of records and the counters. The rest
    of the daemon model keeps the events it records as a plain list; here is
    what becomes of such a list. *)
From S2P Require Import Prelude Ids.

(** ** The closed event schema *)
Inductive AuthMethod := AmDevelopment | AmConnectionGrant | AmSshKey | AmPassword.
Inductive ShellOperation := SoOpen | SoAttach | SoDetach | SoTerminate.
Inductive UploadOutcome := UoCancelled | UoTimedOut | UoFailed.
Inductive RejectReason :=
  | RrRateLimited | RrForbidden | RrNotFound | RrInvalidToken | RrTokenReplayed
  | RrLimitExceeded | RrNotRunning | RrInvalidRequest | RrInternal.

Definition IpAddr : Type := list Byte.byte.

Inductive AuditEvent :=
  | AuthenticationSucceeded (user : str) (source_ip : IpAddr) (method : AuthMethod)
  | AuthenticationFailed (source_ip : IpAddr) (reason : RejectReason)
  | EvShellOpened (user : str) (shell_id : ShellId) (account : option str) (reused : bool)
  | ShellOperationRejected (user : str) (shell_id : option ShellId) (operation : ShellOperation)
                           (reason : RejectReason)
  | EvShellAttached (user : str) (shell_id : ShellId)
  | EvShellDetached (user : str) (shell_id : ShellId)
  | EvShellTerminated (user : str) (shell_id : ShellId) (exit_code : Z)
  | EvShellExpired (user : str) (shell_id : ShellId) (exit_code : Z)
  | UploadStarted (user : str) (shell_id : ShellId) (original_name : str) (bytes : Z)
  | UploadCompleted (user : str) (shell_id : ShellId) (stored_basename : str) (bytes duration_ms : Z)
  | UploadEnded (user : str) (shell_id : ShellId) (outcome : UploadOutcome)
  | UploadRejected (user : str) (shell_id : option ShellId) (reason : RejectReason).

#[export] Instance reject_reason_eq_dec : EqDecision RejectReason.
Proof. solve_decision. Defined.

Definition DEFAULT_AUDIT_CAPACITY : Z := 4096.
Definition MAX_METADATA_CHARS : nat := 128.

(** [char::is_control]: the general category Cc. *)
Definition is_control (c : char) : bool :=
  ((0 <=? c) && (c <=? 0x1F)) || ((0x7F <=? c) && (c <=? 0x9F)).

Definition safe_metadata (value : str) : str :=
  take MAX_METADATA_CHARS (filter (λ c, is_control c = false) value).

Definition sanitize_event (e : AuditEvent) : AuditEvent :=
  match e with
  | AuthenticationSucceeded user ip m => AuthenticationSucceeded (safe_metadata user) ip m
  | EvShellOpened user id account re =>
      EvShellOpened (safe_metadata user) id (safe_metadata <$> account) re
  | ShellOperationRejected user id o r => ShellOperationRejected (safe_metadata user) id o r
  | EvShellAttached user id => EvShellAttached (safe_metadata user) id
  | EvShellDetached user id => EvShellDetached (safe_metadata user) id
  | EvShellTerminated user id x => EvShellTerminated (safe_metadata user) id x
  | EvShellExpired user id x => EvShellExpired (safe_metadata user) id x
  | UploadStarted user id name n => UploadStarted (safe_metadata user) id (safe_metadata name) n
  | UploadCompleted user id name n d =>
      UploadCompleted (safe_metadata user) id (safe_metadata name) n d
  | UploadEnded user id o => UploadEnded (safe_metadata user) id o
  | UploadRejected user id r => UploadRejected (safe_metadata user) id r
  | AuthenticationFailed _ _ => e
  end.

(** ** Counters

    The fields of [Counters] and [MetricsSnapshot]. *)
Inductive Counter :=
  | authentication_succeeded | authentication_failed | authentication_rate_limited
  | shells_opened | shell_opens_reused | shell_operations_rejected
  | attachments_opened | attachments_detached | shells_terminated | limit_hits
  | token_replays_detected | shells_expired | uploads_active | uploads_completed
  | uploads_cancelled | uploads_timed_out | uploads_failed | uploads_rejected
  | upload_bytes_completed.

#[export] Instance counter_eq_dec : EqDecision Counter.
Proof. solve_decision. Defined.

Definition Counters : Type := Counter → Z.
Definition counters_default : Counters := λ _, 0.

Definition update (k : Counter) (f : Z → Z) (c : Counters) : Counters :=
  λ k', if decide (k' = k) then f (c k) else c k'.

(** [fetch_add], which wraps, and the [fetch_update] of [uploads_active]. *)
Definition fetch_add (k : Counter) (n : Z) : Counters → Counters := update k (λ v, wrap64 (v + n)).
Definition fetch_dec (k : Counter) : Counters → Counters := update k (λ v, sat_sub v 1).

Definition increment (c : Counters) (e : AuditEvent) : Counters :=
  match e with
  | AuthenticationSucceeded _ _ _ => fetch_add authentication_succeeded 1 c
  | AuthenticationFailed _ reason =>
      let c := fetch_add authentication_failed 1 c in
      if bool_decide (reason = RrRateLimited) then fetch_add authentication_rate_limited 1 c else c
  | EvShellOpened _ _ _ reused =>
      if reused then fetch_add shell_opens_reused 1 c else fetch_add shells_opened 1 c
  | ShellOperationRejected _ _ _ reason =>
      let c := fetch_add shell_operations_rejected 1 c in
      let c := if bool_decide (reason = RrLimitExceeded) then fetch_add limit_hits 1 c else c in
      if bool_decide (reason = RrTokenReplayed) then fetch_add token_replays_detected 1 c else c
  | EvShellAttached _ _ => fetch_add attachments_opened 1 c
  | EvShellDetached _ _ => fetch_add attachments_detached 1 c
  | EvShellTerminated _ _ _ => fetch_add shells_terminated 1 c
  | EvShellExpired _ _ _ => fetch_add shells_expired 1 c
  | UploadStarted _ _ _ _ => fetch_add uploads_active 1 c
  | UploadCompleted _ _ _ n _ =>
      fetch_add upload_bytes_completed n (fetch_add uploads_completed 1 (fetch_dec uploads_active c))
  | UploadEnded _ _ outcome =>
      fetch_add (match outcome with
                 | UoCancelled => uploads_cancelled
                 | UoTimedOut => uploads_timed_out
                 | UoFailed => uploads_failed
                 end) 1 (fetch_dec uploads_active c)
  | UploadRejected _ _ reason =>
      let c := fetch_add uploads_rejected 1 c in
      if bool_decide (reason = RrLimitExceeded) then fetch_add limit_hits 1 c else c
  end.

(** ** The ring *)
Record AuditRecord := { timestamp_ms : Z; rec_server_id : ServerId; rec_event : AuditEvent }.

Record Observability := {
  obs_server_id : ServerId;
  audit_capacity : Z;
  records : list AuditRecord;
  counters : Counters;
}.

Definition observability_new (server_id : ServerId) (audit_capacity : Z) : Observability := {|
  obs_server_id := server_id; audit_capacity := Z.min audit_capacity DEFAULT_AUDIT_CAPACITY;
  records := []; counters := counters_default |}.

(** [record]; [now] is the clock. *)
Definition record_event (o : Observability) (now : Z) (event : AuditEvent) : Observability :=
  let event := sanitize_event event in
  let record := {| timestamp_ms := now; rec_server_id := obs_server_id o; rec_event := event |} in
  {| obs_server_id := obs_server_id o; audit_capacity := audit_capacity o;
     records :=
       if audit_capacity o =? 0 then records o
       else (if len (records o) =? audit_capacity o then tail (records o) else records o) ++ [record];
     counters := increment (counters o) event |}.

Definition audit_events (o : Observability) : list AuditRecord := records o.
Definition metrics (o : Observability) : Counters := counters o.

(** ** Reference: the whole log *)

(** A log of events with their times. *)
Definition log : Type := list (Z * AuditEvent).

Definition observe (o : Observability) (l : log) : Observability :=
  foldl (λ o p, record_event o p.1 p.2) o l.

Definition log_record (server_id : ServerId) (p : Z * AuditEvent) : AuditRecord :=
  {| timestamp_ms := p.1; rec_server_id := server_id; rec_event := sanitize_event p.2 |}.

(** What one event adds to a counter. *)
Definition adds (k : Counter) (e : AuditEvent) : Z :=
  match k, e with
  | authentication_succeeded, AuthenticationSucceeded _ _ _ => 1
  | authentication_failed, AuthenticationFailed _ _ => 1
  | authentication_rate_limited, AuthenticationFailed _ RrRateLimited => 1
  | shells_opened, EvShellOpened _ _ _ false => 1
  | shell_opens_reused, EvShellOpened _ _ _ true => 1
  | shell_operations_rejected, ShellOperationRejected _ _ _ _ => 1
  | attachments_opened, EvShellAttached _ _ => 1
  | attachments_detached, EvShellDetached _ _ => 1
  | shells_terminated, EvShellTerminated _ _ _ => 1
  | limit_hits, ShellOperationRejected _ _ _ RrLimitExceeded => 1
  | limit_hits, UploadRejected _ _ RrLimitExceeded => 1
  | token_replays_detected, ShellOperationRejected _ _ _ RrTokenReplayed => 1
  | shells_expired, EvShellExpired _ _ _ => 1
  | uploads_active, UploadStarted _ _ _ _ => 1
  | uploads_active, (UploadCompleted _ _ _ _ _ | UploadEnded _ _ _) => -1
  | uploads_completed, UploadCompleted _ _ _ _ _ => 1
  | uploads_cancelled, UploadEnded _ _ UoCancelled => 1
  | uploads_timed_out, UploadEnded _ _ UoTimedOut => 1
  | uploads_failed, UploadEnded _ _ UoFailed => 1
  | uploads_rejected, UploadRejected _ _ _ => 1
  | upload_bytes_completed, UploadCompleted _ _ _ n _ => n
  | _, _ => 0
  end.

#[local] Arguments adds : simpl never.

Definition total (k : Counter) (l : log) : Z := foldr (λ p n, adds k p.2 + n) 0 l.

(** Uploads end after they started: no prefix of the log has more ends. *)
Definition balanced (l : log) : Prop :=
  ∀ n, 0 ≤ total uploads_active (take n l) ≤ u64_max.

(** ** Lemmas *)
Lemma sanitize_adds k e : adds k (sanitize_event e) = adds k e.
Proof. by destruct e. Qed.

Lemma increment_counts c k e :
  k ≠ uploads_active → 0 ≤ c k ≤ u64_max → increment c e k = wrap64 (c k + adds k e).
Proof.
  intros Hk Hc. have Hid : c k = wrap64 (c k + 0) by rewrite Z.add_0_r wrap64_small.
  rewrite /increment /fetch_add /fetch_dec /update.
  destruct e as [| |? ? ? []|? ? ? []| | | | | | |? ? []|? ? []];
    destruct k; rewrite /adds; cbn; try done; try (destruct reason; done).
Qed.

Lemma increment_active c e :
  0 ≤ c uploads_active → 0 ≤ c uploads_active + adds uploads_active e ≤ u64_max →
  increment c e uploads_active = c uploads_active + adds uploads_active e.
Proof.
  intros Hc Hr. rewrite /increment /fetch_add /fetch_dec /update.
  destruct e as [| |? ? ? []| | | | | | | |? ? []|]; rewrite /adds in Hr |- *; cbn in *;
    repeat case_bool_decide; repeat (case_decide; simplify_eq); try done; try lia.
  - apply wrap64_small. lia.
  - rewrite /sat_sub. lia.
  - rewrite /sat_sub. lia.
  - rewrite /sat_sub. lia.
  - rewrite /sat_sub. lia.
Qed.

Lemma counter_total_app k l1 l2 : total k (l1 ++ l2) = total k l1 + total k l2.
Proof. induction l1 as [|p l1 IH]; simpl; [done|]. rewrite IH. lia. Qed.

Lemma record_ring o now e l :
  0 ≤ audit_capacity o → records o = lastn (Z.to_nat (audit_capacity o)) l →
  records (record_event o now e) =
    lastn (Z.to_nat (audit_capacity o)) (l ++ [log_record (obs_server_id o) (now, e)]).
Proof.
  intros Hc Hr. rewrite /record_event. cbn [records].
  set (n := Z.to_nat (audit_capacity o)) in *. destruct (audit_capacity o =? 0) eqn:E; to_prop.
  - rewrite Hr /n E /lastn /= !Nat.sub_0_r !drop_all //.
  - have Hl := lastn_length n l. rewrite -Hr in Hl.
    rewrite -lastn_lastn_app -Hr -lastn_snoc; [|done|rewrite /n; lia].
    f_equal. replace (len (records o) =? audit_capacity o) with (length (records o) =? n)%nat; [done|].
    rewrite /len /n. destruct (Nat.eqb_spec (length (records o)) (Z.to_nat (audit_capacity o))); lia.
Qed.

Lemma observe_spec o l0 l :
  0 ≤ audit_capacity o →
  records o = lastn (Z.to_nat (audit_capacity o)) (map (log_record (obs_server_id o)) l0) →
  (∀ k, k ≠ uploads_active → counters o k = wrap64 (total k l0)) →
  let o' := observe o l in
  obs_server_id o' = obs_server_id o ∧ audit_capacity o' = audit_capacity o ∧
  records o' = lastn (Z.to_nat (audit_capacity o)) (map (log_record (obs_server_id o)) (l0 ++ l)) ∧
  ∀ k, k ≠ uploads_active → counters o' k = wrap64 (total k (l0 ++ l)).
Proof.
  revert o l0. induction l as [|[now e] l IH]; intros o l0 Hc Hr Hk; simpl.
  { by rewrite app_nil_r. }
  destruct (IH (record_event o now e) (l0 ++ [(now, e)])) as (H1 & H2 & H3 & H4); [done| | |].
  - cbn [record_event audit_capacity obs_server_id]. rewrite map_app. by apply record_ring.
  - intros k Hne. cbn [record_event counters].
    rewrite increment_counts //; [|rewrite Hk //; apply wrap64_range].
    rewrite Hk // sanitize_adds counter_total_app /= Z.add_0_r /wrap64 Zplus_mod_idemp_l //.
  - cbn [record_event obs_server_id audit_capacity] in *. rewrite -app_assoc in H3, H4. done.
Qed.

Lemma observe_active o l0 l :
  balanced (l0 ++ l) → counters o uploads_active = total uploads_active l0 →
  counters (observe o l) uploads_active = total uploads_active (l0 ++ l).
Proof.
  revert o l0. induction l as [|[now e] l IH]; intros o l0 Hb Ha; simpl; [by rewrite app_nil_r|].
  replace (l0 ++ (now, e) :: l) with ((l0 ++ [(now, e)]) ++ l) by by rewrite -app_assoc.
  apply IH; [by rewrite -app_assoc|]. cbn [record_event counters].
  have H0 := Hb (length l0). rewrite take_app_length in H0.
  have H1 := Hb (length l0 + 1)%nat. rewrite take_app_add /= take_0 in H1.
  rewrite counter_total_app /= Z.add_0_r in H1 |- *.
  rewrite increment_active ?sanitize_adds; lia.
Qed.

Lemma safe_metadata_spec s :
  (length (safe_metadata s) ≤ 128)%nat ∧ Forall (λ c, is_control c = false) (safe_metadata s) ∧
  safe_metadata (safe_metadata s) = safe_metadata s.
Proof.
  rewrite /safe_metadata. set (f := filter (λ c, is_control c = false) s).
  have Hf : Forall (λ c, is_control c = false) f.
  { apply Forall_forall => c. rewrite /f list_elem_of_filter. naive_solver. }
  have Ht : Forall (λ c, is_control c = false) (take MAX_METADATA_CHARS f) by apply Forall_take.
  split_and!; [rewrite length_take /MAX_METADATA_CHARS; lia|done|].
  have Hid l : Forall (λ c, is_control c = false) l → filter (λ c, is_control c = false) l = l.
  { induction 1 as [|c l Hc _ IH]; [done|]. by rewrite filter_cons_True // IH. }
  by rewrite Hid // take_take Nat.min_id.
Qed.

(** ** Properties *)

(** After any sequence of recorded events the ring holds exactly the last
    [capacity] of them (at most 4096), sanitised, in order and with their
    times; every counter is the number of events of its kind (the bytes, for
    completed bytes), modulo 2^64; and [uploads_active] is the number of
    uploads started and not yet ended, as long as none ends twice. Sanitised
    texts have at most 128 characters and no control character. *)
Theorem observability_refines server_id capacity l :
  0 ≤ capacity →
  let o := observe (observability_new server_id capacity) l in
  audit_events o = lastn (Z.to_nat (Z.min capacity 4096)) (map (log_record server_id) l) ∧
  (∀ k, k ≠ uploads_active → metrics o k = wrap64 (total k l)) ∧
  (balanced l → metrics o uploads_active = total uploads_active l) ∧
  ∀ s, (length (safe_metadata s) ≤ 128)%nat ∧
       Forall (λ c, is_control c = false) (safe_metadata s).
Proof.
  intros Hc o. destruct (observe_spec (observability_new server_id capacity) [] l) as (_ & _ & H1 & H2);
    [simpl; rewrite /DEFAULT_AUDIT_CAPACITY; lia| |done|].
  { simpl. by rewrite /lastn. }
  split_and!; [exact H1|exact H2| |].
  - intros Hb. by apply (observe_active (observability_new server_id capacity) [] l).
  - intros s. destruct (safe_metadata_spec s) as (? & ? & _). done.
Qed.

Lemma observability_refines_witness :
  let sid := array_repeat 16 Byte.x01 in
  let l := [(1, UploadStarted [0x61; 0x0A; 0x62] sid [0x63] 9);
            (2, AuthenticationFailed [] RrRateLimited);
            (3, UploadCompleted [0x61] sid [0x63] 9 4)] in
  let o := observe (observability_new sid 2) l in
  map timestamp_ms (audit_events o) = [2; 3] ∧ metrics o upload_bytes_completed = 9 ∧
  metrics o authentication_rate_limited = 1.
Proof.
  intros sid l o.
  destruct (observability_refines sid 2 l ltac:(lia)) as (Hr & Hk & _).
  split_and!; [rewrite /o Hr; reflexivity|rewrite /o Hk //|rewrite /o Hk //].
Defined.
