(* ===== verification/Gateway.v ===== *)
(** * The gateway's end of the managed-server link

    [crates/gateway/src/lib.rs]: the certificate registry with its leases, the
    acceptance of an agent's registration, and the operations on a registered
    agent and its attachment streams. The registry's locks are held for one
    operation each and nothing panics while holding one, so they are never
    poisoned. An acceptance reads the registry when the connection is up and
    claims the server after the registration arrived: two transitions, with
    any others in between. What the network does is an argument. *)
From S2P Require Import Prelude Protocol Framing AgentWire Ids.

Definition DEFAULT_KEEPALIVE_INTERVAL_MS : Z := 10000.

Definition CertificateFingerprint : Type := array 32.

#[export] Instance fingerprint_eq_dec : EqDecision CertificateFingerprint := array_eq_dec 32.
#[export] Instance fingerprint_countable : Countable CertificateFingerprint := array_countable 32.
#[export] Instance server_id_eq_dec : EqDecision ServerId := array_eq_dec 16.
#[export] Instance server_id_countable : Countable ServerId := array_countable 16.

Definition from_leaf_der `{HashOps} (leaf_der : bytes) : CertificateFingerprint := sha256 leaf_der.

(** ** Errors *)
Inductive RegistryError :=
  | ZeroLimit
  | IdentityLimit (n : Z)
  | ActiveLimit (n : Z)
  | FingerprintRebind
  | AlreadyActive (s : ServerId)
  | Poisoned.

Inductive ConnectionError := ConnectionLost.

Inductive GatewayError :=
  | GwEndpointClosed
  | GwRegistrationTimeout
  | GwConnection (e : ConnectionError)
  | GwStream (e : StreamError)
  | GwMissingPeerIdentity
  | GwInvalidPeerIdentity
  | GwRejected (reason : str)
  | GwUnexpectedControlMessage
  | GwUnexpectedAttachmentMessage
  | GwServerIdentityMismatch
  | GwAttachmentIdentityMismatch
  | GwInvalidShellRequest
  | GwInvalidAttachmentRequest
  | GwInputTooLarge (n : Z)
  | GwRemote (code : Z) (message : str) (retryable : bool)
  | GwRegistry (e : RegistryError).

(** ** The certificate registry *)
Record CertificateRegistry := {
  identities : gmap CertificateFingerprint ServerId;
  active : gset ServerId;
  max_identities : Z;
  max_active_agents : Z;
}.

Definition registry_new (max_identities max_active_agents : Z)
    : result CertificateRegistry RegistryError :=
  if (max_identities =? 0) || (max_active_agents =? 0) then Err ZeroLimit
  else Ok {| identities := ∅; active := ∅; max_identities := max_identities;
             max_active_agents := max_active_agents |}.

Definition set_identities (r : CertificateRegistry) (i : gmap CertificateFingerprint ServerId)
    : CertificateRegistry := {|
  identities := i; active := active r; max_identities := max_identities r;
  max_active_agents := max_active_agents r |}.
Definition set_active (r : CertificateRegistry) (a : gset ServerId) : CertificateRegistry := {|
  identities := identities r; active := a; max_identities := max_identities r;
  max_active_agents := max_active_agents r |}.

Definition identity_count (r : CertificateRegistry) : Z := Z.of_nat (size (identities r)).
Definition active_count (r : CertificateRegistry) : Z := Z.of_nat (size (active r)).

Definition authorize_leaf `{HashOps} (r : CertificateRegistry) (server_id : ServerId)
    (leaf_der : bytes) : CertificateRegistry * result CertificateFingerprint RegistryError :=
  let fingerprint := from_leaf_der leaf_der in
  match identities r !! fingerprint with
  | Some existing =>
      (r, if bool_decide (existing = server_id) then Ok fingerprint else Err FingerprintRebind)
  | None =>
      if max_identities r <=? identity_count r then (r, Err (IdentityLimit (max_identities r)))
      else (set_identities r (<[fingerprint := server_id]> (identities r)), Ok fingerprint)
  end.

Definition revoke (r : CertificateRegistry) (fingerprint : CertificateFingerprint)
    : CertificateRegistry * result bool RegistryError :=
  (set_identities r (delete fingerprint (identities r)),
   Ok (bool_decide (is_Some (identities r !! fingerprint)))).

Definition resolve (r : CertificateRegistry) (fingerprint : CertificateFingerprint)
    : option ServerId := identities r !! fingerprint.

(** A lease is the server it holds. *)
Definition ActiveAgentLease : Type := ServerId.

Definition claim (r : CertificateRegistry) (server_id : ServerId)
    : CertificateRegistry * result ActiveAgentLease RegistryError :=
  if bool_decide (server_id ∈ active r) then (r, Err (AlreadyActive server_id))
  else if max_active_agents r <=? active_count r then (r, Err (ActiveLimit (max_active_agents r)))
  else (set_active r ({[server_id]} ∪ active r), Ok server_id).

Definition lease_drop (r : CertificateRegistry) (l : ActiveAgentLease) : CertificateRegistry :=
  set_active r (active r ∖ {[l]}).

(** ** Connections and acceptance *)

(** What [peer_identity] returns: a certificate chain, or some other type. *)
Inductive PeerIdentity := CertChain (chain : list bytes) | OtherIdentity.

Record Connection := { peer_identity : option PeerIdentity }.

(** A wait under [tokio::time::timeout]. *)
Inductive Timed (A : Type) := Elapsed | Ready (a : A).
Arguments Elapsed {A}.
Arguments Ready {A} a.

Definition timed {A} (t : Timed (result A ConnectionError)) : result A GatewayError :=
  match t with
  | Elapsed => Err GwRegistrationTimeout
  | Ready r => map_err GwConnection r
  end.

Record RegisteredAgent := {
  ra_connection : Connection;
  ra_send : SendStream;
  ra_recv : RecvStream;
  ra_server_id : ServerId;
  ra_max_frame_bytes : Z;
  ra_next_request_id : Z;
  ra_lease : ActiveAgentLease;
}.

Definition set_streams (a : RegisteredAgent) (s : SendStream) (r : RecvStream) : RegisteredAgent := {|
  ra_connection := ra_connection a; ra_send := s; ra_recv := r; ra_server_id := ra_server_id a;
  ra_max_frame_bytes := ra_max_frame_bytes a; ra_next_request_id := ra_next_request_id a;
  ra_lease := ra_lease a |}.

(** What happened to the streams of a finished acceptance: what was written,
    and the code and reason the connection was closed with, if it was. *)
Record Served := { sv_send : SendStream; sv_close : option (Z * str) }.

Section gateway.
Context {S : HashOps} `{ProstMessage AgentEnvelope}.

Definition peer_leaf_fingerprint (c : Connection) : result CertificateFingerprint GatewayError :=
  let? identity := ok_or (peer_identity c) GwMissingPeerIdentity in
  match identity with
  | OtherIdentity => Err GwInvalidPeerIdentity
  | CertChain chain =>
      let? leaf := ok_or (head chain) GwMissingPeerIdentity in
      Ok (from_leaf_der leaf)
  end.

Definition rejection (reason : str) : AgentEnvelope := {|
  ae_request_id := 0; ae_server_id := []; ae_shell_id := [];
  ae_message := Some (AgRegistration {|
    rn_accepted := false; rn_server_id := []; rn_max_frame_bytes := 0;
    rn_keepalive_interval_ms := 0; rn_rejection_reason := reason |}) |}.

Definition reject {A} (send : SendStream) (reason : str) : Served * result A GatewayError :=
  let '(send, _) := write_envelope send (rejection reason) AGENT_CONTROL_FRAME_BYTES_MAX in
  ({| sv_send := send; sv_close := Some (1, lit "registration rejected") |}, Err (GwRejected reason)).

(** The first half of [accept_registration]: the connection, its leaf
    fingerprint and the identity the registry has for it. *)
Definition accept_begin (r : CertificateRegistry) (endpoint_open : bool)
    (incoming : Timed (result Connection ConnectionError))
    : result (Connection * option ServerId) GatewayError :=
  if negb endpoint_open then Err GwEndpointClosed
  else
    let? connection := timed incoming in
    let? fingerprint := peer_leaf_fingerprint connection in
    Ok (connection, resolve r fingerprint).

(** The checks on the registration message, in the code's order; an error is
    the reason sent with the rejection. *)
Definition check_registration (expected_server_id : option ServerId) (envelope : AgentEnvelope)
    : result (ServerId * AgentRegister) str :=
  match ae_message envelope with
  | Some (AgRegister register) =>
      if negb (reg_protocol_major register =? PROTOCOL_MAJOR)
      then Err (lit "incompatible agent protocol")
      else if AGENT_BUILD_BYTES_MAX <? str_len (reg_agent_build register)
      then Err (lit "invalid agent metadata")
      else match from_wire (reg_server_id register) with
           | Err _ => Err (lit "invalid server identity")
           | Ok claimed =>
               let scoped := match from_wire (ae_server_id envelope) with
                             | Ok s => Some s | Err _ => None end in
               if negb (bool_decide (expected_server_id = Some claimed)) ||
                  negb (bool_decide (scoped = Some claimed))
               then Err (lit "certificate identity mismatch")
               else if reg_max_frame_bytes register <? AGENT_CONTROL_FRAME_BYTES_MIN
               then Err (lit "invalid frame limit")
               else Ok (claimed, register)
           end
  | _ => Err (lit "invalid registration message")
  end.

Definition acceptance (claimed : ServerId) (negotiated_max : Z) : AgentEnvelope := {|
  ae_request_id := 0; ae_server_id := to_wire claimed; ae_shell_id := [];
  ae_message := Some (AgRegistration {|
    rn_accepted := true; rn_server_id := to_wire claimed; rn_max_frame_bytes := negotiated_max;
    rn_keepalive_interval_ms := DEFAULT_KEEPALIVE_INTERVAL_MS; rn_rejection_reason := [] |}) |}.

(** The second half: the control stream, the registration, the claim and the
    answer. [read_elapsed] is the timeout of the read. A lease that is not
    handed over is dropped. *)
Definition accept_finish (r : CertificateRegistry) (connection : Connection)
    (expected_server_id : option ServerId)
    (stream : Timed (result (SendStream * RecvStream) ConnectionError)) (read_elapsed : bool)
    : CertificateRegistry * (option Served * result RegisteredAgent GatewayError) :=
  match timed stream with
  | Err e => (r, (None, Err e))
  | Ok (send, recv) =>
      if read_elapsed then (r, (None, Err GwRegistrationTimeout))
      else
        let '(recv, envelope) := read_envelope recv AGENT_CONTROL_FRAME_BYTES_MAX in
        match envelope with
        | Err e => (r, (None, Err (GwStream e)))
        | Ok envelope =>
            match check_registration expected_server_id envelope with
            | Err reason => let '(sv, x) := reject send reason in (r, (Some sv, x))
            | Ok (claimed, register) =>
                match claim r claimed with
                | (r, Err (AlreadyActive _)) =>
                    let '(sv, x) := reject send (lit "server already connected") in (r, (Some sv, x))
                | (r, Err e) => (r, (None, Err (GwRegistry e)))
                | (r, Ok lease) =>
                    let negotiated_max :=
                      Z.min (reg_max_frame_bytes register) AGENT_CONTROL_FRAME_BYTES_MAX in
                    match write_envelope send (acceptance claimed negotiated_max) negotiated_max with
                    | (send, Err e) =>
                        (lease_drop r lease,
                         (Some {| sv_send := send; sv_close := None |}, Err (GwStream e)))
                    | (send, Ok _) =>
                        (r, (Some {| sv_send := send; sv_close := None |},
                             Ok {| ra_connection := connection; ra_send := send; ra_recv := recv;
                                   ra_server_id := claimed; ra_max_frame_bytes := negotiated_max;
                                   ra_next_request_id := 1; ra_lease := lease |}))
                    end
                end
            end
        end
  end.

(** ** A registered agent *)

(** [ServerId::from_wire(..).ok() == Some(id)] *)
Definition scoped_to (wire : bytes) (id : opaque_id) : bool :=
  match from_wire wire with Ok s => bool_decide (s = id) | Err _ => false end.

(** [checked_add(1).unwrap_or(1)]. *)
Definition next_id (n : Z) : Z := default 1 (checked_add64 n 1).

Definition answer_ping (a : RegisteredAgent) : RegisteredAgent * result Z GatewayError :=
  let '(recv, request) := read_envelope (ra_recv a) (ra_max_frame_bytes a) in
  let a := set_streams a (ra_send a) recv in
  match request with
  | Err e => (a, Err (GwStream e))
  | Ok request =>
      match ae_message request with
      | Some (AgPing nonce) =>
          if negb (scoped_to (ae_server_id request) (ra_server_id a))
          then (a, Err GwServerIdentityMismatch)
          else
            let '(send, w) := write_envelope (ra_send a) {|
              ae_request_id := ae_request_id request; ae_server_id := to_wire (ra_server_id a);
              ae_shell_id := []; ae_message := Some (AgPong nonce) |} (ra_max_frame_bytes a) in
            let a := set_streams a send (ra_recv a) in
            match w with Err e => (a, Err (GwStream e)) | Ok _ => (a, Ok nonce) end
      | _ => (a, Err GwUnexpectedControlMessage)
      end
  end.

(** [AgentShellRequest]. *)
Record AgentShellRequest := {
  sq_user_id : str; sq_connection_grant : bytes; sq_unix_account : option str;
  sq_command : option str; sq_cols : Z; sq_rows : Z; sq_idempotency_key : array 16 }.

Definition over (o : option str) (max : Z) : bool :=
  match o with Some v => max <? str_len v | None => false end.

Definition shell_request_new (user_id : str) (connection_grant : bytes)
    (unix_account command : option str) (cols rows : Z) (idempotency_key : array 16)
    : result AgentShellRequest GatewayError :=
  if is_empty user_id || (AGENT_USER_ID_BYTES_MAX <? str_len user_id) ||
     is_empty connection_grant || (AGENT_GRANT_BYTES_MAX <? len connection_grant) ||
     over unix_account AGENT_UNIX_ACCOUNT_BYTES_MAX || over command AGENT_COMMAND_BYTES_MAX
  then Err GwInvalidShellRequest
  else Ok {| sq_user_id := user_id; sq_connection_grant := connection_grant;
             sq_unix_account := unix_account; sq_command := command; sq_cols := cols;
             sq_rows := rows; sq_idempotency_key := idempotency_key |}.

Record AgentOpenedShell := { os_shell_id : ShellId; os_reused : bool }.

(** The request [open_shell] writes. *)
Definition open_envelope (request_id : Z) (server_id : ServerId) (q : AgentShellRequest)
    : AgentEnvelope := {|
  ae_request_id := request_id; ae_server_id := to_wire server_id; ae_shell_id := [];
  ae_message := Some (AgOpenShell {|
    ao_user_id := sq_user_id q; ao_unix_account := default [] (sq_unix_account q);
    ao_command := default [] (sq_command q); ao_initial_cols := sq_cols q;
    ao_initial_rows := sq_rows q; ao_idempotency_key := array_bytes (sq_idempotency_key q);
    ao_connection_grant := sq_connection_grant q |}) |}.

Definition open_response (a : RegisteredAgent) (request_id : Z) (response : AgentEnvelope)
    : result AgentOpenedShell GatewayError :=
  if negb (ae_request_id response =? request_id) ||
     negb (scoped_to (ae_server_id response) (ra_server_id a))
  then Err GwServerIdentityMismatch
  else match ae_message response with
       | Some (AgShellOpened opened) =>
           let? shell_id := map_err (λ _, GwUnexpectedControlMessage) (from_wire (aso_shell_id opened)) in
           Ok {| os_shell_id := shell_id; os_reused := aso_reused opened |}
       | Some (AgError e) => Err (GwRemote (err_code e) (err_human_message e) (err_retryable e))
       | _ => Err GwUnexpectedControlMessage
       end.

Definition gateway_open_shell (a : RegisteredAgent) (q : AgentShellRequest)
    : RegisteredAgent * result AgentOpenedShell GatewayError :=
  let request_id := ra_next_request_id a in
  let a := {| ra_connection := ra_connection a; ra_send := ra_send a; ra_recv := ra_recv a;
              ra_server_id := ra_server_id a; ra_max_frame_bytes := ra_max_frame_bytes a;
              ra_next_request_id := next_id request_id; ra_lease := ra_lease a |} in
  let '(send, w) := write_envelope (ra_send a) (open_envelope request_id (ra_server_id a) q)
                      (ra_max_frame_bytes a) in
  let a := set_streams a send (ra_recv a) in
  match w with
  | Err e => (a, Err (GwStream e))
  | Ok _ =>
      let '(recv, response) := read_envelope (ra_recv a) (ra_max_frame_bytes a) in
      let a := set_streams a (ra_send a) recv in
      match response with
      | Err e => (a, Err (GwStream e))
      | Ok response => (a, open_response a request_id response)
      end
  end.

(** ** Attachment streams *)
Record AgentAttachmentRequest := {
  aq_user_id : str; aq_connection_grant : bytes; aq_cols : Z; aq_rows : Z }.

Definition attachment_request_new (user_id : str) (connection_grant : bytes) (cols rows : Z)
    : result AgentAttachmentRequest GatewayError :=
  if is_empty user_id || (AGENT_USER_ID_BYTES_MAX <? str_len user_id) ||
     is_empty connection_grant || (AGENT_GRANT_BYTES_MAX <? len connection_grant)
  then Err GwInvalidAttachmentRequest
  else Ok {| aq_user_id := user_id; aq_connection_grant := connection_grant; aq_cols := cols;
             aq_rows := rows |}.

Record AgentAttachmentSender := {
  as_send : SendStream; as_server_id : ServerId; as_shell_id : ShellId; as_next_request_id : Z;
  as_finished : bool }.
Record AgentAttachmentReceiver := {
  ar_recv : RecvStream; ar_server_id : ServerId; ar_shell_id : ShellId }.
Record AgentAttachment := {
  at_attached : AgentShellAttached; at_sender : AgentAttachmentSender;
  at_receiver : AgentAttachmentReceiver }.

Definition validate_attachment_scope (envelope : AgentEnvelope) (server_id : ServerId)
    (shell_id : ShellId) (request_id : Z) : result unit GatewayError :=
  if negb (ae_request_id envelope =? request_id) ||
     negb (scoped_to (ae_server_id envelope) server_id) ||
     negb (scoped_to (ae_shell_id envelope) shell_id)
  then Err GwAttachmentIdentityMismatch else Ok ().

Definition attach_envelope (server_id : ServerId) (shell_id : ShellId) (q : AgentAttachmentRequest)
    : AgentEnvelope := {|
  ae_request_id := 1; ae_server_id := to_wire server_id; ae_shell_id := to_wire shell_id;
  ae_message := Some (AgAttachShell {|
    aa_user_id := aq_user_id q; aa_connection_grant := aq_connection_grant q;
    aa_cols := aq_cols q; aa_rows := aq_rows q |}) |}.

(** [opened]: the result of [open_bi]. *)
Definition gateway_attach_shell (a : RegisteredAgent)
    (opened : result (SendStream * RecvStream) ConnectionError) (shell_id : ShellId)
    (q : AgentAttachmentRequest) : option SendStream * result AgentAttachment GatewayError :=
  match opened with
  | Err e => (None, Err (GwConnection e))
  | Ok (send, recv) =>
      let '(send, w) := write_envelope send (attach_envelope (ra_server_id a) shell_id q)
                          AGENT_ATTACHMENT_FRAME_BYTES_MAX in
      (Some send,
       let? _ := map_err GwStream w in
       let '(recv, response) := read_envelope recv AGENT_ATTACHMENT_FRAME_BYTES_MAX in
       let? response := map_err GwStream response in
       let? _ := validate_attachment_scope response (ra_server_id a) shell_id 1 in
       match ae_message response with
       | Some (AgShellAttached attached) =>
           Ok {| at_attached := attached;
                 at_sender := {| as_send := send; as_server_id := ra_server_id a;
                                 as_shell_id := shell_id; as_next_request_id := 2;
                                 as_finished := false |};
                 at_receiver := {| ar_recv := recv; ar_server_id := ra_server_id a;
                                   ar_shell_id := shell_id |} |}
       | Some (AgError e) => Err (GwRemote (err_code e) (err_human_message e) (err_retryable e))
       | _ => Err GwUnexpectedAttachmentMessage
       end)
  end.

(** [request_id] and [write] of the sender: number the message and send it. *)
Definition sender_write (s : AgentAttachmentSender) (message : AgentMsg)
    : AgentAttachmentSender * result Z GatewayError :=
  let request_id := as_next_request_id s in
  let '(send, w) := write_envelope (as_send s) {|
    ae_request_id := request_id; ae_server_id := to_wire (as_server_id s);
    ae_shell_id := to_wire (as_shell_id s); ae_message := Some message |}
    AGENT_ATTACHMENT_FRAME_BYTES_MAX in
  ({| as_send := send; as_server_id := as_server_id s; as_shell_id := as_shell_id s;
      as_next_request_id := next_id request_id; as_finished := as_finished s |},
   let? _ := map_err GwStream w in Ok request_id).

Definition send_input (s : AgentAttachmentSender) (data : bytes)
    : AgentAttachmentSender * result Z GatewayError :=
  if AGENT_TERMINAL_INPUT_BYTES_MAX <? len data then (s, Err (GwInputTooLarge (len data)))
  else sender_write s (AgTerminalInput data).

Definition send_resize (s : AgentAttachmentSender) (cols rows : Z)
    : AgentAttachmentSender * result Z GatewayError := sender_write s (AgTerminalResize cols rows).

Definition request_history (s : AgentAttachmentSender) (before_line_id maximum_lines maximum_bytes : Z)
    : AgentAttachmentSender * result Z GatewayError :=
  sender_write s (AgRequestHistory {|
    rh_before_line_id := before_line_id;
    rh_maximum_lines := Z.min maximum_lines AGENT_HISTORY_LINES_MAX;
    rh_maximum_bytes := Z.min maximum_bytes (AGENT_ATTACHMENT_FRAME_BYTES_MAX / 2) |}).

Definition sender_detach (s : AgentAttachmentSender)
    : AgentAttachmentSender * result unit GatewayError :=
  let '(s, w) := sender_write s AgDetachShell in
  match w with
  | Err e => (s, Err e)
  | Ok _ => ({| as_send := as_send s; as_server_id := as_server_id s; as_shell_id := as_shell_id s;
                as_next_request_id := as_next_request_id s; as_finished := true |}, Ok ())
  end.

Inductive AgentAttachmentEvent :=
  | GeOutput (data : bytes)
  | GeHistoryChunk (request_id : Z) (chunk : HistoryChunk)
  | GeHistoryEnd (request_id : Z) (oldest_available_line_id : Z)
  | GeShellExited (exit : ShellExited).

Definition next_event (r : AgentAttachmentReceiver)
    : AgentAttachmentReceiver * result AgentAttachmentEvent GatewayError :=
  let '(recv, envelope) := read_envelope (ar_recv r) AGENT_ATTACHMENT_FRAME_BYTES_MAX in
  ({| ar_recv := recv; ar_server_id := ar_server_id r; ar_shell_id := ar_shell_id r |},
   let? envelope := map_err GwStream envelope in
   let? _ := validate_attachment_scope envelope (ar_server_id r) (ar_shell_id r)
               (ae_request_id envelope) in
   match ae_message envelope with
   | Some (AgTerminalOutput data) => Ok (GeOutput data)
   | Some (AgHistoryChunk chunk) => Ok (GeHistoryChunk (ae_request_id envelope) chunk)
   | Some (AgHistoryEnd e) => Ok (GeHistoryEnd (ae_request_id envelope) e)
   | Some (AgShellExited exit) => Ok (GeShellExited exit)
   | Some (AgError e) => Err (GwRemote (err_code e) (err_human_message e) (err_retryable e))
   | _ => Err GwUnexpectedAttachmentMessage
   end).
End gateway.
