(* ===== verification/GatewayProps.v ===== *)
(** * The gateway as a transition system

    Acceptances, registrations, revocations and dropped agents in any order:
    at most one agent per server, every lease accounted for, and an agent's
    identity is one its certificate was authorised for. *)
From S2P Require Import Prelude Protocol Framing AgentWire Ids Gateway.

Section steps.
Context {S : HashOps} `{ProstMessage AgentEnvelope}.

(** The shared registry, the acceptances between their two halves, and the
    live agents, by task. *)
Record GatewayState := {
  gs_registry : CertificateRegistry;
  gs_pending : gmap Z (Connection * option ServerId);
  gs_agents : gmap Z RegisteredAgent;
}.

Inductive gop :=
  | GAuthorize (server_id : ServerId) (leaf_der : bytes)
  | GRevoke (fingerprint : CertificateFingerprint)
  | GBegin (k : Z) (endpoint_open : bool) (incoming : Timed (result Connection ConnectionError))
  | GAbandon (k : Z)
  | GFinish (k : Z) (stream : Timed (result (SendStream * RecvStream) ConnectionError))
            (read_elapsed : bool)
  | GPing (k : Z)
  | GOpenShell (k : Z) (q : AgentShellRequest)
  | GDrop (k : Z).

Definition on_registry (g : GatewayState) (r : CertificateRegistry) : GatewayState :=
  {| gs_registry := r; gs_pending := gs_pending g; gs_agents := gs_agents g |}.

Definition on_agent (g : GatewayState) (k : Z) (f : RegisteredAgent → RegisteredAgent)
    : option GatewayState :=
  a ← gs_agents g !! k;
  Some {| gs_registry := gs_registry g; gs_pending := gs_pending g;
          gs_agents := <[k := f a]> (gs_agents g) |}.

(** Task numbers are fresh. *)
Definition gexec (g : GatewayState) (o : gop) : option GatewayState :=
  match o with
  | GAuthorize s l => Some (on_registry g (fst (authorize_leaf (gs_registry g) s l)))
  | GRevoke fp => Some (on_registry g (fst (revoke (gs_registry g) fp)))
  | GBegin k open incoming =>
      if bool_decide (gs_pending g !! k = None ∧ gs_agents g !! k = None) then
        match accept_begin (gs_registry g) open incoming with
        | Ok p => Some {| gs_registry := gs_registry g; gs_pending := <[k := p]> (gs_pending g);
                          gs_agents := gs_agents g |}
        | Err _ => Some g
        end
      else None
  | GAbandon k =>
      _ ← gs_pending g !! k;
      Some {| gs_registry := gs_registry g; gs_pending := delete k (gs_pending g);
              gs_agents := gs_agents g |}
  | GFinish k stream elapsed =>
      '(connection, expected) ← gs_pending g !! k;
      let '(r, (_, x)) := accept_finish (gs_registry g) connection expected stream elapsed in
      Some {| gs_registry := r; gs_pending := delete k (gs_pending g);
              gs_agents := match x with
                           | Ok a => <[k := a]> (gs_agents g)
                           | Err _ => gs_agents g
                           end |}
  | GPing k => on_agent g k (λ a, fst (answer_ping a))
  | GOpenShell k q => on_agent g k (λ a, fst (gateway_open_shell a q))
  | GDrop k =>
      a ← gs_agents g !! k;
      Some {| gs_registry := lease_drop (gs_registry g) (ra_lease a); gs_pending := gs_pending g;
              gs_agents := delete k (gs_agents g) |}
  end.

Definition gstep (g g' : GatewayState) : Prop := ∃ o, gexec g o = Some g'.

Definition ginit (r : CertificateRegistry) : GatewayState :=
  {| gs_registry := r; gs_pending := ∅; gs_agents := ∅ |}.

(** States reachable from a new registry. *)
Definition greachable (g : GatewayState) : Prop :=
  ∃ mi ma r, 0 ≤ mi ∧ 0 ≤ ma ∧ registry_new mi ma = Ok r ∧ rtc gstep (ginit r) g.

(** ** Operations on one agent leave its identity and lease *)
Definition same_agent (a a' : RegisteredAgent) : Prop :=
  ra_connection a' = ra_connection a ∧ ra_server_id a' = ra_server_id a ∧
  ra_lease a' = ra_lease a ∧ ra_max_frame_bytes a' = ra_max_frame_bytes a.

Lemma answer_ping_same a : same_agent a (fst (answer_ping a)).
Proof.
  rewrite /answer_ping. destruct (read_envelope _ _) as [recv [env|e]]; [|done].
  repeat (case_match; try done).
Qed.

Lemma gateway_open_shell_same a q : same_agent a (fst (gateway_open_shell a q)).
Proof. rewrite /gateway_open_shell. repeat (case_match; try done). Qed.

(** ** What a finished acceptance did *)
Lemma claim_Ok r s r' l :
  claim r s = (r', Ok l) →
  l = s ∧ s ∉ active r ∧ active r' = {[s]} ∪ active r ∧ active_count r < max_active_agents r ∧
  r' = set_active r ({[s]} ∪ active r).
Proof.
  rewrite /claim. case_bool_decide; [done|]. case_match; [done|]. intros [= <- <-]. to_prop. done.
Qed.

Lemma claim_Err r s r' e : claim r s = (r', Err e) → r' = r.
Proof. rewrite /claim. case_bool_decide; [congruence|]. case_match; congruence. Qed.

Lemma check_registration_Ok expected env s reg :
  check_registration expected env = Ok (s, reg) →
  expected = Some s ∧ ae_message env = Some (AgRegister reg) ∧
  ae_server_id env = to_wire s ∧ reg_server_id reg = to_wire s ∧
  reg_protocol_major reg = PROTOCOL_MAJOR ∧ str_len (reg_agent_build reg) ≤ AGENT_BUILD_BYTES_MAX ∧
  AGENT_CONTROL_FRAME_BYTES_MIN ≤ reg_max_frame_bytes reg.
Proof.
  rewrite /check_registration. destruct (ae_message env) as [[]|]; try done.
  destruct (negb _) eqn:E1; [done|]. destruct (_ <? _) eqn:E2; [done|].
  destruct (from_wire (reg_server_id m)) as [claimed|] eqn:E3; [|done].
  destruct (_ || _) eqn:E4; [done|]. destruct (_ <? _) eqn:E5 in |- *; [done|].
  intros [= <- <-]. to_prop.
  rewrite /from_wire in E3 H1.
  destruct (array_of 16 (reg_server_id m)) as [x|] eqn:E6; [|done]. injection E3 as ->.
  destruct (array_of 16 (ae_server_id env)) as [y|] eqn:E7; [|done]. injection H1 as ->.
  apply array_of_Some in E6. apply array_of_Some in E7. rewrite /to_wire. split_and!; done.
Qed.

(** The registry and the result of [accept_finish], in one of two shapes. *)
Lemma accept_finish_cases r c expected stream elapsed r' sv x :
  accept_finish r c expected stream elapsed = (r', (sv, x)) →
  match x with
  | Err _ => r' = r
  | Ok a => ∃ s,
      expected = Some s ∧ s ∉ active r ∧ active_count r < max_active_agents r ∧
      r' = set_active r ({[s]} ∪ active r) ∧ ra_connection a = c ∧ ra_server_id a = s ∧
      ra_lease a = s ∧ ra_next_request_id a = 1 ∧
      AGENT_CONTROL_FRAME_BYTES_MIN ≤ ra_max_frame_bytes a ≤ AGENT_CONTROL_FRAME_BYTES_MAX
  end.
Proof.
  rewrite /accept_finish. destruct (timed stream) as [[send recv]|]; [|by intros [= <- _ <-]].
  destruct elapsed; [by intros [= <- _ <-]|].
  destruct (read_envelope _ _) as [recv' [env|]]; [|by intros [= <- _ <-]].
  destruct (check_registration _ _) as [[s reg]|] eqn:Ec; last first.
  { rewrite /reject. destruct (write_envelope _ _ _). by intros [= <- _ <-]. }
  apply check_registration_Ok in Ec as (-> & _ & _ & _ & _ & _ & Hmin).
  destruct (claim r s) as [r1 [l|e]] eqn:Ecl.
  - apply claim_Ok in Ecl as (-> & Hs & Ha & Hlt & ->).
    destruct (write_envelope _ _ _) as [send' [u|e]].
    + intros [= <- _ <-]. exists s. split_and!; try done; simpl;
        rewrite /AGENT_CONTROL_FRAME_BYTES_MIN /AGENT_CONTROL_FRAME_BYTES_MAX in Hmin |- *; lia.
    + intros [= <- _ <-]. rewrite /lease_drop /set_active. destruct r. simpl in *. f_equal. set_solver.
  - apply claim_Err in Ecl as ->.
    destruct e; try by intros [= <- _ <-].
    rewrite /reject. destruct (write_envelope _ _ _). by intros [= <- _ <-].
Qed.

(** ** The invariant *)
Record gw_wf (g : GatewayState) : Prop := {
  gw_lease k a : gs_agents g !! k = Some a → ra_lease a = ra_server_id a;
  gw_active s : s ∈ active (gs_registry g) ↔ ∃ k a, gs_agents g !! k = Some a ∧ ra_server_id a = s;
  gw_unique k k' a a' :
    gs_agents g !! k = Some a → gs_agents g !! k' = Some a' →
    ra_server_id a = ra_server_id a' → k = k';
  gw_active_bound : active_count (gs_registry g) ≤ max_active_agents (gs_registry g);
  gw_identity_bound : identity_count (gs_registry g) ≤ max_identities (gs_registry g);
  gw_frames k a : gs_agents g !! k = Some a →
    AGENT_CONTROL_FRAME_BYTES_MIN ≤ ra_max_frame_bytes a ≤ AGENT_CONTROL_FRAME_BYTES_MAX;
  gw_disjoint k : is_Some (gs_pending g !! k) → gs_agents g !! k = None;
}.

Lemma on_agent_wf g k f g' :
  (∀ a, same_agent a (f a)) → gw_wf g → on_agent g k f = Some g' → gw_wf g'.
Proof.
  intros Hf [Hl Ha Hu Hb Hi Hfr Hd]. rewrite /on_agent.
  destruct (gs_agents g !! k) as [a|] eqn:E; [|done]. intros [= <-].
  have Hlk k' a' : <[k := f a]> (gs_agents g) !! k' = Some a' →
    ∃ a0, gs_agents g !! k' = Some a0 ∧ same_agent a0 a'.
  { intros [[<- <-]|[_ Hk']]%lookup_insert_Some; [by exists a|]. by exists a'. }
  split; simpl; try done.
  - intros k' a' (a0 & H0 & (_ & Hs & Hle & _))%Hlk. rewrite Hle Hs. by eapply Hl.
  - intros s. rewrite Ha. split.
    + intros (k' & a' & Hk' & Hs). destruct (decide (k' = k)) as [->|Hne].
      * exists k, (f a). rewrite lookup_insert_eq. split; [done|]. simplify_eq.
        apply (Hf a).
      * exists k', a'. by rewrite lookup_insert_ne.
    + intros (k' & a' & (a0 & H0 & (_ & Hs & _))%Hlk & <-). exists k', a0. by rewrite Hs.
  - intros k1 k2 a1 a2 (b1 & H1 & (_ & E1 & _))%Hlk (b2 & H2 & (_ & E2 & _))%Hlk He.
    eapply Hu; [done..|]. congruence.
  - intros k' a' (a0 & H0 & (_ & _ & _ & Hm))%Hlk. rewrite Hm. by eapply Hfr.
  - intros k' HS. rewrite lookup_insert_ne; [by apply Hd|]. intros <-. apply Hd in HS. congruence.
Qed.

Lemma authorize_leaf_wf g s l :
  gw_wf g → gw_wf (on_registry g (fst (authorize_leaf (gs_registry g) s l))).
Proof.
  intros [Hl Ha Hu Hb Hi Hfr Hd]. rewrite /authorize_leaf.
  destruct (identities _ !! _) eqn:E; [by split|]. case_match; [by split|]. to_prop.
  split; simpl; try done. rewrite /identity_count /= map_size_insert_None //.
  rewrite /identity_count in H0. lia.
Qed.

Lemma revoke_wf g fp : gw_wf g → gw_wf (on_registry g (fst (revoke (gs_registry g) fp))).
Proof.
  intros [Hl Ha Hu Hb Hi Hfr Hd]. split; simpl; try done.
  rewrite /identity_count /= in Hi |- *.
  pose proof (map_subseteq_size _ _ (delete_subseteq (identities (gs_registry g)) fp)). lia.
Qed.

Lemma pending_delete_wf g k :
  gw_wf g → gw_wf {| gs_registry := gs_registry g; gs_pending := delete k (gs_pending g);
                     gs_agents := gs_agents g |}.
Proof.
  intros [Hl Ha Hu Hb Hi Hfr Hd]. split; simpl; try done.
  intros k' [x Hx]. apply lookup_delete_Some in Hx as [_ Hx]. by apply Hd; rewrite Hx.
Qed.

(** A new agent under a lease just claimed. *)
Lemma add_agent_wf g k a s :
  gw_wf g → is_Some (gs_pending g !! k) → s ∉ active (gs_registry g) →
  active_count (gs_registry g) < max_active_agents (gs_registry g) →
  ra_server_id a = s → ra_lease a = s →
  AGENT_CONTROL_FRAME_BYTES_MIN ≤ ra_max_frame_bytes a ≤ AGENT_CONTROL_FRAME_BYTES_MAX →
  gw_wf {| gs_registry := set_active (gs_registry g) ({[s]} ∪ active (gs_registry g));
           gs_pending := delete k (gs_pending g); gs_agents := <[k := a]> (gs_agents g) |}.
Proof.
  intros [Hl Ha Hu Hb Hi Hfr Hd] Hk Hs Hlt Hid Hle Hf. apply Hd in Hk.
  have Hno k' a' : gs_agents g !! k' = Some a' → ra_server_id a' ≠ s.
  { intros Hk' E. apply Hs, Ha. eauto. }
  split; simpl; try done.
  - intros k' a' [[<- <-]|[_ H1]]%lookup_insert_Some; [congruence|eauto].
  - intros x. rewrite elem_of_union elem_of_singleton Ha. split.
    + intros [->|(k' & a' & Hk' & Hx)]; [exists k, a; by rewrite lookup_insert_eq|].
      exists k', a'. rewrite lookup_insert_ne //. congruence.
    + intros (k' & a' & [[<- <-]|[_ H1]]%lookup_insert_Some & Hx); [left; congruence|eauto].
  - intros k1 k2 a1 a2 [[<- <-]|[_ H1]]%lookup_insert_Some [[<- <-]|[_ H2]]%lookup_insert_Some E;
      [done|exfalso; apply (Hno _ _ H2); congruence|exfalso; apply (Hno _ _ H1); congruence|eauto].
  - rewrite /active_count /= size_union; [|set_solver]. rewrite size_singleton.
    rewrite /active_count in Hlt. lia.
  - intros k' a' [[<- <-]|[_ H1]]%lookup_insert_Some; [done|eauto].
  - intros k' [x Hx]. apply lookup_delete_Some in Hx as [Hne Hx]. rewrite lookup_insert_ne //.
    apply Hd. by rewrite Hx.
Qed.

Lemma drop_agent_wf g k a :
  gw_wf g → gs_agents g !! k = Some a →
  gw_wf {| gs_registry := lease_drop (gs_registry g) (ra_lease a); gs_pending := gs_pending g;
           gs_agents := delete k (gs_agents g) |}.
Proof.
  intros [Hl Ha Hu Hb Hi Hfr Hd] Hk. pose proof (Hl _ _ Hk) as Hle.
  split; simpl; try done.
  - intros k' a' [_ H1]%lookup_delete_Some. eauto.
  - intros x. rewrite elem_of_difference elem_of_singleton Ha Hle. split.
    + intros [(k' & a' & Hk' & Hx) Hne]. exists k', a'. rewrite lookup_delete_ne //. congruence.
    + intros (k' & a' & [Hne H1]%lookup_delete_Some & Hx). split; [eauto|].
      intros E. apply Hne. apply (Hu k k' a a'); congruence.
  - intros k1 k2 a1 a2 [_ H1]%lookup_delete_Some [_ H2]%lookup_delete_Some. eauto.
  - rewrite /active_count /= in Hb |- *.
    pose proof (subseteq_size (active (gs_registry g) ∖ {[ra_lease a]}) (active (gs_registry g))
                  ltac:(set_solver)). lia.
  - intros k' a' [_ H1]%lookup_delete_Some. eauto.
  - intros k' HS. rewrite lookup_delete_None. right. by apply Hd.
Qed.

Lemma gstep_wf g o g' : gw_wf g → gexec g o = Some g' → gw_wf g'.
Proof.
  intros W. destruct o as [s l|fp|k open inc|k|k stream el|k|k q|k]; simpl.
  - intros [= <-]. by apply authorize_leaf_wf.
  - intros [= <-]. by apply revoke_wf.
  - case_bool_decide as Hk; [|done]. destruct Hk as [Hp Hk].
    destruct (accept_begin _ _ _) as [p|]; [|by intros [= <-]]. intros [= <-].
    destruct W as [Hl Ha Hu Hb Hi Hfr Hd]. split; simpl; try done.
    intros k' [->|[_ HS]]%lookup_insert_is_Some; [done|by apply Hd].
  - destruct (gs_pending g !! k); [|done]. intros [= <-]. by apply pending_delete_wf.
  - destruct (gs_pending g !! k) as [[c ex]|] eqn:Ek; [|done]. simpl.
    destruct (accept_finish _ _ _ _ _) as [r' [sv x]] eqn:E. apply accept_finish_cases in E.
    intros [= <-]. destruct x as [a|]; [|subst r'; by apply pending_delete_wf].
    destruct E as (s & _ & Hs & Hlt & -> & _ & Hid & Hle & _ & Hf).
    by apply add_agent_wf; [|rewrite Ek|..].
  - intros Hg. eapply on_agent_wf; [|done|exact Hg]. apply answer_ping_same.
  - intros Hg. eapply on_agent_wf; [|done|exact Hg]. intros a. apply gateway_open_shell_same.
  - destruct (gs_agents g !! k) as [a|] eqn:Ek; [|done]. intros [= <-]. by apply drop_agent_wf.
Qed.

Lemma ginit_wf mi ma r :
  0 ≤ mi → 0 ≤ ma → registry_new mi ma = Ok r → gw_wf (ginit r).
Proof.
  intros Hi Ha. rewrite /registry_new. case_match; [done|]. intros [= <-].
  split; simpl; try done; try by intros k a E; rewrite lookup_empty in E.
  - intros s. rewrite elem_of_empty. split; [done|]. intros (? & ? & E & _). by rewrite lookup_empty in E.
Qed.

Lemma greachable_wf g : greachable g → gw_wf g.
Proof.
  intros (mi & ma & r & Hi & Ha & Hr & Hst). pose proof (ginit_wf _ _ _ Hi Ha Hr) as W.
  clear -W Hst. revert W. induction Hst as [|a b d [o Ho] _ IH]; [done|].
  intros W. apply IH. by eapply gstep_wf.
Qed.
(** ** Identities *)

(** The certificate an agent's connection presented. *)
Definition leaf_of (c : Connection) : option bytes :=
  match peer_identity c with Some (CertChain (leaf :: _)) => Some leaf | _ => None end.

Definition bound (g : GatewayState) (c : Connection) (s : ServerId) : Prop :=
  ∃ leaf, leaf_of c = Some leaf ∧ identities (gs_registry g) !! from_leaf_der leaf = Some s.

Lemma accept_begin_Ok r open inc c expected :
  accept_begin r open inc = Ok (c, expected) →
  ∃ leaf, leaf_of c = Some leaf ∧ expected = identities r !! from_leaf_der leaf.
Proof.
  rewrite /accept_begin /leaf_of. destruct open; [|done]. simpl.
  destruct (timed inc) as [c'|]; [|done]. rewrite /peer_leaf_fingerprint.
  destruct (peer_identity c') as [[[|leaf chain]|]|] eqn:E; simpl; try done.
  intros [= <- <-]. rewrite E. by exists leaf.
Qed.

Lemma gexec_pending g o g' k c s :
  gexec g o = Some g' → gs_pending g' !! k = Some (c, Some s) →
  gs_pending g !! k = Some (c, Some s) ∨ bound g c s.
Proof.
  destruct o; simpl; intros Hg Hp; try (injection Hg as <-; by left).
  - case_bool_decide; [|done]. destruct (accept_begin _ _ _) as [[c' ex]|] eqn:Eb;
      injection Hg as <-; [|by left].
    simpl in Hp. apply lookup_insert_Some in Hp as [[<- [= <- ->]]|[_ Hp]]; [|by left]. right.
    apply accept_begin_Ok in Eb as (leaf & Hl & He). exists leaf. done.
  - destruct (gs_pending g !! k0); [|done]. injection Hg as <-.
    simpl in Hp. apply lookup_delete_Some in Hp as [_ Hp]. by left.
  - destruct (gs_pending g !! k0) as [[c' ex]|]; [|done]. simpl in Hg.
    destruct (accept_finish _ _ _ _ _) as [r' [sv x]]. injection Hg as <-.
    simpl in Hp. apply lookup_delete_Some in Hp as [_ Hp]. by left.
  - rewrite /on_agent in Hg. destruct (gs_agents g !! k0); [|done]. injection Hg as <-. by left.
  - rewrite /on_agent in Hg. destruct (gs_agents g !! k0); [|done]. injection Hg as <-. by left.
  - destruct (gs_agents g !! k0); [|done]. injection Hg as <-. by left.
Qed.

Lemma gexec_agents g o g' k a :
  gexec g o = Some g' → gs_agents g' !! k = Some a →
  (∃ a0, gs_agents g !! k = Some a0 ∧ same_agent a0 a) ∨
  gs_pending g !! k = Some (ra_connection a, Some (ra_server_id a)).
Proof.
  have Hsame b : same_agent b b by done.
  destruct o; simpl; intros Hg Ha; try (injection Hg as <-; by left; eauto).
  - case_bool_decide; [|done]. destruct (accept_begin _ _ _); injection Hg as <-; by left; eauto.
  - destruct (gs_pending g !! k0); [|done]. injection Hg as <-. by left; eauto.
  - destruct (gs_pending g !! k0) as [[c' ex]|] eqn:Ek; [|done]. simpl in Hg.
    destruct (accept_finish _ _ _ _ _) as [r' [sv x]] eqn:E. apply accept_finish_cases in E.
    injection Hg as <-. simpl in Ha. destruct x as [a'|]; [|by left; eauto].
    apply lookup_insert_Some in Ha as [[<- <-]|[_ Ha]]; [|by left; eauto]. right.
    destruct E as (s & -> & _ & _ & _ & -> & -> & _). done.
  - rewrite /on_agent in Hg. destruct (gs_agents g !! k0) as [b|] eqn:Ek; [|done]. injection Hg as <-.
    simpl in Ha. apply lookup_insert_Some in Ha as [[<- <-]|[_ Ha]]; left; [|by eauto].
    exists b. split; [done|]. apply answer_ping_same.
  - rewrite /on_agent in Hg. destruct (gs_agents g !! k0) as [b|] eqn:Ek; [|done]. injection Hg as <-.
    simpl in Ha. apply lookup_insert_Some in Ha as [[<- <-]|[_ Ha]]; left; [|by eauto].
    exists b. split; [done|]. apply gateway_open_shell_same.
  - destruct (gs_agents g !! k0); [|done]. injection Hg as <-. simpl in Ha.
    apply lookup_delete_Some in Ha as [_ Ha]. by left; eauto.
Qed.

(** What was bound at some point of the run so far. *)
Definition was_bound (g0 g : GatewayState) (c : Connection) (s : ServerId) : Prop :=
  ∃ g1, rtc gstep g0 g1 ∧ rtc gstep g1 g ∧ bound g1 c s.

Lemma was_bound_step g0 g g' c s : was_bound g0 g c s → gstep g g' → was_bound g0 g' c s.
Proof. intros (g1 & H0 & H1 & Hb) Hs. exists g1. split_and!; [done|by eapply rtc_r|done]. Qed.

Lemma run_bound r g :
  rtc gstep (ginit r) g →
  (∀ k c s, gs_pending g !! k = Some (c, Some s) → was_bound (ginit r) g c s) ∧
  (∀ k a, gs_agents g !! k = Some a → was_bound (ginit r) g (ra_connection a) (ra_server_id a)).
Proof.
  revert g. apply rtc_ind_r.
  { split; simpl; intros *; by rewrite lookup_empty. }
  intros g g' Hst [o Ho] [IHp IHa].
  assert (gstep g g') as Hgs by (by exists o). split.
  - intros k c s Hp. destruct (gexec_pending _ _ _ _ _ _ Ho Hp) as [Hp'|Hb].
    + eapply was_bound_step; eauto.
    + exists g. split_and!; [done|by apply rtc_once|done].
  - intros k a Ha. destruct (gexec_agents _ _ _ _ _ Ho Ha) as [(a0 & H0 & (Hc & Hs & _))|Hp].
    + rewrite Hc Hs. eapply was_bound_step; eauto.
    + eapply was_bound_step; eauto.
Qed.

Lemma agents_size g : gw_wf g → size (active (gs_registry g)) = size (gs_agents g).
Proof.
  intros W. set (l := (λ p : Z * RegisteredAgent, ra_server_id p.2) <$> map_to_list (gs_agents g)).
  have Hnd : NoDup l.
  { apply NoDup_fmap_2_strong; [|apply NoDup_map_to_list].
    intros [k a] [k' a'] H1%elem_of_map_to_list H2%elem_of_map_to_list E. simpl in E.
    assert (k = k') as -> by (by apply (gw_unique _ W k k' a a')). by simplify_eq. }
  have -> : active (gs_registry g) = list_to_set l.
  { apply set_eq => s. rewrite elem_of_list_to_set list_elem_of_fmap (gw_active _ W). split.
    - intros (k & a & Hk & <-). exists (k, a). split; [done|]. by apply elem_of_map_to_list.
    - intros ([k a] & -> & Hk%elem_of_map_to_list). eauto. }
  rewrite size_list_to_set // length_fmap. apply length_map_to_list.
Qed.

(** ** Properties *)

(** In every state the gateway reaches, however acceptances, pings, shell
    requests, revocations and disconnects interleave, a server is marked
    active exactly when one live agent holds it, no server has two, the number
    of active servers is the number of live agents and within the limit, the
    bound identities are within theirs, and every agent's frame limit is
    between the protocol's bounds. *)
Theorem gateway_leases g :
  greachable g →
  (∀ s, s ∈ active (gs_registry g) ↔ ∃ k a, gs_agents g !! k = Some a ∧ ra_server_id a = s) ∧
  (∀ k k' a a', gs_agents g !! k = Some a → gs_agents g !! k' = Some a' →
     ra_server_id a = ra_server_id a' → k = k') ∧
  active_count (gs_registry g) = Z.of_nat (size (gs_agents g)) ∧
  active_count (gs_registry g) ≤ max_active_agents (gs_registry g) ∧
  identity_count (gs_registry g) ≤ max_identities (gs_registry g) ∧
  (∀ k a, gs_agents g !! k = Some a → 1024 ≤ ra_max_frame_bytes a ≤ 16 * 1024).
Proof.
  intros W%greachable_wf. split_and!; [apply (gw_active _ W)|apply (gw_unique _ W)| | | |].
  - rewrite /active_count agents_size //.
  - apply (gw_active_bound _ W).
  - apply (gw_identity_bound _ W).
  - apply (gw_frames _ W).
Qed.

(** C4: every live agent speaks for a server its certificate was authorised
    for: at some state of the run so far, the registry bound the fingerprint of
    the leaf its connection presented to that server. And a binding is never
    changed by anything but revoking that fingerprint. *)
Theorem agent_identity_bound r g :
  rtc gstep (ginit r) g →
  (∀ k a, gs_agents g !! k = Some a →
     ∃ g1 leaf, rtc gstep (ginit r) g1 ∧ rtc gstep g1 g ∧
       leaf_of (ra_connection a) = Some leaf ∧
       identities (gs_registry g1) !! from_leaf_der leaf = Some (ra_server_id a)) ∧
  (∀ o g' fp s, gexec g o = Some g' → identities (gs_registry g) !! fp = Some s →
     o ≠ GRevoke fp → identities (gs_registry g') !! fp = Some s).
Proof.
  intros Hr. split.
  - intros k a Ha. destruct (run_bound _ _ Hr) as [_ Hb].
    destruct (Hb _ _ Ha) as (g1 & H0 & H1 & leaf & Hl & Hi). exists g1, leaf. done.
  - intros o g' fp s Hg Hf Ho. destruct o as [s' l|fp'|k open inc|k|k stream el|k|k q|k]; simpl in Hg.
    + injection Hg as <-. rewrite /authorize_leaf.
      destruct (identities (gs_registry g) !! from_leaf_der l) eqn:E; [done|].
      case_match; [done|]. simpl. rewrite lookup_insert_ne //. congruence.
    + injection Hg as <-. simpl. rewrite lookup_delete_ne //. congruence.
    + case_bool_decide; [|done]. destruct (accept_begin _ _ _); by injection Hg as <-.
    + destruct (gs_pending g !! k); [|done]. by injection Hg as <-.
    + destruct (gs_pending g !! k) as [[c ex]|]; [|done]. simpl in Hg.
      destruct (accept_finish _ _ _ _ _) as [r' [sv x]] eqn:E. apply accept_finish_cases in E.
      injection Hg as <-. simpl. destruct x; [|by subst r'].
      destruct E as (? & _ & _ & _ & -> & _). done.
    + rewrite /on_agent in Hg. destruct (gs_agents g !! k); [|done]. by injection Hg as <-.
    + rewrite /on_agent in Hg. destruct (gs_agents g !! k); [|done]. by injection Hg as <-.
    + destruct (gs_agents g !! k); [|done]. by injection Hg as <-.
Qed.
End steps.
