(* ===== verification/Negotiate.v ===== *)
(** * Version and capability negotiation

    [crates/protocol/src/negotiate.rs]. *)
From S2P Require Import Prelude Protocol.

Record Negotiated := {
  ng_protocol_major : Z; ng_protocol_minor : Z;
  ng_capabilities : list Capability;
  ng_max_frame_bytes : Z; ng_max_datagram_bytes : Z }.

Inductive NegotiationError :=
  | MajorVersion (client server : Z)
  | NoUtf8
  | FrameLimitTooSmall (n : Z).

(** [hello.capabilities.contains(&(c as i32))]. *)
Definition offers (hello : ClientHello) (c : Capability) : bool :=
  bool_decide (capability_i32 c ∈ ch_capabilities hello).

Definition minor_defines (minor : Z) (c : Capability) : bool :=
  (negb (bool_decide (c = FileTransfer)) || (FILE_TRANSFER_PROTOCOL_MINOR <=? minor)) &&
  (negb (bool_decide (c = TcpForward)) || (TCP_FORWARD_PROTOCOL_MINOR <=? minor)).

Definition negotiate_server (hello : ClientHello) (server_capabilities : list Capability)
    (server_max_frame_bytes server_max_datagram_bytes : Z)
    (transport_supports_datagrams : bool) : result Negotiated NegotiationError :=
  if negb (ch_protocol_major hello =? PROTOCOL_MAJOR) then
    Err (MajorVersion (ch_protocol_major hello) PROTOCOL_MAJOR)
  else if negb (bool_decide (ENCODING_UTF8 ∈ ch_encodings hello)) then Err NoUtf8
  else if ch_max_frame_bytes hello <? FRAME_BYTES_FLOOR then
    Err (FrameLimitTooSmall (ch_max_frame_bytes hello))
  else
    let protocol_minor := Z.min (ch_protocol_minor hello) PROTOCOL_MINOR in
    let capabilities :=
      List.filter (minor_defines protocol_minor)
        (List.filter (offers hello) server_capabilities) in
    let capabilities :=
      if transport_supports_datagrams then capabilities
      else List.filter (λ c, negb (bool_decide (c = Datagrams))) capabilities in
    Ok {| ng_protocol_major := PROTOCOL_MAJOR;
          ng_protocol_minor := protocol_minor;
          ng_capabilities := capabilities;
          ng_max_frame_bytes :=
            Z.min (Z.min (ch_max_frame_bytes hello) server_max_frame_bytes) FRAME_BYTES_CEILING;
          ng_max_datagram_bytes :=
            Z.min (ch_max_datagram_bytes hello) server_max_datagram_bytes |}.

Definition server_hello (n : Negotiated) (keepalive_interval_ms : Z) : ServerHello :=
  {| sh_protocol_major := ng_protocol_major n;
     sh_protocol_minor := ng_protocol_minor n;
     sh_capabilities := map capability_i32 (ng_capabilities n);
     sh_max_frame_bytes := ng_max_frame_bytes n;
     sh_max_datagram_bytes := ng_max_datagram_bytes n;
     sh_keepalive_interval_ms := keepalive_interval_ms |}.

(** ** What an agreement means

    The specification of a successful negotiation, stated without the order in
    which the code filters: the agreed parameters are within what each side
    proposed, and a capability is enabled exactly when both sides list it, the
    agreed minor defines it, and the transport can carry it. *)
Record Agreement (hello : ClientHello) (caps : list Capability) (frame dgram : Z)
    (dgrams : bool) (n : Negotiated) : Prop := {
  agreed_major : ng_protocol_major n = ch_protocol_major hello;
  agreed_minor : ng_protocol_minor n ≤ ch_protocol_minor hello ∧ ng_protocol_minor n ≤ PROTOCOL_MINOR;
  agreed_frame : ng_max_frame_bytes n ≤ ch_max_frame_bytes hello ∧
    ng_max_frame_bytes n ≤ frame ∧ ng_max_frame_bytes n ≤ FRAME_BYTES_CEILING;
  agreed_floor : FRAME_BYTES_FLOOR ≤ frame → FRAME_BYTES_FLOOR ≤ ng_max_frame_bytes n;
  agreed_datagram : ng_max_datagram_bytes n ≤ ch_max_datagram_bytes hello ∧
    ng_max_datagram_bytes n ≤ dgram;
  agreed_capability c : c ∈ ng_capabilities n ↔
    c ∈ caps ∧ capability_i32 c ∈ ch_capabilities hello ∧
    (c = FileTransfer → 2 ≤ ng_protocol_minor n) ∧
    (c = TcpForward → 3 ≤ ng_protocol_minor n) ∧
    (c = Datagrams → dgrams = true) }.

Lemma elem_of_filter_list {A} (f : A → bool) l x : x ∈ List.filter f l ↔ x ∈ l ∧ f x = true.
Proof. rewrite !list_elem_of_In filter_In. done. Qed.

Lemma minor_defines_true minor c :
  minor_defines minor c = true ↔ (c = FileTransfer → 2 ≤ minor) ∧ (c = TcpForward → 3 ≤ minor).
Proof.
  rewrite /minor_defines /FILE_TRANSFER_PROTOCOL_MINOR /TCP_FORWARD_PROTOCOL_MINOR.
  destruct c; repeat case_bool_decide; simpl; rewrite ?andb_true_r ?Z.leb_le; naive_solver lia.
Qed.

(** C40: Whenever the server accepts a hello, the result is an agreement: no
    limit above either side's proposal or the protocol ceiling, never below
    the floor a live output frame needs, and exactly the capabilities both
    sides, the agreed minor and the transport support. *)
Theorem negotiate_agreement (hello : ClientHello) (caps : list Capability) (frame dgram : Z)
    (dgrams : bool) (n : Negotiated) :
  negotiate_server hello caps frame dgram dgrams = Ok n →
  Agreement hello caps frame dgram dgrams n.
Proof.
  rewrite /negotiate_server. case_match eqn:Em; [done|]. case_match eqn:Eu; [done|].
  case_match eqn:Ef; [done|]. intros [= <-]. to_prop.
  split; cbn [ng_protocol_major ng_protocol_minor ng_max_frame_bytes ng_max_datagram_bytes
              ng_capabilities]; try lia.
  - rewrite /FRAME_BYTES_CEILING /FRAME_BYTES_FLOOR in Ef |- *. lia.
  - intros c.
    have Hc : c ∈ List.filter (minor_defines (Z.min (ch_protocol_minor hello) PROTOCOL_MINOR))
                    (List.filter (offers hello) caps) ↔
      c ∈ caps ∧ capability_i32 c ∈ ch_capabilities hello ∧
      (c = FileTransfer → 2 ≤ Z.min (ch_protocol_minor hello) PROTOCOL_MINOR) ∧
      (c = TcpForward → 3 ≤ Z.min (ch_protocol_minor hello) PROTOCOL_MINOR).
    { rewrite !elem_of_filter_list minor_defines_true /offers bool_decide_eq_true. tauto. }
    destruct dgrams; [rewrite Hc; naive_solver|].
    rewrite elem_of_filter_list Hc negb_true_iff bool_decide_eq_false. naive_solver.
Qed.

(** The server refuses a hello exactly when it must: another major
    version, no UTF-8, or a frame limit below the floor. *)
Theorem negotiate_refuses (hello : ClientHello) (caps : list Capability) (frame dgram : Z)
    (dgrams : bool) :
  is_ok (negotiate_server hello caps frame dgram dgrams) = true ↔
  ch_protocol_major hello = PROTOCOL_MAJOR ∧ ENCODING_UTF8 ∈ ch_encodings hello ∧
  FRAME_BYTES_FLOOR ≤ ch_max_frame_bytes hello.
Proof.
  rewrite /negotiate_server. repeat case_match; to_prop; simpl; split; try done; try naive_solver lia.
Qed.

Definition sample_hello : ClientHello :=
  {| ch_protocol_major := 0; ch_protocol_minor := 7; ch_client_kind := 3;
     ch_client_build := lit "test"; ch_capabilities := [1; 2; 3];
     ch_max_frame_bytes := 512 * 1024; ch_max_datagram_bytes := 1400;
     ch_encodings := [ENCODING_UTF8] |}.

Lemma negotiate_agreement_witness :
  Agreement sample_hello [Datagrams; FileTransfer; TcpForward] FRAME_BYTES_DEFAULT 1200 false
    {| ng_protocol_major := 0; ng_protocol_minor := 3; ng_capabilities := [FileTransfer];
       ng_max_frame_bytes := FRAME_BYTES_DEFAULT; ng_max_datagram_bytes := 1200 |}.
Proof. apply negotiate_agreement. by vm_compute. Defined.
