(* ===== verification/UploadProto.v ===== *)
(** * Validation of the upload messages

    [crates/protocol/src/upload.rs]: checks that run before a destination is
    created ([validate_begin]) and before a chunk is written
    ([validate_chunk]). *)
From Stdlib Require Import Strings.Byte.
From S2P Require Import Prelude Protocol.

Inductive UploadValidationError :=
  | OriginalNameTooLong
  | InvalidDigest
  | FileTooLarge (declared maximum : Z)
  | InvalidUploadId
  | EmptyChunk
  | ChunkTooLarge (actual maximum : Z)
  | UnexpectedOffset (actual expected : Z)
  | ExceedsDeclaredLength.

(** [Display] of the error. *)
Definition validation_text (e : UploadValidationError) : str :=
  match e with
  | OriginalNameTooLong => lit "original filename exceeds 255 UTF-8 bytes"
  | InvalidDigest => lit "upload digest must be exactly 32 bytes"
  | FileTooLarge declared maximum =>
      lit "declared upload length " ++ dec_str declared ++ lit " exceeds limit " ++ dec_str maximum
  | InvalidUploadId => lit "upload id must be exactly 16 bytes"
  | EmptyChunk => lit "upload chunk must not be empty"
  | ChunkTooLarge actual maximum =>
      lit "upload chunk length " ++ dec_str actual ++ lit " exceeds limit " ++ dec_str maximum
  | UnexpectedOffset actual expected =>
      lit "upload chunk offset " ++ dec_str actual ++ lit " does not match expected offset " ++
      dec_str expected
  | ExceedsDeclaredLength => lit "upload chunk would exceed the declared file length"
  end.

Definition validate_begin (begin : BeginUpload) (configured_max_file_bytes : Z) :
    result unit UploadValidationError :=
  if UPLOAD_ORIGINAL_NAME_BYTES_MAX <? str_len (bu_original_name begin) then
    Err OriginalNameTooLong
  else if negb (length (bu_sha256 begin) =? UPLOAD_SHA256_BYTES)%nat then Err InvalidDigest
  else
    let maximum := Z.min configured_max_file_bytes UPLOAD_FILE_BYTES_HARD_MAX in
    if maximum <? bu_total_bytes begin then Err (FileTooLarge (bu_total_bytes begin) maximum)
    else Ok tt.

Definition validate_chunk (chunk : UploadChunk) (expected_upload_id : array UPLOAD_ID_BYTES)
    (expected_offset maximum_chunk_bytes total_bytes : Z) :
    result unit UploadValidationError :=
  if negb (length (uc_upload_id chunk) =? UPLOAD_ID_BYTES)%nat ||
     negb (bool_decide (uc_upload_id chunk = array_bytes expected_upload_id)) then
    Err InvalidUploadId
  else if is_empty (uc_data chunk) then Err EmptyChunk
  else
    let maximum := Z.min maximum_chunk_bytes UPLOAD_CHUNK_BYTES_MAX in
    if maximum <? len (uc_data chunk) then Err (ChunkTooLarge (len (uc_data chunk)) maximum)
    else if negb (uc_offset chunk =? expected_offset) then
      Err (UnexpectedOffset (uc_offset chunk) expected_offset)
    else
      match checked_add64 expected_offset (len (uc_data chunk)) with
      | None => Err ExceedsDeclaredLength
      | Some end_ => if total_bytes <? end_ then Err ExceedsDeclaredLength else Ok tt
      end.

(** What an accepted chunk satisfies; the writer's accounting rests on it. *)
Record ChunkFits (chunk : UploadChunk) (id : array UPLOAD_ID_BYTES)
    (offset maximum total : Z) : Prop := {
  fits_id : uc_upload_id chunk = array_bytes id;
  fits_nonempty : uc_data chunk ≠ [];
  fits_size : len (uc_data chunk) ≤ maximum ∧ len (uc_data chunk) ≤ UPLOAD_CHUNK_BYTES_MAX;
  fits_offset : uc_offset chunk = offset;
  fits_total : offset + len (uc_data chunk) ≤ total ∧ offset + len (uc_data chunk) ≤ u64_max }.

Lemma validate_chunk_Ok chunk id offset maximum total :
  validate_chunk chunk id offset maximum total = Ok tt ↔ ChunkFits chunk id offset maximum total.
Proof.
  rewrite /validate_chunk /checked_add64. cbv zeta. split.
  - destruct (_ || _) eqn:Ei; [done|]. destruct (is_empty _) eqn:Ee; [done|].
    destruct (_ <? len _) eqn:Ec; [done|]. destruct (negb (_ =? offset)) eqn:Eo; [done|].
    destruct (_ <=? u64_max) eqn:Ea; cbv iota; [|done]. destruct (total <? _) eqn:Et; [done|]. intros _.
    to_prop. split; try done; try lia. intros E. by rewrite E in Ee.
  - intros [Hid Hne [Hs1 Hs2] Ho [Ht1 Ht2]].
    rewrite Hid array_bytes_length Nat.eqb_refl bool_decide_true //=.
    have -> : is_empty (uc_data chunk) = false by destruct (uc_data chunk).
    repeat case_match; simplify_eq; to_prop; try done; lia.
Qed.

Lemma validate_begin_Ok b m :
  validate_begin b m = Ok tt ↔
  str_len (bu_original_name b) ≤ UPLOAD_ORIGINAL_NAME_BYTES_MAX ∧
  length (bu_sha256 b) = UPLOAD_SHA256_BYTES ∧
  bu_total_bytes b ≤ m ∧ bu_total_bytes b ≤ UPLOAD_FILE_BYTES_HARD_MAX.
Proof.
  rewrite /validate_begin. case_match eqn:E1; to_prop; [split; [done|lia]|].
  destruct (Nat.eqb_spec (length (bu_sha256 b)) UPLOAD_SHA256_BYTES); simpl; [|naive_solver].
  case_match eqn:E3; to_prop; split; try done; lia.
Qed.
