(* ===== verification/Utf8.v ===== *)
(** * Incremental UTF-8 decoding

    [crates/terminal-model/src/utf8.rs]: PTY output arrives in arbitrary
    chunks; [IncrementalUtf8] decodes it, drops invalid sequences and keeps an
    incomplete tail for the next chunk. [std::str::from_utf8] is modelled with
    the error positions it documents ([valid_up_to], [error_len]). *)
From Stdlib Require Import Strings.Byte.
From Equations Require Import Equations.
From S2P Require Import Prelude.

(** ** [std::str::from_utf8] *)

(** What the bytes at one position are: a scalar value of [n] bytes, an
    invalid sequence of [n] bytes, or the start of a sequence that is cut off. *)
Inductive utf8_step :=
  | StepChar (c : char) (n : nat)
  | StepInvalid (n : nat)
  | StepIncomplete.

Definition is_cont (b : byte) : bool := (0x80 <=? byte_Z b) && (byte_Z b <? 0xC0).

(** Allowed second bytes of three- and four-byte sequences (no overlong forms,
    no surrogates, nothing above U+10FFFF). *)
Definition second3_ok (b0 b1 : byte) : bool :=
  let x := byte_Z b0 in let y := byte_Z b1 in
  ((x =? 0xE0) && (0xA0 <=? y) && (y <=? 0xBF)) ||
  ((0xE1 <=? x) && (x <=? 0xEC) && (0x80 <=? y) && (y <=? 0xBF)) ||
  ((x =? 0xED) && (0x80 <=? y) && (y <=? 0x9F)) ||
  ((0xEE <=? x) && (x <=? 0xEF) && (0x80 <=? y) && (y <=? 0xBF)).

Definition second4_ok (b0 b1 : byte) : bool :=
  let x := byte_Z b0 in let y := byte_Z b1 in
  ((x =? 0xF0) && (0x90 <=? y) && (y <=? 0xBF)) ||
  ((0xF1 <=? x) && (x <=? 0xF3) && (0x80 <=? y) && (y <=? 0xBF)) ||
  ((x =? 0xF4) && (0x80 <=? y) && (y <=? 0x8F)).

Definition low6 (b : byte) : Z := byte_Z b - 0x80.

Definition utf8_next (l : bytes) : utf8_step :=
  match l with
  | [] => StepIncomplete
  | b0 :: l1 =>
      let x := byte_Z b0 in
      if x <? 0x80 then StepChar x 1
      else if (0xC2 <=? x) && (x <=? 0xDF) then
        match l1 with
        | [] => StepIncomplete
        | b1 :: _ =>
            if is_cont b1 then StepChar ((x - 0xC0) * 64 + low6 b1) 2 else StepInvalid 1
        end
      else if (0xE0 <=? x) && (x <=? 0xEF) then
        match l1 with
        | [] => StepIncomplete
        | b1 :: l2 =>
            if second3_ok b0 b1 then
              match l2 with
              | [] => StepIncomplete
              | b2 :: _ =>
                  if is_cont b2 then
                    StepChar ((x - 0xE0) * 4096 + low6 b1 * 64 + low6 b2) 3
                  else StepInvalid 2
              end
            else StepInvalid 1
        end
      else if (0xF0 <=? x) && (x <=? 0xF4) then
        match l1 with
        | [] => StepIncomplete
        | b1 :: l2 =>
            if second4_ok b0 b1 then
              match l2 with
              | [] => StepIncomplete
              | b2 :: l3 =>
                  if is_cont b2 then
                    match l3 with
                    | [] => StepIncomplete
                    | b3 :: _ =>
                        if is_cont b3 then
                          StepChar ((x - 0xF0) * 262144 + low6 b1 * 4096
                                    + low6 b2 * 64 + low6 b3) 4
                        else StepInvalid 3
                    end
                  else StepInvalid 2
              end
            else StepInvalid 1
        end
      else StepInvalid 1
  end.

Record Utf8Error := { valid_up_to : nat; error_len : option nat }.

(** Decode from position [pos] until the end or the first error. *)
Equations? run_utf8_validation (l : bytes) (pos : nat) : str * option Utf8Error
    by wf (length l) lt :=
  run_utf8_validation [] _ := ([], None);
  run_utf8_validation (b :: l) pos with utf8_next (b :: l) => {
    | StepChar c n :=
        let '(s, e) := run_utf8_validation (drop (n - 1) l) (pos + n) in (c :: s, e);
    | StepInvalid n := ([], Some {| valid_up_to := pos; error_len := Some n |});
    | StepIncomplete := ([], Some {| valid_up_to := pos; error_len := None |}) }.
Proof. rewrite length_drop /=. lia. Qed.

Definition from_utf8 (l : bytes) : result str Utf8Error :=
  match run_utf8_validation l 0 with
  | (s, None) => Ok s
  | (_, Some e) => Err e
  end.

(** ** [IncrementalUtf8] *)
Record IncrementalUtf8 := { pending : bytes }.

Definition utf8_new : IncrementalUtf8 := {| pending := [] |}.

(** The [loop] of [push]. Every turn that continues drops an invalid sequence;
    [None] is the panic of [unwrap] or exhausted fuel, and [push] never
    returns it ([push_decode]). *)
Fixpoint push_loop (fuel : nat) (out : str) (rest : bytes) : option (str * bytes) :=
  match fuel with
  | O => None
  | S fuel =>
      match from_utf8 rest with
      | Ok s => Some (out ++ s, [])
      | Err e =>
          match from_utf8 (take (valid_up_to e) rest) with
          | Err _ => None
          | Ok s =>
              match error_len e with
              | Some n => push_loop fuel (out ++ s) (drop (valid_up_to e + n) rest)
              | None => Some (out ++ s, drop (valid_up_to e) rest)
              end
          end
      end
  end.

Definition push (u : IncrementalUtf8) (input : bytes) : option (IncrementalUtf8 * str) :=
  let data := pending u ++ input in
  '(out, p) ← push_loop (S (length data)) [] data;
  Some ({| pending := p |}, out).

(** A sequence of chunks. *)
Fixpoint push_all (u : IncrementalUtf8) (chunks : list bytes) : option (IncrementalUtf8 * str) :=
  match chunks with
  | [] => Some (u, [])
  | c :: cs =>
      '(u1, s1) ← push u c;
      '(u2, s2) ← push_all u1 cs;
      Some (u2, s1 ++ s2)
  end.

(** ** Reference decoding of a whole byte string *)
Equations? decode (l : bytes) : str * bytes by wf (length l) lt :=
  decode [] := ([], []);
  decode (b :: l) with utf8_next (b :: l) => {
    | StepChar c n := let '(s, p) := decode (drop (n - 1) l) in (c :: s, p);
    | StepInvalid n := decode (drop (n - 1) l);
    | StepIncomplete := ([], b :: l) }.
Proof. all: rewrite length_drop /=; lia. Qed.

(** ** One step *)
Lemma utf8_next_app l ext :
  utf8_next l ≠ StepIncomplete → utf8_next (l ++ ext) = utf8_next l.
Proof.
  destruct l as [|b0 [|b1 [|b2 [|b3 l]]]]; intros H; try done; revert H; rewrite /utf8_next /=;
    repeat case_match; done.
Qed.

Lemma utf8_next_size l :
  match utf8_next l with
  | StepChar _ n | StepInvalid n => (1 ≤ n ≤ length l)%nat
  | StepIncomplete => (length l ≤ 3)%nat
  end.
Proof.
  destruct l as [|b0 [|b1 [|b2 [|b3 l]]]]; rewrite /utf8_next /=;
    repeat case_match; simplify_eq; simpl; lia.
Qed.

(** A character is decided by its own bytes. *)
Lemma utf8_next_take l c n k :
  utf8_next l = StepChar c n → (n ≤ k)%nat → utf8_next (take k l) = StepChar c n.
Proof.
  destruct l as [|b0 [|b1 [|b2 [|b3 l]]]], k as [|[|[|[|k]]]]; rewrite /utf8_next /= => H Hk;
    repeat case_match; simplify_eq; try done; lia.
Qed.

(** ** The recursions, unfolded once *)
Lemma decode_eq l :
  decode l = match utf8_next l with
             | StepChar c n => (c :: (decode (drop n l)).1, (decode (drop n l)).2)
             | StepInvalid n => decode (drop n l)
             | StepIncomplete => ([], l)
             end.
Proof.
  destruct l as [|b l]; first by simp decode.
  simp decode. pose proof (utf8_next_size (b :: l)) as Hs.
  destruct (utf8_next (b :: l)) as [c [|n]|[|n]|]; simpl in *; try lia; try done;
    rewrite Nat.sub_0_r; by destruct (decode _).
Qed.

Lemma run_eq l pos :
  run_utf8_validation l pos =
  match l, utf8_next l with
  | [], _ => ([], None)
  | _, StepChar c n =>
      (c :: (run_utf8_validation (drop n l) (pos + n)).1,
       (run_utf8_validation (drop n l) (pos + n)).2)
  | _, StepInvalid n => ([], Some {| valid_up_to := pos; error_len := Some n |})
  | _, StepIncomplete => ([], Some {| valid_up_to := pos; error_len := None |})
  end.
Proof.
  destruct l as [|b l]; first by simp run_utf8_validation.
  simp run_utf8_validation. pose proof (utf8_next_size (b :: l)) as Hs.
  destruct (utf8_next (b :: l)) as [c [|n]|[|n]|]; simpl in *; try lia; try done.
  rewrite Nat.sub_0_r. by destruct (run_utf8_validation _ _).
Qed.

(** Strong induction on the length, the scheme of all proofs below. *)
Lemma bytes_len_ind (P : bytes → Prop) :
  (∀ l, (∀ n, (1 ≤ n ≤ length l)%nat → P (drop n l)) → P l) → ∀ l, P l.
Proof.
  intros IH l. induction l as [l Hl] using (induction_ltof1 _ length).
  apply IH. intros n Hn. apply Hl. rewrite /ltof length_drop. lia.
Qed.

(** ** Decoding in pieces *)
Lemma decode_app l ext :
  decode (l ++ ext) =
  ((decode l).1 ++ (decode ((decode l).2 ++ ext)).1, (decode ((decode l).2 ++ ext)).2).
Proof.
  induction l as [l IH] using bytes_len_ind.
  pose proof (utf8_next_size l) as Hs. pose proof (utf8_next_app l ext) as Ha.
  rewrite (decode_eq l). destruct (utf8_next l) as [c n|n|] eqn:El; simpl.
  - rewrite decode_eq Ha //= drop_app_le; last lia. by rewrite IH.
  - rewrite decode_eq Ha // drop_app_le; last lia. by rewrite IH.
  - by destruct (decode (l ++ ext)).
Qed.

(** What is carried over is the start of one sequence: at most three bytes. *)
Lemma decode_tail l : utf8_next (decode l).2 = StepIncomplete.
Proof.
  induction l as [l IH] using bytes_len_ind.
  pose proof (utf8_next_size l) as Hs. rewrite decode_eq.
  destruct (utf8_next l) as [c n|n|] eqn:El; simpl; auto.
Qed.

Lemma decode_tail_len l : (length (decode l).2 ≤ 3)%nat.
Proof. pose proof (utf8_next_size (decode l).2) as H. by rewrite decode_tail in H. Qed.

(** ** [from_utf8] agrees with the reference *)

(** The validator stops [k] bytes further: either everything was decoded, or
    the prefix is valid and the error is the step at that place. *)
Lemma run_spec l pos :
  match run_utf8_validation l pos with
  | (s, None) => decode l = (s, [])
  | (s, Some e) =>
      ∃ k, valid_up_to e = (pos + k)%nat ∧ (k ≤ length l)%nat ∧
        run_utf8_validation (take k l) pos = (s, None) ∧
        match error_len e with
        | Some n => (1 ≤ n ≤ length l - k)%nat ∧
            decode l = (s ++ (decode (drop (k + n) l)).1, (decode (drop (k + n) l)).2)
        | None => decode l = (s, drop k l)
        end
  end.
Proof.
  revert pos. induction l as [l IH] using bytes_len_ind. intros pos.
  pose proof (utf8_next_size l) as Hs.
  pose proof (fun c n k => utf8_next_take l c n k) as Ht.
  rewrite run_eq (decode_eq l). destruct l as [|b l]; first done.
  destruct (utf8_next (b :: l)) as [c n|n|] eqn:El.
  - specialize (IH n Hs (pos + n)%nat).
    destruct (run_utf8_validation (drop n (b :: l)) (pos + n)) as [s [e|]] eqn:Er;
      cbn [fst snd]; last by rewrite IH.
    destruct IH as (k & Hv & Hk & Hrun & He). rewrite length_drop in Hk.
    exists (n + k)%nat. split_and!; [lia|lia| |].
    + assert (utf8_next (take (n + k) (b :: l)) = StepChar c n) as Hn by (apply Ht; [done|lia]).
      rewrite run_eq. destruct (take (n + k) (b :: l)) eqn:E; first done.
      rewrite Hn -E skipn_firstn_comm. replace (n + k - n)%nat with k by lia. by rewrite Hrun.
    + destruct (error_len e) as [m|].
      * rewrite length_drop in He. rewrite drop_drop in He. destruct He as [? ->]. split; [lia|].
        by rewrite Nat.add_assoc.
      * rewrite He drop_drop //.
  - exists 0%nat. cbn [valid_up_to error_len]. split_and!; [lia|lia|by rewrite run_eq|lia|simpl in *; lia|].
    apply surjective_pairing.
  - exists 0%nat. cbn [valid_up_to error_len]. split_and!; [lia|lia|by rewrite run_eq|done].
Qed.

(** The prefix up to the reported error is valid UTF-8, and the error sits at
    the end of it. *)
Lemma from_utf8_spec l :
  match from_utf8 l with
  | Ok s => decode l = (s, [])
  | Err e =>
      ∃ s, (valid_up_to e ≤ length l)%nat ∧ from_utf8 (take (valid_up_to e) l) = Ok s ∧
        match error_len e with
        | Some n => (1 ≤ n ≤ length l - valid_up_to e)%nat ∧
            decode l = (s ++ (decode (drop (valid_up_to e + n) l)).1,
                        (decode (drop (valid_up_to e + n) l)).2)
        | None => decode l = (s, drop (valid_up_to e) l)
        end
  end.
Proof.
  pose proof (run_spec l 0) as H. rewrite {1}/from_utf8.
  destruct (run_utf8_validation l 0) as [s [e|]]; last done.
  destruct H as (k & Hv & Hk & Hr & He). simpl in Hv. subst k.
  exists s. by rewrite /from_utf8 Hr.
Qed.

Lemma push_loop_decode fuel l out :
  (length l < fuel)%nat → push_loop fuel out l = Some (out ++ (decode l).1, (decode l).2).
Proof.
  revert l out. induction fuel as [|fuel IH]; intros l out Hf; first lia. simpl.
  pose proof (from_utf8_spec l) as Hsp. destruct (from_utf8 l) as [s|e]; first by rewrite Hsp.
  destruct Hsp as (s & Hv & -> & He). destruct (error_len e) as [n|].
  - destruct He as [? ->]. rewrite IH; last (rewrite length_drop; lia).
    by rewrite -app_assoc.
  - by rewrite He.
Qed.

(** [push] never panics and terminates: it decodes the carried bytes followed
    by the chunk. *)
Lemma push_decode u c :
  push u c = Some ({| pending := (decode (pending u ++ c)).2 |}, (decode (pending u ++ c)).1).
Proof. rewrite /push push_loop_decode //=. lia. Qed.

Lemma push_all_decode u cs :
  utf8_next (pending u) = StepIncomplete →
  push_all u cs = Some ({| pending := (decode (pending u ++ concat cs)).2 |},
                        (decode (pending u ++ concat cs)).1).
Proof.
  revert u. induction cs as [|c cs IH]; intros u Hu; simpl.
  - by rewrite app_nil_r decode_eq Hu /=; destruct u.
  - rewrite push_decode /= IH /=; last apply decode_tail.
    by rewrite app_assoc (decode_app (pending u ++ c)).
Qed.

(** ** Encoded text decodes to itself *)
Lemma utf8_next_encode c rest :
  is_scalar c = true → utf8_next (utf8_encode_char c ++ rest) = StepChar c (length (utf8_encode_char c)).
Proof.
  rewrite /is_scalar /utf8_encode_char => Hc.
  have Hb z : 0 ≤ z < 256 → byte_Z (Z_byte z) = z.
  { intros. rewrite byte_Z_of_Z /wrap8. zlia. }
  repeat case_match; rewrite /utf8_next /= /is_cont /second3_ok /second4_ok /low6 !Hb; try zlia.
  all: repeat (case_match; [|try zlia]); f_equal; zlia.
Qed.

Lemma decode_str_bytes s rest :
  Forall (λ c, is_scalar c = true) s →
  decode (str_bytes s ++ rest) = (s ++ (decode rest).1, (decode rest).2).
Proof.
  rewrite /str_bytes. induction 1 as [|c s Hc _ IH]; simpl; first apply surjective_pairing.
  rewrite -app_assoc decode_eq utf8_next_encode // drop_app_length. by rewrite IH.
Qed.

(** Valid text passes the validator. *)
Lemma from_utf8_str_bytes s :
  Forall (λ c, is_scalar c = true) s → from_utf8 (str_bytes s) = Ok s.
Proof.
  intros Hs. rewrite /from_utf8. enough (∀ pos, run_utf8_validation (str_bytes s) pos = (s, None))
    as -> by done.
  rewrite /str_bytes. induction Hs as [|c s Hc _ IH]; intros pos; [by rewrite run_eq|]. simpl.
  pose proof (utf8_next_encode c (concat (map utf8_encode_char s)) Hc) as Hn.
  pose proof (utf8_next_size (utf8_encode_char c ++ concat (map utf8_encode_char s))) as Hz.
  rewrite Hn in Hz. rewrite run_eq.
  destruct (utf8_encode_char c ++ _) as [|b l] eqn:E; [simpl in Hz; lia|].
  rewrite Hn -E drop_app_length IH //.
Qed.

(** And what passes it is the encoding of what it gives. *)
Lemma utf8_next_inv l c n :
  utf8_next l = StepChar c n → take n l = utf8_encode_char c ∧ is_scalar c = true.
Proof.
  have Hz b z : byte_Z b = z → b = Z_byte z by intros <-; rewrite Z_byte_of_byte.
  rewrite /utf8_next. repeat (case_match; try done); intros [= <- <-];
    unfold is_cont, second3_ok, second4_ok, low6 in *; rewrite /utf8_encode_char /is_scalar;
    repeat match goal with b : byte |- _ => lazymatch goal with H : 0 ≤ byte_Z b < 256 |- _ => fail | _ => pose proof (byte_Z_range b) end end;
    (split; [repeat (case_match; [try (exfalso; zlia)|]); try (exfalso; zlia); simpl; repeat f_equal; apply Hz; zlia|zlia]).
Qed.

Lemma from_utf8_inv l s : from_utf8 l = Ok s → str_bytes s = l ∧ Forall (λ c, is_scalar c = true) s.
Proof.
  rewrite /from_utf8. enough (∀ pos, (run_utf8_validation l pos).2 = None →
    str_bytes (run_utf8_validation l pos).1 = l ∧
    Forall (λ c, is_scalar c = true) (run_utf8_validation l pos).1) as H.
  { specialize (H 0%nat). destruct (run_utf8_validation l 0) as [s' [e|]]; [done|]. intros [= ->]. by apply H. }
  induction l as [l IH] using bytes_len_ind. intros pos. rewrite run_eq.
  destruct l as [|b l]; [done|]. pose proof (utf8_next_size (b :: l)) as Hs.
  destruct (utf8_next (b :: l)) as [c n|n|] eqn:En; simpl; [|done..]. intros Hr.
  destruct (utf8_next_inv _ _ _ En) as [Ht Hc]. destruct (IH n Hs (pos + n)%nat Hr) as [E F].
  split; [|by constructor]. rewrite /str_bytes /= -/(str_bytes _) E -Ht. apply take_drop.
Qed.

(** ** Properties *)

(** C39: however the PTY output is cut into chunks, [push] terminates without
    panicking on each of them, the text produced over all chunks and the bytes
    carried over are those of one [push] of the whole output, and at most three
    bytes are carried. *)
Theorem push_chunk_independent cs :
  ∃ u s, push_all utf8_new cs = Some (u, s) ∧
    push utf8_new (concat cs) = Some (u, s) ∧ (length (pending u) ≤ 3)%nat.
Proof.
  do 2 eexists. split_and!; [by apply push_all_decode|by rewrite push_decode|apply decode_tail_len].
Qed.

(** Text encoded as UTF-8 and split anywhere, also inside a character,
    comes out as that text with nothing left pending. *)
Theorem push_text_roundtrip s cs :
  Forall (λ c, is_scalar c = true) s → concat cs = str_bytes s →
  push_all utf8_new cs = Some (utf8_new, s).
Proof.
  intros Hs Hc. rewrite push_all_decode // Hc /=.
  by rewrite -(app_nil_r (str_bytes s)) decode_str_bytes //= decode_eq /= app_nil_r.
Qed.

(** "h", e-acute and the crab emoji, one byte per chunk. *)
Lemma push_text_roundtrip_witness :
  push_all utf8_new (map (λ b, [b]) (str_bytes [0x68; 0xE9; 0x1F980]))
  = Some (utf8_new, [0x68; 0xE9; 0x1F980]).
Proof. apply push_text_roundtrip; [repeat constructor|by vm_compute]. Defined.
