(* ===== verification/Auth.v ===== *)
(** * Grants and SSH keys

    [crates/auth/src/grant.rs] and [ssh.rs]: what a connection grant is, how it
    is issued and verified, which SSH keys may sign a challenge and what the
    signature has to cover. Ed25519, base64, JSON and the SSH key formats are
    libraries: the classes [GrantCrypto] and [SshCrypto], with the laws the
    code relies on in [GrantCryptoLaws]. *)
From S2P Require Import Prelude Utf8.

(** ** Connection grants ([grant.rs]) *)
Inductive GrantError :=
  | Malformed
  | BadSignature
  | WrongAudience (found expected : str)
  | GrantExpired (expires_at_ms now_ms : Z)
  | NotYetValid (issued_at_ms now_ms : Z).

Record GrantClaims := {
  sub : str; aud : str; servers : list str; ops : list str; iat_ms : Z; exp_ms : Z; jti : str }.

Definition claims_permits (c : GrantClaims) (op : str) : bool :=
  is_empty (ops c) || existsb (λ o, bool_decide (o = op)) (ops c).

(** [ed25519_dalek], [base64] (URL-safe, no padding) and [serde_json]. *)
Class GrantCrypto := {
  SigningKey : Type;
  VerifyingKey : Type;
  signing_from_bytes : array 32 → SigningKey;
  verifying_key : SigningKey → VerifyingKey;
  verifying_from_bytes : array 32 → option VerifyingKey;
  verifying_to_bytes : VerifyingKey → array 32;
  ed_sign : SigningKey → bytes → array 64;
  ed_verify : VerifyingKey → bytes → array 64 → bool;
  b64_encode : bytes → str;
  b64_decode : str → option bytes;
  claims_to_json : GrantClaims → bytes;
  claims_from_json : bytes → option GrantClaims;
}.

(** A signature verifies under its own key; base64 and JSON read back what they
    wrote, and base64 text is ASCII without the separator. *)
Class GrantCryptoLaws (K : GrantCrypto) : Prop := {
  ed_correct k msg : ed_verify (verifying_key k) msg (ed_sign k msg) = true;
  b64_roundtrip l : b64_decode (b64_encode l) = Some l;
  b64_alphabet l : Forall (λ c, is_ascii c = true ∧ c ≠ 0x2E) (b64_encode l);
  json_roundtrip c : claims_from_json (claims_to_json c) = Some c;
}.

(** [str::split_once]. *)
Fixpoint split_once (sep : char) (s : str) : option (str * str) :=
  match s with
  | [] => None
  | c :: s => if c =? sep then Some ([], s)
              else '(a, b) ← split_once sep s; Some (c :: a, b)
  end.

Definition CLOCK_SKEW_MS : Z := 60000.

Section grant.
Context {K : GrantCrypto}.

Record GrantSigner := { signing : SigningKey }.
Record GrantVerifier := { verifying : VerifyingKey }.

(** [generate] is this at random bytes. *)
Definition signer_from_bytes (secret : array 32) : GrantSigner :=
  {| signing := signing_from_bytes secret |}.
Definition signer_verifier (s : GrantSigner) : GrantVerifier :=
  {| verifying := verifying_key (signing s) |}.
Definition verifier_from_public_bytes (b : array 32) : result GrantVerifier GrantError :=
  match verifying_from_bytes b with Some v => Ok {| verifying := v |} | None => Err Malformed end.
Definition public_bytes (v : GrantVerifier) : array 32 := verifying_to_bytes (verifying v).

(** [ConnectionGrant]: the opaque token text. *)
Definition ConnectionGrant : Type := str.

Definition grant_as_bytes (g : ConnectionGrant) : bytes := str_bytes g.
Definition grant_from_wire (l : bytes) : result ConnectionGrant GrantError :=
  map_err (λ _, Malformed) (from_utf8 l).

Definition issue (s : GrantSigner) (claims : GrantClaims) : ConnectionGrant :=
  let payload := claims_to_json claims in
  let sig := ed_sign (signing s) payload in
  b64_encode payload ++ lit "." ++ b64_encode (array_bytes sig).

Definition verify (v : GrantVerifier) (grant : ConnectionGrant) (expected_audience : str)
    (now_ms : Z) : result GrantClaims GrantError :=
  let? (payload_b64, sig_b64) := ok_or (split_once 0x2E grant) Malformed in
  let? payload := ok_or (b64_decode payload_b64) Malformed in
  let? sig_bytes := ok_or (b64_decode sig_b64) Malformed in
  let? signature := ok_or (array_of 64 sig_bytes) Malformed in
  if negb (ed_verify (verifying v) payload signature) then Err BadSignature
  else
    let? claims := ok_or (claims_from_json payload) Malformed in
    if negb (bool_decide (aud claims = expected_audience))
    then Err (WrongAudience (aud claims) expected_audience)
    else if exp_ms claims <=? now_ms then Err (GrantExpired (exp_ms claims) now_ms)
    else if sat_i64 (now_ms + CLOCK_SKEW_MS) <? iat_ms claims
    then Err (NotYetValid (iat_ms claims) now_ms)
    else Ok claims.
End grant.

(** ** SSH challenge and response ([ssh.rs]) *)
Inductive SshError :=
  | NoAuthorizedKeys
  | KeyNotAuthorized
  | MalformedKey
  | MalformedSignature
  | SshBadSignature
  | ChallengeMismatch
  | UserPresenceMissing.

Definition SSH_NAMESPACE : str := lit "holdfast-auth@v0".
Definition SK_SIGNATURE_TRAILER : Z := 5.
Definition FIDO_FLAG_USER_PRESENT : Z := 0x01.
Definition FIDO_FLAG_USER_VERIFIED : Z := 0x04.

Inductive Algorithm := SkEd25519 | SkEcdsaSha2NistP256 | OtherAlgorithm.

(** The [ssh_key] crate: public keys, signatures and the [authorized_keys]
    reader, which yields an error or an entry per line. *)
Class SshCrypto := {
  PublicKey : Type;
  KeyData : Type;
  SshSig : Type;
  #[global] key_data_eq_dec :: EqDecision KeyData;
  key_data : PublicKey → KeyData;
  key_algorithm : KeyData → Algorithm;
  key_fingerprint : PublicKey → str;
  key_verify : PublicKey → str → bytes → SshSig → bool;
  from_openssh : str → option PublicKey;
  sig_from_pem : bytes → option SshSig;
  sig_namespace : SshSig → str;
  sig_public_key : SshSig → KeyData;
  signature_bytes : SshSig → bytes;
  parse_authorized_keys : str → list (option (list str * PublicKey));
}.

(** What the client signs: the TLS channel binding, then the nonce. *)
Definition channel_bound_message (channel_binding challenge : bytes) : bytes :=
  channel_binding ++ challenge.

Record SecurityKeyAttestation := { user_verified : bool }.
Record VerifiedIdentity := {
  fingerprint : str;
  security_key : option SecurityKeyAttestation;
}.

Section ssh.
Context {K : SshCrypto}.

Record SshVerifier := { authorized : list PublicKey }.

Definition from_keys (keys : list PublicKey) : result SshVerifier SshError :=
  if is_empty keys then Err NoAuthorizedKeys else Ok {| authorized := keys |}.

(** Unreadable lines and entries with options are skipped. *)
Definition plain_keys (entries : list (option (list str * PublicKey))) : list PublicKey :=
  map snd (filter (λ p, is_empty p.1 = true) (omap id entries)).

Definition from_authorized_keys (text : str) : result SshVerifier SshError :=
  from_keys (plain_keys (parse_authorized_keys text)).

(** The fold over the whole set, without an early exit. *)
Definition is_authorized (v : SshVerifier) (offered_openssh : str) : result unit SshError :=
  let? offered := ok_or (from_openssh offered_openssh) MalformedKey in
  if foldl (λ found key, found || bool_decide (key_data key = key_data offered)) false (authorized v)
  then Ok () else Err KeyNotAuthorized.

Definition is_security_key (k : KeyData) : bool :=
  match key_algorithm k with SkEd25519 | SkEcdsaSha2NistP256 => true | OtherAlgorithm => false end.

(** The byte before the four-byte counter at the end of the signature. *)
Definition sk_flags (sig : SshSig) : result Z SshError :=
  let l := signature_bytes sig in
  if len l <? SK_SIGNATURE_TRAILER then Err MalformedSignature
  else ok_or (byte_Z <$> l !! Z.to_nat (len l - SK_SIGNATURE_TRAILER)) MalformedSignature.

(** [iter().find(..)]. *)
Definition find_key (keys : list PublicKey) (k : KeyData) : option PublicKey :=
  snd <$> list_find (λ key, key_data key = k) keys.

Definition verify_response (v : SshVerifier) (channel_binding challenge signature_pem : bytes)
    : result VerifiedIdentity SshError :=
  let? sig := ok_or (sig_from_pem signature_pem) MalformedSignature in
  if negb (bool_decide (sig_namespace sig = SSH_NAMESPACE)) then Err SshBadSignature
  else
    let signer_key := sig_public_key sig in
    let? authorized_match := ok_or (find_key (authorized v) signer_key) KeyNotAuthorized in
    if negb (key_verify authorized_match SSH_NAMESPACE
               (channel_bound_message channel_binding challenge) sig)
    then Err SshBadSignature
    else
      let? attestation :=
        if is_security_key signer_key then
          let? flags := sk_flags sig in
          if Z.land flags FIDO_FLAG_USER_PRESENT =? 0 then Err UserPresenceMissing
          else Ok (Some {| user_verified := negb (Z.land flags FIDO_FLAG_USER_VERIFIED =? 0) |})
        else Ok None in
      Ok {| fingerprint := key_fingerprint authorized_match; security_key := attestation |}.
End ssh.

(** ** Lemmas *)
Lemma split_once_app sep a b : sep ∉ a → split_once sep (a ++ sep :: b) = Some (a, b).
Proof.
  induction a as [|c a IH]; intros Ha; simpl; [by rewrite Z.eqb_refl|].
  rewrite not_elem_of_cons in Ha. destruct Ha as [Hc Ha].
  rewrite (proj2 (Z.eqb_neq c sep)) // IH //.
Qed.

Lemma split_once_Some sep s a b : split_once sep s = Some (a, b) → s = a ++ sep :: b ∧ sep ∉ a.
Proof.
  revert a b. induction s as [|c s IH]; intros a b; simpl; [done|].
  destruct (c =? sep) eqn:E; to_prop.
  - intros [= <- <-]. subst. split; [done|]. apply not_elem_of_nil.
  - destruct (split_once sep s) as [[a' b']|] eqn:Es; [|done]. intros [= <- <-].
    destruct (IH a' b' eq_refl) as [-> Hn]. split; [done|]. rewrite not_elem_of_cons. naive_solver.
Qed.

Lemma claims_permits_spec c op : claims_permits c op = true ↔ ops c = [] ∨ op ∈ ops c.
Proof.
  rewrite /claims_permits orb_true_iff is_empty_true existsb_exists. f_equiv.
  setoid_rewrite bool_decide_eq_true. setoid_rewrite <-list_elem_of_In. naive_solver.
Qed.

Section grant_lemmas.
Context {K : GrantCrypto}.

(** Everything an accepted grant is. *)
Lemma verify_Ok v g audience now c :
  verify v g audience now = Ok c ↔
  ∃ payload_b64 sig_b64 payload sig,
    split_once 0x2E g = Some (payload_b64, sig_b64) ∧
    b64_decode payload_b64 = Some payload ∧ b64_decode sig_b64 = Some (array_bytes sig) ∧
    ed_verify (verifying v) payload sig = true ∧ claims_from_json payload = Some c ∧
    aud c = audience ∧ now < exp_ms c ∧ iat_ms c ≤ sat_i64 (now + CLOCK_SKEW_MS).
Proof.
  rewrite /verify. split.
  - destruct (split_once 0x2E g) as [[pb sb]|] eqn:E1; simpl; [|done].
    destruct (b64_decode pb) as [p|] eqn:E2; simpl; [|done].
    destruct (b64_decode sb) as [s|] eqn:E3; simpl; [|done].
    destruct (array_of 64 s) as [sig|] eqn:E4; simpl; [|done].
    destruct (ed_verify _ _ _) eqn:E5; simpl; [|done].
    destruct (claims_from_json p) as [c'|] eqn:E6; simpl; [|done].
    repeat case_match; try done. intros [= <-]. to_prop. apply array_of_Some in E4. subst s.
    exists pb, sb, p, sig. split_and!; done.
  - intros (pb & sb & p & sig & -> & E2 & E3 & E5 & E6 & E7 & E8 & E9). cbn [ok_or].
    rewrite E2. cbn [ok_or]. rewrite E3. cbn [ok_or]. rewrite array_of_bytes. cbn [ok_or].
    rewrite E5 /= E6 /= bool_decide_eq_true_2 //=.
    by rewrite (proj2 (Z.leb_gt _ _)) // (proj2 (Z.ltb_ge _ _)).
Qed.

Context {L : GrantCryptoLaws K}.

Lemma issue_ascii s c : Forall (λ c, is_ascii c = true) (issue s c).
Proof.
  rewrite /issue !Forall_app. split_and!; try by eapply Forall_impl; [apply b64_alphabet|naive_solver].
  by repeat constructor.
Qed.

(** The wire form of an issued grant reads back. *)
Lemma grant_wire_roundtrip s c : grant_from_wire (grant_as_bytes (issue s c)) = Ok (issue s c).
Proof.
  rewrite /grant_from_wire /grant_as_bytes from_utf8_str_bytes //.
  eapply Forall_impl; [apply issue_ascii|]. intros x. rewrite /is_ascii /is_scalar. lia.
Qed.

Lemma issue_verifies s c audience now :
  aud c = audience → now < exp_ms c → iat_ms c ≤ sat_i64 (now + CLOCK_SKEW_MS) →
  verify (signer_verifier s) (issue s c) audience now = Ok c.
Proof.
  intros. apply verify_Ok.
  exists (b64_encode (claims_to_json c)), (b64_encode (array_bytes (ed_sign (signing s) (claims_to_json c)))).
  exists (claims_to_json c), (ed_sign (signing s) (claims_to_json c)).
  split_and!; try done; [|apply b64_roundtrip|apply b64_roundtrip|apply ed_correct|apply json_roundtrip].
  apply (split_once_app 0x2E). intros Hin.
  by destruct (proj1 (Forall_forall _ _) (b64_alphabet (claims_to_json c)) _ Hin).
Qed.
End grant_lemmas.

Section ssh_lemmas.
Context {K : SshCrypto}.

Lemma foldl_found (P : PublicKey → bool) keys b :
  foldl (λ found key, found || P key) b keys = b || existsb P keys.
Proof.
  revert b. induction keys as [|k keys IH]; intros b; simpl; [by rewrite orb_false_r|].
  by rewrite IH orb_assoc.
Qed.

Lemma find_key_Some keys k key : find_key keys k = Some key → key ∈ keys ∧ key_data key = k.
Proof.
  rewrite /find_key. destruct (list_find _ keys) as [[i key']|] eqn:E; simpl; [|done].
  intros [= <-]. apply list_find_Some in E as (Hl & Hk & _). split; [|done].
  by eapply list_elem_of_lookup_2.
Qed.

Lemma plain_keys_spec entries key : key ∈ plain_keys entries ↔ Some ([], key) ∈ entries.
Proof.
  rewrite /plain_keys list_elem_of_fmap. split.
  - intros ([o k] & -> & Hf). apply list_elem_of_filter in Hf as [Ho Hf]. simpl in *.
    apply is_empty_true in Ho. subst o. apply list_elem_of_omap in Hf as (x & Hx & Hs). by rewrite /id in Hs; subst x.
  - intros Hin. exists ([], key). split; [done|]. apply list_elem_of_filter. split; [done|].
    apply list_elem_of_omap. by exists (Some ([], key)).
Qed.

(** The bindings of one transport have one length, so the message determines
    both parts. *)
Lemma channel_bound_inj cb ch cb' ch' :
  length cb = length cb' → channel_bound_message cb ch = channel_bound_message cb' ch' →
  cb = cb' ∧ ch = ch'.
Proof. intros Hl Hm. by apply app_inj_1 in Hm. Qed.
End ssh_lemmas.
