(* ===== verification/Pam.v ===== *)
(** * The PAM password backend

    [crates/auth/src/pam.rs]: the conversation callback, which allocates its
    answers with the C allocator for PAM to free, and the authentication that
    drives libpam. The C heap is explicit: an allocation may fail, and freeing
    what is not allocated, or reading outside an array, is undefined behaviour
    ([None]). libpam itself is the interface [PamLib]. *)
From S2P Require Import Prelude.

Definition DEFAULT_PAM_SERVICE : str := lit "holdfast-ssh".
Definition MAX_PAM_SERVICE_BYTES : Z := 64.

Inductive PamError := InvalidServiceName.

Definition PAM_SUCCESS : Z := 0.
Definition PAM_BUF_ERR : Z := 5.
Definition PAM_CONV_ERR : Z := 19.
Definition PAM_PROMPT_ECHO_OFF : Z := 1.
Definition PAM_ERROR_MSG : Z := 3.
Definition PAM_TEXT_INFO : Z := 4.
Definition PAM_SILENT : Z := 0x8000.
Definition PAM_DISALLOW_NULL_AUTHTOK : Z := 0x1.
Definition MAX_CONV_MESSAGES : Z := 32.

(** ** The C heap

    A block is an array of responses (each a pointer or null) or a C string.
    [allocs] says which of the next allocations succeed; when it runs out they
    do. *)
Inductive Block := Responses (resp : list (option Z)) | CStr (text : bytes).

Record Heap := { next_ptr : Z; blocks : gmap Z Block; allocs : list bool }.

Definition alloc (h : Heap) (b : Block) : Heap * option Z :=
  match allocs h with
  | false :: r => ({| next_ptr := next_ptr h; blocks := blocks h; allocs := r |}, None)
  | _ => ({| next_ptr := next_ptr h + 1; blocks := <[next_ptr h := b]> (blocks h);
             allocs := tail (allocs h) |}, Some (next_ptr h))
  end.

Definition calloc (h : Heap) (count : nat) : Heap * option Z := alloc h (Responses (replicate count None)).
Definition strdup (h : Heap) (text : bytes) : Heap * option Z := alloc h (CStr text).

Definition free (h : Heap) (p : Z) : option Heap :=
  b ← blocks h !! p;
  Some {| next_ptr := next_ptr h; blocks := delete p (blocks h); allocs := allocs h |}.

(** The [resp] field of [responses.add(index)], read and written. *)
Definition read_resp (h : Heap) (p : Z) (i : nat) : option (option Z) :=
  match blocks h !! p with Some (Responses l) => l !! i | _ => None end.
Definition write_resp (h : Heap) (p : Z) (i : nat) (v : option Z) : option Heap :=
  match blocks h !! p with
  | Some (Responses l) =>
      if decide (i < length l)%nat then
        Some {| next_ptr := next_ptr h; blocks := <[p := Responses (<[i := v]> l)]> (blocks h);
                allocs := allocs h |}
      else None
  | _ => None
  end.

(** The loop over the slots from [i], [n] of them. *)
Fixpoint free_slots (h : Heap) (p : Z) (i n : nat) : option Heap :=
  match n with
  | O => Some h
  | S n =>
      r ← read_resp h p i;
      h ← match r with Some q => free h q | None => Some h end;
      free_slots h p (S i) n
  end.

Definition free_responses (h : Heap) (p : Z) (count : nat) : option Heap :=
  h ← free_slots h p 0 count; free h p.

(** ** The conversation

    [messages] is null or an array of message pointers, each null or pointing
    to a style; the result is the status and what [*out] is set to, if it is. *)
Fixpoint conv_loop (h : Heap) (responses : Z) (count : nat) (messages : list (option Z))
    (password : bytes) (i n : nat) : option (Heap * (Z * option Z)) :=
  match n with
  | O => Some (h, (PAM_SUCCESS, Some responses))
  | S n =>
      message ← messages !! i;
      match message with
      | None => h ← free_responses h responses count; Some (h, (PAM_CONV_ERR, None))
      | Some style =>
          if style =? PAM_PROMPT_ECHO_OFF then
            match strdup h password with
            | (h, None) => h ← free_responses h responses count; Some (h, (PAM_BUF_ERR, None))
            | (h, Some answer) =>
                h ← write_resp h responses i (Some answer);
                conv_loop h responses count messages password (S i) n
            end
          else if (style =? PAM_ERROR_MSG) || (style =? PAM_TEXT_INFO) then
            conv_loop h responses count messages password (S i) n
          else h ← free_responses h responses count; Some (h, (PAM_CONV_ERR, None))
      end
  end.

Definition conversation (h : Heap) (message_count : Z) (messages : option (list (option Z)))
    (out_null : bool) (appdata : option bytes) : option (Heap * (Z * option Z)) :=
  match messages, appdata with
  | Some messages, Some password =>
      if (message_count <=? 0) || (MAX_CONV_MESSAGES <? message_count) || out_null
      then Some (h, (PAM_CONV_ERR, None))
      else
        let count := Z.to_nat message_count in
        match calloc h count with
        | (h, None) => Some (h, (PAM_BUF_ERR, None))
        | (h, Some responses) => conv_loop h responses count messages password 0 count
        end
  | _, _ => Some (h, (PAM_CONV_ERR, None))
  end.

(** ** Authentication *)

(** libpam: starting a transaction with a service, a user and the password
    the conversation will answer with; authenticating; account management.
    The handle may come back null. *)
Class PamLib := {
  Handle : Type;
  pam_start : bytes → bytes → bytes → Z * option Handle;
  pam_authenticate : Handle → Z → Z;
  pam_acct_mgmt : Handle → Z → Z;
}.

Section pam.
Context {L : PamLib}.

(** [CString::new]: no interior NUL. *)
Definition cstring (s : str) : option bytes :=
  if bool_decide (Byte.x00 ∈ str_bytes s) then None else Some (str_bytes s).

(** The answer, and the handles given to [pam_end] with their last status. *)
Definition authenticate (service : bytes) (user password : str) : bool * list (Handle * Z) :=
  match cstring user, cstring password with
  | Some user, Some password =>
      match pam_start service user password with
      | (st, Some handle) =>
          if negb (st =? PAM_SUCCESS) then (false, [])
          else
            let flags := Z.lor PAM_SILENT PAM_DISALLOW_NULL_AUTHTOK in
            let status := pam_authenticate handle flags in
            let status := if status =? PAM_SUCCESS then pam_acct_mgmt handle flags else status in
            (status =? PAM_SUCCESS, [(handle, status)])
      | (_, None) => (false, [])
      end
  | _, _ => (false, [])
  end.

Record PamVerifier := { service : bytes }.

Definition service_byte_ok (b : byte) : bool :=
  is_ascii_alphanumeric (byte_Z b) || bool_decide (byte_Z b ∈ [0x2D; 0x5F; 0x2E]).

(** [None] is the panic of [expect], which does not happen. *)
Definition pam_verifier_new (s : str) : option (result PamVerifier PamError) :=
  if is_empty s || (MAX_PAM_SERVICE_BYTES <? str_len s) || bool_decide (head s = Some 0x2E) ||
     negb (forallb service_byte_ok (str_bytes s))
  then Some (Err InvalidServiceName)
  else service ← cstring s; Some (Ok {| service := service |}).

Definition pam_verify (v : PamVerifier) (user password : str) : bool :=
  fst (authenticate (service v) user password).
End pam.

(** ** The heap while a conversation runs *)

(** The pointers an array of responses holds. *)
Definition pointers (l : list (option Z)) : list Z := omap id l.

(** [owns m0 h r l pw]: beside the blocks [m0], the heap holds the array [l] at
    [r] and one copy of [pw] for each of its pointers, and nothing else. *)
Record owns (m0 : gmap Z Block) (h : Heap) (r : Z) (l : list (option Z)) (pw : bytes) : Prop := {
  ow_array : blocks h !! r = Some (Responses l);
  ow_nodup : NoDup (r :: pointers l);
  ow_copies q : q ∈ pointers l → blocks h !! q = Some (CStr pw);
  ow_fresh q : q ∈ r :: pointers l → m0 !! q = None;
  ow_frame q : q ∉ r :: pointers l → blocks h !! q = m0 !! q;
  ow_next q : is_Some (blocks h !! q) → q < next_ptr h;
}.

Lemma free_slots_ok h r l i n :
  blocks h !! r = Some (Responses l) → (i + n = length l)%nat →
  NoDup (r :: pointers (drop i l)) →
  (∀ q, q ∈ pointers (drop i l) → is_Some (blocks h !! q)) →
  ∃ h', free_slots h r i n = Some h' ∧ allocs h' = allocs h ∧ next_ptr h' = next_ptr h ∧
    ∀ p, blocks h' !! p = if decide (p ∈ pointers (drop i l)) then None else blocks h !! p.
Proof.
  revert h i. induction n as [|n IH]; intros h i Ha Hn Hd Hq; simpl.
  - exists h. rewrite drop_ge; last lia. split_and!; try done.
  - destruct (lookup_lt_is_Some_2 l i) as [x Hx]; first lia.
    rewrite (drop_S _ x) // in Hd Hq |- *. rewrite /read_resp Ha Hx /=.
    destruct x as [q|]; simpl in *.
    + destruct (Hq q ltac:(apply list_elem_of_here)) as [b Hb]. rewrite /free Hb /=.
      inversion Hd as [|? ? Hr Hd']; subst. inversion Hd' as [|? ? Hq' Hd'']; subst.
      apply not_elem_of_cons in Hr as [Hrq Hr].
      destruct (IH {| next_ptr := next_ptr h; blocks := delete q (blocks h); allocs := allocs h |} (S i))
        as (h' & Hrun & Hal & Hnx & Hl); simpl.
      * rewrite lookup_delete_ne //.
      * lia.
      * by constructor.
      * intros p Hp. rewrite lookup_delete_ne; [apply Hq; by apply list_elem_of_further|].
        intros ->. done.
      * exists h'. split_and!; try done. intros p. rewrite Hl. simpl.
        destruct (decide (p = q)) as [->|Hpq].
        -- rewrite lookup_delete_eq (decide_True (P := q ∈ q :: _)); [by case_decide|apply list_elem_of_here].
        -- rewrite lookup_delete_ne //. case_decide as Hp.
           ++ rewrite decide_True //. by apply list_elem_of_further.
           ++ rewrite decide_False //. by rewrite not_elem_of_cons.
    + by apply IH; [|lia|..].
Qed.

(** Releasing the array gives the heap back as it was. *)
Lemma free_responses_ok m0 h r l pw :
  owns m0 h r l pw → ∃ h', free_responses h r (length l) = Some h' ∧ blocks h' = m0.
Proof.
  intros [Ha Hd Hc Hf Hfr Hn]. rewrite /free_responses.
  destruct (free_slots_ok h r l 0 (length l)) as (h1 & -> & _ & _ & Hl); [done|done|done| |].
  { intros q Hq. rewrite Hc //. }
  rewrite drop_0 in Hl. inversion Hd as [|? ? Hr Hd']; subst. cbn [mbind option_bind].
  rewrite /free Hl decide_False // Ha /=. eexists. split; [done|]. simpl.
  apply map_eq => p. destruct (decide (p = r)) as [->|Hp].
  - rewrite lookup_delete_eq Hf //. apply list_elem_of_here.
  - rewrite lookup_delete_ne // Hl. case_decide as Hin.
    + rewrite Hf //. by apply list_elem_of_further.
    + by rewrite Hfr // not_elem_of_cons.
Qed.

Lemma pointers_insert l i q :
  l !! i = Some None → pointers (<[i := Some q]> l) ≡ₚ q :: pointers l.
Proof.
  rewrite /pointers. revert i. induction l as [|x l IH]; intros [|i]; simpl; try done.
  - by intros [= ->].
  - intros Hl. specialize (IH i Hl). destruct x; simpl; [|done].
    etrans; [apply Permutation_skip, IH|apply Permutation_swap].
Qed.

(** One more answer: the copy is allocated and its slot filled. *)
Lemma owns_answer m0 h r l pw i h1 q :
  owns m0 h r l pw → l !! i = Some None → strdup h pw = (h1, Some q) →
  (∀ p, is_Some (m0 !! p) → p < next_ptr h) →
  ∃ h2, write_resp h1 r i (Some q) = Some h2 ∧ owns m0 h2 r (<[i := Some q]> l) pw ∧
    next_ptr h ≤ next_ptr h2.
Proof.
  intros [Ha Hd Hc Hf Hfr Hn] Hi Hs Hm. rewrite /strdup /alloc in Hs.
  assert (h1 = {| next_ptr := next_ptr h + 1; blocks := <[next_ptr h := CStr pw]> (blocks h);
                  allocs := tail (allocs h) |} ∧ q = next_ptr h) as [-> ->].
  { destruct (allocs h) as [|[] ?]; by simplify_eq. }
  clear Hs. set (q := next_ptr h) in *.
  have Hfresh p : is_Some (blocks h !! p) → p ≠ q by intros HS; apply Hn in HS; rewrite /q; lia.
  have Hrq : r ≠ q by apply Hfresh; rewrite Ha.
  have Hlen : (i < length l)%nat by apply lookup_lt_is_Some_1; rewrite Hi.
  rewrite /write_resp. cbn [blocks next_ptr allocs]. rewrite lookup_insert_ne // Ha decide_True //.
  eexists. split; [done|]. split; [|simpl; lia].
  pose proof (pointers_insert l i q Hi) as Hp.
  have Hin p : p ∈ pointers (<[i := Some q]> l) ↔ p = q ∨ p ∈ pointers l.
  { rewrite Hp elem_of_cons. done. }
  have Hnq : q ∉ r :: pointers l.
  { rewrite elem_of_cons. intros [|Hq]; [done|]. by apply (Hfresh q); [rewrite Hc|]. }
  split; simpl.
  - by rewrite lookup_insert_eq.
  - rewrite Hp. inversion Hd as [|? ? Hr Hd']; subst. rewrite not_elem_of_cons in Hnq.
    constructor; [rewrite not_elem_of_cons; naive_solver|constructor; naive_solver].
  - intros p [->|Hpl]%Hin; [rewrite lookup_insert_ne // lookup_insert_eq //|].
    have Hpr : p ≠ r by intros ->; inversion Hd.
    rewrite lookup_insert_ne // lookup_insert_ne; [by apply Hc|]. intros <-. by apply Hnq, list_elem_of_further.
  - intros p. rewrite elem_of_cons Hin. intros [->|[->|Hpl]].
    + apply Hf, list_elem_of_here.
    + destruct (m0 !! q) eqn:E; [|done]. pose proof (Hm q ltac:(by rewrite E)). rewrite /q in H. lia.
    + by apply Hf, list_elem_of_further.
  - intros p. rewrite elem_of_cons Hin => Hnp.
    rewrite lookup_insert_ne; [|naive_solver]. rewrite lookup_insert_ne; [|naive_solver].
    apply Hfr. rewrite elem_of_cons. naive_solver.
  - intros p HS. destruct (decide (p = q)) as [->|Hpq]; [rewrite /q; lia|].
    assert (is_Some (blocks h !! p)) as HS'; [|apply Hn in HS'; lia].
    destruct (decide (p = r)) as [->|Hpr]; [by rewrite Ha|].
    by rewrite lookup_insert_ne // lookup_insert_ne in HS.
Qed.

(** The styles a conversation answers, and how. *)
Definition answered (style : option Z) (slot : option Z) : Prop :=
  (style = Some PAM_PROMPT_ECHO_OFF ∧ is_Some slot) ∨
  ((style = Some PAM_ERROR_MSG ∨ style = Some PAM_TEXT_INFO) ∧ slot = None).

Lemma Forall2_answered_snoc i (ms l : list (option Z)) m s :
  ms !! i = Some m → l !! i = Some s → Forall2 answered (take i ms) (take i l) →
  answered m s → Forall2 answered (take (S i) ms) (take (S i) l).
Proof.
  intros Hm Hl Hf Ha. rewrite (take_S_r _ _ m) // (take_S_r _ _ s) //.
  apply Forall2_app; [done|]. by constructor.
Qed.

Lemma conv_loop_ok m0 h r l pw ms i n :
  owns m0 h r l pw → (length l ≤ length ms)%nat → (i + n = length l)%nat →
  (∀ p, is_Some (m0 !! p) → p < next_ptr h) →
  (∀ j, (i ≤ j < length l)%nat → l !! j = Some None) →
  Forall2 answered (take i ms) (take i l) →
  ∃ h' st out, conv_loop h r (length l) ms pw i n = Some (h', (st, out)) ∧
    match out with
    | Some r' => st = PAM_SUCCESS ∧ r' = r ∧
        ∃ l', owns m0 h' r l' pw ∧ Forall2 answered (take (length l) ms) l'
    | None => st ≠ PAM_SUCCESS ∧ blocks h' = m0
    end.
Proof.
  revert h l i. induction n as [|n IH]; intros h l i Ho Hms Hn Hm Hj Hf; cbn [conv_loop].
  { eexists _, _, _. split; [done|]. split_and!; [done|done|]. exists l. split; [done|].
    replace i with (length l) in Hf by lia. by rewrite firstn_all in Hf. }
  destruct (free_responses_ok _ _ _ _ _ Ho) as (hf & Hfree & Hb).
  destruct (lookup_lt_is_Some_2 ms i) as [m Hmi]; first lia. rewrite Hmi. cbn [mbind option_bind].
  have Hli : l !! i = Some None by apply Hj; lia.
  destruct m as [style|]; [|rewrite Hfree /=; by eexists _, _, None].
  destruct (style =? PAM_PROMPT_ECHO_OFF) eqn:E1; to_prop.
  - destruct (strdup h pw) as [h1 [q|]] eqn:Es.
    + destruct (owns_answer _ _ _ _ _ _ _ _ Ho Hli Es Hm) as (h2 & -> & Ho2 & Hnx).
      cbn [mbind option_bind]. have Hlen : length (<[i := Some q]> l) = length l by apply length_insert.
      rewrite -Hlen. apply IH; rewrite ?Hlen; [done|done|lia| | |].
      * intros p Hp. specialize (Hm p Hp). lia.
      * intros j Hj'. rewrite list_lookup_insert_ne; [|lia]. apply Hj. lia.
      * apply (Forall2_answered_snoc _ _ _ (Some style) (Some q)); [done| | |].
        -- rewrite list_lookup_insert_eq //. lia.
        -- rewrite take_insert_ge //.
        -- left. subst style. by split.
    + have -> : free_responses h1 r (length l) = free_responses {| next_ptr := next_ptr h;
          blocks := blocks h; allocs := allocs h1 |} r (length l).
      { rewrite /strdup /alloc in Es. destruct (allocs h) as [|[] ?]; by simplify_eq. }
      have Ho' : owns m0 {| next_ptr := next_ptr h; blocks := blocks h; allocs := allocs h1 |} r l pw
        by destruct Ho; split.
      destruct (free_responses_ok _ _ _ _ _ Ho') as (hf' & -> & Hb'). by eexists _, _, None.
  - destruct ((style =? PAM_ERROR_MSG) || (style =? PAM_TEXT_INFO)) eqn:E2.
    + apply IH; [done|done|lia|done|intros; apply Hj; lia|].
      apply (Forall2_answered_snoc _ _ _ (Some style) None); try done. right.
      apply orb_true_iff in E2 as [E2|E2]; to_prop; subst; auto.
    + rewrite Hfree. by eexists _, _, None.
Qed.

(** ** Properties *)

(** C30: the PAM conversation never reads or frees what it may not, whatever
    allocation fails and whatever prompts arrive. It succeeds only when every
    prompt is an echo-off request or a message to display; PAM then owns an
    array with a fresh copy of the password exactly in the echo-off slots.
    Otherwise it reports an error and every block it allocated is freed. *)
Theorem conversation_correct h count messages out_null appdata :
  (∀ p, is_Some (blocks h !! p) → p < next_ptr h) →
  (∀ ms, messages = Some ms → count ≤ len ms) →
  ∃ h' st out, conversation h count messages out_null appdata = Some (h', (st, out)) ∧
    match out with
    | Some r => st = PAM_SUCCESS ∧ ∃ ms pw l, messages = Some ms ∧ appdata = Some pw ∧
        0 < count ≤ MAX_CONV_MESSAGES ∧
        owns (blocks h) h' r l pw ∧ Forall2 answered (take (Z.to_nat count) ms) l
    | None => st ≠ PAM_SUCCESS ∧ blocks h' = blocks h
    end.
Proof.
  intros Hn Hms. rewrite /conversation.
  destruct messages as [ms|]; [|by eexists _, _, None]. specialize (Hms ms eq_refl).
  destruct appdata as [pw|]; [|by eexists _, _, None].
  destruct ((count <=? 0) || (MAX_CONV_MESSAGES <? count) || out_null) eqn:E;
    [by eexists _, _, None|]. to_prop.
  destruct (calloc h (Z.to_nat count)) as [h1 [r|]] eqn:Ec; last first.
  { eexists _, _, None. split; [done|]. rewrite /calloc /alloc in Ec.
    destruct (allocs h) as [|[] ?]; by simplify_eq. }
  rewrite /calloc /alloc in Ec.
  assert (r = next_ptr h ∧ next_ptr h1 = next_ptr h + 1 ∧
          blocks h1 = <[r := Responses (replicate (Z.to_nat count) None)]> (blocks h)) as (-> & Hnx & Hb).
  { destruct (allocs h) as [|[] ?]; by simplify_eq. }
  set (l := replicate (Z.to_nat count) None) in *.
  have Hl : length l = Z.to_nat count by apply length_replicate.
  have Hpt : pointers l = [] by (rewrite /pointers /l; clear; induction (Z.to_nat count)).
  have Hfr : blocks h !! next_ptr h = None.
  { destruct (blocks h !! next_ptr h) eqn:E'; [|done]. pose proof (Hn (next_ptr h) ltac:(by rewrite E')). lia. }
  destruct (conv_loop_ok (blocks h) h1 (next_ptr h) l pw ms 0 (Z.to_nat count))
    as (h' & st & out & Hrun & Hout).
  - split; rewrite ?Hpt ?Hb.
    + apply lookup_insert_eq.
    + constructor; [apply not_elem_of_nil|constructor].
    + by intros q ?%elem_of_nil.
    + by intros q ->%list_elem_of_singleton.
    + intros q Hq. rewrite lookup_insert_ne //. intros <-. by apply Hq, list_elem_of_here.
    + intros q. rewrite Hnx. intros [->|[_ HS]]%lookup_insert_is_Some; [lia|].
      specialize (Hn q HS). lia.
  - rewrite Hl. rewrite /len in Hms. lia.
  - lia.
  - intros p HS. specialize (Hn p HS). lia.
  - intros j Hj. apply lookup_replicate_2. lia.
  - done.
  - rewrite Hl in Hrun Hout. exists h', st, out. split; [done|].
    destruct out as [r'|]; [|done]. destruct Hout as (Hst & -> & l' & Ho & Hf).
    split; [done|]. exists ms, pw, l'. split_and!; try done.
Qed.

(** Three prompts, the third unknown: the two blocks allocated are freed. *)
Lemma conversation_correct_witness :
  let h := {| next_ptr := 5; blocks := {[ 1 := CStr [] ]}; allocs := [] |} in
  let ms := Some [Some PAM_PROMPT_ECHO_OFF; Some PAM_TEXT_INFO; Some 7] in
  ∃ h', conversation h 3 ms false (Some [Byte.x70]) = Some (h', (PAM_CONV_ERR, None)) ∧
        blocks h' = {[ 1 := CStr [] ]} ∧ next_ptr h' = 7.
Proof.
  intros h ms. destruct (conversation_correct h 3 ms false (Some [Byte.x70])) as (h' & st & out & Hr & Ho).
  - intros p Hp. apply elem_of_dom in Hp. rewrite dom_singleton in Hp.
    apply elem_of_singleton in Hp. subst p. simpl. lia.
  - intros l [= <-]. reflexivity.
  - assert (conversation h 3 ms false (Some [Byte.x70]) =
            Some ({| next_ptr := 7; blocks := {[ 1 := CStr [] ]}; allocs := [] |}, (PAM_CONV_ERR, None))) as E
      by (vm_compute; reflexivity).
    rewrite E in Hr. injection Hr as <- <- <-. destruct Ho as [_ Hb]. eauto.
Defined.

Section pam_props.
Context {L : PamLib}.

Lemma cstring_Some s b : cstring s = Some b ↔ b = str_bytes s ∧ Byte.x00 ∉ str_bytes s.
Proof. rewrite /cstring. case_bool_decide; naive_solver. Qed.

(** The PAM check denies unless neither text has a NUL, the transaction
    starts, and both authentication and account management report success with
    the two flags; every transaction that started is ended exactly once. *)
Theorem authenticate_fail_closed svc user password :
  let '(ok, ended) := authenticate svc user password in
  (ok = true ↔ Byte.x00 ∉ str_bytes user ∧ Byte.x00 ∉ str_bytes password ∧
     ∃ hd, pam_start svc (str_bytes user) (str_bytes password) = (PAM_SUCCESS, Some hd) ∧
       pam_authenticate hd 0x8001 = PAM_SUCCESS ∧ pam_acct_mgmt hd 0x8001 = PAM_SUCCESS) ∧
  (∀ hd, Byte.x00 ∉ str_bytes user → Byte.x00 ∉ str_bytes password →
     pam_start svc (str_bytes user) (str_bytes password) = (PAM_SUCCESS, Some hd) →
     ∃ st, ended = [(hd, st)]).
Proof.
  rewrite /authenticate. destruct (cstring user) as [u|] eqn:Eu.
  2: { split; [split; [done|]|]; intros; rewrite /cstring in Eu; case_bool_decide; naive_solver. }
  apply cstring_Some in Eu as [-> Hu].
  destruct (cstring password) as [p|] eqn:Ep.
  2: { split; [split; [done|]|]; intros; rewrite /cstring in Ep; case_bool_decide; naive_solver. }
  apply cstring_Some in Ep as [-> Hp].
  destruct (pam_start _ _ _) as [st [hd|]]; [|naive_solver].
  change (Z.lor PAM_SILENT PAM_DISALLOW_NULL_AUTHTOK) with 0x8001.
  destruct (st =? PAM_SUCCESS) eqn:Es; to_prop; simpl; [subst st|naive_solver].
  destruct (pam_authenticate hd 0x8001 =? PAM_SUCCESS) eqn:Ea; to_prop; rewrite Z.eqb_eq; naive_solver.
Qed.

(** The service name reaches libpam as a file name of [/etc/pam.d]: it cannot
    leave the directory, and constructing the verifier does not panic. *)
Lemma pam_verifier_new_safe s :
  ∃ r, pam_verifier_new s = Some r ∧
    ∀ v, r = Ok v → service v = str_bytes s ∧ Byte.x2f ∉ service v ∧ Byte.x00 ∉ service v ∧
      s ≠ [] ∧ len (service v) ≤ 64 ∧ head s ≠ Some 0x2E.
Proof.
  rewrite /pam_verifier_new. case_match eqn:E; [by eexists|]. to_prop.
  have Hb b : b ∈ str_bytes s → service_byte_ok b = true.
  { intros Hin. rewrite forallb_forall in H0. by apply H0, list_elem_of_In. }
  rewrite /cstring bool_decide_eq_false_2; [|by intros ?%Hb]. simpl. eexists. split; [done|].
  intros v [= <-]. simpl. split_and!; try done; try by intros ?%Hb. by destruct s.
Qed.
End pam_props.
