(* ===== verification/History.v ===== *)
(** * The scrollback ring

    [crates/terminal-model/src/history.rs]: a bounded ring of scrolled-off
    lines with 64-bit line ids that start at 1 and are never reused. The
    abstract state is the whole log of lines ever committed; the ring refines
    it by keeping a suffix, line [id] of the ring being entry [id - 1] of the
    log. *)
From S2P Require Import Prelude.

Record HistoryRing := {
  lines : list str;
  first_id : Z;
  next_id : Z;
  ring_bytes : Z;
  max_lines : Z;
  max_bytes : Z;
}.

Record HistoryRange := {
  first_line_id : Z;
  range_lines : list str;
  truncated_by_eviction : bool;
}.

Definition ring_new (max_lines max_bytes : Z) : HistoryRing := {|
  lines := []; first_id := 1; next_id := 1; ring_bytes := 0;
  max_lines := Z.max max_lines 1; max_bytes := Z.max max_bytes 1 |}.

(** The [while] of [push]; [None] is the panic of [expect]. *)
Fixpoint evict_loop (ml mb : Z) (ls : list str) (first bytes : Z)
    : option (list str * Z * Z) :=
  if (ml <? len ls) || (mb <? bytes) then
    if len ls =? 1 then Some (ls, first, bytes)
    else match ls with
         | [] => None
         | evicted :: ls' => evict_loop ml mb ls' (wrap64 (first + 1)) (bytes - str_len evicted)
         end
  else Some (ls, first, bytes).

Definition ring_push (h : HistoryRing) (line : str) : option HistoryRing :=
  let bytes := ring_bytes h + str_len line in
  let ls := lines h ++ [line] in
  '(ls, first, bytes) ← evict_loop (max_lines h) (max_bytes h) ls (first_id h) bytes;
  Some {| lines := ls; first_id := first; next_id := wrap64 (next_id h + 1);
          ring_bytes := bytes; max_lines := max_lines h; max_bytes := max_bytes h |}.

Definition oldest_id (h : HistoryRing) : Z := if is_empty (lines h) then 0 else first_id h.
Definition newest_id (h : HistoryRing) : Z := wrap64 (next_id h - 1).

(** The [loop] of [range]; [None] is an index out of range (a panic) or
    exhausted fuel. [collected] is newest first. *)
Fixpoint range_loop (fuel : nat) (h : HistoryRing) (maximum_lines maximum_bytes : Z)
    (collected : list str) (bytes id : Z) : option (list str) :=
  match fuel with
  | O => None
  | S fuel =>
      if id <? first_id h then None else
      line ← lines h !! Z.to_nat (id - first_id h);
      if negb (is_empty collected) &&
         ((maximum_lines <=? wrap32 (len collected)) || (maximum_bytes <? bytes + str_len line))
      then Some collected
      else
        let bytes := bytes + str_len line in
        let collected := collected ++ [line] in
        if (id =? first_id h) || (maximum_lines <=? wrap32 (len collected)) then Some collected
        else range_loop fuel h maximum_lines maximum_bytes collected bytes (id - 1)
  end.

(** The newest id a request may return. *)
Definition range_upper (h : HistoryRing) (before_line_id : Z) : Z :=
  if before_line_id =? 0 then newest_id h else Z.min (before_line_id - 1) (newest_id h).

Definition range (h : HistoryRing) (before_line_id maximum_lines maximum_bytes : Z)
    : option HistoryRange :=
  let upper := range_upper h before_line_id in
  if is_empty (lines h) || (upper =? 0) || (upper <? first_id h) then
    Some {| first_line_id := 0; range_lines := [];
            truncated_by_eviction :=
              negb (upper =? 0) && negb (newest_id h =? 0) && (upper <? first_id h) |}
  else
    collected ← range_loop (S (length (lines h))) h maximum_lines maximum_bytes [] 0 upper;
    let first := upper + 1 - len collected in
    Some {| first_line_id := first; range_lines := reverse collected;
            truncated_by_eviction := (first =? first_id h) && (1 <? first_id h) |}.

(** ** Invariant and abstract log *)
Definition total (l : list str) : Z := foldr (λ s a, str_len s + a) 0 l.

(** Within both bounds, or a single line that alone is over them. *)
Definition fits (ml mb : Z) (l : list str) : Prop :=
  (len l ≤ ml ∧ total l ≤ mb) ∨ len l = 1.

Record ring_wf (h : HistoryRing) : Prop := {
  wf_first : 1 ≤ first_id h;
  wf_next : next_id h = first_id h + len (lines h);
  wf_u64 : next_id h ≤ u64_max;
  wf_bytes : ring_bytes h = total (lines h);
  wf_max_lines : 1 ≤ max_lines h;
  wf_max_bytes : 1 ≤ max_bytes h;
  wf_fits : fits (max_lines h) (max_bytes h) (lines h);
}.

(** The ring holds the suffix of the log that starts at [first_id]. *)
Record ring_refines (h : HistoryRing) (log : list str) : Prop := {
  rr_wf : ring_wf h;
  rr_next : next_id h = len log + 1;
  rr_lines : lines h = drop (Z.to_nat (first_id h - 1)) log;
}.

Lemma total_app l k : total (l ++ k) = total l + total k.
Proof. induction l as [|s l IH]; simpl; [done|]. rewrite IH. lia. Qed.

Lemma total_nonneg l : 0 ≤ total l.
Proof. induction l as [|s l IH]; simpl; [done|]. pose proof (str_len_nonneg s). lia. Qed.

#[local] Hint Rewrite @len_app @len_cons @len_nil total_app : ring.
#[local] Hint Rewrite @len_drop @len_take : ring.

Lemma len_reverse {A} (l : list A) : len (reverse l) = len l.
Proof. by rewrite /len length_reverse. Qed.

Lemma ring_new_wf ml mb : ring_wf (ring_new ml mb).
Proof. split; simpl; rewrite ?len_nil /u64_max; try lia. left. rewrite len_nil /=. lia. Qed.

Lemma ring_new_refines ml mb : ring_refines (ring_new ml mb) [].
Proof. split; [apply ring_new_wf|done|done]. Qed.

(** ** Eviction *)

(** The loop stops at the longest suffix that fits. *)
Lemma evict_loop_spec ml mb ls first :
  1 ≤ ml → 1 ≤ mb → ls ≠ [] → 0 ≤ first → first + len ls ≤ u64_max →
  ∃ k, (k < length ls)%nat ∧
    evict_loop ml mb ls first (total ls)
    = Some (drop k ls, first + Z.of_nat k, total (drop k ls)) ∧
    fits ml mb (drop k ls) ∧ ∀ j, (j < k)%nat → ¬ fits ml mb (drop j ls).
Proof.
  intros Hml Hmb. revert first. induction ls as [|x ls IH]; intros first Hne Hf Hu; [done|].
  cbn [evict_loop]. destruct ((ml <? _) || _) eqn:Ecnd.
  - destruct (len (x :: ls) =? 1) eqn:E1.
    + exists 0%nat. rewrite Z.add_0_r. cbn [drop length]. split_and!; [lia|done| |lia].
      right. lia.
    + have Hx : len (x :: ls) = 1 + len ls by apply len_cons.
      have Ht : total (x :: ls) = str_len x + total ls by done.
      have Hls : ls ≠ [] by (intros ->; rewrite len_nil in Hx; lia).
      pose proof (len_nonneg ls). rewrite wrap64_small; last lia.
      destruct (IH (first + 1)) as (k & Hk & Hl & Hfit & Hmax); [done|lia|lia|].
      exists (S k). cbn [drop length]. split_and!; [lia| |done|].
      * replace (total (x :: ls) - str_len x) with (total ls) by lia.
        rewrite Hl. do 3 f_equal. lia.
      * intros [|j] Hj; [|apply Hmax; lia]. cbn [drop]. rewrite /fits. lia.
  - exists 0%nat. rewrite Z.add_0_r. cbn [drop length]. split_and!; [lia|done| |lia].
    left. lia.
Qed.

(** ** [push] refines appending to the log *)
Lemma ring_push_spec h log line :
  ring_refines h log → next_id h < u64_max →
  ∃ h' k, ring_push h line = Some h' ∧ ring_refines h' (log ++ [line]) ∧
    max_lines h' = max_lines h ∧ max_bytes h' = max_bytes h ∧
    lines h' = drop k (lines h ++ [line]) ∧ first_id h' = first_id h + Z.of_nat k ∧
    ∀ j, (j < k)%nat → ¬ fits (max_lines h) (max_bytes h) (drop j (lines h ++ [line])).
Proof.
  intros [[Hf Hn Hu Hb Hml Hmb Hfit] Hlog Hls] Hlt.
  destruct (evict_loop_spec (max_lines h) (max_bytes h) (lines h ++ [line]) (first_id h))
    as (k & Hk & He & Hfit' & Hmax); try done; try lia.
  { by destruct (lines h). }
  { autorewrite with ring. lia. }
  rewrite length_app /= in Hk.
  exists {| lines := drop k (lines h ++ [line]); first_id := first_id h + Z.of_nat k;
            next_id := next_id h + 1; ring_bytes := total (drop k (lines h ++ [line]));
            max_lines := max_lines h; max_bytes := max_bytes h |}, k.
  rewrite /ring_push. rewrite -(_ : total (lines h ++ [line]) = ring_bytes h + str_len line);
    last (rewrite total_app Hb /=; lia).
  rewrite He /= wrap64_small; last (pose proof (len_nonneg (lines h)); lia).
  split_and!; try done. split; [split|..]; simpl; try done; try lia.
  - autorewrite with ring. rewrite /sat_sub /len in Hn |- *. lia.
  - autorewrite with ring. lia.
  - have Hlen : (Z.to_nat (first_id h - 1) ≤ length log)%nat by rewrite /len in Hlog Hn; lia.
    rewrite Hls -drop_app_le // drop_drop. f_equal. lia.
Qed.

(** ** Reading a range *)

(** The log entries with ids [lo..hi]. *)
Definition slice (h : HistoryRing) (lo hi : Z) : list str :=
  take (Z.to_nat (hi + 1 - lo)) (drop (Z.to_nat (lo - first_id h)) (lines h)).

Lemma slice_length h lo hi :
  ring_wf h → first_id h ≤ lo → lo ≤ hi + 1 → hi < next_id h → len (slice h lo hi) = hi + 1 - lo.
Proof. intros W ???. pose proof (wf_next _ W). rewrite /slice len_take len_drop /sat_sub. lia. Qed.

Lemma slice_snoc h lo hi line :
  first_id h ≤ lo → lo ≤ hi → lines h !! Z.to_nat (lo - first_id h) = Some line →
  slice h lo hi = line :: slice h (lo + 1) hi.
Proof.
  intros ?? Hl. rewrite /slice (drop_S _ line _ Hl).
  replace (Z.to_nat (hi + 1 - lo)) with (S (Z.to_nat (hi + 1 - (lo + 1)))) by lia.
  replace (Z.to_nat (lo + 1 - first_id h)) with (S (Z.to_nat (lo - first_id h))) by lia.
  done.
Qed.

(** Why the loop stopped: the oldest line, the line limit, or the byte limit. *)
Definition range_stop (h : HistoryRing) (ml mb lo hi : Z) : Prop :=
  lo = first_id h ∨ Z.max 1 ml ≤ hi + 1 - lo ∨
  ∃ line, lines h !! Z.to_nat (lo - 1 - first_id h) = Some line ∧
    mb < str_len line + total (slice h lo hi).

Lemma range_loop_spec fuel h ml mb hi id :
  ring_wf h → 0 ≤ ml ≤ u32_max → first_id h ≤ id ≤ hi → hi < next_id h →
  id - first_id h < Z.of_nat fuel →
  (id = hi ∨ (hi - id < ml ∧ (total (slice h (id + 1) hi) ≤ mb ∨ id + 1 = hi))) →
  ∃ lo, range_loop fuel h ml mb (reverse (slice h (id + 1) hi)) (total (slice h (id + 1) hi)) id
        = Some (reverse (slice h lo hi)) ∧
    first_id h ≤ lo ≤ hi ∧ hi + 1 - lo ≤ Z.max 1 ml ∧
    (total (slice h lo hi) ≤ mb ∨ lo = hi) ∧ range_stop h ml mb lo hi.
Proof.
  intros W Hml. revert id. induction fuel as [|fuel IH]; intros id Hid Hhi Hfuel Hcol; first lia.
  pose proof (wf_next _ W) as Hn. cbn [range_loop].
  rewrite (proj2 (Z.ltb_ge id (first_id h))); last lia.
  destruct (lookup_lt_is_Some_2 (lines h) (Z.to_nat (id - first_id h))) as [line Hl].
  { rewrite /len in Hn. lia. }
  rewrite Hl. cbn [mbind option_bind].
  have Hlen : len (slice h (id + 1) hi) = hi - id by rewrite slice_length //; lia.
  have Hsl : slice h id hi = line :: slice h (id + 1) hi by apply slice_snoc; try done; lia.
  have Hlen' : len (slice h id hi) = hi - id + 1 by rewrite slice_length //; lia.
  have Hemp : is_empty (reverse (slice h (id + 1) hi)) = (id =? hi).
  { destruct (slice h (id + 1) hi) as [|x l]; [rewrite len_nil in Hlen; rewrite reverse_nil /=; lia|].
    rewrite reverse_cons len_cons in Hlen |- *. pose proof (len_nonneg l).
    destruct (reverse l ++ [x]) eqn:E; [by destruct (reverse l)|simpl; lia]. }
  rewrite -reverse_cons -Hsl Hemp !len_reverse Hlen Hlen'.
  have Htot : total (slice h (id + 1) hi) + str_len line = total (slice h id hi)
    by rewrite Hsl /=; lia.
  rewrite Htot !wrap32_small; [|rewrite /u32_max in Hml |- *; lia..].
  destruct (negb _ && _) eqn:E1.
  { exists (id + 1). split_and!; try done; try lia. right; right.
    exists line. replace (id + 1 - 1) with id by lia. split; [done|lia]. }
  destruct ((id =? _) || _) eqn:E2.
  { exists id. split_and!; try done; try lia. rewrite /range_stop. lia. }
  destruct (IH (id - 1)) as (lo & Hr & Hlo); try lia.
  { right. replace (id - 1 + 1) with id by lia. lia. }
  replace (id - 1 + 1) with id in Hr by lia. by exists lo.
Qed.

(** [range] on every branch, in terms of the retained lines. *)
Lemma range_spec h before ml mb :
  ring_wf h → 0 ≤ before ≤ u64_max → 0 ≤ ml ≤ u32_max →
  range_upper h before = (if before =? 0 then next_id h - 1
                          else Z.min (before - 1) (next_id h - 1)) ∧
  let upper := range_upper h before in
  if upper <? first_id h
  then range h before ml mb = Some {| first_line_id := 0; range_lines := [];
                                      truncated_by_eviction := 0 <? upper |}
  else ∃ lo,
    range h before ml mb = Some {| first_line_id := lo; range_lines := slice h lo upper;
      truncated_by_eviction := (lo =? first_id h) && (1 <? first_id h) |} ∧
    first_id h ≤ lo ≤ upper ∧ upper + 1 - lo ≤ Z.max 1 ml ∧
    (total (slice h lo upper) ≤ mb ∨ lo = upper) ∧ range_stop h ml mb lo upper.
Proof.
  intros W Hb Hml. pose proof (wf_first _ W) as Hf. pose proof (wf_next _ W) as Hn.
  pose proof (wf_u64 _ W) as Hu. pose proof (len_nonneg (lines h)) as Hl0.
  have Hnew : newest_id h = next_id h - 1 by rewrite /newest_id wrap64_small; lia.
  have Hup : range_upper h before = (if before =? 0 then next_id h - 1
                                     else Z.min (before - 1) (next_id h - 1))
    by rewrite /range_upper Hnew.
  split; [done|]. cbv zeta. rewrite /range Hnew.
  set (upper := range_upper h before) in *.
  have Hub : 0 ≤ upper ≤ next_id h - 1 by rewrite Hup; destruct (before =? 0) eqn:?; lia.
  have Hcond : is_empty (lines h) || (upper =? 0) || (upper <? first_id h) = (upper <? first_id h).
  { destruct (lines h) as [|x l]; simpl; [rewrite len_nil in Hn|]; lia. }
  cbv zeta. rewrite Hcond. destruct (upper <? first_id h) eqn:E.
  { do 2 f_equal. lia. }
  have Hnil : slice h (upper + 1) upper = [].
  { apply len_0_nil. rewrite slice_length //; lia. }
  destruct (range_loop_spec (S (length (lines h))) h ml mb upper upper) as (lo & Hr & H);
    try done; try lia.
  { rewrite /len in Hn. lia. }
  rewrite Hnil reverse_nil /= in Hr. exists lo.
  rewrite /= Hr /= len_reverse slice_length //; [|lia..]. rewrite reverse_involutive.
  replace (upper + 1 - (upper + 1 - lo)) with lo by lia. done.
Qed.

(** ** Paging back through the scrollback

    How a client reads it: ask from the newest line, then before the first
    line of the page received, until a page is empty. *)
Fixpoint page_back (fuel : nat) (h : HistoryRing) (before ml mb : Z) : option (list str) :=
  match fuel with
  | O => None
  | S fuel =>
      r ← range h before ml mb;
      if is_empty (range_lines r) then Some []
      else older ← page_back fuel h (first_line_id r) ml mb; Some (older ++ range_lines r)
  end.

Lemma slice_split h lo mid hi :
  first_id h ≤ lo → lo ≤ mid → mid ≤ hi + 1 →
  slice h lo (mid - 1) ++ slice h mid hi = slice h lo hi.
Proof.
  intros ???. rewrite /slice.
  set (l := drop (Z.to_nat (lo - first_id h)) (lines h)).
  replace (drop (Z.to_nat (mid - first_id h)) (lines h)) with (drop (Z.to_nat (mid - lo)) l);
    last (rewrite /l drop_drop; f_equal; lia).
  rewrite -{3}(take_drop (Z.to_nat (mid - lo)) l) take_app.
  rewrite take_take length_take. f_equal; [f_equal; lia|].
  destruct (decide (Z.to_nat (mid - lo) ≤ length l)%nat); [f_equal; lia|].
  rewrite drop_ge ?take_nil //; lia.
Qed.

Lemma page_back_spec fuel h before ml mb :
  ring_wf h → 0 ≤ ml ≤ u32_max → first_id h ≤ before ≤ next_id h →
  before - first_id h < Z.of_nat fuel →
  page_back fuel h before ml mb = Some (slice h (first_id h) (before - 1)).
Proof.
  intros W Hml. revert before. induction fuel as [|fuel IH]; intros before Hb Hfuel; first lia.
  pose proof (wf_first _ W). pose proof (wf_u64 _ W).
  destruct (range_spec h before ml mb W) as [Hup Hr]; [lia..|]. cbv zeta in Hr.
  have Eu : range_upper h before = before - 1.
  { rewrite Hup. destruct (before =? 0) eqn:?; lia. }
  rewrite Eu in Hr. cbn [page_back]. destruct (before - 1 <? first_id h) eqn:E.
  - rewrite Hr /=. f_equal. symmetry. apply len_0_nil. rewrite slice_length //; lia.
  - destruct Hr as (lo & -> & Hlo & _). cbn [mbind option_bind range_lines first_line_id].
    have Hlen : len (slice h lo (before - 1)) = before - lo by rewrite slice_length //; lia.
    destruct (slice h lo (before - 1)) as [|x l] eqn:Es; [rewrite len_nil in Hlen; lia|].
    cbn [is_empty]. rewrite IH; [|lia..]. rewrite /= -Es slice_split //; lia.
Qed.

(** Committing a sequence of lines. *)
Fixpoint push_lines (h : HistoryRing) (ls : list str) : option HistoryRing :=
  match ls with
  | [] => Some h
  | l :: ls => h' ← ring_push h l; push_lines h' ls
  end.

Lemma push_lines_refines h log ls :
  ring_refines h log → next_id h + len ls ≤ u64_max →
  ∃ h', push_lines h ls = Some h' ∧ ring_refines h' (log ++ ls) ∧
    max_lines h' = max_lines h ∧ max_bytes h' = max_bytes h.
Proof.
  revert h log. induction ls as [|l ls IH]; intros h log R Hu; simpl.
  { exists h. by rewrite app_nil_r. }
  rewrite len_cons in Hu. pose proof (len_nonneg ls).
  destruct (ring_push_spec h log l R) as (h1 & k & -> & R1 & E1 & E2 & _); [lia|].
  simpl. rewrite cons_middle app_assoc -E1 -E2. apply IH; [done|].
  pose proof (rr_next _ _ R) as N0. pose proof (rr_next _ _ R1) as N1.
  rewrite len_app len_cons len_nil in N1. lia.
Qed.

(** The part of the log with ids [lo..hi]. *)
Definition log_slice (log : list str) (lo hi : Z) : list str :=
  take (Z.to_nat (hi + 1 - lo)) (drop (Z.to_nat (lo - 1)) log).

Lemma slice_log h log lo hi :
  ring_refines h log → first_id h ≤ lo → slice h lo hi = log_slice log lo hi.
Proof.
  intros [W _ Hl] Hlo. pose proof (wf_first _ W).
  rewrite /slice /log_slice Hl drop_drop. do 2 f_equal. lia.
Qed.

(** ** Properties *)

(** C37: committing a line never panics, appends it to the log under the next
    id, renumbers nothing, keeps the ring within its line and byte bounds (one
    oversized line excepted) and evicts no more than that requires: every
    longer suffix is over a bound. *)
Theorem ring_push_refines h log line :
  ring_refines h log → next_id h < u64_max →
  ∃ h', ring_push h line = Some h' ∧ ring_refines h' (log ++ [line]) ∧
    first_id h ≤ first_id h' ∧
    ∀ id, first_id h ≤ id < first_id h' →
      ¬ fits (max_lines h) (max_bytes h) (log_slice (log ++ [line]) id (len log + 1)).
Proof.
  intros R Hlt. destruct (ring_push_spec h log line R Hlt)
    as (h' & k & Hp & R' & _ & _ & _ & Hf & Hmax).
  exists h'. split_and!; try done; [lia|]. intros id Hid.
  pose proof R as [W Hn Hl]. pose proof (wf_first _ W). pose proof (wf_next _ W) as Hw.
  have := Hmax (Z.to_nat (id - first_id h)). rewrite Hl -drop_app_le;
    last (rewrite /len in Hn Hw; lia).
  rewrite drop_drop /log_slice take_ge; last (rewrite length_drop length_app /= /len; lia).
  replace (Z.to_nat (id - 1)) with (Z.to_nat (first_id h - 1) + Z.to_nat (id - first_id h))%nat
    by lia. intros Hj. apply Hj. lia.
Qed.

Lemma ring_push_refines_witness :
  ∃ h', ring_push (ring_new 1 100) (lit "a") = Some h' ∧ ring_refines h' [lit "a"] ∧
    1 ≤ first_id h' ∧
    ∀ id, 1 ≤ id < first_id h' → ¬ fits 1 100 (log_slice [lit "a"] id 1).
Proof.
  exact (ring_push_refines (ring_new 1 100) [] (lit "a") (ring_new_refines 1 100)
           ltac:(by vm_compute)).
Defined.

(** A range read never panics. If the newest id asked for is below the
    oldest retained line the page is empty, flagged exactly when something
    existed there; otherwise it is a contiguous run of the log that ends at
    that id, has at least one line, keeps both limits (one oversized line
    excepted), stops only for the oldest line or a limit, and is flagged
    exactly when it reaches the oldest line and older ones were evicted. *)
Theorem range_correct h log before ml mb :
  ring_refines h log → 0 ≤ before ≤ u64_max → 0 ≤ ml ≤ u32_max →
  ∃ r, range h before ml mb = Some r ∧
    let upper := if before =? 0 then len log else Z.min (before - 1) (len log) in
    if upper <? first_id h
    then r = {| first_line_id := 0; range_lines := []; truncated_by_eviction := 0 <? upper |}
    else
      let lo := first_line_id r in
      first_id h ≤ lo ≤ upper ∧ range_lines r = log_slice log lo upper ∧
      len (range_lines r) = upper + 1 - lo ∧ len (range_lines r) ≤ Z.max 1 ml ∧
      (total (range_lines r) ≤ mb ∨ len (range_lines r) = 1) ∧
      (lo = first_id h ∨ Z.max 1 ml ≤ len (range_lines r) ∨
       ∃ line, lines h !! Z.to_nat (lo - 1 - first_id h) = Some line ∧
         mb < str_len line + total (range_lines r)) ∧
      (truncated_by_eviction r = true ↔ lo = first_id h ∧ first_id h > 1).
Proof.
  intros R Hb Hml. pose proof R as [W Hn _].
  destruct (range_spec h before ml mb W Hb Hml) as [Hup Hr]. cbv zeta in Hr.
  replace (next_id h - 1) with (len log) in Hup by lia. cbv zeta. rewrite -Hup.
  destruct (range_upper h before <? first_id h) eqn:E; [eexists; split; [exact Hr|done]|].
  destruct Hr as (lo & Hr & Hlo & H). eexists. split; [exact Hr|]. cbv zeta. simpl.
  have Hl : len (slice h lo (range_upper h before)) = range_upper h before + 1 - lo.
  { rewrite slice_length //; try lia. destruct (before =? 0) eqn:?; lia. }
  rewrite Hl -(slice_log h) //; last lia. rewrite /range_stop in H.
  split_and!; try naive_solver lia.
Qed.

Lemma range_correct_witness :
  ∃ r, range (ring_new 10 100) 0 5 50 = Some r ∧
    r = {| first_line_id := 0; range_lines := []; truncated_by_eviction := false |}.
Proof.
  exact (range_correct (ring_new 10 100) [] 0 5 50 (ring_new_refines 10 100)
           ltac:(by vm_compute) ltac:(by vm_compute)).
Defined.

(** After committing any lines to a new ring, paging back with any
    limits, even zero, terminates and returns exactly the retained lines in
    order, and these are a suffix of what was committed. *)
Theorem page_back_complete max_lines max_bytes ls ml mb :
  len ls < u64_max → 0 ≤ ml ≤ u32_max →
  ∃ h, push_lines (ring_new max_lines max_bytes) ls = Some h ∧
    page_back (S (length (lines h))) h 0 ml mb = Some (lines h) ∧ lines h `suffix_of` ls.
Proof.
  intros Hls Hml.
  destruct (push_lines_refines (ring_new max_lines max_bytes) [] ls) as (h & Hp & R & _);
    [apply ring_new_refines|simpl; lia|].
  exists h. pose proof R as [W Hn Hl]. pose proof (wf_next _ W) as Hw.
  pose proof (wf_first _ W). pose proof (wf_u64 _ W). pose proof (len_nonneg (lines h)).
  split_and!; [done| |rewrite Hl; apply suffix_drop].
  have Hs : slice h (first_id h) (next_id h - 1) = lines h.
  { rewrite /slice Z.sub_diag drop_0 take_ge //. rewrite /len in Hw. lia. }
  have E0 : range h 0 ml mb = range h (next_id h) ml mb.
  { destruct (range_spec h 0 ml mb W) as [U0 _]; [lia..|].
    destruct (range_spec h (next_id h) ml mb W) as [U1 _]; [lia..|].
    rewrite /range. replace (range_upper h 0) with (range_upper h (next_id h)); [done|].
    rewrite U0 U1. destruct (next_id h =? 0) eqn:?; simpl; lia. }
  change (page_back (S (length (lines h))) h 0 ml mb) with
    (r ← range h 0 ml mb;
     if is_empty (range_lines r) then Some []
     else older ← page_back (length (lines h)) h (first_line_id r) ml mb;
          Some (older ++ range_lines r)).
  rewrite E0. rewrite -Hs. apply (page_back_spec (S (length (slice h (first_id h) (next_id h - 1)))));
    [done|done|lia|]. rewrite Hs. rewrite /len in Hw. lia.
Qed.

Lemma page_back_complete_witness :
  ∃ h, push_lines (ring_new 2 100) [lit "a"; lit "b"; lit "c"] = Some h ∧
    page_back (S (length (lines h))) h 0 1 0 = Some (lines h) ∧
    lines h `suffix_of` [lit "a"; lit "b"; lit "c"].
Proof.
  exact (page_back_complete 2 100 [lit "a"; lit "b"; lit "c"] 1 0
           ltac:(by vm_compute) ltac:(by vm_compute)).
Defined.
