(* ===== verification/Modes.v ===== *)
(** * Input-mode tracking

    [crates/terminal-model/src/modes.rs]: a bounded scanner that follows the
    DEC private modes which change how a client encodes input, so that an
    attach snapshot can replay them. Text is attacker-controlled; a panic of
    the source (an index out of range, the [expect] of [finish_csi]) is
    [None], and the invariant shows it is never reached. *)
From S2P Require Import Prelude Utf8.

Definition TRACKED : list Z := [1; 9; 1000; 1002; 1003; 1004; 1005; 1006; 1007; 1015; 2004].
Definition MOUSE_PROTOCOLS : list Z := [9; 1000; 1002; 1003].
Definition MAX_PARAMS : nat := 32.

Record CsiFrame := {
  private : bool;
  bang : bool;
  invalid : bool;
  params_len : nat;
}.

Definition csi_default : CsiFrame :=
  {| private := false; bang := false; invalid := false; params_len := 0 |}.

Inductive State :=
  | Ground
  | Escape
  | Csi (frame : CsiFrame)
  | StringBody
  | StringEscape.

Record ModeTracker := {
  state : State;
  params : bytes;
  active : list bool;
}.

Definition all_off : list bool := replicate (length TRACKED) false.

Definition modes_new : ModeTracker :=
  {| state := Ground; params := replicate MAX_PARAMS (Z_byte 0); active := all_off |}.

(** Assignment to an array element; [None] is the bounds panic. *)
Definition set_at {A} (l : list A) (i : nat) (v : A) : option (list A) :=
  if (i <? length l)%nat then Some (<[i := v]> l) else None.

(** [TRACKED.iter().position(|&c| c == code)]. *)
Definition position (code : Z) : option nat := fst <$> list_find (λ c, c = code) TRACKED.

(** The inner loop of [apply]: switch the other mouse protocols off. *)
Fixpoint mouse_off (code : Z) (others : list Z) (act : list bool) : option (list bool) :=
  match others with
  | [] => Some act
  | other :: others =>
      if other =? code then mouse_off code others act
      else i ← position other; act ← set_at act i false; mouse_off code others act
  end.

Definition apply (act : list bool) (code : Z) (set : bool) : option (list bool) :=
  match position code with
  | None => Some act
  | Some index =>
      act ← (if set && bool_decide (code ∈ MOUSE_PROTOCOLS)
             then mouse_off code MOUSE_PROTOCOLS act else Some act);
      set_at act index set
  end.

Fixpoint apply_parts (act : list bool) (parts : list str) (set : bool) : option (list bool) :=
  match parts with
  | [] => Some act
  | part :: parts =>
      match parse_uint u16_max part with
      | Some code => act ← apply act code set; apply_parts act parts set
      | None => apply_parts act parts set
      end
  end.

(** New value of [active] when a CSI sequence ends. *)
Definition finish_csi (params : bytes) (act : list bool) (frame : CsiFrame) (final_byte : char)
    : option (list bool) :=
  if invalid frame then Some act
  else if bang frame && (final_byte =? 0x70) then Some all_off
  else if negb (private frame) || (negb (final_byte =? 0x68) && negb (final_byte =? 0x6C))
  then Some act
  else
    let set := final_byte =? 0x68 in
    match from_utf8 (take (params_len frame) params) with
    | Err _ => None
    | Ok s => apply_parts act (split_char 0x3B s) set
    end.

Definition between (lo hi c : Z) : bool := (lo <=? c) && (c <=? hi).

Definition step (m : ModeTracker) (ch : char) : option ModeTracker :=
  let goto st := Some {| state := st; params := params m; active := active m |} in
  match state m with
  | Ground =>
      if ch =? 0x1B then goto Escape
      else if ch =? 0x9B then goto (Csi csi_default)
      else goto Ground
  | Escape =>
      if ch =? 0x5B then goto (Csi csi_default)
      else if bool_decide (ch ∈ [0x5D; 0x50; 0x58; 0x5E; 0x5F]) then goto StringBody
      else if ch =? 0x63 then
        Some {| state := Ground; params := params m; active := all_off |}
      else if ch =? 0x1B then goto Escape
      else goto Ground
  | Csi frame =>
      let mark_invalid :=
        Csi {| private := private frame; bang := bang frame; invalid := true;
               params_len := params_len frame |} in
      if (ch =? 0x3F) && (params_len frame =? 0)%nat && negb (private frame) then
        goto (Csi {| private := true; bang := bang frame; invalid := invalid frame;
                     params_len := params_len frame |})
      else if between 0x30 0x39 ch || (ch =? 0x3B) then
        if (params_len frame <? MAX_PARAMS)%nat then
          ps ← set_at (params m) (params_len frame) (Z_byte ch);
          Some {| state := Csi {| private := private frame; bang := bang frame;
                                  invalid := invalid frame;
                                  params_len := S (params_len frame) |};
                  params := ps; active := active m |}
        else goto mark_invalid
      else if bool_decide (ch ∈ [0x3A; 0x3C; 0x3D; 0x3E; 0x3F]) then goto mark_invalid
      else if ch =? 0x21 then
        goto (Csi {| private := private frame; bang := true; invalid := invalid frame;
                     params_len := params_len frame |})
      else if between 0x20 0x2F ch then goto mark_invalid
      else if between 0x40 0x7E ch then
        act ← finish_csi (params m) (active m) frame ch;
        Some {| state := Ground; params := params m; active := act |}
      else if ch =? 0x1B then goto Escape
      else if (ch =? 0x18) || (ch =? 0x1A) then goto Ground
      else if between 0x00 0x1F ch then goto (Csi frame)
      else goto Ground
  | StringBody =>
      if (ch =? 0x07) || (ch =? 0x9C) then goto Ground
      else if (ch =? 0x18) || (ch =? 0x1A) then goto Ground
      else if ch =? 0x1B then goto StringEscape
      else goto StringBody
  | StringEscape =>
      if ch =? 0x5C then goto Ground
      else if ch =? 0x1B then goto StringEscape
      else goto StringBody
  end.

Fixpoint scan (m : ModeTracker) (text : str) : option ModeTracker :=
  match text with
  | [] => Some m
  | ch :: text => m ← step m ch; scan m text
  end.

(** [ESC [ ? code h]. *)
Definition set_sequence (code : Z) : str := [0x1B] ++ lit "[?" ++ dec_str code ++ lit "h".

Definition restore_sequence (m : ModeTracker) : str :=
  concat (zip_with (λ code (on : bool), if on then set_sequence code else []) TRACKED (active m)).

(** ** Invariant *)

(** At most one of the four mouse protocols is on ([TRACKED] positions 1-4). *)
Definition at_most_one (l : list bool) : Prop :=
  (foldr (λ b n, Nat.b2n b + n) 0 l ≤ 1)%nat.

Definition mouse_exclusive (act : list bool) : Prop := at_most_one (take 4 (drop 1 act)).

Definition is_param (b : byte) : Prop := between 0x30 0x39 (byte_Z b) || (byte_Z b =? 0x3B) = true.

Record modes_wf (m : ModeTracker) : Prop := {
  wf_params : length (params m) = MAX_PARAMS;
  wf_active : length (active m) = length TRACKED;
  wf_mouse : mouse_exclusive (active m);
  wf_frame : match state m with
             | Csi f => (params_len f ≤ MAX_PARAMS)%nat ∧
                        Forall is_param (take (params_len f) (params m))
             | _ => True
             end;
}.

Lemma modes_new_wf : modes_wf modes_new.
Proof. split; [done|done| |done]. vm_compute. lia. Qed.

Lemma all_off_ok : length all_off = length TRACKED ∧ mouse_exclusive all_off.
Proof. split; [done|]. vm_compute. lia. Qed.

(** The modes with the positions they have in [TRACKED]. *)
Lemma position_Some code i :
  position code = Some i → TRACKED !! i = Some code ∧ (i < length TRACKED)%nat.
Proof.
  rewrite /position. destruct (list_find _ _) as [[j c]|] eqn:E; [|done].
  apply list_find_Some in E as (Hl & -> & _). intros Hq. injection Hq as <-.
  split; [done|]. by eapply lookup_lt_Some.
Qed.

(** [apply] is total, keeps the array's length and at most one mouse mode; the
    mode becomes [set], and a mode outside the mouse protocols changes nothing
    else. *)
Lemma apply_spec act code set :
  length act = length TRACKED → mouse_exclusive act →
  ∃ act', apply act code set = Some act' ∧
    length act' = length TRACKED ∧ mouse_exclusive act' ∧
    (∀ i, position code = Some i → act' !! i = Some set) ∧
    (position code = None → act' = act) ∧
    (code ∉ MOUSE_PROTOCOLS ∨ set = false →
     ∀ j, position code ≠ Some j → act' !! j = act !! j).
Proof.
  intros Hl Hm. rewrite /apply. destruct (position code) as [i|] eqn:Hp; last first.
  { exists act. naive_solver. }
  apply position_Some in Hp as [Hi Hlt].
  destruct act as [|a0 [|a1 [|a2 [|a3 [|a4 [|a5 [|a6 [|a7 [|a8 [|a9 [|a10 [|]]]]]]]]]]]];
    try discriminate Hl.
  destruct i as [|[|[|[|[|[|[|[|[|[|[|i]]]]]]]]]]]; try (simpl in Hlt; lia);
    injection Hi as <-.
  all: destruct set; (eexists; split; [vm_compute; reflexivity|]).
  all: split_and!; [done| |intros ? Hq; injection Hq as <-; done|done|].
  all: try (intros _ j Hj; destruct j as [|[|[|[|[|[|[|[|[|[|[|j]]]]]]]]]]]; first [reflexivity|by destruct Hj]).
  all: try (intros [Hin|Hf] j Hj; [exfalso; apply Hin; rewrite /MOUSE_PROTOCOLS; set_solver|done]).
  all: rewrite /mouse_exclusive /at_most_one in Hm |- *; simpl in Hm |- *; lia.
Qed.

(** Every mode array reachable from a good one is good. *)
Definition active_ok (act : list bool) : Prop :=
  length act = length TRACKED ∧ mouse_exclusive act.

Lemma apply_ok act code set :
  active_ok act → ∃ act', apply act code set = Some act' ∧ active_ok act'.
Proof.
  intros [Hl Hm]. destruct (apply_spec act code set Hl Hm) as (act' & H & Hl' & Hm' & _).
  by exists act'.
Qed.

Lemma apply_parts_ok act parts set :
  active_ok act → ∃ act', apply_parts act parts set = Some act' ∧ active_ok act'.
Proof.
  revert act. induction parts as [|p ps IH]; intros act Ha; simpl; [by exists act|].
  destruct (parse_uint u16_max p) as [code|]; [|by apply IH].
  destruct (apply_ok act code set Ha) as (act' & -> & Ha'). by apply IH.
Qed.

(** Parameter bytes are the text they spell. *)
Lemma params_text l :
  Forall is_param l → from_utf8 l = Ok (map byte_Z l).
Proof.
  intros Hl. have Ha : Forall (λ c, is_ascii c = true) (map byte_Z l).
  { apply Forall_map. eapply Forall_impl; [exact Hl|]. intros b Hb.
    rewrite /is_param /between in Hb. rewrite /is_ascii /=. lia. }
  rewrite -{1}(_ : str_bytes (map byte_Z l) = l).
  - apply from_utf8_str_bytes. eapply Forall_impl; [exact Ha|].
    intros c. rewrite /is_ascii /is_scalar. lia.
  - rewrite str_bytes_ascii // map_map. rewrite -{2}(map_id l). apply map_ext => b.
    apply Z_byte_of_byte.
Qed.

Lemma finish_csi_ok params act frame ch :
  active_ok act → Forall is_param (take (params_len frame) params) →
  ∃ act', finish_csi params act frame ch = Some act' ∧ active_ok act'.
Proof.
  intros Ha Hp. rewrite /finish_csi.
  destruct (invalid frame); [by exists act|].
  destruct (_ && _); [exists all_off; split; [done|apply all_off_ok]|].
  destruct (_ || _); [by exists act|].
  rewrite params_text //. by apply apply_parts_ok.
Qed.

Lemma set_at_Some {A} (l : list A) i v : (i < length l)%nat → set_at l i v = Some (<[i := v]> l).
Proof. intros. rewrite /set_at. by rewrite (proj2 (Nat.ltb_lt _ _)). Qed.

Lemma is_param_char ch :
  between 0x30 0x39 ch || (ch =? 0x3B) = true → is_param (Z_byte ch).
Proof.
  intros H. rewrite /is_param byte_Z_of_Z.
  rewrite (_ : wrap8 ch = ch) //. rewrite /wrap8 /between in H |- *. zlia.
Qed.

(** Storing a parameter byte at the end of the written part. *)
Lemma take_insert_snoc {A} (l : list A) i v :
  (i < length l)%nat → take (S i) (<[i := v]> l) = take i l ++ [v].
Proof.
  intros Hi. rewrite (take_S_r _ _ v); [by rewrite take_insert_ge|].
  by rewrite list_lookup_insert_eq.
Qed.

Ltac solve_step :=
  repeat match goal with
  | |- ∃ m', (if ?b then _ else _) = Some m' ∧ _ => destruct b eqn:?
  | |- ∃ m', Some _ = Some m' ∧ _ => eexists; split; [reflexivity|]; split; simpl; try done
  end.

Lemma step_ok m ch : modes_wf m → ∃ m', step m ch = Some m' ∧ modes_wf m'.
Proof.
  intros [Hp Ha Hm Hf]. rewrite /step. destruct (state m) as [| |frame| |]; cbv zeta; solve_step;
    try apply all_off_ok; try (split; [apply Nat.le_0_l|by constructor]).
  - destruct Hf as [Hn HF]. rewrite set_at_Some /=; last (rewrite Hp; by apply Nat.ltb_lt).
    eexists. split; [done|]. split; simpl; [by rewrite length_insert|done|done|].
    apply Nat.ltb_lt in Heqb1. split; [lia|]. rewrite take_insert_snoc; last lia.
    apply Forall_app. split; [done|]. constructor; [by apply is_param_char|done].
  - destruct Hf as [Hn HF].
    destruct (finish_csi_ok (params m) (active m) frame ch) as (act' & -> & Hl & Hx); [done..|].
    by eexists.
Qed.

Lemma scan_ok m text : modes_wf m → ∃ m', scan m text = Some m' ∧ modes_wf m'.
Proof.
  revert m. induction text as [|ch text IH]; intros m W; simpl; [by exists m|].
  destruct (step_ok m ch W) as (m1 & -> & W1). by apply IH.
Qed.

Lemma scan_app m a b : scan m (a ++ b) = m' ← scan m a; scan m' b.
Proof. revert m. induction a as [|c a IH]; intros m; simpl; [done|].
  by destruct (step m c); simpl.
Qed.

(** ** What a mode sequence does *)

(** [CSI ? codes h] or [CSI ? codes l], as a program writes it. *)
Fixpoint join_semi (ps : list str) : str :=
  match ps with
  | [] => []
  | [p] => p
  | p :: ps => p ++ 0x3B :: join_semi ps
  end.

Definition mode_list (codes : list Z) : str := join_semi (map dec_str codes).
Definition mode_sequence (codes : list Z) (set : bool) : str :=
  [0x1B] ++ lit "[?" ++ mode_list codes ++ [if set then 0x68 else 0x6C].

(** Its meaning: each code applied in order. *)
Fixpoint apply_codes (act : list bool) (codes : list Z) (set : bool) : option (list bool) :=
  match codes with
  | [] => Some act
  | c :: cs => act' ← apply act c set; apply_codes act' cs set
  end.

Definition param_char (c : Z) : Prop := between 0x30 0x39 c || (c =? 0x3B) = true.

Lemma dec_str_param z : 0 ≤ z → Forall param_char (dec_str z) ∧ 0x3B ∉ dec_str z.
Proof.
  intros Hz. pose proof (dec_str_digits z Hz) as Hd. split.
  - eapply Forall_impl; [exact Hd|]. intros c. rewrite /is_ascii_digit /param_char /between. lia.
  - intros Hin. rewrite Forall_forall in Hd. by pose proof (Hd _ Hin).
Qed.

Lemma mode_list_param codes :
  Forall (λ c, 0 ≤ c ≤ u16_max) codes → Forall param_char (mode_list codes).
Proof.
  rewrite /mode_list. induction 1 as [|c cs Hc _ IH]; simpl; [constructor|].
  destruct (dec_str_param c) as [Hd _]; [lia|]. destruct cs; simpl in *; [done|].
  apply Forall_app. split; [done|]. by constructor.
Qed.

Lemma apply_parts_list codes act set :
  Forall (λ c, 0 ≤ c ≤ u16_max) codes →
  apply_parts act (split_char 0x3B (mode_list codes)) set = apply_codes act codes set.
Proof.
  intros Hc. revert act. rewrite /mode_list.
  induction Hc as [|c cs Hc _ IH]; intros act; [done|].
  have Hp : parse_uint u16_max (dec_str c) = Some c.
  { apply parse_dec_str; rewrite /u16_max /u64_max in Hc |- *; lia. }
  destruct (dec_str_param c) as [_ Hs]; [lia|].
  destruct cs as [|c' cs].
  - simpl. rewrite split_char_notin //= Hp. by destruct (apply act c set).
  - cbn [map join_semi]. rewrite split_char_cons //. cbn [apply_parts apply_codes]. rewrite Hp.
    destruct (apply act c set); simpl; [apply IH|done].
Qed.

(** Scanning parameters: stored while they fit, the frame marked otherwise. *)
Definition frame_with (f : CsiFrame) (inv : bool) (n : nat) : CsiFrame :=
  {| private := private f; bang := bang f; invalid := inv; params_len := n |}.

Lemma step_param m f c :
  state m = Csi f → param_char c → length (params m) = MAX_PARAMS →
  step m c = Some
    (if (params_len f <? MAX_PARAMS)%nat
     then {| state := Csi (frame_with f (invalid f) (S (params_len f)));
             params := <[params_len f := Z_byte c]> (params m); active := active m |}
     else {| state := Csi (frame_with f true (params_len f));
             params := params m; active := active m |}).
Proof.
  intros Hs Hc Hl. rewrite /step Hs. unfold param_char in Hc.
  rewrite (_ : (c =? 0x3F) = false); last (rewrite /between in Hc; lia).
  cbn [andb]. cbv zeta. rewrite Hc. destruct (params_len f <? MAX_PARAMS)%nat eqn:E; [|done].
  rewrite set_at_Some //. rewrite Hl. by apply Nat.ltb_lt.
Qed.

Lemma scan_params p m f :
  state m = Csi f → Forall param_char p → length (params m) = MAX_PARAMS →
  (params_len f ≤ MAX_PARAMS)%nat →
  ∃ ps, length ps = MAX_PARAMS ∧
    if (params_len f + length p <=? MAX_PARAMS)%nat
    then take (params_len f + length p) ps = take (params_len f) (params m) ++ map Z_byte p ∧
      scan m p = Some {| state := Csi (frame_with f (invalid f) (params_len f + length p));
                         params := ps; active := active m |}
    else scan m p = Some {| state := Csi (frame_with f true MAX_PARAMS);
                            params := ps; active := active m |}.
Proof.
  intros Hs Hp. revert m f Hs. induction Hp as [|c p Hc _ IH]; intros m f Hs Hl Hn.
  - exists (params m). split; [done|]. rewrite Nat.add_0_r (proj2 (Nat.leb_le _ _)) //.
    rewrite app_nil_r. split; [done|]. simpl. destruct m, f. simpl in *. by subst.
  - cbn [scan length]. rewrite (step_param m f c) //. cbn [mbind option_bind].
    destruct (params_len f <? MAX_PARAMS)%nat eqn:E.
    + apply Nat.ltb_lt in E.
      edestruct (IH {| state := Csi (frame_with f (invalid f) (S (params_len f)));
             params := <[params_len f := Z_byte c]> (params m); active := active m |})
        as (ps & Hps & Hr); [done|by rewrite /= length_insert|simpl; lia|].
      exists ps. split; [done|]. cbn [params_len frame_with invalid private bang params active] in Hr.
      rewrite -Nat.add_succ_comm. destruct (_ <=? _)%nat; [|done].
      destruct Hr as [Ht Hr]. split; [|done].
      rewrite Ht take_insert_snoc; last lia. by rewrite -app_assoc.
    + apply Nat.ltb_ge in E. have En : params_len f = MAX_PARAMS by lia.
      edestruct (IH {| state := Csi (frame_with f true (params_len f));
             params := params m; active := active m |})
        as (ps & Hps & Hr); [done|done|simpl; lia|].
      exists ps. split; [done|]. cbn [params_len frame_with invalid private bang params active] in Hr.
      rewrite (proj2 (Nat.leb_gt (params_len f + S (length p)) MAX_PARAMS)); last lia.
      destruct (_ <=? _)%nat eqn:E2; [|done]. destruct Hr as [_ ->].
      apply Nat.leb_le in E2. do 4 f_equal. lia.
Qed.

(** The final byte of a complete mode list. *)
Lemma step_final m f (p : str) (set : bool) :
  state m = Csi f → invalid f = false → bang f = false → private f = true →
  take (params_len f) (params m) = map Z_byte p → Forall param_char p →
  step m (if set then 0x68 else 0x6C) =
  act ← apply_parts (active m) (split_char 0x3B p) set;
  Some {| state := Ground; params := params m; active := act |}.
Proof.
  intros Hs Hi Hb Hv Ht Hp.
  have Htext : from_utf8 (take (params_len f) (params m)) = Ok p.
  { rewrite Ht params_text.
    - rewrite map_map -{2}(map_id p). f_equal. apply map_ext_Forall.
      eapply Forall_impl; [exact Hp|]. intros c Hc. rewrite byte_Z_of_Z /wrap8.
      rewrite /param_char /between in Hc. zlia.
    - apply Forall_map. eapply Forall_impl; [exact Hp|]. apply is_param_char. }
  destruct set; rewrite /step Hs /= /finish_csi Hi Hb Hv /= Htext //.
Qed.

(** ** Replaying the modes *)

(** All arrays of [n] booleans, to check the replay by computation. *)
Fixpoint bool_lists (n : nat) : list (list bool) :=
  match n with
  | O => [[]]
  | S n => map (cons true) (bool_lists n) ++ map (cons false) (bool_lists n)
  end.

Lemma elem_of_bool_lists l : l ∈ bool_lists (length l).
Proof.
  induction l as [|b l IH]; simpl; [set_solver|].
  apply elem_of_app. destruct b; [left|right]; by apply list_elem_of_fmap_2.
Qed.

Definition replays (act : list bool) : bool :=
  match scan modes_new (restore_sequence {| state := Ground; params := []; active := act |}) with
  | Some {| state := Ground; active := act' |} => bool_decide (act' = act)
  | _ => false
  end.

Lemma replays_all act : active_ok act → replays act = true.
Proof.
  intros [Hl Hm].
  assert (Hall : forallb (λ l, (1 <? foldr (λ b n, Nat.b2n b + n) 0 (take 4 (drop 1 l)))%nat
                               || replays l) (bool_lists (length TRACKED)) = true)
    by (vm_compute; reflexivity).
  rewrite forallb_forall in Hall. specialize (Hall act).
  rewrite -Hl in Hall. specialize (Hall (proj1 (list_elem_of_In _ _) (elem_of_bool_lists act))).
  apply orb_true_iff in Hall as [Hx|]; [|done]. apply Nat.ltb_lt in Hx.
  rewrite /mouse_exclusive /at_most_one in Hm. lia.
Qed.

(** ** Properties *)

(** On any text, in any chunks, the scanner never panics, its buffers keep
    their fixed sizes, and at most one of the mutually exclusive mouse
    protocols is recorded as active; scanning in two pieces is scanning the
    whole. *)
Theorem scan_safe text more :
  ∃ m m', scan modes_new text = Some m ∧ scan m more = Some m' ∧
    scan modes_new (text ++ more) = Some m' ∧
    length (params m') = MAX_PARAMS ∧ length (active m') = length TRACKED ∧
    mouse_exclusive (active m').
Proof.
  destruct (scan_ok modes_new text modes_new_wf) as (m & Hm & W).
  destruct (scan_ok m more W) as (m' & Hm' & [W1 W2 W3 _]).
  exists m, m'. by rewrite scan_app Hm.
Qed.

(** A DEC private mode sequence [CSI ? codes h/l] met outside any other
    sequence applies exactly its codes, in order, when its parameters fit the
    buffer, and changes no mode otherwise; either way the scanner is back in
    the ground state. *)
Theorem mode_sequence_applies m codes set :
  modes_wf m → state m = Ground → Forall (λ c, 0 ≤ c ≤ u16_max) codes →
  ∃ m', scan m (mode_sequence codes set) = Some m' ∧ state m' = Ground ∧
    Some (active m') = if (length (mode_list codes) <=? MAX_PARAMS)%nat
                       then apply_codes (active m) codes set else Some (active m).
Proof.
  intros W Hs Hc. rewrite /mode_sequence (app_assoc [0x1B]) scan_app /= /step Hs /=.
  set (m1 := {| state := Csi _; params := params m; active := active m |}).
  rewrite scan_app. pose proof (mode_list_param codes Hc) as Hp.
  edestruct (scan_params (mode_list codes) m1) as (ps & Hps & Hr);
    [done|done|apply W|simpl; lia|].
  change (params_len _ + length (mode_list codes))%nat with (length (mode_list codes)) in Hr.
  destruct (length (mode_list codes) <=? MAX_PARAMS)%nat eqn:E; last first.
  { rewrite Hr. destruct set; by eexists. }
  destruct Hr as [Ht ->]. cbn [mbind option_bind scan].
  erewrite step_final; [|done|done|done|done|exact Ht|exact Hp].
  rewrite apply_parts_list // -apply_parts_list // /=.
  destruct (apply_parts_ok (active m) (split_char 0x3B (mode_list codes)) set) as (act & -> & _);
    [by destruct W|]. by eexists.
Qed.

Lemma mode_sequence_applies_witness :
  ∃ m', scan modes_new (mode_sequence [1000; 1006] true) = Some m' ∧ state m' = Ground ∧
    Some (active m') = apply_codes all_off [1000; 1006] true.
Proof.
  exact (mode_sequence_applies modes_new [1000; 1006] true modes_new_wf eq_refl
           ltac:(repeat constructor; by vm_compute)).
Defined.

(** The sequence appended to an attach snapshot, scanned by a fresh
    tracker, restores exactly the active modes, for every state the scanner
    can reach. *)
Theorem restore_roundtrip text m :
  scan modes_new text = Some m →
  ∃ m', scan modes_new (restore_sequence m) = Some m' ∧ state m' = Ground ∧
    active m' = active m.
Proof.
  intros Hm. destruct (scan_ok modes_new text modes_new_wf) as (m0 & Hm0 & W).
  rewrite Hm in Hm0. injection Hm0 as <-.
  have Hr : replays (active m) = true by apply replays_all; split; apply W.
  rewrite /replays in Hr. change (restore_sequence {| state := _; params := _; active := active m |})
    with (restore_sequence m) in Hr.
  destruct (scan modes_new (restore_sequence m)) as [[[] ps act]|]; try done.
  eexists. split; [done|]. split; [done|]. by apply bool_decide_eq_true in Hr.
Qed.

Lemma restore_roundtrip_witness :
  ∃ m m', scan modes_new (mode_sequence [1; 1002; 2004] true) = Some m ∧
    scan modes_new (restore_sequence m) = Some m' ∧ state m' = Ground ∧ active m' = active m.
Proof.
  eexists. edestruct (restore_roundtrip (mode_sequence [1; 1002; 2004] true)) as (m' & H);
    [vm_compute; reflexivity|]. exists m'. split; [vm_compute; reflexivity|exact H].
Defined.
