(* ===== verification/TerminalModel.v ===== *)
(** * The terminal model of one shell

    [crates/terminal-model/src/lib.rs]: UTF-8 decoding, input-mode tracking and
    the scrollback ring around the [avt] emulator. [avt] is a vendored
    third-party crate and a parameter here ([VtOps]); what the model relies on
    is [VtLaws]: the emulator neither panics nor hangs on dimensions at or
    above the documented floor. A panic is [None]. *)
From S2P Require Import Prelude Utf8 History Modes.

Definition MIN_COLS : Z := 2.
Definition MIN_ROWS : Z := 1.

(** [avt::Vt] built with [scrollback_limit(0)]: feeding and resizing hand back
    the text of the lines that left the screen. *)
Class VtOps := {
  Vt : Type;
  vt_build : Z → Z → Vt;
  vt_feed_str : Vt → str → option (Vt * list str);
  vt_resize : Vt → Z → Z → option (Vt * list str);
  vt_dump : Vt → str;
  vt_view : Vt → list str;
}.

(** [vt_sized v c r]: the emulator has these dimensions. *)
Class VtLaws (V : VtOps) := {
  vt_sized : Vt → Z → Z → Prop;
  vt_build_sized c r : MIN_COLS ≤ c → MIN_ROWS ≤ r → vt_sized (vt_build c r) c r;
  vt_feed_safe v c r s :
    vt_sized v c r → MIN_COLS ≤ c → MIN_ROWS ≤ r →
    ∃ v' ls, vt_feed_str v s = Some (v', ls) ∧ vt_sized v' c r;
  vt_resize_safe v c r c' r' :
    vt_sized v c r → MIN_COLS ≤ c' → MIN_ROWS ≤ r' →
    ∃ v' ls, vt_resize v c' r' = Some (v', ls) ∧ vt_sized v' c' r';
}.

Record TerminalModelConfig := {
  cfg_cols : Z;
  cfg_rows : Z;
  max_history_lines : Z;
  max_history_bytes : Z;
}.

Definition terminal_config_default : TerminalModelConfig := {|
  cfg_cols := 80; cfg_rows := 24;
  max_history_lines := 100000; max_history_bytes := 64 * 1024 * 1024 |}.

Section model.
Context {V : VtOps}.

Record TerminalModel := {
  vt : Vt;
  utf8 : IncrementalUtf8;
  history : HistoryRing;
  modes : ModeTracker;
  revision : Z;
  cols : Z;
  rows : Z;
}.

Definition terminal_new (config : TerminalModelConfig) : TerminalModel :=
  let cols := Z.max (cfg_cols config) MIN_COLS in
  let rows := Z.max (cfg_rows config) MIN_ROWS in
  {| vt := vt_build cols rows; utf8 := utf8_new;
     history := ring_new (max_history_lines config) (max_history_bytes config);
     modes := modes_new; revision := 1; cols := cols; rows := rows |}.

Definition feed (t : TerminalModel) (input : bytes) : option (TerminalModel * Z) :=
  '(u, text) ← push (utf8 t) input;
  if is_empty text then
    Some ({| vt := vt t; utf8 := u; history := history t; modes := modes t;
             revision := revision t; cols := cols t; rows := rows t |}, revision t)
  else
    m ← scan (modes t) text;
    '(v, scrollback) ← vt_feed_str (vt t) text;
    h ← push_lines (history t) (map trim_end scrollback);
    let rev := wrap64 (revision t + 1) in
    Some ({| vt := v; utf8 := u; history := h; modes := m;
             revision := rev; cols := cols t; rows := rows t |}, rev).

Definition resize (t : TerminalModel) (c r : Z) : option (TerminalModel * Z) :=
  let c := Z.max c MIN_COLS in
  let r := Z.max r MIN_ROWS in
  if (c =? cols t) && (r =? rows t) then Some (t, revision t)
  else
    '(v, scrollback) ← vt_resize (vt t) c r;
    h ← push_lines (history t) (map trim_end scrollback);
    let rev := wrap64 (revision t + 1) in
    Some ({| vt := v; utf8 := utf8 t; history := h; modes := modes t;
             revision := rev; cols := c; rows := r |}, rev).

Definition snapshot (t : TerminalModel) : bytes :=
  str_bytes (vt_dump (vt t)) ++ str_bytes (restore_sequence (modes t)).

Definition size (t : TerminalModel) : Z * Z := (cols t, rows t).
Definition visible_lines (t : TerminalModel) : list str := map trim_end (vt_view (vt t)).
Definition oldest_line_id (t : TerminalModel) : Z := oldest_id (history t).
Definition newest_line_id (t : TerminalModel) : Z := newest_id (history t).
Definition history_range (t : TerminalModel) (before ml mb : Z) : option HistoryRange :=
  range (history t) before ml mb.

(** ** Invariant

    [log]: every line that ever left the primary screen, in order. *)
Context {L : VtLaws V}.

Record terminal_wf (t : TerminalModel) (log : list str) : Prop := {
  wf_cols : MIN_COLS ≤ cols t;
  wf_rows : MIN_ROWS ≤ rows t;
  wf_vt : vt_sized (vt t) (cols t) (rows t);
  wf_history : ring_refines (history t) log;
  wf_modes : modes_wf (modes t);
  wf_utf8 : utf8_next (pending (utf8 t)) = StepIncomplete;
  wf_revision : 1 ≤ revision t ≤ u64_max;
}.

Lemma terminal_new_wf config : terminal_wf (terminal_new config) [].
Proof.
  split; simpl; rewrite ?/u64_max; try lia; try done.
  - apply vt_build_sized; lia.
  - apply ring_new_refines.
  - apply modes_new_wf.
Qed.

Lemma len_map {A B} (f : A → B) l : len (map f l) = len l.
Proof. by rewrite /len length_map. Qed.

(** Committing the lines that left the screen. *)
Lemma commit_lines t log ls :
  terminal_wf t log → len log + len ls < u64_max →
  ∃ h, push_lines (history t) (map trim_end ls) = Some h ∧
    ring_refines h (log ++ map trim_end ls).
Proof.
  intros W Hl. destruct (push_lines_refines (history t) log (map trim_end ls)) as (h & Hp & R & _).
  - apply W.
  - rewrite (rr_next _ _ (wf_history _ _ W)) len_map. lia.
  - by exists h.
Qed.

(** Feeding PTY output in any chunks never panics while line ids and
    revisions fit 64 bits; bytes that complete no character change nothing but
    the decoder; otherwise exactly the lines the emulator gave back, trimmed,
    are appended to the history log and the revision grows by one. *)
Theorem feed_correct t log input :
  terminal_wf t log → revision t < u64_max →
  (∀ u text v ls, push (utf8 t) input = Some (u, text) →
     vt_feed_str (vt t) text = Some (v, ls) → len log + len ls < u64_max) →
  ∃ t' u text, feed t input = Some (t', revision t') ∧
    push (utf8 t) input = Some (u, text) ∧ utf8 t' = u ∧
    cols t' = cols t ∧ rows t' = rows t ∧
    (text = [] ∧ vt t' = vt t ∧ history t' = history t ∧ modes t' = modes t ∧
       revision t' = revision t ∧ terminal_wf t' log
     ∨ text ≠ [] ∧ revision t' = revision t + 1 ∧ scan (modes t) text = Some (modes t') ∧
       ∃ ls, vt_feed_str (vt t) text = Some (vt t', ls) ∧
         terminal_wf t' (log ++ map trim_end ls)).
Proof.
  intros W Hrev Hids. pose proof W as [Hc Hr Hv Hh Hm Hu Hr1].
  rewrite /feed. rewrite push_decode in Hids |- *.
  pose proof (decode_tail (pending (utf8 t) ++ input)) as Ht.
  destruct (decode (pending (utf8 t) ++ input)) as [text p]; simpl in *.
  destruct (is_empty text) eqn:Ee.
  { apply is_empty_true in Ee as ->. eexists (Build_TerminalModel _ _ _ _ _ _ _), _, _. simpl. split; [done|].
    split_and!; try done. left. by split_and!. }
  destruct (scan_ok (modes t) text Hm) as (m & Hs & Wm).
  destruct (vt_feed_safe (vt t) (cols t) (rows t) text Hv Hc Hr) as (v & ls & Hf & Hv').
  destruct (commit_lines t log ls W) as (h & Hp & R); [by eapply Hids|].
  rewrite Hs /= Hf /= Hp /= wrap64_small; last lia.
  eexists (Build_TerminalModel _ _ _ _ _ _ _), _, _. simpl. split; [done|]. split_and!; try done. right.
  split_and!; try done; [by intros ->|]. exists ls. split; [done|]. split; simpl; try done. lia.
Qed.

(** [resize] on every branch. *)
Lemma resize_spec t log c r :
  terminal_wf t log → revision t < u64_max →
  (∀ v ls, vt_resize (vt t) (Z.max c MIN_COLS) (Z.max r MIN_ROWS) = Some (v, ls) →
     len log + len ls < u64_max) →
  ∃ t', resize t c r = Some (t', revision t') ∧
    size t' = (Z.max c MIN_COLS, Z.max r MIN_ROWS) ∧
    utf8 t' = utf8 t ∧ modes t' = modes t ∧
    (t' = t ∨ revision t' = revision t + 1 ∧ size t' ≠ size t ∧
       ∃ ls, vt_resize (vt t) (cols t') (rows t') = Some (vt t', ls) ∧
         terminal_wf t' (log ++ map trim_end ls)).
Proof.
  intros W Hrev Hids. pose proof W as [Hc Hr Hv Hh Hm Hu Hr1]. rewrite /resize /size.
  set (c' := Z.max c MIN_COLS) in *. set (r' := Z.max r MIN_ROWS) in *.
  destruct ((c' =? cols t) && (r' =? rows t)) eqn:E.
  { exists t. to_prop. split_and!; [done|congruence|done|done|by left]. }
  destruct (vt_resize_safe (vt t) (cols t) (rows t) c' r') as (v & ls & Hf & Hv'); [done|lia|lia|].
  destruct (commit_lines t log ls W) as (h & Hp & R); [by eapply Hids|].
  rewrite Hf /= Hp /= wrap64_small; last lia.
  eexists (Build_TerminalModel _ _ _ _ _ _ _). simpl. split; [done|]. split_and!; try done. right. split_and!; [done| |].
  { intros [= -> ->]. by rewrite !Z.eqb_refl in E. }
  exists ls. split; [done|]. split; simpl; try done; lia.
Qed.

(** A resize never panics, whatever dimensions a client sends: they are
    raised to the emulator's safe floor, unchanged dimensions change nothing,
    and otherwise the lines pushed off the screen are kept in the history and
    the revision grows by one. *)
Theorem resize_correct t log c r :
  terminal_wf t log → revision t < u64_max →
  (∀ v ls, vt_resize (vt t) (Z.max c MIN_COLS) (Z.max r MIN_ROWS) = Some (v, ls) →
     len log + len ls < u64_max) →
  ∃ t', resize t c r = Some (t', revision t') ∧
    size t' = (Z.max c MIN_COLS, Z.max r MIN_ROWS) ∧
    utf8 t' = utf8 t ∧ modes t' = modes t ∧
    (t' = t ∨ revision t' = revision t + 1 ∧ size t' ≠ size t ∧
       ∃ ls, vt_resize (vt t) (cols t') (rows t') = Some (vt t', ls) ∧
         terminal_wf t' (log ++ map trim_end ls)).
Proof. apply resize_spec. Qed.
End model.

(** A minimal emulator for witnesses: every fed text scrolls off at once. *)
Definition echo_vt : VtOps := {|
  Vt := Z * Z;
  vt_build c r := (c, r);
  vt_feed_str v s := if (fst v <? MIN_COLS) || (snd v <? MIN_ROWS) then None else Some (v, [s]);
  vt_resize _ c r := if (c <? MIN_COLS) || (r <? MIN_ROWS) then None else Some ((c, r), []);
  vt_dump _ := [];
  vt_view _ := [] |}.

#[export] Instance echo_vt_laws : VtLaws echo_vt.
Proof.
  refine {| vt_sized (v : @Vt echo_vt) c r := v = (c, r) |}; simpl.
  - done.
  - intros v c r s -> Hc Hr. rewrite (proj2 (Z.ltb_ge _ _) Hc) (proj2 (Z.ltb_ge _ _) Hr). eauto.
  - intros v c r c' r' _ Hc Hr.
    rewrite (proj2 (Z.ltb_ge _ _) Hc) (proj2 (Z.ltb_ge _ _) Hr). eauto.
Defined.

Lemma feed_correct_witness :
  let t := @terminal_new echo_vt terminal_config_default in
  ∃ t' u text, feed t (str_bytes (lit "ab")) = Some (t', revision t') ∧
    push (utf8 t) (str_bytes (lit "ab")) = Some (u, text) ∧ utf8 t' = u ∧
    cols t' = cols t ∧ rows t' = rows t ∧
    (text = [] ∧ vt t' = vt t ∧ history t' = history t ∧ modes t' = modes t ∧
       revision t' = revision t ∧ terminal_wf t' []
     ∨ text ≠ [] ∧ revision t' = revision t + 1 ∧ scan (modes t) text = Some (modes t') ∧
       ∃ ls, vt_feed_str (vt t) text = Some (vt t', ls) ∧
         terminal_wf t' ([] ++ map trim_end ls)).
Proof.
  apply (feed_correct (@terminal_new echo_vt terminal_config_default) []).
  - apply terminal_new_wf.
  - by vm_compute.
  - intros u text v ls Hp Hf. vm_compute in Hp. injection Hp as <- <-. vm_compute in Hf.
    injection Hf as <- <-. by vm_compute.
Defined.

Lemma resize_correct_witness :
  let t := @terminal_new echo_vt terminal_config_default in
  ∃ t', resize t 0 0 = Some (t', revision t') ∧ size t' = (2, 1) ∧
    utf8 t' = utf8 t ∧ modes t' = modes t ∧
    (t' = t ∨ revision t' = revision t + 1 ∧ size t' ≠ size t ∧
       ∃ ls, vt_resize (vt t) (cols t') (rows t') = Some (vt t', ls) ∧
         terminal_wf t' ([] ++ map trim_end ls)).
Proof.
  apply (resize_correct (@terminal_new echo_vt terminal_config_default) [] 0 0).
  - apply terminal_new_wf.
  - by vm_compute.
  - intros v ls Hf. vm_compute in Hf. injection Hf as <- <-. by vm_compute.
Defined.
