(* ===== verification/Launch.v ===== *)
(** * Launch construction

    [crates/launch/src/lib.rs]: the argv that starts a shell under hard
    resource limits and, when privilege drop is on, under another account. The
    host (file system, environment, account database) is a parameter. *)
From S2P Require Import Prelude.

Inductive LaunchError := LaunchForbidden | LaunchInternal (msg : str).

Record ShellResourceLimits := {
  max_processes : Z;
  max_open_files : Z;
  max_core_bytes : Z;
}.

Definition limits_default : ShellResourceLimits :=
  {| max_processes := 512; max_open_files := 1024; max_core_bytes := 0 |}.

Definition SETPRIV : str := lit "/usr/bin/setpriv".
Definition PRLIMIT : str := lit "/usr/bin/prlimit".
Definition ENV : str := lit "/usr/bin/env".
Definition DEFAULT_SHELL : str := lit "/bin/bash".

Record AccountIds := { uid : Z; gid : Z }.
Record Launch := { program : option str; args : list str }.

(** The host: [Path::exists], [env::var], [User::from_name] (with the error
    text), [geteuid], and [Debug] formatting of a string. *)
Record Host := {
  path_exists : str → bool;
  env_var : str → option str;
  user_from_name : str → result (option AccountIds) str;
  geteuid : Z;
  debug_str : str → str;
}.

(** [option.filter(|s| !s.is_empty())]. *)
Definition non_empty (o : option str) : option str :=
  match o with Some s => if is_empty s then None else Some s | None => None end.

Section launch.
Context (H : Host).

Definition locale_env : list str :=
  let kept := omap (λ key, (λ value, key ++ lit "=" ++ value) <$> env_var H key)
                   [lit "LANG"; lit "LC_ALL"; lit "LC_CTYPE"] in
  if is_empty kept then [lit "LANG=C.UTF-8"] else kept.

Definition setpriv_wrap (ids : AccountIds) (locale : list str) (prog : str) (argv : list str)
    : Launch :=
  let wrapped :=
    [lit "--reuid"; dec_str (uid ids); lit "--regid"; dec_str (gid ids); lit "--init-groups";
     lit "--inh-caps"; lit "-all"; lit "--ambient-caps"; lit "-all"; lit "--reset-env"; lit "--"] in
  let wrapped := if is_empty locale then wrapped else wrapped ++ [ENV] ++ locale in
  {| program := Some SETPRIV; args := wrapped ++ [prog] ++ argv |}.

(** [format!("{opt}{0}:{0}", n)]. *)
Definition limit_arg (opt : str) (n : Z) : str := opt ++ dec_str n ++ lit ":" ++ dec_str n.

(** [None] is the panic of [expect]. *)
Definition prlimit_wrap (limits : ShellResourceLimits) (launch : Launch) : option Launch :=
  prog ← program launch;
  Some {| program := Some PRLIMIT;
          args := [limit_arg (lit "--nproc=") (max_processes limits);
                   limit_arg (lit "--nofile=") (max_open_files limits);
                   limit_arg (lit "--core=") (max_core_bytes limits);
                   lit "--"; prog] ++ args launch |}.

Definition resolve_account_ids (name : str) : result AccountIds LaunchError :=
  match user_from_name H name with
  | Ok (Some user) => Ok user
  | Ok None => Err LaunchForbidden
  | Err e => Err (LaunchInternal (lit "account lookup failed: " ++ e))
  end.

(** The client's command, else [$SHELL], else the fallback shell. *)
Definition own_program (command : option str) : str :=
  match non_empty command with
  | Some c => c
  | None => default DEFAULT_SHELL (env_var H (lit "SHELL"))
  end.

Definition build_launch (privilege_drop : bool) (limits : ShellResourceLimits)
    (account command : option str) (argv : list str) : option (result Launch LaunchError) :=
  if (max_processes limits =? 0) || (max_open_files limits =? 0) then
    Some (Err (LaunchInternal (lit "shell process and open-file limits must be greater than zero")))
  else if negb (path_exists H PRLIMIT) then
    Some (Err (LaunchInternal (lit "shell resource limits require " ++ PRLIMIT ++
                               lit ", but it is not present")))
  else
    let direct :=
      Ok <$> prlimit_wrap limits {| program := Some (own_program command); args := argv |} in
    match non_empty account with
    | Some name =>
        if negb privilege_drop then direct
        else match resolve_account_ids name with
             | Err e => Some (Err e)
             | Ok ids =>
                 if uid ids =? geteuid H then direct
                 else if negb (path_exists H SETPRIV) then
                   Some (Err (LaunchInternal
                     (lit "privilege drop requested for account " ++ debug_str H name ++
                      lit " but " ++ SETPRIV ++ lit " is not present")))
                 else
                   let prog := default DEFAULT_SHELL (non_empty command) in
                   let locale := if path_exists H ENV then locale_env else [] in
                   Ok <$> prlimit_wrap limits (setpriv_wrap ids locale prog argv)
             end
    | None => direct
    end.

(** ** Properties *)

(** The argument list of a limited launch. *)
Definition limit_args (l : ShellResourceLimits) : list str :=
  [limit_arg (lit "--nproc=") (max_processes l); limit_arg (lit "--nofile=") (max_open_files l);
   limit_arg (lit "--core=") (max_core_bytes l); lit "--"].

Lemma build_launch_total privilege_drop limits account command argv :
  is_Some (build_launch privilege_drop limits account command argv).
Proof.
  rewrite /build_launch. repeat (case_match; try by eexists).
Qed.

(** With privilege drop and an account other than the process's own, the
    command runs under [setpriv] with that account's ids. *)
Lemma build_launch_account limits name command argv l ids :
  build_launch true limits (Some name) command argv = Some (Ok l) → name ≠ [] →
  user_from_name H name = Ok (Some ids) →
  ∃ rest, program l = Some PRLIMIT ∧ args l = limit_args limits ++ rest ∧
    (uid ids ≠ geteuid H → ∃ locale, rest =
       [SETPRIV; lit "--reuid"; dec_str (uid ids); lit "--regid"; dec_str (gid ids);
        lit "--init-groups"; lit "--inh-caps"; lit "-all"; lit "--ambient-caps";
        lit "-all"; lit "--reset-env"; lit "--"] ++ locale ++
       [default DEFAULT_SHELL (non_empty command)] ++ argv).
Proof.
  intros Hb Hn Hu. destruct name as [|c name]; [done|].
  rewrite /build_launch /resolve_account_ids /= Hu in Hb.
  destruct (_ || _); [done|]. destruct (path_exists H PRLIMIT); [|done]. cbn [negb] in Hb.
  destruct (uid ids =? geteuid H) eqn:E; to_prop.
  { injection Hb as <-. eexists. split_and!; [done|done|]. done. }
  destruct (path_exists H SETPRIV); [|done]. injection Hb as <-. eexists.
  split_and!; [done|done|]. intros _. cbn [setpriv_wrap args].
  set (locale := if path_exists H ENV then locale_env else []).
  exists (if is_empty locale then [] else ENV :: locale). by destruct (is_empty locale).
Qed.

(** Building a launch never panics and fails closed. Whatever is built
    runs [prlimit] with all three hard limits first; when privilege drop is on
    and an account was resolved, the account exists and the command is run as
    the daemon's own user only if the account has the daemon's own uid,
    otherwise under [setpriv] with exactly that account's uid and gid,
    initialised groups, cleared capabilities and a reset environment. *)
Theorem build_launch_fail_closed privilege_drop limits account command argv :
  ∃ r, build_launch privilege_drop limits account command argv = Some r ∧
  ∀ l, r = Ok l →
    program l = Some PRLIMIT ∧ 0 ≠ max_processes limits ∧ 0 ≠ max_open_files limits ∧
    ∃ rest, args l = limit_args limits ++ rest ∧
      (∀ name, non_empty account = Some name → privilege_drop = true →
        ∃ ids, user_from_name H name = Ok (Some ids) ∧
          (uid ids = geteuid H ∧ rest = own_program command :: argv ∨
           uid ids ≠ geteuid H ∧
           ∃ locale, rest =
             [SETPRIV; lit "--reuid"; dec_str (uid ids); lit "--regid"; dec_str (gid ids);
              lit "--init-groups"; lit "--inh-caps"; lit "-all"; lit "--ambient-caps";
              lit "-all"; lit "--reset-env"; lit "--"] ++ locale ++
             [default DEFAULT_SHELL (non_empty command)] ++ argv)) ∧
      (non_empty account = None ∨ privilege_drop = false → rest = own_program command :: argv).
Proof.
  rewrite /build_launch. destruct (_ || _) eqn:El; [by eexists|].
  destruct (path_exists H PRLIMIT); [|by eexists]. cbn [negb]. cbv zeta.
  destruct (non_empty account) as [name|].
  2: { eexists. split; [reflexivity|]. intros l [= <-]. split_and!; [done|lia|lia|].
       eexists. split; [reflexivity|]. naive_solver. }
  destruct privilege_drop; cbn [negb].
  2: { eexists. split; [reflexivity|]. intros l [= <-]. split_and!; [done|lia|lia|].
       eexists. split; [reflexivity|]. naive_solver. }
  rewrite /resolve_account_ids. destruct (user_from_name H name) as [[ids|]|e] eqn:Eu; [|by eexists..].
  destruct (uid ids =? geteuid H) eqn:Euid.
  { eexists. split; [reflexivity|]. intros l [= <-]. split_and!; [done|lia|lia|].
    eexists. split; [reflexivity|]. split; [|naive_solver].
    intros ? [= <-] _. exists ids. split; [done|]. left. split; [lia|done]. }
  destruct (path_exists H SETPRIV); [|by eexists]. cbn [negb].
  eexists. split; [reflexivity|]. intros l [= <-]. split_and!; [done|lia|lia|].
  eexists. split; [reflexivity|]. split; [|naive_solver].
  intros ? [= <-] _. exists ids. split; [done|]. right. split; [lia|].
  set (locale := if path_exists H ENV then locale_env else []).
  exists (if is_empty locale then [] else ENV :: locale). cbn [setpriv_wrap args].
  destruct (is_empty locale); [done|]. done.
Qed.
End launch.
