(* ===== verification/SpawnerWire.v ===== *)
(** * The spawner protocol

    [crates/spawner/src/lib.rs], the messages and their framing: the daemon and
    the privileged helper exchange JSON messages over a sequenced-packet socket,
    one datagram each, some with a file descriptor. [serde_json] is a parameter;
    system calls fail as the socket's record says. *)
From S2P Require Import Prelude Launch.

Definition MAX_MESSAGE_BYTES : Z := 64 * 1024.
(** [hf_spawner::UPLOAD_CHUNK_BYTES_MAX]. *)
Definition SPAWNER_CHUNK_BYTES_MAX : Z := 8 * 1024.
Definition LOST_SPAWNER_EXIT_CODE : Z := 255.

Record WireLimits := { wl_max_processes : Z; wl_max_open_files : Z; wl_max_core_bytes : Z }.

Definition to_wire_limits (l : ShellResourceLimits) : WireLimits := {|
  wl_max_processes := max_processes l; wl_max_open_files := max_open_files l;
  wl_max_core_bytes := max_core_bytes l |}.

Definition from_wire_limits (l : WireLimits) : ShellResourceLimits := {|
  max_processes := wl_max_processes l; max_open_files := wl_max_open_files l;
  max_core_bytes := wl_max_core_bytes l |}.

Record SpawnRequest := {
  sr_account : str; sr_command : option str; sr_args : list str; sr_cols : Z; sr_rows : Z;
  sr_limits : WireLimits }.

Record ReceiveUploadRequest := {
  rq_account : str; rq_original_name : str; rq_total_bytes : Z; rq_sha256 : bytes;
  rq_maximum_chunk_bytes : Z }.

Inductive InitialRequest := SpawnShell (q : SpawnRequest) | ReceiveUpload (q : ReceiveUploadRequest).

Inductive SpawnReply := Spawned (pid : Z) | SpawnRefused (message : str) (forbidden : bool).

Inductive DaemonMsg := Kill.

Inductive SpawnerMsg := MsgExited (success : bool) (exit_code : Z).

Inductive UploadDaemonMsg :=
  | UdChunk (upload_id : bytes) (offset : Z) (data : bytes)
  | UdFinish (upload_id : bytes)
  | UdAbort (upload_id : bytes).

Inductive UploadReply :=
  | UrReady (upload_id : bytes) (maximum_chunk_bytes : Z)
  | UrFinished (upload_id : bytes) (remote_path : str) (bytes_written : Z) (sha256 : bytes)
  | UrError (message : str) (forbidden : bool).

Inductive SpawnError :=
  | SpForbidden (message : str)
  | SpSpawner (message : str)
  | SpConnect (path source : str)
  | SpProtocol (message : str)
  | SpIo (text : str).

Definition spawn_error_text (e : SpawnError) : str :=
  match e with
  | SpForbidden m => lit "spawner refused the request: " ++ m
  | SpSpawner m => lit "spawner error: " ++ m
  | SpConnect path source => lit "spawner socket " ++ path ++ lit ": " ++ source
  | SpProtocol m => lit "spawner protocol error: " ++ m
  | SpIo text => text
  end.

(** ** JSON *)
Class Json (T : Type) := {
  to_vec : T → result bytes str;
  from_slice : bytes → result T str }.

(** A value reads back from its own encoding, which is not empty. *)
Class JsonRoundtrip (T : Type) `{Json T} : Prop :=
  json_roundtrip (m : T) b : to_vec m = Ok b → from_slice b = Ok m ∧ b ≠ [].

(** The texts of [nix::Error]. *)
Class ErrnoText := errno_text : Z → str.

(** ** Sockets *)
Definition Fd : Type := Z.
Record Packet := { pk_data : bytes; pk_fds : list Fd }.

(** One end of a connection: what [recvmsg] will deliver (or fail with), whether
    the peer holds its end, what was sent, and the errors of coming sends. *)
Record Sock := {
  inbox : list (result Packet Z);
  peer_open : bool;
  outbox : list Packet;
  send_errors : list (option Z);
}.

Definition EPIPE : Z := 32.
Definition EAGAIN : Z := 11.

Definition sendmsg (s : Sock) (p : Packet) : Sock * result unit Z :=
  let rest := tail (send_errors s) in
  match head (send_errors s) with
  | Some (Some e) =>
      ({| inbox := inbox s; peer_open := peer_open s; outbox := outbox s; send_errors := rest |}, Err e)
  | _ =>
      if peer_open s
      then ({| inbox := inbox s; peer_open := true; outbox := outbox s ++ [p]; send_errors := rest |}, Ok ())
      else ({| inbox := inbox s; peer_open := false; outbox := outbox s; send_errors := rest |}, Err EPIPE)
  end.

(** [recv_raw]: [None] while it waits. A packet is cut at the buffer, an empty
    one reads as the end, and only its first descriptor is kept. *)
Definition recv_raw (s : Sock) (dontwait : bool)
    : option (Sock * result (option (bytes * option Fd)) Z) :=
  match inbox s with
  | r :: rest =>
      let s := {| inbox := rest; peer_open := peer_open s; outbox := outbox s;
                  send_errors := send_errors s |} in
      Some (s, let? p := r in
               let data := take (Z.to_nat MAX_MESSAGE_BYTES) (pk_data p) in
               Ok (if is_empty data then None else Some (data, head (pk_fds p))))
  | [] =>
      if negb (peer_open s) then Some (s, Ok None)
      else if dontwait then Some (s, Err EAGAIN)
      else None
  end.

Inductive PeerState := PeerOpen | PeerClosed.

Section messages.
Context {E : ErrnoText}.

Definition send_message {T} `{Json T} (s : Sock) (msg : T) (fd : option Fd)
    : Sock * result unit SpawnError :=
  match to_vec msg with
  | Err e => (s, Err (SpProtocol (lit "encode: " ++ e)))
  | Ok bytes =>
      if MAX_MESSAGE_BYTES <? len bytes
      then (s, Err (SpProtocol (lit "message of " ++ dec_str (len bytes) ++
                                lit " bytes exceeds the 65536-byte limit")))
      else
        let '(s, r) := sendmsg s {| pk_data := bytes; pk_fds := option_list fd |} in
        (s, map_err (λ e, SpProtocol (lit "sendmsg: " ++ errno_text e)) r)
  end.

Definition recv_message {T} `{Json T} (s : Sock)
    : option (Sock * result (option (T * option Fd)) SpawnError) :=
  '(s, r) ← recv_raw s false;
  Some (s, match r with
           | Ok None => Ok None
           | Ok (Some (bytes, fd)) =>
               let? msg := map_err (λ e, SpProtocol (lit "decode: " ++ e)) (from_slice bytes) in
               Ok (Some (msg, fd))
           | Err e => Err (SpProtocol (lit "recvmsg: " ++ errno_text e))
           end).

(** It does not wait, so it is total. *)
Definition recv_message_nonblocking {T} `{Json T} (s : Sock)
    : Sock * result (PeerState * option T) SpawnError :=
  match recv_raw s true with
  | None => (s, Ok (PeerOpen, None))
  | Some (s, r) =>
      (s, match r with
          | Ok None => Ok (PeerClosed, None)
          | Ok (Some (bytes, _)) =>
              let? msg := map_err (λ e, SpProtocol (lit "decode: " ++ e)) (from_slice bytes) in
              Ok (PeerOpen, Some msg)
          | Err e => if e =? EAGAIN then Ok (PeerOpen, None)
                     else Err (SpProtocol (lit "recvmsg: " ++ errno_text e))
          end)
  end.

(** ** Lemmas *)

(** A packet of a message within the limit reads back. *)
Definition packet_of (b : bytes) (fd : option Fd) : Packet := {| pk_data := b; pk_fds := option_list fd |}.

Definition json_fits {T} `{Json T} (m : T) (b : bytes) : Prop :=
  to_vec m = Ok b ∧ len b ≤ MAX_MESSAGE_BYTES.

Lemma send_message_fits {T} `{Json T} (s : Sock) (m : T) b fd :
  json_fits m b →
  send_message s m fd =
    let '(s, r) := sendmsg s (packet_of b fd) in
    (s, map_err (λ e, SpProtocol (lit "sendmsg: " ++ errno_text e)) r).
Proof. intros [Hb Hl]. rewrite /send_message Hb (proj2 (Z.ltb_ge _ _)) //. Qed.

Lemma send_message_open {T} `{Json T} (s : Sock) (m : T) b fd :
  json_fits m b → peer_open s = true → send_errors s = [] →
  send_message s m fd =
    ({| inbox := inbox s; peer_open := true; outbox := outbox s ++ [packet_of b fd];
        send_errors := [] |}, Ok ()).
Proof. intros Hf Ho He. rewrite (send_message_fits _ _ _ _ Hf) /sendmsg He Ho //. Qed.

Lemma recv_message_packet {T} `{Json T, !JsonRoundtrip T} (s : Sock) (m : T) b fd rest :
  json_fits m b → inbox s = Ok (packet_of b fd) :: rest →
  recv_message s =
    Some ({| inbox := rest; peer_open := peer_open s; outbox := outbox s;
             send_errors := send_errors s |}, Ok (Some (m, fd))).
Proof.
  intros [Hb Hl] Hi. destruct (json_roundtrip _ _ Hb) as [Hr Hn].
  rewrite /recv_message /recv_raw Hi. cbn [mbind option_bind pk_data pk_fds packet_of].
  rewrite take_ge; last by (rewrite /len in Hl; lia). destruct b as [|c b]; [done|]. cbn [is_empty].
  rewrite Hr. by destruct fd.
Qed.
End messages.
