(* ===== verification/SessionCore.v ===== *)
(** * Shell and attachment lifecycle

    [crates/session-core/src/{lib,policy,token}.rs]: the account policy, resume
    tokens and the [ShellManager]. One public method is one transition of the
    manager's state (each runs under the manager's or one shell's lock), with
    the result it returns; [terminate], which waits for the pump thread, is the
    two transitions before and after the wait. The pump thread's handling of
    one output chunk and of end of file are transitions of their own.

    PTYs, the spawner, the emulator, SHA-256, the clock and the random source
    are parameters: the first four are the classes [PtyOps], [VtOps] and
    [HashOps], the last two are arguments of the operations that use them. A
    panic inside the terminal model is [None]. *)
From S2P Require Import Prelude Ids History Utf8 TerminalModel Launch SpawnerWire.

(** ** Account policy ([policy.rs]) *)
Inductive Denied := denied.

(** [trait AccessPolicy]. *)
Record AccessPolicy := { resolve : str → option str → result (option str) Denied }.

Definition AllowAll : AccessPolicy := {| resolve _ requested := Ok (non_empty requested) |}.

Definition StaticPolicy (allowed : gmap str (list str)) : AccessPolicy := {|
  resolve user requested :=
    let? accounts := ok_or (allowed !! user) denied in
    match non_empty requested with
    | None => Ok (head accounts)
    | Some req => if bool_decide (req ∈ accounts) then Ok (Some req) else Err denied
    end |}.

(** ** Parameters *)
Record ExitSummary := { exit_success : bool; exit_code : Z }.

(** [hf_pty::PtyProcess] and [hf_spawner::spawn_shell]. An operation on
    [&mut self] returns the new handle whether it succeeds or not. *)
Class PtyOps := {
  Pty : Type;
  PtyError : Type;
  RemotePty : Type;
  pty_spawn : option str → list str → Z → Z → result Pty PtyError;
  spawn_shell : str → SpawnRequest → result RemotePty SpawnError;
  pty_adopt : RemotePty → result Pty PtyError;
  pty_take_output : Pty → Pty * bool;
  pty_write : Pty → bytes → Pty * result unit PtyError;
  pty_resize : Pty → Z → Z → Pty * result unit PtyError;
  pty_kill : Pty → Pty * result unit PtyError;
  pty_wait : Pty → result ExitSummary PtyError;
}.

(** ** Resume tokens ([token.rs]) *)
Definition ResumeToken : Type := array 32.
Definition token_from_wire (l : bytes) : option ResumeToken := array_of 32 l.
Definition token_to_wire (t : ResumeToken) : bytes := array_bytes t.

(** ** Bounded event channels ([std::sync::mpsc::sync_channel]) *)
Inductive AttachmentEvent := Output (data : bytes) | Exited_ (exit : ExitSummary).

(** The buffer both ends share, and whether the receiver still exists. A
    capacity of zero is a rendezvous channel, which [try_send] finds full. *)
Record Channel := {
  queue : list AttachmentEvent;
  capacity : Z;
  rx_alive : bool;
}.

Inductive TrySendError := Full | Disconnected.

Definition try_send (ch : Channel) (ev : AttachmentEvent) : result Channel TrySendError :=
  if negb (rx_alive ch) then Err Disconnected
  else if capacity ch <=? len (queue ch) then Err Full
  else Ok {| queue := queue ch ++ [ev]; capacity := capacity ch; rx_alive := true |}.

Inductive ShellState := Running | Terminating | Exited.
#[export] Instance shell_state_eq_dec : EqDecision ShellState.
Proof. solve_decision. Defined.

Definition SUPERSEDED_TOKEN_HISTORY : Z := 64.

Definition clamp_dims (cols rows : Z) : Z * Z := (Z.max cols MIN_COLS, Z.max rows MIN_ROWS).

Record SessionCoreConfig := {
  max_shells : Z;
  max_shells_per_user : Z;
  max_attachments_per_shell : Z;
  max_queued_chunks : Z;
  scrollback_max_lines : Z;
  scrollback_max_bytes : Z;
  privilege_drop : bool;
  shell_resource_limits : ShellResourceLimits;
  spawner_socket : option str;
  idle_shell_ttl : option Z;
}.

Definition session_config_default : SessionCoreConfig := {|
  max_shells := 16; max_shells_per_user := 8; max_attachments_per_shell := 4;
  max_queued_chunks := 128;
  scrollback_max_lines := max_history_lines terminal_config_default;
  scrollback_max_bytes := max_history_bytes terminal_config_default;
  privilege_drop := false; shell_resource_limits := limits_default;
  spawner_socket := None; idle_shell_ttl := None |}.

Record OpenShellRequest := {
  req_user : str;
  requested_account : option str;
  req_command : option str;
  req_args : list str;
  req_cols : Z;
  req_rows : Z;
  idempotency_key : array 16;
}.

Section session.
Context {V : VtOps} {P : PtyOps} {S : HashOps}.

Inductive SessionError :=
  | ShellNotFound
  | NotRunning
  | LimitExceeded (what : str)
  | Forbidden
  | InvalidToken
  | TokenReplayed
  | PtyFailed (e : PtyError)
  | Internal (msg : str).

(** The two [From] conversions. *)
Definition from_spawn_error (e : SpawnError) : SessionError :=
  match e with SpForbidden _ => Forbidden | other => Internal (spawn_error_text other) end.

Definition from_launch_error (e : LaunchError) : SessionError :=
  match e with LaunchForbidden => Forbidden | LaunchInternal msg => Internal msg end.

Definition token_hash_of (t : ResumeToken) : array 32 := sha256 (array_bytes t).

(** [attachments] holds the channels whose sender the shell owns; [orphans] the
    channels whose sender was dropped and whose receiver may still drain. *)
Record Runtime := {
  state : ShellState;
  model : TerminalModel;
  pty : option Pty;
  attachments : gmap Z Channel;
  orphans : gmap Z Channel;
  next_attachment_id : Z;
  token_hash : array 32;
  superseded_token_hashes : list (array 32);
  exit : option ExitSummary;
  last_attached_at_ms : Z;
}.

Record ShellEntry := {
  entry_id : ShellId;
  created_at_ms : Z;
  owner : str;
  account : option str;
  runtime : Runtime;
}.

(** [ShellManager], with its [Inner]. *)
Record ShellManager := {
  config : SessionCoreConfig;
  policy : AccessPolicy;
  shells : gmap ShellId ShellEntry;
  idempotency : gmap (str * array 16) ShellId;
}.

Definition with_policy (config : SessionCoreConfig) (policy : AccessPolicy) : ShellManager :=
  {| config := config; policy := policy; shells := ∅; idempotency := ∅ |}.

Definition manager_new (config : SessionCoreConfig) : ShellManager := with_policy config AllowAll.

(** ** Field updates *)
Definition set_runtime (e : ShellEntry) (rt : Runtime) : ShellEntry := {|
  entry_id := entry_id e; created_at_ms := created_at_ms e; owner := owner e;
  account := account e; runtime := rt |}.

Definition set_shells (m : ShellManager) (s : gmap ShellId ShellEntry) : ShellManager := {|
  config := config m; policy := policy m; shells := s; idempotency := idempotency m |}.

Definition put_runtime (m : ShellManager) (id : ShellId) (e : ShellEntry) (rt : Runtime)
    : ShellManager :=
  set_shells m (<[id := set_runtime e rt]> (shells m)).

Definition set_state (rt : Runtime) (s : ShellState) : Runtime := {|
  state := s; model := model rt; pty := pty rt; attachments := attachments rt;
  orphans := orphans rt; next_attachment_id := next_attachment_id rt;
  token_hash := token_hash rt; superseded_token_hashes := superseded_token_hashes rt;
  exit := exit rt; last_attached_at_ms := last_attached_at_ms rt |}.

Definition set_model (rt : Runtime) (t : TerminalModel) : Runtime := {|
  state := state rt; model := t; pty := pty rt; attachments := attachments rt;
  orphans := orphans rt; next_attachment_id := next_attachment_id rt;
  token_hash := token_hash rt; superseded_token_hashes := superseded_token_hashes rt;
  exit := exit rt; last_attached_at_ms := last_attached_at_ms rt |}.

Definition set_pty (rt : Runtime) (p : option Pty) : Runtime := {|
  state := state rt; model := model rt; pty := p; attachments := attachments rt;
  orphans := orphans rt; next_attachment_id := next_attachment_id rt;
  token_hash := token_hash rt; superseded_token_hashes := superseded_token_hashes rt;
  exit := exit rt; last_attached_at_ms := last_attached_at_ms rt |}.

Definition set_channels (rt : Runtime) (att orph : gmap Z Channel) : Runtime := {|
  state := state rt; model := model rt; pty := pty rt; attachments := att;
  orphans := orph; next_attachment_id := next_attachment_id rt;
  token_hash := token_hash rt; superseded_token_hashes := superseded_token_hashes rt;
  exit := exit rt; last_attached_at_ms := last_attached_at_ms rt |}.

(** ** Token rotation *)
Definition rotate_token (rt : Runtime) (token : ResumeToken) : Runtime := {|
  state := state rt; model := model rt; pty := pty rt; attachments := attachments rt;
  orphans := orphans rt; next_attachment_id := next_attachment_id rt;
  token_hash := token_hash_of token;
  superseded_token_hashes :=
    (if len (superseded_token_hashes rt) =? SUPERSEDED_TOKEN_HISTORY
     then tail (superseded_token_hashes rt) else superseded_token_hashes rt) ++ [token_hash rt];
  exit := exit rt; last_attached_at_ms := last_attached_at_ms rt |}.

(** ** Opening a shell *)
Record OpenedShell := {
  opened_id : ShellId;
  opened_token : ResumeToken;
  reused : bool;
}.

(** What the environment supplies to one [open_shell]: the random token and
    id, the time, and whether the pump thread could be spawned. *)
Record Fresh := {
  fresh_token : ResumeToken;
  fresh_id : ShellId;
  fresh_now : Z;
  thread_spawn : result unit str;
}.

Definition spawner_target (c : SessionCoreConfig) (account : option str) : option (str * str) :=
  socket ← spawner_socket c;
  if negb (privilege_drop c) then None
  else account ← non_empty account; Some (socket, account).

Definition live (e : ShellEntry) : bool := negb (bool_decide (state (runtime e) = Exited)).

Definition live_shells (m : ShellManager) : list ShellEntry :=
  filter (λ e, live e = true) (map snd (map_to_list (shells m))).

(** The two ways to a PTY. [None] is a panic of [build_launch], which does not
    happen. *)
Definition open_pty (H : Host) (c : SessionCoreConfig) (account : option str)
    (req : OpenShellRequest) (cols rows : Z) : option (result Pty SessionError) :=
  match spawner_target c account with
  | Some (socket, acct) =>
      Some (let? remote := map_err from_spawn_error (spawn_shell socket
              {| sr_account := acct; sr_command := non_empty (req_command req);
                 sr_args := req_args req; sr_cols := cols; sr_rows := rows;
                 sr_limits := to_wire_limits (shell_resource_limits c) |}) in
            map_err PtyFailed (pty_adopt remote))
  | None =>
      r ← build_launch H (privilege_drop c) (shell_resource_limits c) account
            (req_command req) (req_args req);
      Some (let? launch := map_err from_launch_error r in
            map_err PtyFailed (pty_spawn (program launch) (args launch) cols rows))
  end.

(** The entry of a new shell. *)
Definition new_entry (c : SessionCoreConfig) (fr : Fresh) (req : OpenShellRequest)
    (account : option str) (p : Pty) (cols rows : Z) : ShellEntry := {|
  entry_id := fresh_id fr; created_at_ms := fresh_now fr; owner := req_user req;
  account := account;
  runtime := {|
    state := Running;
    model := terminal_new {| cfg_cols := cols; cfg_rows := rows;
                             max_history_lines := scrollback_max_lines c;
                             max_history_bytes := scrollback_max_bytes c |};
    pty := Some p; attachments := ∅; orphans := ∅; next_attachment_id := 1;
    token_hash := token_hash_of (fresh_token fr); superseded_token_hashes := [];
    exit := None; last_attached_at_ms := 0 |} |}.

(** The limit checks of [open_shell]. *)
Definition check_limits (m : ShellManager) (user : str) : result unit SessionError :=
  let lives := live_shells m in
  if max_shells (config m) <=? len lives then Err (LimitExceeded (lit "max_shells"))
  else if (0 <? max_shells_per_user (config m)) &&
          (max_shells_per_user (config m) <=? len (filter (λ e, owner e = user) lives))
  then Err (LimitExceeded (lit "max_shells_per_user"))
  else Ok ().

(** Creation of a new shell, after the idempotency lookup. *)
Definition create_shell (H : Host) (m : ShellManager) (req : OpenShellRequest) (fr : Fresh)
    : option (ShellManager * result OpenedShell SessionError) :=
  match resolve (policy m) (req_user req) (requested_account req) with
  | Err _ => Some (m, Err Forbidden)
  | Ok account =>
      match check_limits m (req_user req) with
      | Err e => Some (m, Err e)
      | Ok _ =>
          let '(cols, rows) := clamp_dims (if req_cols req =? 0 then 80 else req_cols req)
                                          (if req_rows req =? 0 then 24 else req_rows req) in
          r ← open_pty H (config m) account req cols rows;
          Some match r with
               | Err e => (m, Err e)
               | Ok p =>
                   let '(p, has_output) := pty_take_output p in
                   if negb has_output then (m, Err (Internal (lit "PTY output already taken")))
                   else match thread_spawn fr with
                        | Err e => (m, Err (Internal (lit "spawn pump thread: " ++ e)))
                        | Ok _ =>
                            ({| config := config m; policy := policy m;
                                shells := <[fresh_id fr :=
                                  new_entry (config m) fr req account p cols rows]> (shells m);
                                idempotency := <[(req_user req, idempotency_key req) :=
                                  fresh_id fr]> (idempotency m) |},
                             Ok {| opened_id := fresh_id fr; opened_token := fresh_token fr;
                                   reused := false |})
                        end
               end
      end
  end.

Definition open_shell (H : Host) (m : ShellManager) (req : OpenShellRequest) (fr : Fresh)
    : option (ShellManager * result OpenedShell SessionError) :=
  match existing ← idempotency m !! (req_user req, idempotency_key req);
        entry ← shells m !! existing; Some (existing, entry) with
  | Some (existing, entry) =>
      Some (put_runtime m existing entry (rotate_token (runtime entry) (fresh_token fr)),
            Ok {| opened_id := entry_id entry; opened_token := fresh_token fr; reused := true |})
  | None => create_shell H m req fr
  end.

(** ** Attaching *)
Definition entry (m : ShellManager) (id : ShellId) : result ShellEntry SessionError :=
  ok_or (shells m !! id) ShellNotFound.

Record Attachment := {
  attachment_id : Z;
  att_shell_id : ShellId;
  att_snapshot : bytes;
  screen_revision : Z;
  rotated_resume_token : ResumeToken;
  oldest_history_line_id : Z;
  newest_history_line_id : Z;
}.

(** The resize of [attach_runtime]: the PTY first, when there is one, then the
    model. The handle a failed PTY resize leaves behind is kept. *)
Definition attach_resize (rt : Runtime) (cols rows : Z) : option (Runtime * result unit SessionError) :=
  if negb (cols =? 0) && negb (rows =? 0) then
    let '(cols, rows) := clamp_dims cols rows in
    if bool_decide (size (model rt) = (cols, rows)) then Some (rt, Ok ())
    else
      let '(rt, r) := match pty rt with
                      | Some p => let '(p, r) := pty_resize p cols rows in (set_pty rt (Some p), r)
                      | None => (rt, Ok ())
                      end in
      match r with
      | Err e => Some (rt, Err (PtyFailed e))
      | Ok _ => '(t, _) ← resize (model rt) cols rows; Some (set_model rt t, Ok ())
      end
  else Some (rt, Ok ()).

(** A fresh attachment: token rotated, time recorded, channel created. *)
Definition add_attachment (c : SessionCoreConfig) (rt : Runtime) (token : ResumeToken) (now : Z)
    : Runtime :=
  let rt := rotate_token rt token in
  {| state := state rt; model := model rt; pty := pty rt;
     attachments := <[next_attachment_id rt :=
       {| queue := []; capacity := max_queued_chunks c; rx_alive := true |}]> (attachments rt);
     orphans := orphans rt; next_attachment_id := wrap64 (next_attachment_id rt + 1);
     token_hash := token_hash rt; superseded_token_hashes := superseded_token_hashes rt;
     exit := exit rt; last_attached_at_ms := now |}.

Definition attach_runtime (c : SessionCoreConfig) (id : ShellId) (rt : Runtime) (cols rows : Z)
    (token : ResumeToken) (now : Z) : option (Runtime * result Attachment SessionError) :=
  if negb (bool_decide (state rt = Running)) then Some (rt, Err NotRunning)
  else if max_attachments_per_shell c <=? Z.of_nat (base.size (attachments rt))
  then Some (rt, Err (LimitExceeded (lit "max_attachments_per_shell")))
  else
    '(rt, r) ← attach_resize rt cols rows;
    match r with
    | Err e => Some (rt, Err e)
    | Ok _ =>
        let rt' := add_attachment c rt token now in
        Some (rt', Ok {| attachment_id := next_attachment_id rt; att_shell_id := id;
                         att_snapshot := snapshot (model rt');
                         screen_revision := revision (model rt');
                         rotated_resume_token := token;
                         oldest_history_line_id := oldest_line_id (model rt');
                         newest_history_line_id := newest_line_id (model rt') |})
    end.

(** [attach]: [presented] is the client's token, [token] the fresh random one. *)
Definition attach (m : ShellManager) (user : str) (id : ShellId) (presented : ResumeToken)
    (cols rows : Z) (token : ResumeToken) (now : Z)
    : option (ShellManager * result Attachment SessionError) :=
  match entry m id with
  | Err e => Some (m, Err e)
  | Ok e =>
      if negb (bool_decide (owner e = user)) then Some (m, Err ShellNotFound)
      else
        let rt := runtime e in
        if negb (bool_decide (token_hash rt = token_hash_of presented)) then
          if bool_decide (token_hash_of presented ∈ superseded_token_hashes rt)
          then Some (m, Err TokenReplayed) else Some (m, Err InvalidToken)
        else
          '(rt, r) ← attach_runtime (config m) id rt cols rows token now;
          Some (put_runtime m id e rt, r)
  end.

Definition attach_authorized (m : ShellManager) (user : str) (id : ShellId)
    (cols rows : Z) (token : ResumeToken) (now : Z)
    : option (ShellManager * result Attachment SessionError) :=
  match entry m id with
  | Err e => Some (m, Err e)
  | Ok e =>
      if negb (bool_decide (owner e = user)) then Some (m, Err ShellNotFound)
      else
        '(rt, r) ← attach_runtime (config m) id (runtime e) cols rows token now;
        Some (put_runtime m id e rt, r)
  end.

(** Dropping the sender of one attachment, when it is there. *)
Definition drop_sender (rt : Runtime) (aid : Z) : Runtime :=
  match attachments rt !! aid with
  | Some ch => set_channels rt (delete aid (attachments rt)) (<[aid := ch]> (orphans rt))
  | None => rt
  end.

Definition detach (m : ShellManager) (id : ShellId) (aid : Z)
    : ShellManager * result unit SessionError :=
  match entry m id with
  | Err e => (m, Err e)
  | Ok e => (put_runtime m id e (drop_sender (runtime e) aid), Ok ())
  end.

Definition write_input (m : ShellManager) (id : ShellId) (data : bytes)
    : ShellManager * result unit SessionError :=
  match entry m id with
  | Err e => (m, Err e)
  | Ok e =>
      match pty (runtime e) with
      | Some p =>
          let '(p, r) := pty_write p data in
          (put_runtime m id e (set_pty (runtime e) (Some p)), map_err PtyFailed r)
      | None => (m, Err NotRunning)
      end
  end.

Definition resize_shell (m : ShellManager) (id : ShellId) (cols rows : Z)
    : option (ShellManager * result unit SessionError) :=
  if (cols =? 0) || (rows =? 0) then Some (m, Ok ())
  else
    let '(cols, rows) := clamp_dims cols rows in
    match entry m id with
    | Err e => Some (m, Err e)
    | Ok e =>
        match pty (runtime e) with
        | Some p =>
            let '(p, r) := pty_resize p cols rows in
            let rt := set_pty (runtime e) (Some p) in
            match r with
            | Err err => Some (put_runtime m id e rt, Err (PtyFailed err))
            | Ok _ =>
                '(t, _) ← resize (model rt) cols rows;
                Some (put_runtime m id e (set_model rt t), Ok ())
            end
        | None => Some (m, Err NotRunning)
        end
    end.

(** ** Termination

    [terminate] up to the condition-variable wait: the recorded exit, an
    error, or [Wait]. *)
Inductive TerminateStart := Done (r : result ExitSummary SessionError) | Wait.

Definition terminate_start (m : ShellManager) (id : ShellId) : ShellManager * TerminateStart :=
  match entry m id with
  | Err e => (m, Done (Err e))
  | Ok e =>
      match exit (runtime e) with
      | Some x => (m, Done (Ok x))
      | None =>
          let rt := set_state (runtime e) Terminating in
          match pty rt with
          | Some p =>
              let '(p, r) := pty_kill p in
              let m' := put_runtime m id e (set_pty rt (Some p)) in
              match r with
              | Err err => (m', Done (Err (PtyFailed err)))
              | Ok _ => (m', Wait)
              end
          | None => (put_runtime m id e rt, Wait)
          end
      end
  end.

(** [terminate] after the wait; the waiter still holds the entry, so the shell
    is looked up in the state it has then. [None]: nothing to resume yet (not
    timed out and no exit recorded), or the panic of [expect]. *)
Definition terminate_finish (m : ShellManager) (id : ShellId) (timed_out : bool)
    : option (ShellManager * result ExitSummary SessionError) :=
  e ← shells m !! id;
  if timed_out then
    if bool_decide (exit (runtime e) = None)
    then Some (m, Err (Internal (lit "shell did not exit after kill")))
    else None
  else
    x ← exit (runtime e);
    Some (put_runtime m id e (set_state (runtime e) Exited), Ok x).

(** ** Idle reaping *)
Definition idle_anchor_ms (e : ShellEntry) : Z :=
  if 0 <? last_attached_at_ms (runtime e) then last_attached_at_ms (runtime e)
  else created_at_ms e.

(** [now_ms().saturating_sub(idle_ttl.as_millis() as i64)], the cast wrapping. *)
Definition as_i64 (z : Z) : Z := let w := wrap64 z in if w <=? i64_max then w else w - 2 ^ 64.
Definition reap_cutoff (now idle_ttl_ms : Z) : Z := sat_i64 (now - as_i64 idle_ttl_ms).

Definition expired (cutoff : Z) (e : ShellEntry) : bool :=
  bool_decide (state (runtime e) = Running) && bool_decide (attachments (runtime e) = ∅) &&
  (idle_anchor_ms e <=? cutoff).

(** The candidates [reap_idle] collects under the manager lock. *)
Definition reap_candidates (m : ShellManager) (cutoff : Z) : list ShellId :=
  map (entry_id ∘ snd) (filter (λ p, expired cutoff p.2 = true) (map_to_list (shells m))).

(** One candidate: check again, then start the termination. *)
Definition reap_one (m : ShellManager) (cutoff : Z) (id : ShellId)
    : option (ShellManager * TerminateStart) :=
  e ← shells m !! id;
  if expired cutoff e then Some (terminate_start m id) else None.

(** ** Reads *)
Definition history_of (m : ShellManager) (id : ShellId) (before ml mb : Z)
    : option (result HistoryRange SessionError) :=
  match entry m id with
  | Err e => Some (Err e)
  | Ok e => Ok <$> history_range (model (runtime e)) before ml mb
  end.

Definition history_bounds (m : ShellManager) (id : ShellId) : result (Z * Z) SessionError :=
  let? e := entry m id in
  Ok (oldest_line_id (model (runtime e)), newest_line_id (model (runtime e))).

Record ShellInfo := {
  info_id : ShellId;
  info_state : ShellState;
  info_exit : option ExitSummary;
  info_created_at_ms : Z;
  info_last_attached_at_ms : Z;
  attachment_count : Z;
  info_owner : str;
  info_account : option str;
}.

Definition info_of (e : ShellEntry) : ShellInfo := {|
  info_id := entry_id e; info_state := state (runtime e); info_exit := exit (runtime e);
  info_created_at_ms := created_at_ms e;
  info_last_attached_at_ms := last_attached_at_ms (runtime e);
  attachment_count := Z.of_nat (base.size (attachments (runtime e)));
  info_owner := owner e; info_account := account e |}.

Definition shell_info (m : ShellManager) (id : ShellId) : result ShellInfo SessionError :=
  let? e := entry m id in Ok (info_of e).

(** The order [sort_by_key(|i| i.created_at_ms)] establishes. *)
Definition created_le (a b : ShellInfo) : Prop := info_created_at_ms a ≤ info_created_at_ms b.
#[export] Instance created_le_dec a b : Decision (created_le a b).
Proof. rewrite /created_le. apply _. Defined.

Definition list_shells (m : ShellManager) : list ShellInfo :=
  merge_sort created_le (map (info_of ∘ snd) (map_to_list (shells m))).

Definition remove_exited (m : ShellManager) (id : ShellId)
    : ShellManager * result unit SessionError :=
  match shells m !! id with
  | None => (m, Err ShellNotFound)
  | Some e =>
      if negb (bool_decide (state (runtime e) = Exited)) then (m, Err NotRunning)
      else ({| config := config m; policy := policy m; shells := delete id (shells m);
               idempotency := filter (λ p, p.2 ≠ id) (idempotency m) |}, Ok ())
  end.

(** ** The pump thread *)

(** One PTY chunk: feed the model, offer it to every attachment, drop those
    that cannot take it. *)
Definition fan_out (rt : Runtime) (ev : AttachmentEvent) : Runtime :=
  set_channels rt
    (omap (λ ch, match try_send ch ev with Ok ch' => Some ch' | Err _ => None end) (attachments rt))
    (filter (λ p, is_ok (try_send p.2 ev) = false) (attachments rt) ∪ orphans rt).

Definition pump_chunk (e : ShellEntry) (chunk : bytes) : option ShellEntry :=
  '(t, _) ← feed (model (runtime e)) chunk;
  Some (set_runtime e (fan_out (set_model (runtime e) t) (Output chunk))).

(** End of file: reap, record the exit, tell the attachments ([try_send],
    ignoring failure) and drop their senders. *)
Definition lost_exit : ExitSummary := {| exit_success := false; exit_code := 255 |}.

Definition pump_eof (e : ShellEntry) : ShellEntry :=
  let rt := runtime e in
  let x := match pty rt with
           | Some p => match pty_wait p with Ok x => x | Err _ => lost_exit end
           | None => lost_exit
           end in
  set_runtime e {|
    state := Exited; model := model rt; pty := None; attachments := ∅;
    orphans := ((λ ch, match try_send ch (Exited_ x) with Ok ch' => ch' | Err _ => ch end)
                <$> attachments rt) ∪ orphans rt;
    next_attachment_id := next_attachment_id rt; token_hash := token_hash rt;
    superseded_token_hashes := superseded_token_hashes rt; exit := Some x;
    last_attached_at_ms := last_attached_at_ms rt |}.
End session.
