(* ===== verification/SessionSteps.v ===== *)
(** * The session core as a transition system

    All operations of [SessionCore] as labels of one executable transition
    function, in any interleaving: client calls, the pump threads, the
    receiving ends of the attachment channels and the idle reaper. The
    invariants are proved by induction on what each transition does to one
    shell's runtime ([rt_step]). *)
From S2P Require Import Prelude Ids History TerminalModel Launch SessionCore.

Section steps.
Context {V : VtOps} {P : PtyOps} {S : HashOps} (H : Host).

(** ** Labels *)
Inductive op :=
  | OpOpen (req : OpenShellRequest) (fr : Fresh)
  | OpAttach (user : str) (id : ShellId) (presented : ResumeToken) (cols rows : Z)
             (token : ResumeToken) (now : Z)
  | OpAttachAuthorized (user : str) (id : ShellId) (cols rows : Z) (token : ResumeToken) (now : Z)
  | OpDetach (id : ShellId) (aid : Z)
  | OpWrite (id : ShellId) (data : bytes)
  | OpResize (id : ShellId) (cols rows : Z)
  | OpTerminate (id : ShellId)
  | OpTerminated (id : ShellId) (timed_out : bool)
  | OpReap (cutoff : Z) (id : ShellId)
  | OpRemove (id : ShellId)
  | OpChunk (id : ShellId) (chunk : bytes)
  | OpEof (id : ShellId)
  | OpRecv (id : ShellId) (aid : Z)
  | OpRxDrop (id : ShellId) (aid : Z).

(** The receiving end: take the oldest event, or drop the receiver. *)
Definition ch_recv (ch : Channel) : Channel :=
  {| queue := tail (queue ch); capacity := capacity ch; rx_alive := rx_alive ch |}.
Definition ch_close (ch : Channel) : Channel :=
  {| queue := queue ch; capacity := capacity ch; rx_alive := false |}.

Definition rt_channel (f : Channel → Channel) (aid : Z) (rt : Runtime) : Runtime :=
  set_channels rt (alter f aid (attachments rt)) (alter f aid (orphans rt)).

(** A change of one shell's entry outside the manager's methods. *)
Definition on_entry (m : ShellManager) (id : ShellId) (f : ShellEntry → option ShellEntry)
    : option ShellManager :=
  e ← shells m !! id; e' ← f e; Some (set_shells m (<[id := e']> (shells m))).

Definition exec (m : ShellManager) (o : op) : option ShellManager :=
  match o with
  | OpOpen req fr => fst <$> open_shell H m req fr
  | OpAttach user id presented cols rows token now =>
      fst <$> attach m user id presented cols rows token now
  | OpAttachAuthorized user id cols rows token now =>
      fst <$> attach_authorized m user id cols rows token now
  | OpDetach id aid => Some (fst (detach m id aid))
  | OpWrite id data => Some (fst (write_input m id data))
  | OpResize id cols rows => fst <$> resize_shell m id cols rows
  | OpTerminate id => Some (fst (terminate_start m id))
  | OpTerminated id timed_out => fst <$> terminate_finish m id timed_out
  | OpReap cutoff id => fst <$> reap_one m cutoff id
  | OpRemove id => Some (fst (remove_exited m id))
  | OpChunk id chunk => on_entry m id (λ e, pump_chunk e chunk)
  | OpEof id => on_entry m id (λ e, Some (pump_eof e))
  | OpRecv id aid => on_entry m id (λ e, Some (set_runtime e (rt_channel ch_recv aid (runtime e))))
  | OpRxDrop id aid =>
      on_entry m id (λ e, Some (set_runtime e (rt_channel ch_close aid (runtime e))))
  end.

(** What the environment guarantees: random shell ids do not collide, a pump
    thread sees end of file once and no output after it, and no shell is
    attached to 2^64 - 1 times. *)
Definition op_ok (m : ShellManager) (o : op) : Prop :=
  match o with
  | OpOpen _ fr => shells m !! fresh_id fr = None
  | OpChunk id _ | OpEof id => ∀ e, shells m !! id = Some e → exit (runtime e) = None
  | OpAttach _ id _ _ _ _ _ | OpAttachAuthorized _ id _ _ _ _ =>
      ∀ e, shells m !! id = Some e → next_attachment_id (runtime e) < u64_max
  | _ => True
  end.

Definition step (m m' : ShellManager) : Prop := ∃ o, op_ok m o ∧ exec m o = Some m'.

(** States reachable from an empty manager. *)
Definition reachable (m : ShellManager) : Prop :=
  ∃ c p, rtc step (with_policy c p) m.

(** ** What a transition may do to one runtime

    The flag says whether the transition may end a running shell. *)
Definition ending (o : op) : bool :=
  match o with OpTerminate _ | OpReap _ _ | OpEof _ => true | _ => false end.

Inductive rt_step (c : SessionCoreConfig) : bool → Runtime → Runtime → Prop :=
  | RsRotate k rt token : rt_step c k rt (rotate_token rt token)
  | RsPty k rt p p' : pty rt = Some p → rt_step c k rt (set_pty rt (Some p'))
  | RsModel k rt t : rt_step c k rt (set_model rt t)
  | RsAttach k rt token now :
      state rt = Running → Z.of_nat (base.size (attachments rt)) < max_attachments_per_shell c →
      next_attachment_id rt < u64_max →
      rt_step c k rt (add_attachment c rt token now)
  | RsDetach k rt aid : rt_step c k rt (drop_sender rt aid)
  | RsTerminating rt : exit rt = None → rt_step c true rt (set_state rt Terminating)
  | RsExited k rt x : exit rt = Some x → rt_step c k rt (set_state rt Exited)
  | RsFanOut k rt ev : rt_step c k rt (fan_out rt ev)
  | RsEof e : exit (runtime e) = None → rt_step c true (runtime e) (runtime (pump_eof e))
  | RsRecv k rt aid : rt_step c k rt (rt_channel ch_recv aid rt)
  | RsRxDrop k rt aid : rt_step c k rt (rt_channel ch_close aid rt).

(** ** Invariant of one runtime *)
Record rt_wf (c : SessionCoreConfig) (rt : Runtime) : Prop := {
  rw_attachments :
    attachments rt = ∅ ∨ Z.of_nat (base.size (attachments rt)) ≤ max_attachments_per_shell c;
  rw_superseded : len (superseded_token_hashes rt) ≤ SUPERSEDED_TOKEN_HISTORY;
  rw_exited : state rt = Exited ↔ is_Some (exit rt);
  rw_pty : is_Some (pty rt) ↔ exit rt = None;
  rw_drained : is_Some (exit rt) → attachments rt = ∅;
  rw_queue aid ch :
    attachments rt !! aid = Some ch ∨ orphans rt !! aid = Some ch →
    capacity ch = max_queued_chunks c ∧ (queue ch = [] ∨ len (queue ch) ≤ capacity ch);
  rw_next : 1 ≤ next_attachment_id rt ≤ u64_max;
  rw_ids aid ch :
    attachments rt !! aid = Some ch ∨ orphans rt !! aid = Some ch →
    1 ≤ aid < next_attachment_id rt;
}.

Lemma try_send_Ok ch ev ch' :
  try_send ch ev = Ok ch' →
  rx_alive ch = true ∧ len (queue ch) < capacity ch ∧ queue ch' = queue ch ++ [ev] ∧
  capacity ch' = capacity ch ∧ rx_alive ch' = true.
Proof.
  rewrite /try_send. destruct (rx_alive ch); [|done]. cbn [negb].
  destruct (capacity ch <=? len (queue ch)) eqn:E; [done|]. intros Hq. injection Hq as <-.
  simpl. split_and!; try done. lia.
Qed.

(** Channels stay within their capacity. *)
Definition ch_ok (c : SessionCoreConfig) (ch : Channel) : Prop :=
  capacity ch = max_queued_chunks c ∧ (queue ch = [] ∨ len (queue ch) ≤ capacity ch).

Lemma try_send_ok c ch ev ch' : ch_ok c ch → try_send ch ev = Ok ch' → ch_ok c ch'.
Proof.
  intros [Hc _] (_ & Hl & Hq & Hc' & _)%try_send_Ok. split; [congruence|]. right.
  rewrite Hq Hc' len_app len_cons len_nil. lia.
Qed.

Lemma ch_recv_ok c ch : ch_ok c ch → ch_ok c (ch_recv ch).
Proof.
  intros [Hc Hq]. split; [done|]. simpl. destruct (queue ch) as [|x q]; [by left|].
  right. simpl. destruct Hq as [|Hq]; [done|]. rewrite len_cons in Hq. lia.
Qed.

(** Fewer keys, no larger map. *)
Lemma size_keys_le {A B} (m1 : gmap Z A) (m2 : gmap Z B) :
  (∀ k, is_Some (m1 !! k) → is_Some (m2 !! k)) → (base.size m1 ≤ base.size m2)%nat.
Proof.
  intros Hk. rewrite -(size_dom m1) -(size_dom m2). apply subseteq_size => k.
  rewrite !elem_of_dom. apply Hk.
Qed.

(** A runtime whose channel maps shrink in keys and keep good channels. *)
Lemma set_channels_wf c rt att orph :
  rt_wf c rt → (∀ k, is_Some (att !! k) → is_Some (attachments rt !! k)) →
  (∀ aid ch, att !! aid = Some ch ∨ orph !! aid = Some ch →
     ch_ok c ch ∧ (is_Some (attachments rt !! aid) ∨ is_Some (orphans rt !! aid))) →
  rt_wf c (set_channels rt att orph).
Proof.
  intros [Ha Hs He Hp Hd Hq Hn Hi] Hk Hch. pose proof (size_keys_le _ _ Hk) as Hsz.
  have Hempty : attachments rt = ∅ → att = ∅.
  { intros E. apply map_eq => k. rewrite lookup_empty. apply eq_None_not_Some.
    intros HS. apply Hk in HS. rewrite E lookup_empty in HS. by destruct HS. }
  split; simpl; try done.
  - destruct Ha as [E|]; [left; by apply Hempty|right; lia].
  - intros HS. by apply Hempty, Hd.
  - intros aid ch Hc. by apply (Hch aid ch).
  - intros aid ch Hc. destruct (Hch aid ch Hc) as [_ [[ch' E]|[ch' E]]]; eapply Hi; eauto.
Qed.

Lemma rw_ch_ok c rt aid ch :
  rt_wf c rt → attachments rt !! aid = Some ch ∨ orphans rt !! aid = Some ch → ch_ok c ch.
Proof. intros W Hc. by apply (rw_queue _ _ W aid). Qed.

Lemma fan_out_wf c rt ev : rt_wf c rt → rt_wf c (fan_out rt ev).
Proof.
  intros W. apply set_channels_wf; [done| |].
  - intros k [ch Hk]. apply lookup_omap_Some in Hk as (ch0 & _ & Hl). by exists ch0.
  - intros aid ch [Hl|Hl].
    + apply lookup_omap_Some in Hl as (ch0 & Hs & Hl).
      destruct (try_send ch0 ev) as [ch1|] eqn:E; [|done]. injection Hs as <-.
      split; [|left; by exists ch0]. eapply try_send_ok; [|done]. apply (rw_ch_ok _ rt aid); auto.
    + apply lookup_union_Some_raw in Hl as [Hl|[_ Hl]].
      * apply map_lookup_filter_Some in Hl as [Hl _].
        split; [apply (rw_ch_ok _ rt aid); auto|left; by exists ch].
      * split; [apply (rw_ch_ok _ rt aid); auto|right; by exists ch].
Qed.

Lemma rt_channel_wf c f aid rt :
  (∀ ch, ch_ok c ch → ch_ok c (f ch)) → rt_wf c rt → rt_wf c (rt_channel f aid rt).
Proof.
  intros Hf W. apply set_channels_wf; [done| |].
  - intros k. by rewrite lookup_alter_is_Some.
  - intros k ch [Hl|Hl]; apply lookup_alter_Some in Hl as [(-> & ch0 & Hl & ->)|[_ Hl]];
      (split; [try apply Hf; eapply rw_ch_ok; eauto|eauto]).
Qed.

Lemma drop_sender_wf c rt aid : rt_wf c rt → rt_wf c (drop_sender rt aid).
Proof.
  intros W. rewrite /drop_sender. destruct (attachments rt !! aid) as [ch|] eqn:E; [|done].
  apply set_channels_wf; [done| |].
  - intros k [x Hx]. apply lookup_delete_Some in Hx as [_ Hx]. by exists x.
  - intros k x [Hx|Hx].
    + apply lookup_delete_Some in Hx as [_ Hx]. split; [eapply rw_ch_ok; eauto|eauto].
    + apply lookup_insert_Some in Hx as [[<- <-]|[_ Hx]]; (split; [eapply rw_ch_ok; eauto|eauto]).
Qed.

Lemma rotate_wf c rt token : rt_wf c rt → rt_wf c (rotate_token rt token).
Proof.
  intros [Ha Hs He Hp Hd Hq Hn Hi]. split; simpl; try done.
  rewrite /SUPERSEDED_TOKEN_HISTORY in Hs |- *. rewrite len_app len_cons len_nil.
  destruct (_ =? _) eqn:E; [|lia].
  destruct (superseded_token_hashes rt); [rewrite len_nil in E; lia|]. rewrite len_cons in E. simpl. lia.
Qed.

Lemma add_attachment_wf c rt token now :
  state rt = Running → Z.of_nat (base.size (attachments rt)) < max_attachments_per_shell c →
  next_attachment_id rt < u64_max → rt_wf c rt → rt_wf c (add_attachment c rt token now).
Proof.
  intros Hrun Hmax Hnx W. pose proof (rotate_wf c rt token W) as [Ha Hs He Hp Hd Hq Hn Hi].
  have Hfresh : attachments rt !! next_attachment_id rt = None.
  { destruct (attachments rt !! _) as [ch|] eqn:E; [|done].
    pose proof (rw_ids _ _ W _ _ (or_introl E)). lia. }
  have Hx : exit rt = None.
  { destruct (exit rt) eqn:E; [|done]. assert (state rt = Exited) as E'; [|congruence].
    apply (rw_exited _ _ W). by rewrite E. }
  simpl in *. split; simpl; try done.
  - right. rewrite map_size_insert_None //. lia.
  - rewrite Hx. by intros [].
  - intros aid ch [Hl|Hl]; [|by apply (Hq aid); right].
    apply lookup_insert_Some in Hl as [[<- <-]|[_ Hl]]; [by split; [|left]|].
    by apply (Hq aid); left.
  - rewrite wrap64_small; lia.
  - rewrite wrap64_small; last lia. intros aid ch [Hl|Hl]; [|pose proof (Hi aid ch (or_intror Hl)); lia].
    apply lookup_insert_Some in Hl as [[<- _]|[_ Hl]]; [lia|].
    pose proof (Hi aid ch (or_introl Hl)). lia.
Qed.

Lemma set_state_wf c rt s :
  rt_wf c rt → (s = Exited ↔ is_Some (exit rt)) → rt_wf c (set_state rt s).
Proof. intros [Ha Hs He Hp Hd Hq Hn Hi] Hst. by split. Qed.

Lemma pump_eof_wf c e : rt_wf c (runtime e) → rt_wf c (runtime (pump_eof e)).
Proof.
  intros W. pose proof W as [Ha Hs He Hp Hd Hq Hn Hi]. split; simpl; try done.
  - by left.
  - intros aid ch [Hl|Hl]; [by rewrite lookup_empty in Hl|].
    apply lookup_union_Some_raw in Hl as [Hl|[_ Hl]]; [|by apply (Hq aid); right].
    apply lookup_fmap_Some in Hl as (ch0 & <- & Hl).
    destruct (try_send ch0 _) as [ch1|] eqn:E; [|by apply (Hq aid); left].
    eapply try_send_ok; [|exact E]. apply (Hq aid). by left.
  - intros aid ch [Hl|Hl]; [by rewrite lookup_empty in Hl|].
    apply lookup_union_Some_raw in Hl as [Hl|[_ Hl]]; [|by apply (Hi aid ch); right].
    apply lookup_fmap_Some in Hl as (ch0 & <- & Hl). by apply (Hi aid ch0); left.
Qed.

Lemma rt_step_wf c k rt rt' : rt_step c k rt rt' → rt_wf c rt → rt_wf c rt'.
Proof.
  intros Hst W. pose proof W as [Ha Hs He Hp Hd Hq Hn Hi]. destruct Hst.
  - by apply rotate_wf.
  - split; simpl; try done. rewrite H0 in Hp. split; [intros _; by apply Hp|done].
  - by split.
  - by apply add_attachment_wf.
  - by apply drop_sender_wf.
  - apply set_state_wf; [done|]. rewrite H0. by split; [|intros []].
  - apply set_state_wf; [done|]. rewrite H0. by split.
  - by apply fan_out_wf.
  - by apply pump_eof_wf.
  - apply rt_channel_wf; [apply ch_recv_ok|done].
  - by apply rt_channel_wf.
Qed.

(** ** Lifecycle: states only advance, an exit status is final *)
Definition rank (s : ShellState) : Z :=
  match s with Running => 0 | Terminating => 1 | Exited => 2 end.

Definition advances (rt rt' : Runtime) : Prop :=
  rank (state rt) ≤ rank (state rt') ∧ (∀ x, exit rt = Some x → exit rt' = Some x).

#[export] Instance advances_preorder : PreOrder advances.
Proof.
  split; [intros rt; split; [lia|done]|].
  intros a b d [H1 E1] [H2 E2]. split; [lia|auto].
Qed.

Lemma rt_step_advances c k rt rt' : rt_wf c rt → rt_step c k rt rt' → advances rt rt'.
Proof.
  intros W Hst. destruct Hst; try done; rewrite /advances.
  - rewrite /drop_sender. destruct (attachments rt !! aid); done.
  - split; [|simpl; congruence]. simpl.
    destruct (state rt) eqn:E; simpl; try lia.
    apply (rw_exited _ _ W) in E as [x Hx]. congruence.
  - split; [|done]. simpl. destruct (state rt); simpl; lia.
  - split; [|congruence]. simpl. destruct (state (runtime e)); simpl; lia.
Qed.

(** [rtc] of runtime steps keeps both. *)
Lemma rt_steps_wf c k rt rt' :
  rtc (rt_step c k) rt rt' → rt_wf c rt → rt_wf c rt' ∧ advances rt rt'.
Proof.
  induction 1 as [rt|a b d Hab _ IH]; intros W; [by split|].
  pose proof (rt_step_wf _ _ _ _ Hab W) as Wb. destruct (IH Wb) as [Wd Hbd].
  split; [done|]. by etrans; [eapply rt_step_advances|].
Qed.

(** A transition that does not end shells leaves a running shell running. *)
Lemma rt_steps_running c rt rt' :
  rtc (rt_step c false) rt rt' → rt_wf c rt → state rt = Running → state rt' = Running.
Proof.
  induction 1 as [rt|a b d Hab _ IH]; intros W Hr; [done|].
  apply IH; [by eapply rt_step_wf|]. remember false as k eqn:Ek. destruct Hab; try done.
  - rewrite /drop_sender. by destruct (attachments rt !! aid).
  - assert (state rt = Exited) as E; [|congruence]. apply (rw_exited _ _ W). by rewrite H0.
Qed.
End steps.
