(* ===== verification/SessionProps.v ===== *)
(** * Properties of the session core

    What every interleaving of the operations of [SessionSteps] keeps true, and
    what each operation promises its caller. *)
From S2P Require Import Prelude Ids History TerminalModel Launch SessionCore SessionSteps.

Section props.
Context {V : VtOps} {P : PtyOps} {S : HashOps} (H : Host).

(** ** The shape of a transition *)

(** The shell an operation addresses. *)
Definition target (m : ShellManager) (o : op) : option ShellId :=
  match o with
  | OpOpen req _ => idempotency m !! (req_user req, idempotency_key req)
  | OpAttach _ id _ _ _ _ _ | OpAttachAuthorized _ id _ _ _ _ | OpDetach id _ | OpWrite id _
  | OpResize id _ _ | OpTerminate id | OpTerminated id _ | OpReap _ id | OpRemove id
  | OpChunk id _ | OpEof id | OpRecv id _ | OpRxDrop id _ => Some id
  end.

Inductive shape (m : ShellManager) (o : op) : ShellManager → Prop :=
  | ShSame : shape m o m
  | ShUpdate id e rt' :
      target m o = Some id → shells m !! id = Some e →
      rtc (rt_step (config m) (ending o)) (runtime e) rt' → shape m o (put_runtime m id e rt')
  | ShCreate req fr acct p cols rows :
      o = OpOpen req fr → check_limits m (req_user req) = Ok () →
      resolve (policy m) (req_user req) (requested_account req) = Ok acct →
      shape m o {| config := config m; policy := policy m;
                   shells := <[fresh_id fr := new_entry (config m) fr req acct p cols rows]>
                               (shells m);
                   idempotency := <[(req_user req, idempotency_key req) := fresh_id fr]>
                                    (idempotency m) |}
  | ShRemove id e :
      o = OpRemove id → shells m !! id = Some e → state (runtime e) = Exited →
      shape m o {| config := config m; policy := policy m; shells := delete id (shells m);
                   idempotency := filter (λ p, p.2 ≠ id) (idempotency m) |}.

Lemma create_shell_shape m req fr m' r :
  create_shell H m req fr = Some (m', r) →
  shape m (OpOpen req fr) m' ∧
  ∀ o, r = Ok o → opened_id o = fresh_id fr ∧ opened_token o = fresh_token fr ∧ reused o = false ∧
    ∃ acct p cols rows,
      resolve (policy m) (req_user req) (requested_account req) = Ok acct ∧
      check_limits m (req_user req) = Ok () ∧
      shells m' = <[fresh_id fr := new_entry (config m) fr req acct p cols rows]> (shells m) ∧
      idempotency m' = <[(req_user req, idempotency_key req) := fresh_id fr]> (idempotency m).
Proof.
  rewrite /create_shell. destruct (resolve _ _ _) as [acct|] eqn:Er;
    [|intros [= <- <-]; by split; [constructor|]].
  destruct (check_limits m _) as [[]|] eqn:El; [|intros [= <- <-]; by split; [constructor|]].
  destruct (clamp_dims _ _) as [cols rows].
  destruct (open_pty _ _ _ _ _ _) as [[p|]|]; [| |done]; cbn [mbind option_bind];
    [|intros [= <- <-]; by split; [constructor|]].
  destruct (pty_take_output p) as [p' []]; [|intros [= <- <-]; by split; [constructor|]].
  cbn [negb]. destruct (thread_spawn fr); [|intros [= <- <-]; by split; [constructor|]].
  intros [= <- <-]. split; [by eapply ShCreate|]. intros o [= <-]. simpl. split_and!; try done.
  by exists acct, p', cols, rows.
Qed.

Lemma attach_resize_steps c k rt cols rows rt' r :
  attach_resize rt cols rows = Some (rt', r) →
  rtc (rt_step c k) rt rt' ∧ state rt' = state rt ∧ attachments rt' = attachments rt ∧
  next_attachment_id rt' = next_attachment_id rt ∧ token_hash rt' = token_hash rt ∧
  superseded_token_hashes rt' = superseded_token_hashes rt ∧ orphans rt' = orphans rt ∧
  exit rt' = exit rt ∧ last_attached_at_ms rt' = last_attached_at_ms rt.
Proof.
  rewrite /attach_resize. destruct (_ && _); [|intros [= <- <-]; by split_and!].
  destruct (clamp_dims cols rows) as [c' r']. destruct (bool_decide _); [intros [= <- <-]; by split_and!|].
  destruct (pty rt) as [p|] eqn:Ep.
  - destruct (pty_resize p c' r') as [p' [[]|e]].
    + destruct (resize _ c' r') as [[t rev]|]; [|done]. cbn [mbind option_bind].
      intros [= <- <-]. split_and!; try done.
      eapply rtc_l; [by eapply (RsPty c k rt p)|]. apply rtc_once. constructor.
    + intros [= <- <-]. split_and!; try done. apply rtc_once. by eapply RsPty.
  - destruct (resize _ c' r') as [[t rev]|]; [|done]. cbn [mbind option_bind].
    intros [= <- <-]. split_and!; try done. apply rtc_once. constructor.
Qed.

(** [attach_runtime] on success: the guards held and one attachment was added
    to the resized runtime. *)
Lemma attach_runtime_spec c k id rt cols rows token now rt' r :
  attach_runtime c id rt cols rows token now = Some (rt', r) →
  (next_attachment_id rt < u64_max → rtc (rt_step c k) rt rt') ∧
  match r with
  | Ok a => state rt = Running ∧
      Z.of_nat (base.size (attachments rt)) < max_attachments_per_shell c ∧
      ∃ rt1, attach_resize rt cols rows = Some (rt1, Ok ()) ∧
        rt' = add_attachment c rt1 token now ∧
        attachment_id a = next_attachment_id rt ∧ att_shell_id a = id ∧
        rotated_resume_token a = token
  | Err _ => token_hash rt' = token_hash rt ∧
      superseded_token_hashes rt' = superseded_token_hashes rt ∧
      attachments rt' = attachments rt
  end.
Proof.
  rewrite /attach_runtime. destruct (bool_decide (state rt = Running)) eqn:Es; cbn [negb];
    [|intros [= <- <-]; split; [by intros|by split_and!]].
  apply bool_decide_eq_true in Es.
  destruct (_ <=? _) eqn:Em; [intros [= <- <-]; split; [by intros|by split_and!]|].
  destruct (attach_resize rt cols rows) as [[rt1 r1]|] eqn:Er; [|done]. cbn [mbind option_bind].
  pose proof (attach_resize_steps c k rt cols rows rt1 r1 Er)
    as (Hs & Hst & Ha & Hn & Hth & Hsu & _).
  destruct r1 as [[]|e].
  - intros [= <- <-]. split.
    + intros Hlt. eapply rtc_r; [exact Hs|]. constructor; [congruence|rewrite Ha; lia|congruence].
    + split_and!; [done|lia|]. exists rt1. simpl. split_and!; try done.
  - intros [= <- <-]. by split.
Qed.

Ltac same := apply ShSame.

Lemma on_entry_shape m o id f m' :
  target m o = Some id →
  (∀ e e', shells m !! id = Some e → f e = Some e' →
     ∃ rt', e' = set_runtime e rt' ∧ rtc (rt_step (config m) (ending o)) (runtime e) rt') →
  on_entry m id f = Some m' → shape m o m'.
Proof.
  intros Ht Hf. rewrite /on_entry. destruct (shells m !! id) as [e|] eqn:E; [|done].
  cbn [mbind option_bind]. destruct (f e) as [e'|] eqn:Ef; [|done].
  intros [= <-]. destruct (Hf e e' eq_refl Ef) as (rt' & -> & Hs). by eapply ShUpdate.
Qed.

Lemma terminate_start_shape m o id :
  target m o = Some id → ending o = true → shape m o (fst (terminate_start m id)).
Proof.
  intros Ht Hend. rewrite /terminate_start /entry. destruct (shells m !! id) as [e|] eqn:E; simpl; [|same].
  destruct (exit (runtime e)) eqn:Ex; [same|].
  destruct (pty (runtime e)) as [p|] eqn:Ep.
  - destruct (pty_kill p) as [p' [[]|]]; simpl; (eapply ShUpdate; [done|done|]);
      (rewrite Hend; eapply rtc_l; [by apply RsTerminating|]; apply rtc_once; by eapply RsPty).
  - simpl. eapply ShUpdate; [done|done|]. rewrite Hend. apply rtc_once. by apply RsTerminating.
Qed.

Lemma open_shell_shape m req fr m' r :
  open_shell H m req fr = Some (m', r) → shape m (OpOpen req fr) m'.
Proof.
  rewrite /open_shell. destruct (idempotency m !! _) as [id|] eqn:Ei; cbn;
    [|by intros []%create_shell_shape].
  destruct (shells m !! id) as [e|] eqn:Ee; cbn; [|by intros []%create_shell_shape].
  intros [= <- <-]. eapply ShUpdate; [done|done|]. apply rtc_once. constructor.
Qed.

Lemma attach_runtime_shape m o id e cols rows token now rt r :
  target m o = Some id → shells m !! id = Some e → next_attachment_id (runtime e) < u64_max →
  attach_runtime (config m) id (runtime e) cols rows token now = Some (rt, r) →
  shape m o (put_runtime m id e rt).
Proof. intros Ht Ee Hn [Hs _]%(attach_runtime_spec _ (ending o)). by eapply ShUpdate; [..|apply Hs]. Qed.

Lemma attach_shape m user id presented cols rows token now m' r :
  op_ok m (OpAttach user id presented cols rows token now) →
  attach m user id presented cols rows token now = Some (m', r) →
  shape m (OpAttach user id presented cols rows token now) m'.
Proof.
  intros Hok. rewrite /attach /entry.
  destruct (shells m !! id) as [e|] eqn:Ee; cbn; [|intros [= <- <-]; same].
  destruct (bool_decide (owner e = user)); cbn; [|intros [= <- <-]; same].
  destruct (bool_decide (token_hash _ = _)); cbn;
    [|destruct (bool_decide _); intros [= <- <-]; same].
  destruct (attach_runtime _ _ _ _ _ _ _) as [[rt r']|] eqn:Ea; [|done]. intros [= <- <-].
  eapply attach_runtime_shape; [done|done|by apply Hok|exact Ea].
Qed.

Lemma attach_authorized_shape m user id cols rows token now m' r :
  op_ok m (OpAttachAuthorized user id cols rows token now) →
  attach_authorized m user id cols rows token now = Some (m', r) →
  shape m (OpAttachAuthorized user id cols rows token now) m'.
Proof.
  intros Hok. rewrite /attach_authorized /entry.
  destruct (shells m !! id) as [e|] eqn:Ee; cbn; [|intros [= <- <-]; same].
  destruct (bool_decide (owner e = user)); cbn; [|intros [= <- <-]; same].
  destruct (attach_runtime _ _ _ _ _ _ _) as [[rt r']|] eqn:Ea; [|done]. intros [= <- <-].
  eapply attach_runtime_shape; [done|done|by apply Hok|exact Ea].
Qed.

Lemma resize_shell_shape m id cols rows m' r :
  resize_shell m id cols rows = Some (m', r) → shape m (OpResize id cols rows) m'.
Proof.
  rewrite /resize_shell /entry. destruct (_ || _); [intros [= <- <-]; same|].
  destruct (clamp_dims cols rows) as [c' r'].
  destruct (shells m !! id) as [e|] eqn:Ee; cbn [ok_or]; [|intros [= <- <-]; same].
  destruct (pty (runtime e)) as [p|] eqn:Ep; [|intros [= <- <-]; same].
  destruct (pty_resize p c' r') as [p' [[]|err]]; cbv zeta.
  - destruct (resize _ c' r') as [[t rev]|]; [|done]. intros [= <- <-].
    eapply ShUpdate; [done|done|]. eapply rtc_l; [by eapply (RsPty _ _ _ p)|].
    apply rtc_once. constructor.
  - intros [= <- <-]. eapply ShUpdate; [done|done|]. apply rtc_once. by eapply RsPty.
Qed.

Lemma exec_shape m o m' : op_ok m o → exec H m o = Some m' → shape m o m'.
Proof.
  intros Hok. destruct o; cbn [exec].
  - intros ([m1 r] & Eo & ->)%fmap_Some. by eapply open_shell_shape.
  - intros ([m1 r] & Eo & ->)%fmap_Some. by eapply attach_shape.
  - intros ([m1 r] & Eo & ->)%fmap_Some. by eapply attach_authorized_shape.
  - intros [= <-]. rewrite /detach /entry. destruct (shells m !! id) as [e|] eqn:Ee; cbn; [|same].
    eapply ShUpdate; [done|done|]. apply rtc_once. constructor.
  - intros [= <-]. rewrite /write_input /entry.
    destruct (shells m !! id) as [e|] eqn:Ee; cbn; [|same].
    destruct (pty (runtime e)) as [p|] eqn:Ep; [|same].
    destruct (pty_write p data) as [p' r]. eapply ShUpdate; [done|done|]. apply rtc_once.
    by eapply RsPty.
  - intros ([m1 r] & Eo & ->)%fmap_Some. by eapply resize_shell_shape.
  - intros [= <-]. by apply terminate_start_shape.
  - rewrite /terminate_finish. destruct (shells m !! id) as [e|] eqn:Ee; [|done]. cbn.
    destruct timed_out; [destruct (bool_decide _); [intros [= <-]; same|done]|].
    destruct (exit (runtime e)) as [x|] eqn:Ex; [|done]. intros [= <-].
    eapply ShUpdate; [done|done|]. apply rtc_once. by eapply RsExited.
  - rewrite /reap_one. destruct (shells m !! id) as [e|] eqn:Ee; [|done]. cbn.
    destruct (expired cutoff e); [|done]. intros [= <-]. by apply terminate_start_shape.
  - intros [= <-]. rewrite /remove_exited. destruct (shells m !! id) as [e|] eqn:Ee; [|same].
    destruct (bool_decide _) eqn:Es; cbn; [|same]. apply bool_decide_eq_true in Es.
    by eapply ShRemove.
  - apply on_entry_shape; [done|]. intros e e' Ee. rewrite /pump_chunk.
    destruct (feed _ _) as [[t rev]|]; [|done]. intros [= <-]. eexists. split; [done|].
    eapply rtc_l; [apply (RsModel _ _ _ t)|]. apply rtc_once. constructor.
  - apply on_entry_shape; [done|]. intros e e' Ee [= <-]. eexists. split; [done|].
    apply rtc_once. apply RsEof. by apply Hok.
  - apply on_entry_shape; [done|]. intros e e' Ee [= <-]. eexists. split; [done|].
    apply rtc_once. constructor.
  - apply on_entry_shape; [done|]. intros e e' Ee [= <-]. eexists. split; [done|].
    apply rtc_once. constructor.
Qed.

(** ** Counting live shells *)

Definition live_ids (m : ShellManager) (f : ShellEntry → bool) : gset ShellId :=
  dom (filter (λ p, live p.2 = true ∧ f p.2 = true) (shells m)).

Lemma elem_of_live_ids m f id :
  id ∈ live_ids m f ↔ ∃ e, shells m !! id = Some e ∧ live e = true ∧ f e = true.
Proof.
  rewrite /live_ids elem_of_dom. split.
  - intros [e He]. apply map_lookup_filter_Some in He as [? ?]. by exists e.
  - intros (e & ? & ?). exists e. by apply map_lookup_filter_Some.
Qed.

Lemma NoDup_fst_filter {A B} (Q : A * B → Prop) `{∀ x, Decision (Q x)} (l : list (A * B)) :
  NoDup l.*1 → NoDup (filter Q l).*1.
Proof.
  intros Hl. eapply sublist_NoDup; [exact Hl|]. apply fmap_sublist, sublist_filter.
Qed.

Lemma live_ids_len m f :
  len (filter (λ e, f e = true) (live_shells m)) = Z.of_nat (base.size (live_ids m f)).
Proof.
  rewrite /live_shells /live_ids size_dom /len -length_map_to_list.
  rewrite map_filter_alt map_to_list_to_map; last apply NoDup_fst_filter, NoDup_fst_map_to_list.
  f_equal. induction (map_to_list (shells m)) as [|[id e] l IH]; simpl; [done|].
  rewrite !filter_cons /=.
  destruct (decide (live e = true)); rewrite ?filter_cons; repeat case_decide; simpl; naive_solver.
Qed.

Definition any_owner (e : ShellEntry) : bool := true.
Definition owned_by (u : str) (e : ShellEntry) : bool := bool_decide (owner e = u).

Lemma check_limits_Ok m u :
  check_limits m u = Ok () →
  Z.of_nat (base.size (live_ids m any_owner)) < max_shells (config m) ∧
  (0 < max_shells_per_user (config m) →
   Z.of_nat (base.size (live_ids m (owned_by u))) < max_shells_per_user (config m)).
Proof.
  rewrite /check_limits -!live_ids_len.
  rewrite (list_filter_iff (λ e, owned_by u e = true) (λ e, owner e = u));
    last (intros e; apply bool_decide_eq_true).
  rewrite (_ : filter (λ e, any_owner e = true) (live_shells m) = live_shells m); last first.
  { induction (live_shells m) as [|e l IH]; [done|]. by rewrite filter_cons_True // IH. }
  destruct (_ <=? _) eqn:E1; [done|]. destruct (_ && _) eqn:E2; [done|]. intros _.
  split; lia.
Qed.

Lemma live_ids_update m id e rt' f :
  shells m !! id = Some e → advances (runtime e) rt' → f (set_runtime e rt') = f e →
  live_ids (put_runtime m id e rt') f ⊆ live_ids m f.
Proof.
  intros He [Hr _] Hf k. rewrite !elem_of_live_ids => -[e' [Hl [Hv Hfe]]].
  simpl in Hl. apply lookup_insert_Some in Hl as [[<- <-]|[Hne Hl]]; [|by exists e'].
  exists e. split_and!; [done| |congruence]. move: Hv. rewrite /live /=.
  rewrite !negb_true_iff !bool_decide_eq_false => Hv E. apply Hv. rewrite E in Hr. simpl in Hr.
  destruct (state rt'); simpl in *; [lia|lia|done].
Qed.

Lemma live_ids_create m m' id e f :
  shells m' = <[id := e]> (shells m) →
  (base.size (live_ids m' f) ≤ Nat.b2n (f e) + base.size (live_ids m f))%nat.
Proof.
  intros Hm.
  have Hsub : live_ids m' f ⊆ (if f e then {[id]} else ∅) ∪ live_ids m f.
  { intros k. rewrite elem_of_union !elem_of_live_ids Hm => -[e' [Hl [Hv Hf]]].
    apply lookup_insert_Some in Hl as [[<- <-]|[_ Hl]];
      [left; rewrite Hf; set_solver|right; by exists e']. }
  apply subseteq_size in Hsub. etrans; [exact Hsub|]. rewrite size_union_alt.
  apply Nat.add_le_mono.
  - destruct (f e); [by rewrite size_singleton|by rewrite size_empty].
  - apply subseteq_size. set_solver.
Qed.

Lemma live_ids_delete m m' id f :
  shells m' = delete id (shells m) → live_ids m' f ⊆ live_ids m f.
Proof.
  intros Hm k. rewrite !elem_of_live_ids Hm => -[e' [Hl [Hv Hf]]].
  apply lookup_delete_Some in Hl as [_ Hl]. by exists e'.
Qed.

(** ** Invariant of the manager *)
Record mgr_wf (m : ShellManager) : Prop := {
  mw_entry id e : shells m !! id = Some e → entry_id e = id ∧ rt_wf (config m) (runtime e);
  mw_total : Z.of_nat (base.size (live_ids m any_owner)) ≤ Z.max 0 (max_shells (config m));
  mw_user u : 0 < max_shells_per_user (config m) →
    Z.of_nat (base.size (live_ids m (owned_by u))) ≤ max_shells_per_user (config m);
  mw_idem k id : idempotency m !! k = Some id → ∃ e, shells m !! id = Some e ∧ owner e = k.1;
}.

Lemma with_policy_wf c p : mgr_wf (with_policy c p).
Proof.
  have He f : live_ids (with_policy c p) f = ∅.
  { apply elem_of_equiv_empty_L => k. rewrite elem_of_live_ids => -[e [Hl _]].
    by rewrite lookup_empty in Hl. }
  split.
  - intros id e. by rewrite lookup_empty.
  - rewrite He size_empty. lia.
  - intros u Hu. rewrite He size_empty. lia.
  - intros k id. by rewrite lookup_empty.
Qed.

Lemma new_entry_wf c fr req acct p cols rows :
  rt_wf c (runtime (new_entry c fr req acct p cols rows)).
Proof.
  split; simpl; try done.
  - by left.
  - intros aid ch. rewrite lookup_empty. by intros [].
  - intros aid ch. rewrite lookup_empty. by intros [].
Qed.

Lemma update_wf m id e k rt' :
  shells m !! id = Some e → rtc (rt_step (config m) k) (runtime e) rt' → mgr_wf m →
  mgr_wf (put_runtime m id e rt').
Proof.
  intros Hl Hrt [He Ht Hu Hi]. destruct (He id e Hl) as [Eid Wrt].
  destruct (rt_steps_wf _ _ _ _ Hrt Wrt) as [Wrt' Hadv]. split; simpl.
  - intros k' x [[<- <-]|[_ Hx]]%lookup_insert_Some; [by split|by apply He].
  - pose proof (subseteq_size _ _ (live_ids_update m id e rt' any_owner Hl Hadv eq_refl)). lia.
  - intros u Hpos. specialize (Hu u Hpos).
    pose proof (subseteq_size _ _ (live_ids_update m id e rt' (owned_by u) Hl Hadv eq_refl)). lia.
  - intros k' x Hk. destruct (Hi k' x Hk) as (e0 & Hl0 & Ho).
    destruct (decide (x = id)) as [->|Hne].
    + exists (set_runtime e rt'). rewrite lookup_insert_eq. split; [done|]. simpl. congruence.
    + exists e0. by rewrite lookup_insert_ne.
Qed.

Lemma create_wf m m' req fr acct p cols rows :
  shells m !! fresh_id fr = None → check_limits m (req_user req) = Ok () →
  config m' = config m →
  shells m' = <[fresh_id fr := new_entry (config m) fr req acct p cols rows]> (shells m) →
  idempotency m' = <[(req_user req, idempotency_key req) := fresh_id fr]> (idempotency m) →
  mgr_wf m → mgr_wf m'.
Proof.
  intros Hfresh [Hc1 Hc2]%check_limits_Ok Ec Es Ei [He Ht Hu Hi].
  pose proof (live_ids_create m m' _ _ any_owner Es) as H1.
  split; rewrite ?Ec.
  - intros k x. rewrite Es. intros [[<- <-]|[_ Hx]]%lookup_insert_Some;
      [split; [done|apply new_entry_wf]|by apply He].
  - simpl in H1. lia.
  - intros u Hpos. specialize (Hu u Hpos). specialize (Hc2 Hpos).
    pose proof (live_ids_create m m' _ _ (owned_by u) Es) as H2.
    change (owned_by u (new_entry _ _ _ _ _ _ _)) with (bool_decide (req_user req = u)) in H2.
    case_bool_decide; simpl in H2; [subst u|]; lia.
  - intros k x. rewrite Ei Es. intros [[<- <-]|[_ Hx]]%lookup_insert_Some.
    + eexists. by rewrite lookup_insert_eq.
    + destruct (Hi k x Hx) as (e0 & Hl0 & Ho). exists e0. rewrite lookup_insert_ne; [done|congruence].
Qed.

Lemma remove_wf m id :
  mgr_wf m →
  mgr_wf {| config := config m; policy := policy m; shells := delete id (shells m);
            idempotency := filter (λ p, p.2 ≠ id) (idempotency m) |}.
Proof.
  set (m' := {| config := _; policy := _; shells := _; idempotency := _ |}).
  intros [He Ht Hu Hi].
  pose proof (λ f, subseteq_size _ _ (live_ids_delete m m' id f eq_refl)) as Hsz.
  split; simpl.
  - intros k x [_ Hx]%lookup_delete_Some. by apply He.
  - specialize (Hsz any_owner). lia.
  - intros u Hpos. specialize (Hu u Hpos). specialize (Hsz (owned_by u)). lia.
  - intros k x [Hk Hne]%map_lookup_filter_Some. destruct (Hi k x Hk) as (e0 & Hl0 & Ho).
    exists e0. rewrite lookup_delete_ne //.
Qed.

Lemma shape_wf m o m' : op_ok m o → shape m o m' → mgr_wf m → mgr_wf m'.
Proof.
  intros Hok Hs W.
  destruct Hs as [|id e rt' Htg Hl Hrt|req fr acct p cols rows -> Hc Hp|id e -> Hl Hx]; [done|..].
  - by eapply update_wf.
  - by eapply create_wf.
  - by apply remove_wf.
Qed.

Lemma step_wf m m' : step H m m' → mgr_wf m → mgr_wf m'.
Proof. intros (o & Hok & He). eapply shape_wf; [exact Hok|]. by apply exec_shape. Qed.

Lemma steps_wf m m' : rtc (step H) m m' → mgr_wf m → mgr_wf m'.
Proof. induction 1 as [|a b d Hab _ IH]; [done|]. intros W. by eapply IH, step_wf. Qed.

Lemma reachable_wf m : reachable H m → mgr_wf m.
Proof. intros (c & p & Hr). eapply steps_wf; [exact Hr|]. apply with_policy_wf. Qed.

(** ** Runs of operations *)
Fixpoint run (m : ShellManager) (os : list op) : option ShellManager :=
  match os with
  | [] => Some m
  | o :: os => m' ← exec H m o; run m' os
  end.

Fixpoint run_ok (m : ShellManager) (os : list op) : Prop :=
  match os with
  | [] => True
  | o :: os => op_ok m o ∧ ∀ m', exec H m o = Some m' → run_ok m' os
  end.

(** What a transition does to a given shell. *)
Lemma shape_entry m o m' id e :
  op_ok m o → shape m o m' → shells m !! id = Some e →
  (o = OpRemove id ∧ state (runtime e) = Exited ∧ shells m' = delete id (shells m)) ∨
  ∃ rt', shells m' !! id = Some (set_runtime e rt') ∧
    (rtc (rt_step (config m) (ending o)) (runtime e) rt' ∧
     (rt' = runtime e ∨ target m o = Some id)).
Proof.
  intros Hok Hs Hl.
  have Hsame : set_runtime e (runtime e) = e by destruct e.
  destruct Hs as [|id' e' rt' Htg Hl' Hrt|req fr acct p cols rows -> Hc Hp|id' e' -> Hl' Hx].
  - right. exists (runtime e). rewrite Hsame. by split_and!; [..|left].
  - right. simpl. destruct (decide (id' = id)) as [->|Hne].
    + exists rt'. rewrite lookup_insert_eq. rewrite Hl in Hl'. injection Hl' as <-.
      split_and!; [done|done|by right].
    + exists (runtime e). rewrite lookup_insert_ne // Hsame. split_and!; [done|done|by left].
  - right. exists (runtime e). rewrite Hsame. simpl in Hok |- *.
    rewrite lookup_insert_ne; [by split_and!; [..|left]|congruence].
  - destruct (decide (id' = id)) as [->|Hne].
    + left. rewrite Hl in Hl'. by injection Hl' as <-.
    + right. exists (runtime e). simpl. rewrite lookup_delete_ne // Hsame.
      split_and!; [done|done|by left].
Qed.

Lemma exec_entry m o m' id e :
  op_ok m o → exec H m o = Some m' → shells m !! id = Some e →
  (o = OpRemove id ∧ state (runtime e) = Exited ∧ shells m' = delete id (shells m)) ∨
  ∃ rt', shells m' !! id = Some (set_runtime e rt') ∧
    (rtc (rt_step (config m) (ending o)) (runtime e) rt' ∧
     (rt' = runtime e ∨ target m o = Some id)).
Proof. intros Hok He. eapply shape_entry; [exact Hok|]. by apply exec_shape. Qed.

(** ** Properties *)

(** C1: in every reachable state, whatever the interleaving of clients, pump
    threads and reaper, the configured limits hold: live shells in total and
    per owner, attachments per shell, queued events per attachment, remembered
    token hashes; and an exited shell has a recorded exit, no PTY and no
    attachment. *)
Theorem reachable_limits m :
  reachable H m →
  len (live_shells m) ≤ Z.max 0 (max_shells (config m)) ∧
  (∀ u, 0 < max_shells_per_user (config m) →
     len (filter (λ e, owner e = u) (live_shells m)) ≤ max_shells_per_user (config m)) ∧
  ∀ id e, shells m !! id = Some e → let rt := runtime e in
    entry_id e = id ∧
    (attachments rt = ∅ ∨ Z.of_nat (base.size (attachments rt)) ≤ max_attachments_per_shell (config m)) ∧
    (∀ aid ch, attachments rt !! aid = Some ch →
       len (queue ch) ≤ Z.max 0 (max_queued_chunks (config m))) ∧
    len (superseded_token_hashes rt) ≤ SUPERSEDED_TOKEN_HISTORY ∧
    (state rt = Exited ↔ is_Some (exit rt)) ∧ (pty rt = None ↔ is_Some (exit rt)) ∧
    (state rt = Exited → attachments rt = ∅).
Proof.
  intros [He Ht Hu Hi]%reachable_wf. split_and!.
  - rewrite -live_ids_len in Ht.
    rewrite (_ : filter (λ e, any_owner e = true) (live_shells m) = live_shells m) // in Ht.
    induction (live_shells m) as [|e l IH]; [done|]. by rewrite filter_cons_True // IH.
  - intros u Hpos. specialize (Hu u Hpos). rewrite -live_ids_len in Hu.
    rewrite (list_filter_iff (λ e, owned_by u e = true) (λ e, owner e = u)) // in Hu.
    intros e. apply bool_decide_eq_true.
  - intros id e Hl. destruct (He id e Hl) as [Eid [Ha Hs Hx Hp Hd Hq Hn Hids]]. cbv zeta.
    split_and!; try done.
    + intros aid ch Hc. destruct (Hq aid ch (or_introl Hc)) as [Ec [->|Hle]].
      * rewrite len_nil. lia.
      * rewrite Ec in Hle. lia.
    + rewrite eq_None_not_Some. destruct (exit (runtime e)); [|].
      * split; [by eexists|]. intros _ HS. by apply Hp in HS.
      * split; [|by intros []]. intros Hn'. exfalso. by apply Hn', Hp.
    + intros E. by apply Hd, Hx.
Qed.

(** A transition of a reachable state never moves a shell backwards
    through running, terminating, exited, never changes its owner, account or
    creation time, never changes a recorded exit status, and forgets a shell
    only when it is removed after its exit. *)
Theorem lifecycle_monotone m o m' id e :
  reachable H m → op_ok m o → exec H m o = Some m' → shells m !! id = Some e →
  (o = OpRemove id ∧ state (runtime e) = Exited ∧ shells m' !! id = None) ∨
  ∃ e', shells m' !! id = Some e' ∧ owner e' = owner e ∧ account e' = account e ∧
    created_at_ms e' = created_at_ms e ∧
    rank (state (runtime e)) ≤ rank (state (runtime e')) ∧
    ∀ x, exit (runtime e) = Some x → exit (runtime e') = Some x.
Proof.
  intros W%reachable_wf Hok Hex Hl. destruct (mw_entry _ W id e Hl) as [_ Wrt].
  destruct (exec_entry m o m' id e Hok Hex Hl) as [(-> & Hs & E)|(rt' & Hl' & Hrt & _)].
  - left. by rewrite E lookup_delete_eq.
  - right. exists (set_runtime e rt'). simpl.
    destruct (rt_steps_wf _ _ _ _ Hrt Wrt) as [_ [Hr Hx]]. by split_and!.
Qed.

(** C32: only terminating it, reaping it or the end of its PTY output ends a
    running shell: every other operation, detaching, losing a client or the
    work of other shells included, leaves it running with its PTY. *)
Theorem only_termination_ends m o m' id e :
  reachable H m → op_ok m o → exec H m o = Some m' → shells m !! id = Some e →
  state (runtime e) = Running →
  ¬ (ending o = true ∧ target m o = Some id) →
  ∃ e', shells m' !! id = Some e' ∧ state (runtime e') = Running ∧ is_Some (pty (runtime e')).
Proof.
  intros W%reachable_wf Hok Hex Hl Hr Hend. destruct (mw_entry _ W id e Hl) as [_ Wrt].
  destruct (exec_entry m o m' id e Hok Hex Hl) as [(-> & Hs & E)|(rt' & Hl' & Hrt & Hor)];
    [congruence|].
  assert (state rt' = Running ∧ rt_wf (config m) rt') as [Hs' W'].
  { destruct Hor as [->|Htg]; [done|]. destruct (ending o); [naive_solver|].
    split; [by eapply rt_steps_running|]. by apply (rt_steps_wf _ _ _ _ Hrt Wrt). }
  exists (set_runtime e rt'). simpl. split_and!; [done|done|]. apply (rw_pty _ _ W').
  destruct (exit rt') eqn:E; [|done]. exfalso.
  assert (state rt' = Exited); [|congruence]. apply (rw_exited _ _ W'). by rewrite E.
Qed.

(** The user an operation acts for, where it takes one. *)
Definition acting_user (o : op) : option str :=
  match o with
  | OpOpen req _ => Some (req_user req)
  | OpAttach user _ _ _ _ _ _ | OpAttachAuthorized user _ _ _ _ _ => Some user
  | _ => None
  end.

(** An operation for one user leaves the shells of the others alone. *)
Lemma acting_isolated m o m' u id e :
  mgr_wf m → op_ok m o → exec H m o = Some m' → acting_user o = Some u →
  shells m !! id = Some e → owner e ≠ u → shells m' !! id = Some e.
Proof.
  intros W Hok Hex Hu Hl Hne.
  have Hex0 := exec_entry m o m' id e Hok Hex Hl.
  destruct Hex0 as [(-> & _)|(rt' & Hl' & Hrt & [->|Htg])]; [done|by destruct e|].
  destruct o; try done; simpl in Hu, Htg; injection Hu as <-.
  - destruct (mw_idem _ W _ _ Htg) as (e0 & Hl0 & Ho). simpl in Ho. congruence.
  - injection Htg as ->. revert Hex. simpl. rewrite /attach /entry Hl /= bool_decide_eq_false_2 //=.
    by intros [= <-].
  - injection Htg as ->. revert Hex. simpl.
    rewrite /attach_authorized /entry Hl /= bool_decide_eq_false_2 //=. by intros [= <-].
Qed.

(** A shell that is not the operation's target stays as it is. *)
Lemma untargeted_unchanged m o m' id e :
  op_ok m o → exec H m o = Some m' → shells m !! id = Some e → target m o ≠ Some id →
  shells m' !! id = Some e.
Proof.
  intros Hok Hex Hl Hne.
  destruct (exec_entry m o m' id e Hok Hex Hl) as [(-> & _)|(rt' & Hl' & Hrt & [->|Htg])];
    [done|by destruct e|done].
Qed.

(** Opening and attaching for one user never touches a shell of another
    user, not even with that user's idempotency key or resume token. *)
Theorem owner_isolation m o m' u id e :
  reachable H m → op_ok m o → exec H m o = Some m' → acting_user o = Some u →
  shells m !! id = Some e → owner e ≠ u → shells m' !! id = Some e.
Proof. intros W%reachable_wf. by apply acting_isolated. Qed.

(** ** Resume tokens *)

Lemma rotate_superseded rt token past :
  superseded_token_hashes rt = lastn 64 past →
  superseded_token_hashes (rotate_token rt token) = lastn 64 (past ++ [token_hash rt]).
Proof.
  intros E. pose proof (lastn_length 64 past) as Hl. rewrite -E in Hl. simpl.
  replace (len (superseded_token_hashes rt) =? SUPERSEDED_TOKEN_HISTORY)
    with (length (superseded_token_hashes rt) =? 64)%nat; last first.
  { rewrite /len /SUPERSEDED_TOKEN_HISTORY. destruct (_ =? _)%nat eqn:E1; symmetry.
    - apply Nat.eqb_eq in E1. lia.
    - apply Nat.eqb_neq in E1. lia. }
  rewrite lastn_snoc; [|done|lia]. by rewrite E lastn_lastn_app.
Qed.

(** Successive rotations. *)
Definition rotate_all (rt : Runtime) (tokens : list ResumeToken) : Runtime :=
  foldl rotate_token rt tokens.

Lemma rotate_all_spec rt past tokens :
  superseded_token_hashes rt = lastn 64 past →
  let rt' := rotate_all rt tokens in
  let hashes := token_hash rt :: map token_hash_of tokens in
  last hashes = Some (token_hash rt') ∧
  superseded_token_hashes rt' = lastn 64 (past ++ take (length tokens) hashes).
Proof.
  revert rt past. induction tokens as [|t ts IH]; intros rt past E; simpl.
  { by rewrite app_nil_r. }
  destruct (IH (rotate_token rt t) (past ++ [token_hash rt])) as [H1 H2].
  { by apply rotate_superseded. }
  split; [exact H1|]. rewrite H2 -app_assoc. done.
Qed.

(** Over any number of rotations a shell accepts exactly the newest token
    and remembers, in order, the hashes of the 64 superseded before it. *)
Theorem rotation_window fr req c acct p cols rows tokens :
  let rt := rotate_all (runtime (new_entry c fr req acct p cols rows)) tokens in
  let hashes := map token_hash_of (fresh_token fr :: tokens) in
  last hashes = Some (token_hash rt) ∧
  superseded_token_hashes rt = lastn 64 (take (length tokens) hashes).
Proof. by apply (rotate_all_spec (runtime (new_entry c fr req acct p cols rows)) []). Qed.

(** C31: an attach that succeeds presented the shell's current token as the
    owner of a running shell; it installs the fresh token, and afterwards the
    old one is refused as replayed, without any effect, while the fresh one
    passes the owner and token checks. *)
Theorem attach_rotates_token m user id tok cols rows token now m' a :
  attach m user id tok cols rows token now = Some (m', Ok a) →
  token_hash_of tok ≠ token_hash_of token →
  (∃ e, shells m !! id = Some e ∧ owner e = user ∧ state (runtime e) = Running ∧
     token_hash (runtime e) = token_hash_of tok) ∧
  rotated_resume_token a = token ∧ att_shell_id a = id ∧
  (∀ c r t n, attach m' user id tok c r t n = Some (m', Err TokenReplayed)) ∧
  (∃ e', shells m' !! id = Some e' ∧ owner e' = user ∧
     token_hash (runtime e') = token_hash_of token).
Proof.
  rewrite /attach /entry. intros Hat Hne. destruct (shells m !! id) as [e|] eqn:El; simpl in Hat; [|done].
  destruct (bool_decide (owner e = user)) eqn:Eo; simpl in Hat; [|done].
  destruct (bool_decide (token_hash (runtime e) = token_hash_of tok)) eqn:Et; simpl in Hat;
    [|by destruct (bool_decide (token_hash_of tok ∈ superseded_token_hashes (runtime e)))].
  to_prop. destruct (attach_runtime _ _ _ _ _ _ _) as [[rt r]|] eqn:Ea; [|done].
  simpl in Hat. injection Hat as <- ->.
  apply (attach_runtime_spec _ false) in Ea as [_ (Hrun & _ & rt1 & Hr & -> & _ & Hid & Htk)].
  apply (attach_resize_steps (config m) false) in Hr as (_ & _ & _ & _ & Hth & _).
  split; [by exists e|]. split; [done|]. split; [done|]. split; last first.
  { simpl. rewrite lookup_insert_eq. eexists. split; [done|]. by split. }
  intros c r t n. simpl. rewrite lookup_insert_eq /= (bool_decide_eq_true_2 (owner e = user)) //=.
  rewrite (bool_decide_eq_false_2 (token_hash_of token = token_hash_of tok)); last congruence.
  rewrite bool_decide_eq_true_2 //=. rewrite Hth Et. set_solver.
Qed.

(** ** Opening *)
Definition idem_of (req : OpenShellRequest) : str * array 16 := (req_user req, idempotency_key req).

(** A key keeps pointing at its shell until that shell is removed. *)
Lemma exec_keeps_key m o m' k id :
  mgr_wf m → op_ok m o → exec H m o = Some m' → o ≠ OpRemove id →
  idempotency m !! k = Some id → idempotency m' !! k = Some id.
Proof.
  intros W Hok Hex Hno Hk. destruct (mw_idem _ W _ _ Hk) as (e & Hl & _).
  pose proof (exec_shape m o m' Hok Hex) as Hs.
  destruct Hs as [| |req fr acct p cols rows -> Hc Hp|id' e' -> Hl' Hx]; try done; simpl.
  - destruct (decide ((req_user req, idempotency_key req) = k)) as [<-|Hne];
      [|by rewrite lookup_insert_ne].
    exfalso. revert Hex. simpl. rewrite /open_shell Hk /= Hl /=. intros [= E E2].
    simpl in Hok. have : idempotency m !! (req_user req, idempotency_key req) = Some (fresh_id fr)
      by rewrite E2 lookup_insert_eq.
    rewrite Hk. intros [= ->]. congruence.
  - apply map_lookup_filter_Some. split; [done|]. simpl. congruence.
Qed.

Lemma run_keeps_key m os m' k id :
  mgr_wf m → run_ok m os → run m os = Some m' → OpRemove id ∉ os →
  idempotency m !! k = Some id → mgr_wf m' ∧ idempotency m' !! k = Some id.
Proof.
  revert m. induction os as [|o os IH]; intros m W Hok Hr Hno Hk; simpl in Hr.
  { by injection Hr as <-. }
  destruct (exec H m o) as [m1|] eqn:Eo; [|done]. destruct Hok as [Hok Hoks].
  rewrite not_elem_of_cons in Hno. destruct Hno as [Hno1 Hno2].
  eapply IH; [|by apply Hoks|exact Hr|done|].
  - eapply step_wf; [|exact W]. by exists o.
  - eapply exec_keeps_key; [exact W|exact Hok|exact Eo|congruence|done].
Qed.

(** A successful open registers its key. *)
Lemma open_registers_key m req fr m1 o1 :
  mgr_wf m → open_shell H m req fr = Some (m1, Ok o1) → idempotency m1 !! idem_of req = Some (opened_id o1).
Proof.
  intros W. rewrite /open_shell. destruct (idempotency m !! _) as [id|] eqn:Ei; simpl; last first.
  { intros [_ Hc]%create_shell_shape. destruct (Hc o1 eq_refl) as (-> & _ & _ & ? & ? & ? & ? & _ & _ & _ & ->).
    by rewrite lookup_insert_eq. }
  destruct (mw_idem _ W _ _ Ei) as (e & Hl & _). rewrite Hl /=. intros [= <- <-]. simpl.
  by rewrite (proj1 (mw_entry _ W _ _ Hl)).
Qed.

(** An open under a registered key returns that shell with a fresh token. *)
Lemma open_reuses m id req fr :
  mgr_wf m → idempotency m !! idem_of req = Some id →
  ∃ e, shells m !! id = Some e ∧ owner e = req_user req ∧
    open_shell H m req fr =
      Some (put_runtime m id e (rotate_token (runtime e) (fresh_token fr)),
            Ok {| opened_id := id; opened_token := fresh_token fr; reused := true |}).
Proof.
  intros W Hk. destruct (mw_idem _ W _ _ Hk) as (e & Hl & Hown). exists e. split_and!; [done|done|].
  rewrite /open_shell Hk /= Hl /=. by rewrite (proj1 (mw_entry _ W _ _ Hl)).
Qed.

(** Nothing short of removing the shell makes the manager forget its key. *)
Lemma open_key_kept m req fr m1 o1 os m2 :
  reachable H m → op_ok m (OpOpen req fr) → open_shell H m req fr = Some (m1, Ok o1) →
  run_ok m1 os → run m1 os = Some m2 → OpRemove (opened_id o1) ∉ os →
  mgr_wf m2 ∧ idempotency m2 !! idem_of req = Some (opened_id o1).
Proof.
  intros W%reachable_wf Hok Ho Hoks Hrun Hno.
  assert (mgr_wf m1) as W1.
  { eapply step_wf; [|exact W]. exists (OpOpen req fr). split; [done|]. by rewrite /= Ho. }
  apply (run_keeps_key m1 os m2); [done..|]. eapply open_registers_key; [exact W|exact Ho].
Qed.

(** Retrying an open is idempotent: after an open succeeded, and after any
    further operations that do not remove that shell, an open with the same
    user and idempotency key returns the same shell with the fresh token,
    creates nothing and changes nothing else of the shell. *)
Theorem open_shell_idempotent m req fr m1 o1 os m2 req' fr' :
  reachable H m → op_ok m (OpOpen req fr) → open_shell H m req fr = Some (m1, Ok o1) →
  run_ok m1 os → run m1 os = Some m2 → OpRemove (opened_id o1) ∉ os →
  idem_of req' = idem_of req →
  ∃ e, shells m2 !! opened_id o1 = Some e ∧ owner e = req_user req ∧
    open_shell H m2 req' fr' =
      Some (put_runtime m2 (opened_id o1) e (rotate_token (runtime e) (fresh_token fr')),
            Ok {| opened_id := opened_id o1; opened_token := fresh_token fr'; reused := true |}).
Proof.
  intros W Hok Ho Hoks Hrun Hno Hidem.
  destruct (open_key_kept _ _ _ _ _ _ _ W Hok Ho Hoks Hrun Hno) as [W2 Hk].
  rewrite -Hidem in Hk. injection Hidem as Eu _. rewrite -Eu. by apply open_reuses.
Qed.

(** A shell returned by [open_shell] belongs to the requesting user; a new
    one is counted within the limits and, under a static policy, runs under an
    account of that user's allowlist or, with an empty list, the daemon's own. *)
Theorem open_shell_authorized m req fr m' o allowed :
  reachable H m → policy m = StaticPolicy allowed →
  open_shell H m req fr = Some (m', Ok o) →
  ∃ e, shells m' !! opened_id o = Some e ∧ owner e = req_user req ∧
    (reused o = false →
       state (runtime e) = Running ∧
       len (live_shells m) < max_shells (config m) ∧
       ∃ accounts, allowed !! req_user req = Some accounts ∧
         match account e with Some a => a ∈ accounts | None => accounts = [] end).
Proof.
  intros W%reachable_wf Hp. rewrite /open_shell.
  destruct (idempotency m !! _) as [id|] eqn:Ei; simpl.
  - destruct (mw_idem _ W _ _ Ei) as (e & Hl & Ho). rewrite Hl /=. intros [= <- <-].
    simpl. rewrite (proj1 (mw_entry _ W _ _ Hl)) lookup_insert_eq.
    eexists. split; [done|]. by split.
  - intros [_ Hc]%create_shell_shape.
    destruct (Hc o eq_refl) as (-> & _ & _ & acct & p & cols & rows & Hr & Hl & -> & _).
    rewrite lookup_insert_eq. eexists. split; [done|]. split; [done|]. intros _. simpl.
    split; [done|]. rewrite Hp /= in Hr. split.
    { rewrite /check_limits in Hl. destruct (_ <=? _) eqn:E; [done|]. lia. }
    destruct (allowed !! req_user req) as [accts|]; simpl in Hr; [|done]. exists accts. split; [done|].
    destruct (non_empty (requested_account req)) as [a|].
    + destruct (bool_decide (a ∈ accts)) eqn:E; [|done]. injection Hr as <-. by to_prop.
    + injection Hr as <-. destruct accts; [done|]. simpl. set_solver.
Qed.

(** ** Termination *)

(** C34: terminating a running shell whose PTY can be killed takes effect at
    once (it is no longer running, so no client can attach); when its pump
    thread sees the end of the output, the waiting call returns the exit status
    reaped from the PTY, and every later termination returns the same status
    and changes nothing. *)
Theorem terminate_completes m id e p p' x :
  reachable H m → shells m !! id = Some e → pty (runtime e) = Some p →
  pty_kill p = (p', Ok ()) → pty_wait p' = Ok x →
  ∃ m1 m2 m3 e3,
    terminate_start m id = (m1, Wait) ∧
    (∀ user tok cols rows t n a m', attach m1 user id tok cols rows t n ≠ Some (m', Ok a)) ∧
    exec H m1 (OpEof id) = Some m2 ∧
    terminate_finish m2 id false = Some (m3, Ok x) ∧
    shells m3 !! id = Some e3 ∧ state (runtime e3) = Exited ∧ attachments (runtime e3) = ∅ ∧
    terminate_start m3 id = (m3, Done (Ok x)).
Proof.
  intros W%reachable_wf Hl Hp Hk Hw.
  assert (exit (runtime e) = None) as Hx.
  { apply (rw_pty _ _ (proj2 (mw_entry _ W _ _ Hl))). by rewrite Hp. }
  do 4 eexists. split.
  { rewrite /terminate_start /entry Hl /= Hx Hp Hk. reflexivity. }
  split.
  { intros user tok cols rows t n a m'. rewrite /attach /entry /= lookup_insert_eq /=.
    destruct (bool_decide (owner e = user)); [|done]. simpl.
    destruct (bool_decide (token_hash (runtime e) = _)); simpl; [done|].
    by destruct (bool_decide _). }
  split. { rewrite /= /on_entry /= lookup_insert_eq /=. reflexivity. }
  split. { rewrite /terminate_finish /= lookup_insert_eq /= Hw. reflexivity. }
  split. { rewrite /= lookup_insert_eq. reflexivity. }
  split_and!; [done|done|]. by rewrite /terminate_start /entry /= lookup_insert_eq /=.
Qed.

(** When the PTY cannot be killed, [terminate] returns the error but has
    already marked the shell: its PTY is still there and its output still
    pumped, yet nobody can attach again and the idle reaper skips it. *)
Theorem terminate_kill_failure m id e p p' err :
  shells m !! id = Some e → exit (runtime e) = None → pty (runtime e) = Some p →
  pty_kill p = (p', Err err) →
  ∃ m' e', terminate_start m id = (m', Done (Err (PtyFailed err))) ∧
    shells m' !! id = Some e' ∧ state (runtime e') = Terminating ∧ pty (runtime e') = Some p' ∧
    (∀ c r t n, attach_authorized m' (owner e) id c r t n = Some (put_runtime m' id e' (runtime e'), Err NotRunning)) ∧
    ∀ cutoff, reap_one m' cutoff id = None.
Proof.
  intros Hl Hx Hp Hk. do 2 eexists. split.
  { rewrite /terminate_start /entry Hl /= Hx Hp Hk. reflexivity. }
  split. { rewrite /= lookup_insert_eq. reflexivity. }
  split_and!; [done|done| |].
  - intros c r t n. rewrite /attach_authorized /entry /= lookup_insert_eq /=.
    by rewrite bool_decide_eq_true_2 //=.
  - intros cutoff. by rewrite /reap_one /= lookup_insert_eq /=.
Qed.

(** The reaper's candidates are exactly the running shells without
    attachments that have been idle since the cutoff, and a candidate is
    terminated only if it still is one at that moment. *)
Theorem reap_only_idle m cutoff :
  reachable H m →
  (∀ id, id ∈ reap_candidates m cutoff ↔
     ∃ e, shells m !! id = Some e ∧ state (runtime e) = Running ∧ attachments (runtime e) = ∅ ∧
       idle_anchor_ms e ≤ cutoff) ∧
  ∀ id m' r, reap_one m cutoff id = Some (m', r) →
    id ∈ reap_candidates m cutoff ∧ (m', r) = terminate_start m id.
Proof.
  intros W%reachable_wf.
  assert (∀ id, id ∈ reap_candidates m cutoff ↔ ∃ e, shells m !! id = Some e ∧ expired cutoff e = true)
    as Hc.
  { intros id. rewrite /reap_candidates list_elem_of_fmap. split.
    - intros ([k e] & -> & [Hx Hin]%list_elem_of_filter). apply elem_of_map_to_list in Hin.
      simpl in *. exists e. by rewrite (proj1 (mw_entry _ W _ _ Hin)).
    - intros (e & Hl & Hx). exists (id, e). split; [by rewrite /= (proj1 (mw_entry _ W _ _ Hl))|].
      apply list_elem_of_filter. split; [done|]. by apply elem_of_map_to_list. }
  split.
  - intros id. rewrite Hc /expired. f_equiv => e.
    rewrite !andb_true_iff !bool_decide_eq_true Z.leb_le. tauto.
  - intros id m' r. rewrite /reap_one Hc. destruct (shells m !! id) as [e|]; [|done]. simpl.
    destruct (expired cutoff e) eqn:E; [|done]. intros [= <-]. split; [by exists e|done].
Qed.

(** ** Delivery to one attachment *)

(** The channel of an attachment, whoever still holds its ends. *)
Definition chan (rt : Runtime) (aid : Z) : option Channel :=
  match attachments rt !! aid with Some ch => Some ch | None => orphans rt !! aid end.

Lemma fan_out_attached rt ev aid ch :
  attachments rt !! aid = Some ch →
  match try_send ch ev with
  | Ok ch' => attachments (fan_out rt ev) !! aid = Some ch'
  | Err _ => attachments (fan_out rt ev) !! aid = None ∧ orphans (fan_out rt ev) !! aid = Some ch
  end.
Proof.
  intros Hl. destruct (try_send ch ev) as [ch'|] eqn:E; simpl; rewrite lookup_omap Hl /= E //.
  split; [done|]. apply lookup_union_Some_l. apply map_lookup_filter_Some. by rewrite /= E.
Qed.

Lemma fan_out_detached rt ev aid :
  attachments rt !! aid = None →
  attachments (fan_out rt ev) !! aid = None ∧ orphans (fan_out rt ev) !! aid = orphans rt !! aid.
Proof.
  intros Hl. simpl. rewrite lookup_omap Hl /=. split; [done|].
  apply lookup_union_r. apply map_lookup_filter_None. by left.
Qed.

(** Chunks pumped by the shell and events taken by the client, interleaved. *)
Inductive pump_event := PChunk (c : bytes) | PRecv.

Definition chunks (evs : list pump_event) : list bytes :=
  omap (λ ev, match ev with PChunk c => Some c | PRecv => None end) evs.

Fixpoint pump_run (e : ShellEntry) (aid : Z) (evs : list pump_event) (got : list AttachmentEvent)
    : option (ShellEntry * list AttachmentEvent) :=
  match evs with
  | [] => Some (e, got)
  | PChunk c :: evs => e' ← pump_chunk e c; pump_run e' aid evs got
  | PRecv :: evs =>
      pump_run (set_runtime e (rt_channel ch_recv aid (runtime e))) aid evs
        (got ++ match chan (runtime e) aid with Some ch => take 1 (queue ch) | None => [] end)
  end.

Lemma chan_recv rt aid ch :
  chan rt aid = Some ch → chan (rt_channel ch_recv aid rt) aid = Some (ch_recv ch).
Proof.
  rewrite /chan /= !lookup_alter_eq. destruct (attachments rt !! aid); simpl; [naive_solver|].
  by intros ->.
Qed.

(** Once detached, nothing is added to the channel any more. *)
Lemma pump_run_detached e aid ch evs got e' got' :
  attachments (runtime e) !! aid = None → chan (runtime e) aid = Some ch →
  pump_run e aid evs got = Some (e', got') →
  ∃ ch', chan (runtime e') aid = Some ch' ∧ got' ++ queue ch' = got ++ queue ch ∧
    attachments (runtime e') !! aid = None.
Proof.
  revert e ch got. induction evs as [|[c|] evs IH]; intros e ch got Hn Hc Hr; cbn [pump_run] in Hr.
  - injection Hr as <- <-. by exists ch.
  - rewrite /pump_chunk in Hr. destruct (feed _ c) as [[t rev]|]; [|done]. simpl in Hr.
    destruct (fan_out_detached (set_model (runtime e) t) (Output c) aid Hn) as [Hn' Ho'].
    eapply IH; [..|exact Hr]; [exact Hn'|]. by rewrite /chan Hn' Ho' -Hc /chan Hn.
  - rewrite Hc in Hr. apply (IH _ (ch_recv ch)) in Hr as (ch' & Hc' & Hq & Hn');
      [|by rewrite /= lookup_alter_eq Hn|by apply chan_recv].
    exists ch'. split_and!; [done| |done].
    rewrite Hq /= -app_assoc. by destruct (queue ch).
Qed.

(** However pumping and receiving interleave, what a client received
    followed by what is queued for it is, in order and without a gap, a prefix
    of the shell's output since it attached, and all of it as long as the
    client is attached. *)
Theorem pump_delivery e aid ch evs e' got :
  attachments (runtime e) !! aid = Some ch → pump_run e aid evs [] = Some (e', got) →
  ∃ ch' k, chan (runtime e') aid = Some ch' ∧
    got ++ queue ch' = queue ch ++ map Output (take k (chunks evs)) ∧
    (is_Some (attachments (runtime e') !! aid) → k = length (chunks evs)).
Proof.
  rewrite -(app_nil_l (queue ch)). generalize (@nil AttachmentEvent) as acc. revert e ch.
  induction evs as [|[c|] evs IH]; intros e ch acc Hl Hr; cbn [pump_run] in Hr.
  - injection Hr as <- <-. exists ch, 0%nat. rewrite /chan Hl. by rewrite app_nil_r.
  - rewrite /pump_chunk in Hr. destruct (feed _ c) as [[t rev]|]; [|done]. simpl in Hr.
    pose proof (fan_out_attached (set_model (runtime e) t) (Output c) aid ch Hl) as Hf.
    destruct (try_send ch (Output c)) as [ch1|] eqn:Es.
    + destruct (IH (set_runtime e (fan_out (set_model (runtime e) t) (Output c))) ch1 acc Hf Hr)
        as (ch' & k & Hc & Hq & Ha).
      apply try_send_Ok in Es as (_ & _ & Hq1 & _).
      exists ch', (Datatypes.S k). split_and!; [done| |intros HS; simpl; by rewrite Ha].
      rewrite Hq Hq1 -!app_assoc. done.
    + destruct Hf as [Hn Ho]. eapply (pump_run_detached _ aid ch) in Hr as (ch' & Hc & Hq & Hn');
        [|done|by rewrite /chan Hn].
      exists ch', 0%nat. split_and!; [done|by rewrite Hq app_nil_r|]. rewrite Hn'. by intros [].
  - rewrite /chan Hl in Hr. eapply (IH _ (ch_recv ch)) in Hr as (ch' & k & Hc & Hq & Ha);
      [|by rewrite /= lookup_alter_eq Hl].
    exists ch', k. split_and!; [done| |done]. rewrite Hq -!app_assoc. f_equal. simpl.
    by destruct (queue ch).
Qed.
End props.
