(* ===== verification/SessionWitness.v ===== *)
(** * Concrete runs of the session core

    A minimal host, PTY and hash that satisfy the parameters of
    [SessionCore], and the properties of [SessionProps] applied to runs on
    them. *)
From S2P Require Import Prelude Ids History TerminalModel Launch SessionCore SessionSteps SessionProps.

(** A PTY is a flag: can it be killed? *)
Definition toy_pty : PtyOps := {|
  Pty := bool; PtyError := unit; RemotePty := bool;
  pty_spawn _ _ _ _ := Ok true;
  spawn_shell _ _ := Ok true;
  pty_adopt r := Ok r;
  pty_take_output p := (p, true);
  pty_write p _ := (p, Ok ());
  pty_resize p _ _ := (p, Ok ());
  pty_kill p := (p, if p then Ok () else Err ());
  pty_wait _ := Ok {| exit_success := true; exit_code := 0 |} |}.

Definition toy_hash : HashOps := {| sha256 l := default (array_repeat 32 Byte.x00) (array_of 32 l) |}.

Definition toy_host : Host := {|
  path_exists _ := true; env_var _ := None; user_from_name _ := Ok None; geteuid := 0;
  debug_str s := s |}.

#[local] Existing Instances toy_pty toy_hash echo_vt.

Definition alice : str := lit "alice".
Definition toy_req : OpenShellRequest := {|
  req_user := alice; requested_account := None; req_command := None; req_args := [];
  req_cols := 80; req_rows := 24; idempotency_key := array_repeat 16 Byte.x01 |}.
Definition tok (b : Byte.byte) : ResumeToken := array_repeat 32 b.
Definition toy_id : ShellId := array_repeat 16 Byte.x07.
Definition toy_fresh : Fresh := {|
  fresh_token := tok Byte.x0a; fresh_id := toy_id; fresh_now := 1000; thread_spawn := Ok () |}.
Definition toy_policy : AccessPolicy := StaticPolicy {[ alice := [lit "al"] ]}.
Definition toy_m0 : ShellManager := with_policy session_config_default toy_policy.

(** After one open; the entry and the PTY it has. *)
Definition toy_m1 : ShellManager := default toy_m0 (exec toy_host toy_m0 (OpOpen toy_req toy_fresh)).
Definition toy_entry : ShellEntry :=
  new_entry session_config_default toy_fresh toy_req (Some (lit "al")) true 80 24.

Lemma toy_m1_step : exec toy_host toy_m0 (OpOpen toy_req toy_fresh) = Some toy_m1.
Proof. vm_compute. reflexivity. Qed.

Lemma toy_m1_reachable : reachable toy_host toy_m1.
Proof.
  exists session_config_default, toy_policy. apply rtc_once.
  exists (OpOpen toy_req toy_fresh). split; [done|]. apply toy_m1_step.
Qed.

Lemma toy_m1_entry : shells toy_m1 !! toy_id = Some toy_entry.
Proof. vm_compute. reflexivity. Qed.

(** ** The properties at this run *)
Lemma reachable_limits_witness :
  len (live_shells toy_m1) ≤ 16.
Proof. exact (proj1 (reachable_limits toy_host toy_m1 toy_m1_reachable)). Defined.

Definition toy_m2 : ShellManager := default toy_m1 (exec toy_host toy_m1 (OpEof toy_id)).

Lemma lifecycle_monotone_witness :
  exec toy_host toy_m1 (OpEof toy_id) = Some toy_m2 ∧
  (OpEof toy_id = OpRemove toy_id ∧ state (runtime toy_entry) = Exited ∧
     shells toy_m2 !! toy_id = None ∨
   ∃ e', shells toy_m2 !! toy_id = Some e' ∧ owner e' = owner toy_entry ∧
     account e' = account toy_entry ∧ created_at_ms e' = created_at_ms toy_entry ∧
     rank (state (runtime toy_entry)) ≤ rank (state (runtime e')) ∧
     ∀ x, exit (runtime toy_entry) = Some x → exit (runtime e') = Some x).
Proof.
  assert (exec toy_host toy_m1 (OpEof toy_id) = Some toy_m2) as Hex by (vm_compute; reflexivity).
  split; [exact Hex|].
  apply (lifecycle_monotone toy_host toy_m1 (OpEof toy_id) toy_m2 toy_id toy_entry
           toy_m1_reachable); [|exact Hex|apply toy_m1_entry].
  intros e He. rewrite toy_m1_entry in He. injection He as <-. reflexivity.
Defined.

Lemma only_termination_ends_witness :
  ∃ e', shells toy_m1 !! toy_id = Some e' ∧ state (runtime e') = Running ∧
    is_Some (pty (runtime e')).
Proof.
  apply (only_termination_ends toy_host toy_m1 (OpRemove toy_id) toy_m1 toy_id toy_entry
           toy_m1_reachable I).
  - vm_compute. reflexivity.
  - apply toy_m1_entry.
  - reflexivity.
  - intros [Hf _]. discriminate Hf.
Defined.

Definition mallory_attach : op :=
  OpAttach (lit "mallory") toy_id (tok Byte.x0a) 80 24 (tok Byte.x0b) 2000.

Lemma owner_isolation_witness :
  exec toy_host toy_m1 mallory_attach = Some toy_m1 ∧ shells toy_m1 !! toy_id = Some toy_entry.
Proof.
  assert (exec toy_host toy_m1 mallory_attach = Some toy_m1) as Hex by (vm_compute; reflexivity).
  split; [exact Hex|].
  apply (owner_isolation toy_host toy_m1 mallory_attach toy_m1 (lit "mallory") toy_id toy_entry
           toy_m1_reachable); [|exact Hex|reflexivity|apply toy_m1_entry|by vm_compute].
  intros e He. rewrite toy_m1_entry in He. injection He as <-. by vm_compute.
Defined.

Definition toy_attach : option (ShellManager * result Attachment SessionError) :=
  attach toy_m1 alice toy_id (tok Byte.x0a) 100 40 (tok Byte.x0b) 2000.
Definition toy_m3 : ShellManager := default toy_m1 (fst <$> toy_attach).
Definition toy_att : Attachment := {|
  attachment_id := 1; att_shell_id := toy_id; att_snapshot := []; screen_revision := 2;
  rotated_resume_token := tok Byte.x0b; oldest_history_line_id := 0; newest_history_line_id := 0 |}.

Lemma attach_rotates_token_witness :
  (∃ e, shells toy_m1 !! toy_id = Some e ∧ owner e = alice ∧ state (runtime e) = Running ∧
     token_hash (runtime e) = token_hash_of (tok Byte.x0a)) ∧
  rotated_resume_token toy_att = tok Byte.x0b ∧ att_shell_id toy_att = toy_id ∧
  (∀ c r t n, attach toy_m3 alice toy_id (tok Byte.x0a) c r t n = Some (toy_m3, Err TokenReplayed)) ∧
  (∃ e', shells toy_m3 !! toy_id = Some e' ∧ owner e' = alice ∧
     token_hash (runtime e') = token_hash_of (tok Byte.x0b)).
Proof.
  apply (attach_rotates_token toy_m1 alice toy_id (tok Byte.x0a) 100 40 (tok Byte.x0b) 2000
           toy_m3 toy_att); [vm_compute; reflexivity|by vm_compute].
Defined.

Definition toy_opened : OpenedShell :=
  {| opened_id := toy_id; opened_token := tok Byte.x0a; reused := false |}.

Lemma toy_m0_reachable : reachable toy_host toy_m0.
Proof. by exists session_config_default, toy_policy. Qed.

Lemma open_shell_idempotent_witness :
  ∃ e, shells toy_m1 !! toy_id = Some e ∧ owner e = alice ∧
    open_shell toy_host toy_m1 toy_req toy_fresh =
      Some (put_runtime toy_m1 toy_id e (rotate_token (runtime e) (tok Byte.x0a)),
            Ok {| opened_id := toy_id; opened_token := tok Byte.x0a; reused := true |}).
Proof.
  apply (open_shell_idempotent toy_host toy_m0 toy_req toy_fresh toy_m1 toy_opened
           [OpWrite toy_id [Byte.x61]] toy_m1 toy_req toy_fresh toy_m0_reachable);
    [reflexivity|vm_compute; reflexivity|by simpl|vm_compute; reflexivity| |reflexivity].
  intros Hin. apply list_elem_of_singleton in Hin. discriminate Hin.
Defined.

Lemma open_shell_authorized_witness :
  ∃ e, shells toy_m1 !! toy_id = Some e ∧ owner e = alice ∧
    (reused toy_opened = false →
       state (runtime e) = Running ∧ len (live_shells toy_m0) < 16 ∧
       ∃ accounts, ({[ alice := [lit "al"] ]} : gmap str (list str)) !! alice = Some accounts ∧
         match account e with Some a => a ∈ accounts | None => accounts = [] end).
Proof.
  apply (open_shell_authorized toy_host toy_m0 toy_req toy_fresh toy_m1 toy_opened
           {[ alice := [lit "al"] ]} toy_m0_reachable eq_refl).
  vm_compute. reflexivity.
Defined.

Lemma terminate_completes_witness :
  ∃ m1 m2 m3 e3,
    terminate_start toy_m1 toy_id = (m1, Wait) ∧
    (∀ user tok cols rows t n a m',
       attach m1 user toy_id tok cols rows t n ≠ Some (m', Ok a)) ∧
    exec toy_host m1 (OpEof toy_id) = Some m2 ∧
    terminate_finish m2 toy_id false = Some (m3, Ok {| exit_success := true; exit_code := 0 |}) ∧
    shells m3 !! toy_id = Some e3 ∧ state (runtime e3) = Exited ∧ attachments (runtime e3) = ∅ ∧
    terminate_start m3 toy_id = (m3, Done (Ok {| exit_success := true; exit_code := 0 |})).
Proof.
  apply (terminate_completes toy_host toy_m1 toy_id toy_entry true true
           {| exit_success := true; exit_code := 0 |} toy_m1_reachable toy_m1_entry);
    reflexivity.
Defined.

(** The same shell with a PTY that cannot be killed. *)
Definition stuck_rt : Runtime := set_pty (runtime toy_entry) (Some false).
Definition stuck_m : ShellManager := put_runtime toy_m1 toy_id toy_entry stuck_rt.

Lemma terminate_kill_failure_witness :
  ∃ m' e', terminate_start stuck_m toy_id = (m', Done (Err (PtyFailed ()))) ∧
    shells m' !! toy_id = Some e' ∧ state (runtime e') = Terminating ∧
    pty (runtime e') = Some false ∧
    (∀ c r t n, attach_authorized m' alice toy_id c r t n =
       Some (put_runtime m' toy_id e' (runtime e'), Err NotRunning)) ∧
    ∀ cutoff, reap_one m' cutoff toy_id = None.
Proof.
  apply (terminate_kill_failure stuck_m toy_id (set_runtime toy_entry stuck_rt) false false ());
    [|reflexivity..]. vm_compute. reflexivity.
Defined.

Lemma reap_only_idle_witness :
  toy_id ∈ reap_candidates toy_m1 5000 ↔
  ∃ e, shells toy_m1 !! toy_id = Some e ∧ state (runtime e) = Running ∧
    attachments (runtime e) = ∅ ∧ idle_anchor_ms e ≤ 5000.
Proof. exact (proj1 (reap_only_idle toy_host toy_m1 5000 toy_m1_reachable) toy_id). Defined.

(** Alice's attached shell: two chunks with a receive in between. *)
Definition toy_entry3 : ShellEntry := default toy_entry (shells toy_m3 !! toy_id).
Definition toy_events : list pump_event := [PChunk [Byte.x61]; PRecv; PChunk [Byte.x62]].

Lemma pump_delivery_witness :
  ∃ e' got ch' k, pump_run toy_entry3 1 toy_events [] = Some (e', got) ∧
    chan (runtime e') 1 = Some ch' ∧
    got ++ queue ch' = [] ++ map Output (take k (chunks toy_events)) ∧
    (is_Some (attachments (runtime e') !! 1) → k = length (chunks toy_events)).
Proof.
  assert (∃ r, pump_run toy_entry3 1 toy_events [] = Some r) as [[e' got] Hr]
    by (eexists; vm_compute; reflexivity).
  destruct (pump_delivery toy_entry3 1
              {| queue := []; capacity := 128; rx_alive := true |} toy_events e' got)
    as (ch' & k & Hd); [vm_compute; reflexivity|exact Hr|].
  exists e', got, ch', k. split; [exact Hr|exact Hd].
Defined.
