(* ===== verification/Agent.v ===== *)
(** * The agent's end of the managed-server link

    [crates/agent/src/lib.rs]: registration with the gateway, the reconnect
    loop, the control operations it serves and the attachment streams. All of
    them act on the local [ShellManager] through the operations of
    [SessionCore]. A panic in one of those is [None]. The clock, random values,
    what the network delivers and which branch of a [select!] is ready are
    arguments. *)
From S2P Require Import Prelude Protocol Framing AgentWire Auth Ids History TerminalModel Launch SessionCore.

Inductive AgentError :=
  | AeBuildTooLong (n : Z)
  | AeConnect
  | AeStream (e : StreamError)
  | AeRejected (reason : str)
  | AeUnexpectedResponse
  | AeServerIdentityMismatch
  | AeInvalidReconnectPolicy
  | AeInvalidGrantAudience
  | AeMissingAccountPolicy
  | AeUnexpectedAttachmentMessage
  | AeAttachmentIdentityMismatch
  | AeAttachmentForwarder
  | AeOversizedTerminalOutput (n : Z).

(** ** Registration *)
Record RegistrationRequest := {
  rr_server_id : ServerId; rr_agent_build : str; rr_max_frame_bytes : Z }.

Definition registration_request_new (server_id : ServerId) (agent_build : str)
    : result RegistrationRequest AgentError :=
  if AGENT_BUILD_BYTES_MAX <? str_len agent_build then Err (AeBuildTooLong (str_len agent_build))
  else Ok {| rr_server_id := server_id; rr_agent_build := agent_build;
             rr_max_frame_bytes := AGENT_CONTROL_FRAME_BYTES_MAX |}.

Definition register_envelope (q : RegistrationRequest) : AgentEnvelope := {|
  ae_request_id := 0; ae_server_id := to_wire (rr_server_id q); ae_shell_id := [];
  ae_message := Some (AgRegister {|
    reg_protocol_major := PROTOCOL_MAJOR; reg_protocol_minor := PROTOCOL_MINOR;
    reg_server_id := to_wire (rr_server_id q); reg_agent_build := rr_agent_build q;
    reg_max_frame_bytes := rr_max_frame_bytes q |}) |}.

Definition validate_registration (expected : ServerId) (envelope_server_id : bytes)
    (registration : AgentRegistration) : result unit AgentError :=
  if negb (rn_accepted registration) then Err (AeRejected (rn_rejection_reason registration))
  else
    let? returned := map_err (λ _, AeUnexpectedResponse) (from_wire (rn_server_id registration)) in
    let? scoped := map_err (λ _, AeUnexpectedResponse) (from_wire envelope_server_id) in
    if negb (bool_decide (returned = expected)) || negb (bool_decide (scoped = expected)) ||
       (rn_max_frame_bytes registration <? AGENT_CONTROL_FRAME_BYTES_MIN) ||
       (AGENT_CONTROL_FRAME_BYTES_MAX <? rn_max_frame_bytes registration) ||
       (rn_keepalive_interval_ms registration =? 0)
    then Err AeUnexpectedResponse else Ok ().

Record RegisteredLink := {
  rl_send : SendStream; rl_recv : RecvStream; rl_server_id : ServerId;
  rl_max_frame_bytes : Z; rl_keepalive_interval_ms : Z }.

Definition link_streams (l : RegisteredLink) (s : SendStream) (r : RecvStream) : RegisteredLink := {|
  rl_send := s; rl_recv := r; rl_server_id := rl_server_id l;
  rl_max_frame_bytes := rl_max_frame_bytes l;
  rl_keepalive_interval_ms := rl_keepalive_interval_ms l |}.

Section connect.
Context `{ProstMessage AgentEnvelope}.

(** [streams]: the connection came up and opened its control stream. *)
Definition connect (q : RegistrationRequest) (streams : option (SendStream * RecvStream))
    : result RegisteredLink AgentError :=
  let? (send, recv) := ok_or streams AeConnect in
  let '(send, w) := write_envelope send (register_envelope q) AGENT_CONTROL_FRAME_BYTES_MAX in
  let? _ := map_err AeStream w in
  let '(recv, response) := read_envelope recv AGENT_CONTROL_FRAME_BYTES_MAX in
  let? response := map_err AeStream response in
  match ae_message response with
  | Some (AgRegistration registration) =>
      let? _ := validate_registration (rr_server_id q) (ae_server_id response) registration in
      Ok {| rl_send := send; rl_recv := recv; rl_server_id := rr_server_id q;
            rl_max_frame_bytes := rn_max_frame_bytes registration;
            rl_keepalive_interval_ms := rn_keepalive_interval_ms registration |}
  | _ => Err AeUnexpectedResponse
  end.

Definition ping (l : RegisteredLink) (nonce : Z) : RegisteredLink * result unit AgentError :=
  let '(send, w) := write_envelope (rl_send l) {|
    ae_request_id := 0; ae_server_id := to_wire (rl_server_id l); ae_shell_id := [];
    ae_message := Some (AgPing nonce) |} (rl_max_frame_bytes l) in
  match w with
  | Err e => (link_streams l send (rl_recv l), Err (AeStream e))
  | Ok _ =>
      let '(recv, response) := read_envelope (rl_recv l) (rl_max_frame_bytes l) in
      (link_streams l send recv,
       let? response := map_err AeStream response in
       match ae_message response with
       | Some (AgPong n) => if n =? nonce then Ok () else Err AeUnexpectedResponse
       | _ => Err AeUnexpectedResponse
       end)
  end.
End connect.

(** ** The reconnect loop

    Durations are in nanoseconds; [saturating_mul] stops at [Duration::MAX]. *)
Definition duration_max : Z := (2 ^ 64 - 1) * 10 ^ 9 + 999999999.

Record ReconnectPolicy := { initial_delay : Z; maximum_delay : Z }.

Definition reconnect_default : ReconnectPolicy :=
  {| initial_delay := 250 * 10 ^ 6; maximum_delay := 10 * 10 ^ 9 |}.

Definition validate_policy (p : ReconnectPolicy) : result ReconnectPolicy AgentError :=
  if (initial_delay p =? 0) || (maximum_delay p =? 0) || (maximum_delay p <? initial_delay p)
  then Err AeInvalidReconnectPolicy else Ok p.

(** [AgentSupervisor::new], its checks. *)
Definition supervisor_new (policy : ReconnectPolicy) (grant_audience : str)
    : result (ReconnectPolicy * str) AgentError :=
  if is_empty grant_audience || (AGENT_AUDIENCE_BYTES_MAX <? str_len grant_audience)
  then Err AeInvalidGrantAudience
  else let? policy := validate_policy policy in Ok (policy, grant_audience).

(** The loop's [delay], and the shared [SupervisorState]. *)
Record Supervisor := { sp_delay : Z; sp_connected : bool; sp_registrations : Z }.

Definition supervisor_start (p : ReconnectPolicy) : Supervisor :=
  {| sp_delay := initial_delay p; sp_connected := false; sp_registrations := 0 |}.

(** One turn: [registered] says whether [connect] succeeded (the link was then
    served until it was lost). The result has the time slept. *)
Definition run_turn (p : ReconnectPolicy) (s : Supervisor) (registered : bool) : Supervisor * Z :=
  let delay := if registered then initial_delay p else sp_delay s in
  ({| sp_delay := Z.min (Z.min (delay * 2) duration_max) (maximum_delay p); sp_connected := false;
      sp_registrations := if registered then wrap64 (sp_registrations s + 1)
                          else sp_registrations s |},
   delay).

Fixpoint run_turns (p : ReconnectPolicy) (s : Supervisor) (outcomes : list bool)
    : Supervisor * list Z :=
  match outcomes with
  | [] => (s, [])
  | o :: os => let '(s, d) := run_turn p s o in
               let '(s, ds) := run_turns p s os in (s, d :: ds)
  end.

(** ** Validation of gateway requests *)
Inductive OpenValidationError := OvInvalid | OvUnauthenticated | OvForbidden.

Definition map_open_validation_error (e : OpenValidationError) : ErrorCode * str :=
  match e with
  | OvInvalid => (ErrUnknownMessage, lit "invalid shell request")
  | OvUnauthenticated => (ErrUnauthenticated, lit "invalid connection grant")
  | OvForbidden => (ErrForbidden, lit "grant scope denied shell")
  end.

(** The outcome so far: the function returned, or goes on. *)
Inductive Progress (X : Type) := Returned (send : SendStream) (r : result unit AgentError) | Running_ (x : X).
Arguments Returned {X} send r.
Arguments Running_ {X} x.

Section agent.
Context {V : VtOps} {P : PtyOps} {S : HashOps} {K : GrantCrypto} `{ProstMessage AgentEnvelope}.

(** The grant of a request: decoded, verified for the audience, and for this
    user, operation and server. *)
Definition check_grant (verifier : GrantVerifier) (expected_audience : str) (server_id : ServerId)
    (now : Z) (grant : bytes) (user operation : str) : result GrantClaims OpenValidationError :=
  let? grant := map_err (λ _, OvUnauthenticated) (grant_from_wire grant) in
  let? claims := map_err (λ e, match e with
                               | WrongAudience _ _ => OvForbidden
                               | _ => OvUnauthenticated
                               end) (verify verifier grant expected_audience now) in
  if negb (bool_decide (sub claims = user)) || negb (claims_permits claims operation) ||
     negb (existsb (λ allowed, bool_decide (allowed = display SERVER_PREFIX server_id))
             (servers claims))
  then Err OvForbidden else Ok claims.

(** [(!s.is_empty()).then_some(s)]. *)
Definition then_some (s : str) : option str := if is_empty s then None else Some s.

Definition validate_open_request (open : AgentOpenShell) (verifier : GrantVerifier)
    (expected_audience : str) (server_id : ServerId) (now : Z)
    : result OpenShellRequest OpenValidationError :=
  if is_empty (ao_user_id open) || (AGENT_USER_ID_BYTES_MAX <? str_len (ao_user_id open)) ||
     (AGENT_UNIX_ACCOUNT_BYTES_MAX <? str_len (ao_unix_account open)) ||
     (AGENT_COMMAND_BYTES_MAX <? str_len (ao_command open)) ||
     is_empty (ao_connection_grant open) ||
     (AGENT_GRANT_BYTES_MAX <? len (ao_connection_grant open)) ||
     negb (len (ao_idempotency_key open) =? 16) ||
     (u16_max <? ao_initial_cols open) || (u16_max <? ao_initial_rows open)
  then Err OvInvalid
  else
    let? key := ok_or (array_of 16 (ao_idempotency_key open)) OvInvalid in
    let? _ := check_grant verifier expected_audience server_id now (ao_connection_grant open)
                (ao_user_id open) (lit "open") in
    Ok {| req_user := ao_user_id open; requested_account := then_some (ao_unix_account open);
          req_command := then_some (ao_command open); req_args := [];
          req_cols := wrap16 (ao_initial_cols open); req_rows := wrap16 (ao_initial_rows open);
          idempotency_key := key |}.

Record AttachmentAuthorization := {
  az_user_id : str; az_cols : Z; az_rows : Z; az_expires_at_ms : Z }.

Definition validate_attach_request (attach : AgentAttachShell) (verifier : GrantVerifier)
    (expected_audience : str) (server_id : ServerId) (now : Z)
    : result AttachmentAuthorization OpenValidationError :=
  if is_empty (aa_user_id attach) || (AGENT_USER_ID_BYTES_MAX <? str_len (aa_user_id attach)) ||
     is_empty (aa_connection_grant attach) ||
     (AGENT_GRANT_BYTES_MAX <? len (aa_connection_grant attach)) ||
     (u16_max <? aa_cols attach) || (u16_max <? aa_rows attach)
  then Err OvInvalid
  else
    let? claims := check_grant verifier expected_audience server_id now (aa_connection_grant attach)
                     (aa_user_id attach) (lit "attach") in
    Ok {| az_user_id := aa_user_id attach; az_cols := wrap16 (aa_cols attach);
          az_rows := wrap16 (aa_rows attach); az_expires_at_ms := exp_ms claims |}.

Definition map_session_error (e : SessionError) : ErrorCode * str * bool :=
  match e with
  | Forbidden => (ErrForbidden, lit "local access policy denied shell", false)
  | LimitExceeded _ => (ErrLimitExceeded, lit "local shell limit exceeded", true)
  | PtyFailed _ => (ErrInternal, lit "local PTY launch failed", true)
  | Internal _ => (ErrInternal, lit "invalid shell request", false)
  | ShellNotFound | NotRunning | InvalidToken | TokenReplayed =>
      (ErrInternal, lit "invalid shell state", false)
  end.

Definition map_attachment_session_error (e : SessionError) : ErrorCode * str * bool :=
  match e with
  | ShellNotFound | Forbidden | InvalidToken | TokenReplayed =>
      (ErrForbidden, lit "shell attachment denied", false)
  | NotRunning => (ErrNotReady, lit "shell is not running", false)
  | LimitExceeded _ => (ErrLimitExceeded, lit "local attachment limit exceeded", true)
  | PtyFailed _ => (ErrInternal, lit "local PTY operation failed", true)
  | Internal _ => (ErrInternal, lit "invalid shell state", false)
  end.

(** ** The control stream *)
Inductive AgentAction :=
  | AaPing (nonce : Z)
  | AaShellOpened (shell_id : ShellId) (reused : bool)
  | AaShellRejected (code : ErrorCode)
  | AaUnknownRejected.

Definition agent_error (request_id : Z) (server shell : bytes) (code : ErrorCode) (message : str)
    (retryable : bool) : AgentEnvelope := {|
  ae_request_id := request_id; ae_server_id := server; ae_shell_id := shell;
  ae_message := Some (AgError {| err_code := error_code_i32 code; err_human_message := message;
                                 err_retryable := retryable |}) |}.

(** Write on the control stream and return [x] when that succeeded. *)
Definition reply {X} (l : RegisteredLink) (env : AgentEnvelope) (x : X)
    : RegisteredLink * result X AgentError :=
  let '(send, w) := write_envelope (rl_send l) env (rl_max_frame_bytes l) in
  (link_streams l send (rl_recv l), let? _ := map_err AeStream w in Ok x).

Definition send_protocol_error {X} (l : RegisteredLink) (request_id : Z) (code : ErrorCode)
    (message : str) (retryable : bool) (x : X) : RegisteredLink * result X AgentError :=
  reply l (agent_error request_id (to_wire (rl_server_id l)) [] code message retryable) x.

(** What the environment supplies while one request is served. *)
Record AgentInputs := { ai_now_ms : Z; ai_fresh : Fresh; ai_token : ResumeToken }.

Definition serve_open (H : Host) (verifier : GrantVerifier) (audience : str) (inp : AgentInputs)
    (l : RegisteredLink) (m : ShellManager) (request_id : Z) (open : AgentOpenShell)
    : option (ShellManager * (RegisteredLink * result AgentAction AgentError)) :=
  match validate_open_request open verifier audience (rl_server_id l) (ai_now_ms inp) with
  | Err e =>
      let '(code, message) := map_open_validation_error e in
      Some (m, send_protocol_error l request_id code message false (AaShellRejected code))
  | Ok local_request =>
      '(m, r) ← open_shell H m local_request (ai_fresh inp);
      Some (m, match r with
               | Ok opened =>
                   reply l {|
                     ae_request_id := request_id; ae_server_id := to_wire (rl_server_id l);
                     ae_shell_id := [];
                     ae_message := Some (AgShellOpened {|
                       aso_shell_id := to_wire (opened_id opened);
                       aso_reused := reused opened |}) |}
                     (AaShellOpened (opened_id opened) (reused opened))
               | Err e =>
                   let '(code, message, retryable) := map_session_error e in
                   send_protocol_error l request_id code message retryable (AaShellRejected code)
               end)
  end.

Definition serve_next (H : Host) (verifier : GrantVerifier) (audience : str) (inp : AgentInputs)
    (l : RegisteredLink) (m : ShellManager)
    : option (ShellManager * (RegisteredLink * result AgentAction AgentError)) :=
  let '(recv, request) := read_envelope (rl_recv l) (rl_max_frame_bytes l) in
  let l := link_streams l (rl_send l) recv in
  match request with
  | Err e => Some (m, (l, Err (AeStream e)))
  | Ok request =>
      match from_wire (ae_server_id request) with
      | Err _ => Some (m, (l, Err AeServerIdentityMismatch))
      | Ok scoped_server =>
          if negb (bool_decide (scoped_server = rl_server_id l)) then
            let '(l, _) := send_protocol_error l (ae_request_id request) ErrForbidden
                             (lit "server identity mismatch") false () in
            Some (m, (l, Err AeServerIdentityMismatch))
          else
            match ae_message request with
            | Some (AgPing nonce) =>
                Some (m, reply l {|
                  ae_request_id := ae_request_id request; ae_server_id := to_wire (rl_server_id l);
                  ae_shell_id := []; ae_message := Some (AgPong nonce) |} (AaPing nonce))
            | Some (AgOpenShell open) => serve_open H verifier audience inp l m (ae_request_id request) open
            | _ =>
                Some (m, send_protocol_error l (ae_request_id request) ErrUnknownMessage
                           (lit "unexpected agent control message") false AaUnknownRejected)
            end
      end
  end.

(** ** Attachment streams *)
Definition validate_scope (envelope : AgentEnvelope) (server_id : ServerId)
    : result ShellId AgentError :=
  match from_wire (ae_server_id envelope) with
  | Ok s => if bool_decide (s = server_id)
            then map_err (λ _, AeAttachmentIdentityMismatch) (from_wire (ae_shell_id envelope))
            else Err AeServerIdentityMismatch
  | Err _ => Err AeServerIdentityMismatch
  end.

(** A running [serve_attachment], after the attach: its streams, and the lease. *)
Record AttachTask := {
  tk_send : SendStream; tk_recv : RecvStream; tk_server_id : ServerId; tk_shell_id : ShellId;
  tk_attachment_id : Z; tk_user_id : str; tk_expires_at_ms : Z }.

Definition task_streams (t : AttachTask) (s : SendStream) (r : RecvStream) : AttachTask := {|
  tk_send := s; tk_recv := r; tk_server_id := tk_server_id t; tk_shell_id := tk_shell_id t;
  tk_attachment_id := tk_attachment_id t; tk_user_id := tk_user_id t;
  tk_expires_at_ms := tk_expires_at_ms t |}.

Definition attachment_error (server_id : ServerId) (shell_id : ShellId) (request_id : Z)
    (code : ErrorCode) (message : str) (retryable : bool) : AgentEnvelope :=
  agent_error request_id (to_wire server_id) (to_wire shell_id) code message retryable.

(** [send_attachment_error(..).await?; return r]. *)
Definition error_then {X} (send : SendStream) (env : AgentEnvelope) (r : result unit AgentError)
    : Progress X :=
  let '(send, w) := write_envelope send env AGENT_ATTACHMENT_FRAME_BYTES_MAX in
  Returned send (let? _ := map_err AeStream w in r).

(** Dropping the lease. *)
Definition drop_lease (m : ShellManager) (shell_id : ShellId) (attachment_id : Z) : ShellManager :=
  fst (detach m shell_id attachment_id).

(** [serve_attachment] up to its loop. [forwarder] says whether the output
    thread started; an error after the attach drops the lease. *)
Definition attach_begin (verifier : GrantVerifier) (audience : str) (inp : AgentInputs)
    (server_id : ServerId) (send : SendStream) (recv : RecvStream) (forwarder : bool)
    (m : ShellManager) : option (ShellManager * Progress AttachTask) :=
  let '(recv, first) := read_envelope recv AGENT_ATTACHMENT_FRAME_BYTES_MAX in
  match first with
  | Err e => Some (m, Returned send (Err (AeStream e)))
  | Ok first =>
      match validate_scope first server_id with
      | Err e => Some (m, Returned send (Err e))
      | Ok shell_id =>
          match ae_message first with
          | Some (AgAttachShell request) =>
              match validate_attach_request request verifier audience server_id (ai_now_ms inp) with
              | Err e =>
                  let '(code, message) := map_open_validation_error e in
                  Some (m, error_then send (attachment_error server_id shell_id (ae_request_id first)
                                              code message false) (Ok ()))
              | Ok authorization =>
                  '(m, r) ← attach_authorized m (az_user_id authorization) shell_id
                              (az_cols authorization) (az_rows authorization) (ai_token inp)
                              (ai_now_ms inp);
                  match r with
                  | Err e =>
                      let '(code, message, retryable) := map_attachment_session_error e in
                      Some (m, error_then send (attachment_error server_id shell_id
                                 (ae_request_id first) code message retryable) (Ok ()))
                  | Ok attachment =>
                      let '(send, w) := write_envelope send {|
                        ae_request_id := ae_request_id first; ae_server_id := to_wire server_id;
                        ae_shell_id := to_wire shell_id;
                        ae_message := Some (AgShellAttached {|
                          asa_screen_snapshot := att_snapshot attachment;
                          asa_screen_revision := screen_revision attachment;
                          asa_oldest_history_line_id := oldest_history_line_id attachment;
                          asa_newest_history_line_id := newest_history_line_id attachment |}) |}
                        AGENT_ATTACHMENT_FRAME_BYTES_MAX in
                      let lost := drop_lease m shell_id (attachment_id attachment) in
                      match w with
                      | Err e => Some (lost, Returned send (Err (AeStream e)))
                      | Ok _ =>
                          if negb forwarder then Some (lost, Returned send (Err AeAttachmentForwarder))
                          else Some (m, Running_ {|
                                 tk_send := send; tk_recv := recv; tk_server_id := server_id;
                                 tk_shell_id := shell_id;
                                 tk_attachment_id := attachment_id attachment;
                                 tk_user_id := az_user_id authorization;
                                 tk_expires_at_ms := az_expires_at_ms authorization |})
                      end
                  end
              end
          | _ =>
              Some (m, error_then send (attachment_error server_id shell_id (ae_request_id first)
                         ErrUnknownMessage (lit "attachment stream must begin with attach") false)
                         (Err AeUnexpectedAttachmentMessage))
          end
      end
  end.

(** [Duration::from_millis(remaining_ms.max(0) as u64)]. *)
Definition expiry_ms (t : AttachTask) (now : Z) : Z :=
  Z.max 0 (sat_i64 (tk_expires_at_ms t - now)).

(** Send on the stream; go on with [k], or return on a write error. *)
Definition send_then (t : AttachTask) (env : AgentEnvelope) (k : AttachTask → Progress AttachTask)
    : Progress AttachTask :=
  let '(send, w) := write_envelope (tk_send t) env AGENT_ATTACHMENT_FRAME_BYTES_MAX in
  match w with
  | Err e => Returned send (Err (AeStream e))
  | Ok _ => k (task_streams t send (tk_recv t))
  end.

Definition task_envelope (t : AttachTask) (request_id : Z) (message : AgentMsg) : AgentEnvelope := {|
  ae_request_id := request_id; ae_server_id := to_wire (tk_server_id t);
  ae_shell_id := to_wire (tk_shell_id t); ae_message := Some message |}.

Definition task_error (t : AttachTask) (request_id : Z) (code : ErrorCode) (message : str)
    (retryable : bool) : AgentEnvelope :=
  attachment_error (tk_server_id t) (tk_shell_id t) request_id code message retryable.

(** Report a session error and return. *)
Definition fail_session (t : AttachTask) (request_id : Z) (e : SessionError) : Progress AttachTask :=
  let '(code, message, retryable) := map_attachment_session_error e in
  error_then (tk_send t) (task_error t request_id code message retryable) (Ok ()).

(** The arms for messages from the gateway. *)
Definition on_incoming (m : ShellManager) (t : AttachTask) (envelope : AgentEnvelope)
    : option (ShellManager * Progress AttachTask) :=
  let rid := ae_request_id envelope in
  match ae_message envelope with
  | Some (AgTerminalInput data) =>
      if AGENT_TERMINAL_INPUT_BYTES_MAX <? len data then
        Some (m, error_then (tk_send t) (task_error t rid ErrInputOverflow
                   (lit "terminal input frame too large") false) (Ok ()))
      else
        let '(m, r) := write_input m (tk_shell_id t) data in
        Some (m, match r with Ok _ => Running_ t | Err e => fail_session t rid e end)
  | Some (AgTerminalResize cols rows) =>
      if (u16_max <? cols) || (u16_max <? rows) then
        Some (m, error_then (tk_send t) (task_error t rid ErrUnknownMessage
                   (lit "invalid terminal dimensions") false) (Ok ()))
      else
        '(m, r) ← resize_shell m (tk_shell_id t) (wrap16 cols) (wrap16 rows);
        Some (m, match r with Ok _ => Running_ t | Err e => fail_session t rid e end)
  | Some (AgRequestHistory request) =>
      let maximum_bytes := Z.min (rh_maximum_bytes request) (AGENT_ATTACHMENT_FRAME_BYTES_MAX / 2) in
      r ← history_of m (tk_shell_id t) (rh_before_line_id request)
            (Z.min (rh_maximum_lines request) AGENT_HISTORY_LINES_MAX) maximum_bytes;
      Some (m, match r with
               | Ok range =>
                   send_then t (task_envelope t rid (AgHistoryChunk {|
                     hc_first_line_id := first_line_id range; hc_lines := range_lines range;
                     hc_truncated_by_eviction := truncated_by_eviction range |})) (λ t,
                   let oldest := match history_bounds m (tk_shell_id t) with
                                 | Ok (oldest, _) => oldest | Err _ => 0 end in
                   send_then t (task_envelope t rid (AgHistoryEnd oldest)) (λ t, Running_ t))
               | Err e =>
                   let '(code, message, retryable) := map_attachment_session_error e in
                   send_then t (task_error t rid code message retryable) (λ t, Running_ t)
               end)
  | Some AgDetachShell => Some (m, Returned (tk_send t) (Ok ()))
  | _ =>
      Some (m, error_then (tk_send t) (task_error t rid ErrUnknownMessage
                 (lit "unexpected attachment message") false) (Ok ()))
  end.

(** The branch of the [select!] that is ready; the event queue yields the
    events of the attachment's channel in order, then its end. [taken] is how
    much of the next message the read had taken when its branch was dropped. *)
Inductive Select :=
  | SelIncoming
  | SelEvent (taken : nat) (event : option AttachmentEvent)
  | SelExpired.

Definition on_event (t : AttachTask) (event : option AttachmentEvent) : Progress AttachTask :=
  match event with
  | Some (Output data) =>
      if AGENT_TERMINAL_OUTPUT_BYTES_MAX <? len data
      then Returned (tk_send t) (Err (AeOversizedTerminalOutput (len data)))
      else send_then t (task_envelope t 0 (AgTerminalOutput data)) (λ t, Running_ t)
  | Some (Exited_ x) =>
      send_then t (task_envelope t 0 (AgShellExited {|
        se_exit_code := as_i32 (exit_code x);
        se_signaled := negb (exit_success x) && (exit_code x =? 0); se_signal := [] |}))
        (λ t, Returned (tk_send t) (Ok ()))
  | None =>
      error_then (tk_send t) (task_error t 0 ErrTooSlow (lit "attachment output queue exceeded") true)
        (Ok ())
  end.

(** One turn of the loop. *)
Definition attach_turn (m : ShellManager) (t : AttachTask) (sel : Select)
    : option (ShellManager * Progress AttachTask) :=
  match sel with
  | SelIncoming =>
      let '(recv, incoming) := read_envelope (tk_recv t) AGENT_ATTACHMENT_FRAME_BYTES_MAX in
      let t := task_streams t (tk_send t) recv in
      match incoming with
      | Err e => Some (m, Returned (tk_send t) (Err (AeStream e)))
      | Ok envelope =>
          match validate_scope envelope (tk_server_id t) with
          | Err e => Some (m, Returned (tk_send t) (Err e))
          | Ok shell_id =>
              if negb (bool_decide (shell_id = tk_shell_id t))
              then Some (m, Returned (tk_send t) (Err AeAttachmentIdentityMismatch))
              else on_incoming m t envelope
          end
      end
  | SelEvent taken event =>
      Some (m, on_event (task_streams t (tk_send t) (drop_read (tk_recv t) taken)) event)
  | SelExpired =>
      Some (m, error_then (tk_send t) (task_error t 0 ErrTokenExpired
                 (lit "connection grant expired") true) (Ok ()))
  end.

(** A turn with the drop of the lease when the function returns. *)
Definition attach_step (m : ShellManager) (t : AttachTask) (sel : Select)
    : option (ShellManager * Progress AttachTask) :=
  '(m, p) ← attach_turn m t sel;
  Some (match p with
        | Returned _ _ => drop_lease m (tk_shell_id t) (tk_attachment_id t)
        | Running_ _ => m
        end, p).
End agent.
