(* ===== verification/AgentProps.v ===== *)
(** * The agent as a transition system

    One agent over its local shell manager: the control stream, up to 64
    attachment tasks, lost links and reconnects, interleaved with everything
    else that uses the manager (local connections, pump threads, the reaper).
    What the gateway can make the agent do is bounded by verified grants, local
    ownership and the attachments it holds. *)
From S2P Require Import Prelude Protocol Framing AgentWire Auth Ids History TerminalModel Launch SessionCore SessionSteps SessionProps Agent.

Section steps.
Context {V : VtOps} {P : PtyOps} {S : HashOps} {K : GrantCrypto} {PM : ProstMessage AgentEnvelope}.
(** [self] is the server the agent is configured for; every link it makes is
    for that server ([connect]). *)
Context (H : Host) (verifier : GrantVerifier) (audience : str) (self : ServerId).

(** [ag_link] is the served link; its attachment tasks end with it. *)
Record AgentState := {
  ag_manager : ShellManager;
  ag_link : option RegisteredLink;
  ag_tasks : gmap Z AttachTask;
}.

Inductive aop :=
  | AConnected (l : RegisteredLink)
  | AControl (inp : AgentInputs)
  | AControlDropped (inp : AgentInputs) (n : nat)
  | AControlIdle (taken : nat)
  | AAccept (k : Z) (inp : AgentInputs) (send : SendStream) (recv : RecvStream) (forwarder : bool)
  | ASelect (k : Z) (sel : Select)
  | ALost
  | ALocal (o : op).

(** The end of [serve]: the [JoinSet] drops every task, and with it its lease. *)
Definition drop_tasks (m : ShellManager) (ts : list AttachTask) : ShellManager :=
  foldl (λ m t, drop_lease m (tk_shell_id t) (tk_attachment_id t)) m ts.

Definition close_link (m : ShellManager) (tasks : gmap Z AttachTask) : AgentState := {|
  ag_manager := drop_tasks m (map snd (map_to_list tasks)); ag_link := None; ag_tasks := ∅ |}.

(** One turn of [serve], of one of its tasks, or of something else. A
    completed branch of the [select!] (an accepted stream, a finished task) drops
    [serve_next] while it writes its answer ([AControlDropped]) or while it reads
    ([AControlIdle]). *)
Definition aexec (g : AgentState) (o : aop) : option AgentState :=
  match o with
  | AConnected l =>
      if bool_decide (is_Some (ag_link g)) then None
      else Some {| ag_manager := ag_manager g; ag_link := Some l; ag_tasks := ag_tasks g |}
  | AControl inp =>
      l ← ag_link g;
      '(m, (l, r)) ← serve_next H verifier audience inp l (ag_manager g);
      Some match r with
           | Ok _ => {| ag_manager := m; ag_link := Some l; ag_tasks := ag_tasks g |}
           | Err _ => close_link m (ag_tasks g)
           end
  | AControlDropped inp n =>
      l ← ag_link g;
      '(m, (l', _)) ← serve_next H verifier audience inp l (ag_manager g);
      Some {| ag_manager := m;
              ag_link := Some (link_streams l' (drop_write (rl_send l) (rl_send l') n) (rl_recv l'));
              ag_tasks := ag_tasks g |}
  | AControlIdle taken =>
      l ← ag_link g;
      Some {| ag_manager := ag_manager g;
              ag_link := Some (link_streams l (rl_send l) (drop_read (rl_recv l) taken));
              ag_tasks := ag_tasks g |}
  | AAccept k inp send recv forwarder =>
      l ← ag_link g;
      if bool_decide (ag_tasks g !! k = None) &&
         (Z.of_nat (base.size (ag_tasks g)) <? AGENT_ATTACHMENT_STREAMS_MAX) then
        '(m, p) ← attach_begin verifier audience inp (rl_server_id l) send recv forwarder (ag_manager g);
        Some {| ag_manager := m; ag_link := Some l;
                ag_tasks := match p with
                            | Running_ t => <[k := t]> (ag_tasks g)
                            | Returned _ _ => ag_tasks g
                            end |}
      else None
  | ASelect k sel =>
      t ← ag_tasks g !! k;
      '(m, p) ← attach_step (ag_manager g) t sel;
      Some {| ag_manager := m; ag_link := ag_link g;
              ag_tasks := match p with
                          | Running_ t => <[k := t]> (ag_tasks g)
                          | Returned _ _ => delete k (ag_tasks g)
                          end |}
  | ALost => _ ← ag_link g; Some (close_link (ag_manager g) (ag_tasks g))
  | ALocal o =>
      m ← exec H (ag_manager g) o;
      Some {| ag_manager := m; ag_link := ag_link g; ag_tasks := ag_tasks g |}
  end.

(** What the environment guarantees, as for the session core; nothing removes
    shells behind the agent's back ([remove_exited] has no caller). *)
Definition aop_ok (g : AgentState) (o : aop) : Prop :=
  match o with
  | AConnected l => rl_server_id l = self
  | AControl inp | AControlDropped inp _ => shells (ag_manager g) !! fresh_id (ai_fresh inp) = None
  | AAccept _ _ _ _ _ =>
      ∀ id e, shells (ag_manager g) !! id = Some e → next_attachment_id (runtime e) < u64_max
  | ALocal o => op_ok (ag_manager g) o ∧ ∀ id, o ≠ OpRemove id
  | _ => True
  end.

Definition astep (g g' : AgentState) : Prop := ∃ o, aop_ok g o ∧ aexec g o = Some g'.

Definition areachable (g : AgentState) : Prop :=
  ∃ m, reachable H m ∧ rtc astep {| ag_manager := m; ag_link := None; ag_tasks := ∅ |} g.

(** ** Entitlement

    A grant that verified at some time: signed by the issuer, for the audience,
    in its time window, naming the user and listing the operation and this
    server. *)
Definition granted (user operation : str) : Prop :=
  ∃ grant now claims, verify verifier grant audience now = Ok claims ∧ sub claims = user ∧
    claims_permits claims operation = true ∧ display SERVER_PREFIX self ∈ servers claims.

Lemma check_grant_granted now grant user operation claims :
  check_grant verifier audience self now grant user operation = Ok claims → granted user operation.
Proof.
  rewrite /check_grant. destruct (grant_from_wire grant) as [g|]; cbn [map_err]; [|done].
  destruct (verify verifier g audience now) as [c|] eqn:Ev; cbn [map_err]; [|done].
  destruct (_ || _) eqn:E; [done|]. intros [= ->]. to_prop. exists g, now, claims. split_and!; try done.
  destruct (existsb _ _) eqn:Ex; [|done]. apply existsb_exists in Ex as (x & Hx & ->%bool_decide_eq_true).
  by apply list_elem_of_In.
Qed.

Inductive agent_entitled (g : AgentState) : op → Prop :=
  | AeOpen req fr : granted (req_user req) (lit "open") → agent_entitled g (OpOpen req fr)
  | AeAttach user id cols rows token now :
      granted user (lit "attach") →
      agent_entitled g (OpAttachAuthorized user id cols rows token now)
  | AeUndo user id e aid :
      granted user (lit "attach") → shells (ag_manager g) !! id = Some e → owner e = user →
      aid = next_attachment_id (runtime e) → agent_entitled g (OpDetach id aid)
  | AeInput k t data :
      ag_tasks g !! k = Some t → len data ≤ AGENT_TERMINAL_INPUT_BYTES_MAX →
      agent_entitled g (OpWrite (tk_shell_id t) data)
  | AeResize k t cols rows :
      ag_tasks g !! k = Some t → 0 ≤ cols ≤ u16_max → 0 ≤ rows ≤ u16_max →
      agent_entitled g (OpResize (tk_shell_id t) cols rows)
  | AeDetach k t :
      ag_tasks g !! k = Some t → agent_entitled g (OpDetach (tk_shell_id t) (tk_attachment_id t)).

Definition agent_step (g : AgentState) (m m' : ShellManager) : Prop :=
  ∃ o, op_ok m o ∧ agent_entitled g o ∧ exec H m o = Some m'.

Lemma agent_once g m m' o :
  op_ok m o → agent_entitled g o → exec H m o = Some m' → rtc (agent_step g) m m'.
Proof. intros. apply rtc_once. by exists o. Qed.

Lemma validate_open_granted open now req :
  validate_open_request open verifier audience self now = Ok req →
  granted (req_user req) (lit "open").
Proof.
  rewrite /validate_open_request. case_match; [done|].
  destruct (array_of 16 _); [|done]. cbn [ok_or].
  destruct (check_grant _ _ _ _ _ _ _) as [claims|] eqn:E; [|done]. intros [= <-].
  by apply check_grant_granted in E.
Qed.

Lemma validate_attach_granted attach now az :
  validate_attach_request attach verifier audience self now = Ok az →
  granted (az_user_id az) (lit "attach").
Proof.
  rewrite /validate_attach_request. case_match; [done|].
  destruct (check_grant _ _ _ _ _ _ _) as [claims|] eqn:E; [|done]. intros [= <-].
  by apply check_grant_granted in E.
Qed.

Lemma reply_server {X} l env (x : X) l' r :
  reply l env x = (l', r) → rl_server_id l' = rl_server_id l.
Proof. rewrite /reply. destruct (write_envelope _ _ _). by intros [= <- _]. Qed.

Lemma serve_next_acts g inp l m m' l' r :
  rl_server_id l = self →
  shells m !! fresh_id (ai_fresh inp) = None →
  serve_next H verifier audience inp l m = Some (m', (l', r)) →
  rtc (agent_step g) m m' ∧ rl_server_id l' = rl_server_id l.
Proof.
  intros Hself Hf. rewrite /serve_next.
  destruct (read_envelope _ _) as [recv [req|e]]; [|by intros [= <- <- _]].
  destruct (from_wire _) as [s|]; [|by intros [= <- <- _]].
  case_bool_decide as Hs; cbn [negb]; last first.
  { destruct (send_protocol_error _ _ _ _ _ _) as [l1 r1] eqn:E. apply reply_server in E. by intros [= <- <- _]. }
  have Hrep (x : AgentAction) env : reply (link_streams l (rl_send l) recv) env x = (l', r) →
    Some m = Some m' → rtc (agent_step g) m m' ∧ rl_server_id l' = rl_server_id l.
  { intros E%reply_server [= <-]. split; [done|]. by rewrite E. }
  destruct (ae_message req) as [[]|]; try (intros [= <- E]; by eapply Hrep; [exact E|]).
  rewrite /serve_open. destruct (validate_open_request _ _ _ _ _) as [rq|e] eqn:Ev.
  - simpl in Ev. rewrite Hself in Ev. apply validate_open_granted in Ev.
    destruct (open_shell H m rq (ai_fresh inp)) as [[m1 ro]|] eqn:Eo; [|done]. cbn [mbind option_bind].
    intros [= <- E]. split.
    + apply (agent_once g _ _ (OpOpen rq (ai_fresh inp))); [done|by constructor|]. by rewrite /= Eo.
    + destruct ro as [op|e]; [by apply reply_server in E|].
      destruct (map_session_error e) as [[code msg] retr]. by apply reply_server in E.
  - destruct (map_open_validation_error e) as [code msg]. intros [= <- E].
    by eapply Hrep; [exact E|].
Qed.

(** A successful attach: the user owns the shell, and the attachment is new. *)
Lemma attach_authorized_Ok m user id cols rows token now m' a :
  attach_authorized m user id cols rows token now = Some (m', Ok a) →
  ∃ e rt', shells m !! id = Some e ∧ owner e = user ∧
    attachment_id a = next_attachment_id (runtime e) ∧
    shells m' = <[id := set_runtime e rt']> (shells m) ∧
    next_attachment_id rt' = wrap64 (next_attachment_id (runtime e) + 1).
Proof.
  rewrite /attach_authorized /entry. destruct (shells m !! id) as [e|] eqn:Ee; cbn; [|done].
  case_bool_decide as Ho; cbn; [|done].
  destruct (attach_runtime _ _ _ _ _ _ _) as [[rt r]|] eqn:Ea; [|done]. intros [= <- ->].
  apply (attach_runtime_spec _ false) in Ea as (_ & _ & _ & rt1 & Hr & -> & Hid & _).
  apply (attach_resize_steps (config m) false) in Hr as (_ & _ & _ & Hn & _).
  exists e, (add_attachment (config m) rt1 token now). split_and!; try done.
  simpl. by rewrite Hn.
Qed.

Lemma write_envelope_case s env max :
  ∃ s' r, write_envelope s env max = (s', r).
Proof. eexists _, _. apply surjective_pairing. Qed.

Lemma error_then_Returned {X} s env r : ∃ s' r', @error_then _ X s env r = Returned s' r'.
Proof. rewrite /error_then. destruct (write_envelope _ _ _). eauto. Qed.

Lemma attach_begin_acts g inp sid send recv fw m' p :
  sid = self →
  (∀ id e, shells (ag_manager g) !! id = Some e → next_attachment_id (runtime e) < u64_max) →
  attach_begin verifier audience inp sid send recv fw (ag_manager g) = Some (m', p) →
  rtc (agent_step g) (ag_manager g) m' ∧
  match p with
  | Returned _ _ => True
  | Running_ t => tk_server_id t = self ∧ granted (tk_user_id t) (lit "attach") ∧
      ∃ e rt', shells (ag_manager g) !! tk_shell_id t = Some e ∧ owner e = tk_user_id t ∧
        shells m' !! tk_shell_id t = Some (set_runtime e rt') ∧
        tk_attachment_id t = next_attachment_id (runtime e) ∧
        next_attachment_id rt' = wrap64 (next_attachment_id (runtime e) + 1)
  end.
Proof.
  intros -> Hu. rewrite /attach_begin.
  destruct (read_envelope _ _) as [recv' [env|e]]; [|by intros [= <- <-]].
  destruct (validate_scope _ _) as [id|]; [|by intros [= <- <-]].
  have Herr X env' r' : Some (ag_manager g, error_then X env' r') = Some (m', p) →
    rtc (agent_step g) (ag_manager g) m' ∧ match p with Returned _ _ => True | Running_ _ => False end.
  { intros [= <- <-]. destruct (error_then_Returned (X := AttachTask) X env' r') as (? & ? & ->). done. }
  destruct (ae_message env) as [[| | | | | | |attach| | | | | | | | |]|];
    try (intros [? ?]%Herr; by destruct p).
  destruct (validate_attach_request _ _ _ _ _) as [az|e] eqn:Ev.
  2: { destruct (map_open_validation_error e). intros [? ?]%Herr. by destruct p. }
  apply validate_attach_granted in Ev as Hg.
  destruct (attach_authorized _ _ _ _ _ _ _) as [[m1 r]|] eqn:Ea; [|done]. cbn [mbind option_bind].
  have H1 : rtc (agent_step g) (ag_manager g) m1.
  { apply (agent_once g _ _ (OpAttachAuthorized (az_user_id az) id (az_cols az) (az_rows az)
             (ai_token inp) (ai_now_ms inp))); [|by apply AeAttach|by rewrite /= Ea].
    intros e He. by eapply Hu. }
  destruct r as [a|e].
  2: { destruct (map_attachment_session_error e) as [[code msg] retr]. intros [= <- <-].
       destruct (error_then_Returned (X := AttachTask) send
         (attachment_error self id (ae_request_id env) code msg retr) (Ok ())) as (? & ? & ->). done. }
  apply attach_authorized_Ok in Ea as (e & rt' & He & Ho & Hid & Hsh & Hn).
  have H2 : rtc (agent_step g) (ag_manager g) (drop_lease m1 id (attachment_id a)).
  { etrans; [exact H1|].
    apply (agent_once g _ _ (OpDetach id (attachment_id a))); [done| |done]. by eapply AeUndo. }
  destruct (write_envelope _ _ _) as [send' [u|err]]; [|by intros [= <- <-]].
  destruct fw; cbn [negb]; [|by intros [= <- <-]]. intros [= <- <-]. split; [done|]. simpl.
  split_and!; [done|done|]. exists e, rt'. rewrite Hsh lookup_insert_eq. done.
Qed.

(** What a task keeps for its whole life. *)
Definition same_task (t t' : AttachTask) : Prop :=
  tk_shell_id t' = tk_shell_id t ∧ tk_attachment_id t' = tk_attachment_id t ∧
  tk_user_id t' = tk_user_id t ∧ tk_server_id t' = tk_server_id t.

Definition task_kept (t : AttachTask) (p : Progress AttachTask) : Prop :=
  match p with Running_ t' => same_task t t' | Returned _ _ => True end.

Lemma send_then_kept t0 t env k :
  same_task t0 t → (∀ t', same_task t0 t' → task_kept t0 (k t')) → task_kept t0 (send_then t env k).
Proof.
  intros Ht Hk. rewrite /send_then. destruct (write_envelope _ _ _) as [s [u|e]]; [|done].
  by apply Hk.
Qed.

Lemma error_then_kept t s env r : task_kept t (error_then s env r).
Proof. destruct (error_then_Returned (X := AttachTask) s env r) as (? & ? & ->). done. Qed.

Lemma fail_session_kept t0 t rid e : task_kept t0 (fail_session t rid e).
Proof.
  rewrite /fail_session. destruct (map_attachment_session_error e) as [[? ?] ?]. apply error_then_kept.
Qed.

Lemma on_event_kept t0 t ev : same_task t0 t → task_kept t0 (on_event t ev).
Proof.
  intros Ht. rewrite /on_event. destruct ev as [[data|x]|]; [case_match; [done|]| |];
    [by apply send_then_kept..|apply error_then_kept].
Qed.

(** One message: at most one input or resize of the task's shell. *)
Lemma on_incoming_acts g k t t0 env m' p :
  ag_tasks g !! k = Some t0 → same_task t0 t →
  on_incoming (ag_manager g) t env = Some (m', p) →
  rtc (agent_step g) (ag_manager g) m' ∧ task_kept t0 p.
Proof.
  intros Hk Ht. pose proof Ht as (Hsh & _). rewrite /on_incoming.
  have Hrun r rid : task_kept t0 match r with Ok _ => Running_ t | Err e => fail_session t rid e end.
  { intros. destruct r; [done|]. apply fail_session_kept. }
  destruct (ae_message env) as [[| | | | | | | | |data| |cols rows| |rq| | |]|];
    try (intros [= <- <-]; split; [done|]; by try apply error_then_kept).
  - case_match eqn:El; [intros [= <- <-]; split; [done|]; apply error_then_kept|].
    destruct (write_input _ _ _) as [m1 r] eqn:Ew. intros [= <- <-]. split; [|apply Hrun].
    apply (agent_once g _ _ (OpWrite (tk_shell_id t) data)); [done| |by rewrite /= Ew].
    rewrite Hsh. eapply AeInput; [exact Hk|]. to_prop. lia.
  - case_match eqn:El; [intros [= <- <-]; split; [done|]; apply error_then_kept|].
    destruct (resize_shell _ _ _ _) as [[m1 r]|] eqn:Er; [|done]. cbn [mbind option_bind].
    intros [= <- <-]. split; [|apply Hrun].
    apply (agent_once g _ _ (OpResize (tk_shell_id t) (wrap16 cols) (wrap16 rows)));
      [done| |by rewrite /= Er].
    rewrite Hsh. eapply AeResize; [exact Hk|apply wrap16_range|apply wrap16_range].
  - destruct (history_of _ _ _ _ _) as [r|]; [|done]. cbn [mbind option_bind]. intros [= <- <-].
    split; [done|]. destruct r as [range|e].
    + apply send_then_kept; [done|]. intros t' Ht'. by apply send_then_kept.
    + destruct (map_attachment_session_error e) as [[? ?] ?]. by apply send_then_kept.
Qed.

Lemma attach_step_acts g k t sel m' p :
  ag_tasks g !! k = Some t → attach_step (ag_manager g) t sel = Some (m', p) →
  rtc (agent_step g) (ag_manager g) m' ∧ task_kept t p.
Proof.
  intros Hk. rewrite /attach_step.
  destruct (attach_turn (ag_manager g) t sel) as [[m1 p1]|] eqn:Et; [|done].
  cbn [mbind option_bind]. intros [= <- <-].
  assert (rtc (agent_step g) (ag_manager g) m1 ∧ task_kept t p1) as [Hm Hp].
  { revert Et. rewrite /attach_turn. destruct sel.
    - destruct (read_envelope _ _) as [recv [env|e]]; [|by intros [= <- <-]].
      destruct (validate_scope _ _) as [id|e]; [|by intros [= <- <-]].
      case_bool_decide; cbn [negb]; [|by intros [= <- <-]]. by apply on_incoming_acts with k.
    - intros [= <- <-]. split; [done|]. by apply on_event_kept.
    - intros [= <- <-]. split; [done|]. apply error_then_kept. }
  split; [|done]. destruct p1; [|done]. etrans; [exact Hm|].
  apply (agent_once g _ _ (OpDetach (tk_shell_id t) (tk_attachment_id t))); [done| |done].
  by eapply AeDetach.
Qed.

Lemma drop_tasks_acts g m ts :
  (∀ t, t ∈ ts → ∃ k, ag_tasks g !! k = Some t) → rtc (agent_step g) m (drop_tasks m ts).
Proof.
  revert m. induction ts as [|t ts IH]; intros m Ht; simpl; [done|].
  destruct (Ht t ltac:(apply list_elem_of_here)) as [k Hk].
  eapply rtc_l; [|apply IH; intros; apply Ht; by apply list_elem_of_further].
  exists (OpDetach (tk_shell_id t) (tk_attachment_id t)). split; [done|].
  split; [by eapply AeDetach|done].
Qed.

Lemma close_link_acts g m : rtc (agent_step g) m (ag_manager (close_link m (ag_tasks g))).
Proof.
  apply drop_tasks_acts. intros t Ht. apply list_elem_of_fmap in Ht as ([k t'] & -> & Ht).
  exists k. by apply elem_of_map_to_list.
Qed.

(** Every transition but the others' operations is entitled. *)
Lemma aexec_acts g o g' :
  (∀ l, ag_link g = Some l → rl_server_id l = self) →
  aop_ok g o → aexec g o = Some g' → (∀ lo, o ≠ ALocal lo) →
  rtc (agent_step g) (ag_manager g) (ag_manager g').
Proof.
  intros Hself Hok Hex Hl. destruct o as [l|inp|inp n|tk|k inp s r fw|k sel| |lo]; simpl in Hex.
  - case_bool_decide; [done|]. by injection Hex as <-.
  - destruct (ag_link g) as [l|] eqn:Elk; [|done]. simpl in Hex.
    destruct (serve_next _ _ _ _ _ _) as [[m [l' r]]|] eqn:Es; [|done]. injection Hex as <-.
    apply (serve_next_acts g) in Es as [Hm ES]; [|by eauto|done].
    destruct r; [done|]. etrans; [exact Hm|]. apply close_link_acts.
  - destruct (ag_link g) as [l|] eqn:Elk; [|done]. simpl in Hex.
    destruct (serve_next _ _ _ _ _ _) as [[m [l' r]]|] eqn:Es; [|done]. injection Hex as <-.
    apply (serve_next_acts g) in Es as [Hm _]; [done|by eauto|done].
  - destruct (ag_link g); [|done]. by injection Hex as <-.
  - destruct (ag_link g) as [l|] eqn:Elk; [|done]. simpl in Hex. destruct (_ && _); [|done].
    destruct (attach_begin _ _ _ _ _ _ _ _) as [[m p]|] eqn:Ea; [|done]. injection Hex as <-.
    apply attach_begin_acts in Ea as [Hm _]; [done|by eauto|done].
  - destruct (ag_tasks g !! k) as [t|] eqn:Ek; [|done]. simpl in Hex.
    destruct (attach_step _ _ _) as [[m p]|] eqn:Ea; [|done]. injection Hex as <-.
    by apply (attach_step_acts _ _ _ _ _ _ Ek) in Ea as [Hm _].
  - destruct (ag_link g); [|done]. injection Hex as <-. apply close_link_acts.
  - by destruct (Hl lo).
Qed.

(** ** The invariant *)
Lemma rt_step_next c k rt rt' :
  rt_wf c rt → rt_step c k rt rt' → next_attachment_id rt ≤ next_attachment_id rt'.
Proof.
  intros W Hst. pose proof (rw_next _ _ W). destruct Hst; simpl; try lia.
  - rewrite wrap64_small; lia.
  - rewrite /drop_sender. destruct (attachments rt !! aid); simpl; lia.
Qed.

Lemma rt_steps_next c k rt rt' :
  rt_wf c rt → rtc (rt_step c k) rt rt' → next_attachment_id rt ≤ next_attachment_id rt'.
Proof.
  intros W Hst. revert W. induction Hst as [|a b d Hab _ IH]; intros W; [lia|].
  pose proof (rt_step_next _ _ _ _ W Hab). pose proof (rt_step_wf _ _ _ _ Hab W) as Wb.
  specialize (IH Wb). lia.
Qed.

(** A shell in the manager, seen from a task: its owner, and an attachment
    number that was handed out. *)
Definition holds (m : ShellManager) (t : AttachTask) : Prop :=
  ∃ e, shells m !! tk_shell_id t = Some e ∧ owner e = tk_user_id t ∧
       1 ≤ tk_attachment_id t < next_attachment_id (runtime e).

Lemma step_holds m o m' t :
  mgr_wf m → op_ok m o → exec H m o = Some m' → (∀ id, o ≠ OpRemove id) → holds m t → holds m' t.
Proof.
  intros W Hok Hex Hrm (e & He & Ho & Hn).
  destruct (exec_entry H m o m' _ e Hok Hex He) as [(-> & _)|(rt' & Hl & Hrt & _)]; [by destruct (Hrm (tk_shell_id t))|].
  exists (set_runtime e rt'). split_and!; [done|done|lia|]. simpl.
  pose proof (rt_steps_next _ _ _ _ (proj2 (mw_entry _ W _ _ He)) Hrt). lia.
Qed.

Lemma agent_not_remove g o : agent_entitled g o → ∀ id, o ≠ OpRemove id.
Proof. by destruct 1. Qed.

Lemma agent_steps g m m' :
  rtc (agent_step g) m m' → reachable H m → reachable H m' ∧ ∀ t, holds m t → holds m' t.
Proof.
  induction 1 as [|a b d (o & Hok & He & Hex) _ IH]; intros Hr; [done|].
  assert (reachable H b) as Hrb.
  { destruct Hr as (c & p & Hr). exists c, p. eapply rtc_r; [exact Hr|]. by exists o. }
  destruct (IH Hrb) as [Hrd Ht]. split; [done|]. intros t Hh. apply Ht.
  eapply (step_holds a o); [by eapply reachable_wf|done|done|by eapply agent_not_remove|done].
Qed.

Record agent_wf (g : AgentState) : Prop := {
  aw_reachable : reachable H (ag_manager g);
  aw_holds k t : ag_tasks g !! k = Some t →
    holds (ag_manager g) t ∧ granted (tk_user_id t) (lit "attach");
  aw_bound : Z.of_nat (base.size (ag_tasks g)) ≤ AGENT_ATTACHMENT_STREAMS_MAX;
  aw_link : ag_link g = None → ag_tasks g = ∅;
  aw_self l : ag_link g = Some l → rl_server_id l = self;
  aw_leases k k' t t' :
    ag_tasks g !! k = Some t → ag_tasks g !! k' = Some t' → tk_shell_id t = tk_shell_id t' →
    tk_attachment_id t = tk_attachment_id t' → k = k';
}.

Lemma close_link_wf g m :
  reachable H m → agent_wf (close_link m (ag_tasks g)).
Proof.
  intros Hr. destruct (agent_steps g _ _ (close_link_acts g m) Hr) as [Hr' _].
  split; simpl; try done; intros *; by rewrite lookup_empty.
Qed.

(** Updating the tasks with ones that hold, of the same leases. *)
Lemma tasks_same_wf g m l :
  agent_wf g → (l = None → ag_tasks g = ∅) → (∀ l', l = Some l' → rl_server_id l' = self) → reachable H m →
  (∀ t, holds (ag_manager g) t → holds m t) →
  agent_wf {| ag_manager := m; ag_link := l; ag_tasks := ag_tasks g |}.
Proof.
  intros [Hr Ht Hb Hl Hs Hu] Hl' Hs' Hrm Hh. split; simpl; try done.
  intros k t Hk. destruct (Ht k t Hk). split; [by apply Hh|done].
Qed.

Lemma served_wf g m l l' :
  agent_wf g → ag_link g = Some l → rl_server_id l' = rl_server_id l → reachable H m →
  (∀ t, holds (ag_manager g) t → holds m t) →
  agent_wf {| ag_manager := m; ag_link := Some l'; ag_tasks := ag_tasks g |}.
Proof.
  intros W Hl Hs Hr Hh. apply tasks_same_wf; try done. intros l1 [= <-]. rewrite Hs. by apply (aw_self _ W).
Qed.

Lemma accept_wf g k l inp send recv fw m p :
  agent_wf g → rl_server_id l = self → (∀ id e, shells (ag_manager g) !! id = Some e → next_attachment_id (runtime e) < u64_max) →
  ag_tasks g !! k = None → Z.of_nat (base.size (ag_tasks g)) < AGENT_ATTACHMENT_STREAMS_MAX →
  attach_begin verifier audience inp (rl_server_id l) send recv fw (ag_manager g) = Some (m, p) →
  agent_wf {| ag_manager := m; ag_link := Some l;
              ag_tasks := match p with Running_ t => <[k := t]> (ag_tasks g)
                                     | Returned _ _ => ag_tasks g end |}.
Proof.
  intros W Hsf Hu Hk Hsz Ea. apply attach_begin_acts in Ea as [Hm Hp]; [|done..].
  destruct (agent_steps g _ _ Hm (aw_reachable _ W)) as [Hr Hh].
  destruct p as [s r|t]; [apply tasks_same_wf; try done; by intros l' [= <-]|].
  destruct Hp as (_ & Hg & e & rt' & He & Ho & He' & Hid & Hn).
  pose proof (proj2 (mw_entry _ (reachable_wf _ _ (aw_reachable _ W)) _ _ He)) as Wr.
  pose proof (rw_next _ _ Wr) as Hnx. pose proof (Hu _ _ He) as Hlt.
  rewrite wrap64_small in Hn; last lia.
  have Hnew k' t' : ag_tasks g !! k' = Some t' → tk_shell_id t' = tk_shell_id t →
    tk_attachment_id t' ≠ tk_attachment_id t.
  { intros Hk' Hs. destruct (aw_holds _ W _ _ Hk') as [(e1 & He1 & _ & Hn1) _].
    rewrite Hs He in He1. injection He1 as <-. lia. }
  split; simpl; [done| | |done|by intros l' [= <-]|].
  - intros k' t' [[<- <-]|[_ Hk']]%lookup_insert_Some.
    + split; [|done]. exists (set_runtime e rt'). split_and!; try done; simpl; lia.
    + destruct (aw_holds _ W _ _ Hk'). split; [by apply Hh|done].
  - rewrite map_size_insert_None //. lia.
  - intros k1 k2 t1 t2 [[<- <-]|[_ H1]]%lookup_insert_Some [[<- <-]|[_ H2]]%lookup_insert_Some Hs Ha;
      [done|by destruct (Hnew _ _ H2)|by destruct (Hnew _ _ H1)|by eapply (aw_leases _ W)].
Qed.

Lemma select_wf g k t sel m p :
  agent_wf g → ag_tasks g !! k = Some t → attach_step (ag_manager g) t sel = Some (m, p) →
  agent_wf {| ag_manager := m; ag_link := ag_link g;
              ag_tasks := match p with Running_ t => <[k := t]> (ag_tasks g)
                                     | Returned _ _ => delete k (ag_tasks g) end |}.
Proof.
  intros W Hk Ea. apply (attach_step_acts _ _ _ _ _ _ Hk) in Ea as [Hm Hp].
  destruct (agent_steps g _ _ Hm (aw_reachable _ W)) as [Hr Hh].
  have Hold k' t' : ag_tasks g !! k' = Some t' → holds m t' ∧ granted (tk_user_id t') (lit "attach").
  { intros Hk'. destruct (aw_holds _ W _ _ Hk'). split; [by apply Hh|done]. }
  have Hlk : ag_link g = None → False.
  { intros E. by rewrite (aw_link _ W E) lookup_empty in Hk. }
  destruct p as [s r|t1]; (split; simpl; [done| | |by intros ?%Hlk|apply (aw_self _ W)|]).
  - intros k' t' [_ Hk']%lookup_delete_Some. by eapply Hold.
  - pose proof (map_subseteq_size _ _ (delete_subseteq (ag_tasks g) k)). pose proof (aw_bound _ W). lia.
  - intros k1 k2 t1 t2 [_ H1]%lookup_delete_Some [_ H2]%lookup_delete_Some. by eapply (aw_leases _ W).
  - destruct Hp as (Hs & Ha & Hus & _).
    intros k' t' [[<- <-]|[_ Hk']]%lookup_insert_Some; [|by eapply Hold].
    rewrite /holds Hs Ha Hus. by eapply Hold.
  - rewrite map_size_insert_Some; [|by rewrite Hk]. apply (aw_bound _ W).
  - destruct Hp as (Hs & Ha & _).
    intros k1 k2 u1 u2 [[<- <-]|[_ H1]]%lookup_insert_Some [[<- <-]|[_ H2]]%lookup_insert_Some;
      rewrite ?Hs ?Ha; [done|by eapply (aw_leases _ W)..].
Qed.

Lemma astep_wf g o g' : agent_wf g → aop_ok g o → aexec g o = Some g' → agent_wf g'.
Proof.
  intros W Hok Hex. destruct o as [l|inp|inp n|tk|k inp s r fw|k sel| |lo]; simpl in Hex.
  - case_bool_decide as Hs; [done|]. injection Hex as <-. apply tasks_same_wf; [done|done|by intros l' [= <-]|apply W|done].
  - destruct (ag_link g) as [l|] eqn:Elk; [|done]. simpl in Hex.
    destruct (serve_next _ _ _ _ _ _) as [[m [l' r]]|] eqn:Es; [|done]. injection Hex as <-.
    apply (serve_next_acts g) in Es as [Hm ES]; [|by apply (aw_self _ W)|done].
    destruct (agent_steps g _ _ Hm (aw_reachable _ W)) as [Hr Hh].
    destruct r; [by eapply served_wf|by apply close_link_wf].
  - destruct (ag_link g) as [l|] eqn:Elk; [|done]. simpl in Hex.
    destruct (serve_next _ _ _ _ _ _) as [[m [l' r]]|] eqn:Es; [|done]. injection Hex as <-.
    apply (serve_next_acts g) in Es as [Hm ES]; [|by apply (aw_self _ W)|done].
    destruct (agent_steps g _ _ Hm (aw_reachable _ W)) as [Hr Hh]. by eapply served_wf.
  - destruct (ag_link g) as [l|] eqn:Elk; [|done]. injection Hex as <-. by eapply served_wf; [..|apply W|].
  - destruct (ag_link g) as [l|] eqn:Elk; [|done]. simpl in Hex. destruct (_ && _) eqn:Eg; [|done]. to_prop.
    destruct (attach_begin _ _ _ _ _ _ _ _) as [[m p]|] eqn:Ea; [|done]. injection Hex as <-.
    eapply accept_wf; try done. by apply (aw_self _ W).
  - destruct (ag_tasks g !! k) as [t|] eqn:Ek; [|done]. simpl in Hex.
    destruct (attach_step _ _ _) as [[m p]|] eqn:Ea; [|done]. injection Hex as <-.
    by eapply select_wf.
  - destruct (ag_link g); [|done]. injection Hex as <-. apply close_link_wf, W.
  - destruct (exec H _ lo) as [m|] eqn:El; [|done]. injection Hex as <-. destruct Hok as [Hok Hrm].
    apply tasks_same_wf; [done|by apply W|apply (aw_self _ W)| |].
    + destruct (aw_reachable _ W) as (c & p & Hr). exists c, p. eapply rtc_r; [exact Hr|]. by exists lo.
    + intros t. eapply step_holds; eauto. apply (reachable_wf _ _ (aw_reachable _ W)).
Qed.

Lemma areachable_wf g : areachable g → agent_wf g.
Proof.
  intros (m & Hm & Hst).
  assert (agent_wf {| ag_manager := m; ag_link := None; ag_tasks := ∅ |}) as W.
  { split; simpl; try done; intros *; by rewrite lookup_empty. }
  clear Hm. revert W. induction Hst as [|a b d (o & Hok & Hex) _ IH]; intros W; [done|].
  apply IH. by eapply astep_wf.
Qed.

(** ** Isolation *)

(** What one entitled operation leaves alone. *)
Definition ungranted (user : str) : Prop :=
  ¬ granted user (lit "open") ∧ ¬ granted user (lit "attach").

(** The shells of [m0] are still there in [m], with their owners. *)
Definition owners_kept (m0 m : ShellManager) : Prop :=
  ∀ id e, shells m0 !! id = Some e → ∃ e', shells m !! id = Some e' ∧ owner e' = owner e.

Lemma agent_step_isolated g m m' id e :
  agent_wf g → reachable H m → (∀ t, holds (ag_manager g) t → holds m t) →
  owners_kept (ag_manager g) m → agent_step g m m' → shells m !! id = Some e →
  (ungranted (owner e) → shells m' !! id = Some e) ∧
  (∃ rt', shells m' !! id = Some (set_runtime e rt') ∧ (state (runtime e) = Running → state rt' = Running)).
Proof.
  intros W Hr Hh Hown (o & Hok & Hent & Hex) He. pose proof (reachable_wf _ _ Hr) as Wm. split.
  - intros [Hno Hna].
    have Htask k t : ag_tasks g !! k = Some t → tk_shell_id t ≠ id.
    { intros Hk <-. destruct (aw_holds _ W _ _ Hk) as [Ht Hg].
      destruct (Hh _ Ht) as (e' & He' & Ho & _). rewrite He in He'. injection He' as <-.
      rewrite Ho in Hna. done. }
    destruct Hent as [req fr Hg|user i cols rows tok now Hg|user i e0 aid Hg He0 Ho0 ->|k t data Hk|k t c r Hk|k t Hk].
    1,2: eapply acting_isolated; [exact Wm|exact Hok|exact Hex|done|done|]; intros E; by rewrite E in Hno, Hna.
    + eapply untargeted_unchanged; [done|done|done|]. intros [= ->].
      destruct (Hown _ _ He0) as (e' & He' & Ho). rewrite He in He'. injection He' as <-.
      rewrite Ho Ho0 in Hna. done.
    + eapply untargeted_unchanged; [done|done|done|]. intros [= E]. by eapply Htask.
    + eapply untargeted_unchanged; [done|done|done|]. intros [= E]. by eapply Htask.
    + eapply untargeted_unchanged; [done|done|done|]. intros [= E]. by eapply Htask.
  - destruct (exec_entry H m o m' id e Hok Hex He) as [(-> & _)|(rt' & Hl & Hrt & _)].
    { inversion Hent. }
    exists rt'. split; [done|]. intros Hs. have Hen : ending o = false by destruct Hent.
    rewrite Hen in Hrt. eapply rt_steps_running; [exact Hrt| |done]. apply (mw_entry _ Wm _ _ He).
Qed.

Lemma agent_steps_isolated g m m' id e :
  agent_wf g → rtc (agent_step g) m m' → reachable H m →
  (∀ t, holds (ag_manager g) t → holds m t) → owners_kept (ag_manager g) m →
  shells m !! id = Some e →
  (ungranted (owner e) → shells m' !! id = Some e) ∧
  (∃ rt', shells m' !! id = Some (set_runtime e rt') ∧ (state (runtime e) = Running → state rt' = Running)).
Proof.
  intros W Hst. revert e. induction Hst as [m|a b d Hab _ IH]; intros e Hr Hh Hown He.
  { split; [done|]. exists (runtime e). by destruct e. }
  destruct (agent_step_isolated g a b id e W Hr Hh Hown Hab He) as [Hun (rt' & Hrt & Hrun)].
  destruct (agent_steps g a b (rtc_once _ _ Hab) Hr) as [Hrb Hhb].
  have Hown' : owners_kept (ag_manager g) b.
  { intros i e0 He0. destruct (Hown _ _ He0) as (e1 & He1 & Ho).
    destruct (agent_step_isolated g a b i e1 W Hr Hh Hown Hab He1) as [_ (rt1 & Hrt1 & _)].
    exists (set_runtime e1 rt1). by split. }
  destruct (IH (set_runtime e rt') Hrb (λ t Ht, Hhb t (Hh t Ht)) Hown' Hrt) as [Hun' (rt2 & Hrt2 & Hrun2)].
  split.
  - intros Hu. specialize (Hun Hu). rewrite Hrt in Hun. injection Hun as E. rewrite E in Hun'. by apply Hun'.
  - exists rt2. split; [done|]. intros Hs. by apply Hrun2, Hrun.
Qed.

(** ** A lost link *)
Lemma drop_lease_lookup m id aid i e :
  shells m !! i = Some e →
  ∃ rt', shells (drop_lease m id aid) !! i = Some (set_runtime e rt') ∧
    state rt' = state (runtime e) ∧ model rt' = model (runtime e) ∧ pty rt' = pty (runtime e) ∧
    token_hash rt' = token_hash (runtime e) ∧
    ∀ a, attachments rt' !! a = if decide ((i, a) = (id, aid)) then None
                                else attachments (runtime e) !! a.
Proof.
  intros He. rewrite /drop_lease /detach /entry. destruct (decide (i = id)) as [->|Hne].
  - rewrite He. cbn [ok_or fst put_runtime set_shells shells].
    exists (drop_sender (runtime e) aid). rewrite lookup_insert_eq. rewrite /drop_sender.
    destruct (attachments (runtime e) !! aid) as [ch|] eqn:E; split_and!; try done; intros a; simpl.
    + destruct (decide (a = aid)) as [->|Hn]; [rewrite lookup_delete_eq decide_True //|].
      rewrite lookup_delete_ne // decide_False //. congruence.
    + case_decide as Hd; [|done]. by injection Hd as ->.
  - exists (runtime e). split_and!; try done.
    + destruct (shells m !! id) as [e'|] eqn:E; cbn; [rewrite lookup_insert_ne //|]; rewrite He; by destruct e.
    + intros a. rewrite decide_False //. congruence.
Qed.

Definition leases (ts : list AttachTask) : list (ShellId * Z) :=
  map (λ t, (tk_shell_id t, tk_attachment_id t)) ts.

Lemma drop_tasks_lookup m ts i e :
  shells m !! i = Some e →
  ∃ rt', shells (drop_tasks m ts) !! i = Some (set_runtime e rt') ∧
    state rt' = state (runtime e) ∧ model rt' = model (runtime e) ∧ pty rt' = pty (runtime e) ∧
    token_hash rt' = token_hash (runtime e) ∧
    ∀ a, attachments rt' !! a = if decide ((i, a) ∈ leases ts) then None
                                else attachments (runtime e) !! a.
Proof.
  revert m e. induction ts as [|t ts IH]; intros m e He; simpl.
  { exists (runtime e). split_and!; try done. by rewrite He; destruct e. }
  destruct (drop_lease_lookup m (tk_shell_id t) (tk_attachment_id t) i e He)
    as (rt1 & H1 & S1 & M1 & P1 & T1 & A1).
  destruct (IH _ _ H1) as (rt2 & H2 & S2 & M2 & P2 & T2 & A2). simpl in *.
  exists rt2. split_and!; [exact H2|congruence..|]. intros a. rewrite A2 A1.
  destruct (decide ((i, a) ∈ leases ts)) as [Hin|Hin].
  - rewrite decide_True //. by apply list_elem_of_further.
  - destruct (decide ((i, a) = _)) as [->|Hn].
    + rewrite decide_True //. apply list_elem_of_here.
    + rewrite decide_False //. by rewrite not_elem_of_cons.
Qed.

(** ** Properties *)


(** In every reachable state of the agent at most 64 attachment tasks run,
    none without a link, each on a shell that exists and belongs to the user its
    verified attach grant named, and no two hold the same attachment. *)
Theorem agent_tasks_invariant g :
  areachable g →
  Z.of_nat (base.size (ag_tasks g)) ≤ 64 ∧ (ag_link g = None → ag_tasks g = ∅) ∧
  (∀ k t, ag_tasks g !! k = Some t → granted (tk_user_id t) (lit "attach") ∧
     ∃ e, shells (ag_manager g) !! tk_shell_id t = Some e ∧ owner e = tk_user_id t) ∧
  (∀ k k' t t', ag_tasks g !! k = Some t → ag_tasks g !! k' = Some t' → k ≠ k' →
     (tk_shell_id t, tk_attachment_id t) ≠ (tk_shell_id t', tk_attachment_id t')).
Proof.
  intros W%areachable_wf. split_and!; [apply (aw_bound _ W)|apply (aw_link _ W)| |].
  - intros k t Hk. destruct (aw_holds _ W _ _ Hk) as [(e & He & Ho & _) Hg]. eauto.
  - intros k k' t t' Hk Hk' Hne [= Hs Ha]. by apply Hne, (aw_leases _ W k k' t t').
Qed.

(** Losing the gateway link touches no shell beyond its attachments: every
    shell keeps its state, screen, scrollback, PTY and resume token; exactly the
    attachments the link's tasks held are gone, and none of the others. *)
Theorem link_loss_detaches g :
  is_Some (ag_link g) →
  ∃ g', aexec g ALost = Some g' ∧ ag_link g' = None ∧ ag_tasks g' = ∅ ∧
    ∀ id e, shells (ag_manager g) !! id = Some e →
      ∃ rt', shells (ag_manager g') !! id = Some (set_runtime e rt') ∧
        state rt' = state (runtime e) ∧ model rt' = model (runtime e) ∧
        pty rt' = pty (runtime e) ∧ token_hash rt' = token_hash (runtime e) ∧
        ∀ a, attachments rt' !! a =
             if decide ((id, a) ∈ leases (map snd (map_to_list (ag_tasks g)))) then None
             else attachments (runtime e) !! a.
Proof.
  intros [l Hl]. simpl. rewrite Hl. eexists. split; [done|]. simpl. split_and!; try done.
  intros id e. apply drop_tasks_lookup.
Qed.
End steps.
