(* ===== verification/AgentLink.v ===== *)
(** * Gateway and agent together

    The two ends of the link run against each other: each reads the bytes the
    other wrote. They agree on the outcome of a registration, a shell request
    comes back to the gateway as what the agent's manager did, a ping is
    answered; and the reconnect loop backs off as its policy says. *)
From S2P Require Import Prelude Protocol Framing AgentWire Auth Ids History TerminalModel Launch SessionCore Gateway GatewayProps Agent.

(** ** Reading back what the other end wrote *)
Section link.
Context {V : VtOps} {P : PtyOps} {S : HashOps} {K : GrantCrypto} {PM : ProstMessage AgentEnvelope}
        {PR : ProstRoundtrip AgentEnvelope}.

(** A stream whose next frame is [env], and nothing after it yet. *)
Definition delivers (env : AgentEnvelope) : RecvStream :=
  {| arriving := frame_of env; rx_lost := false |}.

(** A stream nothing was written to and that does not break. *)
Definition fresh_send : SendStream := {| written := []; room := None |}.

(** The bytes written beyond what [before] had, as the other end gets them. *)
Definition received (before after : SendStream) : RecvStream :=
  {| arriving := drop (length (written before)) (written after); rx_lost := false |}.

Lemma read_delivers env maximum :
  frame_fits env maximum → 0 ≤ maximum ≤ u32_max →
  read_envelope (delivers env) maximum = ({| arriving := []; rx_lost := false |}, Ok env).
Proof.
  intros. rewrite /delivers -{1}(app_nil_r (frame_of env)). by apply read_envelope_frame.
Qed.

Lemma received_written s env room' :
  received s {| written := written s ++ frame_of env; room := room' |} = delivers env.
Proof. rewrite /received /delivers /= drop_app_length //. Qed.

Lemma control_max_range : 0 ≤ AGENT_CONTROL_FRAME_BYTES_MAX ≤ u32_max.
Proof. done. Qed.

Lemma from_to_wire i : from_wire (to_wire i) = Ok i.
Proof. rewrite /from_wire /to_wire array_of_bytes //. Qed.

Lemma scoped_to_wire i : scoped_to (to_wire i) i = true.
Proof. rewrite /scoped_to from_to_wire. by apply bool_decide_eq_true. Qed.

(** The reasons a registration is refused with. *)
Definition rejection_reasons : list str :=
  map lit ["invalid registration message"; "incompatible agent protocol"; "invalid agent metadata";
           "invalid server identity"; "certificate identity mismatch"; "invalid frame limit";
           "server already connected"].

Lemma check_registration_reason expected env reason :
  check_registration expected env = Err reason → reason ∈ rejection_reasons.
Proof.
  rewrite /check_registration /rejection_reasons. cbn [map]. repeat (case_match; try done); intros [= <-];
    repeat (apply list_elem_of_here || apply list_elem_of_further).
Qed.

Lemma check_own_registration q r build :
  registration_request_new q build = Ok r →
  check_registration (Some q) (register_envelope r) =
    Ok (q, {| reg_protocol_major := PROTOCOL_MAJOR; reg_protocol_minor := PROTOCOL_MINOR;
              reg_server_id := to_wire q; reg_agent_build := build;
              reg_max_frame_bytes := AGENT_CONTROL_FRAME_BYTES_MAX |}).
Proof.
  rewrite /registration_request_new. case_match eqn:E; [done|]. intros [= <-].
  rewrite /check_registration /register_envelope. cbn [ae_message ae_server_id reg_protocol_major
    reg_agent_build reg_server_id reg_max_frame_bytes rr_server_id rr_agent_build rr_max_frame_bytes].
  rewrite Z.eqb_refl. cbn [negb]. rewrite E from_to_wire.
  by rewrite bool_decide_eq_true_2.
Qed.

Lemma connect_accepted q reg max ka :
  frame_fits (register_envelope q) AGENT_CONTROL_FRAME_BYTES_MAX →
  frame_fits reg AGENT_CONTROL_FRAME_BYTES_MAX →
  reg = {| ae_request_id := 0; ae_server_id := to_wire (rr_server_id q); ae_shell_id := [];
           ae_message := Some (AgRegistration {|
             rn_accepted := true; rn_server_id := to_wire (rr_server_id q);
             rn_max_frame_bytes := max; rn_keepalive_interval_ms := ka;
             rn_rejection_reason := [] |}) |} →
  AGENT_CONTROL_FRAME_BYTES_MIN ≤ max ≤ AGENT_CONTROL_FRAME_BYTES_MAX → ka ≠ 0 →
  connect q (Some (fresh_send, delivers reg)) =
    Ok {| rl_send := {| written := frame_of (register_envelope q); room := None |};
          rl_recv := {| arriving := []; rx_lost := false |}; rl_server_id := rr_server_id q;
          rl_max_frame_bytes := max; rl_keepalive_interval_ms := ka |}.
Proof.
  intros Hf Hr -> Hm Hka. rewrite /connect. cbn [ok_or].
  rewrite write_envelope_open // read_delivers //. cbn -[validate_registration to_wire].
  rewrite /validate_registration. cbn [rn_accepted negb rn_server_id rn_max_frame_bytes
    rn_keepalive_interval_ms]. rewrite from_to_wire. cbn [map_err]. rewrite bool_decide_eq_true_2 //.
  rewrite (proj2 (Z.ltb_ge _ _)); [|lia]. rewrite (proj2 (Z.ltb_ge _ _)); [|lia].
  by rewrite (proj2 (Z.eqb_neq _ _)).
Qed.

Lemma connect_rejected q reason :
  frame_fits (register_envelope q) AGENT_CONTROL_FRAME_BYTES_MAX →
  frame_fits (rejection reason) AGENT_CONTROL_FRAME_BYTES_MAX →
  connect q (Some (fresh_send, delivers (rejection reason))) = Err (AeRejected reason).
Proof.
  intros Hf Hr. rewrite /connect. cbn [ok_or]. rewrite write_envelope_open // read_delivers //.
Qed.

(** ** Properties *)

(** An agent registering and the gateway that answers it agree. Whatever
    identity the registry has for the certificate and whatever it already
    serves: when the gateway registers the agent, the agent has a link to the
    same server with the same frame limit; when the gateway refuses, the agent
    is told the reason; and an authorised agent whose server is free, below the
    capacity, is registered. *)
Theorem handshake_agreement r c expected sid build q :
  registration_request_new sid build = Ok q →
  frame_fits (register_envelope q) AGENT_CONTROL_FRAME_BYTES_MAX →
  frame_fits (acceptance sid AGENT_CONTROL_FRAME_BYTES_MAX) AGENT_CONTROL_FRAME_BYTES_MAX →
  Forall (λ reason, frame_fits (rejection reason) AGENT_CONTROL_FRAME_BYTES_MAX) rejection_reasons →
  let '(r', (sv, x)) :=
    accept_finish r c expected (Ready (Ok (fresh_send, delivers (register_envelope q)))) false in
  match sv, x with
  | Some sv, Ok a =>
      ∃ link, connect q (Some (fresh_send, received fresh_send (sv_send sv))) = Ok link ∧
        rl_server_id link = sid ∧ ra_server_id a = sid ∧ expected = Some sid ∧
        rl_max_frame_bytes link = ra_max_frame_bytes a ∧ active r' = {[sid]} ∪ active r
  | Some sv, Err (GwRejected reason) =>
      connect q (Some (fresh_send, received fresh_send (sv_send sv))) = Err (AeRejected reason) ∧
      r' = r
  | _, Err (GwRegistry (ActiveLimit n)) => n = max_active_agents r ∧ n ≤ active_count r ∧ r' = r
  | _, _ => False
  end ∧
  (expected = Some sid → sid ∉ active r → active_count r < max_active_agents r → ∃ a, x = Ok a).
Proof.
  intros Hq Hf Ha Hrj.
  have Hrq : rr_server_id q = sid.
  { rewrite /registration_request_new in Hq. case_match; [done|]. by injection Hq as <-. }
  have Hreject reason : reason ∈ rejection_reasons →
    connect q (Some (fresh_send, received fresh_send
      {| written := frame_of (rejection reason); room := None |})) = Err (AeRejected reason).
  { intros Hin. pose proof (proj1 (Forall_forall _ _) Hrj _ Hin) as Hfit.
    rewrite (received_written fresh_send (rejection reason) None). by apply connect_rejected. }
  have Hwr reason : reason ∈ rejection_reasons →
    write_envelope fresh_send (rejection reason) AGENT_CONTROL_FRAME_BYTES_MAX =
      ({| written := frame_of (rejection reason); room := None |}, Ok ()).
  { intros Hin. rewrite write_envelope_open //. by apply (proj1 (Forall_forall _ _) Hrj). }
  rewrite /accept_finish. cbn [timed map_err]. rewrite read_delivers //.
  destruct (decide (expected = Some sid)) as [->|Hne].
  - rewrite (check_own_registration sid q build Hq). rewrite /claim.
    case_bool_decide as Hact; [|destruct (max_active_agents r <=? active_count r) eqn:Ec].
    + rewrite /reject Hwr; [|rewrite /rejection_reasons; repeat (apply list_elem_of_here || apply list_elem_of_further)].
      cbn. split; [|done]. split; [|done]. apply Hreject.
      rewrite /rejection_reasons; repeat (apply list_elem_of_here || apply list_elem_of_further).
    + to_prop. split; [done|]. intros _ _ ?. lia.
    + cbn [reg_max_frame_bytes]. rewrite Z.min_id write_envelope_open //.
      cbn [sv_send ra_server_id ra_max_frame_bytes]. split; [|by eauto].
      rewrite (received_written fresh_send (acceptance sid AGENT_CONTROL_FRAME_BYTES_MAX) None).
      subst sid. eexists. split; [by apply connect_accepted|]. done.
  - destruct (check_registration expected (register_envelope q)) as [[s reg]|reason] eqn:Ec.
    { apply check_registration_Ok in Ec as (-> & Hm & Hs & _). exfalso. apply Hne.
      rewrite /register_envelope /= Hrq in Hs. by apply (inj array_bytes) in Hs as ->. }
    apply check_registration_reason in Ec. rewrite /reject Hwr //. cbn. split; [|done].
    split; [|done]. by apply Hreject.
Qed.
(** ** A shell request through the link *)

(** The link with one more frame to read, and the gateway's agent likewise. *)
Definition link_gets (l : RegisteredLink) (env : AgentEnvelope) : RegisteredLink :=
  link_streams l (rl_send l) (delivers env).
Definition agent_gets (a : RegisteredAgent) (r : RecvStream) : RegisteredAgent :=
  set_streams a (ra_send a) r.

Lemma reply_Ok {X} l env (x : X) l' y :
  reply l env x = (l', Ok y) →
  y = x ∧ frame_fits env (rl_max_frame_bytes l) ∧
  written (rl_send l') = written (rl_send l) ++ frame_of env.
Proof.
  rewrite /reply. destruct (write_envelope _ _ _) as [s [[]|e]] eqn:E; [|done].
  intros [= <- <-]. by apply write_envelope_Ok in E.
Qed.

(** The answer of the agent to a request to open a shell, in one envelope. *)
Lemma serve_open_reply H verifier audience inp l m rid open m' l' act :
  serve_open H verifier audience inp l m rid open = Some (m', (l', Ok act)) →
  ∃ msg, frame_fits {| ae_request_id := rid; ae_server_id := to_wire (rl_server_id l); ae_shell_id := [];
                       ae_message := Some msg |} (rl_max_frame_bytes l) ∧
    written (rl_send l') = written (rl_send l) ++
      frame_of {| ae_request_id := rid; ae_server_id := to_wire (rl_server_id l); ae_shell_id := [];
                  ae_message := Some msg |} ∧
    match act with
    | AaShellOpened id re => msg = AgShellOpened {| aso_shell_id := to_wire id; aso_reused := re |} ∧
        ∃ req opened, validate_open_request open verifier audience (rl_server_id l) (ai_now_ms inp) = Ok req ∧
          open_shell H m req (ai_fresh inp) = Some (m', Ok opened) ∧ opened_id opened = id ∧ reused opened = re
    | AaShellRejected code => ∃ text retryable,
        msg = AgError {| err_code := error_code_i32 code; err_human_message := text;
                         err_retryable := retryable |}
    | _ => False
    end.
Proof.
  rewrite /serve_open. destruct (validate_open_request _ _ _ _ _) as [req|e] eqn:Ev.
  - destruct (open_shell H m req _) as [[m1 [opened|e]]|] eqn:Eo; [| |done]; cbn [mbind option_bind].
    + intros [= <- (-> & Hf & Hw)%reply_Ok]. eexists. split_and!; [exact Hf|exact Hw|done|].
      by exists req, opened.
    + destruct (map_session_error e) as [[code text] retr]. rewrite /send_protocol_error /agent_error.
      intros [= <- (-> & Hf & Hw)%reply_Ok]. eexists. split_and!; [exact Hf|exact Hw|]. eauto.
  - destruct (map_open_validation_error e) as [code text]. rewrite /send_protocol_error /agent_error.
    intros [= <- (-> & Hf & Hw)%reply_Ok]. eexists. split_and!; [exact Hf|exact Hw|]. eauto.
Qed.

(** A shell request from the gateway, the agent's handling of it and the
    answer: the agent reads exactly the request, and the gateway's call returns
    the shell the agent's manager opened (its id and whether it was reused), or
    the error code the agent reported, never anything else. *)
Theorem open_shell_end_to_end H verifier audience inp a l m q m' l' act :
  rl_server_id l = ra_server_id a → rl_max_frame_bytes l = ra_max_frame_bytes a →
  0 ≤ ra_max_frame_bytes a ≤ u32_max → room (ra_send a) = None →
  frame_fits (open_envelope (ra_next_request_id a) (ra_server_id a) q) (ra_max_frame_bytes a) →
  let request := open_envelope (ra_next_request_id a) (ra_server_id a) q in
  serve_next H verifier audience inp (link_gets l request) m = Some (m', (l', Ok act)) →
  ∃ a' x, gateway_open_shell (agent_gets a (received (rl_send l) (rl_send l'))) q = (a', x) ∧
    written (ra_send a') = written (ra_send a) ++ frame_of request ∧
    match act with
    | AaShellOpened id re =>
        x = Ok {| os_shell_id := id; os_reused := re |} ∧
        ∃ open req opened, ae_message request = Some (AgOpenShell open) ∧
          validate_open_request open verifier audience (ra_server_id a) (ai_now_ms inp) = Ok req ∧
          open_shell H m req (ai_fresh inp) = Some (m', Ok opened) ∧
          opened_id opened = id ∧ reused opened = re
    | AaShellRejected code =>
        ∃ text retryable, x = Err (GwRemote (error_code_i32 code) text retryable)
    | _ => False
    end.
Proof.
  intros Hs Hmx Hr Hro Hf request Hsv. rewrite /serve_next /link_gets in Hsv.
  cbn [link_streams rl_recv rl_max_frame_bytes rl_send rl_server_id] in Hsv.
  rewrite Hmx read_delivers // in Hsv. cbn [ae_server_id request open_envelope] in Hsv.
  rewrite from_to_wire -Hs bool_decide_eq_true_2 // in Hsv. cbn [negb] in Hsv.
  apply serve_open_reply in Hsv as (msg & Hfit & Hw & Hact).
  cbn [link_streams rl_max_frame_bytes rl_send rl_server_id] in Hfit, Hw, Hact.
  rewrite /gateway_open_shell /agent_gets.
  cbn [set_streams ra_send ra_server_id ra_max_frame_bytes ra_next_request_id ra_recv ra_lease ra_connection].
  rewrite -/request write_envelope_open //. cbn [ra_recv].
  have -> : received (rl_send l) (rl_send l') = delivers {|
    ae_request_id := ra_next_request_id a; ae_server_id := to_wire (rl_server_id l);
    ae_shell_id := []; ae_message := Some msg |}.
  { rewrite /received Hw drop_app_length //. }
  rewrite Hmx in Hfit. rewrite read_delivers //. rewrite /open_response.
  cbn [ae_request_id ae_server_id ae_message ra_server_id]. rewrite Z.eqb_refl Hs scoped_to_wire.
  cbn [negb orb]. rewrite Hs in Hact. destruct act as [n|id re|code|]; try done.
  - destruct Hact as (-> & req & opened & Hv & Ho & Hid & Hre). cbn [aso_shell_id aso_reused].
    rewrite from_to_wire. cbn [map_err]. eexists _, _. split; [done|]. split; [done|]. split; [done|].
    eexists _, req, opened. done.
  - destruct Hact as (text & retr & ->). eexists _, _. split; [done|]. split; [done|]. by exists text, retr.
Qed.

(** A ping comes back: each end reads the other's frame. *)
Lemma ping_answered a l nonce :
  let env := {| ae_request_id := 0; ae_server_id := to_wire (rl_server_id l); ae_shell_id := [];
                ae_message := Some (AgPing nonce) |} in
  let pong := {| ae_request_id := 0; ae_server_id := to_wire (rl_server_id l); ae_shell_id := [];
                 ae_message := Some (AgPong nonce) |} in
  rl_server_id l = ra_server_id a → rl_max_frame_bytes l = ra_max_frame_bytes a →
  0 ≤ ra_max_frame_bytes a ≤ u32_max → room (ra_send a) = None → room (rl_send l) = None →
  frame_fits env (ra_max_frame_bytes a) → frame_fits pong (ra_max_frame_bytes a) →
  snd (answer_ping (agent_gets a (delivers env))) = Ok nonce ∧
  snd (ping (link_gets l pong) nonce) = Ok () ∧
  received (ra_send a) (ra_send (fst (answer_ping (agent_gets a (delivers env))))) = delivers pong.
Proof.
  intros env pong Hs Hm Hr Ha Hl Hfe Hfp. rewrite /answer_ping /ping /agent_gets /link_gets.
  cbn [set_streams link_streams ra_send ra_server_id ra_max_frame_bytes ra_recv rl_send rl_recv
       rl_server_id rl_max_frame_bytes]. rewrite Hm read_delivers //.
  cbn [ae_message env ae_server_id ae_request_id]. rewrite Hs scoped_to_wire. cbn [negb].
  rewrite -Hs -/pong -/env !write_envelope_open // read_delivers //.
  cbn [snd fst ra_send map_err ae_message pong]. rewrite Z.eqb_refl. split_and!; try done.
  by rewrite received_written.
Qed.
End link.

(** ** Backing off *)

(** How many turns without a registration preceded each turn. *)
Fixpoint streaks (k : nat) (outcomes : list bool) : list nat :=
  match outcomes with
  | [] => []
  | o :: os => let k := if o then O else k in k :: streaks (S k) os
  end.

Lemma run_turns_from p s k outcomes :
  0 < initial_delay p ≤ maximum_delay p → maximum_delay p ≤ duration_max →
  sp_delay s = Z.min (initial_delay p * 2 ^ Z.of_nat k) (maximum_delay p) →
  snd (run_turns p s outcomes) =
    map (λ k, Z.min (initial_delay p * 2 ^ Z.of_nat k) (maximum_delay p)) (streaks k outcomes).
Proof.
  intros Hi Hm. revert s k. induction outcomes as [|o os IH]; intros s k Hs; [done|].
  cbn [run_turns streaks map]. destruct (run_turn p s o) as [s1 d] eqn:E.
  destruct (run_turns p s1 os) as [s2 ds] eqn:E2. cbn [snd].
  rewrite /run_turn in E. injection E as <- <-.
  have Hd : (if o then initial_delay p else sp_delay s) =
    Z.min (initial_delay p * 2 ^ Z.of_nat (if o then 0 else k)%nat) (maximum_delay p).
  { destruct o; [rewrite Z.mul_1_r; lia|done]. }
  f_equal; [done|]. change ds with (snd (s2, ds)). rewrite -E2. apply IH. cbn [sp_delay]. rewrite Hd Nat2Z.inj_succ Z.pow_succ_r; [|lia].
  pose proof (Z.pow_pos_nonneg 2 (Z.of_nat (if o then 0 else k)%nat) ltac:(lia) ltac:(lia)). nia.
Qed.

Lemma run_turns_state p s outcomes s' waits :
  sp_connected s = false → sp_registrations s = wrap64 (sp_registrations s) →
  run_turns p s outcomes = (s', waits) →
  sp_connected s' = false ∧
  sp_registrations s' =
    wrap64 (sp_registrations s + Z.of_nat (length (filter (λ o, o = true) outcomes))).
Proof.
  revert s s' waits. induction outcomes as [|o os IH]; intros s s' waits Hc Hr.
  { intros [= <- _]. rewrite filter_nil /= Z.add_0_r. done. }
  cbn [run_turns]. destruct (run_turn p s o) as [s1 d] eqn:E.
  destruct (run_turns p s1 os) as [s2 ds] eqn:E2. intros [= <- _].
  rewrite /run_turn in E. injection E as <- _.
  apply IH in E2 as [Hc' ->]; [|done|]; last first.
  { destruct o; [|done]. cbn [sp_registrations]. rewrite (wrap64_small (wrap64 _)) //. apply wrap64_range. }
  split; [done|]. cbn [sp_registrations]. destruct o.
  - rewrite filter_cons_True // /wrap64 Zplus_mod_idemp_l. f_equal. simpl. lia.
  - by rewrite filter_cons_False.
Qed.

(** With an accepted policy, every wait of the reconnect loop is the
    initial delay doubled once per turn since the last registration (or the
    start), capped at the maximum; so it never leaves the two delays, whatever
    connects and fails, and the registration counter counts the successes. *)
Theorem reconnect_backoff p p' audience aud' outcomes :
  supervisor_new p audience = Ok (p', aud') → 0 ≤ initial_delay p → maximum_delay p ≤ duration_max →
  let '(s, waits) := run_turns p (supervisor_start p) outcomes in
  waits = map (λ k, Z.min (initial_delay p * 2 ^ Z.of_nat k) (maximum_delay p)) (streaks 0 outcomes) ∧
  Forall (λ d, initial_delay p ≤ d ≤ maximum_delay p) waits ∧
  sp_connected s = false ∧
  sp_registrations s = wrap64 (Z.of_nat (length (filter (λ o, o = true) outcomes))).
Proof.
  rewrite /supervisor_new /validate_policy. destruct (is_empty audience || _); [done|].
  destruct (_ || _) eqn:E; [done|]. intros _ H0 Hm. to_prop. destruct (run_turns p (supervisor_start p) outcomes) as [s waits] eqn:Er.
  have Hw : waits = map (λ k, Z.min (initial_delay p * 2 ^ Z.of_nat k) (maximum_delay p)) (streaks 0 outcomes).
  { rewrite -(run_turns_from p (supervisor_start p)) ?Er //; [lia|]. cbn [supervisor_start sp_delay].
    rewrite Z.mul_1_r. lia. }
  split_and!; [done| | |].
  - subst waits. apply Forall_forall => d Hd. apply list_elem_of_fmap in Hd as (k & -> & _).
    pose proof (Z.pow_pos_nonneg 2 (Z.of_nat k) ltac:(lia) ltac:(lia)). nia.
  - by destruct (run_turns_state p (supervisor_start p) outcomes s waits eq_refl eq_refl Er).
  - by destruct (run_turns_state p (supervisor_start p) outcomes s waits eq_refl eq_refl Er).
Qed.

Lemma reconnect_backoff_witness :
  supervisor_new reconnect_default (lit "aud") = Ok (reconnect_default, lit "aud") ∧
  snd (run_turns reconnect_default (supervisor_start reconnect_default)
         [false; false; false; true; false; false; false; false; false; false; false]) =
    map (λ ms, ms * 10 ^ 6) [250; 500; 1000; 250; 500; 1000; 2000; 4000; 8000; 10000; 10000].
Proof.
  assert (supervisor_new reconnect_default (lit "aud") = Ok (reconnect_default, lit "aud")) as Hn
    by reflexivity.
  split; [exact Hn|].
  pose proof (reconnect_backoff reconnect_default _ (lit "aud") _
                [false; false; false; true; false; false; false; false; false; false; false] Hn
                ltac:(vm_compute; discriminate) ltac:(vm_compute; discriminate)) as Hb.
  destruct (run_turns _ _ _) as [s waits]. destruct Hb as [-> _]. vm_compute. reflexivity.
Defined.
