(* ===== verification/UploadStore.v ===== *)
(** * The upload store

    [crates/upload-store/src/lib.rs]: files are received into a private
    directory under the upload root, verified against the declared length and
    SHA-256, and committed by a hard link. The disk is the upload root as a map
    from names to nodes; each system call first consumes one entry of a fault
    schedule and fails without its effect when that entry says so (a failing
    write may have written a prefix), so that every error path is covered. *)
From S2P Require Import Prelude Protocol UploadProto.

Definition PARTIAL_NAME : str := lit ".partial".
Definition RANDOM_ID_ATTEMPTS : nat := 8.
Definition REAPER_SCAN_ENTRIES_MAX : nat := 1024.
Definition STORED_BASENAME_BYTES_MAX : Z := 200.

Inductive StoreError :=
  | InvalidRoot
  | InvalidUpload (e : UploadValidationError)
  | IdCollision
  | InvalidChunkLimit
  | LengthMismatch (actual expected : Z)
  | ChecksumMismatch
  | IoError (errno : Z).

(** ** Names *)

(** The loop of [sanitize_basename]. *)
Fixpoint sanitize_loop (chars : str) (result : str) (in_replacement : bool) : str :=
  match chars with
  | [] => result
  | c :: chars =>
      if STORED_BASENAME_BYTES_MAX <=? str_len result then result
      else if is_ascii_alphanumeric c || bool_decide (c ∈ lit "._-")
      then sanitize_loop chars (result ++ [c]) false
      else if negb in_replacement then sanitize_loop chars (result ++ lit "_") true
      else sanitize_loop chars result in_replacement
  end.

Definition sanitize_basename (original : str) : str :=
  let result := sanitize_loop original [] false in
  if is_empty result || bool_decide (result = lit ".") || bool_decide (result = lit "..") ||
     bool_decide (result = PARTIAL_NAME)
  then lit "upload" else result.

Definition hex_id (id : array UPLOAD_ID_BYTES) : str := hex_bytes (array_bytes id).

Definition is_hex_id (name : str) : bool :=
  (str_len name =? Z.of_nat UPLOAD_ID_BYTES * 2) &&
  forallb (λ b, is_ascii_digit (byte_Z b) || ((0x61 <=? byte_Z b) && (byte_Z b <=? 0x66)))
          (str_bytes name).

(** ** The disk *)
Inductive Node :=
  | Dir (files : gmap str bytes) (owner : option (Z * Z))
  | Other.

(** A fault: the error, and how much of a write happened before it. *)
Record Fault := { fault_errno : Z; fault_written : nat }.

Record Disk := { root : gmap str Node; faults : list (option Fault) }.

Definition EEXIST : Z := 17.
Definition ENOENT : Z := 2.
Definition ENOTEMPTY : Z := 39.
Definition ENOTDIR : Z := 20.

Definition set_root (d : Disk) (r : gmap str Node) : Disk := {| root := r; faults := faults d |}.

(** The fault of the next system call, and the rest of the schedule. *)
Definition next_fault (d : Disk) : option Fault * Disk :=
  match faults d with
  | [] => (None, d)
  | f :: fs => (f, {| root := root d; faults := fs |})
  end.

(** A system call with effect [f]. *)
Definition sys {A} (d : Disk) (f : gmap str Node → result (A * gmap str Node) Z)
    : Disk * result A Z :=
  match next_fault d with
  | (Some flt, d) => (d, Err (fault_errno flt))
  | (None, d) =>
      match f (root d) with
      | Ok (a, r) => (set_root d r, Ok a)
      | Err e => (d, Err e)
      end
  end.

Definition mkdirat (d : Disk) (name : str) : Disk * result unit Z :=
  sys d (λ r, match r !! name with
              | Some _ => Err EEXIST
              | None => Ok (tt, <[name := Dir ∅ None]> r)
              end).

(** [unlinkat(.., RemoveDir)]. *)
Definition rmdir (d : Disk) (name : str) : Disk * result unit Z :=
  sys d (λ r, match r !! name with
              | Some (Dir fs _) => if bool_decide (fs = ∅) then Ok (tt, delete name r) else Err ENOTEMPTY
              | Some Other => Err ENOTDIR
              | None => Err ENOENT
              end).

(** An operation on the files of one private directory. *)
Definition in_dir {A} (dir : str)
    (f : gmap str bytes → option (Z * Z) → result (A * gmap str bytes * option (Z * Z)) Z)
    (r : gmap str Node) : result (A * gmap str Node) Z :=
  match r !! dir with
  | Some (Dir fs o) =>
      match f fs o with
      | Ok (a, fs', o') => Ok (a, <[dir := Dir fs' o']> r)
      | Err e => Err e
      end
  | Some Other => Err ENOTDIR
  | None => Err ENOENT
  end.

(** Calls that only can fail: opening the directory, [fchmod], [fsync],
    duplicating a descriptor. *)
Definition touch_dir (d : Disk) (dir : str) : Disk * result unit Z :=
  sys d (in_dir dir (λ fs o, Ok (tt, fs, o))).

(** [openat(.., O_CREAT | O_EXCL)]. *)
Definition create_excl (d : Disk) (dir name : str) : Disk * result unit Z :=
  sys d (in_dir dir (λ fs o, match fs !! name with
                             | Some _ => Err EEXIST
                             | None => Ok (tt, <[name := []]> fs, o)
                             end)).

Definition unlink (d : Disk) (dir name : str) : Disk * result unit Z :=
  sys d (in_dir dir (λ fs o, match fs !! name with
                             | Some _ => Ok (tt, delete name fs, o)
                             | None => Err ENOENT
                             end)).

(** [linkat]: refuses to replace a name. *)
Definition linkat (d : Disk) (dir from to : str) : Disk * result unit Z :=
  sys d (in_dir dir (λ fs o, match fs !! from, fs !! to with
                             | None, _ => Err ENOENT
                             | _, Some _ => Err EEXIST
                             | Some data, None => Ok (tt, <[to := data]> fs, o)
                             end)).

Definition chown_dir (d : Disk) (dir : str) (who : Z * Z) : Disk * result unit Z :=
  sys d (in_dir dir (λ fs _, Ok (tt, fs, Some who))).

(** [write_all] on the open partial file: a fault may leave a prefix. *)
Definition append_prefix (dir : str) (data : bytes) (r : gmap str Node) : gmap str Node :=
  match r !! dir with
  | Some (Dir fs o) =>
      match fs !! PARTIAL_NAME with
      | Some old => <[dir := Dir (<[PARTIAL_NAME := old ++ data]> fs) o]> r
      | None => r
      end
  | _ => r
  end.

Definition write_all (d : Disk) (dir : str) (data : bytes) : Disk * result unit Z :=
  match next_fault d with
  | (Some flt, d) =>
      (set_root d (append_prefix dir (take (fault_written flt) data) (root d)),
       Err (fault_errno flt))
  | (None, d) => (set_root d (append_prefix dir data (root d)), Ok ())
  end.

(** ** The store and its writer *)
Record StoreConfig := { cfg_root : str; max_file_bytes : Z }.

(** [hasher] is the input the SHA-256 state has absorbed. *)
Record UploadWriter := {
  w_root_path : str;
  directory_name : str;
  stored_basename : str;
  w_upload_id : array UPLOAD_ID_BYTES;
  expected_bytes : Z;
  expected_sha256 : array 32;
  w_maximum_chunk_bytes : Z;
  written : Z;
  hasher : bytes;
  committed : bool;
}.

Record CommittedUpload := {
  c_upload_id : array UPLOAD_ID_BYTES;
  remote_path : list str;
  bytes_written : Z;
  c_sha256 : array 32;
}.

(** [Path::to_str] of the committed path: its components joined. *)
Definition path_str (components : list str) : str :=
  match components with
  | [] => []
  | c :: cs => foldl (λ acc x, acc ++ lit "/" ++ x) c cs
  end.

Section store.
Context {S : HashOps}.

(** [open]: [is_dir] is what opening the root without following symlinks
    found. *)
Definition store_open (config : StoreConfig) (absolute is_dir : bool)
    : result StoreConfig StoreError :=
  if negb absolute then Err InvalidRoot
  else if is_dir then Ok config else Err InvalidRoot.

(** [copy_from_slice] panics on another length: [None]. *)
Definition new_writer (c : StoreConfig) (md : BeginUpload) (id : array UPLOAD_ID_BYTES)
    (maximum_chunk_bytes : Z) : option UploadWriter :=
  sha ← array_of 32 (bu_sha256 md);
  Some {| w_root_path := cfg_root c; directory_name := hex_id id;
          stored_basename := sanitize_basename (bu_original_name md); w_upload_id := id;
          expected_bytes := bu_total_bytes md; expected_sha256 := sha;
          w_maximum_chunk_bytes := maximum_chunk_bytes; written := 0; hasher := [];
          committed := false |}.

Definition open_new_writer (c : StoreConfig) (d : Disk) (md : BeginUpload)
    (id : array UPLOAD_ID_BYTES) (maximum_chunk_bytes : Z)
    : option (Disk * result UploadWriter StoreError) :=
  let dir := hex_id id in
  let '(d, r) := touch_dir d dir in
  match r with
  | Err e => Some (d, Err (IoError e))
  | Ok _ =>
      let '(d, r) := touch_dir d dir in
      match r with
      | Err e => Some (d, Err (IoError e))
      | Ok _ =>
          let '(d, r) := create_excl d dir PARTIAL_NAME in
          match r with
          | Err e => Some (d, Err (IoError e))
          | Ok _ =>
              let '(d, r) := touch_dir d dir in
              match r with
              | Err e => let '(d, _) := unlink d dir PARTIAL_NAME in Some (d, Err (IoError e))
              | Ok _ => w ← new_writer c md id maximum_chunk_bytes; Some (d, Ok w)
              end
          end
      end
  end.

Definition begin_with_id (c : StoreConfig) (d : Disk) (md : BeginUpload)
    (id : array UPLOAD_ID_BYTES) (maximum_chunk_bytes : Z)
    : option (Disk * result UploadWriter StoreError) :=
  match validate_begin md (max_file_bytes c) with
  | Err e => Some (d, Err (InvalidUpload e))
  | Ok _ =>
      let '(d, r) := mkdirat d (hex_id id) in
      match r with
      | Err e => Some (d, Err (if e =? EEXIST then IdCollision else IoError e))
      | Ok _ =>
          '(d, r) ← open_new_writer c d md id maximum_chunk_bytes;
          match r with
          | Ok w => Some (d, Ok w)
          | Err e => let '(d, _) := rmdir d (hex_id id) in Some (d, Err e)
          end
      end
  end.

(** The retry loop over random ids, at most [RANDOM_ID_ATTEMPTS] of them. *)
Fixpoint begin_loop (c : StoreConfig) (d : Disk) (md : BeginUpload)
    (ids : list (array UPLOAD_ID_BYTES)) (maximum_chunk_bytes : Z)
    : option (Disk * result UploadWriter StoreError) :=
  match ids with
  | [] => Some (d, Err IdCollision)
  | id :: ids =>
      '(d, r) ← begin_with_id c d md id maximum_chunk_bytes;
      match r with
      | Err IdCollision => begin_loop c d md ids maximum_chunk_bytes
      | r => Some (d, r)
      end
  end.

(** [ids]: the stream of random ids. *)
Definition begin_with_chunk_limit (c : StoreConfig) (d : Disk) (md : BeginUpload)
    (maximum_chunk_bytes : Z) (ids : list (array UPLOAD_ID_BYTES))
    : option (Disk * result UploadWriter StoreError) :=
  match validate_begin md (max_file_bytes c) with
  | Err e => Some (d, Err (InvalidUpload e))
  | Ok _ =>
      if maximum_chunk_bytes =? 0 then Some (d, Err InvalidChunkLimit)
      else begin_loop c d md (take RANDOM_ID_ATTEMPTS ids)
             (Z.min maximum_chunk_bytes UPLOAD_CHUNK_BYTES_MAX)
  end.

Definition write_chunk (d : Disk) (w : UploadWriter) (chunk : UploadChunk)
    : Disk * UploadWriter * result unit StoreError :=
  match validate_chunk chunk (w_upload_id w) (written w) (w_maximum_chunk_bytes w)
          (expected_bytes w) with
  | Err e => (d, w, Err (InvalidUpload e))
  | Ok _ =>
      let '(d, r) := write_all d (directory_name w) (uc_data chunk) in
      match r with
      | Err e => (d, w, Err (IoError e))
      | Ok _ =>
          (d, {| w_root_path := w_root_path w; directory_name := directory_name w;
                 stored_basename := stored_basename w; w_upload_id := w_upload_id w;
                 expected_bytes := expected_bytes w; expected_sha256 := expected_sha256 w;
                 w_maximum_chunk_bytes := w_maximum_chunk_bytes w;
                 written := written w + len (uc_data chunk);
                 hasher := hasher w ++ uc_data chunk; committed := committed w |}, Ok ())
      end
  end.

(** The checks of [finish_inner]. *)
Definition finish_check (w : UploadWriter) (upload_id : bytes) : result unit StoreError :=
  if negb (bool_decide (upload_id = array_bytes (w_upload_id w)))
  then Err (InvalidUpload InvalidUploadId)
  else if negb (written w =? expected_bytes w)
  then Err (LengthMismatch (written w) (expected_bytes w))
  else if negb (bool_decide (sha256 (hasher w) = expected_sha256 w)) then Err ChecksumMismatch
  else Ok ().

(** Its system calls: flush and sync the file, link, unlink, sync the
    directory (duplicate and sync), then the optional ownership change. *)
Definition finish_io (d : Disk) (w : UploadWriter) (owner : option (Z * Z))
    : Disk * result unit Z :=
  let dir := directory_name w in
  let '(d, r) := touch_dir d dir in
  match r with Err e => (d, Err e) | Ok _ =>
  let '(d, r) := touch_dir d dir in
  match r with Err e => (d, Err e) | Ok _ =>
  let '(d, r) := linkat d dir PARTIAL_NAME (stored_basename w) in
  match r with Err e => (d, Err e) | Ok _ =>
  let '(d, r) := unlink d dir PARTIAL_NAME in
  match r with Err e => (d, Err e) | Ok _ =>
  let '(d, r) := touch_dir d dir in
  match r with Err e => (d, Err e) | Ok _ =>
  let '(d, r) := touch_dir d dir in
  match r with Err e => (d, Err e) | Ok _ =>
  match owner with
  | None => (d, Ok ())
  | Some who =>
      let '(d, r) := touch_dir d dir in
      match r with Err e => (d, Err e) | Ok _ => chown_dir d dir who end
  end end end end end end end.

(** [Drop]: the results of the three calls are ignored. *)
Definition drop_writer (d : Disk) (w : UploadWriter) : Disk :=
  if committed w then d
  else
    let '(d, _) := unlink d (directory_name w) PARTIAL_NAME in
    let '(d, _) := unlink d (directory_name w) (stored_basename w) in
    let '(d, _) := rmdir d (directory_name w) in
    d.

(** [finish] and [finish_as] consume the writer: on an error it is dropped
    uncommitted, on success committed. *)
Definition finish_as (d : Disk) (w : UploadWriter) (upload_id : bytes) (owner : option (Z * Z))
    : Disk * result CommittedUpload StoreError :=
  match finish_check w upload_id with
  | Err e => (drop_writer d w, Err e)
  | Ok _ =>
      let '(d, r) := finish_io d w owner in
      match r with
      | Err e => (drop_writer d w, Err (IoError e))
      | Ok _ =>
          (d, Ok {| c_upload_id := w_upload_id w;
                    remote_path := [w_root_path w; directory_name w; stored_basename w];
                    bytes_written := written w; c_sha256 := sha256 (hasher w) |})
      end
  end.

Definition finish (d : Disk) (w : UploadWriter) (upload_id : bytes)
    : Disk * result CommittedUpload StoreError := finish_as d w upload_id None.

Definition abort (d : Disk) (w : UploadWriter) : Disk := drop_writer d w.

(** ** The reaper

    The entries of [read_dir] in the order the listing gives them, each of
    which may fail to be read. [modified] is the modification time; an error
    ends the pass. *)
Fixpoint reap_loop (d : Disk) (names : list str) (modified : str → Z) (now retention removed : Z)
    : Disk * result Z StoreError :=
  match names with
  | [] => (d, Ok removed)
  | name :: names =>
      let '(d, r) := sys d (λ r, Ok (tt, r)) in
      match r with Err e => (d, Err (IoError e)) | Ok _ =>
      if negb (is_hex_id name) then reap_loop d names modified now retention removed
      else
        let '(d, r) := sys d (λ r, match r !! name with
                                   | Some n => Ok (n, r) | None => Err ENOENT end) in
        match r with
        | Err e => (d, Err (IoError e))
        | Ok Other => reap_loop d names modified now retention removed
        | Ok (Dir _ _) =>
            if Z.max 0 (now - modified name) <? retention
            then reap_loop d names modified now retention removed
            else
              let '(d, r) := sys d (λ r, Ok (tt, delete name r)) in
              match r with
              | Err e => (d, Err (IoError e))
              | Ok _ => reap_loop d names modified now retention (removed + 1)
              end
        end
      end
  end.

Definition reap_expired (d : Disk) (listing : list str) (modified : str → Z) (now retention : Z)
    : Disk * result Z StoreError :=
  let '(d, r) := sys d (λ r, Ok (tt, r)) in
  match r with
  | Err e => (d, Err (IoError e))
  | Ok _ => reap_loop d (take REAPER_SCAN_ENTRIES_MAX listing) modified now retention 0
  end.

(** ** System calls *)

(** No further call fails; the number of calls that will. *)
Definition quiet (d : Disk) : Prop := Forall (λ f, f = None) (faults d).
Definition fault_count (d : Disk) : nat := length (filter is_Some (faults d)).

Lemma quiet_count d : quiet d ↔ fault_count d = 0%nat.
Proof.
  rewrite /quiet /fault_count. induction (faults d) as [|[f|] fs IH].
  - done.
  - rewrite filter_cons_True; last done. split; [by intros [? _]%Forall_cons|done].
  - rewrite filter_cons_False; last by intros []. rewrite Forall_cons. tauto.
Qed.

(** A call either fails by a fault, which is used up and leaves the disk, or
    does what [f] does. *)
Lemma sys_spec {A : Type} (d : Disk) (f : gmap str Node → result (A * gmap str Node) Z)
    (d' : Disk) (r : result A Z) :
  sys d f = (d', r) →
  (∃ e, r = Err e ∧ root d' = root d ∧ (fault_count d' < fault_count d)%nat) ∨
  (fault_count d' ≤ fault_count d)%nat ∧
  match f (root d) with
  | Ok (a, rt) => r = Ok a ∧ root d' = rt
  | Err e => r = Err e ∧ root d' = root d
  end.
Proof.
  rewrite /sys /next_fault. destruct d as [rt [|[flt|] fs]]; simpl.
  - destruct (f rt) as [[a r']|e]; intros [= <- <-]; right; (split; [done|done]).
  - intros [= <- <-]. left. eexists. split_and!; try done.
    rewrite /fault_count. cbn [faults]. rewrite filter_cons_True //. simpl. lia.
  - rewrite /fault_count. cbn [faults]. rewrite filter_cons_False; last by intros [].
    destruct (f rt) as [[a r']|e]; intros [= <- <-]; right; (split; [done|done]).
Qed.

(** A directory of the upload being received, over an otherwise unchanged
    root. *)
Definition dir_at (d : Disk) (root0 : gmap str Node) (dir : str) (fs : gmap str bytes)
    (o : option (Z * Z)) : Prop := root d = <[dir := Dir fs o]> root0.

Lemma in_dir_spec {A : Type} (root0 : gmap str Node) (dir : str)
    (fs : gmap str bytes) (o : option (Z * Z))
    (f : gmap str bytes → option (Z * Z) → result (A * gmap str bytes * option (Z * Z)) Z) :
  in_dir dir f (<[dir := Dir fs o]> root0) =
  match f fs o with
  | Ok (a, fs', o') => Ok (a, <[dir := Dir fs' o']> root0)
  | Err e => Err e
  end.
Proof.
  rewrite /in_dir lookup_insert_eq. destruct (f fs o) as [[[a fs'] o']|e]; [|done].
  by rewrite insert_insert_eq.
Qed.

(** A call inside that directory. *)
Lemma sys_dir {A : Type} (d : Disk) (root0 : gmap str Node) (dir : str)
    (fs : gmap str bytes) (o : option (Z * Z))
    (f : gmap str bytes → option (Z * Z) → result (A * gmap str bytes * option (Z * Z)) Z)
    (d' : Disk) (r : result A Z) :
  dir_at d root0 dir fs o → sys d (in_dir dir f) = (d', r) →
  (∃ e, r = Err e ∧ dir_at d' root0 dir fs o ∧ (fault_count d' < fault_count d)%nat) ∨
  (fault_count d' ≤ fault_count d)%nat ∧
  match f fs o with
  | Ok (a, fs', o') => r = Ok a ∧ dir_at d' root0 dir fs' o'
  | Err e => r = Err e ∧ dir_at d' root0 dir fs o
  end.
Proof.
  rewrite /dir_at. intros Hd [(e & -> & -> & Hc)|[Hc Hf]]%sys_spec; [left; by exists e|right].
  split; [done|]. rewrite Hd in_dir_spec in Hf.
  destruct (f fs o) as [[[a fs'] o']|e]; naive_solver.
Qed.

Lemma touch_spec (d : Disk) (root0 : gmap str Node) (dir : str) (fs : gmap str bytes)
    (o : option (Z * Z)) (d' : Disk) (r : result unit Z) :
  dir_at d root0 dir fs o → touch_dir d dir = (d', r) →
  dir_at d' root0 dir fs o ∧
  ((∃ e, r = Err e ∧ (fault_count d' < fault_count d)%nat) ∨
   r = Ok () ∧ (fault_count d' ≤ fault_count d)%nat).
Proof.
  intros Hd Ht. destruct (sys_dir _ _ _ _ _ _ _ _ Hd Ht) as [(e & -> & H & Hc)|(Hc & -> & H)];
    (split; [done|]); [left; by exists e|by right].
Qed.

(** ** Cleanup *)
Lemma unlink_spec (d : Disk) (root0 : gmap str Node) (dir name : str) (fs : gmap str bytes)
    (o : option (Z * Z)) (d' : Disk) (r : result unit Z) :
  dir_at d root0 dir fs o → unlink d dir name = (d', r) →
  (∃ e, r = Err e ∧ dir_at d' root0 dir fs o ∧ (fault_count d' < fault_count d)%nat) ∨
  (fault_count d' ≤ fault_count d)%nat ∧ dir_at d' root0 dir (delete name fs) o ∧
  (is_Some (fs !! name) → r = Ok ()).
Proof.
  intros Hd Hu. destruct (sys_dir _ _ _ _ _ _ _ _ Hd Hu) as [?|[Hc Hf]]; [by left|right].
  split; [done|]. destruct (fs !! name) as [x|] eqn:E; destruct Hf as [-> Hf]; [done|].
  split; [|by intros []]. by rewrite delete_id.
Qed.

Lemma rmdir_spec (d : Disk) (root0 : gmap str Node) (dir : str) (o : option (Z * Z))
    (d' : Disk) (r : result unit Z) :
  dir_at d root0 dir ∅ o → root0 !! dir = None → rmdir d dir = (d', r) →
  (fault_count d' < fault_count d)%nat ∨ root d' = root0.
Proof.
  rewrite /dir_at. intros Hd Hn [(e & _ & _ & Hc)|[_ Hf]]%sys_spec; [by left|right].
  rewrite Hd lookup_insert_eq bool_decide_eq_true_2 // in Hf. destruct Hf as [_ ->].
  by rewrite delete_insert_id.
Qed.

(** The files a writer may have created. *)
Definition own_files (w : UploadWriter) (fs : gmap str bytes) : Prop :=
  ∀ k, is_Some (fs !! k) → k = PARTIAL_NAME ∨ k = stored_basename w.

Lemma drop_writer_clean (d : Disk) (w : UploadWriter) (root0 : gmap str Node)
    (fs : gmap str bytes) (o : option (Z * Z)) :
  quiet d → committed w = false → root0 !! directory_name w = None →
  dir_at d root0 (directory_name w) fs o → own_files w fs → root (drop_writer d w) = root0.
Proof.
  rewrite quiet_count => Hq Hc Hn Hd Hf. rewrite /drop_writer Hc.
  destruct (unlink d _ PARTIAL_NAME) as [d1 r1] eqn:E1.
  destruct (unlink_spec _ _ _ _ _ _ _ _ Hd E1) as [(? & _ & _ & ?)|(Hc1 & H1 & _)]; [lia|].
  destruct (unlink d1 _ (stored_basename w)) as [d2 r2] eqn:E2.
  destruct (unlink_spec _ _ _ _ _ _ _ _ H1 E2) as [(? & _ & _ & ?)|(Hc2 & H2 & _)]; [lia|].
  destruct (rmdir d2 _) as [d3 r3] eqn:E3.
  rewrite (_ : delete (stored_basename w) (delete PARTIAL_NAME fs) = ∅) in H2; last first.
  { apply map_eq => k. rewrite lookup_empty. apply eq_None_not_Some.
    intros [x [Hk1 [Hk2 Hk]%lookup_delete_Some]%lookup_delete_Some].
    destruct (Hf k ltac:(eauto)); congruence. }
  destruct (rmdir_spec _ _ _ _ _ _ H2 Hn E3); [lia|done].
Qed.

(** ** Beginning *)

(** A writer that has received [data]: its private directory holds exactly the
    partial file, over an otherwise unchanged root. *)
Record receiving (d : Disk) (w : UploadWriter) (root0 : gmap str Node) (data : bytes) : Prop := {
  rc_fresh : root0 !! directory_name w = None;
  rc_dir : dir_at d root0 (directory_name w) {[PARTIAL_NAME := data]} None;
  rc_committed : committed w = false;
  rc_hasher : hasher w = data;
  rc_written : written w = len data;
}.

Lemma open_new_writer_spec c (d : Disk) md id mx root0 d' r :
  dir_at d root0 (hex_id id) ∅ None → root0 !! hex_id id = None →
  open_new_writer c d md id mx = Some (d', r) →
  match r with
  | Ok w => new_writer c md id mx = Some w ∧ receiving d' w root0 [] ∧
      (fault_count d' ≤ fault_count d)%nat
  | Err _ => (fault_count d ≤ 1)%nat → quiet d' ∧ dir_at d' root0 (hex_id id) ∅ None
  end.
Proof.
  intros Hd Hn. rewrite /open_new_writer. cbv zeta.
  destruct (touch_dir d _) as [d1 r1] eqn:E1. apply (touch_spec _ _ _ _ _ _ _ Hd) in E1 as [H1 C1].
  destruct C1 as [(e & -> & C1)|[-> C1]].
  { intros [= <- <-] Hq. rewrite quiet_count. split; [lia|done]. }
  destruct (touch_dir d1 _) as [d2 r2] eqn:E2. apply (touch_spec _ _ _ _ _ _ _ H1) in E2 as [H2 C2].
  destruct C2 as [(e & -> & C2)|[-> C2]].
  { intros [= <- <-] Hq. rewrite quiet_count. split; [lia|done]. }
  destruct (create_excl d2 _ _) as [d3 r3] eqn:E3.
  destruct (sys_dir _ _ _ _ _ _ _ _ H2 E3) as [(e & -> & H3 & C3)|[C3 H3]].
  { intros [= <- <-] Hq. rewrite quiet_count. split; [lia|done]. }
  rewrite lookup_empty in H3. destruct H3 as [-> H3].
  destruct (touch_dir d3 _) as [d4 r4] eqn:E4. apply (touch_spec _ _ _ _ _ _ _ H3) in E4 as [H4 C4].
  destruct C4 as [(e & -> & C4)|[-> C4]].
  - destruct (unlink d4 _ _) as [d5 r5] eqn:E5. intros [= <- <-] Hq. rewrite quiet_count.
    destruct (unlink_spec _ _ _ _ _ _ _ _ H4 E5) as [(? & _ & _ & ?)|(C5 & H5 & _)]; [lia|].
    rewrite delete_insert_id // in H5. split; [lia|done].
  - destruct (new_writer c md id mx) as [w|] eqn:Ew; [|done]. intros [= <- <-].
    rewrite /new_writer in Ew. destruct (array_of 32 _); [|done]. injection Ew as <-.
    split_and!; [done| |lia]. by split.
Qed.

Lemma begin_with_id_spec c (d : Disk) md id mx d' r :
  begin_with_id c d md id mx = Some (d', r) →
  match r with
  | Ok w => new_writer c md id mx = Some w ∧ receiving d' w (root d) [] ∧
      validate_begin md (max_file_bytes c) = Ok () ∧ (fault_count d' ≤ fault_count d)%nat
  | Err _ => (fault_count d ≤ 1)%nat → root d' = root d
  end.
Proof.
  rewrite /begin_with_id. destruct (validate_begin _ _) as [[]|] eqn:Ev; [|by intros [= <- <-]].
  destruct (mkdirat d _) as [d1 r1] eqn:Em. apply sys_spec in Em as [(e & -> & E1 & C1)|[C1 E1]].
  { by intros [= <- <-]. }
  destruct (root d !! hex_id id) as [n|] eqn:En; destruct E1 as [-> E1]; [by intros [= <- <-]|].
  destruct (open_new_writer c d1 md id mx) as [[d2 [w|e]]|] eqn:Eo; [..|done]; simpl;
    pose proof (open_new_writer_spec _ _ _ _ _ (root d) _ _ E1 En Eo) as Ho.
  - intros [= <- <-]. destruct Ho as (? & ? & ?). split_and!; try done. lia.
  - destruct (rmdir d2 _) as [d3 r3] eqn:E3. intros [= <- <-] Hc.
    destruct Ho as [Hq H2]; [lia|]. rewrite quiet_count in Hq.
    destruct (rmdir_spec _ _ _ _ _ _ H2 En E3); [lia|done].
Qed.

(** ** Receiving chunks *)

(** What a writer's operations do not change. *)
Definition same_upload (w w' : UploadWriter) : Prop :=
  w_root_path w' = w_root_path w ∧ directory_name w' = directory_name w ∧
  stored_basename w' = stored_basename w ∧ w_upload_id w' = w_upload_id w ∧
  expected_bytes w' = expected_bytes w ∧ expected_sha256 w' = expected_sha256 w ∧
  w_maximum_chunk_bytes w' = w_maximum_chunk_bytes w ∧ committed w' = committed w.

Lemma append_prefix_spec (root0 : gmap str Node) dir old data o :
  append_prefix dir data (<[dir := Dir {[PARTIAL_NAME := old]} o]> root0) =
  <[dir := Dir {[PARTIAL_NAME := old ++ data]} o]> root0.
Proof.
  by rewrite /append_prefix lookup_insert_eq lookup_singleton_eq !insert_insert_eq.
Qed.

Lemma write_chunk_spec (d : Disk) (w : UploadWriter) chunk root0 data d' w' r :
  receiving d w root0 data → write_chunk d w chunk = (d', w', r) →
  same_upload w w' ∧ (fault_count d' ≤ fault_count d)%nat ∧
  match r with
  | Ok _ => receiving d' w' root0 (data ++ uc_data chunk) ∧
      ChunkFits chunk (w_upload_id w) (written w) (w_maximum_chunk_bytes w) (expected_bytes w)
  | Err _ => w' = w ∧ ∃ data', dir_at d' root0 (directory_name w) {[PARTIAL_NAME := data']} None
  end.
Proof.
  intros [Hn Hd Hc Hh Hw]. rewrite /write_chunk.
  destruct (validate_chunk _ _ _ _ _) as [[]|e] eqn:Ev;
    [|intros [= <- <- <-]; split_and!; eauto; by split_and!].
  apply validate_chunk_Ok in Ev. rewrite /write_all /next_fault. rewrite /dir_at in Hd.
  have Happ x fs : dir_at (set_root {| root := root d; faults := fs |}
      (append_prefix (directory_name w) x (root d)))
      root0 (directory_name w) {[PARTIAL_NAME := data ++ x]} None.
  { by rewrite /dir_at /= Hd append_prefix_spec. }
  have Hok fs : receiving (set_root {| root := root d; faults := fs |}
      (append_prefix (directory_name w) (uc_data chunk) (root d)))
      {| w_root_path := w_root_path w; directory_name := directory_name w;
         stored_basename := stored_basename w; w_upload_id := w_upload_id w;
         expected_bytes := expected_bytes w; expected_sha256 := expected_sha256 w;
         w_maximum_chunk_bytes := w_maximum_chunk_bytes w;
         written := written w + len (uc_data chunk);
         hasher := hasher w ++ uc_data chunk; committed := committed w |}
      root0 (data ++ uc_data chunk).
  { split; simpl; try done; [by rewrite Hh|rewrite Hw len_app; lia]. }
  destruct d as [rt [|[flt|] fs]]; cbn [faults root] in *; intros [= <- <- <-]; rewrite /fault_count; cbn [faults set_root].
  - by split_and!.
  - rewrite filter_cons_True //. simpl. split_and!; try done; [lia|]. eexists. apply Happ.
  - rewrite filter_cons_False; last by intros []. by split_and!.
Qed.

Fixpoint write_chunks (d : Disk) (w : UploadWriter) (cs : list UploadChunk)
    : Disk * UploadWriter * result unit StoreError :=
  match cs with
  | [] => (d, w, Ok ())
  | c :: cs =>
      let '(d, w, r) := write_chunk d w c in
      match r with Err e => (d, w, Err e) | Ok _ => write_chunks d w cs end
  end.

Lemma same_upload_trans w1 w2 w3 : same_upload w1 w2 → same_upload w2 w3 → same_upload w1 w3.
Proof. rewrite /same_upload. intuition congruence. Qed.

Lemma write_chunks_spec cs (d : Disk) (w : UploadWriter) root0 data d' w' r :
  receiving d w root0 data → write_chunks d w cs = (d', w', r) →
  same_upload w w' ∧ (fault_count d' ≤ fault_count d)%nat ∧
  match r with
  | Ok _ => receiving d' w' root0 (data ++ concat (map uc_data cs))
  | Err _ => ∃ data', dir_at d' root0 (directory_name w) {[PARTIAL_NAME := data']} None
  end.
Proof.
  revert d w data. induction cs as [|c cs IH]; intros d w data R; simpl.
  { intros [= <- <- <-]. rewrite app_nil_r. by split_and!. }
  destruct (write_chunk d w c) as [[d1 w1] r1] eqn:E1.
  destruct (write_chunk_spec _ _ _ _ _ _ _ _ R E1) as (S1 & C1 & H1).
  destruct r1 as [[]|e].
  - destruct H1 as [R1 _]. intros E. destruct (IH _ _ _ R1 E) as (S2 & C2 & H2).
    split; [by eapply same_upload_trans|]. split; [lia|].
    destruct r; [by rewrite app_assoc|]. destruct S1 as (_ & <- & _). done.
  - intros [= <- <- <-]. destruct H1 as [-> H1]. done.
Qed.

(** ** Committing *)

(** One fallible [touch_dir] of [finish_io]: on a fault the goal's error case. *)
Ltac touch_step Hd :=
  let d1 := fresh "d" in let r1 := fresh "r" in let E := fresh "E" in
  match goal with |- context [touch_dir ?d ?dir] =>
    destruct (touch_dir d dir) as [d1 r1] eqn:E;
    apply (touch_spec _ _ _ _ _ _ _ Hd) in E as [? [(? & -> & ?)|[-> ?]]]
  end.

Lemma own_files_partial w data : own_files w {[PARTIAL_NAME := data]}.
Proof. intros k [x Hx]. apply lookup_singleton_Some in Hx as [<- _]. by left. Qed.

Lemma own_files_both w data :
  own_files w (<[stored_basename w := data]> {[PARTIAL_NAME := data]}).
Proof.
  intros k [x [[<- _]|[_ Hx]]%lookup_insert_Some]; [by right|].
  apply lookup_singleton_Some in Hx as [<- _]. by left.
Qed.

Lemma own_files_final w data : own_files w {[stored_basename w := data]}.
Proof. intros k [x Hx]. apply lookup_singleton_Some in Hx as [<- _]. by right. Qed.

#[local] Hint Resolve own_files_partial own_files_both own_files_final : core.

Lemma finish_io_spec (d : Disk) (w : UploadWriter) owner root0 data d' r :
  receiving d w root0 data → stored_basename w ≠ PARTIAL_NAME →
  finish_io d w owner = (d', r) →
  match r with
  | Ok _ => dir_at d' root0 (directory_name w) {[stored_basename w := data]} owner
  | Err _ => (fault_count d' < fault_count d)%nat ∧
      ∃ fs o, dir_at d' root0 (directory_name w) fs o ∧ own_files w fs
  end.
Proof.
  intros [Hn Hd Hc _ _] Hb. rewrite /finish_io. cbv zeta.
  touch_step Hd. { intros [= <- <-]. split; [lia|eauto]. }
  touch_step H. { intros [= <- <-]. split; [lia|eauto]. }
  destruct (linkat _ _ _ _) as [d2 r2] eqn:E2.
  destruct (sys_dir _ _ _ _ _ _ _ _ H1 E2) as [(e & -> & H3 & C3)|[C3 H3]].
  { intros [= <- <-]. split; [lia|eauto]. }
  rewrite lookup_singleton_eq lookup_singleton_ne // in H3. destruct H3 as [-> H3].
  destruct (unlink _ _ _) as [d3 r3] eqn:E3.
  destruct (unlink_spec _ _ _ _ _ _ _ _ H3 E3) as [(e & -> & H4 & C4)|(C4 & H4 & Hok)].
  { intros [= <- <-]. split; [lia|]. do 2 eexists. split; [exact H4|auto]. }
  rewrite Hok; last by rewrite lookup_insert_ne // lookup_singleton_eq.
  rewrite (_ : delete PARTIAL_NAME _ = {[stored_basename w := data]}) in H4; last first.
  { rewrite delete_insert_ne // delete_singleton_eq insert_empty //. }
  touch_step H4. { intros [= <- <-]. split; [lia|eauto]. }
  touch_step H5. { intros [= <- <-]. split; [lia|eauto]. }
  destruct owner as [who|]; [|by intros [= <- <-]].
  touch_step H7. { intros [= <- <-]. split; [lia|eauto]. }
  intros E. destruct (sys_dir _ _ _ _ _ _ _ _ H9 E) as [(e & -> & H11 & C5)|(C5 & -> & H11)]; [|done].
  split; [lia|eauto].
Qed.

(** ** Names *)
Definition safe_char (c : char) : bool := is_ascii_alphanumeric c || bool_decide (c ∈ lit "._-").

(** One path component that is neither special nor the internal name. *)
Record safe_name (s : str) : Prop := {
  sn_chars : Forall (λ c, safe_char c = true) s;
  sn_len : 0 < str_len s ≤ STORED_BASENAME_BYTES_MAX;
  sn_dot : s ≠ lit ".";
  sn_dotdot : s ≠ lit "..";
  sn_partial : s ≠ PARTIAL_NAME;
}.

Lemma safe_char_ascii c : safe_char c = true → is_ascii c = true.
Proof.
  rewrite /safe_char orb_true_iff bool_decide_eq_true.
  rewrite /is_ascii_alphanumeric /is_ascii_digit /is_ascii_upper /is_ascii_lower /is_ascii.
  intros [Hc|Hc]; [lia|]. simpl in Hc. set_unfold in Hc. naive_solver lia.
Qed.

Lemma safe_str_len s : Forall (λ c, safe_char c = true) s → str_len s = len s.
Proof.
  intros Hs. rewrite /str_len str_bytes_ascii; [by rewrite /len length_map|].
  eapply Forall_impl; [exact Hs|]. apply safe_char_ascii.
Qed.

Lemma sanitize_loop_safe chars result in_rep :
  Forall (λ c, safe_char c = true) result → len result ≤ STORED_BASENAME_BYTES_MAX →
  let out := sanitize_loop chars result in_rep in
  Forall (λ c, safe_char c = true) out ∧ len out ≤ STORED_BASENAME_BYTES_MAX.
Proof.
  revert result in_rep. induction chars as [|c chars IH]; intros result in_rep Hr Hl; [done|].
  cbn [sanitize_loop]. rewrite (safe_str_len result) //.
  destruct (STORED_BASENAME_BYTES_MAX <=? len result) eqn:E; [done|].
  destruct (_ || _) eqn:Ec.
  - apply IH; [|rewrite len_app len_cons len_nil; lia].
    apply Forall_app. split; [done|]. by constructor.
  - destruct in_rep; simpl; [by apply IH|].
    apply IH; [|rewrite len_app len_cons len_nil; lia].
    apply Forall_app. split; [done|]. by constructor.
Qed.

Lemma sanitize_loop_id chars result in_rep :
  Forall (λ c, safe_char c = true) (result ++ chars) →
  len result + len chars ≤ STORED_BASENAME_BYTES_MAX →
  sanitize_loop chars result in_rep = result ++ chars.
Proof.
  revert result in_rep. induction chars as [|c chars IH]; intros result in_rep Hs Hl;
    [by rewrite app_nil_r|].
  pose proof (proj1 (Forall_app _ _ _) Hs) as [Hr [Hc _]%Forall_cons].
  cbn [sanitize_loop]. rewrite (safe_str_len result) //. rewrite len_cons in Hl.
  pose proof (len_nonneg chars). rewrite (proj2 (Z.leb_gt _ _)); last lia.
  change (is_ascii_alphanumeric c || bool_decide (c ∈ lit "._-")) with (safe_char c). rewrite Hc.
  rewrite IH; [by rewrite -app_assoc|by rewrite -app_assoc|]. rewrite len_app len_cons len_nil. lia.
Qed.

Lemma sanitize_basename_safe original : safe_name (sanitize_basename original).
Proof.
  rewrite /sanitize_basename. cbv zeta.
  destruct (sanitize_loop_safe original [] false) as [Hs Hl]; [done|done|].
  destruct (_ || _) eqn:E.
  - split; try done. by repeat constructor.
  - to_prop. split; try done. rewrite safe_str_len // /len in Hl |- *.
    destruct (sanitize_loop original [] false); [done|]. simpl in *. lia.
Qed.

Lemma safe_name_fixed s : safe_name s → sanitize_basename s = s.
Proof.
  intros [Hc [Hl0 Hl] H1 H2 H3]. rewrite safe_str_len // in Hl0 Hl.
  rewrite /sanitize_basename sanitize_loop_id //=.
  rewrite !bool_decide_eq_false_2 //. destruct s; [done|]. done.
Qed.

(** ** Properties *)

(** The name under which a file is stored is one safe path component,
    whatever the client sent (no separator, not [.] or [..], not the internal
    name, at most 200 bytes of letters, digits, dot, underscore and dash), and a
    name that already is one is kept as it is. *)
Theorem sanitize_basename_correct original :
  safe_name (sanitize_basename original) ∧
  sanitize_basename (sanitize_basename original) = sanitize_basename original.
Proof.
  split; [apply sanitize_basename_safe|]. apply safe_name_fixed, sanitize_basename_safe.
Qed.

Lemma begin_collision c (d : Disk) md id mx d' :
  begin_with_id c d md id mx = Some (d', Err IdCollision) → root d' = root d.
Proof.
  rewrite /begin_with_id. destruct (validate_begin _ _) as [[]|] eqn:Ev; [|done].
  destruct (mkdirat d _) as [d1 r1] eqn:Em. pose proof Em as Es.
  apply sys_spec in Em as [(e & -> & E1 & C1)|[C1 E1]].
  { intros [= <- _]. done. }
  destruct (root d !! hex_id id) as [n|] eqn:En; destruct E1 as [-> E1]; [by intros [= <-]|].
  rewrite /open_new_writer. cbv zeta.
  destruct (touch_dir d1 _) as [? [[]|]]; simpl; [|by destruct (rmdir _ _)].
  destruct (touch_dir _ _) as [? [[]|]]; simpl; [|by destruct (rmdir _ _)].
  destruct (create_excl _ _ _) as [? [[]|]]; simpl; [|by destruct (rmdir _ _)].
  destruct (touch_dir _ _) as [? [[]|]]; simpl; [by destruct (new_writer _ _ _ _)|].
  destruct (unlink _ _ _). simpl. by destruct (rmdir _ _).
Qed.

Lemma begin_loop_Ok c ids (d : Disk) md mx d' w :
  begin_loop c d md ids mx = Some (d', Ok w) →
  ∃ id, new_writer c md id mx = Some w ∧ receiving d' w (root d) [] ∧
    validate_begin md (max_file_bytes c) = Ok ().
Proof.
  revert d. induction ids as [|id ids IH]; intros d; [done|]. cbn [begin_loop].
  destruct (begin_with_id c d md id mx) as [[d1 r1]|] eqn:E; [|done]. cbn [mbind option_bind].
  pose proof (begin_with_id_spec _ _ _ _ _ _ _ E) as Hs. destruct r1 as [w1|e].
  - intros [= <- <-]. exists id. destruct Hs as (? & ? & ? & _). done.
  - destruct e; try done. intros Hl. rewrite -(begin_collision _ _ _ _ _ _ E). by apply IH.
Qed.


(** ** A complete upload without faults *)
Lemma sys_quiet {A : Type} (d : Disk) (f : gmap str Node → result (A * gmap str Node) Z) a rt :
  quiet d → f (root d) = Ok (a, rt) →
  ∃ d', sys d f = (d', Ok a) ∧ quiet d' ∧ root d' = rt.
Proof.
  rewrite quiet_count. intros Hq Hf. destruct (sys d f) as [d' r] eqn:E. pose proof E as Es.
  apply sys_spec in E as [(e & _ & _ & ?)|[Hc Hs]]; [lia|]. rewrite Hf in Hs.
  destruct Hs as [-> ?]. exists d'. split_and!; [done| |done]. apply quiet_count. lia.
Qed.

Lemma sys_dir_quiet {A : Type} (d : Disk) (root0 : gmap str Node) (dir : str)
    (fs : gmap str bytes) (o : option (Z * Z))
    (f : gmap str bytes → option (Z * Z) → result (A * gmap str bytes * option (Z * Z)) Z)
    a fs' o' :
  quiet d → dir_at d root0 dir fs o → f fs o = Ok (a, fs', o') →
  ∃ d', sys d (in_dir dir f) = (d', Ok a) ∧ quiet d' ∧ dir_at d' root0 dir fs' o'.
Proof.
  intros Hq Hd Hf. apply sys_quiet; [done|]. by rewrite Hd in_dir_spec Hf.
Qed.

Lemma touch_quiet (d : Disk) (root0 : gmap str Node) (dir : str) (fs : gmap str bytes)
    (o : option (Z * Z)) :
  quiet d → dir_at d root0 dir fs o →
  ∃ d', touch_dir d dir = (d', Ok ()) ∧ quiet d' ∧ dir_at d' root0 dir fs o.
Proof. intros Hq Hd. by eapply sys_dir_quiet. Qed.

Lemma create_quiet (d : Disk) (root0 : gmap str Node) (dir : str) (o : option (Z * Z)) :
  quiet d → dir_at d root0 dir ∅ o →
  ∃ d', create_excl d dir PARTIAL_NAME = (d', Ok ()) ∧ quiet d' ∧
    dir_at d' root0 dir {[PARTIAL_NAME := []]} o.
Proof. intros Hq Hd. by eapply sys_dir_quiet. Qed.

Lemma begin_quiet c (d : Disk) md id mx :
  quiet d → root d !! hex_id id = None → validate_begin md (max_file_bytes c) = Ok () →
  ∃ d' w, begin_with_id c d md id mx = Some (d', Ok w) ∧ quiet d'.
Proof.
  intros Hq Hn Hv. rewrite /begin_with_id Hv.
  destruct (sys_quiet d (λ r, match r !! hex_id id with
              | Some _ => Err EEXIST
              | None => Ok (tt, <[hex_id id := Dir ∅ None]> r)
              end) () (<[hex_id id := Dir ∅ None]> (root d))) as (d1 & E1 & Q1 & R1);
    [done|by rewrite Hn|]. rewrite /mkdirat E1 /open_new_writer. cbv zeta.
  destruct (touch_quiet d1 (root d) (hex_id id) ∅ None Q1 R1) as (d2 & -> & Q2 & R2).
  destruct (touch_quiet d2 (root d) (hex_id id) ∅ None Q2 R2) as (d3 & -> & Q3 & R3).
  destruct (create_quiet d3 (root d) (hex_id id) None Q3 R3) as (d4 & -> & Q4 & R4).
  destruct (touch_quiet d4 (root d) (hex_id id) _ None Q4 R4) as (d5 & -> & Q5 & R5).
  apply validate_begin_Ok in Hv as (_ & Hsha & _). rewrite /new_writer.
  destruct (array_of 32 (bu_sha256 md)) as [sha|] eqn:Ea; [|by apply array_of_None in Ea].
  do 2 eexists. by split.
Qed.

(** The messages a client sends for these pieces. *)
Fixpoint make_chunks (id : array UPLOAD_ID_BYTES) (offset : Z) (pieces : list bytes)
    : list UploadChunk :=
  match pieces with
  | [] => []
  | p :: ps => {| uc_upload_id := array_bytes id; uc_offset := offset; uc_data := p |}
               :: make_chunks id (offset + len p) ps
  end.

Lemma make_chunks_data id offset pieces : map uc_data (make_chunks id offset pieces) = pieces.
Proof. revert offset. induction pieces as [|p ps IH]; intros offset; [done|]. by rewrite /= IH. Qed.

Lemma write_chunk_quiet (d : Disk) (w : UploadWriter) chunk root0 data :
  quiet d → receiving d w root0 data →
  ChunkFits chunk (w_upload_id w) (written w) (w_maximum_chunk_bytes w) (expected_bytes w) →
  ∃ d' w', write_chunk d w chunk = (d', w', Ok ()) ∧ quiet d'.
Proof.
  intros Hq R Hf%validate_chunk_Ok. destruct (write_chunk d w chunk) as [[d' w'] r] eqn:E.
  destruct (write_chunk_spec _ _ _ _ _ _ _ _ R E) as (_ & Hc & _).
  exists d', w'. rewrite quiet_count in Hq. split; [|apply quiet_count; lia].
  revert E. rewrite /write_chunk Hf /write_all /next_fault.
  destruct d as [rt [|[flt|] fs]]; simpl; intros E; simplify_eq; try done.
Qed.

Lemma write_chunks_quiet pieces (d : Disk) (w : UploadWriter) root0 data :
  quiet d → receiving d w root0 data →
  Forall (λ p, p ≠ [] ∧ len p ≤ w_maximum_chunk_bytes w ∧ len p ≤ UPLOAD_CHUNK_BYTES_MAX) pieces →
  len data + len (concat pieces) ≤ expected_bytes w → expected_bytes w ≤ u64_max →
  ∃ d' w', write_chunks d w (make_chunks (w_upload_id w) (len data) pieces) = (d', w', Ok ()) ∧
    quiet d'.
Proof.
  revert d w data. induction pieces as [|p ps IH]; intros d w data Hq R Hp Hl Hu.
  { by exists d, w. }
  apply Forall_cons in Hp as [(Hne & H1 & H2) Hps]. cbn [concat] in Hl. rewrite len_app in Hl.
  pose proof (len_nonneg (concat ps)). cbn [make_chunks write_chunks].
  set (ch := {| uc_upload_id := _; uc_offset := _; uc_data := p |}).
  destruct (write_chunk_quiet d w ch root0 data Hq R) as (d1 & w1 & E1 & Q1).
  { split; simpl; try done; rewrite ?(rc_written _ _ _ _ R); lia. }
  rewrite E1. destruct (write_chunk_spec _ _ _ _ _ _ _ _ R E1) as (Hs & _ & R1 & _).
  destruct Hs as (_ & _ & _ & Ei & Et & _ & Em & _).
  rewrite -Ei -len_app. apply (IH d1 w1 (data ++ p)); [done|done|by rewrite Em| |by rewrite Et].
  rewrite Et len_app. lia.
Qed.

(** An upload round trip: for any content whose length and digest are as
    declared, cut into any non-empty pieces within the chunk limit, with an
    unused random id and no failing system call, [begin], the chunks in order
    and [finish] succeed, and the disk then holds exactly that content under
    the sanitised name in a fresh private directory. *)
Theorem upload_roundtrip c d md mx id ids pieces :
  quiet d → root d !! hex_id id = None → validate_begin md (max_file_bytes c) = Ok () → 0 < mx →
  Forall (λ p, p ≠ [] ∧ len p ≤ Z.min mx UPLOAD_CHUNK_BYTES_MAX) pieces →
  len (concat pieces) = bu_total_bytes md → array_bytes (sha256 (concat pieces)) = bu_sha256 md →
  ∃ d1 w d2 w2 d3 cu,
    begin_with_chunk_limit c d md mx (id :: ids) = Some (d1, Ok w) ∧
    write_chunks d1 w (make_chunks id 0 pieces) = (d2, w2, Ok ()) ∧
    finish d2 w2 (array_bytes id) = (d3, Ok cu) ∧
    root d3 = <[hex_id id := Dir {[sanitize_basename (bu_original_name md) := concat pieces]} None]>
                (root d).
Proof.
  intros Hq Hn Hv Hmx Hp Hlen Hsha.
  destruct (begin_quiet c d md id (Z.min mx UPLOAD_CHUNK_BYTES_MAX) Hq Hn Hv) as (d1 & w & Eb & Q1).
  pose proof (begin_with_id_spec _ _ _ _ _ _ _ Eb) as (Hw & R & _ & _).
  rewrite /new_writer in Hw. destruct (array_of 32 (bu_sha256 md)) as [sha|] eqn:Ea; [|done].
  apply array_of_Some in Ea. simpl in Hw. injection Hw as Ew.
  destruct (write_chunks_quiet pieces d1 w (root d) [] Q1 R) as (d2 & w2 & Ec & Q2).
  { rewrite -Ew /=. eapply Forall_impl; [exact Hp|]. simpl. intros p [? ?]. split_and!; [done|lia|lia]. }
  { rewrite -Ew /= len_nil. lia. }
  { rewrite -Ew /=. apply validate_begin_Ok in Hv as (_ & _ & _ & Hmax).
    rewrite /UPLOAD_FILE_BYTES_HARD_MAX /u64_max in Hmax |- *. lia. }
  replace (w_upload_id w) with id in Ec by (by rewrite -Ew). rewrite len_nil in Ec.
  destruct (write_chunks_spec _ _ _ _ _ _ _ _ R Ec) as (Hs & _ & R2).
  rewrite make_chunks_data /= in R2. destruct Hs as (_ & Ed & Ebn & Ei & Et & Es & _).
  assert (stored_basename w2 ≠ PARTIAL_NAME) as Hnp.
  { rewrite Ebn -Ew. apply sanitize_basename_safe. }
  destruct (finish_io d2 w2 None) as [d3 r3] eqn:Eio.
  pose proof (finish_io_spec _ _ _ _ _ _ _ R2 Hnp Eio) as Hio.
  destruct r3 as [[]|e]; last first.
  { apply quiet_count in Q2. destruct Hio as [? _]. lia. }
  do 6 eexists. split.
  { rewrite /begin_with_chunk_limit Hv (proj2 (Z.eqb_neq mx 0)); last lia.
    rewrite /RANDOM_ID_ATTEMPTS. cbn [take begin_loop]. rewrite Eb. reflexivity. }
  split; [exact Ec|]. split.
  { rewrite /finish /finish_as.
    replace (finish_check w2 (array_bytes id)) with (@Ok unit StoreError ()); last first.
    { rewrite /finish_check Ei Et Es -Ew /= bool_decide_eq_true_2 //=.
      rewrite (rc_written _ _ _ _ R2) Hlen Z.eqb_refl /= (rc_hasher _ _ _ _ R2).
      rewrite bool_decide_eq_true_2 //. apply (inj array_bytes). by rewrite Ea. }
    rewrite Eio. reflexivity. }
  rewrite /dir_at Ed Ebn -Ew in Hio. exact Hio.
Qed.
End store.

(** ** Witnesses *)
Definition zero_hash : HashOps := {| sha256 _ := array_repeat 32 Byte.x00 |}.
#[local] Existing Instance zero_hash.

Definition demo_config : StoreConfig := {| cfg_root := lit "/up"; max_file_bytes := 1000 |}.
Definition demo_disk : Disk := {| root := ∅; faults := [] |}.
Definition demo_begin : BeginUpload := {|
  bu_original_name := lit "a b.txt"; bu_total_bytes := 3;
  bu_sha256 := array_bytes (array_repeat 32 Byte.x00) |}.
Definition demo_id : array UPLOAD_ID_BYTES := array_repeat 16 Byte.x44.
Definition demo_pieces : list bytes := [[Byte.x61; Byte.x62]; [Byte.x63]].

Lemma upload_roundtrip_witness :
  ∃ d1 w d2 w2 d3 cu,
    begin_with_chunk_limit demo_config demo_disk demo_begin 2 [demo_id] = Some (d1, Ok w) ∧
    write_chunks d1 w (make_chunks demo_id 0 demo_pieces) = (d2, w2, Ok ()) ∧
    finish d2 w2 (array_bytes demo_id) = (d3, Ok cu) ∧
    root d3 = <[hex_id demo_id := Dir {[sanitize_basename (lit "a b.txt") := concat demo_pieces]} None]> ∅.
Proof.
  apply (upload_roundtrip demo_config demo_disk demo_begin 2 demo_id [] demo_pieces);
    [constructor|reflexivity|reflexivity|lia| |reflexivity|reflexivity].
  repeat constructor; by vm_compute.
Defined.

(** A checksum that does not match: nothing is left behind. *)
Definition bad_begin : BeginUpload := {|
  bu_original_name := lit "x"; bu_total_bytes := 3;
  bu_sha256 := array_bytes (array_repeat 32 Byte.x01) |}.

