(* ===== verification/Spawner.v ===== *)
(** * The privileged spawner and the daemon's use of it

    [crates/spawner/src/lib.rs] (the daemon's side: [spawn_shell],
    [RemoteShell], [begin_upload], [RemoteUpload]) and
    [crates/spawner/src/bin/holdfast-spawner.rs] (the helper that systemd starts
    per connection). The helper's process is a record of its socket, the disk,
    what it executed and what it killed; [None] is a blocking call that still
    waits (or a panic, which the theorems exclude). *)
From S2P Require Import Prelude Protocol UploadProto Launch SpawnerWire SessionCore UploadStore.

(** ** Error texts *)
Definition store_error_text {E : ErrnoText} (e : StoreError) : str :=
  match e with
  | InvalidRoot => lit "upload root must be an absolute directory opened without following symlinks"
  | InvalidUpload e => validation_text e
  | IdCollision => lit "upload id collided after bounded retries"
  | InvalidChunkLimit => lit "selected upload chunk limit must be greater than zero"
  | LengthMismatch actual expected =>
      lit "received " ++ dec_str actual ++ lit " bytes but expected " ++ dec_str expected
  | ChecksumMismatch => lit "upload SHA-256 does not match the declaration"
  | IoError e => errno_text e
  end.

(** The JSON of the six message types. *)
Class SpawnerJson := {
  json_initial :: Json InitialRequest;
  json_spawn_reply :: Json SpawnReply;
  json_daemon_msg :: Json DaemonMsg;
  json_spawner_msg :: Json SpawnerMsg;
  json_upload_msg :: Json UploadDaemonMsg;
  json_upload_reply :: Json UploadReply;
}.

(** ** The daemon's side *)
Section client.
Context {E : ErrnoText} {J : SpawnerJson}.

(** [connected] is what the three socket calls came to. *)
Definition connect_spawner (path : str) (connected : result Sock str) : result Sock SpawnError :=
  map_err (SpConnect path) connected.

Record RemoteShell := { rs_sock : Sock; rs_pid : Z; rs_exit : option ExitSummary }.

Definition client_spawn_shell (path : str) (connected : result Sock str) (req : SpawnRequest)
    : option (result (Fd * RemoteShell) SpawnError) :=
  match connect_spawner path connected with
  | Err e => Some (Err e)
  | Ok sock =>
      let '(sock, r) := send_message sock (SpawnShell req) None in
      match r with
      | Err e => Some (Err e)
      | Ok _ =>
          '(sock, r) ← recv_message sock;
          Some (let? r := r in
                let? (reply, fd) := ok_or r (SpProtocol (lit "spawner closed before replying")) in
                match reply with
                | Spawned pid =>
                    let? master := ok_or fd (SpProtocol (lit "spawner reported success without a PTY fd")) in
                    Ok (master, {| rs_sock := sock; rs_pid := pid; rs_exit := None |})
                | SpawnRefused message true => Err (SpForbidden message)
                | SpawnRefused message false => Err (SpSpawner message)
                end)
      end
  end.

Definition set_exit (c : RemoteShell) (s : Sock) (x : ExitSummary) : RemoteShell :=
  {| rs_sock := s; rs_pid := rs_pid c; rs_exit := Some x |}.

Definition lost (c : RemoteShell) (s : Sock) : RemoteShell * ExitSummary :=
  let summary := {| exit_success := false; exit_code := LOST_SPAWNER_EXIT_CODE |} in
  (set_exit c s summary, summary).

Definition record_exit (c : RemoteShell) (s : Sock) (msg : SpawnerMsg) : RemoteShell * ExitSummary :=
  let '(MsgExited success code) := msg in
  let summary := {| exit_success := success; exit_code := code |} in
  (set_exit c s summary, summary).

Definition with_sock (c : RemoteShell) (s : Sock) : RemoteShell :=
  {| rs_sock := s; rs_pid := rs_pid c; rs_exit := rs_exit c |}.

(** An error is the text of [PtyError::Spawn]. *)
Definition try_wait (c : RemoteShell) : RemoteShell * result (option ExitSummary) str :=
  match rs_exit c with
  | Some x => (c, Ok (Some x))
  | None =>
      match recv_message_nonblocking (T := SpawnerMsg) (rs_sock c) with
      | (s, Ok (PeerClosed, _)) => let '(c, x) := lost c s in (c, Ok (Some x))
      | (s, Ok (PeerOpen, Some msg)) => let '(c, x) := record_exit c s msg in (c, Ok (Some x))
      | (s, Ok (PeerOpen, None)) => (with_sock c s, Ok None)
      | (s, Err e) => (with_sock c s, Err (spawn_error_text e))
      end
  end.

Definition wait (c : RemoteShell) : option (RemoteShell * result ExitSummary str) :=
  match rs_exit c with
  | Some x => Some (c, Ok x)
  | None =>
      '(s, r) ← recv_message (T := SpawnerMsg) (rs_sock c);
      Some match r with
           | Ok (Some (msg, _)) => let '(c, x) := record_exit c s msg in (c, Ok x)
           | Ok None => let '(c, x) := lost c s in (c, Ok x)
           | Err e => (with_sock c s, Err (spawn_error_text e))
           end
  end.

Definition kill (c : RemoteShell) : RemoteShell * result unit str :=
  match rs_exit c with
  | Some _ => (c, Ok ())
  | None => let '(s, _) := send_message (rs_sock c) Kill None in (with_sock c s, Ok ())
  end.

(** An upload through the helper; the socket is taken when it ends. *)
Record RemoteUpload := {
  ru_sock : option Sock; ru_upload_id : bytes; ru_maximum_chunk_bytes : Z; ru_next_offset : Z }.

Definition begin_upload (path : str) (connected : result Sock str) (q : ReceiveUploadRequest)
    : option (result RemoteUpload SpawnError) :=
  match connect_spawner path connected with
  | Err e => Some (Err e)
  | Ok sock =>
      let '(sock, r) := send_message sock (ReceiveUpload q) None in
      match r with
      | Err e => Some (Err e)
      | Ok _ =>
          '(sock, r) ← recv_message sock;
          Some (let? r := r in
                let? (reply, fd) := ok_or r (SpProtocol (lit "spawner closed before upload reply")) in
                if bool_decide (is_Some fd)
                then Err (SpProtocol (lit "upload reply unexpectedly carried a descriptor"))
                else match reply with
                     | UrReady upload_id maximum_chunk_bytes =>
                         Ok {| ru_sock := Some sock; ru_upload_id := upload_id;
                               ru_maximum_chunk_bytes := maximum_chunk_bytes; ru_next_offset := 0 |}
                     | UrError message true => Err (SpForbidden message)
                     | UrError message false => Err (SpSpawner message)
                     | UrFinished _ _ _ _ =>
                         Err (SpProtocol (lit "spawner finished an upload before receiving bytes"))
                     end)
      end
  end.

Definition set_upload (u : RemoteUpload) (s : option Sock) (next_offset : Z) : RemoteUpload := {|
  ru_sock := s; ru_upload_id := ru_upload_id u;
  ru_maximum_chunk_bytes := ru_maximum_chunk_bytes u; ru_next_offset := next_offset |}.

Definition remote_write_chunk (u : RemoteUpload) (data : bytes) : RemoteUpload * result unit SpawnError :=
  let maximum := ru_maximum_chunk_bytes u in
  if is_empty data || (maximum <? len data) || (SPAWNER_CHUNK_BYTES_MAX <? len data)
  then (u, Err (SpProtocol (lit "upload chunk of " ++ dec_str (len data) ++
                            lit " bytes is outside 1..=" ++ dec_str maximum)))
  else match ru_sock u with
       | None => (u, Err (SpProtocol (lit "upload is already closed")))
       | Some sock =>
           let '(sock, r) := send_message sock (UdChunk (ru_upload_id u) (ru_next_offset u) data) None in
           let u := set_upload u (Some sock) (ru_next_offset u) in
           match r with
           | Err e => (u, Err e)
           | Ok _ =>
               match checked_add64 (ru_next_offset u) (len data) with
               | None => (u, Err (SpProtocol (lit "upload offset overflow")))
               | Some next => (set_upload u (ru_sock u) next, Ok ())
               end
           end
       end.

Definition write_wire_chunk (u : RemoteUpload) (chunk : UploadChunk) : RemoteUpload * result unit SpawnError :=
  if negb (bool_decide (uc_upload_id chunk = ru_upload_id u))
  then (u, Err (SpProtocol (lit "upload chunk carried the wrong id")))
  else if negb (uc_offset chunk =? ru_next_offset u)
  then (u, Err (SpProtocol (lit "upload chunk offset " ++ dec_str (uc_offset chunk) ++
                            lit " does not match " ++ dec_str (ru_next_offset u))))
  else remote_write_chunk u (uc_data chunk).

(** [finish] takes the upload; the socket is returned as it was when dropped. *)
Definition remote_finish (u : RemoteUpload) : option (option Sock * result UploadReply SpawnError) :=
  match ru_sock u with
  | None => Some (None, Err (SpProtocol (lit "upload is already closed")))
  | Some sock =>
      let '(sock, r) := send_message sock (UdFinish (ru_upload_id u)) None in
      match r with
      | Err e => Some (Some sock, Err e)
      | Ok _ =>
          '(sock, r) ← recv_message sock;
          Some (Some sock,
                let? r := r in
                let? (reply, fd) := ok_or r (SpProtocol (lit "spawner closed before commit reply")) in
                if bool_decide (is_Some fd)
                then Err (SpProtocol (lit "upload commit unexpectedly carried a descriptor"))
                else match reply with
                     | UrFinished _ _ _ _ => Ok reply
                     | UrError message true => Err (SpForbidden message)
                     | UrError message false => Err (SpSpawner message)
                     | UrReady _ _ => Err (SpProtocol (lit "spawner sent a second ready response"))
                     end)
      end
  end.

(** [abort] and [drop]. *)
Definition remote_abort (u : RemoteUpload) : option Sock :=
  match ru_sock u with
  | None => None
  | Some sock => let '(sock, _) := send_message sock (UdAbort (ru_upload_id u)) None in Some sock
  end.
End client.

(** ** The helper *)
Record Config := {
  allowed_accounts : list str; upload_root : option str; upload_max_bytes : Z;
  peer_uid : option Z }.

Inductive Refusal := RForbidden (message : str) | RFailed (message : str).

Definition refusal_of_launch (e : LaunchError) : Refusal :=
  match e with
  | LaunchForbidden => RForbidden (lit "account is not available")
  | LaunchInternal m => RFailed m
  end.

(** [waitpid]'s results. *)
Inductive WaitStatus := WExited (code : Z) | WSignaled (sig : Z) | WOther | WError.

(** What the helper's system calls find: the peer's uid, a PTY master, the
    started child, the upload root (absolute, a directory) and random ids. *)
Record HelperEnv := {
  he_peer_uid : result Z str;
  he_openpty : result Fd str;
  he_spawn : str → list str → result Z str;
  he_root : bool * bool;
  he_ids : list (array UPLOAD_ID_BYTES);
}.

Inductive Phase :=
  | Exit (code : Z)
  | Uploading (w : UploadWriter) (ids : AccountIds)
  | ShellRunning (pid : Z) (watching : bool).

(** [h_started]: the commands executed; [h_killed]: the processes sent SIGKILL. *)
Record Helper := {
  h_sock : Sock; h_disk : Disk; h_phase : Phase;
  h_started : list (str * list str); h_killed : list Z }.

Section helper.
Context {E : ErrnoText} {J : SpawnerJson} {HO : HashOps} (H : Host).

Fixpoint parse_loop (args : list str) (c : Config) : result Config str :=
  match args with
  | [] => Ok c
  | arg :: args =>
      if bool_decide (arg = lit "--allow-account") then
        match args with
        | [] => Err (lit "--allow-account needs an account name")
        | name :: args =>
            parse_loop args {| allowed_accounts := allowed_accounts c ++ [name];
              upload_root := upload_root c; upload_max_bytes := upload_max_bytes c;
              peer_uid := peer_uid c |}
        end
      else if bool_decide (arg = lit "--peer-user") then
        match args with
        | [] => Err (lit "--peer-user needs a username")
        | name :: args =>
            match resolve_account_ids H name with
            | Err _ => Err (lit "--peer-user " ++ debug_str H name ++ lit " does not resolve")
            | Ok ids =>
                parse_loop args {| allowed_accounts := allowed_accounts c;
                  upload_root := upload_root c; upload_max_bytes := upload_max_bytes c;
                  peer_uid := Some (uid ids) |}
            end
        end
      else if bool_decide (arg = lit "--peer-uid") then
        match args with
        | [] => Err (lit "--peer-uid needs a uid")
        | raw :: args =>
            match parse_uint u32_max raw with
            | None => Err (lit "bad uid " ++ debug_str H raw)
            | Some u =>
                parse_loop args {| allowed_accounts := allowed_accounts c;
                  upload_root := upload_root c; upload_max_bytes := upload_max_bytes c;
                  peer_uid := Some u |}
            end
        end
      else if bool_decide (arg = lit "--upload-root") then
        match args with
        | [] => Err (lit "--upload-root needs an absolute path")
        | path :: args =>
            parse_loop args {| allowed_accounts := allowed_accounts c; upload_root := Some path;
              upload_max_bytes := upload_max_bytes c; peer_uid := peer_uid c |}
        end
      else if bool_decide (arg = lit "--upload-max-bytes") then
        match args with
        | [] => Err (lit "--upload-max-bytes needs a byte count")
        | raw :: args =>
            match parse_uint u64_max raw with
            | None => Err (lit "bad upload byte limit " ++ debug_str H raw)
            | Some n =>
                if UPLOAD_FILE_BYTES_HARD_MAX <? n
                then Err (lit "upload byte limit exceeds hard maximum " ++
                          dec_str UPLOAD_FILE_BYTES_HARD_MAX)
                else parse_loop args {| allowed_accounts := allowed_accounts c;
                       upload_root := upload_root c; upload_max_bytes := n;
                       peer_uid := peer_uid c |}
            end
        end
      else Err (lit "unknown argument: " ++ arg ++
                lit " (supported: --allow-account <name>, --peer-user <name>, --peer-uid <uid>, --upload-root <path>, --upload-max-bytes <bytes>)")
  end.

Definition parse_args (args : list str) : result Config str :=
  let? c := parse_loop args {| allowed_accounts := []; upload_root := None;
              upload_max_bytes := UPLOAD_FILE_BYTES_DEFAULT; peer_uid := None |} in
  if is_empty (allowed_accounts c) then Err (lit "at least one --allow-account is required")
  else Ok c.

Definition check_peer (cfg : Config) (creds : result Z str) : result unit Refusal :=
  match peer_uid cfg with
  | None => Ok ()
  | Some expected =>
      let? actual := map_err (λ e, RFailed (lit "SO_PEERCRED: " ++ e)) creds in
      if negb (actual =? expected)
      then Err (RForbidden (lit "connection from uid " ++ dec_str actual ++ lit " but only uid " ++
                            dec_str expected ++ lit " may request shells"))
      else Ok ()
  end.

Definition resolve_allowed_account (cfg : Config) (account : str) : result AccountIds Refusal :=
  if negb (existsb (λ allowed, bool_decide (allowed = account)) (allowed_accounts cfg))
  then Err (RForbidden (lit "account " ++ debug_str H account ++
                        lit " is not in this spawner's allowlist"))
  else
    let? ids := map_err refusal_of_launch (resolve_account_ids H account) in
    if uid ids =? 0 then Err (RForbidden (lit "refusing to launch a shell as uid 0")) else Ok ids.

(** The command of [spawn_shell]. *)
Definition launch_command (cfg : Config) (req : SpawnRequest) : option (result (str * list str) Refusal) :=
  match resolve_allowed_account cfg (sr_account req) with
  | Err e => Some (Err e)
  | Ok _ =>
      r ← build_launch H true (from_wire_limits (sr_limits req)) (Some (sr_account req))
            (sr_command req) (sr_args req);
      Some (let? launch := map_err refusal_of_launch r in
            let? prog := ok_or (program launch) (RFailed (lit "launch produced no program")) in
            Ok (prog, args launch))
  end.

(** [spawn_shell]: the command is executed only once the PTY is open. The
    result has what was executed. *)
Definition helper_spawn_shell (cfg : Config) (env : HelperEnv) (req : SpawnRequest)
    : option (list (str * list str) * result (Fd * Z) Refusal) :=
  r ← launch_command cfg req;
  Some match r with
       | Err e => ([], Err e)
       | Ok (prog, argv) =>
           match he_openpty env with
           | Err e => ([], Err (RFailed (lit "openpty: " ++ e)))
           | Ok master =>
               match he_spawn env prog argv with
               | Err e => ([], Err (RFailed (lit "spawn " ++ prog ++ lit ": " ++ e)))
               | Ok pid => ([(prog, argv)], Ok (master, pid))
               end
           end
       end.

Definition exit_with (h : Helper) (s : Sock) (d : Disk) (code : Z) : Helper := {|
  h_sock := s; h_disk := d; h_phase := Exit code; h_started := h_started h;
  h_killed := h_killed h |}.

Definition refuse_and_exit (h : Helper) (s : Sock) (d : Disk) (refusal : Refusal) (upload : bool)
    : Helper :=
  let '(message, forbidden) := match refusal with
                               | RForbidden m => (m, true)
                               | RFailed m => (m, false)
                               end in
  let '(s, _) := if upload then send_message s (UrError message forbidden) None
                 else send_message s (SpawnRefused message forbidden) None in
  exit_with h s d 1.

(** [receive_upload] up to its loop. *)
Definition receive_begin (cfg : Config) (env : HelperEnv) (h : Helper) (s : Sock)
    (q : ReceiveUploadRequest) : option Helper :=
  let refuse d r := Some (refuse_and_exit h s d r true) in
  match resolve_allowed_account cfg (rq_account q) with
  | Err e => refuse (h_disk h) e
  | Ok ids =>
      match upload_root cfg with
      | None => refuse (h_disk h) (RFailed (lit "file uploads are not configured on the spawner"))
      | Some root_ =>
          match store_open {| cfg_root := root_; max_file_bytes := upload_max_bytes cfg |}
                  (fst (he_root env)) (snd (he_root env)) with
          | Err e => refuse (h_disk h) (RFailed (lit "open upload store: " ++ store_error_text e))
          | Ok store =>
              '(d, r) ← begin_with_chunk_limit store (h_disk h)
                          {| bu_original_name := rq_original_name q; bu_total_bytes := rq_total_bytes q;
                             bu_sha256 := rq_sha256 q |}
                          (Z.min (rq_maximum_chunk_bytes q) SPAWNER_CHUNK_BYTES_MAX) (he_ids env);
              match r with
              | Err e => refuse d (RFailed (lit "begin upload: " ++ store_error_text e))
              | Ok w =>
                  let '(s, sent) := send_message s (UrReady (array_bytes (w_upload_id w))
                                      (w_maximum_chunk_bytes w)) None in
                  match sent with
                  | Err e => Some (refuse_and_exit h s (drop_writer d w)
                               (RFailed (lit "send upload ready: " ++ spawn_error_text e)) true)
                  | Ok _ => Some {| h_sock := s; h_disk := d; h_phase := Uploading w ids;
                                    h_started := h_started h; h_killed := h_killed h |}
                  end
              end
          end
      end
  end.

(** One turn of its loop; returning drops the writer. *)
Definition upload_turn (h : Helper) (w : UploadWriter) (ids : AccountIds) : option Helper :=
  '(s, r) ← recv_message (T := UploadDaemonMsg) (h_sock h);
  let d := h_disk h in
  Some match r with
       | Err e => refuse_and_exit h s (drop_writer d w)
                    (RFailed (lit "read upload data: " ++ spawn_error_text e)) true
       | Ok None => exit_with h s (drop_writer d w) 0
       | Ok (Some (_, Some _)) =>
           refuse_and_exit h s (drop_writer d w)
             (RFailed (lit "upload data unexpectedly carried a descriptor")) true
       | Ok (Some (UdChunk chunk_id offset data, None)) =>
           let '(d, w, r) := write_chunk d w {| uc_upload_id := chunk_id; uc_offset := offset;
                                               uc_data := data |} in
           match r with
           | Err e => refuse_and_exit h s (drop_writer d w)
                        (RFailed (lit "write upload: " ++ store_error_text e)) true
           | Ok _ => {| h_sock := s; h_disk := d; h_phase := Uploading w ids;
                        h_started := h_started h; h_killed := h_killed h |}
           end
       | Ok (Some (UdFinish finish_id, None)) =>
           let '(d, r) := finish_as d w finish_id (Some (uid ids, gid ids)) in
           match r with
           | Err e => refuse_and_exit h s d (RFailed (lit "finish upload: " ++ store_error_text e)) true
           | Ok c =>
               let '(s, sent) := send_message s (UrFinished (array_bytes (c_upload_id c))
                                   (path_str (remote_path c)) (bytes_written c)
                                   (array_bytes (c_sha256 c))) None in
               match sent with
               | Err e => refuse_and_exit h s d
                            (RFailed (lit "send upload result: " ++ spawn_error_text e)) true
               | Ok _ => exit_with h s d 0
               end
           end
       | Ok (Some (UdAbort abort_id, None)) =>
           if negb (bool_decide (abort_id = array_bytes (w_upload_id w)))
           then refuse_and_exit h s (drop_writer d w) (RFailed (lit "abort carried the wrong upload id")) true
           else exit_with h s (drop_writer d w) 0
       end.

(** The loop, until it has to wait. *)
Fixpoint upload_loop (n : nat) (h : Helper) : Helper :=
  match n, h_phase h with
  | S n, Uploading w ids =>
      match upload_turn h w ids with
      | Some h => upload_loop n h
      | None => h
      end
  | _, _ => h
  end.

(** ** The shell's life *)

(** [signal_child(SIGKILL)]: [CHILD_PID] is an [i32]. *)
Definition signal_child (h : Helper) (pid : Z) : list Z :=
  if 0 <? as_i32 pid then h_killed h ++ [as_i32 pid] else h_killed h.

(** Whatever the one read brings, the child is killed. *)
Definition watch_for_kill (h : Helper) (pid : Z) : option Helper :=
  '(s, _) ← recv_message (T := DaemonMsg) (h_sock h);
  Some {| h_sock := s; h_disk := h_disk h; h_phase := ShellRunning pid false;
          h_started := h_started h; h_killed := signal_child h pid |}.

Definition exit_message (st : WaitStatus) : SpawnerMsg :=
  match st with
  | WExited code => MsgExited (code =? 0) (wrap32 code)
  | WSignaled sig => MsgExited false (128 + wrap32 sig)
  | WOther | WError => MsgExited false 1
  end.

Definition child_exit (h : Helper) (st : WaitStatus) : Helper :=
  let '(s, _) := send_message (h_sock h) (exit_message st) None in exit_with h s (h_disk h) 0.

(** [main], after the arguments. *)
Definition helper_start (cfg : Config) (env : HelperEnv) (h : Helper) : option Helper :=
  match check_peer cfg (he_peer_uid env) with
  | Err e => Some (refuse_and_exit h (h_sock h) (h_disk h) e false)
  | Ok _ =>
      '(s, r) ← recv_message (T := InitialRequest) (h_sock h);
      let d := h_disk h in
      match r with
      | Err e => Some (refuse_and_exit h s d
                         (RFailed (lit "reading initial request: " ++ spawn_error_text e)) false)
      | Ok None => Some (exit_with h s d 0)
      | Ok (Some (request, Some _)) =>
          Some (refuse_and_exit h s d
                  (RFailed (lit "initial request unexpectedly carried a descriptor"))
                  (match request with ReceiveUpload _ => true | SpawnShell _ => false end))
      | Ok (Some (ReceiveUpload q, None)) => receive_begin cfg env h s q
      | Ok (Some (SpawnShell req, None)) =>
          '(started, outcome) ← helper_spawn_shell cfg env req;
          let h := {| h_sock := s; h_disk := d; h_phase := h_phase h;
                      h_started := h_started h ++ started; h_killed := h_killed h |} in
          Some match outcome with
               | Err e => refuse_and_exit h s d e false
               | Ok (master, pid) =>
                   let '(s, sent) := send_message s (Spawned pid) (Some master) in
                   match sent with
                   | Err _ => {| h_sock := s; h_disk := d; h_phase := Exit 1;
                                 h_started := h_started h; h_killed := signal_child h pid |}
                   | Ok _ => {| h_sock := s; h_disk := d; h_phase := ShellRunning pid true;
                                h_started := h_started h; h_killed := h_killed h |}
                   end
               end
      end
  end.

Definition helper_main (args : list str) (env : HelperEnv) (h : Helper) : option Helper :=
  match parse_args args with
  | Err _ => Some (exit_with h (h_sock h) (h_disk h) 2)
  | Ok cfg => helper_start cfg env h
  end.
End helper.
