(* ===== verification/SpawnerProps.v ===== *)
(** * What the privileged spawner guarantees

    The helper acts only for its configured peer and an allowed, unprivileged
    account; an upload through it is an upload to the plain store, owned by that
    account; and the daemon's handle on a shell reports one exit. *)
From S2P Require Import Prelude Protocol UploadProto Launch SpawnerWire SessionCore UploadStore Spawner.

(** ** Laws of the encoding

    Values read back; a chunk's bytes take at most four characters each, and
    everything else in it a bounded number; the [Error] variants of the two reply
    types have the same fields, and so the same encoding. *)
Class SpawnerJsonLaws (J : SpawnerJson) := {
  initial_roundtrip :: JsonRoundtrip InitialRequest;
  spawn_reply_roundtrip :: JsonRoundtrip SpawnReply;
  spawner_msg_roundtrip :: JsonRoundtrip SpawnerMsg;
  upload_msg_roundtrip :: JsonRoundtrip UploadDaemonMsg;
  upload_reply_roundtrip :: JsonRoundtrip UploadReply;
  chunk_json id offset data : 0 ≤ offset ≤ u64_max →
    ∃ b, to_vec (UdChunk id offset data) = Ok b ∧ len b ≤ 128 + 4 * (len id + len data);
  error_json message forbidden b : to_vec (SpawnRefused message forbidden) = Ok b →
    from_slice b = Ok (UrError message forbidden) ∧ b ≠ [];
}.

Definition sendable {T} `{Json T} (m : T) : Prop := ∃ b, json_fits m b.

(** ** Authorisation *)
Section authorisation.
Context {E : ErrnoText} {J : SpawnerJson} {HO : HashOps} (H : Host).

Definition authorized_for (cfg : Config) (env : HelperEnv) (account : str) (ids : AccountIds) : Prop :=
  (∀ u, peer_uid cfg = Some u → he_peer_uid env = Ok u) ∧ account ∈ allowed_accounts cfg ∧
  user_from_name H account = Ok (Some ids) ∧ uid ids ≠ 0.

Lemma resolve_allowed_Ok cfg account ids :
  resolve_allowed_account H cfg account = Ok ids →
  account ∈ allowed_accounts cfg ∧ user_from_name H account = Ok (Some ids) ∧ uid ids ≠ 0.
Proof.
  rewrite /resolve_allowed_account /resolve_account_ids.
  destruct (existsb _ _) eqn:Ex; cbn [negb]; [|done].
  apply existsb_exists in Ex as (a & Ha & ->%bool_decide_eq_true).
  destruct (user_from_name H account) as [[i|]|]; cbn [map_err]; [|done..].
  destruct (uid i =? 0) eqn:Eu; [done|]. intros [= ->]. to_prop.
  split_and!; [by apply list_elem_of_In|done|done].
Qed.

Lemma check_peer_Ok cfg creds u :
  check_peer cfg creds = Ok () → peer_uid cfg = Some u → creds = Ok u.
Proof.
  rewrite /check_peer. intros Hc Hu. rewrite Hu in Hc. destruct creds as [a|]; cbn [map_err] in Hc; [|done].
  destruct (a =? u) eqn:Ea; [|done]. to_prop. by subst.
Qed.

Lemma launch_command_total cfg req : is_Some (launch_command H cfg req).
Proof.
  rewrite /launch_command. destruct (resolve_allowed_account _ _ _); [|by eexists].
  destruct (build_launch_total H true (from_wire_limits (sr_limits req)) (Some (sr_account req))
              (sr_command req) (sr_args req)) as [r ->]. by eexists.
Qed.

(** The command line of a shell for [ids], when the helper has another uid. *)
Definition runs_as (ids : AccountIds) (cmd : str * list str) : Prop :=
  ∃ limits rest, cmd = (PRLIMIT, limit_args limits ++ rest) ∧
    (uid ids ≠ geteuid H → ∃ tail, rest =
       [SETPRIV; lit "--reuid"; dec_str (uid ids); lit "--regid"; dec_str (gid ids);
        lit "--init-groups"; lit "--inh-caps"; lit "-all"; lit "--ambient-caps";
        lit "-all"; lit "--reset-env"; lit "--"] ++ tail).

Lemma launch_command_Ok cfg req prog argv :
  sr_account req ≠ [] → launch_command H cfg req = Some (Ok (prog, argv)) →
  ∃ ids, sr_account req ∈ allowed_accounts cfg ∧
    user_from_name H (sr_account req) = Ok (Some ids) ∧ uid ids ≠ 0 ∧ runs_as ids (prog, argv).
Proof.
  intros Hne. rewrite /launch_command.
  destruct (resolve_allowed_account _ _ _) as [ids|] eqn:Er; [|done].
  apply resolve_allowed_Ok in Er as (Hin & Hu & H0).
  destruct (build_launch _ _ _ _ _ _) as [[l|e]|] eqn:Eb; [|done..]. cbn [mbind option_bind map_err].
  destruct (build_launch_account _ _ _ _ _ _ _ Eb Hne Hu) as (rest & Hp & Ha & Hr).
  rewrite Hp Ha. cbn [ok_or]. intros [= <- <-]. exists ids. split_and!; try done.
  exists (from_wire_limits (sr_limits req)), rest. split; [done|]. intros Hd.
  destruct (Hr Hd) as [locale ->]. by eexists.
Qed.

(** Refusing and exiting leave everything but the socket. *)
Lemma refuse_and_exit_spec h s d r upload :
  h_disk (refuse_and_exit h s d r upload) = d ∧ h_started (refuse_and_exit h s d r upload) = h_started h ∧
  h_phase (refuse_and_exit h s d r upload) = Exit 1.
Proof. rewrite /refuse_and_exit. destruct r, upload; destruct (send_message _ _ _); done. Qed.

(** The helper did nothing but answer. *)
Definition inert (h h' : Helper) : Prop :=
  h_started h' = h_started h ∧ h_disk h' = h_disk h ∧ ∃ code, h_phase h' = Exit code.

Lemma refuse_inert h s r upload : inert h (refuse_and_exit h s (h_disk h) r upload).
Proof. destruct (refuse_and_exit_spec h s (h_disk h) r upload) as (? & ? & ?). by split_and!; [..|eexists]. Qed.

(** What [receive_begin] may change. *)
Lemma receive_begin_spec cfg env h s q h' :
  receive_begin H cfg env h s q = Some h' →
  inert h h' ∨
  ∃ ids, resolve_allowed_account H cfg (rq_account q) = Ok ids ∧ h_started h' = h_started h ∧
    ((∃ w, h_phase h' = Uploading w ids) ∨ h_phase h' = Exit 1).
Proof.
  rewrite /receive_begin. destruct (resolve_allowed_account _ _ _) as [ids|e] eqn:Er.
  2: { intros [= <-]. left. apply refuse_inert. }
  destruct (upload_root cfg) as [rt|]; [|intros [= <-]; left; apply refuse_inert].
  destruct (store_open _ _ _) as [st|]; [|intros [= <-]; left; apply refuse_inert].
  destruct (begin_with_chunk_limit _ _ _ _ _) as [[d [w|e]]|]; [..|done]; cbn [mbind option_bind].
  - destruct (send_message s _ None) as [s' [[]|e]]; intros [= <-]; right; exists ids.
    + split_and!; [done|done|]. left. by exists w.
    + destruct (refuse_and_exit_spec h s' (drop_writer d w)
        (RFailed (lit "send upload ready: " ++ spawn_error_text e)) true) as (_ & ? & ?).
      split_and!; [done|done|]. by right.
  - intros [= <-]. right. exists ids.
    destruct (refuse_and_exit_spec h s d (RFailed (lit "begin upload: " ++ store_error_text e)) true)
      as (_ & ? & ?).
    split_and!; [done|done|]. by right.
Qed.

(** C5: whatever arguments the helper was started with and whatever the daemon
    sends, it executes at most one command and touches the disk only when the
    peer has the configured uid and names an account of the allowlist that
    resolves to a uid other than 0. The command then runs under [prlimit] and
    [setpriv] with exactly that account's ids (unless the helper itself has
    them), and an upload is owned by exactly that account. Otherwise nothing is
    executed and the disk is as it was. *)
Theorem spawner_authorized args env h h' :
  (∀ ids, user_from_name H [] ≠ Ok (Some ids)) →
  helper_main H args env h = Some h' →
  inert h h' ∨
  ∃ cfg account ids, parse_args H args = Ok cfg ∧ authorized_for cfg env account ids ∧
    ((∃ cmd, h_started h' = h_started h ++ [cmd] ∧ runs_as ids cmd ∧ h_disk h' = h_disk h) ∨
     (h_started h' = h_started h ∧ ((∃ w, h_phase h' = Uploading w ids) ∨ h_phase h' = Exit 1))).
Proof.
  intros Hne. rewrite /helper_main. destruct (parse_args H args) as [cfg|] eqn:Ep.
  2: { intros [= <-]. left. by split_and!; [..|eexists]. }
  rewrite /helper_start. destruct (check_peer _ _) as [[]|e] eqn:Ec.
  2: { intros [= <-]. left. apply refuse_inert. }
  have Hpeer := check_peer_Ok _ _ _ Ec.
  destruct (recv_message (h_sock h)) as [[s [[[rq fd]|]|e]]|]; [..|done]; cbn [mbind option_bind].
  2: { intros [= <-]. left. by split_and!; [..|eexists]. }
  2: { intros [= <-]. left. apply refuse_inert. }
  destruct fd as [fd|]; [destruct rq; intros [= <-]; left; apply refuse_inert|].
  destruct rq as [req|q].
  - rewrite /helper_spawn_shell. destruct (launch_command_total cfg req) as [lc El]. rewrite El.
    cbn [mbind option_bind].
    set (h1 := {| h_sock := s; h_disk := h_disk h; h_phase := h_phase h;
                  h_started := h_started h ++ []; h_killed := h_killed h |}).
    have Hin r : inert h (refuse_and_exit h1 s (h_disk h) r false).
    { destruct (refuse_and_exit_spec h1 s (h_disk h) r false) as (? & Hs & ?). rewrite /= app_nil_r in Hs.
      by split_and!; [..|eexists]. }
    destruct lc as [[prog argv]|e]; [|intros [= <-]; left; apply Hin].
    destruct (he_openpty env) as [master|e]; [|intros [= <-]; left; apply Hin].
    destruct (he_spawn env prog argv) as [pid|e]; [|intros [= <-]; left; apply Hin].
    have Ha : sr_account req ≠ [].
    { intros Ha. rewrite /launch_command in El.
      destruct (resolve_allowed_account H cfg (sr_account req)) as [ids|] eqn:Er; [|done].
      apply resolve_allowed_Ok in Er as (_ & Hu & _). rewrite Ha in Hu. by eapply Hne. }
    destruct (launch_command_Ok _ _ _ _ Ha El) as (ids & Hal & Hu & H0 & Hr).
    intros Hh. right. exists cfg, (sr_account req), ids. split_and!; [done|by split_and!|]. left.
    exists (prog, argv). destruct (send_message s (Spawned pid) (Some master)) as [s' [[]|e]];
      injection Hh as <-; by split_and!.
  - intros [Hi|(ids & Hr & Hs & Hp)]%receive_begin_spec; [by left|]. right.
    apply resolve_allowed_Ok in Hr as (Hal & Hu & H0).
    exists cfg, (rq_account q), ids. split_and!; [done|by split_and!|]. right. by split.
Qed.
End authorisation.

(** ** Uploads through the helper *)
Section uploads.
Context {E : ErrnoText} {J : SpawnerJson} {JL : SpawnerJsonLaws J} {HO : HashOps}.

(** The daemon's writes, in order, until one fails. *)
Fixpoint client_writes (u : RemoteUpload) (cs : list UploadChunk) : RemoteUpload * result unit SpawnError :=
  match cs with
  | [] => (u, Ok ())
  | c :: cs =>
      let '(u, r) := write_wire_chunk u c in
      match r with Err e => (u, Err e) | Ok _ => client_writes u cs end
  end.

Definition chunk_msg (c : UploadChunk) : UploadDaemonMsg := UdChunk (uc_upload_id c) (uc_offset c) (uc_data c).

(** The packet of a message. *)
Definition carries {T} `{Json T} (m : T) (p : Packet) : Prop := ∃ b, json_fits m b ∧ p = packet_of b None.

(** A connection that works: the peer is there and no send fails. *)
Definition healthy (s : Sock) : Prop := peer_open s = true ∧ send_errors s = [].

Lemma send_healthy {T} `{Json T} s (m : T) :
  healthy s → sendable m →
  ∃ p, carries m p ∧
    send_message s m None = ({| inbox := inbox s; peer_open := true; outbox := outbox s ++ [p];
                                send_errors := [] |}, Ok ()).
Proof.
  intros [Ho He] [b Hb]. exists (packet_of b None). split; [by exists b|]. by apply send_message_open.
Qed.

Lemma recv_carried {T} `{Json T, !JsonRoundtrip T} s (m : T) p rest :
  carries m p → inbox s = Ok p :: rest →
  recv_message s = Some ({| inbox := rest; peer_open := peer_open s; outbox := outbox s;
                            send_errors := send_errors s |}, Ok (Some (m, None))).
Proof. intros (b & Hb & ->) Hi. by eapply recv_message_packet. Qed.

(** Eight kibibytes of data always fit one message. *)
Lemma chunk_sendable id offset data :
  0 ≤ offset ≤ u64_max → len id ≤ 16 → len data ≤ SPAWNER_CHUNK_BYTES_MAX →
  sendable (UdChunk id offset data).
Proof.
  intros Ho Hi Hd. destruct (chunk_json id offset data Ho) as (b & Hb & Hl). exists b. split; [done|].
  rewrite /SPAWNER_CHUNK_BYTES_MAX in Hd. rewrite /MAX_MESSAGE_BYTES. lia.
Qed.

(** An upload whose socket works, at an offset that is a [u64]. *)
Definition upload_ready (u : RemoteUpload) (s : Sock) : Prop :=
  ru_sock u = Some s ∧ healthy s ∧ len (ru_upload_id u) ≤ 16 ∧ 0 ≤ ru_next_offset u ≤ u64_max.

Lemma write_wire_chunk_Ok u s c u' :
  upload_ready u s → write_wire_chunk u c = (u', Ok ()) →
  ∃ s' p, upload_ready u' s' ∧ ru_upload_id u' = ru_upload_id u ∧ inbox s' = inbox s ∧
    carries (chunk_msg c) p ∧ outbox s' = outbox s ++ [p].
Proof.
  intros (Hs & Hh & Hid & Hoff). rewrite /write_wire_chunk. case_bool_decide as Hi; cbn [negb]; [|done].
  destruct (uc_offset c =? ru_next_offset u) eqn:Eo; cbn [negb]; [|done]. to_prop.
  rewrite /remote_write_chunk. destruct (_ || _) eqn:El; [done|]. to_prop. rewrite Hs.
  destruct (send_healthy s (UdChunk (ru_upload_id u) (ru_next_offset u) (uc_data c)) Hh) as (p & Hp & Hsend);
    [by apply chunk_sendable|].
  rewrite Hsend. cbn [set_upload ru_sock ru_next_offset].
  destruct (checked_add64 _ _) as [next|] eqn:En; [|done]. intros [= <-].
  rewrite /checked_add64 in En. case_match eqn:E2; [|done]. injection En as <-. to_prop.
  pose proof (len_nonneg (uc_data c)).
  exists {| inbox := inbox s; peer_open := true; outbox := outbox s ++ [p]; send_errors := [] |}, p.
  split_and!; [|done|done|by rewrite /chunk_msg Hi Eo|done].
  split_and!; try done; simpl; lia.
Qed.

Lemma client_writes_Ok cs u s u' :
  upload_ready u s → client_writes u cs = (u', Ok ()) →
  ∃ s' ps, upload_ready u' s' ∧ ru_upload_id u' = ru_upload_id u ∧ inbox s' = inbox s ∧
    Forall2 (λ c, carries (chunk_msg c)) cs ps ∧ outbox s' = outbox s ++ ps.
Proof.
  revert u s. induction cs as [|c cs IH]; intros u s Hu; cbn [client_writes].
  { intros [= <-]. exists s, []. rewrite app_nil_r. by split_and!; [..|constructor|]. }
  destruct (write_wire_chunk u c) as [u1 [[]|e]] eqn:Ew; [|done].
  destruct (write_wire_chunk_Ok _ _ _ _ Hu Ew) as (s1 & p & H1 & Hid & Hi & Hp & Ho).
  intros (s2 & ps & H2 & Hid2 & Hi2 & Hps & Ho2)%(IH _ _ H1).
  exists s2, (p :: ps). rewrite Hid2 Hi2 Ho2 Ho -app_assoc. by split_and!; [..|constructor|].
Qed.

(** Packets arriving at the helper, and the daemon's end closing. *)
Definition deliver (h : Helper) (ps : list Packet) (open : bool) : Helper := {|
  h_sock := {| inbox := inbox (h_sock h) ++ map Ok ps; peer_open := open;
               outbox := outbox (h_sock h); send_errors := send_errors (h_sock h) |};
  h_disk := h_disk h; h_phase := h_phase h; h_started := h_started h; h_killed := h_killed h |}.

(** The same sending end. *)
Definition same_out (s s' : Sock) : Prop :=
  outbox s' = outbox s ∧ peer_open s' = peer_open s ∧ send_errors s' = send_errors s.

Lemma upload_loop_exited n h code : h_phase h = Exit code → upload_loop n h = h.
Proof. destruct n; [done|]. simpl. by intros ->. Qed.

Lemma refuse_exited n h s d r : upload_loop n (refuse_and_exit h s d r true) = refuse_and_exit h s d r true.
Proof. by eapply upload_loop_exited, refuse_and_exit_spec. Qed.

(** The helper's loop over chunk messages is the store's over the chunks. *)
Lemma upload_loop_chunks cs ps rest h w ids n d w' r :
  Forall2 (λ c, carries (chunk_msg c)) cs ps → inbox (h_sock h) = map Ok ps ++ rest →
  h_phase h = Uploading w ids → write_chunks (h_disk h) w cs = (d, w', r) →
  ∃ s', same_out (h_sock h) s' ∧
    match r with
    | Ok _ => inbox s' = rest ∧
        upload_loop (length cs + n) h =
        upload_loop n {| h_sock := s'; h_disk := d; h_phase := Uploading w' ids;
                         h_started := h_started h; h_killed := h_killed h |}
    | Err e => upload_loop (length cs + n) h =
        refuse_and_exit h s' (drop_writer d w') (RFailed (lit "write upload: " ++ store_error_text e)) true
    end.
Proof.
  intros Hps. revert h w. induction Hps as [|c p cs ps Hp _ IH]; intros h w Hi Hph Hw; cbn [write_chunks] in Hw.
  { injection Hw as <- <- <-. exists (h_sock h). split; [done|]. split; [done|].
    destruct h; simpl in *; by subst. }
  destruct (write_chunk (h_disk h) w c) as [[d1 w1] r1] eqn:E1. cbn [length Nat.add upload_loop].
  rewrite Hph /upload_turn (recv_carried _ _ _ _ Hp Hi). cbn [mbind option_bind chunk_msg].
  rewrite (_ : {| uc_upload_id := _; uc_offset := _; uc_data := _ |} = c); [|by destruct c]. rewrite E1.
  destruct r1 as [[]|e].
  - destruct (IH {| h_sock := {| inbox := map Ok ps ++ rest; peer_open := peer_open (h_sock h);
        outbox := outbox (h_sock h); send_errors := send_errors (h_sock h) |}; h_disk := d1;
        h_phase := Uploading w1 ids; h_started := h_started h; h_killed := h_killed h |} w1 eq_refl eq_refl Hw)
      as (s' & Hs & Hr). exists s'. split; [done|]. destruct r; exact Hr.
  - injection Hw as <- <- <-. eexists. split; [|apply refuse_exited]. done.
Qed.

(** ** The specification: the plain store *)
Definition store_outcome (d : Disk) (w : UploadWriter) (cs : list UploadChunk) (ids : AccountIds)
    : Disk * UploadReply :=
  let '(d, w, r) := write_chunks d w cs in
  match r with
  | Err e => (drop_writer d w, UrError (lit "write upload: " ++ store_error_text e) false)
  | Ok _ =>
      let '(d, r) := finish_as d w (array_bytes (w_upload_id w)) (Some (uid ids, gid ids)) in
      (d, match r with
          | Err e => UrError (lit "finish upload: " ++ store_error_text e) false
          | Ok c => UrFinished (array_bytes (c_upload_id c)) (path_str (remote_path c)) (bytes_written c)
                      (array_bytes (c_sha256 c))
          end)
  end.

(** What the daemon makes of the reply. *)
Definition reply_result (r : UploadReply) : result UploadReply SpawnError :=
  match r with UrError m _ => Err (SpSpawner m) | r => Ok r end.

Lemma refuse_sends h s d m :
  healthy s → sendable (UrError m false) →
  ∃ p, carries (UrError m false) p ∧
    outbox (h_sock (refuse_and_exit h s d (RFailed m) true)) = outbox s ++ [p].
Proof.
  intros Hh Hm. destruct (send_healthy s _ Hh Hm) as (p & Hp & Hs). exists p. split; [done|].
  rewrite /refuse_and_exit Hs //.
Qed.

Lemma same_out_healthy s s' : same_out s s' → healthy s → healthy s'.
Proof. intros (_ & Ho & He) [??]. split; congruence. Qed.

Lemma write_chunks_id cs d w d' w' r :
  write_chunks d w cs = (d', w', r) → w_upload_id w' = w_upload_id w.
Proof.
  revert d w. induction cs as [|c cs IH]; intros d w; cbn [write_chunks]; [by intros [= _ <- _]|].
  destruct (write_chunk d w c) as [[d1 w1] r1] eqn:E1.
  have H1 : w_upload_id w1 = w_upload_id w.
  { rewrite /write_chunk in E1. destruct (validate_chunk _ _ _ _ _); [|by injection E1 as _ <- _].
    destruct (UploadStore.write_all _ _ _) as [? [[]|]]; by injection E1 as _ <- _. }
  destruct r1 as [[]|e]; [|by intros [= _ <- _]]. intros ->%IH. done.
Qed.

(** The helper after the chunks and the finish. *)
Lemma upload_loop_finish cs ps pf h w ids d reply :
  Forall2 (λ c, carries (chunk_msg c)) cs ps → carries (UdFinish (array_bytes (w_upload_id w))) pf →
  inbox (h_sock h) = map Ok (ps ++ [pf]) → h_phase h = Uploading w ids → healthy (h_sock h) →
  store_outcome (h_disk h) w cs ids = (d, reply) → sendable reply →
  let h' := upload_loop (length (ps ++ [pf])) h in
  h_disk h' = d ∧ (∃ code, h_phase h' = Exit code) ∧
  ∃ p, carries reply p ∧ outbox (h_sock h') = outbox (h_sock h) ++ [p].
Proof.
  intros Hps Hpf Hi Hph Hh Hso Hre h'. subst h'.
  rewrite map_app in Hi. rewrite length_app -(Forall2_length _ _ _ Hps).
  rewrite /store_outcome in Hso. destruct (write_chunks (h_disk h) w cs) as [[d2 w2] r] eqn:Ew.
  destruct (upload_loop_chunks cs ps _ h w ids (length [pf]) _ _ _ Hps Hi Hph Ew) as (s' & Hso' & Hr).
  pose proof (same_out_healthy _ _ Hso' Hh) as Hh'. destruct Hso' as (Hout & _ & _).
  destruct r as [[]|e].
  2: { rewrite Hr. injection Hso as <- <-.
       destruct (refuse_and_exit_spec h s' (drop_writer d2 w2)
                   (RFailed (lit "write upload: " ++ store_error_text e)) true) as (-> & _ & Hx).
       split_and!; [done|by eexists|]. rewrite -Hout. by apply refuse_sends. }
  destruct Hr as [Hin ->]. have Hid : w_upload_id w2 = w_upload_id w.
  { by apply write_chunks_id in Ew. }
  rewrite Hid in Hso. cbn [length upload_loop h_phase]. rewrite /upload_turn. cbn [h_sock h_disk].
  rewrite (recv_carried s' _ pf [] Hpf Hin). cbn [mbind option_bind h_disk].
  destruct (finish_as d2 w2 _ _) as [d3 [c|e]]; injection Hso as <- <-.
  - edestruct (send_healthy {| inbox := []; peer_open := peer_open s'; outbox := outbox s';
                 send_errors := send_errors s' |}) as (p & Hp & ->); [done|exact Hre|].
    cbn [h_disk h_phase h_sock exit_with outbox]. rewrite Hout. split_and!; [done|by eexists|by exists p].
  - cbn [upload_loop]. match goal with |- context [refuse_and_exit ?a ?b _ _ _] => set (h2 := a); set (s2 := b) end.
    destruct (refuse_and_exit_spec h2 s2 d3 (RFailed (lit "finish upload: " ++ store_error_text e)) true)
      as (-> & _ & Hx).
    split_and!; [done|by eexists|]. rewrite -Hout. by apply (refuse_sends h2 s2).
Qed.

(** A daemon that hangs up or aborts after the chunks. *)
Lemma upload_loop_abandon cs ps h w ids last :
  Forall2 (λ c, carries (chunk_msg c)) cs ps → h_phase h = Uploading w ids →
  (last = [] ∧ peer_open (h_sock h) = false ∨
   ∃ p, last = [p] ∧ carries (UdAbort (array_bytes (w_upload_id w))) p) →
  inbox (h_sock h) = map Ok (ps ++ last) →
  let '(d, w', _) := write_chunks (h_disk h) w cs in
  let h' := upload_loop (length cs + 1) h in
  h_disk h' = drop_writer d w' ∧ ∃ code, h_phase h' = Exit code.
Proof.
  intros Hps Hph Hlast Hi. destruct (write_chunks (h_disk h) w cs) as [[d2 w2] r] eqn:Ew.
  rewrite map_app in Hi. cbv zeta.
  destruct (upload_loop_chunks cs ps _ h w ids 1 _ _ _ Hps Hi Hph Ew) as (s' & (_ & Hop & _) & Hr).
  destruct r as [[]|e].
  2: { rewrite Hr. destruct (refuse_and_exit_spec h s' (drop_writer d2 w2)
         (RFailed (lit "write upload: " ++ store_error_text e)) true) as (-> & _ & Hx).
       split; [done|by eexists]. }
  destruct Hr as [Hin ->]. cbn [upload_loop h_phase]. rewrite /upload_turn. cbn [h_sock h_disk].
  destruct Hlast as [[-> Hcl]|(p & -> & Hp)].
  - rewrite /recv_message /recv_raw Hin Hop Hcl. simpl. split; [done|by eexists].
  - rewrite (recv_carried s' _ p [] Hp Hin). cbn [mbind option_bind].
    rewrite (write_chunks_id _ _ _ _ _ _ Ew) bool_decide_eq_true_2 //. simpl. split; [done|by eexists].
Qed.

(** ** A whole upload *)
Definition fresh_sock (ps : list Packet) : Sock :=
  {| inbox := map Ok ps; peer_open := true; outbox := []; send_errors := [] |}.

Definition upload_metadata (q : ReceiveUploadRequest) : BeginUpload := {|
  bu_original_name := rq_original_name q; bu_total_bytes := rq_total_bytes q; bu_sha256 := rq_sha256 q |}.

(** The helper's configuration lets it receive [q] as [ids], and its store
    begins it with the writer [w]. *)
Record accepts (H : Host) (cfg : Config) (env : HelperEnv) (q : ReceiveUploadRequest)
    (d0 d : Disk) (w : UploadWriter) (ids : AccountIds) : Prop := {
  acc_peer : check_peer cfg (he_peer_uid env) = Ok ();
  acc_account : resolve_allowed_account H cfg (rq_account q) = Ok ids;
  acc_root : he_root env = (true, true);
  acc_begin : ∃ root_, upload_root cfg = Some root_ ∧
    begin_with_chunk_limit {| cfg_root := root_; max_file_bytes := upload_max_bytes cfg |} d0
      (upload_metadata q) (Z.min (rq_maximum_chunk_bytes q) SPAWNER_CHUNK_BYTES_MAX) (he_ids env) =
    Some (d, Ok w);
}.

(** The small messages fit. *)
Record small_messages (q : ReceiveUploadRequest) (w : UploadWriter) : Prop := {
  small_request : sendable (ReceiveUpload q);
  small_ready : sendable (UrReady (array_bytes (w_upload_id w)) (w_maximum_chunk_bytes w));
  small_finish : sendable (UdFinish (array_bytes (w_upload_id w)));
  small_abort : sendable (UdAbort (array_bytes (w_upload_id w)));
}.

(** The request and its answer. *)
Lemma remote_begin H cfg env h path q d w ids :
  accepts H cfg env q (h_disk h) d w ids → small_messages q w → h_sock h = fresh_sock [] →
  ∃ p1 p2 h1 u s, carries (ReceiveUpload q) p1 ∧
    helper_start H cfg env (deliver h [p1] true) = Some h1 ∧ h_phase h1 = Uploading w ids ∧
    h_disk h1 = d ∧ healthy (h_sock h1) ∧ inbox (h_sock h1) = [] ∧ outbox (h_sock h1) = [p2] ∧
    begin_upload path (Ok (fresh_sock [p2])) q = Some (Ok u) ∧
    upload_ready u s ∧ inbox s = [] ∧ outbox s = [p1] ∧
    ru_upload_id u = array_bytes (w_upload_id w) ∧ ru_maximum_chunk_bytes u = w_maximum_chunk_bytes w.
Proof.
  intros [Hp Ha Hr (rt & Hrt & Hb)] [Hq Hready _ _] Hs.
  destruct (send_healthy (fresh_sock []) (ReceiveUpload q)) as (p1 & Hc1 & _); [done|done|].
  destruct (send_healthy (fresh_sock []) _ ltac:(done) Hready) as (p2 & Hc2 & Hsend2).
  set (s1 := {| inbox := []; peer_open := true; outbox := [p1]; send_errors := [] |}).
  exists p1, p2. eexists _, {| ru_sock := Some s1; ru_upload_id := array_bytes (w_upload_id w);
    ru_maximum_chunk_bytes := w_maximum_chunk_bytes w; ru_next_offset := 0 |}, s1.
  split; [exact Hc1|]. split.
  { rewrite /helper_start Hp. rewrite (recv_carried (h_sock (deliver h [p1] true)) _ p1 [] Hc1);
      [|by rewrite /= Hs]. cbn [mbind option_bind].
    rewrite /receive_begin Ha Hrt Hr. cbn [store_open negb fst snd h_disk deliver].
    rewrite -/(upload_metadata q) Hb. cbn [mbind option_bind]. rewrite /= Hs /=.
    rewrite /fresh_sock /= in Hsend2. rewrite Hsend2. done. }
  split_and!; [done|done|done|done|done| |..].
  - rewrite /begin_upload. cbn [connect_spawner map_err].
    destruct Hc1 as (b1 & Hb1 & ->). rewrite (send_message_open _ _ b1); [|done..].
    rewrite (recv_carried _ _ p2 [] Hc2); [|done]. cbn [mbind option_bind ok_or].
    rewrite bool_decide_eq_false_2; [|by intros []]. done.
  - rewrite /upload_ready /len /= array_bytes_length. by split_and!.
  - done.
  - done.
  - done.
  - done.
Qed.

(** The helper's packet reaches the daemon. *)
Definition upload_gets (u : RemoteUpload) (p : Packet) : RemoteUpload :=
  set_upload u ((λ s, {| inbox := inbox s ++ [Ok p]; peer_open := peer_open s; outbox := outbox s;
                         send_errors := send_errors s |}) <$> ru_sock u) (ru_next_offset u).

Lemma remote_finish_reply u s p reply m :
  upload_ready u s → inbox s = [] → sendable (UdFinish (ru_upload_id u)) → carries reply p →
  reply = UrError m false ∨ (∃ i r b h, reply = UrFinished i r b h) →
  ∃ pf s', carries (UdFinish (ru_upload_id u)) pf ∧
    remote_finish (upload_gets u p) = Some (Some s', reply_result reply) ∧ outbox s' = outbox s ++ [pf].
Proof.
  intros (Hs & Hh & _ & _) Hi Hf Hp Hr.
  set (s0 := {| inbox := inbox s ++ [Ok p]; peer_open := peer_open s; outbox := outbox s;
                send_errors := send_errors s |}).
  destruct (send_healthy s0 (UdFinish (ru_upload_id u)) Hh Hf) as (pf & Hpf & Hsend).
  eexists pf, _. split; [done|]. rewrite /remote_finish /upload_gets Hs. cbn [fmap option_fmap option_map set_upload ru_sock ru_upload_id].
  rewrite -/s0 Hsend. rewrite (recv_carried _ reply p []); [|done|by rewrite /= Hi].
  cbn [mbind option_bind ok_or]. rewrite bool_decide_eq_false_2; [|by intros []].
  destruct Hr as [->|(i & r & b & hs & ->)]; by split.
Qed.

Lemma store_outcome_shape d w cs ids d' reply :
  store_outcome d w cs ids = (d', reply) →
  ∃ m, reply = UrError m false ∨ (∃ i r b h, reply = UrFinished i r b h).
Proof.
  rewrite /store_outcome. destruct (write_chunks d w cs) as [[d1 w1] [[]|e]].
  - destruct (finish_as _ _ _ _) as [d2 [c|e]]; intros [= _ <-]; [exists []|eexists]; naive_solver.
  - intros [= _ <-]. eexists. by left.
Qed.

(** An upload through the spawner is an upload to the plain store, made by
    the helper for the account the spawner allows. The daemon gets the store's id
    and chunk limit, at most 8 KiB. When its writes were accepted locally and it
    finishes, the helper's disk is the one the store leaves after the same chunks
    and [finish_as] with that account's ids, and the daemon's result is the
    store's: committed, or the error. When it aborts instead, the disk is the
    store's with the writer dropped. No chunk is ever too large for a message. *)
Theorem remote_upload_refines H cfg env h path q d w ids :
  accepts H cfg env q (h_disk h) d w ids → small_messages q w → h_sock h = fresh_sock [] →
  ∃ p1 p2 h1 u, carries (ReceiveUpload q) p1 ∧
    helper_start H cfg env (deliver h [p1] true) = Some h1 ∧ outbox (h_sock h1) = [p2] ∧
    begin_upload path (Ok (fresh_sock [p2])) q = Some (Ok u) ∧
    ru_upload_id u = array_bytes (w_upload_id w) ∧ ru_maximum_chunk_bytes u = w_maximum_chunk_bytes w ∧
    ∀ cs u', client_writes u cs = (u', Ok ()) →
      (let '(d', reply) := store_outcome d w cs ids in
       sendable reply →
       ∃ p3 s', remote_finish (upload_gets u' p3) = Some (Some s', reply_result reply) ∧
         let h2 := upload_loop (length (tail (outbox s'))) (deliver h1 (tail (outbox s')) true) in
         h_disk h2 = d' ∧ outbox (h_sock h2) = [p2; p3]) ∧
      (let '(d', w', _) := write_chunks d w cs in
       ∃ s', remote_abort u' = Some s' ∧
         h_disk (upload_loop (length (tail (outbox s'))) (deliver h1 (tail (outbox s')) true)) =
         drop_writer d' w').
Proof.
  intros Hacc Hsm Hs.
  destruct (remote_begin H cfg env h path q d w ids Hacc Hsm Hs)
    as (p1 & p2 & h1 & u & s & Hc1 & Hst & Hph & Hd & Hh & Hin & Hout & Hbeg & Hu & Hi & Ho & Hid & Hmx).
  destruct Hsm as [_ _ Hfin Hab].
  exists p1, p2, h1, u. split_and!; try done. intros cs u' Hcw.
  destruct (client_writes_Ok _ _ _ _ Hu Hcw) as (s1 & ps & Hu1 & Hid1 & Hi1 & Hps & Ho1).
  have Hdel l : let h := deliver h1 (ps ++ l) true in
    inbox (h_sock h) = map Ok (ps ++ l) ∧ h_phase h = Uploading w ids ∧ healthy (h_sock h) ∧
    h_disk h = d ∧ outbox (h_sock h) = [p2].
  { simpl. rewrite Hin Hph Hd Hout. split_and!; try done. split; [done|apply Hh]. }
  split.
  - destruct (store_outcome d w cs ids) as [d' reply] eqn:Eo. intros Hre.
    destruct (store_outcome_shape _ _ _ _ _ _ Eo) as [m Hsh].
    destruct (send_healthy (fresh_sock []) (UdFinish (array_bytes (w_upload_id w))) ltac:(done) Hfin) as (pf0 & Hpf0 & _).
    destruct (Hdel [pf0]) as (D1 & D2 & D3 & D4 & D5). rewrite -D4 in Eo.
    destruct (upload_loop_finish cs ps pf0 _ w ids d' reply Hps Hpf0 D1 D2 D3 Eo Hre)
      as (F1 & _ & p3 & Hp3 & F3).
    destruct (remote_finish_reply u' s1 p3 reply m Hu1) as (pf & s' & Hpf & Hrf & Hos); [congruence| |done|done|].
    { by rewrite Hid1 Hid. }
    exists p3, s'. split; [exact Hrf|]. rewrite Hos Ho1 Ho -app_assoc /=.
    rewrite (_ : pf = pf0); [|]. { rewrite F3 D5. by split. }
    rewrite Hid1 Hid in Hpf. destruct Hpf as (b & [Hb _] & ->), Hpf0 as (b0 & [Hb0 _] & ->). congruence.
  - destruct (send_healthy s1 (UdAbort (array_bytes (w_upload_id w))) ltac:(apply Hu1) Hab) as (pa & Hpa & Hsend).
    destruct (Hdel [pa]) as (D1 & D2 & D3 & D4 & D5).
    pose proof (upload_loop_abandon cs ps _ w ids [pa] Hps D2 (or_intror (ex_intro _ pa (conj eq_refl Hpa))) D1) as Hab'.
    rewrite D4 in Hab'. destruct (write_chunks d w cs) as [[d2 w2] r]. destruct Hab' as [Hab' _].
    rewrite /remote_abort (proj1 Hu1) Hid1 Hid Hsend. eexists. split; [done|].
    cbn [outbox]. rewrite Ho1 Ho -app_assoc /= length_app -(Forall2_length _ _ _ Hps). exact Hab'.
Qed.

(** ** A shell through the helper *)
Definition exit_summary (st : WaitStatus) : ExitSummary :=
  match st with
  | WExited code => {| exit_success := code =? 0; exit_code := wrap32 code |}
  | WSignaled sig => {| exit_success := false; exit_code := 128 + wrap32 sig |}
  | WOther | WError => {| exit_success := false; exit_code := 1 |}
  end.

(** The daemon's end of the connection receives [ps], and is [open] or not. *)
Definition shell_gets (c : RemoteShell) (ps : list Packet) (open : bool) : RemoteShell :=
  with_sock c {| inbox := inbox (rs_sock c) ++ map Ok ps; peer_open := open;
                 outbox := outbox (rs_sock c); send_errors := send_errors (rs_sock c) |}.

(** The exit is known, and nothing changes it. *)
Definition settled (c : RemoteShell) (x : ExitSummary) : Prop :=
  wait c = Some (c, Ok x) ∧ try_wait c = (c, Ok (Some x)) ∧ kill c = (c, Ok ()).

Lemma known_settled c x : rs_exit c = Some x → settled c x.
Proof. intros Hx. rewrite /settled /wait /try_wait /kill Hx. done. Qed.

Lemma nonblocking_carried s (m : SpawnerMsg) p rest :
  carries m p → inbox s = Ok p :: rest →
  recv_message_nonblocking s =
    ({| inbox := rest; peer_open := peer_open s; outbox := outbox s; send_errors := send_errors s |},
     Ok (PeerOpen, Some m)).
Proof.
  intros (b & [Hb Hl] & ->) Hi. destruct (json_roundtrip _ _ Hb) as [Hr Hn].
  rewrite /recv_message_nonblocking /recv_raw Hi. cbn [pk_data pk_fds packet_of].
  rewrite take_ge; last by (rewrite /len in Hl; lia). destruct b as [|c b]; [done|]. cbn [is_empty].
  by rewrite Hr.
Qed.

(** The life of a shell the helper runs. A kill from the daemon, and equally
    the loss of the daemon, makes the helper send SIGKILL to exactly that child.
    When the child ends, the daemon's [wait] and [try_wait] both report its
    status; when the helper vanishes without a word they report exit 255 instead
    of waiting for ever. Whatever was reported first stays the answer of every
    later call, and killing a shell known to have ended does nothing. *)
Theorem remote_shell_lifecycle h pid c :
  h_phase h = ShellRunning pid true → healthy (h_sock h) → inbox (h_sock h) = [] → 0 < pid < 2 ^ 31 →
  rs_exit c = None → inbox (rs_sock c) = [] → healthy (rs_sock c) →
  (∀ b, json_fits Kill b →
     ∃ c' p, kill c = (c', Ok ()) ∧ outbox (rs_sock c') = outbox (rs_sock c) ++ [p] ∧
       ∃ h', watch_for_kill (deliver h [p] true) pid = Some h' ∧ h_killed h' = h_killed h ++ [pid]) ∧
  (∃ h', watch_for_kill (deliver h [] false) pid = Some h' ∧ h_killed h' = h_killed h ++ [pid]) ∧
  (∀ st, sendable (exit_message st) →
     ∃ p c', outbox (h_sock (child_exit h st)) = outbox (h_sock h) ++ [p] ∧
       wait (shell_gets c [p] true) = Some (c', Ok (exit_summary st)) ∧
       try_wait (shell_gets c [p] true) = (c', Ok (Some (exit_summary st))) ∧
       settled c' (exit_summary st)) ∧
  (∃ c', let x := {| exit_success := false; exit_code := 255 |} in
     wait (shell_gets c [] false) = Some (c', Ok x) ∧
     try_wait (shell_gets c [] false) = (c', Ok (Some x)) ∧ settled c' x).
Proof.
  intros Hph Hh Hi Hpid Hx Hci Hch.
  have Hpid' : as_i32 pid = pid.
  { rewrite /as_i32 wrap32_small; [|rewrite /u32_max; lia]. by rewrite (proj2 (Z.ltb_lt _ _)); [|lia]. }
  have Hsig : signal_child h pid = h_killed h ++ [pid].
  { by rewrite /signal_child Hpid' (proj2 (Z.ltb_lt _ _)); [|lia]. }
  split_and!.
  - intros b Hb. rewrite /kill Hx (send_message_open _ _ b); [|done|apply Hch..].
    eexists _, _. split; [done|]. split; [done|].
    rewrite /watch_for_kill /recv_message /recv_raw. cbn [deliver h_sock inbox]. rewrite Hi. simpl.
    eexists. split; [done|]. exact Hsig.
  - rewrite /watch_for_kill /recv_message /recv_raw. cbn [deliver h_sock inbox]. rewrite Hi. simpl.
    eexists. split; [done|]. exact Hsig.
  - intros st Hst. destruct (send_healthy (h_sock h) _ Hh Hst) as (p & Hp & Hsend).
    have Hin : inbox (rs_sock (shell_gets c [p] true)) = Ok p :: [] by rewrite /= Hci.
    exists p, (set_exit c {| inbox := []; peer_open := true; outbox := outbox (rs_sock c);
                             send_errors := send_errors (rs_sock c) |} (exit_summary st)).
    split_and!.
    + by rewrite /child_exit Hsend.
    + rewrite /wait. cbn [shell_gets with_sock rs_exit]. rewrite Hx (recv_carried _ _ _ _ Hp Hin).
      by destruct st.
    + rewrite /try_wait. cbn [shell_gets with_sock rs_exit]. rewrite Hx (nonblocking_carried _ _ _ _ Hp Hin).
      by destruct st.
    + by apply known_settled.
  - exists (fst (lost c {| inbox := []; peer_open := false; outbox := outbox (rs_sock c);
                           send_errors := send_errors (rs_sock c) |})).
    cbv zeta. split_and!.
    + rewrite /wait /recv_message /recv_raw /= Hx Hci. done.
    + rewrite /try_wait /recv_message_nonblocking /recv_raw /= Hx Hci. done.
    + by apply known_settled.
Qed.
End uploads.
