(* ===== verification/SpawnerWitness.v ===== *)
(** * Concrete runs of the spawner

    The prefix code for the six message types satisfies the laws of
    [SpawnerProps]; its properties on runs with it. *)
From S2P Require Import Prelude PrefixCode Protocol UploadProto Launch SpawnerWire SessionCore SessionWitness UploadStore Spawner SpawnerProps.

(** ** The code *)
Definition parts_json {T} (enc : T → Parts) (dec : Parts → option T) : Json T := {|
  to_vec m := Ok (put_parts (enc m));
  from_slice b := match get_parts b ≫= dec with Some m => Ok m | None => Err [] end |}.

Lemma parts_roundtrip {T} enc (dec : Parts → option T) :
  (∀ m, dec (enc m) = Some m) → @JsonRoundtrip T (parts_json enc dec).
Proof.
  intros Ho m b. cbn [to_vec parts_json]. intros [= <-]. split; [|apply put_parts_nonempty].
  simpl. by rewrite get_put_parts /= Ho.
Qed.

Definition initial_parts (m : InitialRequest) : Parts :=
  match m with
  | SpawnShell q =>
      (1, [sr_cols q; sr_rows q; wl_max_processes (sr_limits q); wl_max_open_files (sr_limits q);
           wl_max_core_bytes (sr_limits q)], [bool_decide (is_Some (sr_command q))], [],
       sr_account q :: default [] (sr_command q) :: sr_args q)
  | ReceiveUpload q =>
      (2, [rq_total_bytes q; rq_maximum_chunk_bytes q], [], [rq_sha256 q],
       [rq_account q; rq_original_name q])
  end.
Definition parts_initial (p : Parts) : option InitialRequest :=
  match p with
  | (1, [c; r; mp; mf; mc], [has], [], a :: cmd :: argv) => Some (SpawnShell {|
      sr_account := a; sr_command := if has then Some cmd else None; sr_args := argv;
      sr_cols := c; sr_rows := r;
      sr_limits := {| wl_max_processes := mp; wl_max_open_files := mf; wl_max_core_bytes := mc |} |})
  | (2, [t; mx], [], [sha], [a; n]) => Some (ReceiveUpload {|
      rq_account := a; rq_original_name := n; rq_total_bytes := t; rq_sha256 := sha;
      rq_maximum_chunk_bytes := mx |})
  | _ => None
  end.

Definition spawn_reply_parts (m : SpawnReply) : Parts :=
  match m with
  | Spawned pid => (3, [pid], [], [], [])
  | SpawnRefused t f => (4, [], [f], [], [t])
  end.
Definition parts_spawn_reply (p : Parts) : option SpawnReply :=
  match p with
  | (3, [pid], [], [], []) => Some (Spawned pid)
  | (4, [], [f], [], [t]) => Some (SpawnRefused t f)
  | _ => None
  end.

Definition spawner_msg_parts (m : SpawnerMsg) : Parts :=
  let '(MsgExited s c) := m in (6, [c], [s], [], []).
Definition parts_spawner_msg (p : Parts) : option SpawnerMsg :=
  match p with (6, [c], [s], [], []) => Some (MsgExited s c) | _ => None end.

Definition upload_msg_parts (m : UploadDaemonMsg) : Parts :=
  match m with
  | UdChunk i o d => (1, [o], [], [i; d], [])
  | UdFinish i => (2, [], [], [i], [])
  | UdAbort i => (3, [], [], [i], [])
  end.
Definition parts_upload_msg (p : Parts) : option UploadDaemonMsg :=
  match p with
  | (1, [o], [], [i; d], []) => Some (UdChunk i o d)
  | (2, [], [], [i], []) => Some (UdFinish i)
  | (3, [], [], [i], []) => Some (UdAbort i)
  | _ => None
  end.

Definition upload_reply_parts (m : UploadReply) : Parts :=
  match m with
  | UrReady i mx => (1, [mx], [], [i], [])
  | UrFinished i p n sha => (2, [n], [], [i; sha], [p])
  | UrError t f => (4, [], [f], [], [t])
  end.
Definition parts_upload_reply (p : Parts) : option UploadReply :=
  match p with
  | (1, [mx], [], [i], []) => Some (UrReady i mx)
  | (2, [n], [], [i; sha], [p]) => Some (UrFinished i p n sha)
  | (4, [], [f], [], [t]) => Some (UrError t f)
  | _ => None
  end.

Lemma chunk_parts_len id off data :
  len (put_parts (1, [off], [], [id; data], [])) =
  9 + len (put_Z off) + len (put_bytes id) + len (put_bytes data).
Proof.
  rewrite /put_parts /put_list. cbn [map concat].
  set (o := put_Z off). set (i := put_bytes id). set (d := put_bytes data).
  change (put_Z (len [off])) with (put_Z 1). change (put_Z (len [id; data])) with (put_Z 2).
  set (one := put_Z 1). set (two := put_Z 2). set (nil := put_Z (len [])).
  have H1 : len one = 2 by done. have H2 : len two = 3 by done. have H0 : len nil = 1 by done.
  clearbody o i d one two nil. rewrite !len_app !len_nil. lia.
Qed.

#[local] Instance toy_json : SpawnerJson := {|
  json_initial := parts_json initial_parts parts_initial;
  json_spawn_reply := parts_json spawn_reply_parts parts_spawn_reply;
  json_daemon_msg := parts_json (λ _, (5, [], [], [], [])) (λ _, Some Kill);
  json_spawner_msg := parts_json spawner_msg_parts parts_spawner_msg;
  json_upload_msg := parts_json upload_msg_parts parts_upload_msg;
  json_upload_reply := parts_json upload_reply_parts parts_upload_reply |}.

#[local] Instance toy_json_laws : SpawnerJsonLaws toy_json.
Proof.
  split; try (apply parts_roundtrip).
  - intros [[a [cmd|] argv c r [mp mf mc]]|[]]; done.
  - by intros [].
  - by intros [].
  - by intros [].
  - by intros [].
  - intros id off data Ho. eexists. split; [done|]. cbn [upload_msg_parts].
    rewrite chunk_parts_len.
    pose proof (put_Z_len off 64 ltac:(rewrite /u64_max in Ho; lia)).
    pose proof (put_bytes_len id). pose proof (put_bytes_len data).
    pose proof (len_nonneg id). pose proof (len_nonneg data). lia.
  - intros m f b Hb. have -> : b = put_parts (4, [], [f], [], [m]).
    { move: Hb. cbn [to_vec toy_json json_spawn_reply parts_json spawn_reply_parts]. congruence. }
    split; [|apply put_parts_nonempty].
    cbn [from_slice toy_json json_upload_reply parts_json]. by rewrite get_put_parts.
Qed.
#[local] Instance toy_errno : ErrnoText := λ _, lit "errno".
#[local] Existing Instance toy_hash.

(** ** A host with one account, a helper and its requests *)
Definition al_ids : AccountIds := {| uid := 1000; gid := 1000 |}.
Definition spawner_host : Host := {|
  path_exists _ := true; env_var _ := None;
  user_from_name n := Ok (if bool_decide (n = lit "al") then Some al_ids else None);
  geteuid := 0; debug_str s := s |}.
Definition toy_env : HelperEnv := {|
  he_peer_uid := Ok 7; he_openpty := Ok 5; he_spawn _ _ := Ok 42; he_root := (true, true);
  he_ids := [array_repeat 16 Byte.x03] |}.
Definition helper_args : list str :=
  [lit "--allow-account"; lit "al"; lit "--peer-uid"; lit "7"; lit "--upload-root"; lit "/up"].
Definition empty_disk : Disk := {| root := ∅; faults := [] |}.
Definition helper0 (ps : list Packet) : Helper := {|
  h_sock := fresh_sock ps; h_disk := empty_disk; h_phase := Exit 0; h_started := []; h_killed := [] |}.

Definition shell_request : SpawnRequest := {|
  sr_account := lit "al"; sr_command := None; sr_args := []; sr_cols := 80; sr_rows := 24;
  sr_limits := to_wire_limits limits_default |}.
Definition shell_packet : Packet := packet_of (put_parts (initial_parts (SpawnShell shell_request))) None.

Lemma spawner_authorized_witness :
  ∃ h' cmd, helper_main spawner_host helper_args toy_env (helper0 [shell_packet]) = Some h' ∧
    h_started h' = [cmd] ∧ runs_as spawner_host al_ids cmd.
Proof.
  assert (match helper_main spawner_host helper_args toy_env (helper0 [shell_packet]) with
          | Some h' => match h_started h' with [] => false | _ => true end
          | None => false end = true) as E by (by vm_compute).
  destruct (helper_main spawner_host helper_args toy_env (helper0 [shell_packet])) as [h'|] eqn:Eh;
    [|discriminate E].
  exists h'.
  assert (∀ ids, user_from_name spawner_host [] ≠ Ok (Some ids)) as Hn by (intros ids; discriminate).
  destruct (spawner_authorized spawner_host helper_args toy_env (helper0 [shell_packet]) h' Hn Eh)
    as [(Hs & _)|(cfg & account & ids & _ & (_ & _ & Hu & _) & [(cmd & Hs & Hr & _)|[Hs _]])].
  - rewrite Hs in E. discriminate E.
  - exists cmd. split; [reflexivity|]. split; [exact Hs|].
    simpl in Hu. case_bool_decide; [|discriminate Hu]. injection Hu as <-. exact Hr.
  - rewrite Hs in E. discriminate E.
Defined.

(** An upload of two bytes. *)
Definition upload_request : ReceiveUploadRequest := {|
  rq_account := lit "al"; rq_original_name := lit "notes.txt"; rq_total_bytes := 2;
  rq_sha256 := replicate 32 Byte.x00; rq_maximum_chunk_bytes := 65536 |}.
Definition helper_config : Config := {|
  allowed_accounts := [lit "al"]; upload_root := Some (lit "/up");
  upload_max_bytes := UPLOAD_FILE_BYTES_DEFAULT; peer_uid := Some 7 |}.
Definition begun : option (Disk * result UploadWriter StoreError) :=
  begin_with_chunk_limit {| cfg_root := lit "/up"; max_file_bytes := UPLOAD_FILE_BYTES_DEFAULT |}
    empty_disk (upload_metadata upload_request) (Z.min 65536 SPAWNER_CHUNK_BYTES_MAX) (he_ids toy_env).

Lemma remote_upload_refines_witness :
  ∃ h1 u w, begun = Some (h_disk h1, Ok w) ∧ h_phase h1 = Uploading w al_ids ∧
    ru_upload_id u = replicate 16 Byte.x03 ∧ ru_maximum_chunk_bytes u = 8192.
Proof.
  assert (match begun with
          | Some (_, Ok w) => bool_decide (array_bytes (w_upload_id w) = replicate 16 Byte.x03) &&
                              (w_maximum_chunk_bytes w =? 8192)
          | _ => false end = true) as E by (by vm_compute).
  destruct begun as [[d [w|e]]|] eqn:Eb; [|discriminate E..].
  apply andb_true_iff in E as [E1 E2]. apply bool_decide_eq_true in E1. apply Z.eqb_eq in E2.
  assert (accepts spawner_host helper_config toy_env upload_request empty_disk d w al_ids) as Ha.
  { split; [reflexivity|reflexivity|reflexivity|]. exists (lit "/up"). split; [reflexivity|exact Eb]. }
  assert (small_messages upload_request w) as Hs.
  { split; eexists; (split; [reflexivity|]); rewrite ?E1 ?E2; by vm_compute. }
  destruct (remote_upload_refines spawner_host helper_config toy_env (helper0 []) (lit "/s") upload_request
              d w al_ids Ha Hs eq_refl) as (p1 & p2 & h1 & u & Hc & Hst & _ & _ & Hid & Hmx & _).
  destruct (remote_begin spawner_host helper_config toy_env (helper0 []) (lit "/s") upload_request
              d w al_ids Ha Hs eq_refl) as (q1 & q2 & h2 & _ & _ & _ & _ & Hph & Hd & _).
  exists h2, u, w. rewrite Hd. split_and!; [reflexivity|exact Hph|by rewrite Hid|by rewrite Hmx].
Defined.

(** A shell that is running, and the daemon's handle on it. *)
Definition shell_helper : Helper := {|
  h_sock := fresh_sock []; h_disk := empty_disk; h_phase := ShellRunning 42 true; h_started := [];
  h_killed := [] |}.
Definition shell_handle : RemoteShell := {| rs_sock := fresh_sock []; rs_pid := 42; rs_exit := None |}.

Lemma remote_shell_lifecycle_witness :
  (∃ h', watch_for_kill (deliver shell_helper [] false) 42 = Some h' ∧ h_killed h' = [42]) ∧
  ∃ p c', outbox (h_sock (child_exit shell_helper (WExited 3))) = [p] ∧
    wait (shell_gets shell_handle [p] true) = Some (c', Ok {| exit_success := false; exit_code := 3 |}).
Proof.
  destruct (remote_shell_lifecycle shell_helper 42 shell_handle eq_refl (conj eq_refl eq_refl) eq_refl
              ltac:(lia) eq_refl eq_refl (conj eq_refl eq_refl)) as (_ & Hk & Hx & _).
  split; [exact Hk|].
  destruct (Hx (WExited 3)) as (p & c' & Ho & Hw & _).
  { eexists. split; [reflexivity|]. by vm_compute. }
  exists p, c'. split; [exact Ho|exact Hw].
Defined.
