(* ===== verification/RateLimiter.v ===== *)
(** * Authentication rate limiter

    [crates/daemon/src/auth.rs]: failed attempts per source address, lockout,
    and the pruning that bounds the table. Instants and durations are integers
    of one unit; [duration_since] saturates at zero. Addresses are any
    countable type. *)
From S2P Require Import Prelude.

Record RateLimitPolicy := {
  max_failures : Z;
  window : Z;
  lockout : Z;
  max_tracked : Z;
}.

(** Seconds. *)
Definition rate_policy_default : RateLimitPolicy :=
  {| max_failures := 5; window := 60; lockout := 60; max_tracked := 100000 |}.

Record Bucket := { failures : list Z; locked_until : option Z }.

Definition recent (now window t : Z) : bool := sat_sub now t <? window.

Definition is_dead (b : Bucket) (now window : Z) : bool :=
  let locked := match locked_until b with Some until => now <? until | None => false end in
  negb locked && negb (existsb (recent now window) (failures b)).

(** [iter().max()]. *)
Definition list_max (l : list Z) : option Z :=
  match l with [] => None | x :: l => Some (foldr Z.max x l) end.

Definition expires_at (b : Bucket) (now window : Z) : Z :=
  match locked_until b, (λ t, t + window) <$> list_max (failures b) with
  | Some a, Some b => Z.max a b
  | Some a, None => a
  | None, Some b => b
  | None, None => now
  end.

Section limiter.
Context {Ip : Type} `{Countable Ip}.

Record RateLimiter := {
  rl_policy : RateLimitPolicy;
  rl_map : gmap Ip Bucket;
  last_sweep : option Z;
}.

Definition limiter_new (p : RateLimitPolicy) : RateLimiter :=
  {| rl_policy := p; rl_map := ∅; last_sweep := None |}.

Definition set_map (l : RateLimiter) (m : gmap Ip Bucket) : RateLimiter :=
  {| rl_policy := rl_policy l; rl_map := m; last_sweep := last_sweep l |}.

Definition check (l : RateLimiter) (ip : Ip) (now : Z) : bool * RateLimiter :=
  match rl_map l !! ip with
  | Some bucket =>
      match locked_until bucket with
      | Some until =>
          if now <? until then (false, l)
          else (true, set_map l (<[ip := {| failures := []; locked_until := None |}]> (rl_map l)))
      | None => (true, l)
      end
  | None => (true, l)
  end.

(** The order of [sort_by_key(|(_, exp)| *exp)]. *)
Definition expiry_le (a b : Ip * Z) : Prop := a.2 ≤ b.2.
#[export] Instance expiry_le_dec a b : Decision (expiry_le a b).
Proof. rewrite /expiry_le. apply _. Defined.

Definition sweep (l : RateLimiter) (now : Z) : RateLimiter :=
  let due := match last_sweep l with
             | Some t => window (rl_policy l) <=? sat_sub now t
             | None => true
             end in
  if due || (max_tracked (rl_policy l) <? Z.of_nat (size (rl_map l))) then
    {| rl_policy := rl_policy l;
       rl_map := filter (λ p, is_dead p.2 now (window (rl_policy l)) = false) (rl_map l);
       last_sweep := Some now |}
  else l.

Definition evict (l : RateLimiter) (now : Z) : RateLimiter :=
  if max_tracked (rl_policy l) <? Z.of_nat (size (rl_map l)) then
    let overflow := Z.of_nat (size (rl_map l)) - max_tracked (rl_policy l) in
    let by_expiry :=
      merge_sort expiry_le
        ((λ p, (p.1, expires_at p.2 now (window (rl_policy l)))) <$> map_to_list (rl_map l)) in
    set_map l (foldl (λ m p, delete p.1 m) (rl_map l) (take (Z.to_nat overflow) by_expiry))
  else l.

Definition prune (l : RateLimiter) (now : Z) : RateLimiter := evict (sweep l now) now.

(** The bucket after one more failure. *)
Definition add_failure (p : RateLimitPolicy) (b : Bucket) (now : Z) : Bucket :=
  let fs := filter (λ t, recent now (window p) t = true) (failures b) ++ [now] in
  {| failures := fs;
     locked_until := if max_failures p <=? wrap32 (len fs) then Some (now + lockout p)
                     else locked_until b |}.

Definition record_failure (l : RateLimiter) (ip : Ip) (now : Z) : RateLimiter :=
  let bucket := default {| failures := []; locked_until := None |} (rl_map l !! ip) in
  prune (set_map l (<[ip := add_failure (rl_policy l) bucket now]> (rl_map l))) now.

Definition record_success (l : RateLimiter) (ip : Ip) : RateLimiter :=
  set_map l (delete ip (rl_map l)).

(** ** The table is bounded *)
Lemma size_foldl_delete (ks : list (Ip * Z)) (m : gmap Ip Bucket) :
  NoDup ks.*1 → (∀ k, k ∈ ks.*1 → is_Some (m !! k)) →
  size (foldl (λ m p, delete p.1 m) m ks) = (size m - length ks)%nat.
Proof.
  revert m. induction ks as [|[k t] ks IH]; intros m Hn Hk; simpl; [lia|].
  apply NoDup_cons in Hn as [Hk0 Hn]. destruct (Hk k) as [b Hb]; [set_solver|].
  rewrite IH //.
  - rewrite map_size_delete_Some; [|by eexists]. lia.
  - intros k' Hin. rewrite lookup_delete_ne; [apply Hk; set_solver|]. intros ->. done.
Qed.

Lemma evict_size l now :
  0 ≤ max_tracked (rl_policy l) → Z.of_nat (size (rl_map (evict l now))) ≤ max_tracked (rl_policy l).
Proof.
  intros Hm. rewrite /evict. destruct (_ <? _) eqn:E; [|lia]. simpl.
  set (keyed := (λ p, (p.1, _)) <$> map_to_list (rl_map l)).
  set (sorted := merge_sort expiry_le keyed).
  have Hperm : sorted ≡ₚ keyed by apply merge_sort_Permutation.
  have Hfst : keyed.*1 = (map_to_list (rl_map l)).*1 by rewrite /keyed -list_fmap_compose.
  have Hlen : length sorted = size (rl_map l).
  { by rewrite Hperm /keyed length_fmap length_map_to_list. }
  rewrite size_foldl_delete.
  - rewrite length_take Hlen. lia.
  - eapply sublist_NoDup; [|apply fmap_sublist, sublist_take].
    rewrite Hperm Hfst. apply NoDup_fst_map_to_list.
  - intros k Hk. apply list_elem_of_fmap in Hk as ([k' t] & -> & Hk).
    apply elem_of_take in Hk as (i & Hi & _). apply list_elem_of_lookup_2 in Hi.
    rewrite Hperm in Hi. apply list_elem_of_fmap in Hi as ([k2 b] & [= -> _] & Hi).
    apply elem_of_map_to_list in Hi. by exists b.
Qed.

(** ** Lockout *)
Definition record_all (l : RateLimiter) (ip : Ip) (ts : list Z) : RateLimiter :=
  foldl (λ l t, record_failure l ip t) l ts.

Lemma filter_all {A} (Q : A → Prop) `{∀ x, Decision (Q x)} (l : list A) :
  Forall Q l → filter Q l = l.
Proof. induction 1 as [|x l Hx _ IH]; [done|]. by rewrite filter_cons_True // IH. Qed.

(** One failure of a tracked address, with room in the table. *)
Lemma record_failure_keeps l ip now :
  0 < window (rl_policy l) →
  Z.of_nat (size (<[ip := {| failures := []; locked_until := None |}]> (rl_map l)))
    ≤ max_tracked (rl_policy l) →
  let l' := record_failure l ip now in
  rl_policy l' = rl_policy l ∧
  rl_map l' !! ip = Some (add_failure (rl_policy l)
    (default {| failures := []; locked_until := None |} (rl_map l !! ip)) now) ∧
  Z.of_nat (size (rl_map l')) ≤ max_tracked (rl_policy l).
Proof.
  intros Hw Hsz. cbv zeta. rewrite /record_failure /prune.
  set (b := add_failure _ _ now). set (l1 := set_map l _).
  have Hs1 : Z.of_nat (size (rl_map l1)) ≤ max_tracked (rl_policy l).
  { rewrite /l1 /= map_size_insert. rewrite map_size_insert in Hsz. done. }
  have Hlive : is_dead b now (window (rl_policy l)) = false.
  { rewrite /is_dead /b /= existsb_app /= /recent /sat_sub.
    rewrite (_ : (Z.max 0 (now - now) <? window (rl_policy l)) = true); last lia.
    by rewrite !orb_true_r andb_false_r. }
  assert (rl_policy (sweep l1 now) = rl_policy l ∧ rl_map (sweep l1 now) !! ip = Some b ∧
          Z.of_nat (size (rl_map (sweep l1 now))) ≤ max_tracked (rl_policy l)) as (Hp & Hm & Hs2).
  { rewrite /sweep. destruct (_ || _); simpl; last by rewrite lookup_insert_eq.
    split_and!; [done| |].
    - apply map_lookup_filter_Some. split; [by rewrite lookup_insert_eq|done].
    - etrans; [|exact Hs1]. apply Nat2Z.inj_le. apply map_subseteq_size. apply map_filter_subseteq. }
  rewrite /evict Hp (proj2 (Z.ltb_ge _ _) Hs2). by split_and!.
Qed.

Lemma record_all_spec l ip t0 seen ts b :
  0 < window (rl_policy l) → Z.of_nat (size (rl_map l)) ≤ max_tracked (rl_policy l) →
  Forall (λ t, t0 ≤ t < t0 + window (rl_policy l)) (seen ++ ts) →
  len (seen ++ ts) ≤ u32_max → rl_map l !! ip = Some b → failures b = seen →
  seen ≠ [] →
  locked_until b = (if max_failures (rl_policy l) <=? len seen
                    then (λ t, t + lockout (rl_policy l)) <$> last seen else None) →
  ∃ b', rl_map (record_all l ip ts) !! ip = Some b' ∧
    locked_until b' = (if max_failures (rl_policy l) <=? len (seen ++ ts)
                       then (λ t, t + lockout (rl_policy l)) <$> last (seen ++ ts) else None).
Proof.
  revert l seen b. induction ts as [|t ts IH]; intros l seen b Hw Hsz Hin Hlen Hb Hf Hne Hl; simpl.
  { exists b. by rewrite app_nil_r. }
  destruct (record_failure_keeps l ip t Hw) as (Hp & Hm & Hs).
  { rewrite map_size_insert_Some; [done|by eexists]. }
  rewrite Hb /= in Hm. rewrite (cons_middle t seen ts) app_assoc in Hin Hlen |- *.
  pose proof (proj1 (Forall_app _ _ _) Hin) as [Hin1 _].
  pose proof (proj1 (Forall_app _ _ _) Hin1) as [Hseen Ht].
  apply Forall_cons in Ht as [Ht _].
  have Hfs : failures (add_failure (rl_policy l) b t) = seen ++ [t].
  { rewrite /= Hf filter_all //. eapply Forall_impl; [exact Hseen|].
    intros x Hx. simpl in Hx. rewrite /recent /sat_sub. lia. }
  edestruct (IH (record_failure l ip t) (seen ++ [t])) as (b' & Hb' & Hl');
    rewrite ?Hp; [done|done|done|done|exact Hm|exact Hfs|by destruct seen| |].
  - rewrite len_app in Hlen. pose proof (len_nonneg ts). pose proof (len_nonneg (seen ++ [t])).
    cbn [add_failure locked_until failures] in *. rewrite Hfs wrap32_small; last lia.
    rewrite last_snoc /=. destruct (max_failures (rl_policy l) <=? len (seen ++ [t])) eqn:E; [done|].
    rewrite Hl. rewrite len_app len_cons len_nil in E. by rewrite (proj2 (Z.leb_gt _ _)); last lia.
  - rewrite Hp in Hl'. by exists b'.
Qed.

(** ** Properties *)

(** Recording failures keeps the table within its configured number of
    addresses, whatever came before. *)
Theorem record_failure_bounded l ip now :
  0 ≤ max_tracked (rl_policy l) →
  Z.of_nat (size (rl_map (record_failure l ip now))) ≤ max_tracked (rl_policy l).
Proof.
  intros Hm. rewrite /record_failure /prune. set (l1 := set_map l _).
  have Hp : rl_policy (sweep l1 now) = rl_policy l by rewrite /sweep; destruct (_ || _).
  rewrite -Hp. apply evict_size. by rewrite Hp.
Qed.

(** For an address with no record, failures that all fall within one
    window lock it out exactly when they reach the maximum, until the lockout
    time after the last of them, as long as the table has room. *)
Theorem lockout_exact l ip t0 ts last_t t :
  0 < window (rl_policy l) → 1 ≤ max_failures (rl_policy l) →
  rl_map l !! ip = None → Z.of_nat (size (rl_map l)) < max_tracked (rl_policy l) →
  Forall (λ x, t0 ≤ x < t0 + window (rl_policy l)) ts → len ts ≤ u32_max → last ts = Some last_t →
  fst (check (record_all l ip ts) ip t) =
  negb ((max_failures (rl_policy l) <=? len ts) && (t <? last_t + lockout (rl_policy l))).
Proof.
  intros Hw Hmf Hip Hsz Hin Hlen Hlast. destruct ts as [|t1 ts]; [done|].
  destruct (record_failure_keeps l ip t1 Hw) as (Hp & Hm & Hs).
  { rewrite map_size_insert_None //. lia. }
  rewrite Hip /= in Hm. pose proof (len_nonneg ts). rewrite len_cons in Hlen.
  edestruct (record_all_spec (record_failure l ip t1) ip t0 [t1] ts) as (b & Hb & Hl);
    rewrite ?Hp; [done|done|done|by rewrite len_app len_cons len_nil; lia|exact Hm|done|done| |].
  { cbn [add_failure locked_until failures]. rewrite filter_nil app_nil_l len_cons len_nil.
    rewrite wrap32_small; [done|rewrite /u32_max; lia]. }
  cbn [record_all foldl]. rewrite /check. change (foldl _ _ ts) with (record_all (record_failure l ip t1) ip ts).
  rewrite Hb Hl Hp. cbn [app]. rewrite Hlast.
  destruct (max_failures (rl_policy l) <=? len (t1 :: ts)); [|done]. simpl.
  by destruct (t <? last_t + lockout (rl_policy l)).
Qed.
End limiter.

Lemma record_failure_bounded_witness :
  Z.of_nat (size (rl_map (record_failure (limiter_new rate_policy_default) 7%Z 0))) ≤ 100000.
Proof. exact (record_failure_bounded (limiter_new rate_policy_default) 7%Z 0 ltac:(by vm_compute)). Defined.

Lemma lockout_exact_witness :
  fst (check (record_all (limiter_new rate_policy_default) 7%Z [1; 2; 3; 4; 5]) 7%Z 30) =
  negb ((5 <=? 5) && (30 <? 5 + 60)).
Proof.
  apply (lockout_exact (limiter_new rate_policy_default) 7%Z 1 [1; 2; 3; 4; 5] 5 30);
    try by vm_compute. repeat constructor; by vm_compute.
Defined.
