(* ===== verification/Forward.v ===== *)
(** * TCP forwarding: destinations, permits and the frame gate

    [crates/protocol/src/forward.rs] ([valid_destination]) and the parts of
    [crates/daemon/src/forward.rs] that decide: the per-user and global permit
    counts and [ForwardBinding::message], which accepts at most one frame in
    flight per direction. The task behind a forward is [ForwardTask]. *)
From S2P Require Import Prelude Protocol.

(** ** [str::parse::<IpAddr>]

    The parser of [core::net]: each reader consumes a prefix and returns the
    rest. *)
Definition digit_val (radix c : Z) : option Z :=
  let v := if is_ascii_digit c then Some (c - 0x30)
           else if (0x61 <=? c) && (c <=? 0x66) then Some (c - 0x61 + 10)
           else if (0x41 <=? c) && (c <=? 0x46) then Some (c - 0x41 + 10)
           else None in
  match v with Some n => if n <? radix then Some n else None | None => None end.

Fixpoint read_digits (radix : Z) (s : str) (acc count : Z) : Z * Z * str :=
  match s with
  | c :: s' => match digit_val radix c with
               | Some d => read_digits radix s' (acc * radix + d) (count + 1)
               | None => (acc, count, s)
               end
  | [] => (acc, count, s)
  end.

(** [read_number]: at most [max_digits] digits, a value up to [max], and no
    leading zero unless allowed. *)
Definition read_number (radix max_digits max : Z) (allow_zero_prefix : bool) (s : str)
    : option (Z * str) :=
  let '(v, count, rest) := read_digits radix s 0 0 in
  if count =? 0 then None
  else if (max_digits <? count) || (max <? v) then None
  else if negb allow_zero_prefix && bool_decide (head s = Some 0x30) && (1 <? count) then None
  else Some (v, rest).

Definition read_sep (sep : Z) (index : nat) (s : str) : option str :=
  match index, s with
  | O, _ => Some s
  | _, c :: s => if c =? sep then Some s else None
  | _, [] => None
  end.

Fixpoint read_ipv4_groups (n : nat) (index : nat) (s : str) : option (list Z * str) :=
  match n with
  | O => Some ([], s)
  | S n => s ← read_sep 0x2E index s; '(v, s) ← read_number 10 3 255 false s;
           '(vs, s) ← read_ipv4_groups n (S index) s; Some (v :: vs, s)
  end.
Definition read_ipv4 (s : str) : option (list Z * str) := read_ipv4_groups 4 0 s.

(** The two groups of an IPv4 tail. *)
Definition ipv4_groups (v : list Z) : list Z :=
  match v with [a; b; c; d] => [a * 256 + b; c * 256 + d] | _ => [] end.

(** [read_groups]: the groups, whether the last was an IPv4 tail, the rest. *)
Fixpoint read_groups (n : nat) (index : nat) (s : str) : list Z * bool * str :=
  match n with
  | O => ([], false, s)
  | S n' =>
      match (if (1 <? n)%nat then s ← read_sep 0x3A index s; read_ipv4 s else None) with
      | Some (v, rest) => (ipv4_groups v, true, rest)
      | None =>
          match (s ← read_sep 0x3A index s; read_number 16 4 0xFFFF true s) with
          | Some (v, rest) =>
              let '(vs, ipv4, rest) := read_groups n' (S index) rest in (v :: vs, ipv4, rest)
          | None => ([], false, s)
          end
      end
  end.

Definition read_ipv6 (s : str) : option (list Z * str) :=
  let '(head, ipv4, rest) := read_groups 8 0 s in
  let n := length head in
  if (n =? 8)%nat then Some (head, rest)
  else if ipv4 then None
  else match rest with
       | a :: b :: rest =>
           if (a =? 0x3A) && (b =? 0x3A) then
             let '(tail, _, rest) := read_groups (8 - (n + 1)) 0 rest in
             Some (head ++ repeat 0 (8 - n - length tail) ++ tail, rest)
           else None
       | _ => None
       end.

(** Octets and 16-bit segments. *)
Inductive IpAddress := V4 (octets : list Z) | V6 (segments : list Z).

#[export] Instance ip_address_eq_dec : EqDecision IpAddress.
Proof. solve_decision. Defined.

(** [octets] of an address, and the segments of sixteen octets. *)
Definition u16_be (v : Z) : bytes := [Z_byte (v / 256); Z_byte (v mod 256)].

Definition ip_bytes (ip : IpAddress) : bytes :=
  match ip with V4 octets => map Z_byte octets | V6 segments => concat (map u16_be segments) end.

Fixpoint be_segments (b : bytes) : list Z :=
  match b with x :: y :: rest => byte_Z x * 256 + byte_Z y :: be_segments rest | _ => [] end.

(** What the fixed-size arrays behind an address can hold. *)
Definition ip_wf (ip : IpAddress) : Prop :=
  match ip with
  | V4 octets => length octets = 4%nat ∧ Forall (λ z, 0 ≤ z < 256) octets
  | V6 segments => length segments = 8%nat ∧ Forall (λ z, 0 ≤ z < 65536) segments
  end.

Lemma u16_be_Z v : 0 ≤ v < 65536 →
  byte_Z (Z_byte (v / 256)) * 256 + byte_Z (Z_byte (v mod 256)) = v.
Proof. intros. rewrite !byte_Z_of_Z /wrap8. zlia. Qed.

Lemma be_segments_bytes segments rest :
  Forall (λ z, 0 ≤ z < 65536) segments →
  be_segments (concat (map u16_be segments) ++ rest) = segments ++ be_segments rest.
Proof. induction 1 as [|v vs Hv _ IH]; [done|]. simpl. by rewrite u16_be_Z // IH. Qed.

Lemma be_segments_inv n l :
  length l = (2 * n)%nat → concat (map u16_be (be_segments l)) = l ∧ length (be_segments l) = n ∧
  Forall (λ z, 0 ≤ z < 65536) (be_segments l).
Proof.
  revert l. induction n as [|n IH]; intros [|x [|y l]] Hl; simpl in Hl; try lia; [by split_and!|].
  destruct (IH l) as (E1 & E2 & E3); [lia|]. pose proof (byte_Z_range x). pose proof (byte_Z_range y).
  cbn [be_segments map concat length]. rewrite E1 E2. split_and!; [|done|constructor; [lia|done]].
  rewrite /u16_be /=. f_equal; [|f_equal]; apply (inj byte_Z); rewrite byte_Z_of_Z /wrap8; zlia.
Qed.

Definition parse_ip_addr (s : str) : option IpAddress :=
  match read_ipv4 s with
  | Some (v, []) => Some (V4 v)
  | Some _ => None
  | None => match read_ipv6 s with Some (v, []) => Some (V6 v) | _ => None end
  end.

Definition parse_ip (s : str) : bool := bool_decide (is_Some (parse_ip_addr s)).

(** ** [valid_destination] *)
Definition strip_dot (s : str) : str :=
  match reverse s with c :: r => if c =? 0x2E then reverse r else s | [] => s end.

Definition label_ok (label : str) : bool :=
  negb (is_empty label) && (str_len label <=? 63) &&
  match str_bytes label with
  | b :: _ => is_ascii_alphanumeric (byte_Z b)
  | [] => false
  end &&
  match reverse (str_bytes label) with
  | b :: _ => is_ascii_alphanumeric (byte_Z b)
  | [] => false
  end &&
  forallb (λ b, is_ascii_alphanumeric (byte_Z b) || (byte_Z b =? 0x2D)) (str_bytes label).

Definition valid_destination (host : str) (port : Z) : bool :=
  if is_empty host || (255 <? str_len host) || negb ((1 <=? port) && (port <=? 65535)) then false
  else if parse_ip host then true
  else forallb label_ok (split_char 0x2E (strip_dot host)).

Example destinations_accepted :
  forallb (λ h, valid_destination h 443)
    [lit "localhost"; lit "example.com."; lit "127.0.0.1"; lit "::1"; lit "1::ffff:10.0.0.1"] = true.
Proof. vm_compute. reflexivity. Qed.

Example destinations_refused :
  forallb (λ h, negb (valid_destination h 443))
    [[]; lit "a/b"; lit "user@host"; [0x61; 0; 0x62]; lit "-host"; lit "a..b"; lit "[::1]";
     [0x68; 0xE9; 0x6C]; lit "1:2:3"; lit "::1%eth0"] = true.
Proof. vm_compute. reflexivity. Qed.

(** ** Permits *)
Definition MAX_PER_CONNECTION : Z := 16.

Record ForwardService := { fs_users : gset str; fs_active : gmap str Z }.

(** [new]; [None] is its error. *)
Definition forward_new (users : gset str) : option ForwardService :=
  if (256 <? Z.of_nat (size users)) ||
     existsb (λ u, is_empty u || (128 <? str_len u)) (elements users)
  then None else Some {| fs_users := users; fs_active := ∅ |}.

Definition forward_enabled (f : ForwardService) : bool := negb (bool_decide (fs_users f = ∅)).
Definition forward_permits (f : ForwardService) (user : str) : bool :=
  bool_decide (user ∈ fs_users f).

Definition active_total (f : ForwardService) : Z := map_fold (λ _ n a, n + a) 0 (fs_active f).
Definition active_of (f : ForwardService) (user : str) : Z := default 0 (fs_active f !! user).

Definition forward_acquire (f : ForwardService) (user : str) : option ForwardService :=
  if (128 <=? active_total f) || (32 <=? active_of f user) then None
  else Some {| fs_users := fs_users f;
               fs_active := <[user := active_of f user + 1]> (fs_active f) |}.

(** [Drop] of a permit. *)
Definition forward_release (f : ForwardService) (user : str) : ForwardService :=
  match fs_active f !! user with
  | Some n => {| fs_users := fs_users f;
                 fs_active := if n - 1 =? 0 then delete user (fs_active f)
                              else <[user := n - 1]> (fs_active f) |}
  | None => f
  end.

(** ** The frame gate of one forward

    The two channels hold one message each; the flags are shared with the
    task. [fb_permit]: the user whose permit the task holds while it runs. *)
Record ForwardBinding := {
  fb_input : list (option bytes);
  fb_acks : list unit;
  fb_input_ready : bool;
  fb_ack_expected : bool;
  fb_permit : option str;
}.

Definition forward_spawned (user : str) : ForwardBinding :=
  {| fb_input := []; fb_acks := []; fb_input_ready := false; fb_ack_expected := false;
     fb_permit := Some user |}.

(** [try_send] on a channel of capacity one whose receiver is the task. *)
Definition offer_input (b : ForwardBinding) (x : option bytes) : bool * ForwardBinding :=
  let b' inp := {| fb_input := inp; fb_acks := fb_acks b; fb_input_ready := false;
                   fb_ack_expected := fb_ack_expected b; fb_permit := fb_permit b |} in
  if fb_input_ready b then
    if bool_decide (is_Some (fb_permit b)) && is_empty (fb_input b) then (true, b' [x]) else (false, b' (fb_input b))
  else (false, b' (fb_input b)).

Definition offer_ack (b : ForwardBinding) : bool * ForwardBinding :=
  let b' a := {| fb_input := fb_input b; fb_acks := a; fb_input_ready := fb_input_ready b;
                 fb_ack_expected := false; fb_permit := fb_permit b |} in
  if fb_ack_expected b then
    if bool_decide (is_Some (fb_permit b)) && is_empty (fb_acks b) then (true, b' [tt]) else (false, b' (fb_acks b))
  else (false, b' (fb_acks b)).

Definition forward_message (b : ForwardBinding) (env : Envelope) : bool * ForwardBinding :=
  if negb (env_request_id env =? 0) || negb (is_empty (env_server_id env)) ||
     negb (is_empty (env_shell_id env)) then (false, b)
  else match env_message env with
       | Some (MsgTcpForwardData data) =>
           if negb (is_empty data) && (len data <=? FORWARD_DATA_BYTES_MAX)
           then offer_input b (Some data) else (false, b)
       | Some MsgTcpForwardEof => offer_input b None
       | Some MsgTcpForwardAck => offer_ack b
       | _ => (false, b)
       end.

(** [abort]: the task ends and drops its permit. *)
Definition forward_abort (b : ForwardBinding) : ForwardBinding :=
  {| fb_input := fb_input b; fb_acks := fb_acks b; fb_input_ready := fb_input_ready b;
     fb_ack_expected := fb_ack_expected b; fb_permit := None |}.
