(* ===== verification/ForwardTask.v ===== *)
(** * The task of a TCP forward

    [spawn] of [crates/daemon/src/forward.rs]: connect, report the bound
    address, then copy both ways with one unacknowledged frame per direction.
    The upstream and downstream futures and the connection's frame gate
    ([forward_message]) run concurrently; every [await] is the end of a step. *)
From S2P Require Import Prelude Protocol Forward.

(** [upstream]: waiting for a frame, writing it to the socket (or shutting it
    down, [None]), owing its acknowledgement, finished. *)
Inductive Up := UpIdle | UpWriting (x : option bytes) | UpAck (eof : bool) | UpDone.

(** [downstream]: reading the socket, sending what it read, waiting for the
    acknowledgement, finished. *)
Inductive Down := DnReading | DnSending (x : option bytes) | DnWaiting (eof : bool) | DnDone.

Inductive TaskPhase := TConnecting | TOpening (bound_ip : str) (bound_port : Z) | TRunning | TEnded (failed : bool).

(** [fw_written], [fw_shut] and [fw_read] are the task's dealings with the
    destination's socket. *)
Record Fwd := {
  fw_gate : ForwardBinding;
  fw_phase : TaskPhase;
  fw_up : Up;
  fw_down : Down;
  fw_written : bytes;
  fw_shut : bool;
  fw_read : bytes;
}.

Definition fwd_new (user : str) : Fwd := {|
  fw_gate := forward_spawned user; fw_phase := TConnecting; fw_up := UpIdle; fw_down := DnReading;
  fw_written := []; fw_shut := false; fw_read := [] |}.

Definition set_gate (f : Fwd) (g : ForwardBinding) : Fwd := {|
  fw_gate := g; fw_phase := fw_phase f; fw_up := fw_up f; fw_down := fw_down f;
  fw_written := fw_written f; fw_shut := fw_shut f; fw_read := fw_read f |}.
Definition set_phase (f : Fwd) (p : TaskPhase) : Fwd := {|
  fw_gate := fw_gate f; fw_phase := p; fw_up := fw_up f; fw_down := fw_down f;
  fw_written := fw_written f; fw_shut := fw_shut f; fw_read := fw_read f |}.
Definition set_up (f : Fwd) (u : Up) : Fwd := {|
  fw_gate := fw_gate f; fw_phase := fw_phase f; fw_up := u; fw_down := fw_down f;
  fw_written := fw_written f; fw_shut := fw_shut f; fw_read := fw_read f |}.
Definition set_down (f : Fwd) (d : Down) : Fwd := {|
  fw_gate := fw_gate f; fw_phase := fw_phase f; fw_up := fw_up f; fw_down := d;
  fw_written := fw_written f; fw_shut := fw_shut f; fw_read := fw_read f |}.
Definition put_socket (f : Fwd) (w : bytes) (shut : bool) : Fwd := {|
  fw_gate := fw_gate f; fw_phase := fw_phase f; fw_up := fw_up f; fw_down := fw_down f;
  fw_written := fw_written f ++ w; fw_shut := shut; fw_read := fw_read f |}.
Definition got_socket (f : Fwd) (r : bytes) : Fwd := {|
  fw_gate := fw_gate f; fw_phase := fw_phase f; fw_up := fw_up f; fw_down := fw_down f;
  fw_written := fw_written f; fw_shut := fw_shut f; fw_read := fw_read f ++ r |}.

(** The flags and channels shared with the gate. *)
Definition set_ready (b : ForwardBinding) (ready : bool) : ForwardBinding := {|
  fb_input := fb_input b; fb_acks := fb_acks b; fb_input_ready := ready;
  fb_ack_expected := fb_ack_expected b; fb_permit := fb_permit b |}.
Definition set_expected (b : ForwardBinding) (expected : bool) : ForwardBinding := {|
  fb_input := fb_input b; fb_acks := fb_acks b; fb_input_ready := fb_input_ready b;
  fb_ack_expected := expected; fb_permit := fb_permit b |}.
Definition take_input (b : ForwardBinding) : ForwardBinding := {|
  fb_input := tail (fb_input b); fb_acks := fb_acks b; fb_input_ready := fb_input_ready b;
  fb_ack_expected := fb_ack_expected b; fb_permit := fb_permit b |}.
Definition take_ack (b : ForwardBinding) : ForwardBinding := {|
  fb_input := fb_input b; fb_acks := tail (fb_acks b); fb_input_ready := fb_input_ready b;
  fb_ack_expected := fb_ack_expected b; fb_permit := fb_permit b |}.

Definition message (request_id : Z) (m : Msg) : Envelope := {|
  env_request_id := request_id; env_server_id := []; env_shell_id := []; env_message := Some m |}.

Definition data_msg (x : option bytes) : Msg :=
  match x with Some data => MsgTcpForwardData data | None => MsgTcpForwardEof end.

(** The task ends and drops its permit; on an error it tells the client, if the
    queue still takes it. *)
Definition task_error (request_id : Z) : Envelope :=
  message request_id (MsgError {|
    err_code := error_code_i32 ErrServerUnavailable;
    err_human_message := lit "TCP forwarding failed or timed out"; err_retryable := false |}).
Definition task_end (f : Fwd) (failed : bool) : Fwd :=
  set_phase (set_gate f (forward_abort (fw_gate f))) (TEnded failed).
Definition task_fail (request_id : Z) (f : Fwd) (told : bool) : Fwd * list Envelope :=
  (task_end f true, if told then [task_error request_id] else []).

(** A write to the socket that is cut short. *)
Definition cut_short (f : Fwd) (wrote : nat) : Fwd :=
  match fw_phase f, fw_up f with
  | TRunning, UpWriting (Some data) => put_socket f (take wrote data) (fw_shut f)
  | _, _ => f
  end.

(** [try_join!]: both halves are done. *)
Definition joined (f : Fwd) : Fwd :=
  match fw_up f, fw_down f with UpDone, DnDone => task_end f false | _, _ => f end.

Inductive TaskEvent :=
  | EConnected (bound_ip : str) (bound_port : Z)
  | EOpenedSent
  | EInput
  | EWrote
  | EAckSent
  | ERead (data : bytes)
  | ESent
  | EAcked
  (** A failed connect, read, write or send, a closed channel, or a timeout;
      [wrote] bytes of a write are out. *)
  | EFail (wrote : nat) (told : bool).

(** One step and what it sends on the connection; [None]: not possible now. *)
Definition task_step (request_id : Z) (f : Fwd) (e : TaskEvent) : option (Fwd * list Envelope) :=
  match fw_phase f, e with
  | TEnded _, _ => None
  | TConnecting, EConnected ip port =>
      Some (set_phase (set_gate f (set_ready (fw_gate f) true)) (TOpening ip port), [])
  | TOpening ip port, EOpenedSent =>
      Some (set_phase f TRunning, [message request_id (MsgTcpForwardOpened ip port)])
  | TRunning, EInput =>
      match fw_up f, fb_input (fw_gate f) with
      | UpIdle, x :: _ => Some (set_up (set_gate f (take_input (fw_gate f))) (UpWriting x), [])
      | _, _ => None
      end
  | TRunning, EWrote =>
      match fw_up f with
      | UpWriting (Some data) =>
          Some (set_up (set_gate (put_socket f data (fw_shut f)) (set_ready (fw_gate f) true)) (UpAck false), [])
      | UpWriting None => Some (set_up (put_socket f [] true) (UpAck true), [])
      | _ => None
      end
  | TRunning, EAckSent =>
      match fw_up f with
      | UpAck false => Some (set_up f UpIdle, [message 0 MsgTcpForwardAck])
      | UpAck true =>
          if is_empty (fb_input (fw_gate f)) then Some (joined (set_up f UpDone), [message 0 MsgTcpForwardAck])
          else
            let '(f, out) := task_fail request_id f true in
            Some (f, message 0 MsgTcpForwardAck :: out)
      | _ => None
      end
  | TRunning, ERead data =>
      match fw_down f with
      | DnReading =>
          if len data <=? FORWARD_DATA_BYTES_MAX then
            Some (set_down (set_gate (got_socket f data) (set_expected (fw_gate f) true))
                    (DnSending (if is_empty data then None else Some data)), [])
          else None
      | _ => None
      end
  | TRunning, ESent =>
      match fw_down f with
      | DnSending x =>
          Some (set_down f (DnWaiting (bool_decide (x = None))), [message 0 (data_msg x)])
      | _ => None
      end
  | TRunning, EAcked =>
      match fw_down f, fb_acks (fw_gate f) with
      | DnWaiting false, _ :: _ => Some (set_down (set_gate f (take_ack (fw_gate f))) DnReading, [])
      | DnWaiting true, _ :: _ =>
          Some (joined (set_down (set_gate f (take_ack (fw_gate f))) DnDone), [])
      (* the other branch of the [select!] around the read *)
      | DnReading, _ :: _ => Some (task_fail request_id f true)
      | _, _ => None
      end
  | _, EFail wrote told => Some (task_fail request_id (cut_short f wrote) told)
  | _, _ => None
  end.

(** A frame of the client reaches the gate; a refused one aborts the task,
    perhaps in the middle of a write. *)
Definition gate_frame (f : Fwd) (env : Envelope) (wrote : nat) : Fwd * list Envelope :=
  let '(ok, g) := forward_message (fw_gate f) env in
  if ok then (set_gate f g, [])
  else (task_end (cut_short (set_gate f g) wrote) true,
        [message 0 (MsgError {| err_code := error_code_i32 ErrInvalidArgument;
           err_human_message := lit "invalid TCP forwarding frame"; err_retryable := false |})]).
