(* ===== verification/Uploads.v ===== *)
(** * Upload backends and accounting

    [crates/daemon/src/uploads.rs]: the per-user and global upload permits, and
    the two backends behind one interface: the same-uid [UploadStore] and the
    privileged spawner of [Spawner]. *)
From S2P Require Import Prelude Protocol UploadProto Launch SpawnerWire SessionCore UploadStore Spawner SpawnerProps.

Definition MAX_UPLOADS_PER_CONNECTION : Z := 2.
Definition MAX_UPLOADS_PER_USER : Z := 4.
Definition MAX_UPLOADS_GLOBAL : Z := 16.

Inductive UploadError :=
  | UpValidation (e : UploadValidationError)
  | UpStore (e : StoreError)
  | UpSpawner (e : SpawnError)
  | UpLimitExceeded
  | UpMissingAccount
  | UpMalformedBackendResponse
  | UpNonUtf8Path
  | UpWorker (msg : str).

(** ** Permits *)
Record Counts := { global : Z; by_user : gmap str Z }.

Definition counts_default : Counts := {| global := 0; by_user := ∅ |}.

Definition user_count (c : Counts) (user : str) : Z := default 0 (by_user c !! user).

Definition try_acquire (c : Counts) (user : str) : result Counts UploadError :=
  if (MAX_UPLOADS_GLOBAL <=? global c) || (MAX_UPLOADS_PER_USER <=? user_count c user)
  then Err UpLimitExceeded
  else Ok {| global := global c + 1; by_user := <[user := user_count c user + 1]> (by_user c) |}.

(** [Drop] of a permit. *)
Definition release (c : Counts) (user : str) : Counts := {|
  global := sat_sub (global c) 1;
  by_user := match by_user c !! user with
             | Some n => if sat_sub n 1 =? 0 then delete user (by_user c)
                         else <[user := sat_sub n 1]> (by_user c)
             | None => by_user c
             end |}.

(** How many of the outstanding permits, given as the list of their users, are
    [u]'s. *)
Definition held_by (u : str) (held : list str) : Z := len (filter (λ x, x = u) held).

(** The counts agree with the outstanding permits, and users without one have
    no entry. *)
Record counts_wf (c : Counts) (held : list str) : Prop := {
  cw_global : global c = len held;
  cw_user u : by_user c !! u = if 0 <? held_by u held then Some (held_by u held) else None;
}.

Lemma held_by_cons u x held :
  held_by u (x :: held) = (if bool_decide (x = u) then 1 else 0) + held_by u held.
Proof.
  rewrite /held_by filter_cons. case_bool_decide; case_decide; try done. by rewrite len_cons.
Qed.

Lemma held_by_nonneg u held : 0 ≤ held_by u held.
Proof. apply len_nonneg. Qed.

Lemma user_count_held c held u : counts_wf c held → user_count c u = held_by u held.
Proof.
  intros W. rewrite /user_count (cw_user _ _ W). pose proof (held_by_nonneg u held).
  destruct (0 <? held_by u held) eqn:E; simpl; [done|lia].
Qed.

Lemma try_acquire_wf c held user c' :
  counts_wf c held → try_acquire c user = Ok c' →
  counts_wf c' (user :: held) ∧ len held < MAX_UPLOADS_GLOBAL ∧
  held_by user held < MAX_UPLOADS_PER_USER.
Proof.
  intros W. rewrite /try_acquire (user_count_held _ held) // (cw_global _ _ W).
  destruct (_ || _) eqn:E; [done|]. intros [= <-]. split; [|lia]. split; simpl.
  - rewrite len_cons. lia.
  - intros u. rewrite held_by_cons. pose proof (held_by_nonneg u held).
    destruct (decide (user = u)) as [->|Hne].
    + rewrite lookup_insert_eq bool_decide_eq_true_2 // (proj2 (Z.ltb_lt _ _)); last lia.
      f_equal. lia.
    + rewrite lookup_insert_ne // bool_decide_eq_false_2 // Z.add_0_l. apply W.
Qed.

(** Releasing one of the outstanding permits. *)
Lemma release_wf c user held :
  counts_wf c (user :: held) → counts_wf (release c user) held.
Proof.
  intros W. pose proof (cw_global _ _ W) as Hg. rewrite len_cons in Hg.
  pose proof (len_nonneg held). split; simpl.
  - rewrite /sat_sub Hg. lia.
  - intros u. pose proof (cw_user _ _ W user) as Hu. rewrite held_by_cons in Hu.
    rewrite bool_decide_eq_true_2 // in Hu. pose proof (held_by_nonneg user held).
    rewrite (proj2 (Z.ltb_lt _ _)) in Hu; last lia. rewrite Hu.
    rewrite (_ : sat_sub (1 + held_by user held) 1 = held_by user held);
      last (rewrite /sat_sub; lia).
    destruct (decide (user = u)) as [->|Hne].
    + destruct (held_by u held =? 0) eqn:E.
      * rewrite lookup_delete_eq (proj2 (Z.ltb_ge _ _)) //. lia.
      * rewrite lookup_insert_eq (proj2 (Z.ltb_lt _ _)) //. lia.
    + pose proof (cw_user _ _ W u) as Hu'. rewrite held_by_cons bool_decide_eq_false_2 // in Hu'.
      destruct (held_by user held =? 0); [rewrite lookup_delete_ne //|rewrite lookup_insert_ne //].
Qed.

(** ** Backends *)

(** One upload being received, and the state of the backend behind it. *)
Class UploadBackend := {
  Backend : Type;
  ActiveUpload : Type;
  backend_begin : Backend → option str → BeginUpload → Z → Backend * result ActiveUpload UploadError;
  active_id : ActiveUpload → bytes;
  active_maximum_chunk_bytes : ActiveUpload → Z;
  backend_write_chunk :
    Backend → ActiveUpload → UploadChunk → Backend * (ActiveUpload * result unit UploadError);
  backend_finish : Backend → ActiveUpload → bytes → Backend * result UploadFinished UploadError;
  backend_drop : Backend → ActiveUpload → Backend;
}.

(** What the connection relies on: an accepted upload has an id and a chunk
    limit within the one asked for. *)
Class UploadBackendLaws (B : UploadBackend) := {
  begin_limit b account md mx b' a :
    backend_begin b account md mx = (b', Ok a) → active_maximum_chunk_bytes a ≤ mx;
  write_keeps_id b a c b' a' r :
    backend_write_chunk b a c = (b', (a', r)) → active_id a' = active_id a;
}.

(** ** The same-uid backend: [UploadStore]

    Its state is the configuration, the disk and the stream of random ids; the
    disk calls themselves are those of [UploadStore]. *)
Record StoreBackend := {
  sb_config : StoreConfig;
  sb_disk : Disk;
  sb_ids : list (array UPLOAD_ID_BYTES);
}.

Definition set_disk (b : StoreBackend) (d : Disk) : StoreBackend :=
  {| sb_config := sb_config b; sb_disk := d; sb_ids := sb_ids b |}.

(** The ids one [begin] may have drawn are used up. *)
Definition next_ids (b : StoreBackend) : StoreBackend :=
  {| sb_config := sb_config b; sb_disk := sb_disk b; sb_ids := drop RANDOM_ID_ATTEMPTS (sb_ids b) |}.

Section same_uid.
Context {S : HashOps}.

Definition same_uid_begin (b : StoreBackend) (_account : option str) (md : BeginUpload) (mx : Z)
    : StoreBackend * result UploadWriter UploadError :=
  match validate_begin md (max_file_bytes (sb_config b)) with
  | Err e => (b, Err (UpValidation e))
  | Ok _ =>
      match begin_with_chunk_limit (sb_config b) (sb_disk b) md mx (sb_ids b) with
      | Some (d, r) => (next_ids (set_disk b d), map_err UpStore r)
      | None => (b, Err (UpWorker []))
      end
  end.

Definition same_uid_write (b : StoreBackend) (w : UploadWriter) (c : UploadChunk)
    : StoreBackend * (UploadWriter * result unit UploadError) :=
  let '(d, w, r) := write_chunk (sb_disk b) w c in (set_disk b d, (w, map_err UpStore r)).

Definition same_uid_finish (b : StoreBackend) (w : UploadWriter) (id : bytes)
    : StoreBackend * result UploadFinished UploadError :=
  let '(d, r) := finish (sb_disk b) w id in
  (set_disk b d,
   match r with
   | Err e => Err (UpStore e)
   | Ok c => Ok {| uf_upload_id := array_bytes (c_upload_id c);
                   uf_remote_path := path_str (remote_path c);
                   uf_bytes_written := bytes_written c;
                   uf_sha256 := array_bytes (c_sha256 c) |}
   end).

Lemma begin_limit_le c d md mx ids d' w :
  begin_with_chunk_limit c d md mx ids = Some (d', Ok w) → w_maximum_chunk_bytes w ≤ mx.
Proof.
  rewrite /begin_with_chunk_limit. destruct (validate_begin _ _); [|done]. destruct (mx =? 0); [done|].
  intros (id & Hw & _)%begin_loop_Ok. rewrite /new_writer in Hw.
  destruct (array_of 32 _); [|done]. injection Hw as <-. simpl. lia.
Qed.

#[export] Instance same_uid_backend : UploadBackend := {|
  Backend := StoreBackend; ActiveUpload := UploadWriter;
  backend_begin := same_uid_begin;
  active_id w := array_bytes (w_upload_id w);
  active_maximum_chunk_bytes := w_maximum_chunk_bytes;
  backend_write_chunk := same_uid_write;
  backend_finish := same_uid_finish;
  backend_drop b w := set_disk b (abort (sb_disk b) w) |}.

#[export] Instance same_uid_laws : UploadBackendLaws same_uid_backend.
Proof.
  split; simpl.
  - intros b account md mx b' w. rewrite /same_uid_begin.
    destruct (validate_begin _ _) eqn:Ev; [|done].
    destruct (begin_with_chunk_limit _ _ _ _ _) as [[d r]|] eqn:Eb; [|done].
    intros [= <- Hr]. destruct r as [w'|]; [|done]. injection Hr as ->.
    by apply begin_limit_le in Eb.
  - intros b w c b' w' r. rewrite /same_uid_write /write_chunk.
    destruct (validate_chunk _ _ _ _ _); [|by intros [= <- <- <-]].
    destruct (write_all _ _ _) as [d [[]|]]; by intros [= <- <- <-].
Qed.
End same_uid.

(** ** The spawner backend

    Each upload has its own connection to its own helper process. The helper
    runs as soon as it has something to read, and its packets and its exit reach
    the daemon at once; [sp_envs] are what the helpers' system calls find, one
    per connection. *)
Record SpawnerBackend := {
  sp_socket : str;
  sp_max_file_bytes : Z;
  sp_args : list str;
  sp_envs : list HelperEnv;
  sp_disk : Disk;
}.

Definition sp_set_disk (b : SpawnerBackend) (d : Disk) : SpawnerBackend := {|
  sp_socket := sp_socket b; sp_max_file_bytes := sp_max_file_bytes b; sp_args := sp_args b;
  sp_envs := sp_envs b; sp_disk := d |}.

Definition sp_next (b : SpawnerBackend) : SpawnerBackend := {|
  sp_socket := sp_socket b; sp_max_file_bytes := sp_max_file_bytes b; sp_args := sp_args b;
  sp_envs := tail (sp_envs b); sp_disk := sp_disk b |}.

(** The daemon's end and the helper at the other. *)
Record SpawnedUpload := { su_remote : RemoteUpload; su_helper : Helper }.

Section spawner.
Context {S : HashOps} {E : ErrnoText} {J : SpawnerJson} {JL : SpawnerJsonLaws J} (H : Host).

Definition sent_since (before after : Sock) : list Packet :=
  drop (length (outbox before)) (outbox after).

Definition exited (h : Helper) : bool := match h_phase h with Exit _ => true | _ => false end.

Definition on_disk (h : Helper) (d : Disk) : Helper := {|
  h_sock := h_sock h; h_disk := d; h_phase := h_phase h; h_started := h_started h;
  h_killed := h_killed h |}.

(** What the daemon can read once the helper went from [h] to [h']: its packets,
    and the end of the connection (read as an empty packet) if it exited. *)
Definition arrivals (h h' : Helper) : list (result Packet Z) :=
  map Ok (sent_since (h_sock h) (h_sock h')) ++
  if exited h' then [Ok {| pk_data := []; pk_fds := [] |}] else [].

(** The helper reads [ps] and runs until it waits; the daemon's socket gets what
    it wrote, and sees it exit. *)
Definition helper_reads (h : Helper) (s : Sock) (ps : list Packet) : Helper * Sock :=
  let h' := upload_loop (Datatypes.S (length ps)) (deliver h ps true) in
  (h', {| inbox := inbox s ++ arrivals h h';
          peer_open := peer_open s && negb (exited h'); outbox := outbox s;
          send_errors := send_errors s |}).

(** The packet of a message, as [send_message] would send it. *)
Definition packets_of {T} `{Json T} (s : Sock) (m : T) : list Packet :=
  sent_since s (fst (send_message s m None)).

Definition request_of (md : BeginUpload) (account : str) (mx : Z) : ReceiveUploadRequest := {|
  rq_account := account; rq_original_name := bu_original_name md; rq_total_bytes := bu_total_bytes md;
  rq_sha256 := bu_sha256 md; rq_maximum_chunk_bytes := mx |}.

Definition idle_helper (d : Disk) : Helper := {|
  h_sock := fresh_sock []; h_disk := d; h_phase := Exit 0; h_started := []; h_killed := [] |}.

Definition daemon_sock (arriving : list (result Packet Z)) : Sock :=
  {| inbox := arriving; peer_open := true; outbox := []; send_errors := [] |}.

Definition spawner_begin (b : SpawnerBackend) (account : option str) (md : BeginUpload) (mx : Z)
    : SpawnerBackend * result SpawnedUpload UploadError :=
  match validate_begin md (sp_max_file_bytes b) with
  | Err e => (b, Err (UpValidation e))
  | Ok _ =>
      match account, head (sp_envs b) with
      | None, _ => (b, Err UpMissingAccount)
      | Some _, None => (b, Err (UpSpawner (SpConnect (sp_socket b) [])))
      | Some account, Some env =>
          let b := sp_next b in
          let q := request_of md account mx in
          let h0 := deliver (idle_helper (sp_disk b))
                      (packets_of (fresh_sock []) (ReceiveUpload q)) true in
          match helper_main H (sp_args b) env h0 with
          | None => (b, Err (UpWorker []))
          | Some h =>
              let b := sp_set_disk b (h_disk h) in
              match begin_upload (sp_socket b) (Ok (daemon_sock (arrivals h0 h))) q with
              | None => (b, Err (UpWorker []))
              | Some r => (b, let? u := map_err UpSpawner r in Ok {| su_remote := u; su_helper := h |})
              end
          end
      end
  end.

(** What the daemon's socket sent since [before] reaches the helper. *)
Definition exchange (b : SpawnerBackend) (before : option Sock) (u : RemoteUpload) (h : Helper)
    : SpawnerBackend * SpawnedUpload :=
  match before, ru_sock u with
  | Some s0, Some s1 =>
      let '(h, s) := helper_reads (on_disk h (sp_disk b)) s1 (sent_since s0 s1) in
      (sp_set_disk b (h_disk h),
       {| su_remote := set_upload u (Some s) (ru_next_offset u); su_helper := h |})
  | _, _ => (b, {| su_remote := u; su_helper := h |})
  end.

Definition spawner_write (b : SpawnerBackend) (a : SpawnedUpload) (c : UploadChunk)
    : SpawnerBackend * (SpawnedUpload * result unit UploadError) :=
  let '(u, r) := write_wire_chunk (su_remote a) c in
  let '(b, a) := exchange b (ru_sock (su_remote a)) u (su_helper a) in
  (b, (a, map_err UpSpawner r)).

Definition spawner_drop (b : SpawnerBackend) (a : SpawnedUpload) : SpawnerBackend :=
  match ru_sock (su_remote a), remote_abort (su_remote a) with
  | Some s0, Some s1 =>
      let '(h, _) := helper_reads (on_disk (su_helper a) (sp_disk b)) s1 (sent_since s0 s1) in
      sp_set_disk b (h_disk h)
  | _, _ => b
  end.

Definition finished_of (r : UploadReply) : result UploadFinished UploadError :=
  match r with
  | UrFinished upload_id remote_path bytes_written sha256 =>
      let? upload_id := ok_or (array_of UPLOAD_ID_BYTES upload_id) UpMalformedBackendResponse in
      let? sha256 := ok_or (array_of UPLOAD_SHA256_BYTES sha256) UpMalformedBackendResponse in
      Ok {| uf_upload_id := array_bytes upload_id; uf_remote_path := remote_path;
            uf_bytes_written := bytes_written; uf_sha256 := array_bytes sha256 |}
  | _ => Err UpMalformedBackendResponse
  end.

Definition spawner_finish (b : SpawnerBackend) (a : SpawnedUpload) (upload_id : bytes)
    : SpawnerBackend * result UploadFinished UploadError :=
  let u := su_remote a in
  if negb (bool_decide (upload_id = ru_upload_id u))
  then (spawner_drop b a, Err (UpValidation InvalidUploadId))
  else match ru_sock u with
       | None => (b, Err (UpSpawner (SpProtocol (lit "upload is already closed"))))
       | Some s0 =>
           let '(h, s) := helper_reads (on_disk (su_helper a) (sp_disk b)) s0
                            (packets_of s0 (UdFinish (ru_upload_id u))) in
           (sp_set_disk b (h_disk h),
            match remote_finish (set_upload u (Some {| inbox := inbox s; peer_open := peer_open s0;
                    outbox := outbox s; send_errors := send_errors s |}) (ru_next_offset u)) with
            | None => Err (UpWorker [])
            | Some (_, r) => let? reply := map_err UpSpawner r in finished_of reply
            end)
       end.

Definition spawner_backend : UploadBackend := {|
  Backend := SpawnerBackend; ActiveUpload := SpawnedUpload;
  backend_begin := spawner_begin;
  active_id a := ru_upload_id (su_remote a);
  active_maximum_chunk_bytes a := ru_maximum_chunk_bytes (su_remote a);
  backend_write_chunk := spawner_write;
  backend_finish := spawner_finish;
  backend_drop := spawner_drop |}.

(** ** The spawner backend keeps the same promises *)
Lemma send_outbox {T} `{Json T} s (m : T) s' r :
  outbox s = [] → send_message s m None = (s', r) →
  outbox s' = [] ∧ r ≠ Ok () ∨ ∃ p, outbox s' = [p] ∧ carries m p ∧ r = Ok ().
Proof.
  intros Ho. rewrite /send_message. destruct (to_vec m) as [b|e] eqn:Eb; [|intros [= <- <-]; by left].
  destruct (_ <? _) eqn:El; [intros [= <- <-]; by left|]. to_prop. rewrite /sendmsg.
  destruct (head (send_errors s)) as [[e|]|]; [intros [= <- <-]; by left|..];
    destruct (peer_open s); intros [= <- <-]; (try by left); right; exists (packet_of b None);
    rewrite /= Ho; (split_and!; [done| |done]); by exists b.
Qed.

(** An exited helper has said nothing, or one error. *)
Definition error_packet (p : Packet) : Prop :=
  ∃ m f, carries (SpawnRefused m f) p ∨ carries (UrError m f) p.
Definition gave_up (h : Helper) : Prop :=
  exited h = true ∧ (outbox (h_sock h) = [] ∨ ∃ p, outbox (h_sock h) = [p] ∧ error_packet p).

Lemma refuse_gave_up h s d r upload : outbox s = [] → gave_up (refuse_and_exit h s d r upload).
Proof.
  intros Ho. rewrite /refuse_and_exit. destruct r as [m|m], upload;
    destruct (send_message s _ None) as [s' r] eqn:Es; split; try done; simpl;
    destruct (send_outbox _ _ _ _ Ho Es) as [[? _]|(p & ? & ? & _)]; (try by left); right;
    exists p; (split; [done|]); rewrite /error_packet; naive_solver.
Qed.

Lemma helper_main_upload args env h0 q h :
  (∃ p1, carries (ReceiveUpload q) p1 ∧ inbox (h_sock h0) = [Ok p1]) →
  outbox (h_sock h0) = [] → helper_main H args env h0 = Some h →
  gave_up h ∨
  ∃ w ids p, h_phase h = Uploading w ids ∧ w_maximum_chunk_bytes w ≤ rq_maximum_chunk_bytes q ∧
    outbox (h_sock h) = [p] ∧ carries (UrReady (array_bytes (w_upload_id w)) (w_maximum_chunk_bytes w)) p.
Proof.
  intros (p1 & Hp1 & Hin) Ho. rewrite /helper_main. destruct (parse_args H args) as [cfg|].
  2: { intros [= <-]. left. split; [done|]. by left. }
  rewrite /helper_start. destruct (check_peer _ _) as [[]|e]; [|intros [= <-]; left; by apply refuse_gave_up].
  rewrite (recv_carried _ _ _ _ Hp1 Hin). cbn [mbind option_bind].
  rewrite /receive_begin. set (s1 := {| inbox := [] |}). have Ho1 : outbox s1 = [] by done.
  destruct (resolve_allowed_account _ _ _) as [ids|]; [|intros [= <-]; left; by apply refuse_gave_up].
  destruct (upload_root cfg); [|intros [= <-]; left; by apply refuse_gave_up].
  destruct (store_open _ _ _); [|intros [= <-]; left; by apply refuse_gave_up].
  destruct (begin_with_chunk_limit _ _ _ _ _) as [[d [w|e]]|] eqn:Eb; [| |done]; cbn [mbind option_bind].
  2: { intros [= <-]. left. by apply refuse_gave_up. }
  apply begin_limit_le in Eb. destruct (send_message s1 _ None) as [s2 r] eqn:Es.
  destruct (send_outbox _ _ _ _ Ho1 Es) as [[Ho2 Hr]|(p & Ho2 & Hp & ->)].
  - destruct r as [[]|e]; [done|]. intros [= <-]. left. by apply refuse_gave_up.
  - intros [= <-]. right. exists w, ids, p. split_and!; try done. lia.
Qed.

Lemma recv_error p rest s :
  error_packet p → inbox s = Ok p :: rest →
  ∃ s' m f, recv_message (T := UploadReply) s = Some (s', Ok (Some (UrError m f, None))).
Proof.
  intros (m & f & [(b & [Hb Hl] & ->)|Hp]) Hi.
  - destruct (error_json _ _ _ Hb) as [Hr Hn].
    rewrite /recv_message /recv_raw Hi. cbn [mbind option_bind pk_data pk_fds packet_of].
    rewrite take_ge; last by (rewrite /len in Hl; lia). destruct b as [|c b]; [done|]. cbn [is_empty].
    rewrite Hr. eauto.
  - rewrite (recv_carried _ _ _ _ Hp Hi). eauto.
Qed.

(** An accepted upload is one the helper's store began. *)
Lemma spawner_begin_Ok b account md mx b' a :
  spawner_begin b account md mx = (b', Ok a) →
  ∃ w ids, h_phase (su_helper a) = Uploading w ids ∧
    ru_upload_id (su_remote a) = array_bytes (w_upload_id w) ∧
    ru_maximum_chunk_bytes (su_remote a) = w_maximum_chunk_bytes w ∧ w_maximum_chunk_bytes w ≤ mx.
Proof.
  rewrite /spawner_begin. destruct (validate_begin _ _); [|done].
  destruct account as [account|]; [|done]. destruct (head (sp_envs b)) as [env|]; [|done].
  set (q := request_of md account mx). cbv zeta.
  set (h0 := deliver _ _ _). destruct (helper_main H _ env h0) as [h|] eqn:Eh; [|done].
  destruct (begin_upload _ _ _) as [[u|e]|] eqn:Eb; [|done..]. cbn [map_err]. intros [= _ <-]. simpl.
  rewrite /begin_upload in Eb. cbn [connect_spawner map_err] in Eb.
  destruct (send_message (daemon_sock (arrivals h0 h)) (ReceiveUpload q) None) as [s1 r1] eqn:Es1.
  destruct (send_outbox (daemon_sock (arrivals h0 h)) _ _ _ eq_refl Es1) as [[_ Hr]|(p1 & _ & Hp1 & ->)]; [by destruct r1 as [[]|]|].
  have Hi1 : inbox s1 = arrivals h0 h.
  { destruct Hp1 as (b1 & Hb1 & _). rewrite (send_message_open _ _ b1) // in Es1. by injection Es1 as <-. }
  have Hin : inbox (h_sock h0) = [Ok p1].
  { destruct Hp1 as (b1 & Hb1 & ->). rewrite /h0 /packets_of (send_message_open _ _ b1) //. }
  destruct (helper_main_upload _ _ _ q _ (ex_intro _ p1 (conj Hp1 Hin)) eq_refl Eh)
    as [[Hex Hout]|(w & ids & p & Hph & Hle & Hout & Hp)].
  - rewrite /arrivals Hex /sent_since /= in Hi1. destruct Hout as [Hout|(p & Hout & Hep)]; rewrite Hout in Hi1.
    + rewrite /recv_message /recv_raw Hi1 in Eb. done.
    + destruct (recv_error p _ s1 Hep Hi1) as (s2 & m & f & Hrv). rewrite Hrv /= in Eb. by destruct f.
  - have Hx : exited h = false by rewrite /exited Hph.
    rewrite /arrivals Hx /sent_since /= Hout in Hi1.
    rewrite (recv_carried s1 _ p [] Hp Hi1) /= in Eb. injection Eb as <-. by exists w, ids.
Qed.

#[export] Instance spawner_laws : UploadBackendLaws spawner_backend.
Proof.
  split; simpl.
  - intros b account md mx b' a (w & ids & _ & _ & -> & Hle)%spawner_begin_Ok. done.
  - intros b a c b' a' r. rewrite /spawner_write.
    destruct (write_wire_chunk (su_remote a) c) as [u ru] eqn:Ew.
    have Hu : ru_upload_id u = ru_upload_id (su_remote a).
    { move: Ew. rewrite /write_wire_chunk /remote_write_chunk.
      repeat (case_match; try by intros [= <- _]); by intros [= <- _]. }
    rewrite /exchange. destruct (ru_sock (su_remote a)), (ru_sock u);
      try destruct (helper_reads _ _ _); by intros [= _ <- _].
Qed.
End spawner.
