(* ===== verification/Conn.v ===== *)
(** * One connection

    [crates/daemon/src/conn.rs]: the control channel and the client-opened
    attachment, upload and forward channels of one connection. Handlers run in
    a state monad over the world a connection sees: the shared application
    state (shell manager, rate limiter, upload and forward services, audit
    log), the connection's own fields and its outgoing queue. [None] is a
    panic (also one inside [spawn_blocking], which the code turns into an
    error). Cryptographic verifiers are the interface [AuthOps]; sending to a
    bounded queue does not wait in the model. *)
From S2P Require Import Prelude Protocol Auth Ids Observability Negotiate History TerminalModel Launch SpawnerWire SessionCore RateLimiter UploadProto UploadStore Uploads Forward.

Definition KEEPALIVE_INTERVAL_MS : Z := 15000.
Definition MAX_USERNAME_BYTES : Z := 128.
Definition MAX_PASSWORD_BYTES : Z := 1024.

(** ** Authentication backends *)

(** Grants and SSH keys ([hf_auth], see [Auth]) and the password verifier.
    [GrantMalformed] is an error of decoding, [GrantInvalid] one of
    verification; the offered key is passed on as received. [ConnAuth] gives
    the instance the daemon runs with. *)
Inductive GrantRefusal := GrantMalformed | GrantInvalid.

Class AuthOps := {
  SshVerifier : Type;
  verify_grant : bytes → str → Z → result GrantClaims GrantRefusal;
  issue_grant : GrantClaims → bytes;
  ssh_is_authorized : SshVerifier → bytes → bool;
  ssh_verify_response : SshVerifier → bytes → bytes → bytes → bool;
  password_verify : str → str → bool;
}.

(** Texts of errors sent to the client ([Display] of the error types). *)
Class ErrorText (PE : Type) := {
  pty_error_text : PE → str;
  upload_error_text : UploadError → str;
  negotiation_error_text : NegotiationError → str;
}.

(** ** The state monad of the handlers

    A panic ends everything: [None]. *)
Definition M (W X : Type) : Type := W → option (W * X).

Definition ret {W X} (x : X) : M W X := λ w, Some (w, x).
Definition bindM {W X Y} (m : M W X) (f : X → M W Y) : M W Y :=
  λ w, match m w with Some (w, x) => f x w | None => None end.
Definition get {W X} (f : W → X) : M W X := λ w, Some (w, f w).

Notation "'let*' x := e 'in' k" := (bindM e (λ x, k))
  (at level 200, x pattern, e at level 100, k at level 200) : rust_scope.

Section conn.
Context {V : VtOps} {P : PtyOps} {S : HashOps} {A : AuthOps} {B : UploadBackend}
        {T : ErrorText PtyError} (H : Host).

Inductive AuthMode := DevInsecure | SshKeys (users : gmap str SshVerifier).

(** ** State *)
Record AppState := {
  manager : ShellManager;
  rate_limiter : RateLimiter (Ip := IpAddr);
  auth_mode : AuthMode;
  password_users : option (gset str);
  audience : str;
  server_id : ServerId;
  upload_service : option (Counts * Backend);
  forwards_service : ForwardService;
  audit : list AuditEvent;
}.

Record Binding := { b_shell_id : ShellId; b_attachment_id : Z }.

Inductive UploadCommand := CmdChunk (c : UploadChunk) | CmdFinish (id : bytes) | CmdAbort.

(** The connection's end of one upload actor, named by its key. *)
Record UploadBinding := { ub_upload_id : bytes; ub_actor : Z }.

Record Conn := {
  peer_ip : IpAddr;
  negotiated : option Negotiated;
  authenticated : bool;
  user_id : str;
  op_scope : option (list str);
  channel_binding : bytes;
  pending_challenge : option (str * bytes);
  transport_datagrams : bool;
  c_attachments : gmap Z Binding;
  c_uploads : gmap Z UploadBinding;
  c_forwards : gmap Z ForwardBinding;
}.

(** A running upload actor ([run_upload]): the command queue it shares with its
    binding, and whether that sender still exists. *)
Record UploadActor := {
  ac_active : ActiveUpload;
  ac_user : str;
  ac_channel : Z;
  ac_request_id : Z;
  ac_shell_id : ShellId;
  ac_queue : list UploadCommand;
  ac_sender : bool;
}.

(** [sent]: what went to the outgoing queue; [out_open]: its receiver exists.
    [actors]: the running upload actors. *)
Record World := {
  app : AppState;
  conn : Conn;
  sent : list (Z * Envelope);
  out_open : bool;
  actors : gmap Z UploadActor;
  next_actor : Z;
}.

(** What the environment supplies while one message is handled: clocks, random
    values, and whether a blocking [terminate] times out. *)
Record Inputs := {
  in_instant : Z;
  in_now_ms : Z;
  in_fresh : Fresh;
  in_token : ResumeToken;
  in_challenge : bytes;
  in_jti : array 16;
  in_timeout : bool;
}.

(** ** Access to the world *)
Definition modify_conn (f : Conn → Conn) : M World unit := λ w,
  Some ({| app := app w; conn := f (conn w); sent := sent w; out_open := out_open w;
           actors := actors w; next_actor := next_actor w |}, ()).
Definition modify_app (f : AppState → AppState) : M World unit := λ w,
  Some ({| app := f (app w); conn := conn w; sent := sent w; out_open := out_open w;
           actors := actors w; next_actor := next_actor w |}, ()).

Definition modify_actors (f : gmap Z UploadActor → gmap Z UploadActor) : M World unit := λ w,
  Some ({| app := app w; conn := conn w; sent := sent w; out_open := out_open w;
           actors := f (actors w); next_actor := next_actor w |}, ()).

Definition set_manager (m : ShellManager) (a : AppState) : AppState := {|
  manager := m; rate_limiter := rate_limiter a; auth_mode := auth_mode a;
  password_users := password_users a; audience := audience a; server_id := server_id a;
  upload_service := upload_service a; forwards_service := forwards_service a; audit := audit a |}.
Definition set_limiter (l : RateLimiter) (a : AppState) : AppState := {|
  manager := manager a; rate_limiter := l; auth_mode := auth_mode a;
  password_users := password_users a; audience := audience a; server_id := server_id a;
  upload_service := upload_service a; forwards_service := forwards_service a; audit := audit a |}.
Definition set_upload_service (u : option (Counts * Backend)) (a : AppState) : AppState := {|
  manager := manager a; rate_limiter := rate_limiter a; auth_mode := auth_mode a;
  password_users := password_users a; audience := audience a; server_id := server_id a;
  upload_service := u; forwards_service := forwards_service a; audit := audit a |}.
Definition set_forwards_service (f : ForwardService) (a : AppState) : AppState := {|
  manager := manager a; rate_limiter := rate_limiter a; auth_mode := auth_mode a;
  password_users := password_users a; audience := audience a; server_id := server_id a;
  upload_service := upload_service a; forwards_service := f; audit := audit a |}.
Definition add_audit (e : AuditEvent) (a : AppState) : AppState := {|
  manager := manager a; rate_limiter := rate_limiter a; auth_mode := auth_mode a;
  password_users := password_users a; audience := audience a; server_id := server_id a;
  upload_service := upload_service a; forwards_service := forwards_service a;
  audit := audit a ++ [e] |}.

Definition set_auth (ok : bool) (user : str) (scope : option (list str)) (c : Conn) : Conn := {|
  peer_ip := peer_ip c; negotiated := negotiated c; authenticated := ok; user_id := user;
  op_scope := scope; channel_binding := channel_binding c;
  pending_challenge := pending_challenge c; transport_datagrams := transport_datagrams c;
  c_attachments := c_attachments c; c_uploads := c_uploads c; c_forwards := c_forwards c |}.
Definition set_negotiated (n : Negotiated) (c : Conn) : Conn := {|
  peer_ip := peer_ip c; negotiated := Some n; authenticated := authenticated c;
  user_id := user_id c; op_scope := op_scope c; channel_binding := channel_binding c;
  pending_challenge := pending_challenge c; transport_datagrams := transport_datagrams c;
  c_attachments := c_attachments c; c_uploads := c_uploads c; c_forwards := c_forwards c |}.
Definition set_pending (p : option (str * bytes)) (c : Conn) : Conn := {|
  peer_ip := peer_ip c; negotiated := negotiated c; authenticated := authenticated c;
  user_id := user_id c; op_scope := op_scope c; channel_binding := channel_binding c;
  pending_challenge := p; transport_datagrams := transport_datagrams c;
  c_attachments := c_attachments c; c_uploads := c_uploads c; c_forwards := c_forwards c |}.
Definition set_channels (att : gmap Z Binding) (up : gmap Z UploadBinding)
    (fwd : gmap Z ForwardBinding) (c : Conn) : Conn := {|
  peer_ip := peer_ip c; negotiated := negotiated c; authenticated := authenticated c;
  user_id := user_id c; op_scope := op_scope c; channel_binding := channel_binding c;
  pending_challenge := pending_challenge c; transport_datagrams := transport_datagrams c;
  c_attachments := att; c_uploads := up; c_forwards := fwd |}.
Definition set_attachments (att : gmap Z Binding) (c : Conn) : Conn :=
  set_channels att (c_uploads c) (c_forwards c) c.
Definition set_uploads (up : gmap Z UploadBinding) (c : Conn) : Conn :=
  set_channels (c_attachments c) up (c_forwards c) c.
Definition set_forwards (fwd : gmap Z ForwardBinding) (c : Conn) : Conn :=
  set_channels (c_attachments c) (c_uploads c) fwd c.

(** A manager operation that cannot panic, and one that can. *)
Definition with_manager {X} (f : ShellManager → ShellManager * X) : M World X :=
  let* m := get (manager ∘ app) in
  let '(m, x) := f m in
  let* _ := modify_app (set_manager m) in ret x.
Definition with_manager_opt {X} (f : ShellManager → option (ShellManager * X)) : M World X :=
  λ w, match f (manager (app w)) with
       | Some r => with_manager (λ _, r) w
       | None => None
       end.

Definition record (e : AuditEvent) : M World unit := modify_app (add_audit e).

(** ** Envelopes *)
Definition respond (request_id : Z) (message : Msg) : Envelope := {|
  env_request_id := request_id; env_server_id := []; env_shell_id := [];
  env_message := Some message |}.

Definition error_envelope (request_id : Z) (code : ErrorCode) (text : str) (retryable : bool)
    : Envelope :=
  respond request_id (MsgError {| err_code := error_code_i32 code; err_human_message := text;
                                  err_retryable := retryable |}).

Definition auth_ok (request_id : Z) (user : str) (expires_at_ms : Z) : Envelope :=
  respond request_id (MsgAuthenticationResult {|
    ar_ok := true; ar_user_id := user; ar_expires_at_ms := expires_at_ms; ar_error_code := 0;
    ar_error_message := []; ar_challenge := [] |}).

Definition auth_failure (request_id : Z) (code : ErrorCode) (message : str) : Envelope :=
  respond request_id (MsgAuthenticationResult {|
    ar_ok := false; ar_user_id := []; ar_expires_at_ms := 0;
    ar_error_code := error_code_i32 code; ar_error_message := message; ar_challenge := [] |}).

(** [with] the ids set, as the handlers do on a reply. *)
Definition with_ids (server shell : bytes) (e : Envelope) : Envelope := {|
  env_request_id := env_request_id e; env_server_id := server; env_shell_id := shell;
  env_message := env_message e |}.

Definition session_error_text (e : SessionError) : str :=
  match e with
  | ShellNotFound => lit "shell not found"
  | NotRunning => lit "shell is not running"
  | LimitExceeded what => lit "limit exceeded: " ++ what
  | Forbidden => lit "not authorized to run a shell under the requested account"
  | InvalidToken => lit "invalid, expired or rotated resume token"
  | TokenReplayed => lit "resume token already superseded (possible replay)"
  | PtyFailed e => pty_error_text e
  | Internal msg => lit "internal error: " ++ msg
  end.

Definition session_error (request_id : Z) (e : SessionError) : Envelope :=
  let '(code, retryable) :=
    match e with
    | ShellNotFound => (ErrNotFound, false)
    | NotRunning => (ErrNotFound, false)
    | LimitExceeded _ => (ErrLimitExceeded, true)
    | Forbidden => (ErrForbidden, false)
    | InvalidToken => (ErrTokenExpired, false)
    | TokenReplayed => (ErrTokenReplayed, false)
    | PtyFailed _ | Internal _ => (ErrInternal, true)
    end in
  error_envelope request_id code (session_error_text e) retryable.

Definition reject_reason (e : SessionError) : RejectReason :=
  match e with
  | ShellNotFound => RrNotFound
  | NotRunning => RrNotRunning
  | LimitExceeded _ => RrLimitExceeded
  | Forbidden => RrForbidden
  | InvalidToken => RrInvalidToken
  | TokenReplayed => RrTokenReplayed
  | PtyFailed _ | Internal _ => RrInternal
  end.

Definition upload_reject_reason (e : UploadError) : RejectReason :=
  match e with
  | UpLimitExceeded => RrLimitExceeded
  | UpValidation _ | UpStore (InvalidUpload _) => RrInvalidRequest
  | UpSpawner (SpForbidden _) | UpMissingAccount => RrForbidden
  | UpStore _ | UpSpawner _ | UpMalformedBackendResponse | UpNonUtf8Path | UpWorker _ => RrInternal
  end.

Definition upload_error_envelope (request_id : Z) (e : UploadError) : Envelope :=
  let '(code, retryable) :=
    match e with
    | UpLimitExceeded | UpValidation (FileTooLarge _ _) | UpStore (InvalidUpload (FileTooLarge _ _)) =>
        (ErrLimitExceeded, false)
    | UpStore ChecksumMismatch => (ErrChecksumMismatch, false)
    | UpValidation _ | UpStore (InvalidUpload _) | UpStore (LengthMismatch _ _)
    | UpStore InvalidChunkLimit | UpMissingAccount => (ErrInvalidArgument, false)
    | UpSpawner (SpForbidden _) => (ErrForbidden, false)
    | UpStore _ | UpSpawner _ | UpMalformedBackendResponse | UpNonUtf8Path | UpWorker _ =>
        (ErrInternal, true)
    end in
  error_envelope request_id code (upload_error_text e) retryable.

Definition shell_state_pb (s : ShellState) : Z :=
  match s with
  | Running => SHELL_STATE_RUNNING
  | Terminating => SHELL_STATE_TERMINATING
  | Exited => SHELL_STATE_EXITED
  end.

(** ** Sending *)

(** [out.send(..).await.is_ok()]. *)
Definition send (channel : Z) (e : Envelope) : M World bool := λ w,
  if out_open w
  then Some ({| app := app w; conn := conn w; sent := sent w ++ [(channel, e)];
                out_open := out_open w; actors := actors w; next_actor := next_actor w |}, true)
  else Some (w, false).

Definition send_error (channel : Z) (code : ErrorCode) (text : str) : M World bool :=
  send channel (error_envelope 0 code text false).

Definition max_frame_bytes (c : Conn) : Z :=
  match negotiated c with Some n => ng_max_frame_bytes n | None => FRAME_BYTES_DEFAULT end.

Definition permits (c : Conn) (op : str) : bool :=
  match op_scope c with Some ops => bool_decide (op ∈ ops) | None => true end.

(** ** Closing channels *)

(** Dropping a forward binding ends its task, whose permit returns. *)
Definition drop_forward (b : ForwardBinding) : M World unit :=
  match fb_permit b with
  | Some user => modify_app (λ a, set_forwards_service (forward_release (forwards_service a) user) a)
  | None => ret ()
  end.

(** Dropping an upload binding drops its command sender. *)
Definition drop_sender_of (ac : UploadActor) : UploadActor := {|
  ac_active := ac_active ac; ac_user := ac_user ac; ac_channel := ac_channel ac;
  ac_request_id := ac_request_id ac; ac_shell_id := ac_shell_id ac; ac_queue := ac_queue ac;
  ac_sender := false |}.
Definition drop_upload (b : UploadBinding) : M World unit :=
  modify_actors (alter drop_sender_of (ub_actor b)).

(** Detach one binding and audit it. *)
Definition detach_binding (b : Binding) : M World unit :=
  let* _ := with_manager (λ m, detach m (b_shell_id b) (b_attachment_id b)) in
  let* user := get (user_id ∘ conn) in
  record (EvShellDetached user (b_shell_id b)).

Definition channel_closed (channel : Z) : M World unit :=
  let* c := get conn in
  let* _ := modify_conn (set_channels (delete channel (c_attachments c))
                          (delete channel (c_uploads c)) (delete channel (c_forwards c))) in
  let* _ := match c_uploads c !! channel with Some u => drop_upload u | None => ret () end in
  let* _ := match c_forwards c !! channel with Some f => drop_forward f | None => ret () end in
  match c_attachments c !! channel with
  | Some b => detach_binding b
  | None => ret ()
  end.

(** Run an action for every element. *)
Fixpoint for_each {W X} (f : X → M W unit) (l : list X) : M W unit :=
  match l with
  | [] => ret ()
  | x :: l => let* _ := f x in for_each f l
  end.

Definition detach_all : M World unit :=
  let* c := get conn in
  let* _ := modify_conn (set_channels ∅ ∅ ∅) in
  let* _ := for_each (λ p, drop_upload p.2) (map_to_list (c_uploads c)) in
  let* _ := for_each (λ p, drop_forward p.2) (map_to_list (c_forwards c)) in
  for_each (λ p, detach_binding p.2) (map_to_list (c_attachments c)).

(** ** Authentication *)
Definition fail_auth (inp : Inputs) (request_id : Z) (message : str) : M World bool :=
  let* c := get conn in
  let* _ := modify_app (λ a, set_limiter (record_failure (rate_limiter a) (peer_ip c)
                                            (in_instant inp)) a) in
  let* _ := record (AuthenticationFailed (peer_ip c) RrInvalidRequest) in
  send 0 (auth_failure request_id ErrUnauthenticated message).

(** Mark authenticated, clear the limiter's record, audit. *)
Definition authenticate_as (user : str) (scope : option (list str)) (method : AuthMethod)
    : M World unit :=
  let* _ := modify_conn (set_auth true user scope) in
  let* c := get conn in
  let* _ := modify_app (λ a, set_limiter (record_success (rate_limiter a) (peer_ip c)) a) in
  record (AuthenticationSucceeded user (peer_ip c) method).

Definition succeed_issuing_grant (inp : Inputs) (request_id : Z) (username : str)
    (method : AuthMethod) : M World bool :=
  let* c := get conn in
  let* _ := authenticate_as username (op_scope c) method in
  let* a := get app in
  let claims := {| sub := username; aud := audience a; servers := []; ops := [];
                   iat_ms := in_now_ms inp;
                   exp_ms := sat_i64 (in_now_ms inp + 12 * 3600 * 1000);
                   jti := hex_bytes (array_bytes (in_jti inp)) |} in
  send 0 (respond request_id (MsgAuthenticationResult {|
    ar_ok := true; ar_user_id := username; ar_expires_at_ms := exp_ms claims;
    ar_error_code := 0; ar_error_message := []; ar_challenge := issue_grant claims |})).

Definition ssh_verifier (a : AppState) (username : str) : option SshVerifier :=
  match auth_mode a with SshKeys users => users !! username | DevInsecure => None end.

Definition password_allowed (a : AppState) (username : str) : bool :=
  match password_users a with Some users => bool_decide (username ∈ users) | None => false end.

Definition handle_grant (inp : Inputs) (request_id : Z) (grant : bytes) : M World bool :=
  let* a := get app in
  match verify_grant grant (audience a) (in_now_ms inp) with
  | Err GrantMalformed => fail_auth inp request_id (lit "malformed grant")
  | Err GrantInvalid => fail_auth inp request_id (lit "invalid grant")
  | Ok claims =>
      let* _ := authenticate_as (sub claims)
                  (if is_empty (ops claims) then None else Some (ops claims)) AmConnectionGrant in
      send 0 (auth_ok request_id (sub claims) (exp_ms claims))
  end.

Definition handle_challenge_request (inp : Inputs) (request_id : Z) (username : str)
    (public_key : bytes) : M World bool :=
  let* a := get app in
  if match ssh_verifier a username with
     | Some v => ssh_is_authorized v public_key | None => false end
  then
    let* _ := modify_conn (set_pending (Some (username, in_challenge inp))) in
    send 0 (respond request_id (MsgAuthenticationResult {|
      ar_ok := false; ar_user_id := []; ar_expires_at_ms := 0; ar_error_code := 0;
      ar_error_message := []; ar_challenge := in_challenge inp |}))
  else fail_auth inp request_id (lit "authentication failed").

Definition handle_challenge_response (inp : Inputs) (request_id : Z) (challenge signature : bytes)
    : M World bool :=
  let* c := get conn in
  let* _ := modify_conn (set_pending None) in
  match pending_challenge c with
  | None => fail_auth inp request_id (lit "no challenge in progress")
  | Some (username, expected) =>
      if negb (bool_decide (challenge = expected))
      then fail_auth inp request_id (lit "challenge mismatch")
      else
        let* a := get app in
        if match ssh_verifier a username with
           | Some v => ssh_verify_response v (channel_binding c) expected signature
           | None => false end
        then succeed_issuing_grant inp request_id username AmSshKey
        else fail_auth inp request_id (lit "authentication failed")
  end.

Definition handle_password (inp : Inputs) (request_id : Z) (username password : str)
    : M World bool :=
  let* a := get app in
  if password_allowed a username && negb (is_empty username) &&
     (str_len username <=? MAX_USERNAME_BYTES) && negb (is_empty password) &&
     (str_len password <=? MAX_PASSWORD_BYTES) && password_verify username password
  then succeed_issuing_grant inp request_id username AmPassword
  else fail_auth inp request_id (lit "authentication failed").

Definition handle_authenticate (inp : Inputs) (request_id : Z) (method : option AuthMethodMsg)
    : M World bool :=
  let* c := get conn in
  let* a := get app in
  let '(allowed, l) := check (rate_limiter a) (peer_ip c) (in_instant inp) in
  let* _ := modify_app (set_limiter l) in
  if negb allowed then
    let* _ := record (AuthenticationFailed (peer_ip c) RrRateLimited) in
    send 0 (auth_failure request_id ErrLimitExceeded (lit "too many attempts"))
  else
    match auth_mode a with
    | DevInsecure =>
        let* _ := authenticate_as (lit "dev") (op_scope c) AmDevelopment in
        send 0 (auth_ok request_id (lit "dev") 0)
    | SshKeys _ =>
        match method with
        | Some (MConnectionGrant g) => handle_grant inp request_id g
        | Some (MSshChallengeRequest u k) => handle_challenge_request inp request_id u k
        | Some (MSshChallengeResponse ch sg) => handle_challenge_response inp request_id ch sg
        | Some (MPasswordRequest u p) => handle_password inp request_id u p
        | None => fail_auth inp request_id (lit "no authentication method")
        end
    end.

(** ** Control-channel handlers *)
Definition on_client_hello (request_id : Z) (hello : ClientHello) : M World bool :=
  let* a := get app in
  let* c := get conn in
  let capabilities :=
    (if upload_service a then [FileTransfer] else []) ++
    (if forward_enabled (forwards_service a) then [TcpForward] else []) in
  match negotiate_server hello capabilities FRAME_BYTES_DEFAULT 1200 (transport_datagrams c) with
  | Ok n =>
      let* _ := modify_conn (set_negotiated n) in
      send 0 (respond request_id (MsgServerHello (server_hello n KEEPALIVE_INTERVAL_MS)))
  | Err e =>
      let* _ := send 0 (error_envelope request_id ErrVersion (negotiation_error_text e) false) in
      ret false
  end.

Definition on_authenticate (inp : Inputs) (request_id : Z) (method : option AuthMethodMsg)
    : M World bool :=
  let* c := get conn in
  match negotiated c with
  | None => send 0 (error_envelope request_id ErrUnknownMessage (lit "hello first") false)
  | Some _ => handle_authenticate inp request_id method
  end.

Definition on_list_servers (request_id : Z) : M World bool :=
  let* a := get app in
  send 0 (respond request_id (MsgServerList [
    {| si_server_id := to_wire (server_id a); si_display_name := lit "local";
       si_healthy := true |}])).

Definition on_list_shells (request_id : Z) : M World bool :=
  let* a := get app in
  let* c := get conn in
  if negb (permits c (lit "list"))
  then send 0 (error_envelope request_id ErrForbidden (lit "grant does not permit list") false)
  else
    let infos := filter (λ i, info_owner i = user_id c) (list_shells (manager a)) in
    send 0 (respond request_id (MsgShellList (map (λ i, {|
      psi_server_id := to_wire (server_id a); psi_shell_id := to_wire (info_id i);
      psi_state := shell_state_pb (info_state i); psi_title := [];
      psi_created_at_ms := info_created_at_ms i;
      psi_last_attached_at_ms := info_last_attached_at_ms i |}) infos))).

(** [(!s.is_empty()).then(|| s.clone())]. *)
Definition some_nonempty (s : str) : option str := if is_empty s then None else Some s.

Definition on_open_shell (inp : Inputs) (request_id : Z) (open : OpenShell) : M World bool :=
  let* c := get conn in
  if negb (permits c (lit "open")) then
    let* _ := record (ShellOperationRejected (user_id c) None SoOpen RrForbidden) in
    send 0 (error_envelope request_id ErrForbidden (lit "grant does not permit open") false)
  else
    match array_of 16 (os_idempotency_key open) with
    | None => send 0 (error_envelope request_id ErrUnknownMessage
                        (lit "idempotency_key must be 16 bytes") false)
    | Some key =>
        let req := {| req_user := user_id c;
                      requested_account := some_nonempty (os_unix_account open);
                      req_command := some_nonempty (os_command open); req_args := [];
                      req_cols := wrap16 (os_initial_cols open);
                      req_rows := wrap16 (os_initial_rows open); idempotency_key := key |} in
        let* r := with_manager_opt (λ m, open_shell H m req (in_fresh inp)) in
        match r with
        | Ok opened =>
            let* _ := record (EvShellOpened (user_id c) (opened_id opened)
                                (some_nonempty (os_unix_account open)) (reused opened)) in
            let* a := get app in
            send 0 (with_ids (to_wire (server_id a)) (to_wire (opened_id opened))
              (respond request_id (MsgShellOpened {|
                 so_resume_token := token_to_wire (opened_token opened);
                 so_expires_at_ms := 0 |})))
        | Err e =>
            let* _ := record (ShellOperationRejected (user_id c) None SoOpen (reject_reason e)) in
            send 0 (session_error request_id e)
        end
    end.

(** [terminate] as its caller sees it: when the call waits, either the wait
    times out or the shell's pump thread reaches the end of the output. *)
Definition terminate (m : ShellManager) (id : ShellId) (timed_out : bool)
    : option (ShellManager * result ExitSummary SessionError) :=
  match terminate_start m id with
  | (m, Done r) => Some (m, r)
  | (m, Wait) =>
      if timed_out then terminate_finish m id true
      else e ← shells m !! id;
           terminate_finish (set_shells m (<[id := pump_eof e]> (shells m))) id false
  end.

Definition on_terminate_shell (inp : Inputs) (env : Envelope) : M World bool :=
  let request_id := env_request_id env in
  let* c := get conn in
  if negb (permits c (lit "terminate")) then
    let* _ := record (ShellOperationRejected (user_id c) None SoTerminate RrForbidden) in
    send 0 (error_envelope request_id ErrForbidden (lit "grant does not permit terminate") false)
  else
    match from_wire (env_shell_id env) with
    | Err _ => send 0 (error_envelope request_id ErrNotFound (lit "bad shell id") false)
    | Ok id =>
        let* a := get app in
        if match shell_info (manager a) id with
           | Ok info => bool_decide (info_owner info = user_id c) | Err _ => false end
        then
          let* r := with_manager_opt (λ m, terminate m id (in_timeout inp)) in
          match r with
          | Ok x =>
              let* _ := record (EvShellTerminated (user_id c) id (exit_code x)) in
              send 0 (with_ids [] (env_shell_id env) (respond request_id (MsgShellExited {|
                se_exit_code := as_i32 (exit_code x);
                se_signaled := negb (exit_success x) && (exit_code x =? 0); se_signal := [] |})))
          | Err e =>
              let* _ := record (ShellOperationRejected (user_id c) (Some id) SoTerminate
                                  (reject_reason e)) in
              send 0 (session_error request_id e)
          end
        else
          let* _ := record (ShellOperationRejected (user_id c) (Some id) SoTerminate RrNotFound) in
          send 0 (error_envelope request_id ErrNotFound (lit "no such shell") false)
    end.

(** ** Upload channels *)
Definition invalid_argument (channel request_id : Z) (text : str) : M World bool :=
  send channel (error_envelope request_id ErrInvalidArgument text false).

(** [commands.send(..).await.is_ok()]: the actor is there and gets the command. *)
Definition send_command (b : UploadBinding) (cmd : UploadCommand) : M World bool :=
  let* acs := get actors in
  match acs !! ub_actor b with
  | None => ret false
  | Some ac =>
      let* _ := modify_actors (<[ub_actor b := {| ac_active := ac_active ac; ac_user := ac_user ac;
        ac_channel := ac_channel ac; ac_request_id := ac_request_id ac;
        ac_shell_id := ac_shell_id ac; ac_queue := ac_queue ac ++ [cmd];
        ac_sender := ac_sender ac |}]>) in
      ret true
  end.

Definition on_upload_chunk (channel request_id : Z) (chunk : UploadChunk) : M World bool :=
  let* c := get conn in
  match c_uploads c !! channel with
  | None => invalid_argument channel request_id (lit "no upload on channel")
  | Some b =>
      if negb (bool_decide (uc_upload_id chunk = ub_upload_id b))
      then invalid_argument channel request_id (lit "upload id mismatch")
      else send_command b (CmdChunk chunk)
  end.

(** [finish] and [abort] take the binding out of the map first and drop it at
    the end. *)
Definition on_finish_upload (channel request_id : Z) (upload_id : bytes) : M World bool :=
  let* c := get conn in
  match c_uploads c !! channel with
  | None => invalid_argument channel request_id (lit "no upload on channel")
  | Some b =>
      let* _ := modify_conn (λ c, set_uploads (delete channel (c_uploads c)) c) in
      let* r := (if negb (bool_decide (upload_id = ub_upload_id b))
                 then invalid_argument channel request_id (lit "upload id mismatch")
                 else send_command b (CmdFinish upload_id)) in
      let* _ := drop_upload b in ret r
  end.

Definition on_abort_upload (channel request_id : Z) (abort : AbortUpload) : M World bool :=
  let* c := get conn in
  match c_uploads c !! channel with
  | None => ret true
  | Some b =>
      let* _ := modify_conn (λ c, set_uploads (delete channel (c_uploads c)) c) in
      let* r := (if (UPLOAD_ABORT_REASON_BYTES_MAX <? str_len (au_reason abort)) ||
                    negb (bool_decide (au_upload_id abort = ub_upload_id b))
                 then invalid_argument channel request_id (lit "invalid upload abort")
                 else send_command b CmdAbort) in
      let* _ := drop_upload b in ret r
  end.

(** ** Attachment channels *)
Definition on_terminal_input (channel request_id : Z) (data : bytes) : M World bool :=
  let* c := get conn in
  match c_attachments c !! channel with
  | None => ret true
  | Some b =>
      let* r := with_manager (λ m, write_input m (b_shell_id b) data) in
      match r with
      | Ok _ => ret true
      | Err e => send channel (session_error request_id e)
      end
  end.

Definition on_terminal_resize (channel cols rows : Z) : M World bool :=
  let* c := get conn in
  match c_attachments c !! channel with
  | None => ret true
  | Some b =>
      let* _ := with_manager_opt (λ m, resize_shell m (b_shell_id b) (wrap16 cols) (wrap16 rows)) in
      ret true
  end.

Definition on_request_history (channel request_id : Z) (req : RequestHistory) : M World bool :=
  let* c := get conn in
  match c_attachments c !! channel with
  | None => send channel (error_envelope request_id ErrNotFound (lit "no attachment on channel") false)
  | Some b =>
      let* r := with_manager_opt (λ m,
        r ← history_of m (b_shell_id b) (rh_before_line_id req)
              (Z.min (rh_maximum_lines req) 10000)
              (Z.min (rh_maximum_bytes req) (max_frame_bytes c / 2));
        Some (m, r)) in
      match r with
      | Err e => send channel (session_error request_id e)
      | Ok range =>
          let* ok := send channel (respond request_id (MsgHistoryChunk {|
            hc_first_line_id := first_line_id range; hc_lines := range_lines range;
            hc_truncated_by_eviction := truncated_by_eviction range |})) in
          if negb ok then ret false
          else
            let* a := get app in
            send channel (respond request_id (MsgHistoryEnd
              match history_bounds (manager a) (b_shell_id b) with
              | Ok (oldest, _) => oldest | Err _ => 0 end))
      end
  end.

Definition on_detach_shell (channel : Z) : M World bool :=
  let* c := get conn in
  match c_attachments c !! channel with
  | None => ret true
  | Some b =>
      let* _ := modify_conn (λ c, set_attachments (delete channel (c_attachments c)) c) in
      let* _ := detach_binding b in ret true
  end.

(** [Conn::attach]. The forwarder thread it spawns is [forward_event]. *)
Definition on_attach_shell (inp : Inputs) (channel : Z) (env : Envelope) (at_ : AttachShell)
    : M World bool :=
  let request_id := env_request_id env in
  let* c := get conn in
  if negb (permits c (lit "attach")) then
    let* _ := record (ShellOperationRejected (user_id c) None SoAttach RrForbidden) in
    send channel (error_envelope request_id ErrForbidden (lit "grant does not permit attach") false)
  else if bool_decide (is_Some (c_attachments c !! channel)) then
    send channel (error_envelope request_id ErrUnknownMessage (lit "channel already attached") false)
  else
    match from_wire (env_shell_id env) with
    | Err _ => send channel (error_envelope request_id ErrNotFound (lit "bad shell id") false)
    | Ok id =>
        match token_from_wire (as_resume_token at_) with
        | None => send channel (error_envelope request_id ErrTokenExpired
                                  (lit "malformed resume token") false)
        | Some token =>
            let* r := with_manager_opt (λ m,
              attach m (user_id c) id token (wrap16 (as_cols at_)) (wrap16 (as_rows at_))
                (in_token inp) (in_now_ms inp)) in
            match r with
            | Ok att =>
                let* _ := record (EvShellAttached (user_id c) id) in
                let* _ := modify_conn (λ c, set_attachments (<[channel :=
                  {| b_shell_id := id; b_attachment_id := attachment_id att |}]>
                    (c_attachments c)) c) in
                let* a := get app in
                send channel (with_ids (to_wire (server_id a)) (env_shell_id env)
                  (respond request_id (MsgShellAttached {|
                    sa_screen_snapshot := att_snapshot att;
                    sa_screen_revision := screen_revision att;
                    sa_rotated_resume_token := token_to_wire (rotated_resume_token att);
                    sa_oldest_history_line_id := oldest_history_line_id att;
                    sa_newest_history_line_id := newest_history_line_id att |})))
            | Err e =>
                let* _ := record (ShellOperationRejected (user_id c) (Some id) SoAttach
                                    (reject_reason e)) in
                send channel (session_error request_id e)
            end
        end
    end.

(** The forwarder thread on one event, and when the event channel closes. *)
Definition forward_event (ev : AttachmentEvent) : Envelope :=
  match ev with
  | Output data => respond 0 (MsgTerminalOutput data)
  | Exited_ x => respond 0 (MsgShellExited {|
      se_exit_code := as_i32 (exit_code x); se_signaled := negb (exit_success x);
      se_signal := [] |})
  end.

Definition forward_closed (exited : bool) : option Envelope :=
  if exited then None
  else Some (error_envelope 0 ErrTooSlow
               (lit "attachment dropped: output overran the slow-consumer bound") true).

(** ** Opening a forward *)
Definition forward_refusal (a : AppState) (c : Conn) (channel : Z) (env : Envelope)
    (host : str) (port : Z) : option (ErrorCode * str) :=
  if negb match negotiated c with
          | Some n => bool_decide (TcpForward ∈ ng_capabilities n) | None => false end
  then Some (ErrUnknownMessage, lit "TCP forwarding is not enabled")
  else if negb (permits c (lit "tcp-forward")) ||
          negb (forward_permits (forwards_service a) (user_id c))
  then Some (ErrForbidden, lit "TCP forwarding is not allowed for this user")
  else if (env_request_id env =? 0) || negb (is_empty (env_shell_id env)) ||
          (negb (is_empty (env_server_id env)) &&
           negb (bool_decide (env_server_id env = to_wire (server_id a)))) ||
          bool_decide (is_Some (c_attachments c !! channel)) ||
          bool_decide (is_Some (c_uploads c !! channel)) ||
          negb (valid_destination host port)
  then Some (ErrInvalidArgument, lit "invalid TCP forwarding request")
  else if MAX_PER_CONNECTION <=? Z.of_nat (base.size (c_forwards c))
  then Some (ErrLimitExceeded, lit "too many TCP forwards")
  else None.

Definition open_forward (channel : Z) (env : Envelope) (host : str) (port : Z) : M World bool :=
  let* a := get app in
  let* c := get conn in
  match forward_refusal a c channel env host port with
  | Some (code, text) => send channel (error_envelope (env_request_id env) code text false)
  | None =>
      match forward_acquire (forwards_service a) (user_id c) with
      | None => send channel (error_envelope (env_request_id env) ErrLimitExceeded
                                (lit "too many TCP forwards") false)
      | Some f =>
          let* _ := modify_app (set_forwards_service f) in
          let* _ := modify_conn (λ c, set_forwards (<[channel := forward_spawned (user_id c)]> (c_forwards c)) c) in
          ret true
      end
  end.

(** ** Beginning an upload *)
Definition upload_rejected (shell_id : option ShellId) (reason : RejectReason) : M World unit :=
  let* user := get (user_id ∘ conn) in record (UploadRejected user shell_id reason).

(** Everything [begin_upload] checks before it takes a permit: the refusal to
    send (with the rejection to audit), or the shell to upload for. *)
Definition upload_gate (a : AppState) (c : Conn) (channel : Z) (env : Envelope)
    : result (ShellId * ShellInfo)
             (option (option ShellId * RejectReason) * (ErrorCode * str * bool)) :=
  if negb (if upload_service a then true else false)
  then Err (None, (ErrUnknownMessage, lit "file transfer is disabled", false))
  else if negb match negotiated c with
               | Some n => bool_decide (FileTransfer ∈ ng_capabilities n) | None => false end
  then Err (None, (ErrUnknownMessage, lit "file transfer was not negotiated", false))
  else if negb (permits c (lit "upload"))
  then Err (Some (None, RrForbidden), (ErrForbidden, lit "grant does not permit upload", false))
  else if (env_request_id env =? 0) || bool_decide (is_Some (c_attachments c !! channel)) ||
          bool_decide (is_Some (c_uploads c !! channel))
  then Err (Some (None, RrInvalidRequest),
            (ErrInvalidArgument, lit "invalid or reused upload channel", false))
  else match from_wire (env_shell_id env) with
       | Err _ => Err (Some (None, RrForbidden), (ErrForbidden, lit "upload denied", false))
       | Ok id =>
           match shell_info (manager a) id with
           | Ok info =>
               if bool_decide (info_owner info = user_id c) && bool_decide (info_state info = Running)
               then
                 if MAX_UPLOADS_PER_CONNECTION <=? Z.of_nat (base.size (c_uploads c))
                 then Err (Some (Some id, RrLimitExceeded),
                           (ErrLimitExceeded, lit "too many uploads on this connection", true))
                 else Ok (id, info)
               else Err (Some (Some id, RrForbidden), (ErrForbidden, lit "upload denied", false))
           | Err _ => Err (Some (Some id, RrForbidden), (ErrForbidden, lit "upload denied", false))
           end
       end.

Definition selected_chunk_bytes (c : Conn) : Z :=
  Z.min (sat_sub (max_frame_bytes c) 512) UPLOAD_CHUNK_BYTES_MAX.

Definition spawn_upload (active : ActiveUpload) (user : str) (channel request_id : Z) (id : ShellId)
    : M World Z := λ w,
  let key := next_actor w in
  Some ({| app := app w; conn := conn w; sent := sent w; out_open := out_open w;
           actors := <[key := {| ac_active := active; ac_user := user; ac_channel := channel;
             ac_request_id := request_id; ac_shell_id := id; ac_queue := []; ac_sender := true |}]>
             (actors w);
           next_actor := key + 1 |}, key).

Definition begin_upload (channel : Z) (env : Envelope) (begin : BeginUpload) : M World bool :=
  let request_id := env_request_id env in
  let* a := get app in
  let* c := get conn in
  match upload_gate a c channel env with
  | Err (rejection, (code, text, retryable)) =>
      let* _ := match rejection with
                | Some (id, reason) => upload_rejected id reason | None => ret () end in
      send channel (error_envelope request_id code text retryable)
  | Ok (id, info) =>
      match upload_service a with
      | None => ret true
      | Some (counts, backend) =>
          match try_acquire counts (user_id c) with
          | Err e =>
              let* _ := upload_rejected (Some id) RrLimitExceeded in
              send channel (upload_error_envelope request_id e)
          | Ok counts =>
              let '(backend, r) :=
                backend_begin backend (info_account info) begin (selected_chunk_bytes c) in
              match r with
              | Err e =>
                  let* _ := modify_app (set_upload_service
                              (Some (release counts (user_id c), backend))) in
                  let* _ := upload_rejected (Some id) (upload_reject_reason e) in
                  send channel (upload_error_envelope request_id e)
              | Ok active =>
                  let* _ := modify_app (set_upload_service (Some (counts, backend))) in
                  let* key := spawn_upload active (user_id c) channel request_id id in
                  let* _ := modify_conn (λ c, set_uploads (<[channel :=
                    {| ub_upload_id := active_id active; ub_actor := key |}]> (c_uploads c)) c) in
                  let* _ := record (UploadStarted (user_id c) id (bu_original_name begin)
                                      (bu_total_bytes begin)) in
                  send channel (with_ids (to_wire (server_id a)) (to_wire id)
                    (respond request_id (MsgUploadAccepted {|
                      ua_upload_id := active_id active;
                      ua_maximum_chunk_bytes := active_maximum_chunk_bytes active |})))
              end
          end
      end
  end.

(** ** Upload actors

    [run_upload] is a loop over what it receives; [actor_step] is one turn of
    it. The writer it still holds when it returns is dropped, and its permit
    with it. *)
Inductive ActorInput := ActorRecv | ActorTimeout.

(** The actor returns: the permit goes back, and the upload with the backend
    that [k] leaves. *)
Definition actor_return (key : Z) (ac : UploadActor) (k : Backend → Backend) : M World unit :=
  let* _ := modify_actors (delete key) in
  modify_app (λ a, set_upload_service
    match upload_service a with
    | Some (counts, b) => Some (release counts (ac_user ac), k b)
    | None => None
    end a).

Definition fail_active_upload (ac : UploadActor) (e : UploadError) : M World unit :=
  let* _ := record (UploadEnded (ac_user ac) (ac_shell_id ac) UoFailed) in
  let* _ := send (ac_channel ac) (upload_error_envelope (ac_request_id ac) e) in ret ().

(** [Path::file_name] of the committed path. *)
Definition stored_basename_of (path : str) : str :=
  match reverse (split_char 0x2F path) with
  | name :: _ => if is_empty name then lit "upload" else name
  | [] => lit "upload"
  end.

Definition actor_chunk (key : Z) (ac : UploadActor) (rest : list UploadCommand) (chunk : UploadChunk)
    : M World unit :=
  let* a := get app in
  match upload_service a with
  | None => ret ()
  | Some (counts, b) =>
      let '(b, (active, r)) := backend_write_chunk b (ac_active ac) chunk in
      let* _ := modify_app (set_upload_service (Some (counts, b))) in
      match r with
      | Ok _ => modify_actors (<[key := {| ac_active := active; ac_user := ac_user ac;
          ac_channel := ac_channel ac; ac_request_id := ac_request_id ac;
          ac_shell_id := ac_shell_id ac; ac_queue := rest; ac_sender := ac_sender ac |}]>)
      | Err e =>
          let* _ := fail_active_upload ac e in
          actor_return key ac (λ b, backend_drop b active)
      end
  end.

(** [finish] consumes the upload: there is nothing left to drop. *)
Definition actor_finish (key : Z) (ac : UploadActor) (duration_ms : Z) (upload_id : bytes)
    : M World unit :=
  let* a := get app in
  match upload_service a with
  | None => ret ()
  | Some (counts, b) =>
      let '(b, r) := backend_finish b (ac_active ac) upload_id in
      let* _ := modify_app (set_upload_service (Some (counts, b))) in
      let* _ :=
        match r with
        | Ok f =>
            let* _ := record (UploadCompleted (ac_user ac) (ac_shell_id ac)
                                (stored_basename_of (uf_remote_path f)) (uf_bytes_written f)
                                duration_ms) in
            let* _ := send (ac_channel ac)
              (with_ids (to_wire (server_id a)) (to_wire (ac_shell_id ac))
                (respond (ac_request_id ac) (MsgUploadFinished f))) in ret ()
        | Err e => fail_active_upload ac e
        end in
      actor_return key ac id
  end.

(** The client gives up: audit, and drop the partial upload. *)
Definition actor_cancel (key : Z) (ac : UploadActor) : M World unit :=
  let* _ := record (UploadEnded (ac_user ac) (ac_shell_id ac) UoCancelled) in
  actor_return key ac (λ b, backend_drop b (ac_active ac)).

Definition actor_step (key : Z) (i : ActorInput) (elapsed_ms : Z) : M World unit :=
  let* acs := get actors in
  match acs !! key with
  | None => ret ()
  | Some ac =>
      match i with
      | ActorTimeout =>
          let* _ := record (UploadEnded (ac_user ac) (ac_shell_id ac) UoTimedOut) in
          let* _ := send (ac_channel ac) (error_envelope (ac_request_id ac) ErrTooSlow
                      (lit "upload timed out waiting for data") true) in
          actor_return key ac (λ b, backend_drop b (ac_active ac))
      | ActorRecv =>
          match ac_queue ac with
          | [] => if ac_sender ac then ret () else actor_cancel key ac
          | CmdAbort :: _ => actor_cancel key ac
          | CmdChunk chunk :: rest => actor_chunk key ac rest chunk
          | CmdFinish id :: _ => actor_finish key ac elapsed_ms id
          end
      end
  end.

(** ** Dispatch *)

(** [uploads.retain(|_, b| !b.commands.is_closed())]. *)
Definition retain_uploads : M World unit :=
  let* acs := get actors in
  modify_conn (λ c, set_uploads (filter (λ p, is_Some (acs !! ub_actor p.2)) (c_uploads c)) c).

(** Messages accepted before authentication. *)
Definition preauth_allowed (m : Msg) : bool :=
  match m with
  | MsgClientHello _ | MsgAuthenticate _ | MsgPing _ | MsgPong _ | MsgClose _ _ => true
  | _ => false
  end.

(** A frame on a channel that carries a forward. *)
Definition on_forward_frame (channel : Z) (b : ForwardBinding) (env : Envelope) : M World bool :=
  let '(ok, b) := forward_message b env in
  if ok then
    let* _ := modify_conn (λ c, set_forwards (<[channel := b]> (c_forwards c)) c) in ret true
  else
    let* _ := modify_conn (λ c, set_forwards (<[channel := forward_abort b]> (c_forwards c)) c) in
    let* _ := drop_forward b in
    send_error channel ErrInvalidArgument (lit "invalid TCP forwarding frame").

Definition unexpected (channel request_id : Z) : M World bool :=
  send channel (error_envelope request_id ErrUnknownMessage
                  (lit "unexpected message for this channel") false).

(** The arms of the control channel and those of the other channels; [Ping] is
    answered on every channel. *)
Definition on_control (inp : Inputs) (env : Envelope) (m : Msg) : M World bool :=
  let request_id := env_request_id env in
  match m with
  | MsgClientHello hello => on_client_hello request_id hello
  | MsgAuthenticate method => on_authenticate inp request_id method
  | MsgClose _ _ => ret false
  | MsgListServers => on_list_servers request_id
  | MsgListShells => on_list_shells request_id
  | MsgOpenShell open => on_open_shell inp request_id open
  | MsgTerminateShell => on_terminate_shell inp env
  | _ => unexpected 0 request_id
  end.

Definition on_channel (inp : Inputs) (channel : Z) (env : Envelope) (m : Msg) : M World bool :=
  let request_id := env_request_id env in
  match m with
  | MsgOpenTcpForward host port => open_forward channel env host port
  | MsgBeginUpload begin => begin_upload channel env begin
  | MsgUploadChunk chunk => on_upload_chunk channel request_id chunk
  | MsgFinishUpload id => on_finish_upload channel request_id id
  | MsgAbortUpload abort => on_abort_upload channel request_id abort
  | MsgAttachShell at_ => on_attach_shell inp channel env at_
  | MsgTerminalInput data => on_terminal_input channel request_id data
  | MsgTerminalResize cols rows => on_terminal_resize channel cols rows
  | MsgRequestHistory req => on_request_history channel request_id req
  | MsgDetachShell => on_detach_shell channel
  | _ => unexpected channel request_id
  end.

Definition on_message (inp : Inputs) (channel : Z) (env : Envelope) (m : Msg) : M World bool :=
  match m with
  | MsgPing nonce => send channel (respond (env_request_id env) (MsgPong nonce))
  | _ => if channel =? 0 then on_control inp env m else on_channel inp channel env m
  end.

(** [false]: the connection must close. *)
Definition dispatch (inp : Inputs) (channel : Z) (env : Envelope) : M World bool :=
  let* _ := retain_uploads in
  match env_message env with
  | None =>
      let* _ := send channel (error_envelope (env_request_id env) ErrUnknownMessage
                                (lit "empty envelope") false) in ret false
  | Some m =>
      let* c := get conn in
      if negb (authenticated c) && negb (preauth_allowed m) then
        send channel (error_envelope (env_request_id env) ErrUnauthenticated
                        (lit "authenticate first") false)
      else
        match c_forwards c !! channel with
        | Some b => on_forward_frame channel b env
        | None => on_message inp channel env m
        end
  end.

(** [Conn::new]. *)
Definition conn_new (peer : IpAddr) (datagrams : bool) (binding : bytes) : Conn := {|
  peer_ip := peer; negotiated := None; authenticated := false; user_id := []; op_scope := None;
  channel_binding := binding; pending_challenge := None; transport_datagrams := datagrams;
  c_attachments := ∅; c_uploads := ∅; c_forwards := ∅ |}.
End conn.
