(* ===== verification/ConnProps.v ===== *)
(** * What a connection may do

    Frame lemmas for the handlers of [Conn], and the properties of
    [dispatch]: nothing but authentication happens before authentication, who
    may authenticate, and that every change of the shell manager is an
    operation the connection's user is entitled to. *)
From S2P Require Import Prelude Protocol Auth Ids Observability Negotiate History TerminalModel Launch SessionCore SessionSteps SessionProps RateLimiter UploadProto UploadStore Uploads Forward Conn.

(** ** Frames

    [keeps π m]: running [m] does not change the projection [π]. *)
Definition keeps {W X Y} (π : W → Y) (m : M W X) : Prop :=
  ∀ w w' x, m w = Some (w', x) → π w' = π w.

Create HintDb frame discriminated.

Lemma keeps_ret {W X Y} (π : W → Y) (x : X) : keeps π (ret x).
Proof. by intros w w' y [= <- _]. Qed.

Lemma keeps_get {W X Y} (π : W → Y) (f : W → X) : keeps π (get f).
Proof. by intros w w' y [= <- _]. Qed.

Lemma bindM_Some {W X Y} (m : M W X) (f : X → M W Y) w w' y :
  bindM m f w = Some (w', y) → ∃ w1 x, m w = Some (w1, x) ∧ f x w1 = Some (w', y).
Proof. rewrite /bindM. destruct (m w) as [[w1 x]|]; [|done]. eauto. Qed.

Lemma keeps_bind {W X Y Z'} (π : W → Z') (m : M W X) (f : X → M W Y) :
  keeps π m → (∀ x, keeps π (f x)) → keeps π (bindM m f).
Proof.
  intros Hm Hf w w' y (w1 & x & H1 & H2)%bindM_Some.
  by rewrite (Hf x _ _ _ H2) (Hm _ _ _ H1).
Qed.

Lemma keeps_for_each {W X Y} (π : W → Y) (f : X → M W unit) l :
  (∀ x, keeps π (f x)) → keeps π (for_each f l).
Proof.
  intros Hf. induction l as [|x l IH]; simpl; [apply keeps_ret|]. by apply keeps_bind.
Qed.

#[export] Hint Resolve keeps_ret keeps_get keeps_for_each : frame.

(** Decompose a handler into binds, matches and primitives; the hints close
    the leaves. *)
Ltac frame :=
  repeat first
    [ solve [auto with frame]
    | apply keeps_bind; [|intros ?]
    | progress intros
    | match goal with
      | |- keeps _ (match ?x with _ => _ end) => destruct x
      | |- keeps _ (let '(_, _) := ?x in _) => destruct x
      | |- keeps _ (if ?x then _ else _) => destruct x
      end ].

Section props.
Context {V : VtOps} {P : PtyOps} {S : HashOps} {A : AuthOps} {B : UploadBackend}
        {T : ErrorText PtyError} (H : Host).

(** What only an authenticated connection may change. *)
Definition guarded (w : World) :=
  (manager (app w), upload_service (app w), forwards_service (app w), actors w,
   c_attachments (conn w), c_forwards (conn w)).

Lemma keeps_send {Y} (π : World → Y) ch e :
  (∀ w s, π {| app := app w; conn := conn w; sent := s; out_open := out_open w;
               actors := actors w; next_actor := next_actor w |} = π w) →
  keeps π (send ch e).
Proof.
  intros Hπ w w' r. rewrite /send. destruct (out_open w) eqn:E; intros [= <- <-]; [|done].
  rewrite -{1}E. apply Hπ.
Qed.

Lemma keeps_modify_app {Y} (π : World → Y) f :
  (∀ w, π {| app := f (app w); conn := conn w; sent := sent w; out_open := out_open w;
             actors := actors w; next_actor := next_actor w |} = π w) →
  keeps π (modify_app f).
Proof. intros Hπ w w' r [= <- _]. apply Hπ. Qed.

Lemma keeps_modify_conn {Y} (π : World → Y) f :
  (∀ w, π {| app := app w; conn := f (conn w); sent := sent w; out_open := out_open w;
             actors := actors w; next_actor := next_actor w |} = π w) →
  keeps π (modify_conn f).
Proof. intros Hπ w w' r [= <- _]. apply Hπ. Qed.

Lemma keeps_modify_actors {Y} (π : World → Y) f :
  (∀ w, π {| app := app w; conn := conn w; sent := sent w; out_open := out_open w;
             actors := f (actors w); next_actor := next_actor w |} = π w) →
  keeps π (modify_actors f).
Proof. intros Hπ w w' r [= <- _]. apply Hπ. Qed.
End props.

#[export] Hint Extern 1 (keeps _ (send _ _)) => apply keeps_send; done : frame.
#[export] Hint Extern 1 (keeps _ (modify_app _)) => apply keeps_modify_app; done : frame.
#[export] Hint Extern 1 (keeps _ (modify_conn _)) => apply keeps_modify_conn; done : frame.
#[export] Hint Extern 1 (keeps _ (modify_actors _)) => apply keeps_modify_actors; done : frame.

Section props.
Context {V : VtOps} {P : PtyOps} {S : HashOps} {A : AuthOps} {B : UploadBackend}
        {T : ErrorText PtyError} (H : Host).

(** ** Before authentication *)
Lemma keeps_guarded_fail_auth inp rid msg : keeps guarded (fail_auth inp rid msg).
Proof. rewrite /fail_auth /record. frame. Qed.

Lemma keeps_guarded_authenticate_as u sc mt : keeps guarded (authenticate_as u sc mt).
Proof. rewrite /authenticate_as /record. frame. Qed.
#[local] Hint Resolve keeps_guarded_fail_auth keeps_guarded_authenticate_as : frame.

Lemma keeps_guarded_authenticate inp rid mt : keeps guarded (on_authenticate inp rid mt).
Proof.
  rewrite /on_authenticate /handle_authenticate /record /handle_grant /handle_challenge_request
    /handle_challenge_response /handle_password /succeed_issuing_grant.
  frame.
Qed.

Lemma keeps_guarded_hello rid hello : keeps guarded (on_client_hello rid hello).
Proof. rewrite /on_client_hello. frame. Qed.
#[local] Hint Resolve keeps_guarded_authenticate keeps_guarded_hello : frame.

Lemma keeps_guarded_preauth inp ch env m :
  preauth_allowed m = true → keeps guarded (on_message H inp ch env m).
Proof.
  intros Hm. rewrite /on_message /on_control /on_channel /unexpected.
  destruct m; try done; destruct (ch =? 0); frame.
Qed.

(** ** Who may authenticate *)

(** Total correctness of a handler from one world. *)
Definition wp {X} (m : M World X) (w : World) (Q : World → X → Prop) : Prop :=
  match m w with Some (w', x) => Q w' x | None => False end.

Lemma wp_bind {X Y} (m : M World X) (f : X → M World Y) w Q :
  wp m w (λ w1 x, wp (f x) w1 Q) → wp (bindM m f) w Q.
Proof. rewrite /wp /bindM. by destruct (m w) as [[w1 x]|]. Qed.

Lemma wp_exists {X} (m : M World X) w (Q : World → X → Prop) :
  wp m w Q → ∃ w' x, m w = Some (w', x) ∧ Q w' x.
Proof. rewrite /wp. destruct (m w) as [[w' x]|]; [|done]. eauto. Qed.

Lemma wp_ret {X} (x : X) w Q : Q w x → wp (ret x) w Q.
Proof. done. Qed.

Lemma wp_get {X} (f : World → X) w Q : Q w (f w) → wp (get f) w Q.
Proof. done. Qed.

Lemma wp_modify_app f w (Q : World → unit → Prop) :
  Q {| app := f (app w); conn := conn w; sent := sent w; out_open := out_open w;
       actors := actors w; next_actor := next_actor w |} () → wp (modify_app f) w Q.
Proof. done. Qed.

Lemma wp_modify_conn f w (Q : World → unit → Prop) :
  Q {| app := app w; conn := f (conn w); sent := sent w; out_open := out_open w;
       actors := actors w; next_actor := next_actor w |} () → wp (modify_conn f) w Q.
Proof. done. Qed.

Lemma wp_send ch e w Q :
  (∀ s, Q {| app := app w; conn := conn w; sent := s; out_open := out_open w;
             actors := actors w; next_actor := next_actor w |} (out_open w)) →
  wp (send ch e) w Q.
Proof.
  rewrite /wp /send. destruct (out_open w) eqn:E; intros HQ; [apply HQ|].
  specialize (HQ (sent w)). rewrite -{1}E in HQ. by destruct w.
Qed.

(** The credential [mt] proves [user], with the state the server has. *)
Definition credential_ok (a : AppState) (c : Conn) (inp : Inputs) (mt : option AuthMethodMsg)
    (user : str) : Prop :=
  match auth_mode a with
  | DevInsecure => user = lit "dev"
  | SshKeys users =>
      match mt with
      | Some (MConnectionGrant g) =>
          ∃ claims, verify_grant g (audience a) (in_now_ms inp) = Ok claims ∧ sub claims = user
      | Some (MSshChallengeResponse ch sg) =>
          pending_challenge c = Some (user, ch) ∧
          ∃ v, users !! user = Some v ∧ ssh_verify_response v (channel_binding c) ch sg = true
      | Some (MPasswordRequest u p) =>
          u = user ∧ (∃ us, password_users a = Some us ∧ u ∈ us) ∧
          u ≠ [] ∧ str_len u ≤ MAX_USERNAME_BYTES ∧ p ≠ [] ∧ str_len p ≤ MAX_PASSWORD_BYTES ∧
          password_verify u p = true
      | Some (MSshChallengeRequest _ _) | None => False
      end
  end.

(** The operations a verified grant allows; other credentials leave the
    connection's scope as it is. *)
Definition granted_ops (a : AppState) (c : Conn) (inp : Inputs) (mt : option AuthMethodMsg)
    : option (list str) :=
  match auth_mode a, mt with
  | SshKeys _, Some (MConnectionGrant g) =>
      match verify_grant g (audience a) (in_now_ms inp) with
      | Ok claims => if is_empty (ops claims) then None else Some (ops claims)
      | Err _ => op_scope c
      end
  | _, _ => op_scope c
  end.

(** The outcome of an attempt: either [user] proved himself and is
    authenticated, or nothing about the authentication changed. *)
Definition auth_outcome (a : AppState) (c : Conn) (inp : Inputs) (mt : option AuthMethodMsg)
    (w' : World) : Prop :=
  (authenticated (conn w') = true ∧ credential_ok a c inp mt (user_id (conn w')) ∧
   op_scope (conn w') = granted_ops a c inp mt) ∨
  (authenticated (conn w') = authenticated c ∧ user_id (conn w') = user_id c ∧
   op_scope (conn w') = op_scope c ∧ ∀ user, ¬ credential_ok a c inp mt user).

Ltac wp :=
  repeat first
    [ apply wp_bind | apply wp_send; intros ? | apply wp_ret | apply wp_get
    | apply wp_modify_app | apply wp_modify_conn ]; cbn -[lit].

Lemma wp_fail_auth inp rid msg w (Q : World → bool → Prop) :
  (∀ a s, Q {| app := a; conn := conn w; sent := s; out_open := out_open w;
             actors := actors w; next_actor := next_actor w |} (out_open w)) →
  wp (fail_auth inp rid msg) w Q.
Proof. intros HQ. rewrite /fail_auth /record. wp. apply HQ. Qed.

Lemma wp_succeed inp rid u mt w (Q : World → bool → Prop) :
  (∀ a s, Q {| app := a; conn := set_auth true u (op_scope (conn w)) (conn w); sent := s;
               out_open := out_open w; actors := actors w; next_actor := next_actor w |}
            (out_open w)) →
  wp (succeed_issuing_grant inp rid u mt) w Q.
Proof. intros HQ. rewrite /succeed_issuing_grant /authenticate_as /record. wp. apply HQ. Qed.

Lemma is_empty_false {X} (l : list X) : is_empty l = false ↔ l ≠ [].
Proof. by destruct l. Qed.

Section outcome.
Context (inp : Inputs) (rid : Z) (w : World) (l : RateLimiter (Ip := IpAddr))
        (users : gmap str SshVerifier) (Em : auth_mode (app w) = SshKeys users).

(** The world an attempt is judged in: the limiter was consulted. *)
Let w1 : World := {| app := set_limiter l (app w); conn := conn w; sent := sent w;
                     out_open := out_open w; actors := actors w; next_actor := next_actor w |}.
Let judged mt w' := auth_outcome (app w) (conn w) inp mt w'.

Lemma grant_outcome g :
  wp (handle_grant inp rid g) w1 (λ w' _, judged (Some (MConnectionGrant g)) w').
Proof.
  rewrite /handle_grant /judged /auth_outcome /credential_ok /granted_ops Em. wp.
  destruct (verify_grant _ _ _) as [claims|[]] eqn:Ev.
  - rewrite /authenticate_as /record. wp. left. eauto.
  - apply wp_fail_auth. intros. right. cbn. split_and!; try done. intros u (? & ? & _). congruence.
  - apply wp_fail_auth. intros. right. cbn. split_and!; try done. intros u (? & ? & _). congruence.
Qed.

Lemma challenge_request_outcome u k :
  wp (handle_challenge_request inp rid u k) w1
     (λ w' _, judged (Some (MSshChallengeRequest u k)) w').
Proof.
  rewrite /handle_challenge_request /judged /auth_outcome /credential_ok Em. wp.
  match goal with |- wp (if ?b then _ else _) _ _ => destruct b end.
  - wp. right. cbn. split_and!; try done. tauto.
  - apply wp_fail_auth. intros. right. cbn. split_and!; try done. tauto.
Qed.

Lemma challenge_response_outcome ch sg :
  wp (handle_challenge_response inp rid ch sg) w1
     (λ w' _, judged (Some (MSshChallengeResponse ch sg)) w').
Proof.
  rewrite /handle_challenge_response /judged /auth_outcome /credential_ok /granted_ops Em. wp.
  destruct (pending_challenge (conn w)) as [[u ex]|] eqn:Ep;
    last by apply wp_fail_auth; intros; right; cbn; split_and!; try done; intros ? [? _].
  case_bool_decide as Ec; cbn; last first.
  { apply wp_fail_auth. intros. right. cbn. split_and!; try done. intros x [[= -> ->] _]. done. }
  subst ex. wp. rewrite /ssh_verifier /= Em. destruct (users !! u) as [v|] eqn:Eu.
  - destruct (ssh_verify_response _ _ _ _) eqn:Ev.
    + apply wp_succeed. intros. left. cbn. eauto 10.
    + apply wp_fail_auth. intros. right. cbn. split_and!; try done.
      intros x [[= <-] (v' & ? & ?)]. congruence.
  - apply wp_fail_auth. intros. right. cbn. split_and!; try done.
    intros x [[= <-] (v' & ? & _)]. congruence.
Qed.

Lemma password_outcome u p :
  wp (handle_password inp rid u p) w1 (λ w' _, judged (Some (MPasswordRequest u p)) w').
Proof.
  rewrite /handle_password /judged /auth_outcome /credential_ok /granted_ops Em. wp.
  match goal with |- wp (if ?b then _ else _) _ _ => destruct b eqn:E end.
  - apply wp_succeed. intros. left. cbn.
    rewrite !andb_true_iff !negb_true_iff !Z.leb_le !is_empty_false /password_allowed /= in E.
    destruct (password_users (app w)) as [us|]; [|naive_solver].
    rewrite bool_decide_eq_true in E. naive_solver.
  - apply wp_fail_auth. intros. right. cbn. split_and!; try done.
    intros x (-> & (us & Eus & Hin) & Hn & Hl & Hp & Hpl & Hv).
    rewrite /password_allowed /= Eus bool_decide_eq_true_2 // Hv in E.
    apply is_empty_false in Hn, Hp. rewrite Hn Hp in E. cbn in E. lia.
Qed.

Lemma no_method_outcome :
  wp (fail_auth inp rid (lit "no authentication method")) w1 (λ w' _, judged None w').
Proof.
  rewrite /judged /auth_outcome /credential_ok Em.
  apply wp_fail_auth. intros. right. cbn. split_and!; try done. tauto.
Qed.
End outcome.

Lemma handle_authenticate_outcome inp rid mt w :
  (check (rate_limiter (app w)) (peer_ip (conn w)) (in_instant inp)).1 = true →
  wp (handle_authenticate inp rid mt) w (λ w' _, auth_outcome (app w) (conn w) inp mt w').
Proof.
  intros Hc. rewrite /handle_authenticate. wp.
  destruct (check _ _ _) as [allowed l]. simpl in Hc. subst allowed. wp.
  destruct (auth_mode (app w)) as [|users] eqn:Em.
  { rewrite /authenticate_as /record /auth_outcome /credential_ok /granted_ops Em. wp. by left. }
  destruct mt as [[]|]; [eapply grant_outcome|eapply challenge_request_outcome
    |eapply challenge_response_outcome|eapply password_outcome|eapply no_method_outcome]; exact Em.
Qed.


(** C8: before authentication a connection reaches nothing. Every message
    outside the allowlist gets exactly one [ErrUnauthenticated] and changes
    no shared state; no message at all changes the shell manager, the upload
    and forward services, a running upload or the channel bindings; and only
    [Authenticate] can change the connection's status. *)
Theorem preauth_gate inp ch env w w' r :
  authenticated (conn w) = false → c_forwards (conn w) = ∅ →
  dispatch H inp ch env w = Some (w', r) →
  guarded w' = guarded w ∧
  (∀ m, env_message env = Some m → preauth_allowed m = false →
     app w' = app w ∧ r = out_open w ∧
     sent w' = sent w ++ if out_open w
                         then [(ch, error_envelope (env_request_id env) ErrUnauthenticated
                                      (lit "authenticate first") false)] else []) ∧
  ((∀ mt, env_message env ≠ Some (MsgAuthenticate mt)) → authenticated (conn w') = false).
Proof.
  intros Ha Hf. rewrite /dispatch.
  intros (w1 & [] & [= Ew1] & Hd)%bindM_Some.
  have Hg1 : guarded w1 = guarded w by rewrite -Ew1.
  have Ha1 : authenticated (conn w1) = false by rewrite -Ew1.
  have Hf1 : c_forwards (conn w1) = ∅ by rewrite -Ew1.
  have Happ : app w1 = app w ∧ sent w1 = sent w ∧ out_open w1 = out_open w by rewrite -Ew1.
  destruct Happ as (Happ & Hsent & Hout). clear Ew1. revert Hd.
  destruct (env_message env) as [m|] eqn:Em.
  - intros (w2 & c & [= <- <-] & Hd)%bindM_Some. rewrite Ha1 Hf1 lookup_empty /= in Hd.
    destruct (preauth_allowed m) eqn:Ep; cbn [negb] in Hd.
    + split_and!; [|intros ? [= <-]; congruence|].
      * by rewrite (keeps_guarded_preauth _ _ _ _ Ep _ _ _ Hd).
      * intros Hne. rewrite -Ha1. revert Hd. generalize w1 w' r. change (keeps (authenticated ∘ conn)
          (on_message H inp ch env m)).
        rewrite /on_message /on_control /on_channel /unexpected.
        destruct m; try done; try (by destruct (Hne m)); destruct (ch =? 0); rewrite /on_client_hello; frame.
    + rewrite /send Hout in Hd. rewrite -Hg1 -Happ -Hsent.
      destruct (out_open w); injection Hd as <- <-; split_and!; try done.
      by rewrite app_nil_r.
  - intros Hd. split_and!; [|done|intros _; rewrite -Ha1]; revert Hd; rewrite -?Hg1; generalize w1 w' r.
    + match goal with |- ∀ w w' x, ?f w = _ → _ => change (keeps guarded f) end. frame.
    + match goal with |- ∀ w w' x, ?f w = _ → _ => change (keeps (authenticated ∘ conn) f) end. frame.
Qed.

(** ** What an authenticated connection may do to shells *)

(** The manager operations the user of a connection is entitled to, from the
    grant's scope, ownership, and the shells bound on its channels. The end of
    the output of a terminated shell is its pump thread's. *)
Inductive entitled (c : Conn) (m : ShellManager) : op → Prop :=
  | EntOpen req fr :
      permits c (lit "open") = true → req_user req = user_id c → entitled c m (OpOpen req fr)
  | EntAttach id tok cols rows fresh now :
      permits c (lit "attach") = true →
      entitled c m (OpAttach (user_id c) id tok cols rows fresh now)
  | EntDetach ch b :
      c_attachments c !! ch = Some b → entitled c m (OpDetach (b_shell_id b) (b_attachment_id b))
  | EntWrite ch b data :
      c_attachments c !! ch = Some b → entitled c m (OpWrite (b_shell_id b) data)
  | EntResize ch b cols rows :
      c_attachments c !! ch = Some b → entitled c m (OpResize (b_shell_id b) cols rows)
  | EntTerminate id e o :
      permits c (lit "terminate") = true → shells m !! id = Some e → owner e = user_id c →
      o = OpTerminate id ∨ o = OpEof id ∨ (∃ t, o = OpTerminated id t) → entitled c m o.

Definition entitled_step (c : Conn) (m m' : ShellManager) : Prop :=
  ∃ o, op_ok m o ∧ entitled c m o ∧ exec H m o = Some m'.

(** What the environment supplies: an unused shell id, and attachment counters
    that have not run out. *)
Definition inputs_ok (inp : Inputs) (m : ShellManager) : Prop :=
  shells m !! fresh_id (in_fresh inp) = None ∧
  ∀ id e, shells m !! id = Some e → next_attachment_id (runtime e) < u64_max.

Definition mgr (w : World) : ShellManager := manager (app w).

(** [acts inp c f]: all [f] does to the manager are steps [c] is entitled to. *)
Definition acts {X} (inp : Inputs) (c : Conn) (f : M World X) : Prop :=
  ∀ w w' x, f w = Some (w', x) → inputs_ok inp (mgr w) →
    rtc (entitled_step c) (mgr w) (mgr w').

Lemma keeps_acts {X} inp c (f : M World X) : keeps mgr f → acts inp c f.
Proof. intros Hk w w' x Hf _. rewrite (Hk _ _ _ Hf). reflexivity. Qed.

(** Prefixes and suffixes that leave the manager alone. *)
Lemma acts_after {X Y} inp c (f : M World X) (g : X → M World Y) :
  keeps mgr f → (∀ x, acts inp c (g x)) → acts inp c (bindM f g).
Proof.
  intros Hf Hg w w' y (w1 & x & H1 & H2)%bindM_Some. rewrite -(Hf _ _ _ H1). by eapply Hg.
Qed.

Lemma acts_then {X Y} inp c (f : M World X) (g : X → M World Y) :
  acts inp c f → (∀ x, keeps mgr (g x)) → acts inp c (bindM f g).
Proof.
  intros Hf Hg w w' y (w1 & x & H1 & H2)%bindM_Some Hi.
  rewrite (Hg x _ _ _ H2). by eapply Hf.
Qed.

(** A handler that reads its connection first. *)
Lemma acts_conn {Y} inp (f : Conn → M World Y) w w' y :
  (∀ c, acts inp c (f c)) → bindM (get conn) f w = Some (w', y) → inputs_ok inp (mgr w) →
  rtc (entitled_step (conn w)) (mgr w) (mgr w').
Proof. intros Hf (w1 & x & [= <- <-] & Hr)%bindM_Some. by eapply Hf. Qed.

Lemma with_manager_Some {X} (f : ShellManager → ShellManager * X) w w' x :
  with_manager f w = Some (w', x) →
  mgr w' = (f (mgr w)).1 ∧ conn w' = conn w ∧ x = (f (mgr w)).2.
Proof.
  rewrite /with_manager. intros (w1 & m & [= <- <-] & Hr)%bindM_Some.
  change (manager (app w)) with (mgr w) in Hr. destruct (f (mgr w)) as [m x'].
  revert Hr. by intros (w2 & [] & [= <-] & [= <- <-])%bindM_Some.
Qed.

Lemma acts_with_manager {X} inp c (f : ShellManager → ShellManager * X) :
  (∀ m, inputs_ok inp m → rtc (entitled_step c) m (f m).1) → acts inp c (with_manager f).
Proof. intros Hf w w' x [-> _]%with_manager_Some. apply Hf. Qed.

Lemma acts_with_manager_opt {X} inp c (f : ShellManager → option (ShellManager * X)) :
  (∀ m m' x, inputs_ok inp m → f m = Some (m', x) → rtc (entitled_step c) m m') →
  acts inp c (with_manager_opt f).
Proof.
  intros Hf w w' x. rewrite /with_manager_opt.
  destruct (f _) as [[m y]|] eqn:E; [|done]. intros [-> _]%with_manager_Some Hi. by eapply Hf.
Qed.

Lemma entitled_once c m m' o :
  op_ok m o → entitled c m o → exec H m o = Some m' → rtc (entitled_step c) m m'.
Proof. intros. apply rtc_once. by exists o. Qed.

Lemma keeps_manager_drop_upload b : keeps mgr (drop_upload b).
Proof. rewrite /drop_upload. frame. Qed.
Lemma keeps_manager_drop_forward b : keeps mgr (drop_forward b).
Proof. rewrite /drop_forward. frame. Qed.
Lemma keeps_manager_record e : keeps mgr (record e).
Proof. rewrite /record. frame. Qed.
Lemma keeps_manager_send_command b cmd : keeps mgr (send_command b cmd).
Proof. rewrite /send_command. frame. Qed.
#[local] Hint Resolve keeps_manager_drop_upload keeps_manager_drop_forward keeps_manager_record
  keeps_manager_send_command : frame.

(** *** The handlers that call the manager *)
Lemma acts_detach_binding inp c ch b :
  c_attachments c !! ch = Some b → acts inp c (detach_binding b).
Proof.
  intros Hb. rewrite /detach_binding. apply acts_then; [|frame].
  apply acts_with_manager => m _. eapply entitled_once; [|by eapply EntDetach|]; done.
Qed.

Lemma acts_terminal_input inp ch rid data w w' r :
  on_terminal_input ch rid data w = Some (w', r) → inputs_ok inp (mgr w) →
  rtc (entitled_step (conn w)) (mgr w) (mgr w').
Proof.
  apply acts_conn => c. destruct (c_attachments c !! ch) as [b|] eqn:Hb; [|apply keeps_acts; frame].
  apply acts_then; [|frame].
  apply acts_with_manager => m _. eapply entitled_once; [|by eapply EntWrite|]; done.
Qed.

Lemma acts_terminal_resize inp ch cols rows w w' r :
  on_terminal_resize ch cols rows w = Some (w', r) → inputs_ok inp (mgr w) →
  rtc (entitled_step (conn w)) (mgr w) (mgr w').
Proof.
  apply acts_conn => c. destruct (c_attachments c !! ch) as [b|] eqn:Hb; [|apply keeps_acts; frame].
  apply acts_then; [|frame]. apply acts_with_manager_opt => m m' x _ Hr.
  eapply (entitled_once _ _ _ (OpResize _ (wrap16 cols) (wrap16 rows)));
    [done|by eapply EntResize|]. by rewrite /= Hr.
Qed.

Lemma keeps_manager_history ch rid req : keeps mgr (on_request_history ch rid req).
Proof.
  rewrite /on_request_history. frame.
  intros w w' res. rewrite /with_manager_opt. destruct (history_of _ _ _ _ _) as [y|]; [|done].
  by intros [-> _]%with_manager_Some.
Qed.

Lemma acts_detach_shell inp ch w w' r :
  on_detach_shell ch w = Some (w', r) → inputs_ok inp (mgr w) →
  rtc (entitled_step (conn w)) (mgr w) (mgr w').
Proof.
  apply acts_conn => c. destruct (c_attachments c !! ch) as [b|] eqn:Hb; [|apply keeps_acts; frame].
  apply acts_after; [frame|intros _]. apply acts_then; [|frame]. by eapply acts_detach_binding.
Qed.

Lemma acts_attach_shell inp ch env at_ w w' r :
  on_attach_shell inp ch env at_ w = Some (w', r) → inputs_ok inp (mgr w) →
  rtc (entitled_step (conn w)) (mgr w) (mgr w').
Proof.
  apply acts_conn => c.
  destruct (permits c (lit "attach")) eqn:Hp; cbn [negb]; [|apply keeps_acts; frame].
  case_bool_decide; [apply keeps_acts; frame|].
  destruct (from_wire _) as [id|]; [|apply keeps_acts; frame].
  destruct (token_from_wire _) as [tok|]; [|apply keeps_acts; frame].
  apply acts_then; [|frame]. apply acts_with_manager_opt => m m' x Hi Ha.
  match type of Ha with attach _ ?u ?i ?t ?co ?ro ?f ?n = _ =>
    apply (entitled_once _ _ _ (OpAttach u i t co ro f n)) end;
    [intros e; apply Hi|by apply EntAttach|by rewrite /= Ha].
Qed.

Lemma acts_open_shell inp rid open w w' r :
  on_open_shell H inp rid open w = Some (w', r) → inputs_ok inp (mgr w) →
  rtc (entitled_step (conn w)) (mgr w) (mgr w').
Proof.
  apply acts_conn => c.
  destruct (permits c (lit "open")) eqn:Hp; cbn [negb]; [|apply keeps_acts; frame].
  destruct (array_of 16 _) as [key|]; [|apply keeps_acts; frame].
  apply acts_then; [|frame]. apply acts_with_manager_opt => m m' x Hi Ho.
  match type of Ho with open_shell _ _ ?rq ?f = _ => apply (entitled_once _ _ _ (OpOpen rq f)) end;
    [apply Hi|by apply EntOpen|by rewrite /= Ho].
Qed.

Lemma terminate_start_Wait m id m' e :
  terminate_start m id = (m', Wait) → shells m !! id = Some e →
  ∃ e', shells m' !! id = Some e' ∧ owner e' = owner e ∧ exit (runtime e') = None.
Proof.
  intros Ht Hl. revert Ht. rewrite /terminate_start /entry Hl /=.
  destruct (exit (runtime e)) eqn:Ex; [done|].
  destruct (pty _) as [p|]; [destruct (pty_kill p) as [p' [[]|]]|]; intros [= <-];
    eexists; (split; [apply lookup_insert_eq|done]).
Qed.

Lemma acts_terminate c m id e t m' x :
  permits c (lit "terminate") = true → shells m !! id = Some e → owner e = user_id c →
  terminate m id t = Some (m', x) → rtc (entitled_step c) m m'.
Proof.
  intros Hp Hl Ho. rewrite /terminate. destruct (terminate_start m id) as [m1 st] eqn:Hs.
  have H1 : rtc (entitled_step c) m m1.
  { eapply (entitled_once _ _ _ (OpTerminate id)); [done|eapply EntTerminate; eauto|].
    by rewrite /= Hs. }
  destruct st as [r|]; [by intros [= <- _]|].
  destruct (terminate_start_Wait _ _ _ _ Hs Hl) as (e1 & Hl1 & Ho1 & Hx1).
  destruct t; [|rewrite Hl1 /=]; intros Hf; etrans; try exact H1.
  - eapply (entitled_once _ _ _ (OpTerminated id true)); [done| |by rewrite /= Hf].
    eapply EntTerminate; [done|done|congruence|]. right; right. by exists true.
  - etrans.
    + eapply (entitled_once _ _ _ (OpEof id));
        [| |by rewrite /= /on_entry Hl1 /=].
      * intros e'. congruence.
      * eapply EntTerminate; [done|done|congruence|by eauto].
    + eapply (entitled_once _ _ _ (OpTerminated id false)); [done| |by rewrite /= Hf].
      eapply (EntTerminate _ _ id (pump_eof e1));
        [done|by rewrite /= lookup_insert_eq|by rewrite /= Ho1|].
      right; right. by exists false.
Qed.

Lemma acts_terminate_shell inp env w w' r :
  on_terminate_shell inp env w = Some (w', r) → inputs_ok inp (mgr w) →
  rtc (entitled_step (conn w)) (mgr w) (mgr w').
Proof.
  rewrite /on_terminate_shell. intros (w1 & c & [= <- <-] & Hr)%bindM_Some Hi.
  destruct (permits (conn w) (lit "terminate")) eqn:Hp; cbn [negb] in Hr;
    last (refine (keeps_acts inp (conn w) _ _ w w' r Hr Hi); frame).
  destruct (from_wire _) as [id|];
    last (refine (keeps_acts inp (conn w) _ _ w w' r Hr Hi); frame).
  revert Hr. intros (w1 & a & [= <- <-] & Hr)%bindM_Some.
  rewrite /shell_info /entry in Hr.
  destruct (shells (manager (app w)) !! id) as [e|] eqn:Hl; rewrite Hl /= in Hr;
    last (refine (keeps_acts inp (conn w) _ _ w w' r Hr Hi); frame).
  case_bool_decide as Ho; last (refine (keeps_acts inp (conn w) _ _ w w' r Hr Hi); frame).
  revert Hr. intros (w1 & x & Hr & Hk)%bindM_Some.
  have -> : mgr w' = mgr w1.
  { revert Hk. generalize w1 w' r. apply: (_ : keeps mgr _). frame. }
  move: Hr. rewrite /with_manager_opt. destruct (terminate _ _ _) as [[m y]|] eqn:Ht; [|done].
  intros [-> _]%with_manager_Some. by eapply acts_terminate.
Qed.

(** *** Dispatch *)
Lemma keeps_manager_guarded {X} (f : M World X) : keeps guarded f → keeps mgr f.
Proof. intros Hf w w' x Hr. pose proof (Hf _ _ _ Hr) as Hg. by injection Hg. Qed.

Lemma keeps_manager_spawn active u ch rid id : keeps mgr (spawn_upload active u ch rid id).
Proof. by intros w w' x [= <- _]. Qed.
Lemma keeps_manager_rejected id reason : keeps mgr (upload_rejected id reason).
Proof. rewrite /upload_rejected. frame. Qed.
Lemma keeps_manager_hello rid hello : keeps mgr (on_client_hello rid hello).
Proof. apply keeps_manager_guarded, keeps_guarded_hello. Qed.
Lemma keeps_manager_authenticate inp rid mt : keeps mgr (on_authenticate inp rid mt).
Proof. apply keeps_manager_guarded, keeps_guarded_authenticate. Qed.
Lemma keeps_manager_begin_upload ch env bu : keeps mgr (begin_upload ch env bu).
Proof.
  pose proof keeps_manager_spawn. pose proof keeps_manager_rejected.
  rewrite /begin_upload. frame.
Qed.
#[local] Hint Resolve keeps_manager_hello keeps_manager_authenticate keeps_manager_begin_upload
  keeps_manager_history : frame.

Lemma acts_on_message inp ch env m w w' r :
  on_message H inp ch env m w = Some (w', r) → inputs_ok inp (mgr w) →
  rtc (entitled_step (conn w)) (mgr w) (mgr w').
Proof.
  rewrite /on_message /on_control /on_channel /unexpected /on_list_servers /on_list_shells
    /open_forward /on_upload_chunk /on_finish_upload /on_abort_upload /invalid_argument.
  intros Hr Hi. destruct m; destruct (ch =? 0);
    first [ by eapply acts_open_shell | by eapply acts_terminate_shell | by eapply acts_attach_shell
          | by eapply acts_terminal_input | by eapply acts_terminal_resize
          | by eapply acts_detach_shell
          | refine (keeps_acts inp (conn w) _ _ w w' r Hr Hi); frame ].
Qed.

Lemma entitled_uploads c up m m' :
  entitled_step (set_uploads up c) m m' → entitled_step c m m'.
Proof.
  intros (o & Hok & He & Hx). exists o. split_and!; [done| |done].
  destruct He; [by apply EntOpen|exact (EntAttach c m _ _ _ _ _ _ H0)|by eapply EntDetach|by eapply EntWrite
    |by eapply EntResize|by eapply EntTerminate].
Qed.

Lemma acts_dispatch inp ch env w w' r :
  dispatch H inp ch env w = Some (w', r) → inputs_ok inp (mgr w) →
  rtc (entitled_step (conn w)) (mgr w) (mgr w').
Proof.
  rewrite /dispatch. intros (w1 & [] & [= Ew1] & Hr)%bindM_Some Hi.
  have Em : mgr w1 = mgr w by rewrite -Ew1.
  have Hin : ∀ m m', entitled_step (conn w1) m m' → entitled_step (conn w) m m'.
  { rewrite -Ew1. intros m m'. apply entitled_uploads. }
  clear Ew1. rewrite -Em in Hi |- *. eapply rtc_subrel; [exact Hin|]. revert Hr Hi.
  destruct (env_message env) as [m|]; last first.
  { intros Hr Hi. refine (keeps_acts inp (conn w1) _ _ w1 w' r Hr Hi). frame. }
  intros (w2 & c & [= <- <-] & Hr)%bindM_Some Hi.
  destruct (negb _ && negb _); [refine (keeps_acts inp (conn w1) _ _ w1 w' r Hr Hi); frame|].
  destruct (c_forwards (conn w1) !! ch) as [b|]; [|by eapply acts_on_message].
  refine (keeps_acts inp (conn w1) _ _ w1 w' r Hr Hi). rewrite /on_forward_frame /send_error. frame.
Qed.

(** *** Isolation *)

(** [id] is neither [c]'s user's shell nor bound on a channel of [c]. *)
Definition foreign (c : Conn) (id : ShellId) (e : ShellEntry) : Prop :=
  owner e ≠ user_id c ∧ ∀ ch b, c_attachments c !! ch = Some b → b_shell_id b ≠ id.

Lemma entitled_step_step c m m' : entitled_step c m m' → step H m m'.
Proof. intros (o & Hok & _ & Hx). by exists o. Qed.

Lemma entitled_step_foreign c m m' id e :
  mgr_wf m → entitled_step c m m' → shells m !! id = Some e → foreign c id e →
  shells m' !! id = Some e.
Proof.
  intros W (o & Hok & He & Hx) Hl [Hne Hb]. destruct He.
  - by eapply (acting_isolated H); [exact W|exact Hok|exact Hx| |exact Hl|]; simpl; [f_equal|congruence].
  - by eapply (acting_isolated H); [exact W|exact Hok|exact Hx|done|exact Hl|].
  - eapply (untargeted_unchanged H); eauto. simpl. intros [= Hq]. by eapply Hb.
  - eapply (untargeted_unchanged H); eauto. simpl. intros [= Hq]. by eapply Hb.
  - eapply (untargeted_unchanged H); eauto. simpl. intros [= Hq]. by eapply Hb.
  - eapply (untargeted_unchanged H); eauto.
    assert (target m o = Some id0) as -> by (by destruct H3 as [->|[->|[t ->]]]).
    intros [= ->]. congruence.
Qed.

Lemma entitled_steps_foreign c m m' id e :
  mgr_wf m → rtc (entitled_step c) m m' → shells m !! id = Some e → foreign c id e →
  shells m' !! id = Some e.
Proof.
  intros W Hr. induction Hr as [|m m1 m' H1 _ IH]; [done|]. intros Hl Hf.
  apply IH; [by eapply (step_wf H), W; eapply entitled_step_step| |done].
  by eapply entitled_step_foreign.
Qed.

(** Attaching binds the channel to a shell of the user. *)
Lemma attach_Ok_owner m u id tok cols rows fresh now m' att :
  attach m u id tok cols rows fresh now = Some (m', Ok att) →
  ∃ e, shells m' !! id = Some e ∧ owner e = u.
Proof.
  rewrite /attach /entry. destruct (shells m !! id) as [e|] eqn:Hl; [|done]. cbn [ok_or].
  case_bool_decide as Ho; [|done]. cbn [negb].
  case_bool_decide; cbn [negb]; [|case_bool_decide; done].
  destruct (attach_runtime _ _ _ _ _ _ _) as [[rt r]|]; [|done]. intros [= <- _].
  exists (set_runtime e rt). split; [apply lookup_insert_eq|done].
Qed.

Definition att (w : World) : gmap Z Binding := c_attachments (conn w).

Definition binds_own (w w' : World) : Prop := ∀ ch b,
  att w' !! ch = Some b →
  att w !! ch = Some b ∨
  ∃ e, shells (mgr w') !! b_shell_id b = Some e ∧ owner e = user_id (conn w).

Lemma keeps_binds {X} (f : M World X) w w' x :
  keeps att f → f w = Some (w', x) → binds_own w w'.
Proof. intros Hk Hf ch b. rewrite (Hk _ _ _ Hf). by left. Qed.

Lemma keeps_att_guarded {X} (f : M World X) : keeps guarded f → keeps att f.
Proof. intros Hf w w' x Hr. pose proof (Hf _ _ _ Hr) as Hg. by injection Hg. Qed.

Lemma keeps_att_with_manager {X} (f : ShellManager → ShellManager * X) : keeps att (with_manager f).
Proof. intros w w' x (_ & Hc & _)%with_manager_Some. by rewrite /att Hc. Qed.

Lemma keeps_att_with_manager_opt {X} (f : ShellManager → option (ShellManager * X)) :
  keeps att (with_manager_opt f).
Proof.
  intros w w' x. rewrite /with_manager_opt. destruct (f _) as [y|]; [|done].
  apply keeps_att_with_manager.
Qed.
#[local] Hint Resolve keeps_att_with_manager keeps_att_with_manager_opt : frame.

Lemma keeps_att_leaves :
  (∀ b, keeps att (drop_upload b)) ∧ (∀ b, keeps att (drop_forward b)) ∧
  (∀ e, keeps att (record e)) ∧ (∀ b cmd, keeps att (send_command b cmd)) ∧
  (∀ a u ch rid id, keeps att (spawn_upload a u ch rid id)) ∧
  (∀ id reason, keeps att (upload_rejected id reason)) ∧
  (∀ rid hello, keeps att (on_client_hello rid hello)) ∧
  (∀ inp rid mt, keeps att (on_authenticate inp rid mt)).
Proof.
  split_and!; intros; rewrite /drop_upload /drop_forward /record /send_command /upload_rejected /record;
    try solve [frame].
  - by intros w w' x [= <- _].
  - apply keeps_att_guarded, keeps_guarded_hello.
  - apply keeps_att_guarded, keeps_guarded_authenticate.
Qed.

Lemma binds_detach ch w w' r : on_detach_shell ch w = Some (w', r) → binds_own w w'.
Proof.
  rewrite /on_detach_shell. intros (w1 & c & [= <- <-] & Hr)%bindM_Some k b Hb. left.
  destruct (c_attachments (conn w) !! ch) as [b0|] eqn:Hl; [|by injection Hr as <- _].
  revert Hr. intros (w1 & [] & [= Ew1] & Hr)%bindM_Some.
  have Hk : att w' = att w1.
  { destruct keeps_att_leaves as (? & ? & ? & _). revert Hr. generalize w1 w' r.
    apply: (_ : keeps att _). rewrite /detach_binding. frame. }
  rewrite Hk -Ew1 /att /= lookup_delete_Some in Hb. apply Hb.
Qed.

Lemma binds_attach inp ch env at_ w w' r :
  on_attach_shell inp ch env at_ w = Some (w', r) → binds_own w w'.
Proof.
  destruct keeps_att_leaves as (? & ? & ? & _).
  rewrite /on_attach_shell. intros (w1 & c & [= <- <-] & Hr)%bindM_Some.
  destruct (negb _); [by eapply keeps_binds, Hr; frame|].
  case_bool_decide; [by eapply keeps_binds, Hr; frame|].
  destruct (from_wire _) as [id|]; [|by eapply keeps_binds, Hr; frame].
  destruct (token_from_wire _) as [tok|]; [|by eapply keeps_binds, Hr; frame].
  revert Hr. intros (w1 & res & Hw & Hr)%bindM_Some.
  have Hatt := keeps_att_with_manager_opt _ _ _ _ Hw.
  destruct res as [a|e]; last first.
  { have Hk : att w' = att w1.
    { revert Hr. generalize w1 w' r. apply: (_ : keeps att _). frame. }
    intros k b Hb. left. by rewrite -Hatt -Hk. }
  revert Hw. rewrite /with_manager_opt.
  destruct (attach _ _ _ _ _ _ _ _) as [[m' x]|] eqn:Ha; [|done].
  intros (Hm & _ & Hx)%with_manager_Some. simpl in Hx. subst x. apply attach_Ok_owner in Ha as (e & He & Ho).
  simpl in Hm. rewrite -Hm in He.
  revert Hr. intros (w2 & [] & [= Ew2] & Hr)%bindM_Some.
  revert Hr. intros (w3 & [] & [= Ew3] & Hr)%bindM_Some.
  have Hk : keeps (λ w, (mgr w, att w))
    (let* a0 := get app in send ch (with_ids (to_wire (server_id a0)) (env_shell_id env)
       (respond (env_request_id env) (MsgShellAttached {|
          sa_screen_snapshot := att_snapshot a; sa_screen_revision := screen_revision a;
          sa_rotated_resume_token := token_to_wire (rotated_resume_token a);
          sa_oldest_history_line_id := oldest_history_line_id a;
          sa_newest_history_line_id := newest_history_line_id a |})))) by frame.
  injection (Hk _ _ _ Hr) as Hmw Haw. intros k b Hb. rewrite Hmw.
  have -> : mgr w3 = mgr w1 by rewrite -Ew3 -Ew2.
  rewrite Haw -Ew3 -Ew2 {1}/att /= in Hb. apply lookup_insert_Some in Hb as [[<- <-]|[_ Hb]].
  - right. by exists e.
  - left. by rewrite -Hatt.
Qed.

Lemma binds_on_message inp ch env m w w' r :
  on_message H inp ch env m w = Some (w', r) → binds_own w w'.
Proof.
  destruct keeps_att_leaves as (? & ? & ? & ? & ? & ? & ? & ?).
  rewrite /on_message /on_control /on_channel /unexpected /on_list_servers /on_list_shells
    /open_forward /on_upload_chunk /on_finish_upload /on_abort_upload /invalid_argument
    /on_open_shell /on_terminate_shell /on_terminal_input /on_terminal_resize
    /on_request_history /begin_upload.
  intros Hr. destruct m; destruct (ch =? 0);
    first [ by eapply binds_attach | by eapply binds_detach
          | eapply keeps_binds; [|exact Hr]; frame ].
Qed.

Lemma binds_dispatch inp ch env w w' r :
  dispatch H inp ch env w = Some (w', r) → binds_own w w'.
Proof.
  destruct keeps_att_leaves as (? & ? & ? & _).
  rewrite /dispatch. intros (w1 & [] & [= Ew1] & Hr)%bindM_Some.
  have Hb : binds_own w1 w' → binds_own w w' by rewrite -Ew1.
  clear Ew1. apply Hb. revert Hr. destruct (env_message env) as [m|];
    last by intros Hr; eapply keeps_binds, Hr; frame.
  intros (w2 & c & [= <- <-] & Hr)%bindM_Some.
  destruct (negb _ && negb _); [by eapply keeps_binds, Hr; frame|].
  destruct (c_forwards (conn w1) !! ch) as [b|]; [|by eapply binds_on_message].
  eapply keeps_binds, Hr. rewrite /on_forward_frame /send_error. frame.
Qed.

(** C2: whatever a client sends, the handling of one message changes the
    shell manager only by operations the connection's user is entitled to
    (each a step of the session core, so its invariants carry over); a shell
    that is neither the user's nor bound on the connection stays exactly as it
    is; and a channel is only ever bound to a shell of the user. *)
Theorem dispatch_isolation inp ch env w w' r :
  reachable H (manager (app w)) → inputs_ok inp (manager (app w)) →
  dispatch H inp ch env w = Some (w', r) →
  rtc (entitled_step (conn w)) (manager (app w)) (manager (app w')) ∧
  reachable H (manager (app w')) ∧
  (∀ id e, shells (manager (app w)) !! id = Some e → foreign (conn w) id e →
     shells (manager (app w')) !! id = Some e) ∧
  (∀ k b, c_attachments (conn w') !! k = Some b →
     c_attachments (conn w) !! k = Some b ∨
     ∃ e, shells (manager (app w')) !! b_shell_id b = Some e ∧ owner e = user_id (conn w)).
Proof.
  intros Hre Hi Hd. have Hacts := acts_dispatch _ _ _ _ _ _ Hd Hi. split_and!.
  - done.
  - destruct Hre as (c & p & Hre). exists c, p. etrans; [exact Hre|].
    eapply rtc_subrel; [|exact Hacts]. intros ??. apply entitled_step_step.
  - intros id e. by eapply entitled_steps_foreign; [eapply reachable_wf|].
  - exact (binds_dispatch _ _ _ _ _ _ Hd).
Qed.

(** *** Losing the connection *)

(** Detaching the bindings in [l], as the manager sees it. *)
Definition detach_list (m : ShellManager) (l : list (Z * Binding)) : ShellManager :=
  foldl (λ m p, (detach m (b_shell_id p.2) (b_attachment_id p.2)).1) m l.

Definition bound_ids (l : list (Z * Binding)) : list (ShellId * Z) :=
  map (λ p, (b_shell_id p.2, b_attachment_id p.2)) l.

Lemma for_each_total {X} (f : X → M World unit) l w :
  (∀ x w, ∃ w', f x w = Some (w', ())) → ∃ w', for_each f l w = Some (w', ()).
Proof.
  intros Hf. revert w. induction l as [|x l IH]; intros w; simpl; [by exists w|].
  rewrite /bindM. destruct (Hf x w) as [w1 ->]. apply IH.
Qed.

Lemma detach_bindings_run l w :
  ∃ w', for_each (λ p, detach_binding p.2) l w = Some (w', ()) ∧
    mgr w' = detach_list (mgr w) l ∧ conn w' = conn w.
Proof.
  revert w. induction l as [|[ch b] l IH]; intros w; simpl; [by exists w|].
  rewrite {1}/bindM /detach_binding /with_manager /record /bindM /=.
  destruct (detach (manager (app w)) _ _) as [m r] eqn:Ed. cbn.
  match goal with |- ∃ w', for_each _ _ ?w1 = _ ∧ _ =>
    destruct (IH w1) as (w' & Hr & Hm & Hc) end.
  exists w'. split_and!; [exact Hr| |exact Hc]. by rewrite Hm /mgr Ed.
Qed.

Lemma drop_sender_eq rt aid :
  ∃ orph, drop_sender rt aid = SessionCore.set_channels rt (delete aid (attachments rt)) orph.
Proof.
  rewrite /drop_sender. destruct (attachments rt !! aid) as [c|] eqn:E; [by eexists|].
  exists (orphans rt). rewrite delete_id //. by destruct rt.
Qed.

Lemma filter_bound_eq (id : ShellId) aid (ids : list (ShellId * Z)) (m : gmap Z Channel) :
  filter (λ p, (id, p.1) ∉ ids) (delete aid m) = filter (λ p, (id, p.1) ∉ (id, aid) :: ids) m.
Proof.
  apply map_eq => k. apply option_eq => c.
  rewrite !map_lookup_filter_Some lookup_delete_Some not_elem_of_cons /=.
  split; [intros [[Hne Hl] Hn]|intros [Hl [Hne Hn]]]; split_and!; congruence.
Qed.

Lemma filter_bound_ne (id id' : ShellId) aid (ids : list (ShellId * Z)) (m : gmap Z Channel) :
  id' ≠ id →
  filter (λ p, (id, p.1) ∉ ids) m = filter (λ p, (id, p.1) ∉ (id', aid) :: ids) m.
Proof.
  intros Hne. apply map_filter_ext => k c _ /=. rewrite not_elem_of_cons.
  split; [intros Hn; split; congruence|by intros [_ Hn]].
Qed.

(** A shell after the detaches: only its channels differ, and exactly the
    listed ones are gone. *)
Lemma detach_list_entry l m id e :
  shells m !! id = Some e →
  ∃ orph, shells (detach_list m l) !! id =
    Some (set_runtime e (SessionCore.set_channels (runtime e)
            (filter (λ p, (id, p.1) ∉ bound_ids l) (attachments (runtime e))) orph)).
Proof.
  revert m e. induction l as [|[ch b] l IH]; intros m e Hl; simpl.
  - exists (orphans (runtime e)).
    rewrite Hl map_filter_id; [by destruct e as [???? []]|]. intros k c _. apply not_elem_of_nil.
  - rewrite /detach /entry. destruct (shells m !! b_shell_id b) as [e0|] eqn:E0; cbn [ok_or fst].
    + destruct (decide (b_shell_id b = id)) as [<-|Hne].
      * rewrite Hl in E0. injection E0 as <-.
        destruct (drop_sender_eq (runtime e) (b_attachment_id b)) as [orph0 Heq].
        edestruct (IH (put_runtime m (b_shell_id b) e (drop_sender (runtime e) (b_attachment_id b))))
          as [orph Ho]; [apply lookup_insert_eq|]. exists orph. rewrite Ho Heq /=.
        by rewrite -filter_bound_eq.
      * edestruct (IH (put_runtime m (b_shell_id b) e0 (drop_sender (runtime e0) (b_attachment_id b))) e)
          as [orph Ho]; [by rewrite /= lookup_insert_ne|]. exists orph.
        by rewrite Ho -filter_bound_ne.
    + destruct (IH m e Hl) as [orph Ho]. exists orph. rewrite Ho -filter_bound_ne //. congruence.
Qed.

Lemma drop_uploads_frame l :
  keeps (λ w, (mgr w, conn w)) (for_each (λ p : Z * UploadBinding, drop_upload p.2) l).
Proof. apply keeps_for_each => x. rewrite /drop_upload. frame. Qed.
Lemma drop_forwards_frame l :
  keeps (λ w, (mgr w, conn w)) (for_each (λ p : Z * ForwardBinding, drop_forward p.2) l).
Proof. apply keeps_for_each => x. rewrite /drop_forward. frame. Qed.

(** C33: losing a connection, for whatever reason, ends no shell. [detach_all]
    never panics, drops every binding, and leaves each shell with its process,
    screen, history, token, owner and state; of its attachments exactly this
    connection's are gone. *)
Theorem disconnect_keeps_shells w :
  ∃ w', detach_all w = Some (w', ()) ∧
    c_attachments (conn w') = ∅ ∧ c_uploads (conn w') = ∅ ∧ c_forwards (conn w') = ∅ ∧
    (∀ id e, shells (manager (app w)) !! id = Some e →
       ∃ orph, shells (manager (app w')) !! id =
         Some (set_runtime e (SessionCore.set_channels (runtime e)
           (filter (λ p, (id, p.1) ∉ bound_ids (map_to_list (c_attachments (conn w))))
              (attachments (runtime e))) orph))).
Proof.
  rewrite /detach_all /bindM. cbn.
  match goal with |- context [for_each (λ p, drop_upload p.2) ?l ?w1] =>
    destruct (for_each_total (λ p : Z * UploadBinding, drop_upload p.2) l w1) as [w2 H2];
      [by intros; eexists|];
    have E2 := drop_uploads_frame _ _ _ _ H2 end.
  rewrite H2.
  match goal with |- context [for_each (λ p, drop_forward p.2) ?l ?w1] =>
    destruct (for_each_total (λ p : Z * ForwardBinding, drop_forward p.2) l w1) as [w3 H3];
      [intros [? b] w0; rewrite /drop_forward /=; destruct (fb_permit b); by eexists|];
    have E3 := drop_forwards_frame _ _ _ _ H3 end.
  rewrite H3. injection E2 as Hm2 Hc2. injection E3 as Hm3 Hc3.
  destruct (detach_bindings_run (map_to_list (c_attachments (conn w))) w3) as (w' & Hr & Hm & Hc).
  exists w'. rewrite Hr Hc Hc3 Hc2. split_and!; try done.
  intros id e Hl. change (manager (app w')) with (mgr w'). rewrite Hm Hm3 Hm2.
  by apply detach_list_entry.
Qed.
End props.
