(* ===== verification/ConnTotal.v ===== *)
(** * No message panics the daemon

    Given an emulator that keeps its promises ([VtLaws]) and 64-bit counters
    that have not run out, every manager operation a connection calls and
    [dispatch] itself return, and the terminal models stay well formed. *)
From S2P Require Import Prelude Protocol Auth Ids Observability Negotiate History TerminalModel Launch SessionCore SessionSteps SessionProps RateLimiter UploadProto UploadStore Uploads Forward Conn ConnProps.

Section total.
Context {V : VtOps} `{!VtLaws V} {P : PtyOps} {S : HashOps} {A : AuthOps} {B : UploadBackend}
        {T : ErrorText PtyError} (H : Host).

(** ** Terminal models *)
Definition model_wf (t : TerminalModel) : Prop := ∃ log, terminal_wf t log.

(** Well formed, with room for one more revision and for the lines any resize
    may push into the history. *)
Definition room (t : TerminalModel) : Prop :=
  ∃ log, terminal_wf t log ∧ revision t < u64_max ∧
    ∀ c r v ls, vt_resize (vt t) c r = Some (v, ls) → len log + len ls < u64_max.

Definition models_wf (m : ShellManager) : Prop :=
  ∀ id e, shells m !! id = Some e → model_wf (model (runtime e)).
Definition models_room (m : ShellManager) : Prop :=
  ∀ id e, shells m !! id = Some e → room (model (runtime e)).

Lemma room_wf t : room t → model_wf t.
Proof. intros (log & W & _). by exists log. Qed.

Lemma models_room_wf m : models_room m → models_wf m.
Proof. intros Hr id e Hl. by eapply room_wf, Hr. Qed.

Lemma resize_room t c r : room t → ∃ t' rev, resize t c r = Some (t', rev) ∧ model_wf t'.
Proof.
  intros (log & W & Hrev & Hids).
  destruct (resize_spec t log c r W Hrev) as (t' & Hr & _ & _ & _ & Hor); [eauto|].
  exists t', (revision t'). split; [done|].
  destruct Hor as [->|(_ & _ & ls & _ & W')]; [by exists log|by eexists].
Qed.

Lemma history_range_total t before ml mb :
  model_wf t → 0 ≤ before ≤ u64_max → 0 ≤ ml ≤ u32_max → is_Some (history_range t before ml mb).
Proof.
  intros (log & W) Hb Hml. rewrite /history_range.
  destruct (range_spec (history t) before ml mb (rr_wf _ _ (wf_history _ _ W)) Hb Hml) as [_ Hr].
  simpl in Hr. destruct (_ <? _); [by rewrite Hr|]. destruct Hr as (lo & -> & _). by eexists.
Qed.

(** ** Manager operations *)
Lemma models_wf_put m id e rt :
  models_wf m → model_wf (model rt) → models_wf (put_runtime m id e rt).
Proof.
  intros Hm Hrt k e'. rewrite /= lookup_insert_Some. intros [[_ <-]|[_ Hl]]; [done|by eapply Hm].
Qed.

(** A method that returns and leaves well-formed models. *)
Definition returns {X} (r : option (ShellManager * X)) : Prop :=
  ∃ m' x, r = Some (m', x) ∧ models_wf m'.

Lemma returns_same {X} m (x : X) : models_room m → returns (Some (m, x)).
Proof. intros Hr. exists m, x. split; [done|by apply models_room_wf]. Qed.

Lemma returns_put {X} m id e rt (x : X) :
  models_room m → model_wf (model rt) → returns (Some (put_runtime m id e rt, x)).
Proof. intros Hr Hrt. eexists _, _. split; [done|]. by apply models_wf_put; [apply models_room_wf|]. Qed.

Lemma attach_resize_total rt cols rows :
  room (model rt) →
  ∃ rt' r, attach_resize rt cols rows = Some (rt', r) ∧ model_wf (model rt').
Proof.
  intros Hr. rewrite /attach_resize. have Hwf := room_wf _ Hr.
  destruct (_ && _); [|by eexists _, _]. destruct (clamp_dims _ _) as [c r].
  case_bool_decide; [by eexists _, _|].
  destruct (resize_room (model rt) c r Hr) as (t' & rev & Hres & Hwf').
  destruct (pty rt) as [p|]; [destruct (pty_resize p c r) as [p' [[]|err]]|];
    cbn; rewrite ?Hres; cbn; eexists _, _; (split; [done|]); done.
Qed.

Lemma attach_total m user id tok cols rows fresh now :
  models_room m → returns (attach m user id tok cols rows fresh now).
Proof.
  intros Hr. rewrite /attach /entry. destruct (shells m !! id) as [e|] eqn:Hl; cbn [ok_or];
    [|by apply returns_same].
  repeat (case_bool_decide; cbn [negb]; try by apply returns_same).
  rewrite /attach_runtime. destruct (negb _); [by apply returns_put; [|eapply room_wf, Hr]|].
  destruct (_ <=? _); [by apply returns_put; [|eapply room_wf, Hr]|].
  destruct (attach_resize_total (runtime e) cols rows) as (rt' & r & -> & Hwf); [by eapply Hr|].
  destruct r as [[]|err]; cbn; by apply returns_put.
Qed.

Lemma resize_shell_total m id cols rows :
  models_room m → returns (resize_shell m id cols rows).
Proof.
  intros Hr. rewrite /resize_shell /entry. destruct (_ || _); [by apply returns_same|].
  destruct (clamp_dims _ _) as [c r].
  destruct (shells m !! id) as [e|] eqn:Hl; cbn [ok_or]; [|by apply returns_same].
  destruct (pty (runtime e)) as [p|]; [|by apply returns_same].
  destruct (pty_resize p c r) as [p' [[]|err]]; last first.
  { apply returns_put; [done|]. by eapply room_wf, Hr. }
  destruct (resize_room (model (runtime e)) c r) as (t' & rev & Hres & Hwf); [by eapply Hr|].
  cbn. rewrite Hres. by apply returns_put.
Qed.

Lemma terminate_total m id t : models_room m → returns (terminate m id t).
Proof.
  intros Hr. rewrite /terminate /terminate_start /entry.
  destruct (shells m !! id) as [e|] eqn:Hl; cbn [ok_or]; [|by apply returns_same].
  have Hwf : model_wf (model (runtime e)) by eapply room_wf, Hr.
  have Hput : ∀ rt, model_wf (model rt) → models_wf (put_runtime m id e rt).
  { intros rt. apply models_wf_put. by apply models_room_wf. }
  destruct (exit (runtime e)) eqn:Hx; [by apply returns_same|].
  destruct (pty _) as [p|]; [destruct (pty_kill p) as [p' [[]|err]]|];
    try (by apply returns_put);
    destruct t; rewrite /terminate_finish /= !lookup_insert_eq /= ?lookup_insert_eq /=.
  all: rewrite ?bool_decide_eq_true_2 //; eexists _, _; (split; [done|]).
  all: intros k e'; rewrite /= ?insert_insert_eq lookup_insert_Some.
  all: intros [[_ <-]|[_ Hk]]; [exact Hwf|by eapply (models_room_wf _ Hr)].
Qed.

Lemma open_shell_total m req fr : models_room m → returns (open_shell H m req fr).
Proof.
  intros Hr. rewrite /open_shell.
  destruct (idempotency m !! _ ≫= _) as [[id e]|] eqn:Hi.
  { apply returns_put; [done|]. apply bind_Some in Hi as (k & _ & Hk).
    apply bind_Some in Hk as (e' & He & [= -> ->]). by eapply room_wf, Hr. }
  rewrite /create_shell. destruct (resolve _ _ _) as [acct|]; [|by apply returns_same].
  destruct (check_limits _ _) as [[]|]; [|by apply returns_same].
  destruct (clamp_dims _ _) as [c r]. rewrite /open_pty.
  have Hnew : ∀ p, returns (X := result OpenedShell SessionError) (Some
    ({| config := config m; policy := policy m;
        shells := <[fresh_id fr := new_entry (config m) fr req acct p c r]> (shells m);
        idempotency := <[(req_user req, idempotency_key req) := fresh_id fr]> (idempotency m) |},
     Ok {| opened_id := fresh_id fr; opened_token := fresh_token fr; reused := false |})).
  { intros p. eexists _, _. split; [done|]. intros k e. rewrite /= lookup_insert_Some.
    intros [[_ <-]|[_ Hk]]; [eexists; apply terminal_new_wf|by eapply models_room_wf]. }
  destruct (build_launch_total H (privilege_drop (config m)) (shell_resource_limits (config m)) acct
              (req_command req) (req_args req)) as [bl Hbl].
  destruct (spawner_target _ _) as [[socket account]|]; [|rewrite Hbl]; cbn;
    repeat (case_match; cbn; try by apply returns_same); try by apply Hnew.
Qed.

(** ** Handlers *)

(** [calm f]: [f] always returns and leaves the manager alone. *)
Definition calm {X} (f : M World X) : Prop :=
  ∀ w, ∃ w' x, f w = Some (w', x) ∧ mgr w' = mgr w.

(** [safe f]: from a world with room [f] returns, with well-formed models. *)
Definition safe {X} (f : M World X) : Prop :=
  ∀ w, models_room (mgr w) → wp f w (λ w' _, models_wf (mgr w')).

Lemma calm_ret {X} (x : X) : calm (ret x).
Proof. intros w. by eexists _, _. Qed.
Lemma calm_get {X} (g : World → X) : calm (get g).
Proof. intros w. by eexists _, _. Qed.
Lemma calm_bind {X Y} (f : M World X) (g : X → M World Y) :
  calm f → (∀ x, calm (g x)) → calm (bindM f g).
Proof.
  intros Hf Hg w. rewrite /bindM. destruct (Hf w) as (w1 & x & -> & <-). apply Hg.
Qed.
Lemma calm_send ch e : calm (send ch e).
Proof. intros w. rewrite /send. destruct (out_open w); by eexists _, _. Qed.
Lemma calm_modify_conn f : calm (modify_conn f).
Proof. intros w. by eexists _, _. Qed.
Lemma calm_modify_actors f : calm (modify_actors f).
Proof. intros w. by eexists _, _. Qed.
Lemma calm_modify_app f : (∀ a, manager (f a) = manager a) → calm (modify_app f).
Proof. intros Hf w. eexists _, _. split; [done|]. apply Hf. Qed.
Lemma calm_spawn active u ch rid id : calm (spawn_upload active u ch rid id).
Proof. intros w. by eexists _, _. Qed.

Lemma calm_safe {X} (f : M World X) : calm f → safe f.
Proof.
  intros Hf w Hr. rewrite /wp. destruct (Hf w) as (w' & x & -> & ->). by apply models_room_wf.
Qed.
Lemma safe_after {X Y} (f : M World X) (g : X → M World Y) :
  calm f → (∀ x, safe (g x)) → safe (bindM f g).
Proof.
  intros Hf Hg w Hr. apply wp_bind. rewrite {1}/wp. destruct (Hf w) as (w1 & x & -> & Hm).
  apply Hg. by rewrite Hm.
Qed.
Lemma safe_then {X Y} (f : M World X) (g : X → M World Y) :
  safe f → (∀ x, calm (g x)) → safe (bindM f g).
Proof.
  intros Hf Hg w Hr. apply wp_bind. specialize (Hf w Hr). revert Hf. rewrite {1 2}/wp.
  destruct (f w) as [[w1 x]|]; [|done]. intros Hw1. rewrite /wp.
  by destruct (Hg x w1) as (w' & y & -> & ->).
Qed.
Lemma safe_with_manager_opt {X} (f : ShellManager → option (ShellManager * X)) :
  (∀ m, models_room m → returns (f m)) → safe (with_manager_opt f).
Proof.
  intros Hf w Hr. rewrite /wp /with_manager_opt. destruct (Hf _ Hr) as (m' & x & Hfm & Hwf).
  change (manager (app w)) with (mgr w). by rewrite Hfm.
Qed.
Lemma safe_with_manager {X} (f : ShellManager → ShellManager * X) :
  (∀ m, models_room m → models_wf (f m).1) → safe (with_manager f).
Proof.
  intros Hf w Hr. specialize (Hf _ Hr). rewrite /wp /with_manager /bindM /=.
  change (manager (app w)) with (mgr w). by destruct (f (mgr w)).
Qed.
End total.

Create HintDb calm discriminated.
#[export] Hint Resolve calm_ret calm_get calm_send calm_modify_conn calm_modify_actors calm_spawn : calm.
#[export] Hint Extern 1 (calm (modify_app _)) => apply calm_modify_app; intros; done : calm.

(** Decompose a handler that leaves the manager alone. *)
Ltac calm :=
  repeat first
    [ solve [auto with calm]
    | apply calm_bind; [|intros ?]
    | progress intros
    | match goal with
      | |- calm (match ?x with _ => _ end) => destruct x
      | |- calm (let '(_, _) := ?x in _) => destruct x
      | |- calm (if ?x then _ else _) => destruct x
      end ].

Section dispatch.
Context {V : VtOps} `{!VtLaws V} {P : PtyOps} {S : HashOps} {A : AuthOps} {B : UploadBackend}
        {T : ErrorText PtyError} (H : Host).

Lemma calm_leaves :
  (∀ e, calm (record e)) ∧ (∀ b, calm (drop_upload b)) ∧ (∀ b, calm (drop_forward b)) ∧
  (∀ b cmd, calm (send_command b cmd)) ∧ (∀ id reason, calm (upload_rejected id reason)) ∧
  (∀ inp rid msg, calm (fail_auth inp rid msg)) ∧ (∀ u sc mt, calm (authenticate_as u sc mt)).
Proof.
  split_and!; intros;
    rewrite /drop_upload /drop_forward /send_command /upload_rejected /fail_auth /authenticate_as
      /record; calm.
Qed.

(** Bring the leaves into the context and close a calm handler. *)
Ltac calm_handler :=
  destruct calm_leaves as (? & ? & ? & ? & ? & ? & ?); calm.

Lemma calm_authenticate inp rid mt : calm (on_authenticate inp rid mt).
Proof.
  rewrite /on_authenticate /handle_authenticate /handle_grant /handle_challenge_request
    /handle_challenge_response /handle_password /succeed_issuing_grant. calm_handler.
Qed.

Lemma calm_hello rid hello : calm (on_client_hello rid hello).
Proof. rewrite /on_client_hello. calm. Qed.

Lemma calm_begin_upload ch env bu : calm (begin_upload ch env bu).
Proof. rewrite /begin_upload. calm_handler. Qed.

Lemma safe_detach_binding b : safe (detach_binding b).
Proof.
  rewrite /detach_binding. apply safe_then; [|calm_handler]. apply safe_with_manager => m Hr.
  rewrite /detach /entry. destruct (shells m !! b_shell_id b) as [e|] eqn:Hl; cbn;
    [|by apply models_room_wf].
  destruct (drop_sender_eq (runtime e) (b_attachment_id b)) as [orph ->].
  apply models_wf_put; [by apply models_room_wf|]. by eapply room_wf, Hr.
Qed.

Lemma safe_terminal_input ch rid data : safe (on_terminal_input ch rid data).
Proof.
  rewrite /on_terminal_input. apply safe_after; [calm|intros c].
  destruct (c_attachments c !! ch) as [b|]; [|apply calm_safe; calm].
  apply safe_then; [|calm]. apply safe_with_manager => m Hr. rewrite /write_input /entry.
  destruct (shells m !! b_shell_id b) as [e|] eqn:Hl; cbn; [|by apply models_room_wf].
  destruct (pty (runtime e)) as [p|]; [destruct (pty_write p data)|]; cbn; [|by apply models_room_wf].
  apply models_wf_put; [by apply models_room_wf|]. by eapply room_wf, Hr.
Qed.

Lemma safe_terminal_resize ch cols rows : safe (on_terminal_resize ch cols rows).
Proof.
  rewrite /on_terminal_resize. apply safe_after; [calm|intros c].
  destruct (c_attachments c !! ch) as [b|]; [|apply calm_safe; calm].
  apply safe_then; [|calm]. apply safe_with_manager_opt => m. by apply resize_shell_total.
Qed.

Lemma safe_request_history ch rid req :
  0 ≤ rh_before_line_id req ≤ u64_max → 0 ≤ rh_maximum_lines req ≤ u32_max →
  safe (on_request_history ch rid req).
Proof.
  intros Hb Hm. rewrite /on_request_history. apply safe_after; [calm|intros c].
  destruct (c_attachments c !! ch) as [b|]; [|apply calm_safe; calm].
  apply safe_then; [|calm]. apply safe_with_manager_opt => m Hr. rewrite /history_of /entry.
  destruct (shells m !! b_shell_id b) as [e|] eqn:Hl; cbn; [|by apply returns_same].
  destruct (history_range_total (model (runtime e)) (rh_before_line_id req)
    (Z.min (rh_maximum_lines req) 10000) (Z.min (rh_maximum_bytes req) (max_frame_bytes c / 2)))
    as [r ->]; [by eapply room_wf, Hr|done|lia|]. by apply returns_same.
Qed.

Lemma safe_detach_shell ch : safe (on_detach_shell ch).
Proof.
  rewrite /on_detach_shell. apply safe_after; [calm|intros c].
  destruct (c_attachments c !! ch) as [b|]; [|apply calm_safe; calm].
  apply safe_after; [calm|intros _]. apply safe_then; [apply safe_detach_binding|calm].
Qed.

Lemma safe_attach_shell inp ch env at_ : safe (on_attach_shell inp ch env at_).
Proof.
  rewrite /on_attach_shell. apply safe_after; [calm|intros c].
  destruct (negb _); [apply calm_safe; calm_handler|]. case_bool_decide; [apply calm_safe; calm|].
  destruct (from_wire _) as [id|]; [|apply calm_safe; calm].
  destruct (token_from_wire _) as [tok|]; [|apply calm_safe; calm].
  apply safe_then; [|calm_handler]. apply safe_with_manager_opt => m. by apply attach_total.
Qed.

Lemma safe_open_shell inp rid open : safe (on_open_shell H inp rid open).
Proof.
  rewrite /on_open_shell. apply safe_after; [calm|intros c].
  destruct (negb _); [apply calm_safe; calm_handler|].
  destruct (array_of 16 _) as [key|]; [|apply calm_safe; calm].
  apply safe_then; [|calm_handler]. apply safe_with_manager_opt => m. by apply open_shell_total.
Qed.

Lemma safe_terminate_shell inp env : safe (on_terminate_shell inp env).
Proof.
  rewrite /on_terminate_shell. apply safe_after; [calm|intros c].
  destruct (negb _); [apply calm_safe; calm_handler|].
  destruct (from_wire _) as [id|]; [|apply calm_safe; calm].
  apply safe_after; [calm|intros a].
  match goal with |- safe (if ?b then _ else _) => destruct b end; [|apply calm_safe; calm_handler].
  apply safe_then; [|calm_handler]. apply safe_with_manager_opt => m. by apply terminate_total.
Qed.

(** The integers of a decoded message are within their protobuf types. *)
Definition message_ok (m : Msg) : Prop :=
  match m with
  | MsgRequestHistory req =>
      0 ≤ rh_before_line_id req ≤ u64_max ∧ 0 ≤ rh_maximum_lines req ≤ u32_max
  | _ => True
  end.

Lemma safe_on_message inp ch env m : message_ok m → safe (on_message H inp ch env m).
Proof.
  intros Hm. rewrite /on_message /on_control /on_channel /unexpected /on_list_servers /on_list_shells
    /open_forward /on_upload_chunk /on_finish_upload /on_abort_upload /invalid_argument.
  destruct m; destruct (ch =? 0);
    first [ apply safe_open_shell | apply safe_terminate_shell | apply safe_attach_shell
          | apply safe_terminal_input | apply safe_terminal_resize | apply safe_detach_shell
          | by apply safe_request_history; apply Hm
          | apply calm_safe; first [ apply calm_authenticate | apply calm_hello
                                   | apply calm_begin_upload | calm_handler ] ].
Qed.

End dispatch.
