(* ===== verification/ConnWitness.v ===== *)
(** * Concrete runs of a connection

    Minimal verifiers and error texts for the parameters of [Conn], and the
    properties of [ConnProps] and [ConnTotal] on them. *)
From S2P Require Import Prelude Protocol Auth Ids Observability Negotiate History TerminalModel Launch SessionCore SessionSteps SessionProps SessionWitness RateLimiter UploadProto UploadStore Uploads Forward Conn ConnProps ConnTotal.

#[local] Existing Instances toy_pty toy_hash echo_vt.

(** A grant is valid when it is the single byte 7; every key and signature is
    refused; the password is the user's name. *)
Definition toy_claims : GrantClaims := {|
  sub := lit "bob"; aud := lit "aud"; servers := []; ops := [lit "open"]; iat_ms := 0;
  exp_ms := 5000; jti := [] |}.
#[local] Instance toy_auth : AuthOps := {|
  SshVerifier := unit;
  verify_grant g _ _ := if bool_decide (g = [Byte.x07]) then Ok toy_claims else Err GrantInvalid;
  issue_grant _ := [Byte.x07];
  ssh_is_authorized _ _ := false;
  ssh_verify_response _ _ _ _ := false;
  password_verify u p := bool_decide (u = p) |}.

#[local] Instance toy_texts : ErrorText unit := {|
  pty_error_text _ := []; upload_error_text _ := []; negotiation_error_text _ := [] |}.

Definition toy_app : AppState := {|
  manager := toy_m1; rate_limiter := limiter_new rate_policy_default; auth_mode := SshKeys ∅;
  password_users := None; audience := lit "aud"; server_id := array_repeat 16 Byte.x01;
  upload_service := None; forwards_service := {| fs_users := ∅; fs_active := ∅ |}; audit := [] |}.

Definition toy_negotiated : Negotiated := {|
  ng_protocol_major := 0; ng_protocol_minor := 3; ng_capabilities := []; ng_max_frame_bytes := 65536;
  ng_max_datagram_bytes := 0 |}.

(** A connection that said hello, and one where bob presented his grant. *)
Definition toy_conn (auth : bool) : Conn := {|
  peer_ip := []; negotiated := Some toy_negotiated; authenticated := auth;
  user_id := if auth then lit "bob" else []; op_scope := None; channel_binding := [];
  pending_challenge := None; transport_datagrams := false;
  c_attachments := ∅; c_uploads := ∅; c_forwards := ∅ |}.
Definition toy_world (auth : bool) : World := {|
  app := toy_app; conn := toy_conn auth; sent := []; out_open := true; actors := ∅;
  next_actor := 0 |}.

Definition toy_inputs : Inputs := {|
  in_instant := 0; in_now_ms := 2000;
  in_fresh := {| fresh_token := tok Byte.x0b; fresh_id := array_repeat 16 Byte.x08;
                 fresh_now := 2000; thread_spawn := Ok () |};
  in_token := tok Byte.x0c; in_challenge := []; in_jti := array_repeat 16 Byte.x00;
  in_timeout := false |}.

Definition toy_envelope (id : bytes) (m : Msg) : Envelope :=
  {| env_request_id := 9; env_server_id := []; env_shell_id := id; env_message := Some m |}.

(** The world after a dispatch. *)
Definition after (w : World) (ch : Z) (env : Envelope) : World :=
  match dispatch toy_host toy_inputs ch env w with Some (w', _) => w' | None => w end.

Lemma after_eq w ch env r :
  snd <$> dispatch toy_host toy_inputs ch env w = Some r →
  dispatch toy_host toy_inputs ch env w = Some (after w ch env, r).
Proof. rewrite /after. destruct (dispatch _ _ _ _ _) as [[w' r']|]; [|done]. by intros [= ->]. Qed.

Definition grant_envelope : Envelope :=
  toy_envelope [] (MsgAuthenticate (Some (MConnectionGrant [Byte.x07]))).


(** Terminating alice's shell before, and as another user after,
    authentication. *)
Definition terminate_envelope : Envelope := toy_envelope (to_wire toy_id) MsgTerminateShell.

Lemma preauth_gate_witness :
  guarded (after (toy_world false) 0 terminate_envelope) = guarded (toy_world false).
Proof.
  assert (dispatch toy_host toy_inputs 0 terminate_envelope (toy_world false) =
          Some (after (toy_world false) 0 terminate_envelope, true)) as Hd
    by (apply after_eq; vm_compute; reflexivity).
  exact (proj1 (preauth_gate toy_host toy_inputs 0 terminate_envelope (toy_world false) _ true
                  eq_refl eq_refl Hd)).
Defined.

Lemma toy_inputs_ok : inputs_ok toy_inputs toy_m1.
Proof.
  split; [vm_compute; reflexivity|].
  apply (bool_decide_eq_true_1
           (map_Forall (λ _ e, next_attachment_id (runtime e) < u64_max) (shells toy_m1))).
  vm_compute. reflexivity.
Qed.

Lemma dispatch_isolation_witness :
  shells (manager (app (after (toy_world true) 0 terminate_envelope))) !! toy_id = Some toy_entry.
Proof.
  assert (dispatch toy_host toy_inputs 0 terminate_envelope (toy_world true) =
          Some (after (toy_world true) 0 terminate_envelope, true)) as Hd
    by (apply after_eq; vm_compute; reflexivity).
  destruct (dispatch_isolation toy_host toy_inputs 0 terminate_envelope (toy_world true) _ true
              toy_m1_reachable toy_inputs_ok Hd) as (_ & _ & Hf & _).
  apply Hf; [apply toy_m1_entry|]. split; [by vm_compute|by intros ch b; rewrite /= lookup_empty].
Defined.

(** The echo emulator gives back nothing on a resize. *)
Lemma toy_m1_room : models_room toy_m1.
Proof.
  intros id e Hl.
  have Hid : id = toy_id.
  { revert id e Hl. apply (bool_decide_eq_true_1 (map_Forall (λ id _, id = toy_id) (shells toy_m1))).
    vm_compute. reflexivity. }
  subst id. rewrite toy_m1_entry in Hl. injection Hl as <-. exists [].
  split_and!; [apply terminal_new_wf|by vm_compute|].
  intros c r v ls. simpl. case_match; [done|]. by intros [= _ <-].
Qed.

Definition history_envelope : Envelope :=
  toy_envelope (to_wire toy_id) (MsgRequestHistory
    {| rh_before_line_id := 0; rh_maximum_lines := 100; rh_maximum_bytes := 4096 |}).

