(* ===== verification/ConnAuth.v ===== *)
(** * The verifiers behind a connection

    The interface [AuthOps] of [Conn], discharged by [Auth]: the daemon holds
    one signer, verifies grants with its public key, and checks SSH challenge
    responses against each user's [authorized_keys]. What a verified credential
    proves, and that the grant a login hands out is a credential for the next
    connection. *)
From S2P Require Import Prelude PrefixCode Protocol Utf8 Auth Ids Observability Negotiate History TerminalModel Launch SessionCore SessionWitness RateLimiter UploadProto UploadStore Uploads Forward Conn ConnProps ConnWitness.

(** [String::from_utf8_lossy]: an incomplete tail becomes one U+FFFD. *)
Fixpoint lossy_loop (fuel : nat) (l : bytes) : str :=
  match fuel, l with
  | O, _ | _, [] => []
  | S fuel, _ =>
      match utf8_next l with
      | StepChar c n => c :: lossy_loop fuel (drop n l)
      | StepInvalid n => 0xFFFD :: lossy_loop fuel (drop n l)
      | StepIncomplete => [0xFFFD]
      end
  end.
Definition from_utf8_lossy (l : bytes) : str := lossy_loop (length l) l.

(** The daemon's verifiers: its signer, and a password backend. *)
Definition local_auth {K : GrantCrypto} {Q : SshCrypto} (signer : GrantSigner)
    (password : str → str → bool) : AuthOps := {|
  Conn.SshVerifier := Auth.SshVerifier;
  verify_grant g audience now :=
    match grant_from_wire g with
    | Err _ => Err GrantMalformed
    | Ok grant => map_err (λ _, GrantInvalid) (verify (signer_verifier signer) grant audience now)
    end;
  issue_grant claims := grant_as_bytes (issue signer claims);
  ssh_is_authorized v k := is_ok (is_authorized v (from_utf8_lossy k));
  ssh_verify_response v cb ch sg := is_ok (verify_response v cb ch sg);
  password_verify := password |}.

(** ** Lemmas *)
Lemma land_bit z k : 0 ≤ k → (Z.land z (2 ^ k) =? 0) = negb (Z.testbit z k).
Proof.
  intros Hk. have -> : Z.land z (2 ^ k) = (if Z.testbit z k then 2 ^ k else 0).
  { apply Z.bits_inj' => i Hi. rewrite Z.land_spec Z.pow2_bits_eqb //.
    destruct (decide (k = i)) as [->|Hn].
    - rewrite Z.eqb_refl andb_true_r. destruct (Z.testbit z i) eqn:E; [|by rewrite Z.bits_0].
      by rewrite Z.pow2_bits_true.
    - rewrite (proj2 (Z.eqb_neq _ _)) // andb_false_r. case_match; [|by rewrite Z.bits_0].
      by rewrite Z.pow2_bits_false. }
  pose proof (Z.pow_pos_nonneg 2 k). destruct (Z.testbit z k); simpl; [|done].
  apply Z.eqb_neq. lia.
Qed.

Section ssh.
Context {Q : SshCrypto}.

(** What an identity says about the authenticator: for a security key, the
    flags byte has the presence bit and [user_verified] is its third bit. *)
Definition attests (sig : SshSig) (id : VerifiedIdentity) : Prop :=
  if is_security_key (sig_public_key sig) then
    ∃ flags att, security_key id = Some att ∧
      signature_bytes sig !! (length (signature_bytes sig) - 5)%nat = Some flags ∧
      (5 ≤ length (signature_bytes sig))%nat ∧
      Z.testbit (byte_Z flags) 0 = true ∧ user_verified att = Z.testbit (byte_Z flags) 2
  else security_key id = None.

Lemma sk_flags_Ok sig z :
  sk_flags sig = Ok z ↔
  ∃ b, (5 ≤ length (signature_bytes sig))%nat ∧ byte_Z b = z ∧
       signature_bytes sig !! (length (signature_bytes sig) - 5)%nat = Some b.
Proof.
  rewrite /sk_flags /SK_SIGNATURE_TRAILER /len.
  replace (Z.to_nat (Z.of_nat (length (signature_bytes sig)) - 5))
    with (length (signature_bytes sig) - 5)%nat by lia.
  case_match; to_prop; [split; [done|]; intros (? & ? & _); lia|].
  destruct (_ !! _) as [b|] eqn:E; simpl; [|split; [done|]; intros (? & ? & ? & ?); congruence].
  split.
  - intros [= <-]. exists b. split_and!; [lia|done|done].
  - intros (b' & _ & <- & [= <-]). done.
Qed.

Lemma verify_response_Ok v cb ch pem id :
  verify_response v cb ch pem = Ok id ↔
  ∃ sig key, sig_from_pem pem = Some sig ∧ sig_namespace sig = SSH_NAMESPACE ∧
    find_key (authorized v) (sig_public_key sig) = Some key ∧
    key_verify key SSH_NAMESPACE (channel_bound_message cb ch) sig = true ∧
    fingerprint id = key_fingerprint key ∧ attests sig id.
Proof.
  rewrite /verify_response /attests.
  destruct (sig_from_pem pem) as [sig|]; simpl; [|split; [done|]; intros (? & ? & ? & _); done].
  case_bool_decide as Hns; simpl; [|split; [done|]; intros (? & ? & [= <-] & ? & _); done].
  destruct (find_key _ _) as [key|] eqn:Ek; simpl;
    [|split; [done|]; intros (? & ? & [= <-] & _ & ? & _); congruence].
  destruct (key_verify _ _ _ _) eqn:Ev; simpl;
    [|split; [done|]; intros (? & ? & [= <-] & _ & E & ? & _); simplify_eq; congruence].
  destruct (is_security_key _) eqn:Es.
  - destruct (sk_flags sig) as [z|e] eqn:Ef.
    + apply sk_flags_Ok in Ef as (b & Hl & <- & Hb).
      rewrite /FIDO_FLAG_USER_PRESENT (land_bit _ 0) // /FIDO_FLAG_USER_VERIFIED (land_bit _ 2) //.
      destruct (Z.testbit (byte_Z b) 0) eqn:E0; simpl.
      * split.
        -- intros [= <-]. exists sig, key. rewrite Es negb_involutive. split_and!; try done. eauto 10.
        -- intros (? & ? & [= <-] & _ & E & _ & Hfp & Ha). rewrite Es in Ha.
           destruct Ha as (b' & att & Hatt & Hb' & _ & _ & Huv). rewrite Ek in E.
           simplify_eq. destruct id, att; simpl in *. by rewrite negb_involutive -Hfp -Huv -Hatt.
      * split; [done|]. intros (? & ? & [= <-] & _ & E & _ & Hfp & Ha). rewrite Es in Ha.
        destruct Ha as (b' & att & Hatt & Hb' & _ & H0 & _). rewrite Hb in Hb'. injection Hb' as <-.
        rewrite Z.bit0_odd in E0. congruence.
    + split; [done|]. intros (? & ? & [= <-] & _ & E & _ & Hfp & Ha). rewrite Es in Ha.
      destruct Ha as (b' & att & Hatt & Hb' & Hl & _).
      destruct (sk_flags_Ok sig (byte_Z b')) as [_ Hsk]. rewrite Hsk in Ef; [done|]. eauto.
  - split.
    + intros [= <-]. exists sig, key. rewrite Es. done.
    + intros (? & ? & [= <-] & _ & E & _ & Hfp & Ha). rewrite Es in Ha. rewrite Ek in E.
      destruct id; simpl in *. simplify_eq. done.
Qed.
End ssh.

(** ** Properties *)

(** C27: a challenge response is accepted exactly when its signature names a
    listed key (the first with that key material), is in the daemon's
    namespace, and verifies over the channel binding followed by the nonce;
    the listed key comes from an [authorized_keys] line without options; and a
    security key must have set the user-presence bit. *)
Theorem ssh_login_exact {Q : SshCrypto} text v cb ch pem :
  from_authorized_keys text = Ok v →
  (∀ key, key ∈ authorized v ↔ Some ([], key) ∈ parse_authorized_keys text) ∧
  ∀ id, verify_response v cb ch pem = Ok id ↔
    ∃ sig key, sig_from_pem pem = Some sig ∧ sig_namespace sig = SSH_NAMESPACE ∧
      find_key (authorized v) (sig_public_key sig) = Some key ∧
      key_verify key SSH_NAMESPACE (cb ++ ch) sig = true ∧
      fingerprint id = key_fingerprint key ∧ attests sig id.
Proof.
  rewrite /from_authorized_keys /from_keys. case_match; [done|]. intros [= <-]. simpl.
  split; [apply plain_keys_spec|]. intros id. apply verify_response_Ok.
Qed.

(** A grant is accepted exactly when it is payload and signature text
    around the first dot, the signature verifies over the decoded payload, and
    the payload's claims are for this audience, not expired, and issued no
    later than a minute from now (saturating at the largest [i64]). *)
Theorem grant_verify_exact {K : GrantCrypto} v g audience now c :
  verify v g audience now = Ok c ↔
  ∃ pb sb payload sig,
    g = pb ++ lit "." ++ sb ∧ 0x2E ∉ pb ∧
    b64_decode pb = Some payload ∧ b64_decode sb = Some (array_bytes sig) ∧
    ed_verify (verifying v) payload sig = true ∧ claims_from_json payload = Some c ∧
    aud c = audience ∧ now < exp_ms c ∧ iat_ms c ≤ Z.max i64_min (Z.min i64_max (now + 60000)).
Proof.
  rewrite verify_Ok. split; intros (pb & sb & payload & sig & H); exists pb, sb, payload, sig.
  - destruct H as [[-> Hn]%split_once_Some H]. done.
  - destruct H as (-> & Hn & H). split; [by apply (split_once_app 0x2E)|]. done.
Qed.

Section login.
Context {V : VtOps} {P : PtyOps} {S : HashOps} {B : UploadBackend} {T : ErrorText PtyError}
        {K : GrantCrypto} {L : GrantCryptoLaws K} {Q : SshCrypto}
        (signer : GrantSigner) (password : str → str → bool).
#[local] Instance the_auth : AuthOps := local_auth signer password.

(** The grant a successful SSH or password login returns is a credential
    for any later connection to the same audience: presented within the twelve
    hours (and at most a minute before it was issued), it authenticates the
    same user with every operation allowed, and the reply says so. *)
Theorem login_grant_reusable inp rid user mt (w w1 : World) b :
  succeed_issuing_grant inp rid user mt w = Some (w1, b) → out_open w = true →
  i64_min ≤ in_now_ms inp ∧ in_now_ms inp + 12 * 3600 * 1000 ≤ i64_max →
  ∃ env grant, sent w1 = sent w ++ [(0, env)] ∧
    env_message env = Some (MsgAuthenticationResult {|
      ar_ok := true; ar_user_id := user; ar_expires_at_ms := in_now_ms inp + 12 * 3600 * 1000;
      ar_error_code := 0; ar_error_message := []; ar_challenge := grant |}) ∧
    ∀ inp' rid' (w' : World),
      audience (app w') = audience (app w) →
      in_now_ms inp - 60000 ≤ in_now_ms inp' < in_now_ms inp + 12 * 3600 * 1000 →
      ∃ w2, handle_grant inp' rid' grant w' = Some (w2, out_open w') ∧
        authenticated (conn w2) = true ∧ user_id (conn w2) = user ∧ op_scope (conn w2) = None.
Proof.
  intros Hrun Ho Hnow. rewrite /succeed_issuing_grant /authenticate_as /record in Hrun.
  cbv [bindM get modify_conn modify_app ret send] in Hrun. rewrite /= Ho in Hrun.
  injection Hrun as <- <-. simpl. eexists _, _. split; [done|]. split; [|].
  { simpl. do 4 f_equal. rewrite /sat_i64. lia. }
  intros inp' rid' w' Ha Ht. rewrite /handle_grant /bindM /get /verify_grant /the_auth /local_auth.
  rewrite grant_wire_roundtrip issue_verifies; simpl; [|done|rewrite /sat_i64; lia|].
  - rewrite /send /=. case_match; by eexists.
  - rewrite /sat_i64 /CLOCK_SKEW_MS. lia.
Qed.
End login.

(** ** Concrete verifiers

    Hexadecimal for base64, the countable encoding for JSON, a signature that
    repeats the first byte of the message. *)
Definition claims_tuple (c : GrantClaims) :=
  (sub c, aud c, servers c, ops c, iat_ms c, exp_ms c, jti c).
Definition tuple_claims '(s, a, sv, o, i, e, j) : GrantClaims := {|
  sub := s; aud := a; servers := sv; ops := o; iat_ms := i; exp_ms := e; jti := j |}.

Fixpoint unhex (l : list Z) : option bytes :=
  match l with
  | [] => Some []
  | a :: b :: l => v ← radix16 (Z_byte a) (Z_byte b); vs ← unhex l; Some (v :: vs)
  | _ => None
  end.

Lemma unhex_hex l : unhex (hex_bytes l) = Some l.
Proof.
  rewrite /hex_bytes. induction l as [|b l IH]; [done|].
  simpl in *. rewrite radix16_hex. simpl. by rewrite IH.
Qed.

Lemma hex_no_dot l : Forall (λ c, is_ascii c = true ∧ c ≠ 0x2E) (hex_bytes l).
Proof.
  pose proof (hex_bytes_ascii l) as Ha. rewrite /hex_bytes in Ha |- *.
  induction l as [|b l IH]; simpl in *; [constructor|].
  rewrite !Forall_cons in Ha. destruct Ha as (Ha & Hb & Hl).
  pose proof (byte_Z_range b).
  pose proof (hex_digit_ascii (byte_Z b / 16) ltac:(zlia)).
  pose proof (hex_digit_ascii (byte_Z b mod 16) ltac:(zlia)).
  repeat constructor; try done; [lia|lia|by apply IH].
Qed.

Definition toy_sign (msg : bytes) : array 64 := array_repeat 64 (default Byte.x00 (head msg)).

#[local] Instance toy_grant_crypto : GrantCrypto := {|
  SigningKey := unit; VerifyingKey := unit;
  signing_from_bytes _ := (); verifying_key _ := ();
  verifying_from_bytes _ := Some (); verifying_to_bytes _ := array_repeat 32 Byte.x00;
  ed_sign _ := toy_sign; ed_verify _ msg sig := bool_decide (sig = toy_sign msg);
  b64_encode := hex_bytes; b64_decode := unhex;
  claims_to_json c := pos_bytes (encode (claims_tuple c));
  claims_from_json l := tuple_claims <$> countable.decode (bytes_pos l) |}.

#[local] Instance toy_grant_laws : GrantCryptoLaws toy_grant_crypto.
Proof.
  split; simpl.
  - intros. by apply bool_decide_eq_true.
  - apply unhex_hex.
  - apply hex_no_dot.
  - intros [s a sv o i e j]. rewrite bytes_pos_bytes decode_encode //.
Qed.

(** Keys are numbers, odd ones on security keys; the signature is its key's
    number, then the flags and the counter; it verifies over any message that
    is not empty. *)
#[local] Instance toy_ssh_crypto : SshCrypto := {|
  PublicKey := Z; KeyData := Z; SshSig := bytes;
  key_data k := k;
  key_algorithm k := if Z.odd k then SkEd25519 else OtherAlgorithm;
  key_fingerprint k := dec_str k;
  key_verify _ _ msg _ := negb (is_empty msg);
  from_openssh s := parse_uint 255 s;
  sig_from_pem l := if is_empty l then None else Some l;
  sig_namespace _ := SSH_NAMESPACE;
  sig_public_key l := from_option byte_Z 0 (head l);
  signature_bytes l := l;
  parse_authorized_keys s := [Some ([lit "restrict"], 2); None; Some ([], 3)] |}.

Definition toy_verifier : Auth.SshVerifier := @Build_SshVerifier toy_ssh_crypto [3].

Lemma ssh_login_exact_witness :
  ∃ v, from_authorized_keys [] = Ok v ∧
    verify_response v [Byte.x09] [] [Byte.x03; Byte.x01; Byte.x00; Byte.x00; Byte.x00; Byte.x00] =
      Ok {| fingerprint := lit "3"; security_key := Some {| user_verified := false |} |} ∧
    (∃ key, key ∈ authorized v ∧ Some ([], key) ∈ parse_authorized_keys []).
Proof.
  exists toy_verifier. assert (from_authorized_keys [] = Ok toy_verifier) as Hk.
  { reflexivity. }
  destruct (ssh_login_exact [] _ [Byte.x09] []
              [Byte.x03; Byte.x01; Byte.x00; Byte.x00; Byte.x00; Byte.x00] Hk) as [Hp Hv].
  split; [done|]. split.
  - apply Hv. exists [Byte.x03; Byte.x01; Byte.x00; Byte.x00; Byte.x00; Byte.x00], 3.
    split_and!; try reflexivity. unfold attests.
    exists Byte.x01, {| user_verified := false |}. split_and!; [done|done|simpl; lia|done|done].
  - assert ((3 : PublicKey) ∈ authorized toy_verifier) as Hin by apply list_elem_of_here.
    exists 3. split; [exact Hin|]. by apply Hp.
Defined.

Definition toy_signer : GrantSigner := {| signing := () |}.
#[local] Instance toy_local_auth : AuthOps := local_auth toy_signer (λ u p, bool_decide (u = p)).
#[local] Existing Instances toy_pty toy_hash echo_vt.
#[local] Instance toy_text : ErrorText unit := {|
  pty_error_text _ := []; upload_error_text _ := []; negotiation_error_text _ := [] |}.

Definition login_app : AppState := {|
  manager := toy_m1; rate_limiter := limiter_new rate_policy_default; auth_mode := SshKeys ∅;
  password_users := None; audience := lit "aud"; server_id := array_repeat 16 Byte.x01;
  upload_service := None; forwards_service := {| fs_users := ∅; fs_active := ∅ |}; audit := [] |}.
Definition login_world : World := {|
  app := login_app; conn := toy_conn false; sent := []; out_open := true; actors := ∅;
  next_actor := 0 |}.
Definition login_run := succeed_issuing_grant toy_inputs 5 (lit "bob") AmSshKey login_world.

Lemma login_grant_reusable_witness :
  ∃ w1 b grant w2, login_run = Some (w1, b) ∧
    handle_grant toy_inputs 6 grant login_world = Some (w2, true) ∧ user_id (conn w2) = lit "bob".
Proof.
  destruct login_run as [[w1 b]|] eqn:E; [|exfalso]; last first.
  { cbv [login_run succeed_issuing_grant authenticate_as record bindM get modify_conn modify_app ret
         send out_open login_world] in E. discriminate E. }
  destruct (login_grant_reusable toy_signer (λ u p, bool_decide (u = p)) toy_inputs 5 (lit "bob")
              AmSshKey login_world w1 b E eq_refl) as (env & grant & _ & _ & Hg).
  { by vm_compute. }
  destruct (Hg toy_inputs 6 login_world eq_refl ltac:(by vm_compute)) as (w2 & Hr & _ & Hu & _).
  exists w1, b, grant, w2. split; [done|]. split; [exact Hr|exact Hu].
Defined.
