(* ===== verification/AgentWitness.v ===== *)
(** * Concrete runs of the managed-server link

    A prefix code for [AgentEnvelope] that reads back what it writes, toy
    signatures, and the properties of [GatewayProps], [AgentProps] and
    [AgentLink] on runs with them. *)
From S2P Require Import Prelude PrefixCode Protocol Framing AgentWire Auth Ids History TerminalModel Launch SessionCore SessionSteps SessionProps SessionWitness Gateway GatewayProps Agent AgentProps AgentLink ConnAuth.

(** ** A code for envelopes *)
Definition msg_parts (m : option AgentMsg) : Parts :=
  match m with
  | None => (0, [], [], [], [])
  | Some (AgRegister m) =>
      (1, [reg_protocol_major m; reg_protocol_minor m; reg_max_frame_bytes m], [],
       [reg_server_id m], [reg_agent_build m])
  | Some (AgRegistration m) =>
      (2, [rn_max_frame_bytes m; rn_keepalive_interval_ms m], [rn_accepted m], [rn_server_id m],
       [rn_rejection_reason m])
  | Some (AgPing n) => (3, [n], [], [], [])
  | Some (AgPong n) => (4, [n], [], [], [])
  | Some (AgError m) => (5, [err_code m], [err_retryable m], [], [err_human_message m])
  | Some (AgOpenShell m) =>
      (6, [ao_initial_cols m; ao_initial_rows m], [],
       [ao_idempotency_key m; ao_connection_grant m], [ao_user_id m; ao_unix_account m; ao_command m])
  | Some (AgShellOpened m) => (7, [], [aso_reused m], [aso_shell_id m], [])
  | Some (AgAttachShell m) => (8, [aa_cols m; aa_rows m], [], [aa_connection_grant m], [aa_user_id m])
  | Some (AgShellAttached m) =>
      (9, [asa_screen_revision m; asa_oldest_history_line_id m; asa_newest_history_line_id m], [],
       [asa_screen_snapshot m], [])
  | Some (AgTerminalInput d) => (10, [], [], [d], [])
  | Some (AgTerminalOutput d) => (11, [], [], [d], [])
  | Some (AgTerminalResize c r) => (12, [c; r], [], [], [])
  | Some AgDetachShell => (13, [], [], [], [])
  | Some (AgRequestHistory m) =>
      (14, [rh_before_line_id m; rh_maximum_lines m; rh_maximum_bytes m], [], [], [])
  | Some (AgHistoryChunk m) => (15, [hc_first_line_id m], [hc_truncated_by_eviction m], [], hc_lines m)
  | Some (AgHistoryEnd o) => (16, [o], [], [], [])
  | Some (AgShellExited m) => (17, [se_exit_code m], [se_signaled m], [], [se_signal m])
  end.

Definition parts_msg (p : Parts) : option (option AgentMsg) :=
  match p with
  | (0, [], [], [], []) => Some None
  | (1, [a; b; c], [], [s], [t]) => Some (Some (AgRegister {|
      reg_protocol_major := a; reg_protocol_minor := b; reg_server_id := s; reg_agent_build := t;
      reg_max_frame_bytes := c |}))
  | (2, [a; b], [ok], [s], [t]) => Some (Some (AgRegistration {|
      rn_accepted := ok; rn_server_id := s; rn_max_frame_bytes := a; rn_keepalive_interval_ms := b;
      rn_rejection_reason := t |}))
  | (3, [n], [], [], []) => Some (Some (AgPing n))
  | (4, [n], [], [], []) => Some (Some (AgPong n))
  | (5, [c], [r], [], [t]) => Some (Some (AgError {|
      err_code := c; err_human_message := t; err_retryable := r |}))
  | (6, [c; r], [], [k; g], [u; a; cmd]) => Some (Some (AgOpenShell {|
      ao_user_id := u; ao_unix_account := a; ao_command := cmd; ao_initial_cols := c;
      ao_initial_rows := r; ao_idempotency_key := k; ao_connection_grant := g |}))
  | (7, [], [r], [s], []) => Some (Some (AgShellOpened {| aso_shell_id := s; aso_reused := r |}))
  | (8, [c; r], [], [g], [u]) => Some (Some (AgAttachShell {|
      aa_user_id := u; aa_connection_grant := g; aa_cols := c; aa_rows := r |}))
  | (9, [a; b; c], [], [s], []) => Some (Some (AgShellAttached {|
      asa_screen_snapshot := s; asa_screen_revision := a; asa_oldest_history_line_id := b;
      asa_newest_history_line_id := c |}))
  | (10, [], [], [d], []) => Some (Some (AgTerminalInput d))
  | (11, [], [], [d], []) => Some (Some (AgTerminalOutput d))
  | (12, [c; r], [], [], []) => Some (Some (AgTerminalResize c r))
  | (13, [], [], [], []) => Some (Some AgDetachShell)
  | (14, [a; b; c], [], [], []) => Some (Some (AgRequestHistory {|
      rh_before_line_id := a; rh_maximum_lines := b; rh_maximum_bytes := c |}))
  | (15, [f], [tr], [], ls) => Some (Some (AgHistoryChunk {|
      hc_first_line_id := f; hc_lines := ls; hc_truncated_by_eviction := tr |}))
  | (16, [o], [], [], []) => Some (Some (AgHistoryEnd o))
  | (17, [c], [sg], [], [t]) => Some (Some (AgShellExited {|
      se_exit_code := c; se_signaled := sg; se_signal := t |}))
  | _ => None
  end.

#[local] Arguments parts_msg : simpl never.

Lemma parts_msg_parts m : parts_msg (msg_parts m) = Some m.
Proof. by destruct m as [[[]|[]| | |[]|[]|[]|[]|[]| | | | |[]|[]| |[]]|]. Qed.

Definition toy_encode (e : AgentEnvelope) : bytes :=
  put_Z (ae_request_id e) ++ put_bytes (ae_server_id e) ++ put_bytes (ae_shell_id e) ++
  put_parts (msg_parts (ae_message e)).

Definition toy_decode (l : bytes) : option AgentEnvelope :=
  '(rid, l) ← get_Z l; '(srv, l) ← get_bytes l; '(sh, l) ← get_bytes l;
  parts ← get_parts l; m ← parts_msg parts;
  Some {| ae_request_id := rid; ae_server_id := srv; ae_shell_id := sh; ae_message := m |}.

#[local] Instance toy_prost : ProstMessage AgentEnvelope :=
  {| prost_encode := toy_encode; prost_decode := toy_decode |}.

#[local] Instance toy_prost_roundtrip : ProstRoundtrip AgentEnvelope.
Proof.
  intros [rid srv sh m]. cbn [prost_decode prost_encode toy_prost]. rewrite /toy_encode /toy_decode.
  cbn [ae_message ae_request_id ae_server_id ae_shell_id].
  rewrite get_put_Z /= get_put_bytes /= get_put_bytes /= get_put_parts /= parts_msg_parts //.
Qed.

(** ** A gateway run: authorise, accept, register *)
#[local] Existing Instances toy_pty toy_hash echo_vt.

Definition toy_sid : ServerId := array_repeat 16 Byte.x05.
Definition toy_leaf : bytes := replicate 32 Byte.x09.
Definition toy_connection : Connection := {| peer_identity := Some (CertChain [toy_leaf]) |}.
Definition toy_registry : CertificateRegistry :=
  {| identities := ∅; active := ∅; max_identities := 4; max_active_agents := 2 |}.
Definition toy_registration : RegistrationRequest := {|
  rr_server_id := toy_sid; rr_agent_build := lit "0.1"; rr_max_frame_bytes := 16384 |}.

(** The state after an operation that is enabled. *)
Definition enabled {A} (o : option A) : bool := match o with Some _ => true | None => false end.
Definition gnext (g : GatewayState) (o : gop) : GatewayState := default g (gexec g o).
Lemma gnext_step g o : enabled (gexec g o) = true → gstep g (gnext g o).
Proof. rewrite /gnext. intros He. exists o. by destruct (gexec g o). Qed.

Definition toy_g1 : GatewayState := gnext (ginit toy_registry) (GAuthorize toy_sid toy_leaf).
Definition toy_g2 : GatewayState := gnext toy_g1 (GBegin 1 true (Ready (Ok toy_connection))).
Definition toy_g3 : GatewayState :=
  gnext toy_g2 (GFinish 1 (Ready (Ok (fresh_send, delivers (register_envelope toy_registration)))) false).

Lemma toy_g3_run : rtc gstep (ginit toy_registry) toy_g3.
Proof.
  apply (rtc_l _ _ toy_g1); [by apply gnext_step; vm_compute|].
  apply (rtc_l _ _ toy_g2); [by apply gnext_step; vm_compute|].
  apply rtc_once, gnext_step. by vm_compute.
Qed.

Lemma gateway_leases_witness :
  active_count (gs_registry toy_g3) = 1 ∧ toy_sid ∈ active (gs_registry toy_g3).
Proof.
  assert (greachable toy_g3) as Hr.
  { exists 4, 2, toy_registry. split_and!; [done|done|reflexivity|apply toy_g3_run]. }
  destruct (gateway_leases toy_g3 Hr) as (Ha & _ & Hc & _).
  split; [rewrite Hc; by vm_compute|]. apply Ha.
  assert (match gs_agents toy_g3 !! 1 with Some a => bool_decide (ra_server_id a = toy_sid)
                                         | None => false end = true) as E by (by vm_compute).
  destruct (gs_agents toy_g3 !! 1) as [a|] eqn:Ea; [|discriminate E].
  exists 1, a. split; [exact Ea|]. by apply bool_decide_eq_true in E.
Defined.

Lemma agent_identity_bound_witness :
  identities (gs_registry toy_g3) !! from_leaf_der toy_leaf = Some toy_sid ∧
  ∀ g', gexec toy_g3 (GDrop 1) = Some g' →
    identities (gs_registry g') !! from_leaf_der toy_leaf = Some toy_sid.
Proof.
  assert (identities (gs_registry toy_g3) !! from_leaf_der toy_leaf = Some toy_sid) as E
    by (by vm_compute).
  split; [exact E|]. intros g' Hg.
  apply (proj2 (agent_identity_bound toy_registry toy_g3 toy_g3_run) (GDrop 1) g' _ _ Hg E).
  discriminate.
Defined.

Lemma handshake_agreement_witness :
  ∃ a link, snd (snd (accept_finish (gs_registry toy_g1) toy_connection (Some toy_sid)
      (Ready (Ok (fresh_send, delivers (register_envelope toy_registration)))) false)) = Ok a ∧
    rl_server_id link = toy_sid ∧ ra_server_id a = toy_sid ∧
    rl_max_frame_bytes link = ra_max_frame_bytes a.
Proof.
  pose proof (handshake_agreement (gs_registry toy_g1) toy_connection (Some toy_sid) toy_sid
                (lit "0.1") toy_registration) as Hh.
  specialize (Hh ltac:(reflexivity) ltac:(vm_compute; discriminate) ltac:(vm_compute; discriminate)).
  specialize (Hh ltac:(repeat (apply Forall_cons_2; [vm_compute; discriminate|]); apply Forall_nil_2)).
  destruct (accept_finish _ _ _ _ _) as [r' [sv x]]. cbn [snd] in *.
  destruct Hh as [Hm Hx]. destruct Hx as [a ->]; [reflexivity| |by vm_compute|].
  { rewrite -(bool_decide_eq_false). by vm_compute. }
  destruct sv as [sv|]; [|done]. destruct Hm as (link & _ & H1 & H2 & _ & H3 & _).
  exists a, link. split_and!; done.
Defined.

(** ** An agent with a valid grant *)
#[local] Instance link_crypto : GrantCrypto := {|
  SigningKey := unit; VerifyingKey := unit;
  signing_from_bytes _ := (); verifying_key _ := ();
  verifying_from_bytes _ := Some (); verifying_to_bytes _ := array_repeat 32 Byte.x00;
  ed_sign _ := toy_sign; ed_verify _ msg sig := bool_decide (sig = toy_sign msg);
  b64_encode := hex_bytes; b64_decode := unhex;
  claims_to_json c := put_str (sub c) ++ put_str (aud c) ++ put_list put_str (servers c) ++
    put_list put_str (ops c) ++ put_Z (iat_ms c) ++ put_Z (exp_ms c) ++ put_str (jti c);
  claims_from_json l :=
    '(s, l) ← get_str l; '(a, l) ← get_str l; '(sv, l) ← get_list get_str l;
    '(o, l) ← get_list get_str l; '(i, l) ← get_Z l; '(e, l) ← get_Z l; '(j, _) ← get_str l;
    Some {| sub := s; aud := a; servers := sv; ops := o; iat_ms := i; exp_ms := e; jti := j |} |}.

Definition link_verifier : GrantVerifier := {| verifying := () |}.
Definition alice_grant : bytes := grant_as_bytes (issue {| signing := () |} {|
  sub := alice; aud := lit "aud"; servers := [display SERVER_PREFIX toy_sid]; ops := [];
  iat_ms := 0; exp_ms := 9000; jti := [] |}).

Definition toy_link : RegisteredLink := {|
  rl_send := fresh_send; rl_recv := {| arriving := []; rx_lost := false |}; rl_server_id := toy_sid;
  rl_max_frame_bytes := 16384; rl_keepalive_interval_ms := 10000 |}.
Definition toy_agent : RegisteredAgent := {|
  ra_connection := toy_connection; ra_send := fresh_send;
  ra_recv := {| arriving := []; rx_lost := false |}; ra_server_id := toy_sid;
  ra_max_frame_bytes := 16384; ra_next_request_id := 1; ra_lease := toy_sid |}.
Definition toy_shell_request : AgentShellRequest := {|
  sq_user_id := alice; sq_connection_grant := alice_grant; sq_unix_account := None;
  sq_command := None; sq_cols := 80; sq_rows := 24; sq_idempotency_key := array_repeat 16 Byte.x01 |}.
Definition toy_agent_inputs : AgentInputs :=
  {| ai_now_ms := 1000; ai_fresh := toy_fresh; ai_token := tok Byte.x0c |}.

Definition toy_open_request : AgentEnvelope := open_envelope 1 toy_sid toy_shell_request.
Definition toy_served := serve_next toy_host link_verifier (lit "aud") toy_agent_inputs
  (link_gets toy_link toy_open_request) toy_m0.

Lemma toy_served_action :
  (snd <$> (snd <$> toy_served)) = Some (Ok (AaShellOpened toy_id false)).
Proof. vm_compute. reflexivity. Qed.

Lemma open_shell_end_to_end_witness :
  ∃ m' l' a', toy_served = Some (m', (l', Ok (AaShellOpened toy_id false))) ∧
    gateway_open_shell (agent_gets toy_agent (received (rl_send toy_link) (rl_send l'))) toy_shell_request =
      (a', Ok {| os_shell_id := toy_id; os_reused := false |}).
Proof.
  pose proof toy_served_action as Ha.
  destruct toy_served as [[m' [l' r]]|] eqn:E; [|discriminate Ha]. injection Ha as ->.
  destruct (open_shell_end_to_end toy_host link_verifier (lit "aud") toy_agent_inputs toy_agent
              toy_link toy_m0 toy_shell_request m' l' _ eq_refl eq_refl
              ltac:(split; vm_compute; discriminate) eq_refl
              ltac:(vm_compute; discriminate) E) as (a' & x & Hg & _ & -> & _).
  exists m', l', a'. split; [reflexivity|exact Hg].
Defined.

(** ** Attaching to alice's shell, and losing the link *)
Definition toy_attach_request : AgentAttachmentRequest := {|
  aq_user_id := alice; aq_connection_grant := alice_grant; aq_cols := 0; aq_rows := 0 |}.
Definition toy_a0 : AgentState := {| ag_manager := toy_m1; ag_link := None; ag_tasks := ∅ |}.
Definition toy_accept : aop :=
  AAccept 7 toy_agent_inputs fresh_send (delivers (attach_envelope toy_sid toy_id toy_attach_request))
    true.

Definition toy_aexec := aexec toy_host link_verifier (lit "aud").
Definition anext (g : AgentState) (o : aop) : AgentState := default g (toy_aexec g o).
Lemma anext_step g o :
  aop_ok toy_sid g o → enabled (toy_aexec g o) = true → astep toy_host link_verifier (lit "aud") toy_sid g (anext g o).
Proof.
  rewrite /anext. intros Hok He. exists o. split; [done|]. rewrite -/toy_aexec.
  by destruct (toy_aexec g o).
Qed.

Definition toy_a1 : AgentState := anext toy_a0 (AConnected toy_link).
Definition toy_a2 : AgentState := anext toy_a1 toy_accept.

Lemma toy_a2_reachable : areachable toy_host link_verifier (lit "aud") toy_sid toy_a2.
Proof.
  exists toy_m1. split; [apply toy_m1_reachable|].
  apply (rtc_l _ _ toy_a1); [by apply (anext_step toy_a0 (AConnected toy_link))|].
  apply rtc_once, anext_step; [|by vm_compute].
  apply (bool_decide_eq_true_1
           (map_Forall (λ _ e, next_attachment_id (runtime e) < u64_max) (shells toy_m1))).
  by vm_compute.
Qed.

(** The task of the run. *)
Lemma toy_a2_task :
  ∃ t, ag_tasks toy_a2 !! 7 = Some t ∧ tk_user_id t = alice ∧ tk_shell_id t = toy_id.
Proof.
  assert (match ag_tasks toy_a2 !! 7 with
          | Some t => bool_decide (tk_user_id t = alice ∧ tk_shell_id t = toy_id)
          | None => false end = true) as E by (by vm_compute).
  destruct (ag_tasks toy_a2 !! 7) as [t|]; [|discriminate E]. exists t.
  by apply bool_decide_eq_true in E.
Qed.

Lemma agent_tasks_invariant_witness :
  Z.of_nat (base.size (ag_tasks toy_a2)) ≤ 64 ∧
  ∃ e, shells (ag_manager toy_a2) !! toy_id = Some e ∧ owner e = alice.
Proof.
  destruct (agent_tasks_invariant toy_host link_verifier (lit "aud") toy_sid toy_a2 toy_a2_reachable)
    as (Hb & _ & Ht & _).
  split; [exact Hb|]. destruct toy_a2_task as (t & Hk & Hu & Hs).
  destruct (Ht _ _ Hk) as [_ (e & He & Ho)]. exists e. rewrite -Hs -Hu. split; assumption.
Defined.

Lemma toy_a2_shell :
  ∃ e, shells (ag_manager toy_a2) !! toy_id = Some e ∧ state (runtime e) = Running.
Proof.
  assert (match shells (ag_manager toy_a2) !! toy_id with
          | Some e => match state (runtime e) with Running => true | _ => false end
          | None => false end = true) as E by (by vm_compute).
  destruct (shells (ag_manager toy_a2) !! toy_id) as [e|]; [|discriminate E]. exists e.
  by destruct (state (runtime e)).
Qed.


Lemma link_loss_detaches_witness :
  ∃ g', toy_aexec toy_a2 ALost = Some g' ∧ ag_tasks g' = ∅ ∧
    ∀ e, shells (ag_manager toy_a2) !! toy_id = Some e →
      ∃ rt', shells (ag_manager g') !! toy_id = Some (set_runtime e rt') ∧
             state rt' = state (runtime e) ∧ attachments rt' !! 1 = None.
Proof.
  assert (is_Some (ag_link toy_a2)) as Hl by (by vm_compute; eexists).
  destruct (link_loss_detaches toy_host link_verifier (lit "aud") toy_a2 Hl)
    as (g' & Hx & _ & Ht & Hs).
  exists g'. split; [exact Hx|]. split; [exact Ht|]. intros e He.
  destruct (Hs toy_id e He) as (rt' & H1 & H2 & _ & _ & _ & Ha). exists rt'. split_and!; [done|done|].
  rewrite Ha. destruct (decide _) as [|Hd]; [reflexivity|]. exfalso. apply Hd.
  apply (bool_decide_eq_true_1 _). by vm_compute.
Defined.

(** Input that a [select!] loses: output becomes ready after the read has taken
    the four header bytes of an input message. The branch of the read is dropped
    with what it read, so the loop then takes the start of the payload for a
    length and closes the attachment; without the output the input is accepted. *)
Definition toy_input : AgentEnvelope := {|
  ae_request_id := 2; ae_server_id := to_wire toy_sid; ae_shell_id := to_wire toy_id;
  ae_message := Some (AgTerminalInput [Byte.x6c; Byte.x73]) |}.
Definition toy_a3 : AgentState := anext toy_a1 (AAccept 7 toy_agent_inputs fresh_send
  {| arriving := arriving (delivers (attach_envelope toy_sid toy_id toy_attach_request)) ++
                 arriving (delivers toy_input); rx_lost := false |} true).
Definition toy_output : Select := SelEvent 4 (Some (Output [Byte.x24])).

Lemma dropped_read_closes_attachment :
  is_Some (ag_tasks (anext toy_a3 (ASelect 7 SelIncoming)) !! 7) ∧
  is_Some (ag_tasks (anext toy_a3 (ASelect 7 toy_output)) !! 7) ∧
  ag_tasks (anext (anext toy_a3 (ASelect 7 toy_output)) (ASelect 7 SelIncoming)) !! 7 = None.
Proof. split_and!; by vm_compute; eexists. Qed.
