(* ===== verification/ClientStore.v ===== *)
(** * The desktop client's store

    [crates/client-core/src/store.rs] (the unix build): servers, remembered
    grants, resume tokens, idempotency keys and the journal of pending opens,
    kept in memory and in one JSON file that is replaced by write, sync and
    rename. The disk has names, inodes and what a power loss may bring back; each
    system call takes one entry of a schedule, so that it can proceed, fail or be
    the last thing the process does. *)
From S2P Require Import Prelude Ids.

Definition STORE_VERSION : Z := 3.
Definition MAX_STATE_BYTES : Z := 8 * 1024 * 1024.

(** ** Data *)
Record PendingOpen := { po_key : str; po_name : str }.

Record ShellRecord := {
  sr_token : str;
  sr_idempotency_key : option str;
  sr_name : str;
  sr_last_attached_at_ms : Z;
}.

Record ServerRecord := {
  sv_url : str;
  sv_display_name : str;
  sv_username : option str;
  sv_ssh_key_path : option str;
  sv_remember_login : bool;
  sv_grant : option str;
  sv_shells : gmap str ShellRecord;
  sv_pending_opens : list PendingOpen;
}.

Record StoreData := { sd_version : Z; sd_servers : gmap str ServerRecord }.

Definition store_data_default : StoreData := {| sd_version := STORE_VERSION; sd_servers := ∅ |}.

#[export] Instance pending_open_eq_dec : EqDecision PendingOpen.
Proof. solve_decision. Defined.
#[export] Instance shell_record_eq_dec : EqDecision ShellRecord.
Proof. solve_decision. Defined.
#[export] Instance server_record_eq_dec : EqDecision ServerRecord.
Proof. solve_decision. Defined.
#[export] Instance store_data_eq_dec : EqDecision StoreData.
Proof. solve_decision. Defined.

Definition with_servers (d : StoreData) (s : gmap str ServerRecord) : StoreData :=
  {| sd_version := sd_version d; sd_servers := s |}.
Definition with_grant (s : ServerRecord) (g : option str) : ServerRecord := {|
  sv_url := sv_url s; sv_display_name := sv_display_name s; sv_username := sv_username s;
  sv_ssh_key_path := sv_ssh_key_path s; sv_remember_login := sv_remember_login s; sv_grant := g;
  sv_shells := sv_shells s; sv_pending_opens := sv_pending_opens s |}.
Definition with_remember (s : ServerRecord) (r : bool) : ServerRecord := {|
  sv_url := sv_url s; sv_display_name := sv_display_name s; sv_username := sv_username s;
  sv_ssh_key_path := sv_ssh_key_path s; sv_remember_login := r; sv_grant := sv_grant s;
  sv_shells := sv_shells s; sv_pending_opens := sv_pending_opens s |}.
Definition with_shells (s : ServerRecord) (m : gmap str ShellRecord) : ServerRecord := {|
  sv_url := sv_url s; sv_display_name := sv_display_name s; sv_username := sv_username s;
  sv_ssh_key_path := sv_ssh_key_path s; sv_remember_login := sv_remember_login s;
  sv_grant := sv_grant s; sv_shells := m; sv_pending_opens := sv_pending_opens s |}.
Definition with_pending (s : ServerRecord) (p : list PendingOpen) : ServerRecord := {|
  sv_url := sv_url s; sv_display_name := sv_display_name s; sv_username := sv_username s;
  sv_ssh_key_path := sv_ssh_key_path s; sv_remember_login := sv_remember_login s;
  sv_grant := sv_grant s; sv_shells := sv_shells s; sv_pending_opens := p |}.

(** The state file of the command-line client, as far as it is imported. *)
Record V1Shell := { v1_token : str; v1_name : str; v1_idempotency_key : option str }.
Record V1State := { v1_servers : gmap str (gmap str V1Shell); v1_grants : gmap str str }.

(** ** The libraries

    [serde_json]: [store_chunks] is the sequence of writes of [to_writer] ([None]:
    the value has no encoding). [base64] is the standard alphabet with padding. *)
Class StoreJson := {
  store_chunks : StoreData → option (list bytes);
  store_parse : bytes → option StoreData;
  v1_parse : bytes → option V1State;
}.

Class StoreJsonLaws {J : StoreJson} : Prop :=
  store_json_roundtrip d cs : store_chunks d = Some cs → store_parse (concat cs) = Some d.
Arguments StoreJsonLaws J : clear implicits.

Class Base64 := { b64_encode : bytes → str; b64_decode : str → option bytes }.
Class Base64Laws {B : Base64} : Prop := b64_roundtrip b : b64_decode (b64_encode b) = Some b.
Arguments Base64Laws B : clear implicits.

(** ** The disk *)
Record Inode := { content : bytes; synced : bool }.

(** What happens at a system call: it proceeds; fails, a write after [wrote]
    bytes; or the process dies in it, before or after its effect. *)
Inductive Sched := Proceed | Refuse (errno : Z) (wrote : nat) | Die (wrote : nat) (took_effect : bool).

(** [survivors] are earlier states of the directory that a power loss may bring
    back, since nothing syncs the directory. *)
Record ClientDisk := {
  names : gmap str nat;
  survivors : list (gmap str nat);
  inodes : gmap nat Inode;
  next_inode : nat;
  schedule : list Sched;
}.

Inductive StoreErr :=
  | SIo (errno : Z)
  | STooLarge
  | SSerialize
  | SInvalid
  | SNewerSchema (version : Z)
  | SUnknownServer.

#[export] Instance store_err_eq_dec : EqDecision StoreErr.
Proof. solve_decision. Defined.

(** A call returns, fails, or the process dies in it. *)
Inductive exec (A : Type) := Returns (a : A) | Throws (e : StoreErr) | Dies.
Arguments Returns {A} a.
Arguments Throws {A} e.
Arguments Dies {A}.

Definition io (A : Type) : Type := ClientDisk → ClientDisk * exec A.
Definition ret_io {A} (a : A) : io A := λ d, (d, Returns a).
Definition throw_io {A} (e : StoreErr) : io A := λ d, (d, Throws e).
Definition bind_io {A B} (m : io A) (k : A → io B) : io B := λ d,
  match m d with
  | (d, Returns a) => k a d
  | (d, Throws e) => (d, Throws e)
  | (d, Dies) => (d, Dies)
  end.

Notation "'do!' x <- e ; k" := (bind_io e (λ x, k))
  (at level 100, x pattern, e at next level, k at level 200, right associativity) : rust_scope.

Definition set_schedule (d : ClientDisk) (s : list Sched) : ClientDisk := {|
  names := names d; survivors := survivors d; inodes := inodes d; next_inode := next_inode d;
  schedule := s |}.
Definition set_inode (d : ClientDisk) (i : nat) (n : Inode) : ClientDisk := {|
  names := names d; survivors := survivors d; inodes := <[i := n]> (inodes d);
  next_inode := next_inode d; schedule := schedule d |}.

(** A change of the directory. *)
Definition set_names (d : ClientDisk) (n : gmap str nat) : ClientDisk := {|
  names := n; survivors := names d :: survivors d; inodes := inodes d;
  next_inode := next_inode d; schedule := schedule d |}.

Definition NOT_FOUND : Z := 2.

Definition syscall {A} (f : ClientDisk → ClientDisk * result A Z) : io A := λ d,
  match schedule d with
  | Refuse errno _ :: s => (set_schedule d s, Throws (SIo errno))
  | Die _ took_effect :: s =>
      (if took_effect then (f (set_schedule d s)).1 else set_schedule d s, Dies)
  | s =>
      match f (set_schedule d (tail s)) with
      | (d, Ok a) => (d, Returns a)
      | (d, Err e) => (d, Throws (SIo e))
      end
  end.

(** [OpenOptions::write(true).create(true).truncate(true).open]. *)
Definition open_truncate (name : str) : io nat := syscall (λ d,
  match names d !! name with
  | Some i => (set_inode d i {| content := []; synced := false |}, Ok i)
  | None =>
      let i := next_inode d in
      ({| names := <[name := i]> (names d); survivors := names d :: survivors d;
          inodes := <[i := {| content := []; synced := false |}]> (inodes d);
          next_inode := S i; schedule := schedule d |}, Ok i)
  end).

Definition append_inode (d : ClientDisk) (i : nat) (b : bytes) : ClientDisk :=
  match inodes d !! i with
  | Some n => set_inode d i {| content := content n ++ b; synced := false |}
  | None => d
  end.

(** [write_all]: cut short by a failure or the death of the process. *)
Definition write_file (i : nat) (b : bytes) : io unit := λ d,
  match schedule d with
  | Refuse errno wrote :: s => (append_inode (set_schedule d s) i (take wrote b), Throws (SIo errno))
  | Die wrote _ :: s => (append_inode (set_schedule d s) i (take wrote b), Dies)
  | s => (append_inode (set_schedule d (tail s)) i b, Returns ())
  end.

(** [sync_all]. *)
Definition sync_file (i : nat) : io unit := syscall (λ d,
  (match inodes d !! i with
   | Some n => set_inode d i {| content := content n; synced := true |}
   | None => d
   end, Ok ())).

Definition rename_file (from to : str) : io unit := syscall (λ d,
  match names d !! from with
  | Some i => (set_names d (<[to := i]> (delete from (names d))), Ok ())
  | None => (d, Err NOT_FOUND)
  end).

(** [create_dir_all] of the parent; the files above are those inside it. *)
Definition create_dir_all : io unit := syscall (λ d, (d, Ok ())).

Definition open_read (name : str) : io nat := syscall (λ d, (d, ok_or (names d !! name) NOT_FOUND)).

Definition inode_content (d : ClientDisk) (i : nat) : bytes :=
  from_option content [] (inodes d !! i).

Definition file_len (i : nat) : io Z := syscall (λ d, (d, Ok (len (inode_content d i)))).

(** [take(n).read_to_end]. *)
Fixpoint take_z (n : Z) (l : bytes) : bytes :=
  match l with
  | [] => []
  | x :: l => if n <=? 0 then [] else x :: take_z (n - 1) l
  end.

Definition read_to_end (i : nat) (limit : Z) : io bytes :=
  syscall (λ d, (d, Ok (take_z limit (inode_content d i)))).

(** The process ends; the schedule of the next one begins. *)
Definition restart (d : ClientDisk) (s : list Sched) : ClientDisk := set_schedule d s.

(** What may be left after a power loss: the directory or one of its survivors;
    synced files keep their content, others may hold anything. *)
Definition power_loss (d d' : ClientDisk) : Prop :=
  names d' ∈ names d :: survivors d ∧ survivors d' = [] ∧ next_inode d' = next_inode d ∧
  dom (inodes d') = dom (inodes d) ∧
  ∀ i n n', inodes d !! i = Some n → inodes d' !! i = Some n' → synced n = true → n' = n.

(** ** Hexadecimal *)
Definition hex : bytes → str := hex_bytes.

(** [None]: the slice [text[i..i + 2]] panics inside a character. *)
Definition unhex (text : str) : option (option bytes) :=
  let b := str_bytes text in
  if negb (len b mod 2 =? 0) then Some None
  else r ← parse_slots (Z.to_nat (len b / 2)) b;
       Some (match r with Ok v => Some v | Err _ => None end).

Definition new_server_key (random : array 8) : str := hex (array_bytes random).

(** ** Reading and writing the file *)

(** [Path::with_extension("json.tmp")] on the file name: the part before its
    last dot, unless that dot comes first. *)
Fixpoint stem_loop (name acc : str) (found : option str) : option str :=
  match name with
  | [] => found
  | c :: rest => stem_loop rest (acc ++ [c]) (if c =? 0x2E then Some acc else found)
  end.

Definition file_stem (name : str) : str :=
  match stem_loop name [] None with
  | Some (c :: stem) => c :: stem
  | _ => name
  end.

Definition tmp_name (name : str) : str := file_stem name ++ lit ".json.tmp".

Definition read_bounded (path : str) : io bytes :=
  do! file <- open_read path;
  do! n <- file_len file;
  if MAX_STATE_BYTES <? n then throw_io STooLarge
  else
    do! b <- read_to_end file (MAX_STATE_BYTES + 1);
    if MAX_STATE_BYTES <? len b then throw_io STooLarge else ret_io b.

(** [BoundedState::write]. *)
Definition bounded_write (buf chunk : bytes) : option bytes :=
  if sat_sub MAX_STATE_BYTES (len buf) <? len chunk then None else Some (buf ++ chunk).

Fixpoint bounded_write_all (buf : bytes) (chunks : list bytes) : option bytes :=
  match chunks with
  | [] => Some buf
  | c :: cs => buf ← bounded_write buf c; bounded_write_all buf cs
  end.

(** What [save] keeps of a server: the grant only with consent. *)
Definition consented (s : ServerRecord) : ServerRecord :=
  if sv_remember_login s then s else with_grant s None.

Definition persisted (d : StoreData) : StoreData := with_servers d (consented <$> sd_servers d).

(** The handle: the file's name and the data under the lock. *)
Record ClientStore := { path : str; data : StoreData }.

Section store.
Context {J : StoreJson} {B : Base64}.

Definition save (st : ClientStore) (d : StoreData) : io unit :=
  do! _ <- create_dir_all;
  match store_chunks (persisted d) with
  | None => throw_io SSerialize
  | Some chunks =>
      match bounded_write_all [] chunks with
      | None => throw_io STooLarge
      | Some b =>
          let tmp := tmp_name (path st) in
          do! file <- open_truncate tmp;
          do! _ <- write_file file b;
          do! _ <- sync_file file;
          rename_file tmp (path st)
      end
  end.

(** Save, then [*data = next]. *)
Definition commit (st : ClientStore) (next : StoreData) : io ClientStore :=
  do! _ <- save st next; ret_io {| path := path st; data := next |}.

(** What [load] makes of the parsed data: grants of old schemas, and grants
    without consent, are dropped. *)
Definition migrate_server (migrated : bool) (s : ServerRecord) : ServerRecord :=
  consented (if migrated then with_remember s false else s).

(** The result's [bool]: whether there is the migration warning. *)
Definition load (p : str) : io (ClientStore * bool) := λ d,
  match read_bounded p d with
  | (d, Dies) => (d, Dies)
  | (d, Throws e) =>
      if bool_decide (e = SIo NOT_FOUND)
      then (d, Returns ({| path := p; data := store_data_default |}, false))
      else (d, Throws e)
  | (d, Returns b) =>
      if MAX_STATE_BYTES <? len b then (d, Throws STooLarge)
      else
        match store_parse b with
        | None => (d, Throws SInvalid)
        | Some sd =>
            if STORE_VERSION <? sd_version sd then (d, Throws (SNewerSchema (sd_version sd)))
            else
              let migrated := sd_version sd <? STORE_VERSION in
              let sd := {| sd_version := STORE_VERSION;
                           sd_servers := migrate_server migrated <$> sd_servers sd |} in
              let st := {| path := p; data := sd |} in
              if migrated then (do! _ <- save st sd; ret_io (st, true)) d
              else (d, Returns (st, false))
        end
  end.

(** ** Operations *)
Definition server (st : ClientStore) (key : str) : option ServerRecord :=
  sd_servers (data st) !! key.

Definition shell (st : ClientStore) (key shell_hex : str) : option ShellRecord :=
  s ← server st key; sv_shells s !! shell_hex.

Definition add_server (st : ClientStore) (random : array 8) (r : ServerRecord)
    : io (ClientStore * str) :=
  let key := new_server_key random in
  do! st <- commit st (with_servers (data st) (<[key := r]> (sd_servers (data st))));
  ret_io (st, key).

Definition remove_server (st : ClientStore) (key : str) : io ClientStore :=
  commit st (with_servers (data st) (delete key (sd_servers (data st)))).

Definition mutate_server (st : ClientStore) (key : str) (f : ServerRecord → ServerRecord)
    : io ClientStore :=
  match sd_servers (data st) !! key with
  | None => throw_io SUnknownServer
  | Some s => commit st (with_servers (data st) (<[key := f s]> (sd_servers (data st))))
  end.

Definition set_remember_login (st : ClientStore) (key : str) (remember : bool) : io ClientStore :=
  mutate_server st key (λ s, with_remember s remember).

Definition set_grant (st : ClientStore) (key : str) (grant : bytes) : io ClientStore :=
  mutate_server st key (λ s, if is_empty grant then s else with_grant s (Some (b64_encode grant))).

Definition push_pending_open (st : ClientStore) (key ikey name : str) : io ClientStore :=
  mutate_server st key (λ s,
    with_pending s (sv_pending_opens s ++ [{| po_key := ikey; po_name := name |}])).

Definition retain_pending (ikey : str) : list PendingOpen → list PendingOpen :=
  filter (λ p, po_key p ≠ ikey).

Definition pending_name (ikey : str) (ps : list PendingOpen) : str :=
  match list_find (λ p, po_key p = ikey) ps with
  | Some (_, p) => po_name p
  | None => lit "shell"
  end.

Definition resolve_pending_open (st : ClientStore) (key ikey shell_hex : str) (token : bytes)
    (now_ms : Z) : io ClientStore :=
  mutate_server st key (λ s,
    with_shells (with_pending s (retain_pending ikey (sv_pending_opens s)))
      (<[shell_hex := {| sr_token := b64_encode token; sr_idempotency_key := Some ikey;
                         sr_name := pending_name ikey (sv_pending_opens s);
                         sr_last_attached_at_ms := now_ms |}]> (sv_shells s))).

Definition drop_pending_open (st : ClientStore) (key ikey : str) : io ClientStore :=
  mutate_server st key (λ s, with_pending s (retain_pending ikey (sv_pending_opens s))).

Definition set_token (token : bytes) (now_ms : Z) (r : ShellRecord) : ShellRecord := {|
  sr_token := b64_encode token; sr_idempotency_key := sr_idempotency_key r;
  sr_name := sr_name r; sr_last_attached_at_ms := now_ms |}.

Definition update_token (st : ClientStore) (key shell_hex : str) (token : bytes) (now_ms : Z)
    : io ClientStore :=
  mutate_server st key (λ s, with_shells s (alter (set_token token now_ms) shell_hex (sv_shells s))).

Definition remove_shell (st : ClientStore) (key shell_hex : str) : io ClientStore :=
  mutate_server st key (λ s, with_shells s (delete shell_hex (sv_shells s))).

Definition rename_shell (st : ClientStore) (key shell_hex name : str) : io ClientStore :=
  mutate_server st key (λ s, with_shells s
    (alter (λ r, {| sr_token := sr_token r; sr_idempotency_key := sr_idempotency_key r;
                    sr_name := name; sr_last_attached_at_ms := sr_last_attached_at_ms r |})
       shell_hex (sv_shells s))).

(** *** Import of the command-line client's state *)
Definition import_shell (s : V1Shell) : ShellRecord := {|
  sr_token := v1_token s; sr_idempotency_key := v1_idempotency_key s; sr_name := v1_name s;
  sr_last_attached_at_ms := 0 |}.

Definition import_record (v1 : V1State) (url : str) : ServerRecord := {|
  sv_url := url; sv_display_name := url; sv_username := None; sv_ssh_key_path := None;
  sv_remember_login := false; sv_grant := None;
  sv_shells := from_option (fmap import_shell) ∅ (v1_servers v1 !! url);
  sv_pending_opens := [] |}.

(** Order of [BTreeSet<&String>]. *)
Fixpoint str_leb (a b : str) : bool :=
  match a, b with
  | [], _ => true
  | _ :: _, [] => false
  | x :: a, y :: b => (x <? y) || ((x =? y) && str_leb a b)
  end.

Definition import_urls (v1 : V1State) : list str :=
  merge_sort (λ a b, Is_true (str_leb a b)) (elements (dom (v1_servers v1) ∪ dom (v1_grants v1))).

Fixpoint import_loop (v1 : V1State) (urls : list str) (fresh : nat → array 8) (n : nat)
    (servers : gmap str ServerRecord) : gmap str ServerRecord :=
  match urls with
  | [] => servers
  | url :: urls =>
      import_loop v1 urls fresh (S n) (<[new_server_key (fresh n) := import_record v1 url]> servers)
  end.

(** What follows once the file is read. *)
Definition import_text (st : ClientStore) (text : bytes) (fresh : nat → array 8)
    : io (ClientStore * Z) :=
  match v1_parse text with
  | None => ret_io (st, 0)
  | Some v1 =>
      if negb (bool_decide (sd_servers (data st) = ∅)) then ret_io (st, 0)
      else
        let urls := import_urls v1 in
        let next := with_servers (data st) (import_loop v1 urls fresh 0 (sd_servers (data st))) in
        if is_empty urls then ret_io (st, 0)
        else do! st <- commit st next; ret_io (st, len urls)
  end.

Definition import_v1 (st : ClientStore) (v1_path : str) (fresh : nat → array 8)
    : io (ClientStore * Z) := λ d,
  match read_bounded v1_path d with
  | (d, Dies) => (d, Dies)
  | (d, Throws e) =>
      if bool_decide (e = SIo NOT_FOUND) then (d, Returns (st, 0)) else (d, Throws e)
  | (d, Returns text) => import_text st text fresh d
  end.

End store.
