(* ===== verification/ReplaceFile.v ===== *)
(** * Replacing a file by write, sync and rename

    What both clients do to the file they keep: a new content goes to a temporary
    file, which is synced and then renamed over the file. Interrupted anywhere,
    the file holds the old or the new content; nothing syncs the directory, so a
    power loss may bring back an earlier one. [X] are the states a file can hold,
    [encodes] how they are written and [good] what all of them satisfy. *)
From S2P Require Import Prelude ClientStore.

Section replace.
Context {p : str} {X : Type} {encodes : X → bytes → Prop} {good : X → Prop}.

(** ** Names *)
Lemma stem_loop_last name acc found s t :
  stem_loop (name ++ 0x2E :: t) acc found = Some s → 0x2E ∉ t → s = acc ++ name.
Proof.
  revert acc found. induction name as [|c name IH]; intros acc found; simpl.
  - rewrite app_nil_r. intros Hs Ht.
    assert (∀ a f, stem_loop t a f = f) as Hl.
    { clear -Ht. induction t as [|c t IH]; intros a f; [done|]. simpl.
      rewrite IH; [|set_solver]. case_match; [to_prop; set_solver|done]. }
    rewrite Hl in Hs. by simplify_eq.
  - intros Hs Ht. apply IH in Hs; [|done]. by rewrite Hs -app_assoc.
Qed.

(** The temporary file is never the file itself: a name of the form
    [stem.json.tmp] has the stem [stem.json]. *)
Lemma tmp_name_ne : tmp_name p ≠ p.
Proof.
  rewrite /tmp_name. set (stem := file_stem p) => E.
  assert (∀ s, stem_loop p [] None = Some s → s = stem ++ lit ".json") as Hs.
  { intros s Hs. rewrite -E in Hs.
    change (stem ++ lit ".json.tmp") with (stem ++ lit ".json" ++ 0x2E :: lit "tmp") in Hs.
    rewrite app_assoc in Hs. apply stem_loop_last in Hs; [done|]. apply (@bool_decide_unpack (0x2E ∉ lit "tmp") _). by vm_compute. }
  assert (stem = file_stem p) as Ef by done. revert Ef. rewrite /file_stem.
  destruct (stem_loop p [] None) as [[|c s]|]; intros Ef.
  - specialize (Hs _ eq_refl). by destruct stem.
  - apply (f_equal length) in Ef. rewrite (Hs _ eq_refl) length_app /= in Ef. lia.
  - apply (f_equal length) in E. rewrite Ef length_app /= in E. lia.
Qed.

(** ** The disk's invariant *)
Notation tmp := (tmp_name p).
Notation dirs d := (names d :: survivors d).

(** In every directory state that is or may come back, the file is the synced
    encoding of a state in [hist], and the temporary file is another inode. *)
Record disk_wf (hist : list X) (d : ClientDisk) : Prop := {
  dw_file D i : D ∈ dirs d → D !! p = Some i →
    ∃ x b, x ∈ hist ∧ encodes x b ∧ inodes d !! i = Some {| content := b; synced := true |};
  dw_tmp D i : D ∈ dirs d → D !! p = Some i → names d !! tmp ≠ Some i;
  dw_apart D i : D ∈ dirs d → D !! p = Some i → D !! tmp ≠ Some i;
  dw_known D n i : D ∈ dirs d → D !! n = Some i → (i < next_inode d)%nat ∧ is_Some (inodes d !! i);
  dw_good x : x ∈ hist → good x;
}.

(** The file as the running system sees it: absent, or the encoding of [x]. *)
Definition holds (d : ClientDisk) (o : option X) : Prop :=
  match o with
  | None => names d !! p = None
  | Some x => ∃ i b, names d !! p = Some i ∧ encodes x b ∧
                     inodes d !! i = Some {| content := b; synced := true |}
  end.

Lemma disk_wf_mono hist hist' d :
  hist ⊆ hist' → (∀ x, x ∈ hist' → good x) → disk_wf hist d → disk_wf hist' d.
Proof. intros Hs Hv [F T A K V]. split; [|done..]. intros D i HD Hi. destruct (F D i HD Hi) as (x & b & ? & ?). exists x, b. set_solver. Qed.

Lemma disk_wf_schedule hist d s : disk_wf hist d → disk_wf hist (set_schedule d s).
Proof. by intros [F T A K V]; split. Qed.
Lemma holds_schedule d s o : holds d o → holds (set_schedule d s) o.
Proof. by destruct o. Qed.

(** Changing the temporary file changes neither. *)
Lemma disk_wf_set_inode hist d i n :
  names d !! tmp = Some i → disk_wf hist d → disk_wf hist (set_inode d i n).
Proof.
  intros Ht [F T A K V]. split; [|done|done| |done]; simpl.
  - intros D j HD Hj. destruct (F D j HD Hj) as (x & b & ? & ? & ?). exists x, b.
    rewrite lookup_insert_ne //. intros ->. by destruct (T D j HD Hj).
  - intros D m j HD Hj. destruct (K D m j HD Hj) as [? ?]. split; [done|].
    rewrite lookup_insert_is_Some. destruct (decide (i = j)); auto.
Qed.

Lemma holds_set_inode hist d i n o :
  disk_wf hist d → names d !! tmp = Some i → holds d o → holds (set_inode d i n) o.
Proof.
  intros W Ht. destruct o as [x|]; [|done]. intros (j & b & Hp & He & Hi). exists j, b.
  split_and!; [done..|]. rewrite /= lookup_insert_ne //. intros ->.
  eapply (dw_tmp _ _ W); [|exact Hp|exact Ht]. set_solver.
Qed.

(** A step of the replacement before the rename: the invariant stays and so does the
    file, whatever becomes of the step. *)
Definition keeps (o : option X) (hist : list X) {A} (d : ClientDisk) (m : io A)
    (Q : A → ClientDisk → Prop) : Prop :=
  match m d with
  | (d', Returns a) => disk_wf hist d' ∧ holds d' o ∧ Q a d'
  | (d', _) => disk_wf hist d' ∧ holds d' o
  end.

Lemma keeps_syscall {A} o hist d (f : ClientDisk → ClientDisk * result A Z) (Q : A → ClientDisk → Prop) :
  disk_wf hist d → holds d o →
  (∀ s d' r, f (set_schedule d s) = (d', r) →
     disk_wf hist d' ∧ holds d' o ∧ (∀ a, r = Ok a → Q a d')) →
  keeps o hist d (syscall f) Q.
Proof.
  intros W Hh Hf. rewrite /keeps /syscall.
  destruct (schedule d) as [|[|errno wrote|wrote []] s].
  - destruct (f _) as [d' [a|e]] eqn:E; destruct (Hf _ _ _ E) as (? & ? & ?); auto.
  - destruct (f _) as [d' [a|e]] eqn:E; destruct (Hf _ _ _ E) as (? & ? & ?); auto.
  - split; [by apply disk_wf_schedule|by apply holds_schedule].
  - destruct (f _) as [d' r] eqn:E. by destruct (Hf _ _ _ E) as (? & ? & ?).
  - split; [by apply disk_wf_schedule|by apply holds_schedule].
Qed.

Lemma keeps_create_dir_all o hist d :
  disk_wf hist d → holds d o → keeps o hist d create_dir_all (λ _ _, True).
Proof.
  intros W Hh. apply keeps_syscall; [done..|]. intros s d' r [= <- <-].
  split_and!; [by apply disk_wf_schedule|by apply holds_schedule|done].
Qed.

Definition tmp_is (i : nat) (c : bytes) (s : bool) (d : ClientDisk) : Prop :=
  names d !! tmp = Some i ∧ inodes d !! i = Some {| content := c; synced := s |}.

Lemma disk_wf_create hist d :
  names d !! tmp = None → disk_wf hist d →
  disk_wf hist {| names := <[tmp := next_inode d]> (names d); survivors := dirs d;
                  inodes := <[next_inode d := {| content := []; synced := false |}]> (inodes d);
                  next_inode := S (next_inode d); schedule := schedule d |}.
Proof.
  intros Ht [F T A K V].
  assert (∀ D n, D ∈ dirs d → D !! n = Some (next_inode d) → False) as Hfresh.
  { intros D n HD Hn. destruct (K _ _ _ HD Hn) as [? _]. lia. }
  assert (∀ D i, D ∈ <[tmp := next_inode d]> (names d) :: dirs d → D !! p = Some i →
    ∃ D', D' ∈ dirs d ∧ D' !! p = Some i) as Hd.
  { intros D i [->|HD]%elem_of_cons Hi; [|by exists D].
    rewrite lookup_insert_ne in Hi; [|apply tmp_name_ne]. exists (names d). set_solver. }
  split; simpl; [| | | |done].
  - intros D i HD Hi. destruct (Hd D i HD Hi) as (D' & HD' & Hi').
    destruct (F D' i HD' Hi') as (x & b & ? & ? & ?). exists x, b. rewrite lookup_insert_ne //.
    intros <-. by eapply Hfresh.
  - intros D i HD Hi. destruct (Hd D i HD Hi) as (D' & HD' & Hi').
    rewrite lookup_insert_eq. intros [= <-]. by eapply Hfresh.
  - intros D i HD Hi. destruct (Hd D i HD Hi) as (D' & HD' & Hi').
    apply elem_of_cons in HD as [->|HD]; [|by eapply A].
    rewrite lookup_insert_eq. intros [= <-]. by eapply Hfresh.
  - intros D n i [->|HD]%elem_of_cons Hi.
    + destruct (decide (n = tmp)) as [->|Hn].
      * rewrite lookup_insert_eq in Hi. injection Hi as <-. rewrite lookup_insert_eq. split; [lia|by eexists].
      * rewrite lookup_insert_ne in Hi; [|done]. destruct (K (names d) n i) as [? ?]; [set_solver|done|].
        rewrite lookup_insert_is_Some'. split; [lia|auto].
    + destruct (K D n i HD Hi). rewrite lookup_insert_is_Some'. split; [lia|auto].
Qed.

Lemma keeps_open_truncate o hist d :
  disk_wf hist d → holds d o → keeps o hist d (open_truncate tmp) (λ i d', tmp_is i [] false d').
Proof.
  intros W Hh. apply keeps_syscall; [done..|]. intros s d' r.
  apply (disk_wf_schedule _ _ s) in W. apply (holds_schedule _ s) in Hh.
  revert W Hh. generalize (set_schedule d s) as e => e W Hh.
  destruct (names e !! tmp) as [i|] eqn:Ht; intros [= <- <-].
  - split_and!; [by apply disk_wf_set_inode|by eapply holds_set_inode|].
    intros ? [= <-]. by rewrite /tmp_is /= lookup_insert_eq.
  - split_and!; [by apply disk_wf_create| |].
    + destruct o as [x|]; simpl.
      * destruct Hh as (i & b & Hp & He & Hi). exists i, b.
        rewrite lookup_insert_ne; [|apply tmp_name_ne]. split_and!; [done..|].
        rewrite lookup_insert_ne //. intros <-.
        destruct (dw_known _ _ W (names e) p (next_inode e)); [set_solver|done|lia].
      * rewrite lookup_insert_ne; [done|apply tmp_name_ne].
    + intros ? [= <-]. by rewrite /tmp_is /= !lookup_insert_eq.
Qed.

Lemma keeps_write o hist d i c s b :
  disk_wf hist d → holds d o → tmp_is i c s d →
  keeps o hist d (write_file i b) (λ _ d', tmp_is i (c ++ b) false d').
Proof.
  intros W Hh [Ht Hi].
  assert (∀ q w, disk_wf hist (append_inode (set_schedule d q) i w) ∧
                 holds (append_inode (set_schedule d q) i w) o ∧
                 tmp_is i (c ++ w) false (append_inode (set_schedule d q) i w)) as Ha.
  { intros q w. rewrite /append_inode /= Hi.
    apply (disk_wf_schedule _ _ q) in W. apply (holds_schedule _ q) in Hh.
    split_and!; [by apply disk_wf_set_inode|by eapply holds_set_inode|].
    by rewrite /tmp_is /= lookup_insert_eq. }
  rewrite /keeps /write_file.
  destruct (schedule d) as [|[|errno wrote|wrote eff] q]; [apply Ha|apply Ha| |].
  - destruct (Ha q (take wrote b)) as (? & ? & ?); auto.
  - destruct (Ha q (take wrote b)) as (? & ? & ?); auto.
Qed.

Lemma keeps_sync o hist d i c s :
  disk_wf hist d → holds d o → tmp_is i c s d →
  keeps o hist d (sync_file i) (λ _ d', tmp_is i c true d').
Proof.
  intros W Hh [Ht Hi]. apply keeps_syscall; [done..|]. intros q d' r.
  apply (disk_wf_schedule _ _ q) in W. apply (holds_schedule _ q) in Hh.
  rewrite Hi. intros [= <- <-].
  split_and!; [by apply disk_wf_set_inode|by eapply holds_set_inode|].
  intros _ _. by rewrite /tmp_is /= lookup_insert_eq.
Qed.

(** The rename commits. *)
Lemma rename_commits hist d i b x :
  disk_wf hist d → tmp_is i b true d → x ∈ hist → encodes x b →
  disk_wf hist (set_names d (<[p := i]> (delete tmp (names d)))) ∧
  holds (set_names d (<[p := i]> (delete tmp (names d)))) (Some x).
Proof.
  intros W [Ht Hi] Hx He. pose proof tmp_name_ne as Hne. split; last first.
  { exists i, b. by rewrite /= lookup_insert_eq. }
  assert (delete tmp (names d) !! tmp = None) as Hdel by apply lookup_delete_eq.
  destruct W as [F T A K V]. split; simpl; [| | | |done].
  - intros D j [->|HD]%elem_of_cons Hj; [|by eapply F].
    rewrite lookup_insert_eq in Hj. injection Hj as <-. eauto 8.
  - intros D j _ _. by rewrite lookup_insert_ne // Hdel.
  - intros D j [->|HD]%elem_of_cons Hj; [|by eapply A]. by rewrite lookup_insert_ne // Hdel.
  - intros D n j [->|HD]%elem_of_cons Hj; [|by eapply K].
    destruct (decide (n = p)) as [->|Hn].
    + rewrite lookup_insert_eq in Hj. injection Hj as <-. eapply (K (names d)); [set_solver|done].
    + rewrite lookup_insert_ne // in Hj. apply lookup_delete_Some in Hj as [_ Hj].
      eapply (K (names d)); [set_solver|done].
Qed.

(** What has become of the file after an attempt to replace [o] by [x]. *)
Definition outcome {A} (o : option X) (x : X) (r : exec A) (d : ClientDisk) : Prop :=
  match r with
  | Returns _ => holds d (Some x)
  | Throws _ => holds d o
  | Dies => holds d o ∨ holds d (Some x)
  end.

Lemma rename_outcome hist d i b x o :
  disk_wf hist d → holds d o → tmp_is i b true d → x ∈ hist → encodes x b →
  let '(d', r) := rename_file tmp p d in disk_wf hist d' ∧ outcome o x r d'.
Proof.
  intros W Hh Ht Hx He. rewrite /rename_file /syscall.
  assert (∀ q, let e := set_schedule d q in
    disk_wf hist e ∧ holds e o ∧ names e !! tmp = Some i ∧
    disk_wf hist (set_names e (<[p := i]> (delete tmp (names e)))) ∧
    holds (set_names e (<[p := i]> (delete tmp (names e)))) (Some x)) as Hq.
  { intros q e. split_and!; [by apply disk_wf_schedule|by apply holds_schedule|apply Ht|..];
    by eapply rename_commits; [apply disk_wf_schedule| |..]. }
  destruct (schedule d) as [|[|errno wrote|wrote eff] q].
  - destruct (Hq []) as (? & ? & Hn & ? & ?). simpl. by rewrite Hn.
  - destruct (Hq q) as (? & ? & Hn & ? & ?). simpl. by rewrite Hn.
  - destruct (Hq q) as (? & ? & ?). done.
  - destruct (Hq q) as (? & ? & Hn & ? & ?). destruct eff; simpl; [rewrite Hn /=|]; auto.
Qed.

(** [bind_io] after a step that keeps the file. *)
Lemma io_keeps_bind {A C} o hist x d (m : io A) (k : A → io C) (Q : A → ClientDisk → Prop) :
  keeps o hist d m Q →
  (∀ a d', disk_wf hist d' → holds d' o → Q a d' →
     let '(d'', r) := k a d' in disk_wf hist d'' ∧ outcome o x r d'') →
  let '(d', r) := bind_io m k d in disk_wf hist d' ∧ outcome o x r d'.
Proof.
  rewrite /keeps /bind_io => Hm Hk. destruct (m d) as [d' [a|e|]]; simpl.
  - destruct Hm as (? & ? & ?). by apply Hk.
  - done.
  - destruct Hm. split; [done|by left].
Qed.

(** The replacement as a whole. *)
Lemma replace_outcome hist d o x b :
  disk_wf hist d → holds d o → x ∈ hist → encodes x b →
  let '(d', r) := (do! file <- open_truncate tmp;
                   do! _ <- write_file file b;
                   do! _ <- sync_file file;
                   rename_file tmp p) d in disk_wf hist d' ∧ outcome o x r d'.
Proof.
  intros W Hh Hx He.
  eapply io_keeps_bind; [by apply keeps_open_truncate|]. intros i d2 W2 H2 T2.
  eapply io_keeps_bind; [eapply keeps_write; [exact W2|exact H2|exact T2]|]. intros [] d3 W3 H3 T3.
  eapply io_keeps_bind; [eapply keeps_sync; [exact W3|exact H3|exact T3]|]. intros [] d4 W4 H4 T4.
  by eapply rename_outcome.
Qed.
End replace.
