(* ===== verification/ClientStoreProps.v ===== *)
(** * The desktop client's store survives what can happen to it

    Every operation on the store, interrupted anywhere, leaves the old or the
    new state on disk; a power loss at any moment leaves one of the states that
    were ever saved; and nothing on disk holds a grant without consent. *)
From S2P Require Import Prelude Ids ClientStore ReplaceFile.

(** Identifiers read back from their text. *)
Lemma store_unhex_hex l : unhex (hex l) = Some (Some l).
Proof.
  rewrite /unhex /hex str_bytes_ascii; [|apply hex_bytes_ascii].
  rewrite /len length_map hex_bytes_length.
  rewrite (_ : Z.of_nat (2 * length l) mod 2 = 0); [|zlia]. simpl negb. cbn iota.
  rewrite (_ : Z.to_nat (Z.of_nat (2 * length l) / 2) = length l); [|zlia].
  by rewrite parse_slots_hex.
Qed.

Section props.
Context {J : StoreJson} {B : Base64} {JL : StoreJsonLaws J}.
Variable p : str.

(** ** Encodings *)

(** What [save] writes for [x]. *)
Definition encodes (x : StoreData) (b : bytes) : Prop :=
  ∃ cs, store_chunks (persisted x) = Some cs ∧ bounded_write_all [] cs = Some b.

Lemma bounded_write_all_spec buf cs b :
  len buf ≤ MAX_STATE_BYTES → bounded_write_all buf cs = Some b →
  b = buf ++ concat cs ∧ len b ≤ MAX_STATE_BYTES.
Proof.
  revert buf. induction cs as [|c cs IH]; intros buf Hb; simpl.
  { intros [= <-]. by rewrite app_nil_r. }
  rewrite /bounded_write /sat_sub. case_match; simpl; [done|]. to_prop.
  intros [-> ?]%IH; [by rewrite app_assoc|]. rewrite len_app. lia.
Qed.

Lemma consented_idem s : consented (consented s) = consented s.
Proof. rewrite /consented. destruct (sv_remember_login s) eqn:E; by rewrite ?E /= ?E. Qed.

Lemma persisted_idem x : persisted (persisted x) = persisted x.
Proof.
  rewrite /persisted /with_servers /=. f_equal. rewrite -map_fmap_compose.
  apply map_fmap_ext => i s _. apply consented_idem.
Qed.

Lemma encodes_persisted x b : encodes (persisted x) b ↔ encodes x b.
Proof. by rewrite /encodes persisted_idem. Qed.

Lemma encodes_parse x b :
  encodes x b → store_parse b = Some (persisted x) ∧ len b ≤ MAX_STATE_BYTES.
Proof.
  intros (cs & Hc & [-> Hl]%bounded_write_all_spec); [|by rewrite len_nil].
  split; [|done]. by apply store_json_roundtrip.
Qed.

Lemma take_z_all n b : len b ≤ n → take_z n b = b.
Proof.
  revert n. induction b as [|x b IH]; intros n; [done|]. rewrite len_cons /=.
  pose proof (len_nonneg b). intros Hn. rewrite (proj2 (Z.leb_gt n 0)); [|lia].
  by rewrite IH; [|lia].
Qed.

(** ** The disk's invariant *)
Definition current (x : StoreData) : Prop := sd_version x = STORE_VERSION.
#[local] Notation tmp := (tmp_name p).
#[local] Notation dirs d := (names d :: survivors d).
#[local] Notation disk_wf := (@ReplaceFile.disk_wf p StoreData encodes current).
#[local] Notation holds := (@ReplaceFile.holds p StoreData encodes).
#[local] Notation outcome := (@ReplaceFile.outcome p StoreData encodes _).

Lemma save_outcome hist d o st x :
  path st = p → disk_wf hist d → holds d o → x ∈ hist →
  let '(d', r) := save st x d in disk_wf hist d' ∧ outcome o x r d'.
Proof.
  intros Hp W Hh Hx. rewrite /save Hp.
  eapply io_keeps_bind; [by apply keeps_create_dir_all|]. intros [] d1 W1 H1 _.
  destruct (store_chunks (persisted x)) as [cs|] eqn:Ec; [|done].
  destruct (bounded_write_all [] cs) as [b|] eqn:Eb; [|done].
  assert (encodes x b) as He by (by exists cs).
  by apply replace_outcome.
Qed.

(** A state without an encoding is never written. *)
Lemma save_unencodable hist d o st x :
  path st = p → disk_wf hist d → holds d o → (∀ b, ¬ encodes x b) →
  let '(d', r) := save st x d in
  disk_wf hist d' ∧ holds d' o ∧ (∀ a, r ≠ Returns a).
Proof.
  intros Hp W Hh Hx. rewrite /save /bind_io Hp.
  pose proof (keeps_create_dir_all o hist d W Hh) as Hk. rewrite /keeps in Hk.
  destruct (create_dir_all d) as [d1 [[]|e|]]; [|naive_solver..].
  destruct (store_chunks (persisted x)) as [cs|] eqn:Ec; [|naive_solver].
  destruct (bounded_write_all [] cs) as [b|] eqn:Eb; [|naive_solver].
  exfalso. apply (Hx b). by exists cs.
Qed.

(** Undisturbed, an encodable state is saved. *)
Lemma save_undisturbed d st x b :
  encodes x b → ∃ d', save st x (restart d []) = (d', Returns ()).
Proof.
  intros (cs & Ec & Eb). rewrite /save Ec Eb /bind_io /create_dir_all /open_truncate /syscall /=.
  destruct (names d !! tmp_name (path st)) as [i|] eqn:Et; simpl.
  - rewrite /append_inode /= lookup_insert_eq /= lookup_insert_eq /rename_file /syscall /= Et. eauto.
  - rewrite /append_inode /= lookup_insert_eq /= lookup_insert_eq /rename_file /syscall /= lookup_insert_eq. eauto.
Qed.

Lemma encodes_dec x : (∃ b, encodes x b) ∨ ∀ b, ¬ encodes x b.
Proof.
  rewrite /encodes. destruct (store_chunks (persisted x)) as [cs|]; [|naive_solver].
  destruct (bounded_write_all [] cs) as [b|] eqn:E; [left; eauto|naive_solver].
Qed.

(** ** Operations *)

(** The disk holds the data of a running client, or nothing and the client has
    saved nothing. *)
Definition describes (d : ClientDisk) (y : StoreData) : Prop :=
  holds d (Some y) ∨ holds d None ∧ y = store_data_default.

Definition op_outcome {A} (y x : StoreData) (r : exec A) (d : ClientDisk) : Prop :=
  match r with
  | Returns _ => describes d x
  | Throws _ => describes d y
  | Dies => describes d y ∨ describes d x
  end.

(** What an operation makes of the data when nothing goes wrong. *)
Definition target (st : ClientStore) (m : io ClientStore) (d : ClientDisk) : StoreData :=
  match (m (restart d [])).2 with Returns st' => data st' | _ => data st end.

Definition op_correct (hist : list StoreData) (st : ClientStore) (m : io ClientStore)
    (d : ClientDisk) : Prop :=
  let '(d', r) := m d in
  let x := target st m d in
  sd_version x = STORE_VERSION ∧ disk_wf (x :: hist) d' ∧ op_outcome (data st) x r d' ∧
  ∀ st', r = Returns st' → path st' = p ∧ data st' = x.

Lemma describes_holds d y : describes d y → ∃ o, holds d o ∧ ∀ d', holds d' o → describes d' y.
Proof.
  intros [H|[H ->]]; [exists (Some y)|exists None]; (split; [done|]); intros d' H'; [by left|by right].
Qed.

Lemma target_commit st x d b : encodes x b → target st (commit st x) d = x.
Proof.
  intros He. destruct (save_undisturbed d st x b He) as [e Hs].
  by rewrite /target /commit /bind_io Hs.
Qed.

Lemma target_refused hist st x d o :
  path st = p → disk_wf hist d → holds d o → (∀ b, ¬ encodes x b) →
  target st (commit st x) d = data st.
Proof.
  intros Hp W Hh Hn.
  pose proof (save_unencodable hist (restart d []) o st x Hp
    (disk_wf_schedule _ _ _ W) (holds_schedule _ _ _ Hh) Hn) as Ht.
  rewrite /target /commit /bind_io. destruct (save st x (restart d [])) as [e [[]|?|]]; [|done..].
  destruct Ht as (_ & _ & Ht). by destruct (Ht ()).
Qed.

Lemma disk_wf_cons hist x d : sd_version x = STORE_VERSION → disk_wf hist d → disk_wf (x :: hist) d.
Proof.
  intros Vx W. apply (disk_wf_mono hist); [set_solver| |done].
  intros w [->|Hw]%elem_of_cons; [done|]. by apply (dw_good _ _ W).
Qed.

Lemma commit_correct hist st x d :
  path st = p → disk_wf hist d → describes d (data st) →
  sd_version (data st) = STORE_VERSION → sd_version x = STORE_VERSION →
  op_correct hist st (commit st x) d.
Proof.
  intros Hp W (o & Hh & Ho)%describes_holds Vy Vx. rewrite /op_correct.
  destruct (encodes_dec x) as [[b Hb]|Hn].
  - rewrite (target_commit _ _ _ _ Hb) /commit /bind_io.
    pose proof (save_outcome (x :: hist) d o st x Hp (disk_wf_cons _ _ _ Vx W) Hh ltac:(set_solver)) as Hs.
    destruct (save st x d) as [d' [[]|err|]]; simpl in *; destruct Hs as [W' Hr]; split_and!; try done.
    + by left.
    + intros st' [= <-]. done.
    + by apply Ho.
    + destruct Hr as [Hr|Hr]; [left; by apply Ho|right; by left].
  - rewrite (target_refused hist _ _ _ o) // /commit /bind_io.
    pose proof (save_unencodable hist d o st x Hp W Hh Hn) as Hs.
    destruct (save st x d) as [d' [[]|err|]]; simpl; destruct Hs as (W' & Hr & Hne);
      [by destruct (Hne ())|..]; split_and!; try done; auto using disk_wf_cons.
Qed.

(** ** Reading the file *)

(** Failing calls do not pretend that a file is missing. *)
Definition genuine (s : list Sched) : Prop :=
  Forall (λ e, match e with Refuse errno _ => errno ≠ NOT_FOUND | _ => True end) s.

Lemma syscall_read {A} (g : ClientDisk → result A Z) d :
  (∀ s, g (set_schedule d s) = g d) →
  ∃ s r, syscall (λ d, (d, g d)) d = (set_schedule d s, r) ∧ (genuine (schedule d) → genuine s) ∧
    (∀ a, r = Returns a → g d = Ok a) ∧
    (r = Throws (SIo NOT_FOUND) → genuine (schedule d) → g d = Err NOT_FOUND).
Proof.
  intros Hg. rewrite /syscall. destruct (schedule d) as [|[|errno wrote|wrote eff] s] eqn:Es.
  - exists []. simpl. rewrite Hg. destruct (g d) as [a|e]; eexists; split_and!; naive_solver.
  - exists s. simpl. rewrite Hg. destruct (g d) as [a|e];
      (eexists; split_and!; [done|by intros [_ ?]%Forall_cons|by intros; simplify_eq..]).
  - exists s. eexists. split_and!; [done|by intros [_ ?]%Forall_cons|done|].
    intros [= ->] [? _]%Forall_cons. done.
  - exists s. eexists. split_and!; [by destruct eff|by intros [_ ?]%Forall_cons|done..].
Qed.

Lemma inode_content_schedule d s i : inode_content (set_schedule d s) i = inode_content d i.
Proof. done. Qed.

Lemma read_bounded_cases q d :
  ∃ s r, read_bounded q d = (set_schedule d s, r) ∧
    (∀ b, r = Returns b → len b ≤ MAX_STATE_BYTES ∧
       ∃ i, names d !! q = Some i ∧ b = inode_content d i) ∧
    (r = Throws (SIo NOT_FOUND) → genuine (schedule d) → names d !! q = None).
Proof.
  rewrite /read_bounded {1}/bind_io /open_read.
  destruct (syscall_read (λ d, ok_or (names d !! q) NOT_FOUND) d) as (s & r & -> & Hs & Hr & Hn); [done|].
  destruct r as [i|e|]; [|exists s; eexists; split_and!; [done..|]|by do 2 eexists].
  2:{ intros He G. specialize (Hn ltac:(congruence) G). by destruct (names d !! q). }
  specialize (Hr i eq_refl). apply ok_or_Ok in Hr.
  rewrite {1}/bind_io /file_len.
  destruct (syscall_read (λ d, Ok (len (inode_content d i))) (set_schedule d s))
    as (s2 & r2 & -> & Hs2 & Hr2 & Hn2); [done|].
  destruct r2 as [n|e|]; [|exists s2; eexists; split_and!; [done..|]|by do 2 eexists].
  2:{ intros He G. by specialize (Hn2 ltac:(congruence) (Hs G)). }
  specialize (Hr2 n eq_refl). injection Hr2 as <-. rewrite !inode_content_schedule.
  destruct (MAX_STATE_BYTES <? _) eqn:El; [exists s2; eexists; by split_and!|]. to_prop.
  rewrite /bind_io /read_to_end.
  destruct (syscall_read (λ d, Ok (take_z (MAX_STATE_BYTES + 1) (inode_content d i)))
    (set_schedule (set_schedule d s) s2)) as (s3 & r3 & -> & Hs3 & Hr3 & Hn3); [done|].
  destruct r3 as [b|e|]; [|exists s3; eexists; split_and!; [done..|]|by do 2 eexists].
  2:{ intros He G. by specialize (Hn3 ltac:(congruence) (Hs2 (Hs G))). }
  specialize (Hr3 b eq_refl). injection Hr3 as <-. rewrite !inode_content_schedule.
  rewrite take_z_all; [|lia]. rewrite (proj2 (Z.ltb_ge _ _)); [|done].
  exists s3. eexists. split_and!; [done| |done]. intros b [= <-]. eauto.
Qed.

Lemma read_bounded_undisturbed q d i :
  names d !! q = Some i → len (inode_content d i) ≤ MAX_STATE_BYTES →
  read_bounded q (restart d []) = (restart d [], Returns (inode_content d i)).
Proof.
  intros Hi Hl. rewrite /read_bounded /bind_io /open_read /syscall /= Hi /= !inode_content_schedule.
  rewrite (proj2 (Z.ltb_ge _ _)); [|done]. rewrite /read_to_end /syscall /= !inode_content_schedule.
  rewrite take_z_all; [|lia]. by rewrite (proj2 (Z.ltb_ge _ _)); [|done].
Qed.

Lemma read_bounded_missing q d :
  names d !! q = None → read_bounded q (restart d []) = (restart d [], Throws (SIo NOT_FOUND)).
Proof. intros Hi. by rewrite /read_bounded /bind_io /open_read /syscall /= Hi. Qed.

(** ** The client over time *)
Inductive StoreOp :=
  | AddServer (random : array 8) (r : ServerRecord)
  | RemoveServer (key : str)
  | SetRememberLogin (key : str) (remember : bool)
  | SetGrant (key : str) (grant : bytes)
  | PushPendingOpen (key ikey name : str)
  | ResolvePendingOpen (key ikey shell_hex : str) (token : bytes) (now_ms : Z)
  | DropPendingOpen (key ikey : str)
  | UpdateToken (key shell_hex : str) (token : bytes) (now_ms : Z)
  | RemoveShell (key shell_hex : str)
  | RenameShell (key shell_hex name : str)
  | ImportV1 (v1_path : str) (fresh : nat → array 8).

Definition exec_op (op : StoreOp) (st : ClientStore) : io ClientStore :=
  match op with
  | AddServer random r => do! (st, _) <- add_server st random r; ret_io st
  | RemoveServer key => remove_server st key
  | SetRememberLogin key remember => set_remember_login st key remember
  | SetGrant key grant => set_grant st key grant
  | PushPendingOpen key ikey name => push_pending_open st key ikey name
  | ResolvePendingOpen key ikey sh token now => resolve_pending_open st key ikey sh token now
  | DropPendingOpen key ikey => drop_pending_open st key ikey
  | UpdateToken key sh token now => update_token st key sh token now
  | RemoveShell key sh => remove_shell st key sh
  | RenameShell key sh name => rename_shell st key sh name
  | ImportV1 v1_path fresh => do! (st, _) <- import_v1 st v1_path fresh; ret_io st
  end.

Record ClientWorld := { cw_disk : ClientDisk; cw_store : option ClientStore }.

(** No file yet, on an otherwise sound disk. *)
Definition fresh_disk (d : ClientDisk) : Prop :=
  names d !! p = None ∧ survivors d = [] ∧
  ∀ n i, names d !! n = Some i → (i < next_inode d)%nat ∧ is_Some (inodes d !! i).

(** Operations, starts, kills and power losses in any order; the list collects
    what the operations set out to store. *)
Inductive reach : list StoreData → ClientWorld → Prop :=
  | reach_init d : fresh_disk d → reach [] {| cw_disk := d; cw_store := None |}
  | reach_op h d st op s d' r :
      reach h {| cw_disk := d; cw_store := Some st |} → genuine s →
      exec_op op st (restart d s) = (d', r) →
      reach (target st (exec_op op st) d :: h)
        {| cw_disk := d';
           cw_store := match r with Returns st' => Some st' | Throws _ => Some st | Dies => None end |}
  | reach_start h d s d' r :
      reach h {| cw_disk := d; cw_store := None |} → genuine s → load p (restart d s) = (d', r) →
      reach h {| cw_disk := d'; cw_store := match r with Returns (st, _) => Some st | _ => None end |}
  | reach_kill h d m : reach h {| cw_disk := d; cw_store := m |} →
      reach h {| cw_disk := d; cw_store := None |}
  | reach_power h d m d' : reach h {| cw_disk := d; cw_store := m |} → power_loss d d' →
      reach h {| cw_disk := d'; cw_store := None |}.

Record client_wf (h : list StoreData) (w : ClientWorld) : Prop := {
  cwf_disk : disk_wf h (cw_disk w);
  cwf_store st : cw_store w = Some st →
    path st = p ∧ sd_version (data st) = STORE_VERSION ∧ describes (cw_disk w) (data st);
}.

(** *** Every operation *)
Section op.
Context (hist : list StoreData) (st : ClientStore) (d : ClientDisk).
Hypothesis (Hp : path st = p) (W : disk_wf hist d) (Hd : describes d (data st)).
Hypothesis (Hv : sd_version (data st) = STORE_VERSION).

Lemma op_correct_ext m m' :
  (∀ d, m d = m' d) → op_correct hist st m' d → op_correct hist st m d.
Proof. intros Hm. by rewrite /op_correct /target !Hm. Qed.

Lemma op_correct_throw e : op_correct hist st (throw_io e) d.
Proof. rewrite /op_correct /=. split_and!; [done|by apply disk_wf_cons|done|done]. Qed.

Lemma mutate_server_correct key f : op_correct hist st (mutate_server st key f) d.
Proof.
  rewrite /mutate_server. destruct (sd_servers (data st) !! key) as [s|].
  - by apply commit_correct.
  - apply op_correct_throw.
Qed.

Lemma describes_schedule s y : describes d y → describes (set_schedule d s) y.
Proof. intros [?|[? ?]]; [left|right]; auto using holds_schedule. Qed.

Lemma op_correct_ret : op_correct hist st (ret_io st) d.
Proof.
  rewrite /op_correct /=. split_and!; [done|by apply disk_wf_cons|done|].
  intros st' [= <-]. done.
Qed.

Lemma import_text_correct text fresh :
  op_correct hist st (do! (st', _) <- import_text st text fresh; ret_io st') d.
Proof.
  rewrite /import_text. destruct (v1_parse text) as [v1|]; [|apply op_correct_ret].
  case_match; [apply op_correct_ret|]. case_match; [apply op_correct_ret|].
  match goal with |- context [commit st ?x] =>
    apply (op_correct_ext _ (commit st x)); [|by apply commit_correct] end.
  intros e. rewrite /bind_io. by destruct (commit _ _ e) as [e' [?|?|]].
Qed.

End op.

Lemma import_v1_correct hist st d q fresh :
  path st = p → disk_wf hist d → describes d (data st) → sd_version (data st) = STORE_VERSION →
  genuine (schedule d) →
  op_correct hist st (do! (st', _) <- import_v1 st q fresh; ret_io st') d.
Proof.
  intros Hp W Hd Hv G.
  set (after t := do! (st', _) <- import_text st t fresh; ret_io st').
  set (m := do! (st', _) <- import_v1 st q fresh; ret_io st').
  assert (∀ e, m e = match read_bounded q e with
    | (e, Dies) => (e, Dies)
    | (e, Throws x) => if bool_decide (x = SIo NOT_FOUND) then (e, Returns st) else (e, Throws x)
    | (e, Returns t) => after t e end) as Hm.
  { intros e. rewrite /m /after /bind_io /import_v1. destruct (read_bounded q e) as [e' [t|x|]]; [done| |done].
    by destruct (bool_decide (x = _)). }
  assert (∀ s t, op_correct hist st (after t) (set_schedule d s)) as Ha.
  { intros s t. apply import_text_correct; auto using disk_wf_schedule, describes_schedule. }
  assert (sd_version (target st m d) = STORE_VERSION) as Hvt.
  { rewrite /target. destruct (m (restart d [])) as [e' [st'|x|]] eqn:Em; [|done|done]. simpl.
    rewrite Hm in Em. destruct (read_bounded_cases q (restart d [])) as (s & r & Er & _ & _).
    rewrite Er in Em. destruct r as [t|x|]; [|case_match; by simplify_eq|done].
    pose proof (Ha s t) as Hc. rewrite /op_correct in Hc.
    change (set_schedule d s) with (set_schedule (restart d []) s) in Hc. rewrite Em in Hc.
    destruct Hc as (Hc & _ & _ & Hst). destruct (Hst st' eq_refl) as [_ ->]. done. }
  destruct (read_bounded_cases q d) as (s & r & Er & Hret & Hnf).
  destruct r as [t|x|].
  - destruct (Hret t eq_refl) as (Hl & i & Hi & ->).
    assert (target st m d = target st (after (inode_content d i)) (set_schedule d s)) as Ht.
    { by rewrite /target Hm (read_bounded_undisturbed q d i). }
    rewrite /op_correct Hm Er Ht. apply Ha.
  - rewrite /op_correct Hm Er. destruct (bool_decide (x = _)) eqn:Ex; to_prop.
    + subst x. assert (target st m d = data st) as Ht.
      { by rewrite /target Hm read_bounded_missing ?Hnf. }
      rewrite Ht. split_and!; [done|by apply disk_wf_cons, disk_wf_schedule|by apply describes_schedule|].
      intros st' [= <-]. done.
    + split_and!; [done|by apply disk_wf_cons, disk_wf_schedule|by apply describes_schedule|done].
  - rewrite /op_correct Hm Er.
    split_and!; [done|by apply disk_wf_cons, disk_wf_schedule|left; by apply describes_schedule|done].
Qed.

Lemma exec_op_correct hist st d op :
  path st = p → disk_wf hist d → describes d (data st) → sd_version (data st) = STORE_VERSION →
  genuine (schedule d) → op_correct hist st (exec_op op st) d.
Proof.
  intros Hp W Hd Hv G.
  destruct op; simpl; try by apply mutate_server_correct.
  - match goal with |- context [add_server _ _ ?r] =>
      apply (op_correct_ext _ _ _ _ (commit st (with_servers (data st) (<[new_server_key random := r]> (sd_servers (data st)))))) end.
    + intros e. rewrite /bind_io /add_server /bind_io. by destruct (commit _ _ e) as [e' [?|?|]].
    + by apply commit_correct.
  - by apply commit_correct.
  - by apply import_v1_correct.
Qed.


(** *** Loading *)
Lemma migrate_persisted x : migrate_server false <$> sd_servers (persisted x) = sd_servers (persisted x).
Proof.
  rewrite /persisted /= -map_fmap_compose. apply map_fmap_ext => k s _.
  rewrite /= /migrate_server. apply consented_idem.
Qed.

(** What [load] makes of the bytes [save] wrote. *)
Lemma load_encoded d d' x b :
  read_bounded p d = (d', Returns b) → encodes x b → sd_version x = STORE_VERSION →
  load p d = (d', Returns ({| path := p; data := persisted x |}, false)).
Proof.
  intros Hr [Hparse Hl]%encodes_parse Hv. rewrite /load Hr (proj2 (Z.ltb_ge _ _)) // Hparse.
  rewrite (_ : sd_version (persisted x) = STORE_VERSION) // Z.ltb_irrefl migrate_persisted.
  by rewrite {2}/persisted /with_servers Hv.
Qed.

Lemma persisted_default : persisted store_data_default = store_data_default.
Proof. by rewrite /persisted /with_servers /= fmap_empty. Qed.

Lemma load_undisturbed h d y :
  disk_wf h d → describes d y → sd_version y = STORE_VERSION →
  load p (restart d []) = (restart d [], Returns ({| path := p; data := persisted y |}, false)).
Proof.
  intros W [(i & b & Hi & He & Hc)|[Hn ->]] Hv.
  - eapply load_encoded; [|done|done].
    have Hcont : inode_content d i = b by rewrite /inode_content Hc.
    rewrite -Hcont. apply read_bounded_undisturbed; [done|]. rewrite Hcont. by apply (encodes_parse y b).
  - by rewrite /load read_bounded_missing // persisted_default.
Qed.

Lemma describes_persisted d y : describes d y → describes d (persisted y).
Proof.
  intros [(i & b & ? & ? & ?)|[? ->]]; [left|right; by rewrite persisted_default].
  exists i, b. by rewrite encodes_persisted.
Qed.

Lemma disk_describes h d : disk_wf h d → ∃ y, describes d y ∧ (y = store_data_default ∨ y ∈ h).
Proof.
  intros W. destruct (names d !! p) as [i|] eqn:Hi; [|exists store_data_default; split; [by right|by left]].
  destruct (dw_file _ _ W (names d) i) as (x & b & Hx & He & Hc); [set_solver|done|].
  exists x. split; [left; by exists i, b|by right].
Qed.

Lemma load_started h d d' r :
  disk_wf h d → genuine (schedule d) → load p d = (d', r) →
  disk_wf h d' ∧ ∀ st w, r = Returns (st, w) →
    path st = p ∧ sd_version (data st) = STORE_VERSION ∧ describes d' (data st).
Proof.
  intros W G. destruct (read_bounded_cases p d) as (s & x & Er & Hret & Hnf).
  destruct x as [b|e|].
  - destruct (Hret b eq_refl) as (_ & i & Hi & ->).
    destruct (dw_file _ _ W (names d) i) as (x & b & Hx & He & Hc); [set_solver|done|].
    have Hcont : inode_content d i = b by rewrite /inode_content Hc. rewrite Hcont in Er.
    have Hv := dw_good _ _ W x Hx. rewrite (load_encoded _ _ _ _ Er He Hv). intros [= <- <-].
    split; [by apply disk_wf_schedule|]. intros st w [= <- <-]. split_and!; [done|done|].
    apply describes_schedule, describes_persisted. left. by exists i, b.
  - rewrite /load Er. case_match eqn:Ex; to_prop; intros [= <- <-]; (split; [by apply disk_wf_schedule|]);
      [|done].
    intros st w [= <- <-]. split_and!; [done|done|]. right. split; [|done]. apply Hnf; congruence.
  - rewrite /load Er. intros [= <- <-]. split; [by apply disk_wf_schedule|done].
Qed.

Lemma disk_wf_power h d d' : disk_wf h d → power_loss d d' → disk_wf h d'.
Proof.
  intros W (Hn & Hs & Hx & Hdom & Hi).
  assert (∀ D, D ∈ dirs d' → D = names d' ∧ D ∈ dirs d) as HD.
  { intros D. rewrite Hs. intros ->%list_elem_of_singleton. done. }
  assert (∀ i, is_Some (inodes d !! i) → is_Some (inodes d' !! i)) as Hk.
  { intros i. by rewrite -!elem_of_dom Hdom. }
  split; [| | | |by apply (dw_good _ _ W)].
  - intros D i [_ HD']%HD Hp. destruct (dw_file _ _ W D i HD' Hp) as (x & b & ? & ? & Hc).
    exists x, b. split_and!; [done..|]. destruct (Hk i) as [n Hc']; [by eexists|].
    by rewrite Hc' (Hi i _ _ Hc Hc').
  - intros D i [-> HD']%HD Hp. by apply (dw_apart _ _ W).
  - intros D i [_ HD']%HD Hp. by apply (dw_apart _ _ W).
  - intros D n i [_ HD']%HD Hp. destruct (dw_known _ _ W D n i HD' Hp). split; [lia|auto].
Qed.

Lemma reach_wf h w : reach h w → client_wf h w.
Proof.
  induction 1 as [d (Hn & Hs & Hk)|h d st op s d' r _ [W Hst] G Hx|h d s d' r _ [W _] G Hl|
                  h d m _ [W _]|h d m d' _ [W _] Hp].
  - assert (∀ D, D ∈ dirs d → D = names d) as HD.
    { intros D. rewrite Hs. by intros ->%list_elem_of_singleton. }
    split; [|done]. simpl. split; [| | | |by intros ? ?%elem_of_nil]; intros D.
    1-3: intros i ->%HD; congruence.
    intros n i ->%HD. apply Hk.
  - simpl in W. destruct (Hst st eq_refl) as (Hp & Hv & Hd).
    pose proof (exec_op_correct h st (restart d s) op Hp (disk_wf_schedule _ _ _ W)
      (describes_schedule _ _ _ Hd) Hv G) as Hc. rewrite /op_correct Hx in Hc.
    destruct Hc as (Vx & Wx & Ho & Hret). split; [exact Wx|]. simpl. intros st' Es.
    destruct r as [st2|e|]; simplify_eq; simpl in Ho.
    + destruct (Hret _ eq_refl) as [? ->]. done.
    + done.
  - simpl in W. destruct (load_started h _ d' r (disk_wf_schedule _ _ s W) G Hl) as [W' Hst].
    split; [done|]. simpl. intros st Es. destruct r as [[st' w]|e|]; simplify_eq. by eapply Hst.
  - by split.
  - simpl in W. split; [by eapply disk_wf_power|done].
Qed.

(** Grants that are kept have consent. *)
Definition grants_consented (x : StoreData) : Prop :=
  ∀ key s g, sd_servers x !! key = Some s → sv_grant s = Some g → sv_remember_login s = true.

Lemma persisted_consented x : grants_consented (persisted x).
Proof.
  intros key s g. rewrite /persisted /= lookup_fmap. destruct (sd_servers x !! key) as [r|]; [|done].
  simpl. rewrite /consented. intros [= <-]. by destruct (sv_remember_login r) eqn:E.
Qed.

(** ** The guarantees *)

(** C12: however often the client was restarted, killed or lost power before,
    and wherever the next operation is interrupted, reloading succeeds. It
    gives exactly the new data when the operation returned, exactly the old
    when it failed, and one of the two when the process died in it, apart from
    grants without consent, which are never on disk. *)
Theorem store_op_atomic h d st op s d' r :
  reach h {| cw_disk := d; cw_store := Some st |} → genuine s →
  exec_op op st (restart d s) = (d', r) →
  ∃ x, load p (restart d' []) = (restart d' [], Returns ({| path := p; data := persisted x |}, false)) ∧
    match r with
    | Returns st' => x = data st' ∧ x = target st (exec_op op st) d
    | Throws _ => x = data st
    | Dies => x = data st ∨ x = target st (exec_op op st) d
    end.
Proof.
  intros [W Hst]%reach_wf G Hx. destruct (Hst st eq_refl) as (Hp & Hv & Hd). simpl in W, Hd.
  pose proof (exec_op_correct h st (restart d s) op Hp (disk_wf_schedule _ _ _ W)
    (describes_schedule _ _ _ Hd) Hv G) as Hc. rewrite /op_correct Hx in Hc.
  change (target st (exec_op op st) (restart d s)) with (target st (exec_op op st) d) in Hc.
  destruct Hc as (Vx & Wx & Ho & Hret).
  destruct r as [st'|e|]; simpl in Ho.
  - destruct (Hret st' eq_refl) as [_ Ht]. rewrite -Ht in Vx Ho. exists (data st').
    split; [by eapply load_undisturbed|done].
  - exists (data st). split; [by eapply load_undisturbed|done].
  - destruct Ho as [Ho|Ho]; (eexists; split; [by eapply load_undisturbed|auto]).
Qed.


End props.

(** The invariant, for other files. *)
Notation store_disk_wf p := (@ReplaceFile.disk_wf p StoreData encodes current).
