(* ===== verification/ClientApi.v ===== *)
(** * The native client's protocol layer

    [crates/native-client/src/lib.rs]: framed channels over WebTransport
    streams, server URLs, the authentication exchange, shell requests on the
    control channel, attaching, and uploading a file. A channel carries the
    reads its stream will give and whether its writes succeed; [None] is a call
    that still waits. TLS and QUIC, HTTP and key files are parameters. *)
From S2P Require Import Prelude Protocol Framing UploadProto Auth.

(** ** Errors

    [anyhow::Error] with the types that callers look for. *)
Inductive ClientErr :=
  | EText (text : str)
  | EFrame (e : FrameError)
  | EAuthenticationRejected (message : str)
  | ESshAuthenticationFailed (message : str)
  | EPasswordRequired.

Definition plain (message : Msg) : Envelope := {|
  env_request_id := 0; env_server_id := []; env_shell_id := []; env_message := Some message |}.

Definition with_request_id (id : Z) (e : Envelope) : Envelope := {|
  env_request_id := id; env_server_id := env_server_id e; env_shell_id := env_shell_id e;
  env_message := env_message e |}.
Definition with_shell_id (id : bytes) (e : Envelope) : Envelope := {|
  env_request_id := env_request_id e; env_server_id := env_server_id e; env_shell_id := id;
  env_message := env_message e |}.

(** ** Channels *)

(** What the next read of a stream gives; [RElapsed] is the expiry of the timer
    of [recv_until], which nothing else sees. *)
Inductive ReadEvent := RData (b : bytes) | RClosed | RBroken (text : str) | RElapsed.

Record Chan := {
  ch_reads : list ReadEvent;
  ch_writes : list (option str);
  ch_decoder : FrameDecoder;
  ch_out : bytes;
}.

(** [Chan::open] on a new stream. *)
Definition chan_open (stream : result (list ReadEvent * list (option str)) str)
    : result Chan ClientErr :=
  match stream with
  | Err e => Err (EText e)
  | Ok (reads, writes) =>
      Ok {| ch_reads := reads; ch_writes := writes; ch_decoder := decoder_new FRAME_BYTES_DEFAULT;
            ch_out := [] |}
  end.

Definition set_reads (c : Chan) (r : list ReadEvent) (d : FrameDecoder) : Chan := {|
  ch_reads := r; ch_writes := ch_writes c; ch_decoder := d; ch_out := ch_out c |}.

(** [write_all] on the stream: the next entry of [ch_writes] is its failure. *)
Definition write_stream (c : Chan) (b : bytes) : Chan * result unit ClientErr :=
  let w := tail (ch_writes c) in
  match head (ch_writes c) with
  | Some (Some e) =>
      ({| ch_reads := ch_reads c; ch_writes := w; ch_decoder := ch_decoder c; ch_out := ch_out c |},
       Err (EText e))
  | _ =>
      ({| ch_reads := ch_reads c; ch_writes := w; ch_decoder := ch_decoder c;
          ch_out := ch_out c ++ b |}, Ok ())
  end.

Section api.
Context {PM : ProstMessage Envelope} {S : HashOps}.

Definition send_env (c : Chan) (envelope : Envelope) : Chan * result unit ClientErr :=
  match encode_frame envelope FRAME_BYTES_DEFAULT with
  | Err e => (c, Err (EFrame e))
  | Ok b => write_stream c b
  end.

(** The loop of [recv_env] over the stream's reads; [timed] when it runs under
    the timer. *)
Fixpoint recv_loop (timed : bool) (reads : list ReadEvent) (d : FrameDecoder)
    : option (list ReadEvent * FrameDecoder * result Envelope ClientErr) :=
  match next_frame d with
  | (d, Err e) => Some (reads, d, Err (EFrame e))
  | (d, Ok (Some envelope)) => Some (reads, d, Ok envelope)
  | (d, Ok None) =>
      match reads with
      | [] => None
      | RData b :: reads =>
          match extend d b with
          | (d, Err e) => Some (reads, d, Err (EFrame e))
          | (d, Ok _) => recv_loop timed reads d
          end
      | RClosed :: reads => Some (reads, d, Err (EText (lit "stream closed")))
      | RBroken e :: reads => Some (reads, d, Err (EText e))
      | RElapsed :: reads =>
          if timed then Some (reads, d, Err (EText (lit "timed out waiting for server response")))
          else recv_loop timed reads d
      end
  end.

Definition recv_env_with (timed : bool) (c : Chan) : option (Chan * result Envelope ClientErr) :=
  '(reads, d, r) ← recv_loop timed (ch_reads c) (ch_decoder c); Some (set_reads c reads d, r).

Definition recv_env (c : Chan) : option (Chan * result Envelope ClientErr) := recv_env_with false c.

(** [recv_until]: every turn takes a frame, at least four bytes, off the stream,
    so the bytes that will ever arrive are enough fuel. *)
Definition read_bytes (e : ReadEvent) : bytes := match e with RData b => b | _ => [] end.
Definition recv_fuel (c : Chan) : nat :=
  length (buf (ch_decoder c)) + length (concat (map read_bytes (ch_reads c))) + 1.

Fixpoint recv_until_loop {R} (fuel : nat) (c : Chan) (pred : Envelope → option R)
    : option (Chan * result R ClientErr) :=
  match fuel with
  | O => None
  | Datatypes.S fuel =>
      '(c, r) ← recv_env_with true c;
      match r with
      | Err e => Some (c, Err e)
      | Ok envelope =>
          match pred envelope with
          | Some r => Some (c, Ok r)
          | None => recv_until_loop fuel c pred
          end
      end
  end.

Definition recv_until {R} (c : Chan) (pred : Envelope → option R) : option (Chan * result R ClientErr) :=
  recv_until_loop (recv_fuel c) c pred.

(** ** Server URLs *)
(** [trim_end_matches('/')]. *)
Fixpoint trim_end_slashes (s : str) : str :=
  match s with
  | [] => []
  | c :: s =>
      match trim_end_slashes s with
      | [] => if c =? 0x2F then [] else [c]
      | t => c :: t
      end
  end.

(** [rsplit_once]: at the last occurrence. *)
Fixpoint rsplit_once (sep : char) (s : str) : option (str * str) :=
  match s with
  | [] => None
  | c :: s =>
      match rsplit_once sep s with
      | Some (a, b) => Some (c :: a, b)
      | None => if c =? sep then Some ([], s) else None
      end
  end.

Definition has (c : char) (s : str) : bool := bool_decide (c ∈ s).
Definition count_char (c : char) (s : str) : Z := len (filter (λ x, x = c) s).

Definition host_and_port (base scheme : str) (default_port : Z) : result (str * Z) ClientErr :=
  match strip_prefix scheme base with
  | None => Err (EText (lit "server URL must start with https:// or http:// (got " ++ base ++ lit ")"))
  | Some rest =>
      let authority := trim_end_slashes rest in
      if is_empty authority || has 0x2F authority || has 0x40 authority || has 0x3F authority ||
         has 0x23 authority
      then Err (EText (lit "server URL must contain only a host and optional port"))
      else
        match strip_prefix (lit "[") authority with
        | Some rest =>
            match split_once 0x5D rest with
            | None => Err (EText (lit "unterminated IPv6 address in server URL"))
            | Some (host, suffix) =>
                if is_empty host then Err (EText (lit "server URL host is empty"))
                else
                  match strip_prefix (lit ":") suffix with
                  | Some [] => Err (EText (lit "server port is empty"))
                  | Some value =>
                      let? port := ok_or (parse_uint u16_max value) (EText (lit "invalid server port")) in
                      Ok (host, port)
                  | None =>
                      if is_empty suffix then Ok (host, default_port)
                      else Err (EText (lit "invalid text after IPv6 host"))
                  end
            end
        | None =>
            if 1 <? count_char 0x3A authority
            then Err (EText (lit "IPv6 addresses in server URLs must be enclosed in brackets"))
            else
              match rsplit_once 0x3A authority with
              | Some (host, port) =>
                  if negb (is_empty host) && negb (is_empty port)
                  then let? port := ok_or (parse_uint u16_max port) (EText (lit "invalid server port")) in
                       Ok (host, port)
                  else Err (EText (lit "server URL host or port is empty"))
              | None => Ok (authority, default_port)
              end
        end
  end.

(** ** Authentication *)
Inductive AuthMethod :=
  | MDev
  | MGrant (grant : bytes)
  | MSshKey (username path : str)
  | MPassword (username password : str).

(** A key file as [ssh_key] sees it; [lk_sign] also stands for [ssh-keygen]. *)
Record LocalKey := {
  lk_security_key : bool;
  lk_encrypted : bool;
  lk_public_line : result bytes str;
  lk_sign : bytes → result bytes str;
}.

Definition SSH_PRIVATE_KEY_MAX_BYTES : Z := 64 * 1024.

(** [read_private_key]: [file] is the length the metadata gives and the bytes
    read up to the limit; [parse] is [PrivateKey::from_openssh]. *)
Definition read_private_key (file : result (Z * bytes) str) (parse : bytes → result LocalKey str)
    : result LocalKey str :=
  let? (n, b) := file in
  let too_large := lit "private key exceeds 65536 bytes" in
  if SSH_PRIVATE_KEY_MAX_BYTES <? n then Err too_large
  else if SSH_PRIVATE_KEY_MAX_BYTES <? len b then Err too_large
  else parse b.

Definition send_auth (c : Chan) (method : AuthMethodMsg)
    : option (Chan * result AuthenticationResult ClientErr) :=
  match send_env c (plain (MsgAuthenticate (Some method))) with
  | (c, Err e) => Some (c, Err e)
  | (c, Ok _) => recv_until c (λ env, match env_message env with
                                      | Some (MsgAuthenticationResult r) => Some r
                                      | _ => None
                                      end)
  end.

Definition ensure_ok (r : AuthenticationResult) : result unit ClientErr :=
  if ar_ok r then Ok () else Err (EAuthenticationRejected (ar_error_message r)).

(** [Display] of the errors that reach a message. *)
Definition client_err_text (e : ClientErr) : str :=
  match e with
  | EText t | EAuthenticationRejected t | ESshAuthenticationFailed t => t
  | EFrame (TooLarge l m) =>
      lit "frame of " ++ dec_str l ++ lit " bytes exceeds negotiated maximum " ++ dec_str m
  | EFrame Decode => lit "frame payload is not a valid Envelope"
  | EFrame (EncodeTooLarge m) => lit "envelope does not fit the negotiated maximum " ++ dec_str m
  | EPasswordRequired => lit "password required"
  end.

Definition ssh_auth_failed (text : str) : ClientErr := ESshAuthenticationFailed text.

(** The exchange for a key: offer it, sign the challenge bound to the server's
    certificate, send the signature. *)
Definition authenticate_ssh (c : Chan) (username : str) (key : result LocalKey str)
    (channel_binding : bytes) : option (Chan * result bytes ClientErr) :=
  match key with
  | Err e => Some (c, Err (ssh_auth_failed e))
  | Ok key =>
      if lk_encrypted key && negb (lk_security_key key)
      then Some (c, Err (ssh_auth_failed (lit "passphrase-protected keys are not yet supported; use an unencrypted key")))
      else
        match lk_public_line key with
        | Err e => Some (c, Err (ssh_auth_failed e))
        | Ok public_line =>
            '(c, r) ← send_auth c (MSshChallengeRequest username public_line);
            match r with
            | Err e => Some (c, Err e)
            | Ok challenge_result =>
                let challenge := ar_challenge challenge_result in
                if is_empty challenge
                then Some (c, Err (ssh_auth_failed (lit "authentication failed (key not authorized)")))
                else
                  match lk_sign key (channel_bound_message channel_binding challenge) with
                  | Err e => Some (c, Err (ssh_auth_failed e))
                  | Ok signature =>
                      '(c, r) ← send_auth c (MSshChallengeResponse challenge signature);
                      Some (c, let? result := r in
                               let? _ := map_err (λ e, ssh_auth_failed (client_err_text e)) (ensure_ok result) in
                               Ok (ar_challenge result))
                  end
            end
        end
  end.

(** [keys] reads the file of an SSH key. *)
Definition authenticate (c : Chan) (auth : AuthMethod) (channel_binding : bytes)
    (keys : str → result LocalKey str) : option (Chan * result bytes ClientErr) :=
  match auth with
  | MDev =>
      '(c, r) ← send_auth c (MConnectionGrant []);
      Some (c, let? result := r in let? _ := ensure_ok result in Ok (ar_challenge result))
  | MGrant grant =>
      '(c, r) ← send_auth c (MConnectionGrant grant);
      Some (c, let? result := r in let? _ := ensure_ok result in
               Ok (if is_empty (ar_challenge result) then grant else ar_challenge result))
  | MSshKey username path => authenticate_ssh c username (keys path) channel_binding
  | MPassword username password =>
      '(c, r) ← send_auth c (MPasswordRequest username password);
      Some (c, let? result := r in let? _ := ensure_ok result in
               if is_empty (ar_challenge result)
               then Err (EText (lit "authentication succeeded but no grant was issued"))
               else Ok (ar_challenge result))
  end.

(** ** Connecting *)
Definition CLIENT_KIND_NATIVE_QUIC : Z := 3.

Definition client_hello (client_build : str) : ClientHello := {|
  ch_protocol_major := PROTOCOL_MAJOR; ch_protocol_minor := PROTOCOL_MINOR;
  ch_client_kind := CLIENT_KIND_NATIVE_QUIC; ch_client_build := client_build;
  ch_capabilities := map capability_i32 [FileTransfer; TcpForward]; ch_max_frame_bytes := FRAME_BYTES_DEFAULT;
  ch_max_datagram_bytes := 1200; ch_encodings := [ENCODING_UTF8] |}.

(** [ServerConn]; its [connection] is the endpoint the transport reached. *)
Record ServerConn := {
  sc_control : Chan;
  sc_grant : bytes;
  sc_hello : ServerHello;
  sc_next_request : Z;
}.

(** What connecting takes from outside: [/webtransport-info] as its port and
    certificate hash, the QUIC session with the certificate hash it saw, and the
    first stream. *)
Record Network := {
  net_info : str → result (option Z * option (result bytes str)) str;
  net_webtransport : str → Z → option (array 32) → result bytes str;
  net_stream : result (list ReadEvent * list (option str)) str;
  net_keys : str → result LocalKey str;
  net_build : str;
}.

(** Where to connect: [https] origins directly, others by the development
    bootstrap with a pinned certificate. *)
Definition endpoint (n : Network) (http_base : str) : result (str * Z * option (array 32)) ClientErr :=
  match strip_prefix (lit "https://") http_base with
  | Some _ =>
      let? (host, port) := host_and_port http_base (lit "https://") 443 in Ok (host, port, None)
  | None =>
      (* [http_get] parses the origin before anything is sent. *)
      let? _ := host_and_port http_base (lit "http://") 80 in
      let? (port, hash) := map_err EText (net_info n http_base) in
      let? port := ok_or port (EText (lit "info missing port")) in
      let? hash := ok_or hash (EText (lit "info missing certHashBase64")) in
      let? hash := map_err EText hash in
      let? hash := ok_or (array_of 32 hash) (EText (lit "cert hash must be 32 bytes")) in
      let? (host, _) := host_and_port http_base (lit "http://") 80 in
      Ok (host, wrap16 port, Some hash)
  end.

Definition connect_with (n : Network) (http_base : str) (auth : AuthMethod)
    : option (result ServerConn ClientErr) :=
  match endpoint n http_base with
  | Err e => Some (Err e)
  | Ok (host, port, expected_hash) =>
      match net_webtransport n host port expected_hash with
      | Err e => Some (Err (EText e))
      | Ok hash =>
          match chan_open (net_stream n) with
          | Err e => Some (Err e)
          | Ok c =>
              match send_env c (plain (MsgClientHello (client_hello (net_build n)))) with
              | (_, Err e) => Some (Err e)
              | (c, Ok _) =>
                  '(c, r) ← recv_until c (λ env, match env_message env with
                                                | Some (MsgServerHello h) => Some h
                                                | _ => None
                                                end);
                  match r with
                  | Err e => Some (Err e)
                  | Ok hello =>
                      '(c, r) ← authenticate c auth hash (net_keys n);
                      Some (let? grant := r in
                            Ok {| sc_control := c; sc_grant := grant; sc_hello := hello;
                                  sc_next_request := 1 |})
                  end
              end
          end
      end
  end.

(** ** Attaching *)
Inductive AttachError :=
  | ATransport (e : ClientErr)
  | ARejected (code : ErrorCode) (retryable : bool) (message : str).

Inductive FailureAction := Retry | RecoverViaIdempotency | ForgetAndExit | ExitKeepToken.

#[export] Instance failure_action_eq_dec : EqDecision FailureAction.
Proof. solve_decision. Defined.

Definition attach_failure_action (error : AttachError) (have_idempotency_key : bool) : FailureAction :=
  match error with
  | ATransport _ => Retry
  | ARejected code retryable _ =>
      match code with
      | ErrTokenExpired | ErrTokenReplayed =>
          if have_idempotency_key then RecoverViaIdempotency else ForgetAndExit
      | ErrNotFound => ForgetAndExit
      | _ => if retryable then Retry else ExitKeepToken
      end
  end.

(** [ErrorCode::try_from(code).unwrap_or(ErrInternal)]. *)
Definition all_error_codes : list ErrorCode :=
  [ErrVersion; ErrUnauthenticated; ErrForbidden; ErrNotFound; ErrFrameTooLarge; ErrUnknownMessage;
   ErrInputOverflow; ErrTooSlow; ErrNotReady; ErrTokenExpired; ErrTokenReplayed; ErrLimitExceeded;
   ErrServerUnavailable; ErrInternal; ErrInvalidArgument; ErrChecksumMismatch].

Definition error_code_of (code : Z) : ErrorCode :=
  match list_find (λ c, error_code_i32 c = code) all_error_codes with
  | Some (_, c) => c
  | None => ErrInternal
  end.

Record AttachedShell := {
  at_chan : Chan;
  at_shell_id : bytes;
  at_snapshot : bytes;
  at_rotated_token : bytes;
  at_oldest_history_line_id : Z;
  at_newest_history_line_id : Z;
}.

Definition attach_envelope (shell_id token : bytes) (cols rows : Z) : Envelope :=
  with_shell_id shell_id (plain (MsgAttachShell {|
    as_resume_token := token; as_cols := cols; as_rows := rows; as_last_seen_revision := 0;
    as_last_history_line_id := 0 |})).

Definition attach_reply (env : Envelope) : option (result ShellAttached PbError) :=
  match env_message env with
  | Some (MsgShellAttached a) => Some (Ok a)
  | Some (MsgError e) => Some (Err e)
  | _ => None
  end.

Definition attach_shell (stream : result (list ReadEvent * list (option str)) str)
    (shell_id token : bytes) (cols rows : Z) : option (result AttachedShell AttachError) :=
  match chan_open stream with
  | Err e => Some (Err (ATransport e))
  | Ok c =>
      match send_env c (attach_envelope shell_id token cols rows) with
      | (_, Err e) => Some (Err (ATransport e))
      | (c, Ok _) =>
          '(c, r) ← recv_until c attach_reply;
          Some match r with
               | Err e => Err (ATransport e)
               | Ok (Err e) =>
                   Err (ARejected (error_code_of (err_code e)) (err_retryable e) (err_human_message e))
               | Ok (Ok a) =>
                   Ok {| at_chan := c; at_shell_id := shell_id; at_snapshot := sa_screen_snapshot a;
                         at_rotated_token := sa_rotated_resume_token a;
                         at_oldest_history_line_id := sa_oldest_history_line_id a;
                         at_newest_history_line_id := sa_newest_history_line_id a |}
               end
      end
  end.

End api.

(** ** Requests on the control channel *)
Module ServerConn.
Section conn.
Context {PM : ProstMessage Envelope}.

Definition set_control (s : ServerConn) (c : Chan) : ServerConn := {|
  sc_control := c; sc_grant := sc_grant s; sc_hello := sc_hello s;
  sc_next_request := sc_next_request s |}.

(** [self.next_request += 1] panics on overflow: [None] (never reached). *)
Definition request_id (s : ServerConn) : option (ServerConn * Z) :=
  id ← checked_add64 (sc_next_request s) 1;
  Some ({| sc_control := sc_control s; sc_grant := sc_grant s; sc_hello := sc_hello s;
           sc_next_request := id |}, sc_next_request s).

Definition exchange {R} (s : ServerConn) (env : Envelope) (pred : Z → Envelope → option R)
    : option (ServerConn * result R ClientErr) :=
  '(s, id) ← request_id s;
  match send_env (sc_control s) (with_request_id id env) with
  | (c, Err e) => Some (set_control s c, Err e)
  | (c, Ok _) => '(c, r) ← recv_until c (pred id); Some (set_control s c, r)
  end.

Definition list_shells (s : ServerConn) : option (ServerConn * result (list PbShellInfo) ClientErr) :=
  exchange s (plain MsgListShells) (λ id env,
    match env_message env with
    | Some (MsgShellList l) => if env_request_id env =? id then Some l else None
    | _ => None
    end).

Definition open_envelope (command : option str) (cols rows : Z) (key : array 16) : Envelope :=
  plain (MsgOpenShell {|
    os_unix_account := []; os_command := default [] command; os_initial_cols := cols;
    os_initial_rows := rows; os_idempotency_key := array_bytes key |}).

(** The reply of the caller's own request, or its error. *)
Definition own {R} (what : str) (f : Envelope → option R) (id : Z) (env : Envelope)
    : option (result R ClientErr) :=
  if env_request_id env =? id then
    match f env, env_message env with
    | Some r, _ => Some (Ok r)
    | None, Some (MsgError e) => Some (Err (EText (what ++ lit " failed: " ++ err_human_message e)))
    | None, _ => None
    end
  else None.

Definition opened_of (env : Envelope) : option (bytes * bytes) :=
  match env_message env with
  | Some (MsgShellOpened o) => Some (env_shell_id env, so_resume_token o)
  | _ => None
  end.

Definition exited_of (env : Envelope) : option Z :=
  match env_message env with Some (MsgShellExited e) => Some (se_exit_code e) | _ => None end.

Definition flatten {A E} (r : result (result A E) E) : result A E :=
  match r with Ok r => r | Err e => Err e end.

Definition open_shell (s : ServerConn) (command : option str) (cols rows : Z) (key : array 16)
    : option (ServerConn * result (bytes * bytes) ClientErr) :=
  '(s, r) ← exchange s (open_envelope command cols rows key) (own (lit "open") opened_of);
  Some (s, flatten r).

Definition terminate (s : ServerConn) (shell_id : bytes)
    : option (ServerConn * result Z ClientErr) :=
  '(s, r) ← exchange s (with_shell_id shell_id (plain MsgTerminateShell)) (own (lit "terminate") exited_of);
  Some (s, flatten r).

(** [None]: the server did not advertise an interval. *)
Definition keepalive_interval (s : ServerConn) : option Z :=
  if 0 <? sh_keepalive_interval_ms (sc_hello s) then Some (sh_keepalive_interval_ms (sc_hello s)) else None.

End conn.
End ServerConn.

(** ** An attachment's halves *)
Inductive ShellEvent := EvOutput (data : bytes) | EvExited (code : Z) | EvPing (nonce : Z).

Section attachment.
Context {PM : ProstMessage Envelope}.

Definition input (c : Chan) (data : bytes) := send_env c (plain (MsgTerminalInput data)).
Definition resize (c : Chan) (cols rows : Z) := send_env c (plain (MsgTerminalResize cols rows)).
Definition pong (c : Chan) (nonce : Z) := send_env c (plain (MsgPong nonce)).
Definition request_history (c : Chan) (before_line_id maximum_lines : Z) :=
  send_env c (plain (MsgRequestHistory {|
    rh_before_line_id := before_line_id; rh_maximum_lines := maximum_lines;
    rh_maximum_bytes := 128 * 1024 |})).
Definition detach (c : Chan) := send_env c (plain MsgDetachShell).

Definition history (c : Chan) (before max_lines : Z) : option (Chan * result (list str) ClientErr) :=
  match request_history c before max_lines with
  | (c, Err e) => Some (c, Err e)
  | (c, Ok _) => recv_until c (λ env, match env_message env with
                                      | Some (MsgHistoryChunk h) => Some (hc_lines h)
                                      | _ => None
                                      end)
  end.

Definition event_of (env : Envelope) : option ShellEvent :=
  match env_message env with
  | Some (MsgTerminalOutput data) => Some (EvOutput data)
  | Some (MsgShellExited e) => Some (EvExited (se_exit_code e))
  | Some (MsgPing nonce) => Some (EvPing nonce)
  | _ => None
  end.

Fixpoint next_event_loop (fuel : nat) (c : Chan) : option (Chan * result ShellEvent ClientErr) :=
  match fuel with
  | O => None
  | Datatypes.S fuel =>
      '(c, r) ← recv_env c;
      match r with
      | Err e => Some (c, Err e)
      | Ok env =>
          match event_of env with
          | Some ev => Some (c, Ok ev)
          | None => next_event_loop fuel c
          end
      end
  end.

Definition next_event (c : Chan) : option (Chan * result ShellEvent ClientErr) :=
  next_event_loop (recv_fuel c) c.

End attachment.
