(* ===== verification/ClientUpload.v ===== *)
(** * Uploading a file from the client

    [upload_file] of [crates/native-client/src/lib.rs]: hash a selected regular
    file in one pass, declare it, and stream it in a second pass in the chunks
    the server allows. The file may change between and during the passes; every
    [select!] against the cancellation is one entry of a script. *)
From S2P Require Import Prelude Protocol Framing UploadProto ClientApi UploadStore.

(** One turn of a [select!]: the operation proceeds (a read gives at most [n]
    bytes), the cancellation wins ([wrote] bytes of a pending write are out), or
    the read fails. *)
Inductive Turn := Go (n : nat) | Cancel (wrote : nat) | Broken (text : str).

(** The selected path: what [lstat] says (symlink, regular file), opening, what
    [fstat] says (regular file, length), the file name if it is UTF-8, and the
    content that each pass reads. *)
Record LocalFile := {
  lf_lstat : result (bool * bool) str;
  lf_open : result unit str;
  lf_fstat : result (bool * Z) str;
  lf_name : option str;
  lf_first : bytes;
  lf_seek : result unit str;
  lf_second : bytes;
}.

Record UploadResult := { ur_remote_path : str; ur_bytes_written : Z; ur_sha256 : array 32 }.

(** [file.read(&mut buffer[..limit])] at [pos]: empty only at the end. *)
Definition file_read (content : bytes) (pos limit n : nat) : bytes :=
  take (limit `min` (1 `max` n)) (drop pos content).

Definition cancelled : ClientErr := EText (lit "upload cancelled").

(** The hashing pass with a buffer of [limit] bytes; [hashed] is what the
    SHA-256 state has absorbed. *)
Fixpoint hash_loop (limit : nat) (turns : list Turn) (content : bytes) (hashed : bytes)
    : option (list Turn * result bytes ClientErr) :=
  match turns with
  | [] => None
  | Cancel _ :: turns => Some (turns, Err cancelled)
  | Broken e :: turns => Some (turns, Err (EText e))
  | Go n :: turns =>
      let read := file_read content (length hashed) limit n in
      if is_empty read then Some (turns, Ok hashed)
      else hash_loop limit turns content (hashed ++ read)
  end.

Section upload.
Context {PM : ProstMessage Envelope} {S : HashOps}.

Definition abort_upload (c : Chan) (upload_id : bytes) : Chan :=
  (send_env c (plain (MsgAbortUpload {|
     au_upload_id := upload_id; au_reason := lit "client cancellation" |}))).1.

(** A write that the cancellation drops after [wrote] bytes. *)
Definition dropped_send (c : Chan) (envelope : Envelope) (wrote : nat) : Chan :=
  match encode_frame envelope FRAME_BYTES_DEFAULT with
  | Err _ => c
  | Ok b => {| ch_reads := ch_reads c; ch_writes := ch_writes c; ch_decoder := ch_decoder c;
               ch_out := ch_out c ++ take wrote b |}
  end.

Definition chunk_envelope (upload_id : bytes) (offset : Z) (data : bytes) : Envelope :=
  plain (MsgUploadChunk {| uc_upload_id := upload_id; uc_offset := offset; uc_data := data |}).

(** The sending pass. *)
Fixpoint send_loop (turns : list Turn) (c : Chan) (content upload_id : bytes)
    (maximum offset total : Z) : option (list Turn * Chan * result unit ClientErr) :=
  if total <=? offset then Some (turns, c, Ok ())
  else
    match turns with
    | [] => None
    | Cancel _ :: turns => Some (turns, abort_upload c upload_id, Err cancelled)
    | Broken e :: turns => Some (turns, c, Err (EText e))
    | Go n :: turns =>
        let read := file_read content (Z.to_nat offset) (Z.to_nat (Z.min (total - offset) maximum)) n in
        if is_empty read
        then Some (turns, abort_upload c upload_id,
                   Err (EText (lit "upload source became shorter while sending")))
        else
          let chunk := chunk_envelope upload_id offset read in
          match turns with
          | [] => None
          | Cancel wrote :: turns =>
              Some (turns, abort_upload (dropped_send c chunk wrote) upload_id, Err cancelled)
          | _ :: turns =>
              match send_env c chunk with
              | (c, Err e) => Some (turns, c, Err e)
              | (c, Ok _) => send_loop turns c content upload_id maximum (offset + len read) total
              end
          end
    end.

Definition accepted_reply (env : Envelope) : option (result UploadAccepted ClientErr) :=
  match env_message env with
  | Some (MsgUploadAccepted a) => Some (Ok a)
  | Some (MsgError e) => Some (Err (EText (lit "upload rejected: " ++ err_human_message e)))
  | _ => None
  end.

Definition finished_reply (env : Envelope) : option (result UploadFinished ClientErr) :=
  match env_message env with
  | Some (MsgUploadFinished f) => Some (Ok f)
  | Some (MsgError e) => Some (Err (EText (lit "upload failed: " ++ err_human_message e)))
  | _ => None
  end.

(** A [select!] between the cancellation and an operation that takes no read. *)
Definition select {X} (turns : list Turn) (cancel : nat → X) (go : list Turn → option X) : option X :=
  match turns with
  | [] => None
  | Cancel wrote :: _ => Some (cancel wrote)
  | _ :: turns => go turns
  end.

(** The check of the server's account of the upload. *)
Definition check_finished (upload_id : bytes) (total : Z) (digest : array 32) (f : UploadFinished)
    : result UploadResult ClientErr :=
  if negb (bool_decide (uf_upload_id f = upload_id)) || negb (uf_bytes_written f =? total) ||
     negb (bool_decide (uf_sha256 f = array_bytes digest))
  then Err (EText (lit "server returned inconsistent upload result"))
  else Ok {| ur_remote_path := uf_remote_path f; ur_bytes_written := uf_bytes_written f;
             ur_sha256 := digest |}.

Definition finish_upload (turns : list Turn) (c : Chan) (upload_id : bytes) (total : Z)
    (digest : array 32) : option (Chan * result UploadResult ClientErr) :=
  let finish := plain (MsgFinishUpload upload_id) in
  select turns (λ wrote, (abort_upload (dropped_send c finish wrote) upload_id, Err cancelled)) (λ turns,
    match send_env c finish with
    | (c, Err e) => Some (c, Err e)
    | (c, Ok _) =>
        select turns (λ _, (abort_upload c upload_id, Err cancelled)) (λ _,
          '(c, r) ← recv_until c finished_reply;
          Some (c, let? r := r in let? finished := r in check_finished upload_id total digest finished))
    end).

(** What [upload_file] checks of the path before reading: its name and length. *)
Definition inspect (f : LocalFile) : result (str * Z) ClientErr :=
  let? (is_symlink, is_file) := map_err EText (lf_lstat f) in
  if is_symlink || negb is_file
  then Err (EText (lit "upload source must be a non-symlink regular file"))
  else
    let? _ := map_err EText (lf_open f) in
    let? (is_file, total_bytes) := map_err EText (lf_fstat f) in
    if negb is_file then Err (EText (lit "upload source must be a regular file"))
    else if UPLOAD_FILE_BYTES_HARD_MAX <? total_bytes
    then Err (EText (lit "upload source is " ++ dec_str total_bytes ++ lit " bytes; hard maximum is " ++
                     dec_str UPLOAD_FILE_BYTES_HARD_MAX))
    else
      match lf_name f with
      | Some name =>
          if is_empty name then Err (EText (lit "upload source filename must be non-empty UTF-8"))
          else Ok (name, total_bytes)
      | None => Err (EText (lit "upload source filename must be non-empty UTF-8"))
      end.

(** Stream the content once the server has accepted. *)
Definition stream_content (turns : list Turn) (c : Chan) (accepted : UploadAccepted)
    (content : bytes) (total_bytes : Z) (digest : array 32) : option (Chan * result UploadResult ClientErr) :=
  if negb (length (ua_upload_id accepted) =? UPLOAD_ID_BYTES)%nat ||
     (ua_maximum_chunk_bytes accepted =? 0) ||
     (UPLOAD_CHUNK_BYTES_MAX <? ua_maximum_chunk_bytes accepted)
  then Some (c, Err (EText (lit "server selected invalid upload bounds")))
  else
    let upload_id := ua_upload_id accepted in
    '(turns, c, r) ← send_loop turns c content upload_id (ua_maximum_chunk_bytes accepted) 0 total_bytes;
    match r with
    | Err e => Some (c, Err e)
    | Ok _ => finish_upload turns c upload_id total_bytes digest
    end.

Definition begin_envelope (shell_id : bytes) (begin : BeginUpload) : Envelope :=
  with_shell_id shell_id (with_request_id 1 (plain (MsgBeginUpload begin))).

(** Send the declaration and, once accepted, the content. *)
Definition transfer (turns : list Turn) (c : Chan) (shell_id : bytes) (begin : BeginUpload)
    (content : bytes) (digest : array 32) : option (Chan * result UploadResult ClientErr) :=
  match send_env c (begin_envelope shell_id begin) with
  | (c, Err e) => Some (c, Err e)
  | (c, Ok _) =>
      select turns (λ _, (c, Err cancelled)) (λ turns,
        '(c, r) ← recv_until c accepted_reply;
        match (let? r := r in r) with
        | Err e => Some (c, Err e)
        | Ok accepted => stream_content turns c accepted content (bu_total_bytes begin) digest
        end)
  end.

(** [stream] is the channel that will be opened; [None] for it in the result
    when it is not. *)
Definition upload_file (turns : list Turn) (stream : result (list ReadEvent * list (option str)) str)
    (shell_id : bytes) (f : LocalFile) : option (option Chan * result UploadResult ClientErr) :=
  match inspect f with
  | Err e => Some (None, Err e)
  | Ok (original_name, total_bytes) =>
      '(turns, r) ← hash_loop (Z.to_nat UPLOAD_CHUNK_BYTES_MAX) turns (lf_first f) [];
      match r with
      | Err e => Some (None, Err e)
      | Ok hashed =>
          if negb (len hashed =? total_bytes)
          then Some (None, Err (EText (lit "upload source changed while it was being hashed")))
          else
            let digest := sha256 hashed in
            match lf_seek f with
            | Err e => Some (None, Err (EText e))
            | Ok _ =>
                let begin := {| bu_original_name := original_name; bu_total_bytes := total_bytes;
                                bu_sha256 := array_bytes digest |} in
                match validate_begin begin UPLOAD_FILE_BYTES_HARD_MAX with
                | Err e => Some (None, Err (EText (validation_text e)))
                | Ok _ =>
                    match chan_open stream with
                    | Err e => Some (None, Err e)
                    | Ok c =>
                        '(c, r) ← transfer turns c shell_id begin (lf_second f) digest; Some (Some c, r)
                    end
                end
            end
      end
  end.

End upload.

(** ** What a successful upload sent *)
Section props.
Context {PM : ProstMessage Envelope} {S : HashOps}.

(** [c'] is [c] after the frames of [envs] went out, and nothing else. *)
Definition wrote (c c' : Chan) (envs : list Envelope) : Prop :=
  ∃ frames, Forall2 (λ e b, encode_frame e FRAME_BYTES_DEFAULT = Ok b) envs frames ∧
            ch_out c' = ch_out c ++ concat frames.

Lemma wrote_nil c c' : ch_out c' = ch_out c → wrote c c' [].
Proof. intros E. exists []. by rewrite E app_nil_r. Qed.

Lemma wrote_trans c1 c2 c3 xs ys : wrote c1 c2 xs → wrote c2 c3 ys → wrote c1 c3 (xs ++ ys).
Proof.
  intros (f & Hf & E1) (g & Hg & E2). exists (f ++ g). split; [by apply Forall2_app|].
  by rewrite E2 E1 concat_app app_assoc.
Qed.

Lemma send_env_Ok c c' e u : send_env c e = (c', Ok u) → wrote c c' [e].
Proof.
  rewrite /send_env /write_stream. destruct (encode_frame e _) as [b|] eqn:Ee; [|done].
  intros Hw. exists [b]. split; [by constructor|]. simpl. rewrite app_nil_r.
  destruct (head (ch_writes c)) as [[t|]|]; by simplify_eq.
Qed.

Lemma recv_until_wrote {R} c c' (pred : Envelope → option R) r :
  recv_until c pred = Some (c', r) → wrote c c' [].
Proof.
  intros Hr. apply wrote_nil. revert Hr. rewrite /recv_until.
  generalize (recv_fuel c) as fuel. intros fuel. revert c.
  induction fuel as [|fuel IH]; intros c; simpl; [done|].
  rewrite /recv_env_with. destruct (recv_loop _ _ _) as [[[reads d] [e|x]]|]; simpl; [|by intros [= <- <-]|done].
  destruct (pred e); [by intros [= <- <-]|]. intros ->%IH. done.
Qed.

Lemma file_read_spec content pos limit n :
  let b := file_read content pos limit n in
  b = take (length b) (drop pos content) ∧ (length b ≤ limit)%nat.
Proof.
  simpl. rewrite /file_read length_take. split; [|lia].
  generalize (limit `min` (1 `max` n))%nat as k => k.
  rewrite -take_take (take_ge (drop pos content) (length (drop pos content))) //.
Qed.

(** The chunks of a sending pass are consecutive, non-empty, within the limit,
    and together the declared prefix of the file. *)
Lemma send_loop_Ok turns c content (id : array UPLOAD_ID_BYTES) maximum offset total turns' c' :
  send_loop turns c content (array_bytes id) maximum offset total = Some (turns', c', Ok ()) →
  0 ≤ offset ≤ total →
  ∃ pieces,
    wrote c c' ((λ ch, plain (MsgUploadChunk ch)) <$> make_chunks id offset pieces) ∧
    Forall (λ p, p ≠ [] ∧ len p ≤ maximum) pieces ∧
    concat pieces = take (Z.to_nat (total - offset)) (drop (Z.to_nat offset) content) ∧
    len (concat pieces) = total - offset.
Proof.
  remember (length turns) as m eqn:Em. revert turns c offset Em.
  induction m as [m IH] using lt_wf_ind. intros turns c offset -> Hs Ho.
  destruct turns as [|[n|w|e] turns]; cbn [send_loop] in Hs; destruct (total <=? offset) eqn:El; to_prop.
  1,3,5,7: injection Hs as <- <-; exists []; split_and!;
    [by apply wrote_nil|done| |rewrite len_nil; lia];
    by replace (Z.to_nat (total - offset)) with 0%nat by lia.
  all: try done.
  set (limit := Z.to_nat (Z.min (total - offset) maximum)) in Hs.
  destruct (file_read_spec content (Z.to_nat offset) limit n) as [Hr Hl].
  set (read := file_read _ _ limit n) in *.
  destruct (is_empty read) eqn:Ee; [done|].
  assert (read ≠ []) as Hne by (by intros E; rewrite E in Ee).
  assert (∃ t ts c1, turns = t :: ts ∧ send_env c (chunk_envelope (array_bytes id) offset read) = (c1, Ok ()) ∧
    send_loop ts c1 content (array_bytes id) maximum (offset + len read) total = Some (turns', c', Ok ()))
    as (t & ts & c1 & -> & Hsend & Hrest).
  { destruct turns as [|[|w|] ts]; [done| |done|];
      (destruct (send_env c _) as [c1 [[]|?]] eqn:Es; [by eexists _, ts, c1|done]). }
  assert (len read ≤ total - offset ∧ len read ≤ maximum ∧ 0 < len read) as (? & ? & ?).
  { rewrite /len. destruct read; [done|]. simpl in *. lia. }
  destruct (IH (length ts) ltac:(simpl; lia) ts c1 (offset + len read) eq_refl Hrest ltac:(lia))
    as (pieces & Hw & Hp & Hc & Hlen).
  exists (read :: pieces). cbn [make_chunks concat fmap list_fmap]. split_and!.
  - eapply (wrote_trans _ _ _ [_]); [by eapply send_env_Ok|done].
  - by constructor.
  - rewrite Hc {1}Hr. rewrite (_ : Z.to_nat (offset + len read) = (Z.to_nat offset + length read)%nat).
    2:{ rewrite /len. lia. }
    rewrite -drop_drop take_take_drop. f_equal. rewrite /len. lia.
  - rewrite len_app Hlen. lia.
Qed.

(** The hashing pass absorbs the whole file. *)
Lemma hash_loop_Ok limit turns content hashed turns' h :
  (0 < limit)%nat → hashed = take (length hashed) content →
  hash_loop limit turns content hashed = Some (turns', Ok h) → h = content.
Proof.
  intros Hm. revert hashed. induction turns as [|[n|w|e] turns IH]; intros hashed Hh; simpl; [done| |done|done].
  destruct (file_read_spec content (length hashed) limit n) as [Hr _].
  destruct (is_empty _) eqn:Ee.
  - intros [= <- <-]. apply is_empty_true in Ee. revert Ee. rewrite /file_read. intros Ee.
    destruct (drop (length hashed) content) as [|x rest] eqn:Ed.
    + rewrite Hh. rewrite -{2}(take_drop (length hashed) content) Ed app_nil_r //.
    + destruct limit as [|m]; [lia|]. by destruct n.
  - apply IH. rewrite {1}Hh {1}Hr length_app take_take_drop //.
Qed.

Lemma select_inv {X} turns cancel (go : list Turn → option X) x :
  select turns cancel go = Some x → (∃ w, x = cancel w) ∨ ∃ turns', go turns' = Some x.
Proof. destruct turns as [|[n|w|e] ts]; simpl; [done|eauto|intros [= <-]; eauto|eauto]. Qed.

(** The messages of an upload of [pieces], in order. *)
Definition transcript (shell_id : bytes) (md : BeginUpload) (id : array UPLOAD_ID_BYTES)
    (pieces : list bytes) : list Envelope :=
  [begin_envelope shell_id md] ++
  ((λ ch, plain (MsgUploadChunk ch)) <$> make_chunks id 0 pieces) ++
  [plain (MsgFinishUpload (array_bytes id))].

Lemma finish_upload_Ok turns c id total digest c' res :
  finish_upload turns c id total digest = Some (c', Ok res) →
  wrote c c' [plain (MsgFinishUpload id)] ∧ ur_bytes_written res = total ∧ ur_sha256 res = digest.
Proof.
  intros [[w ?]|[ts Hf]]%select_inv; [done|].
  destruct (send_env c _) as [c1 [[]|e]] eqn:Es; [|done]. apply send_env_Ok in Es.
  apply select_inv in Hf as [[w ?]|[ts' Hf]]; [done|].
  destruct (recv_until c1 finished_reply) as [[c2 r]|] eqn:Hu; [|done].
  apply recv_until_wrote in Hu. injection Hf as -> Hf.
  split; [by apply (wrote_trans _ _ _ _ [] Es)|].
  destruct r as [[f|]|]; [|done|done]. revert Hf. rewrite /check_finished.
  destruct (_ || _) eqn:Ec; [done|]. to_prop. by intros [= <-].
Qed.

Lemma transfer_Ok turns c shell_id md content digest c' res :
  0 ≤ bu_total_bytes md →
  transfer turns c shell_id md content digest = Some (c', Ok res) →
  ∃ (id : array UPLOAD_ID_BYTES) maximum pieces,
    wrote c c' (transcript shell_id md id pieces) ∧
    maximum ≤ UPLOAD_CHUNK_BYTES_MAX ∧ Forall (λ p, p ≠ [] ∧ len p ≤ maximum) pieces ∧
    concat pieces = take (Z.to_nat (bu_total_bytes md)) content ∧
    len (concat pieces) = bu_total_bytes md ∧
    ur_bytes_written res = bu_total_bytes md ∧ ur_sha256 res = digest.
Proof.
  intros H0. rewrite /transfer.
  destruct (send_env c _) as [c1 [[]|e]] eqn:Es; [|done]. apply send_env_Ok in Es.
  intros [[w ?]|[ts Ht]]%select_inv; [done|].
  destruct (recv_until c1 accepted_reply) as [[c2 r]|] eqn:Hu; [|done]. apply recv_until_wrote in Hu.
  destruct r as [[a|e]|e]; simpl in Ht; [|done|done]. revert Ht. rewrite /stream_content.
  destruct (_ || _) eqn:Eb; [done|]. to_prop.
  destruct (array_of UPLOAD_ID_BYTES (ua_upload_id a)) as [id|] eqn:Ea; last first.
  { apply array_of_None in Ea. by rewrite Nat.eqb_eq in H. }
  apply array_of_Some in Ea. rewrite -Ea.
  destruct (send_loop _ _ _ _ _ _ _) as [[[ts' c3] [[]|e]]|] eqn:El; simpl; [|done|done].
  intros (Hw & Hb & Hd)%finish_upload_Ok.
  destruct (send_loop_Ok _ _ _ _ _ _ _ _ _ El ltac:(lia)) as (pieces & Hp & Hf & Hc & Hl).
  exists id, (ua_maximum_chunk_bytes a), pieces. rewrite Z.sub_0_r in Hc Hl. split_and!; try done.
  - apply (wrote_trans _ _ _ [_] _ Es). apply (wrote_trans _ _ _ [] _ Hu). by eapply wrote_trans.
Qed.

Lemma inspect_Ok f name total : inspect f = Ok (name, total) → lf_name f = Some name ∧ name ≠ [].
Proof.
  rewrite /inspect. destruct (map_err _ (lf_lstat f)) as [[sy fi]|]; [|done]. case_match; [done|].
  destruct (map_err _ (lf_open f)); [|done]. destruct (map_err _ (lf_fstat f)) as [[fi' t]|]; [|done].
  case_match; [done|]. case_match; [done|]. destruct (lf_name f) as [[|c n]|]; simpl; [done| |done].
  intros [= <- <-]. done.
Qed.

(** What a successful upload amounts to: the declared length and digest are
    those of the file, what went out is one transcript of it, and the result is
    what was declared. *)
Lemma upload_file_Ok turns stream shell_id f oc res :
  upload_file turns stream shell_id f = Some (oc, Ok res) →
  ∃ c name id maximum pieces,
    let md := {| bu_original_name := name; bu_total_bytes := len (lf_first f);
                 bu_sha256 := array_bytes (sha256 (lf_first f)) |} in
    oc = Some c ∧ lf_name f = Some name ∧ validate_begin md UPLOAD_FILE_BYTES_HARD_MAX = Ok () ∧
    (∃ frames, Forall2 (λ e b, encode_frame e FRAME_BYTES_DEFAULT = Ok b)
                 (transcript shell_id md id pieces) frames ∧ ch_out c = concat frames) ∧
    maximum ≤ UPLOAD_CHUNK_BYTES_MAX ∧ Forall (λ p, p ≠ [] ∧ len p ≤ maximum) pieces ∧
    concat pieces = take (length (lf_first f)) (lf_second f) ∧
    len (concat pieces) = len (lf_first f) ∧
    ur_bytes_written res = len (lf_first f) ∧ ur_sha256 res = sha256 (lf_first f).
Proof.
  rewrite /upload_file. destruct (inspect f) as [[name total]|] eqn:Ei; [|done].
  apply inspect_Ok in Ei as [Hn _].
  destruct (hash_loop _ turns (lf_first f) []) as [[ts [h|e]]|] eqn:Eh; [|done|done].
  apply hash_loop_Ok in Eh; [|rewrite /UPLOAD_CHUNK_BYTES_MAX; lia|done]. subst h. cbn [mbind option_bind].
  destruct (len (lf_first f) =? total) eqn:Et; [|done]. to_prop. subst total. cbn [negb].
  destruct (lf_seek f); [|done].
  destruct (validate_begin _ _) as [[]|] eqn:Ev; [|done].
  destruct (chan_open stream) as [c|] eqn:Ec; [|done].
  destruct (transfer _ _ _ _ _ _) as [[c' r]|] eqn:Ex; [|done]. cbn. intros [= <- ->].
  apply transfer_Ok in Ex as (id & maximum & pieces & Hw & Hm & Hp & Hc & Hl & Hb & Hs);
    [|apply len_nonneg].
  exists c', name, id, maximum, pieces. split_and!; try done.
  - destruct Hw as (frames & Hf & Ho). exists frames. split; [done|]. rewrite Ho.
    revert Ec. rewrite /chan_open. destruct stream as [[? ?]|]; [|done]. by intros [= <-].
  - rewrite Hc. cbn [bu_total_bytes]. by rewrite /len Nat2Z.id.
Qed.


End props.
