(* ===== verification/ClientCore.v ===== *)
(** * The desktop client's supervisor

    [crates/client-core/src/server.rs], [lib.rs]: one supervisor per configured
    server. It connects and authenticates, resolves journalled opens, serves
    commands over the control channel and attachments over their own streams,
    and reconnects. The world of a supervisor is the store with its disk, what it
    told the GUI, what it asked the server and what the environment will answer. *)
From S2P Require Import Prelude Protocol Framing Ids ClientStore ClientApi.

Definition MAX_INFLIGHT_CONTROL : Z := 32.
Definition MAX_MISSED_PONGS : Z := 3.
Definition DEFAULT_KEEPALIVE_MS : Z := 15000.
Definition BACKOFF_START_MS : Z := 1000.
Definition BACKOFF_CAP_MS : Z := 15000.

(** ** The control-channel actor *)
Module Control.

(** [pending]: the oneshot sender of each request in flight, named by a number. *)
Record Control := { pending : gmap Z nat; outstanding_pings : Z; nonce : Z }.

Definition control_new : Control := {| pending := ∅; outstanding_pings := 0; nonce := 0 |}.

(** What ends the wait of a turn: a request with its reply sender, the end of the
    handles, a frame or the failure of the channel, or the keepalive ticker. *)
Inductive Event :=
  | Req (env : Envelope) (reply : nat)
  | HandlesGone
  | Recv (r : result Envelope unit)
  | Tick.

Inductive Out := Sends (env : Envelope) | Answers (reply : nat) (r : result Envelope str).

(** One turn; [sent] is what a write in it comes to. The last result is whether
    the loop goes on; [None] is the overflow of the nonce. *)
Definition turn (c : Control) (e : Event) (sent : result unit str) : option (Control * list Out * bool) :=
  match e with
  | Req env reply =>
      if MAX_INFLIGHT_CONTROL <=? Z.of_nat (size (pending c))
      then Some (c, [Answers reply (Err (lit "too many in-flight control requests"))], true)
      else
        match sent with
        | Ok _ =>
            Some ({| pending := <[env_request_id env := reply]> (pending c);
                     outstanding_pings := outstanding_pings c; nonce := nonce c |}, [Sends env], true)
        | Err e => Some (c, [Answers reply (Err e)], false)
        end
  | HandlesGone => Some (c, [], false)
  | Recv (Err _) => Some (c, [], false)
  | Recv (Ok env) =>
      match env_message env with
      | Some (MsgPing n) =>
          if is_ok sent then Some (c, [Sends (plain (MsgPong n))], true) else Some (c, [], false)
      | Some (MsgPong _) =>
          Some ({| pending := pending c; outstanding_pings := 0; nonce := nonce c |}, [], true)
      | _ =>
          match pending c !! env_request_id env with
          | Some reply =>
              Some ({| pending := delete (env_request_id env) (pending c);
                       outstanding_pings := outstanding_pings c; nonce := nonce c |},
                    [Answers reply (Ok env)], true)
          | None => Some (c, [], true)
          end
      end
  | Tick =>
      if MAX_MISSED_PONGS <=? outstanding_pings c then Some (c, [], false)
      else
        nonce ← checked_add64 (nonce c) 1;
        let c := {| pending := pending c; outstanding_pings := outstanding_pings c + 1; nonce := nonce |} in
        if is_ok sent then Some (c, [Sends (plain (MsgPing nonce))], true) else Some (c, [], false)
  end.

(** The loop over a sequence of turns; when it ends, the senders still pending
    are dropped, which fails their requests. *)
Fixpoint run (c : Control) (events : list (Event * result unit str)) : option (Control * list Out * bool) :=
  match events with
  | [] => Some (c, [], true)
  | (e, sent) :: events =>
      match turn c e sent with
      | None => None
      | Some (c, out, false) => Some (c, out, false)
      | Some (c, out, true) =>
          match run c events with
          | None => None
          | Some (c, out', go) => Some (c, out ++ out', go)
          end
      end
  end.

End Control.

(** ** Events and replies *)
Inductive ServerStatus := Connecting | Connected | Reconnecting | AuthRequired.
Inductive ShellStateEvent := Attached | Detached | Orphaned | ExitedState.

Record ShellRow := { row_shell : str; row_state : str; row_name : option str; row_has_token : bool }.

Inductive CoreEvent :=
  | EvServerStatus (status : ServerStatus) (detail : option str)
  | EvShellState (shell : str) (state : ShellStateEvent) (exit_code : option Z)
  | EvShellsUpdated (shells : list ShellRow)
  | EvStoreWarning (message : str)
  | EvServerCapabilities (file_uploads : bool).

Record AttachInfo := { ai_snapshot : bytes; ai_oldest : Z; ai_newest : Z }.

(** Commands of the writer task of an attachment. *)
Inductive WriterCmd :=
  | WInput (data : bytes)
  | WResize (cols rows : Z)
  | WHistory (before_line_id max_lines : Z) (reply : nat)
  | WDetach.

Inductive CoreErr := KText (text : str) | KStore (e : StoreErr) | KAttach (e : AttachError).

Definition stream : Type := result (list ReadEvent * list (option str)) str.

(** A spawned attachment: its channel, the writer's queue, and whether the
    writer task still receives. *)
Record Pump := { pu_chan : Chan; pu_queue : list WriterCmd; pu_alive : bool }.

(** ** The supervisor's world

    [replies]: what the control requests to come will be answered with;
    [streams]: the streams [open_bi] will give; [clock]: the readings of
    [now_ms]. [uploads] are the active uploads and whether each is cancelled;
    [socks] is the port of the running SOCKS proxy. *)
Record Sup := {
  su_store : ClientStore;
  su_disk : ClientDisk;
  su_status : option (ServerStatus * option str);
  su_capability : option bool;
  su_events : list CoreEvent;
  su_requests : list Envelope;
  su_next_request : Z;
  su_replies : list (result Envelope str);
  su_streams : list stream;
  su_clock : list Z;
  su_live : gmap str nat;
  su_pumps : gmap nat Pump;
  su_uploads : gmap str bool;
  su_socks : option Z;
}.

(** A computation of the supervisor: it may die in a store call, and it may
    still be waiting. *)
Inductive outcome (A : Type) := Val (a : A) | Died | Waits.
Arguments Val {A} a.
Arguments Died {A}.
Arguments Waits {A}.

Definition sup (A : Type) : Type := Sup → Sup * outcome A.
Definition ret_sup {A} (a : A) : sup A := λ w, (w, Val a).
Definition bind_sup {A B} (m : sup A) (k : A → sup B) : sup B := λ w,
  match m w with
  | (w, Val a) => k a w
  | (w, Died) => (w, Died)
  | (w, Waits) => (w, Waits)
  end.

Notation "'let!' x := e 'in' k" := (bind_sup e (λ x, k))
  (at level 200, x pattern, e at level 100, k at level 200) : rust_scope.

Definition get_sup {A} (f : Sup → A) : sup A := λ w, (w, Val (f w)).

Definition set_store (w : Sup) (st : ClientStore) (d : ClientDisk) : Sup := {|
  su_store := st; su_disk := d; su_status := su_status w; su_capability := su_capability w;
  su_events := su_events w; su_requests := su_requests w; su_next_request := su_next_request w;
  su_replies := su_replies w; su_streams := su_streams w; su_clock := su_clock w;
  su_live := su_live w; su_pumps := su_pumps w; su_uploads := su_uploads w;
  su_socks := su_socks w |}.
Definition set_gui (w : Sup) (s : option (ServerStatus * option str)) (c : option bool)
    (ev : list CoreEvent) : Sup := {|
  su_store := su_store w; su_disk := su_disk w; su_status := s; su_capability := c;
  su_events := ev; su_requests := su_requests w; su_next_request := su_next_request w;
  su_replies := su_replies w; su_streams := su_streams w; su_clock := su_clock w;
  su_live := su_live w; su_pumps := su_pumps w; su_uploads := su_uploads w;
  su_socks := su_socks w |}.
Definition set_control (w : Sup) (req : list Envelope) (next : Z) (rep : list (result Envelope str))
    : Sup := {|
  su_store := su_store w; su_disk := su_disk w; su_status := su_status w;
  su_capability := su_capability w; su_events := su_events w; su_requests := req;
  su_next_request := next; su_replies := rep; su_streams := su_streams w; su_clock := su_clock w;
  su_live := su_live w; su_pumps := su_pumps w; su_uploads := su_uploads w;
  su_socks := su_socks w |}.
Definition set_inputs (w : Sup) (streams : list stream) (clock : list Z) : Sup := {|
  su_store := su_store w; su_disk := su_disk w; su_status := su_status w;
  su_capability := su_capability w; su_events := su_events w; su_requests := su_requests w;
  su_next_request := su_next_request w; su_replies := su_replies w; su_streams := streams;
  su_clock := clock; su_live := su_live w; su_pumps := su_pumps w; su_uploads := su_uploads w;
  su_socks := su_socks w |}.
Definition set_live (w : Sup) (live : gmap str nat) (pumps : gmap nat Pump) : Sup := {|
  su_store := su_store w; su_disk := su_disk w; su_status := su_status w;
  su_capability := su_capability w; su_events := su_events w; su_requests := su_requests w;
  su_next_request := su_next_request w; su_replies := su_replies w; su_streams := su_streams w;
  su_clock := su_clock w; su_live := live; su_pumps := pumps; su_uploads := su_uploads w;
  su_socks := su_socks w |}.
Definition set_uploads (w : Sup) (u : gmap str bool) : Sup := {|
  su_store := su_store w; su_disk := su_disk w; su_status := su_status w;
  su_capability := su_capability w; su_events := su_events w; su_requests := su_requests w;
  su_next_request := su_next_request w; su_replies := su_replies w; su_streams := su_streams w;
  su_clock := su_clock w; su_live := su_live w; su_pumps := su_pumps w; su_uploads := u;
  su_socks := su_socks w |}.
Definition set_socks (w : Sup) (p : option Z) : Sup := {|
  su_store := su_store w; su_disk := su_disk w; su_status := su_status w;
  su_capability := su_capability w; su_events := su_events w; su_requests := su_requests w;
  su_next_request := su_next_request w; su_replies := su_replies w; su_streams := su_streams w;
  su_clock := su_clock w; su_live := su_live w; su_pumps := su_pumps w;
  su_uploads := su_uploads w; su_socks := p |}.

Definition emit (e : CoreEvent) : sup unit := λ w,
  (set_gui w (su_status w) (su_capability w) (su_events w ++ [e]), Val ()).

Definition emit_status (status : ServerStatus) (detail : option str) : sup unit := λ w,
  (set_gui w (Some (status, detail)) (su_capability w) (su_events w ++ [EvServerStatus status detail]), Val ()).

Definition emit_warning (message : str) : sup unit := emit (EvStoreWarning message).

Definition emit_capabilities (file_uploads : bool) : sup unit := λ w,
  (set_gui w (su_status w) (Some file_uploads)
     (if bool_decide (su_capability w = Some file_uploads) then su_events w
      else su_events w ++ [EvServerCapabilities file_uploads]), Val ()).

Definition emit_shell_state (shell : str) (state : ShellStateEvent) (exit_code : option Z) : sup unit :=
  emit (EvShellState shell state exit_code).

Definition now_ms : sup Z := λ w,
  (set_inputs w (su_streams w) (tail (su_clock w)), Val (default 0 (head (su_clock w)))).

(** [connection.open_bi()]. *)
Definition next_stream : sup stream := λ w,
  (set_inputs w (tail (su_streams w)) (su_clock w),
   Val (default (Err (lit "connection closed")) (head (su_streams w)))).

(** A store operation: its effect on the store and the disk, and its error. *)
Definition store_op (op : ClientStore → io ClientStore) : sup (result unit StoreErr) := λ w,
  match op (su_store w) (su_disk w) with
  | (d, Returns st) => (set_store w st d, Val (Ok ()))
  | (d, Throws e) => (set_store w (su_store w) d, Val (Err e))
  | (d, Dies) => (set_store w (su_store w) d, Died)
  end.

(** ** Requests over the control actor *)
Module ControlHandle.

(** [request]: [fetch_add] wraps. *)
Definition request (env : Envelope) : sup (result Envelope str) := λ w,
  (set_control w (su_requests w ++ [with_request_id (su_next_request w) env])
     (wrap64 (su_next_request w + 1)) (tail (su_replies w)),
   Val (default (Err (lit "control channel closed")) (head (su_replies w)))).

Definition list_shells : sup (result (list PbShellInfo) str) :=
  let! r := request (plain MsgListShells) in
  ret_sup (let? reply := r in
           match env_message reply with
           | Some (MsgShellList l) => Ok l
           | Some (MsgError e) => Err (lit "list failed: " ++ err_human_message e)
           | _ => Err (lit "unexpected reply to ListShells")
           end).

Definition open_shell (command : option str) (cols rows : Z) (key : array 16)
    : sup (result (bytes * bytes) str) :=
  let! r := request (ServerConn.open_envelope command cols rows key) in
  ret_sup (let? reply := r in
           match env_message reply with
           | Some (MsgShellOpened o) => Ok (env_shell_id reply, so_resume_token o)
           | Some (MsgError e) => Err (lit "open failed: " ++ err_human_message e)
           | _ => Err (lit "unexpected reply to OpenShell")
           end).

Definition terminate (shell_id : bytes) : sup (result Z str) :=
  let! r := request (with_shell_id shell_id (plain MsgTerminateShell)) in
  ret_sup (let? reply := r in
           match env_message reply with
           | Some (MsgShellExited e) => Ok (se_exit_code e)
           | Some (MsgError e) => Err (lit "terminate failed: " ++ err_human_message e)
           | _ => Err (lit "unexpected reply to TerminateShell")
           end).

End ControlHandle.

(** ** Server URLs and rows *)
Fixpoint contains (needle s : str) : bool :=
  bool_decide (take (length needle) s = needle) ||
  match s with [] => false | _ :: s => contains needle s end.

Definition normalize_url (url : str) : str :=
  let url := trim url in
  if is_empty url || contains (lit "://") url then url else lit "https://" ++ url.

Definition state_name (state : Z) : str :=
  if state =? SHELL_STATE_RUNNING then lit "running"
  else if state =? SHELL_STATE_EXITED then lit "exited"
  else if state =? SHELL_STATE_TERMINATING then lit "terminating"
  else lit "unknown".

Section supervisor.
Context {PM : ProstMessage Envelope} {J : StoreJson} {B : Base64}.
Variable key : str.
Variable store_text : StoreErr → str.

Definition emit_shells (shells : list PbShellInfo) : sup unit :=
  let! st := get_sup su_store in
  let known := from_option sv_shells ∅ (server st key) in
  emit (EvShellsUpdated (map (λ s,
    let shell_hex := hex (psi_shell_id s) in
    {| row_shell := shell_hex; row_state := state_name (psi_state s);
       row_name := sr_name <$> known !! shell_hex;
       row_has_token := bool_decide (is_Some (known !! shell_hex)) |}) shells)).

(** ** Recovery *)

(** [unhex(..).and_then(|k| <[u8; 16]>::try_from(k).ok())]; the outer [None] is
    the panic of [unhex]. *)
Definition unhex_key (text : str) : option (option (array 16)) :=
  b ← unhex text; Some (k ← b; array_of 16 k).

(** A panic ends the supervisor task. *)
Definition or_panic {A} (o : option A) : sup A := λ w,
  match o with Some a => (w, Val a) | None => (w, Died) end.

Fixpoint resolve_loop (ps : list PendingOpen) : sup unit :=
  match ps with
  | [] => ret_sup ()
  | p :: ps =>
      let! k := or_panic (unhex_key (po_key p)) in
      match k with
      | None =>
          let! _ := store_op (λ st, drop_pending_open st key (po_key p)) in
          resolve_loop ps
      | Some k =>
          let! r := ControlHandle.open_shell None 0 0 k in
          match r with
          | Ok (shell_id, token) =>
              let! now := now_ms in
              let! _ := store_op (λ st,
                resolve_pending_open st key (po_key p) (hex shell_id) token now) in
              resolve_loop ps
          | Err _ =>
              let! _ := store_op (λ st, drop_pending_open st key (po_key p)) in
              resolve_loop ps
          end
      end
  end.

Definition resolve_pending_opens : sup unit :=
  let! st := get_sup su_store in
  match server st key with
  | None => ret_sup ()
  | Some record => resolve_loop (sv_pending_opens record)
  end.

Definition recover_token (shell_id : bytes) (k : array 16) : sup (result bytes CoreErr) :=
  let! r := ControlHandle.list_shells in
  match r with
  | Err e => ret_sup (Err (KText e))
  | Ok shells =>
      let running := existsb (λ s, bool_decide (psi_shell_id s = shell_id) &&
                                   (psi_state s =? SHELL_STATE_RUNNING)) shells in
      if negb running then
        let! _ := store_op (λ st, remove_shell st key (hex shell_id)) in
        ret_sup (Err (KText (lit "shell no longer running on the server")))
      else
        let! r := ControlHandle.open_shell None 0 0 k in
        match r with
        | Err e => ret_sup (Err (KText e))
        | Ok (new_id, new_token) =>
            if negb (bool_decide (new_id = shell_id)) then
              let! _ := ControlHandle.terminate new_id in
              ret_sup (Err (KText (lit "idempotency key resolved to a different shell")))
            else
              let! now := now_ms in
              let! _ := store_op (λ st, update_token st key (hex shell_id) new_token now) in
              ret_sup (Ok new_token)
        end
  end.

Definition from_wait {A} (o : option A) : sup A := λ w,
  match o with Some a => (w, Val a) | None => (w, Waits) end.

(** [spawn_pumps]: a fresh writer. *)
Definition spawn_pumps (c : Chan) : sup nat := λ w,
  let i := fresh (dom (su_pumps w)) in
  (set_live w (su_live w)
     (<[i := {| pu_chan := c; pu_queue := []; pu_alive := true |}]> (su_pumps w)), Val i).

(** The loop of [attach_with_recovery]. It turns at most twice: [recovered] can
    be set only once. *)
Fixpoint attach_loop (fuel : nat) (shell_hex : str) (shell_id token : bytes)
    (recovery_key : option (array 16)) (recovered : bool) (cols rows : Z)
    : sup (result (AttachInfo * nat) CoreErr) :=
  match fuel with
  | O => λ w, (w, Waits)
  | Datatypes.S fuel =>
      let! s := next_stream in
      let! r := from_wait (attach_shell s shell_id token cols rows) in
      match r with
      | Ok shell =>
          let! now := now_ms in
          let! _ := store_op (λ st, update_token st key shell_hex (at_rotated_token shell) now) in
          let! writer := spawn_pumps (at_chan shell) in
          ret_sup (Ok ({| ai_snapshot := at_snapshot shell;
                          ai_oldest := at_oldest_history_line_id shell;
                          ai_newest := at_newest_history_line_id shell |}, writer))
      | Err e =>
          match attach_failure_action e (bool_decide (is_Some recovery_key) && negb recovered) with
          | Retry | ExitKeepToken => ret_sup (Err (KAttach e))
          | ForgetAndExit =>
              let! _ := store_op (λ st, remove_shell st key shell_hex) in
              let! _ := emit_shell_state shell_hex ExitedState None in
              ret_sup (Err (KAttach e))
          | RecoverViaIdempotency =>
              let! k := or_panic recovery_key in
              let! r := recover_token shell_id k in
              match r with
              | Ok fresh => attach_loop fuel shell_hex shell_id fresh recovery_key true cols rows
              | Err recover_err =>
                  let! _ := emit_shell_state shell_hex Orphaned None in
                  ret_sup (Err recover_err)
              end
          end
      end
  end.

Definition ATTACH_TURNS : nat := 2.

Definition attach_with_recovery (shell_hex : str) (cols rows : Z)
    : sup (result (AttachInfo * nat) CoreErr) :=
  let! st := get_sup su_store in
  match shell st key shell_hex with
  | None => ret_sup (Err (KText (lit "no stored shell " ++ shell_hex)))
  | Some record =>
      let! id := or_panic (unhex shell_hex) in
      match id with
      | None => ret_sup (Err (KText (lit "malformed shell id")))
      | Some shell_id =>
          match b64_decode (sr_token record) with
          | None => ret_sup (Err (KText (lit "corrupt stored token")))
          | Some token =>
              let! recovery_key :=
                match sr_idempotency_key record with
                | None => ret_sup None
                | Some text => or_panic (unhex_key text)
                end in
              attach_loop ATTACH_TURNS shell_hex shell_id token recovery_key false cols rows
          end
      end
  end.

(** ** Commands *)
Inductive SocksAction := SocksStatus_ | SocksStart (port : Z) | SocksStop.

(** A [Socks] command carries whether its caller still waits and what binding
    the listener would come to; an [Open] the random key it will draw. *)
Inductive ServerCmd :=
  | CmdSocks (action : SocksAction) (reply_closed : bool) (start : result Z str)
  | CmdOpen (name : str) (cols rows : Z) (random : array 16)
  | CmdAttach (shell_hex : str) (cols rows : Z)
  | CmdInput (shell_hex : str) (data : bytes)
  | CmdResize (shell_hex : str) (cols rows : Z)
  | CmdDetach (shell_hex : str)
  | CmdTerminate (shell_hex : str)
  | CmdHistory (shell_hex : str) (before_line_id max_lines : Z) (reply : nat)
  | CmdLogin (password : str)
  | CmdUpload (shell_hex local_path : str)
  | CmdCancelUpload (shell_hex : str).

(** What goes into the command's reply channel at once; [ALater] when a task
    that was handed the channel will answer. *)
Inductive Answer :=
  | ANone
  | ALater
  | ARefused (e : CoreErr)
  | AOpened (shell_hex : str)
  | AAttached (info : AttachInfo)
  | AExited (code : Z)
  | ASocks (supported : bool) (port : option Z).

Definition socks_command (supported : bool) (action : SocksAction) (start : result Z str) : sup Answer :=
  let! proxy := get_sup su_socks in
  let status (p : option Z) : sup Answer := λ w, (set_socks w p, Val (ASocks supported p)) in
  match action with
  | SocksStart port =>
      if negb supported then ret_sup (ARefused (KText (lit "TCP forwarding is not enabled on this server")))
      else if port =? 0 then ret_sup (ARefused (KText (lit "choose a SOCKS port between 1 and 65535")))
      else
        match proxy with
        | Some _ => ret_sup (ARefused (KText (lit "SOCKS is already running for this server")))
        | None =>
            match start with
            | Err e => ret_sup (ARefused (KText e))
            | Ok bound => status (Some bound)
            end
        end
  | SocksStop => status None
  | SocksStatus_ => status proxy
  end.

(** [writer.send(cmd).await.is_ok()]. *)
Definition writer_send (i : nat) (cmd : WriterCmd) : sup bool := λ w,
  match su_pumps w !! i with
  | Some p =>
      if pu_alive p
      then (set_live w (su_live w)
              (<[i := {| pu_chan := pu_chan p; pu_queue := pu_queue p ++ [cmd]; pu_alive := true |}]>
                 (su_pumps w)), Val true)
      else (w, Val false)
  | None => (w, Val false)
  end.

Definition forget_live (shell_hex : str) : sup unit := λ w,
  (set_live w (delete shell_hex (su_live w)) (su_pumps w), Val ()).

Definition forward (shell_hex : str) (cmd : WriterCmd) : sup unit :=
  let! live := get_sup su_live in
  match live !! shell_hex with
  | None => ret_sup ()
  | Some i =>
      let! ok := writer_send i cmd in
      if ok then ret_sup () else forget_live shell_hex
  end.

Definition on_open (name : str) (cols rows : Z) (random : array 16) : sup Answer :=
  let key_hex := hex (array_bytes random) in
  let! r := store_op (λ st, push_pending_open st key key_hex name) in
  match r with
  | Err e => ret_sup (ARefused (KStore e))
  | Ok _ =>
      let! r := ControlHandle.open_shell None cols rows random in
      match r with
      | Ok (shell_id, token) =>
          let shell_hex := hex shell_id in
          let! now := now_ms in
          let! r := store_op (λ st, resolve_pending_open st key key_hex shell_hex token now) in
          ret_sup (match r with Ok _ => AOpened shell_hex | Err e => ARefused (KStore e) end)
      | Err e =>
          let! _ := store_op (λ st, drop_pending_open st key key_hex) in
          ret_sup (ARefused (KText e))
      end
  end.

Definition on_attach (shell_hex : str) (cols rows : Z) : sup Answer :=
  let! r := attach_with_recovery shell_hex cols rows in
  match r with
  | Ok (info, writer) =>
      let! _ := (λ w, (set_live w (<[shell_hex := writer]> (su_live w)) (su_pumps w), Val ())) in
      let! _ := emit_shell_state shell_hex Attached None in
      ret_sup (AAttached info)
  | Err e => ret_sup (ARefused e)
  end.

Definition on_detach (shell_hex : str) : sup Answer :=
  let! live := get_sup su_live in
  let! _ := match live !! shell_hex with
            | Some i => let! _ := forget_live shell_hex in let! _ := writer_send i WDetach in ret_sup ()
            | None => ret_sup ()
            end in
  let! _ := emit_shell_state shell_hex Detached None in
  ret_sup ANone.

Definition on_terminate (shell_hex : str) : sup Answer :=
  let! id := or_panic (unhex shell_hex) in
  match id with
  | None => ret_sup (ARefused (KText (lit "malformed shell id")))
  | Some shell_id =>
      let! _ := forget_live shell_hex in
      let! r := ControlHandle.terminate shell_id in
      match r with
      | Ok code =>
          let! _ := store_op (λ st, remove_shell st key shell_hex) in
          let! _ := emit_shell_state shell_hex ExitedState (Some code) in
          ret_sup (AExited code)
      | Err e => ret_sup (ARefused (KText e))
      end
  end.

Definition on_history (shell_hex : str) (before max_lines : Z) (reply : nat) : sup Answer :=
  let! live := get_sup su_live in
  match live !! shell_hex with
  | None => ret_sup (ARefused (KText (lit "shell is not attached")))
  | Some i =>
      let! ok := writer_send i (WHistory before max_lines reply) in
      ret_sup (if ok then ALater else ARefused (KText (lit "attachment closed")))
  end.

Definition on_upload (file_uploads : bool) (shell_hex : str) : sup Answer :=
  if negb file_uploads
  then ret_sup (ARefused (KText (lit "this server does not enable file uploads")))
  else
    let! st := get_sup su_store in
    match shell st key shell_hex with
    | None => ret_sup (ARefused (KText (lit "unknown shell")))
    | Some _ =>
        let! id := or_panic (unhex shell_hex) in
        match id with
        | None => ret_sup (ARefused (KText (lit "malformed shell id")))
        | Some _ =>
            let! active := get_sup su_uploads in
            match active !! shell_hex with
            | Some _ => ret_sup (ARefused (KText (lit "an upload is already active for this shell")))
            | None => λ w, (set_uploads w (<[shell_hex := false]> active), Val ALater)
            end
        end
    end.

(** The end of the upload's task. *)
Definition upload_done (shell_hex : str) : sup unit := λ w,
  (set_uploads w (delete shell_hex (su_uploads w)), Val ()).

Definition on_cancel_upload (shell_hex : str) : sup Answer := λ w,
  (set_uploads w (alter (λ _, true) shell_hex (su_uploads w)), Val ANone).

Definition cancel_active_uploads : sup unit := λ w,
  (set_uploads w ((λ _, true) <$> su_uploads w), Val ()).

Definition handle_cmd (cmd : ServerCmd) (file_uploads : bool) : sup Answer :=
  match cmd with
  | CmdSocks _ _ _ => ret_sup (ARefused (KText (lit "SOCKS command requires supervisor")))
  | CmdOpen name cols rows random => on_open name cols rows random
  | CmdAttach shell_hex cols rows => on_attach shell_hex cols rows
  | CmdInput shell_hex data => let! _ := forward shell_hex (WInput data) in ret_sup ANone
  | CmdResize shell_hex cols rows => let! _ := forward shell_hex (WResize cols rows) in ret_sup ANone
  | CmdDetach shell_hex => on_detach shell_hex
  | CmdTerminate shell_hex => on_terminate shell_hex
  | CmdLogin _ => ret_sup ANone
  | CmdHistory shell_hex before max_lines reply => on_history shell_hex before max_lines reply
  | CmdUpload shell_hex _ => on_upload file_uploads shell_hex
  | CmdCancelUpload shell_hex => on_cancel_upload shell_hex
  end.

Definition refuse_unauthenticated (cmd : ServerCmd) : Answer :=
  let refusal := ARefused (KText (lit "authentication required: log in to this server first")) in
  match cmd with
  | CmdSocks _ _ _ | CmdOpen _ _ _ _ | CmdAttach _ _ _ | CmdTerminate _ | CmdHistory _ _ _ _
  | CmdUpload _ _ => refusal
  | CmdInput _ _ | CmdResize _ _ _ | CmdDetach _ | CmdLogin _ | CmdCancelUpload _ => ANone
  end.

(** ** Connecting *)

(** Full authentication: a key, a password the GUI must supply, or the
    development mode. [connect] is [connect_with]; the list is the methods it was
    called with. *)
Definition full_auth (connect : str → AuthMethod → option (result ServerConn ClientErr))
    (record : ServerRecord) (url : str) (password : option str) (tried : list AuthMethod)
    : option (result ServerConn ClientErr * list AuthMethod) :=
  let go method := r ← connect url method; Some (r, tried ++ [method]) in
  match sv_username record, sv_ssh_key_path record with
  | Some username, Some path => go (MSshKey username path)
  | Some username, None =>
      match password with
      | None => Some (Err EPasswordRequired, tried)
      | Some password => go (MPassword username password)
      end
  | _, _ => go MDev
  end.

(** The stored grant first, if it decodes. *)
Definition connect_and_auth (connect : str → AuthMethod → option (result ServerConn ClientErr))
    (st : ClientStore) (password : option str)
    : option (result ServerConn ClientErr * list AuthMethod) :=
  match server st key with
  | None => Some (Err (EText (lit "server removed from store")), [])
  | Some record =>
      let url := normalize_url (sv_url record) in
      match sv_grant record ≫= b64_decode with
      | None => full_auth connect record url password []
      | Some grant =>
          r ← connect url (MGrant grant);
          match r with
          | Ok c => Some (Ok c, [MGrant grant])
          | Err _ => full_auth connect record url password [MGrant grant]
          end
      end
  end.

(** Where the supervisor's loop stands. *)
Inductive Phase :=
  | PConnect
  | PWaitKey
  | PWaitPassword
  | PSleep (ms : Z)
  | PServe (file_uploads tcp_forward : bool)
  | PStopped.

Record Loop := { lp_backoff : Z; lp_first : bool; lp_password : option str; lp_phase : Phase }.

Definition loop_start : Loop := {|
  lp_backoff := BACKOFF_START_MS; lp_first := true; lp_password := None; lp_phase := PConnect |}.

(** [Duration]s are not negative; doubling saturates at the cap. *)
Definition next_backoff (b : Z) : Z := Z.min (b * 2) BACKOFF_CAP_MS.

(** A connection that is up: keep its grant, resolve the journal, list. *)
Definition connected (c : ServerConn) : sup Loop :=
  let hello := sc_hello c in
  let has_cap cap := bool_decide (capability_i32 cap ∈ sh_capabilities hello) in
  let! r := store_op (λ st, set_grant st key (sc_grant c)) in
  let! _ := match r with Ok _ => ret_sup () | Err e => emit_warning (lit "persist grant: " ++ store_text e) end in
  let! _ := (λ w, (set_control w (su_requests w) 1 (su_replies w), Val ())) in
  let! _ := resolve_pending_opens in
  let! r := ControlHandle.list_shells in
  match r with
  | Err _ => ret_sup {| lp_backoff := BACKOFF_START_MS; lp_first := false; lp_password := None;
                        lp_phase := PConnect |}
  | Ok shells =>
      let! _ := emit_shells shells in
      let! _ := emit_status Connected None in
      let! _ := emit_capabilities (has_cap FileTransfer) in
      ret_sup {| lp_backoff := BACKOFF_START_MS; lp_first := false; lp_password := None;
                 lp_phase := PServe (has_cap FileTransfer) (has_cap TcpForward) |}
  end.

(** A failed attempt: what the loop does next. [closed] is [rx.is_closed()]. *)
Definition failed (l : Loop) (attempted_password closed : bool) (e : ClientErr) : sup Loop :=
  let go (backoff : Z) (phase : Phase) := {| lp_backoff := backoff; lp_first := false;
                                             lp_password := None; lp_phase := phase |} in
  match e with
  | ESshAuthenticationFailed _ =>
      let! _ := emit_status AuthRequired
        (Some (lit "SSH key authentication failed: " ++ client_err_text e)) in
      ret_sup (go (lp_backoff l) PWaitKey)
  | _ =>
      if attempted_password || match e with EPasswordRequired => true | _ => false end then
        let detail :=
          if attempted_password then
            Some (match e with
                  | EAuthenticationRejected _ => lit "Password rejected: " ++ client_err_text e
                  | _ => lit "Could not connect; the password was not checked: " ++ client_err_text e
                  end)
          else None in
        let! _ := emit_status AuthRequired detail in
        ret_sup (go (lp_backoff l) PWaitPassword)
      else
        let! _ := emit_status Reconnecting (Some (client_err_text e)) in
        if closed then ret_sup (go (lp_backoff l) PStopped)
        else ret_sup (go (next_backoff (lp_backoff l)) (PSleep (lp_backoff l)))
  end.

(** The top of ['outer]: one attempt, with the methods it used and its error. *)
Definition attempt (l : Loop) (closed : bool)
    (connect : str → AuthMethod → option (result ServerConn ClientErr))
    : sup (Loop * list AuthMethod * option ClientErr) :=
  let! _ := emit_status (if lp_first l then Connecting else Reconnecting) None in
  let! _ := emit_capabilities false in
  let! st := get_sup su_store in
  let! r := from_wait (connect_and_auth connect st (lp_password l)) in
  let '(r, tried) := r in
  match r with
  | Ok c => let! l := connected c in ret_sup (l, tried, None)
  | Err e =>
      let! l := failed l (bool_decide (is_Some (lp_password l))) closed e in
      ret_sup (l, tried, Some e)
  end.

Definition with_phase (l : Loop) (p : Phase) (password : option str) : Loop := {|
  lp_backoff := lp_backoff l; lp_first := lp_first l; lp_password := password; lp_phase := p |}.

(** A command ([None]: the handle is gone) while the loop waits for a login. *)
Definition wait_cmd (l : Loop) (cmd : option ServerCmd) : Loop * Answer :=
  match cmd with
  | None => (with_phase l PStopped None, ANone)
  | Some (CmdLogin p) =>
      (with_phase l PConnect (match lp_phase l with PWaitPassword => Some p | _ => None end), ANone)
  | Some cmd => (l, refuse_unauthenticated cmd)
  end.

(** A command or the death of the connection while serving. A dead connection's
    live map and proxy go with it. *)
Definition serve_cmd (l : Loop) (file_uploads tcp_forward : bool) (cmd : option ServerCmd)
    : sup (Loop * Answer) :=
  match cmd with
  | Some (CmdSocks action reply_closed start) =>
      if reply_closed then ret_sup (l, ANone)
      else let! a := socks_command tcp_forward action start in ret_sup (l, a)
  | None => let! _ := cancel_active_uploads in ret_sup (with_phase l PStopped None, ANone)
  | Some cmd => let! a := handle_cmd cmd file_uploads in ret_sup (l, a)
  end.

Definition serve_dead (l : Loop) : sup Loop :=
  let! _ := cancel_active_uploads in
  let! _ := (λ w, (set_socks (set_live w ∅ (su_pumps w)) None, Val ())) in
  ret_sup (with_phase l PConnect None).

Definition wake (l : Loop) : Loop := with_phase l PConnect None.

End supervisor.
