(* ===== verification/ClientFacade.v ===== *)
(** * The desktop client's core

    [Core] of [crates/client-core/src/lib.rs], the interface the graphical client
    calls: the store, a supervisor with a bounded command queue per server, the
    last status and capabilities of each, and the events. What a supervisor does
    with its commands is [ClientCore]. *)
From S2P Require Import Prelude Ids Paths ClientStore ClientApi ClientCore.

Definition SERVER_QUEUE : Z := 64.
Definition UPLOAD_QUEUE : Z := 8.

(** ** What the graphical client sees *)
Record ShellView := { vw_shell : str; vw_name : str }.
Record ServerView := {
  vs_key : str;
  vs_url : str;
  vs_display_name : str;
  vs_username : option str;
  vs_uses_ssh_key : bool;
  vs_remember_login : bool;
  vs_shells : list ShellView;
  vs_status : option ServerStatus;
  vs_status_detail : option str;
  vs_file_uploads : bool;
}.
Record ServerConfig := {
  sf_remember_login : bool;
  sf_url : str;
  sf_display_name : str;
  sf_username : option str;
  sf_ssh_key_path : option str;
}.
Record UploadReply := { ul_remote_path : str; ul_bytes_written : Z; ul_sha256 : str }.
Record SocksStatus := { sx_supported : bool; sx_address : option str }.
Definition socks_status_default : SocksStatus := {| sx_supported := false; sx_address := None |}.

(** ** State *)

(** The channel to a supervisor: what waits in it, whether the supervisor still
    receives, the upload permits left; with all that was ever sent and received. *)
Record ServerHandle := {
  hd_queue : list ServerCmd;
  hd_receiving : bool;
  hd_upload_slots : Z;
  hd_sent : list ServerCmd;
  hd_received : list ServerCmd;
}.
Definition handle_new : ServerHandle := {|
  hd_queue := []; hd_receiving := true; hd_upload_slots := UPLOAD_QUEUE; hd_sent := []; hd_received := [] |}.

Record Core := {
  co_store : ClientStore;
  co_disk : ClientDisk;
  co_servers : gmap str ServerHandle;
  co_events : list CoreEvent;
  co_statuses : gmap str (ServerStatus * option str);
  co_capabilities : gmap str bool;
}.
Definition with_handles (c : Core) (h : gmap str ServerHandle) : Core := {|
  co_store := co_store c; co_disk := co_disk c; co_servers := h; co_events := co_events c;
  co_statuses := co_statuses c; co_capabilities := co_capabilities c |}.
Definition with_store (c : Core) (st : ClientStore) (d : ClientDisk) : Core := {|
  co_store := st; co_disk := d; co_servers := co_servers c; co_events := co_events c;
  co_statuses := co_statuses c; co_capabilities := co_capabilities c |}.
Definition with_shown (c : Core) (s : gmap str (ServerStatus * option str)) (k : gmap str bool) : Core := {|
  co_store := co_store c; co_disk := co_disk c; co_servers := co_servers c; co_events := co_events c;
  co_statuses := s; co_capabilities := k |}.

(** A call is answered; waits for room in a queue, having changed nothing; or the
    process died in it. *)
Inductive called (A : Type) := Reply (r : result A CoreErr) | Full | Dead.
Arguments Reply {A} r.
Arguments Full {A}.
Arguments Dead {A}.
Definition api (A : Type) : Type := Core → Core * called A.

Definition unknown_server (key : str) : CoreErr := KText (lit "unknown server " ++ key).
Definition task_stopped : CoreErr := KText (lit "server task stopped").

(** ** Servers *)
Definition start_supervisor (key : str) (c : Core) : Core := with_handles c (<[key := handle_new]> (co_servers c)).

Definition by_key {A} (m : gmap str A) : list (str * A) :=
  merge_sort (λ a b : str * A, Is_true (str_leb a.1 b.1)) (map_to_list m).

Definition v1_state_path (var config : option str) : result str str :=
  match var with
  | Some (c :: path) => Ok (c :: path)
  | _ =>
      let? config := ok_or config (lit "no per-user config directory") in
      Ok (join config (lit "holdfast/state.json"))
  end.

Section core.
Context {J : StoreJson} {B : Base64}.

(** [spawn]: [v1] is the command-line client's state file, where there is one; a
    failed import is no failure. *)
Definition import_or_skip (v1 : option str) (fresh : nat → array 8) (st : ClientStore) : io ClientStore := λ d,
  match v1 with
  | None => (d, Returns st)
  | Some path =>
      match import_v1 st path fresh d with
      | (d, Returns (st, _)) => (d, Returns st)
      | (d, Throws _) => (d, Returns st)
      | (d, Dies) => (d, Dies)
      end
  end.

Definition migration_warning : str :=
  lit "Saved login cleared on upgrade. Log in again; your shells have been retained.".

Definition spawn (store_path : str) (v1 : option str) (fresh : nat → array 8) (d : ClientDisk)
    : ClientDisk * exec Core :=
  match (do! (st, migrated) <- load store_path; do! st <- import_or_skip v1 fresh st; ret_io (st, migrated)) d with
  | (d, Returns (st, migrated)) =>
      let c := {| co_store := st; co_disk := d; co_servers := ∅;
                  co_events := if migrated then [EvStoreWarning migration_warning] else [];
                  co_statuses := ∅; co_capabilities := ∅ |} in
      (d, Returns (foldl (λ c s, start_supervisor s.1 c) c (by_key (sd_servers (data st)))))
  | (d, Throws e) => (d, Throws e)
  | (d, Dies) => (d, Dies)
  end.

Definition view (c : Core) (s : str * ServerRecord) : ServerView :=
  let '(key, record) := s in {|
  vs_key := key; vs_url := sv_url record; vs_display_name := sv_display_name record; vs_username := sv_username record;
  vs_uses_ssh_key := match sv_ssh_key_path record with Some _ => true | None => false end;
  vs_remember_login := sv_remember_login record;
  vs_shells := map (λ x, {| vw_shell := x.1; vw_name := sr_name x.2 |}) (by_key (sv_shells record));
  vs_status := fst <$> co_statuses c !! key;
  vs_status_detail := x ← co_statuses c !! key; x.2;
  vs_file_uploads := default false (co_capabilities c !! key) |}.
Definition bootstrap (c : Core) : list ServerView := map (view c) (by_key (sd_servers (data (co_store c)))).

(** A store operation, as a call. *)
Definition on_store {A} (op : ClientStore → io (ClientStore * A)) : api A := λ c,
  match op (co_store c) (co_disk c) with
  | (d, Returns (st, a)) => (with_store c st d, Reply (Ok a))
  | (d, Throws e) => (with_store c (co_store c) d, Reply (Err (KStore e)))
  | (d, Dies) => (with_store c (co_store c) d, Dead)
  end.
Definition plainly (op : ClientStore → io ClientStore) (st : ClientStore) : io (ClientStore * unit) :=
  do! st <- op st; ret_io (st, ()).

Definition new_record (config : ServerConfig) : ServerRecord := {|
  sv_url := normalize_url (sf_url config); sv_display_name := sf_display_name config; sv_username := sf_username config;
  sv_ssh_key_path := sf_ssh_key_path config; sv_remember_login := sf_remember_login config; sv_grant := None;
  sv_shells := ∅; sv_pending_opens := [] |}.

Definition core_add_server (config : ServerConfig) (random : array 8) : api str := λ c,
  match on_store (λ st, add_server st random (new_record config)) c with
  | (c, Reply (Ok key)) => (start_supervisor key c, Reply (Ok key))
  | r => r
  end.

Definition core_remove_server (key : str) : api unit := λ c,
  let c := with_handles c (delete key (co_servers c)) in
  let c := with_shown c (delete key (co_statuses c)) (delete key (co_capabilities c)) in
  on_store (plainly (λ st, remove_server st key)) c.

Definition core_set_remember_login (key : str) (remember : bool) : api unit :=
  on_store (plainly (λ st, set_remember_login st key remember)).
Definition forget_shell (key shell_hex : str) : api unit := on_store (plainly (λ st, remove_shell st key shell_hex)).
Definition core_rename_shell (key shell_hex name : str) : api unit :=
  on_store (plainly (λ st, rename_shell st key shell_hex name)).
End core.

(** ** Commands *)
Definition push (h : ServerHandle) (cmd : ServerCmd) (slots : Z) : ServerHandle := {|
  hd_queue := hd_queue h ++ [cmd]; hd_receiving := hd_receiving h; hd_upload_slots := slots;
  hd_sent := hd_sent h ++ [cmd]; hd_received := hd_received h |}.

(** [mpsc::Sender::send] on a handle. *)
Definition send_to (key : str) (h : ServerHandle) (cmd : ServerCmd) (slots : Z) : api unit := λ c,
  if negb (hd_receiving h) then (c, Reply (Err task_stopped))
  else if SERVER_QUEUE <=? len (hd_queue h) then (c, Full)
  else (with_handles c (<[key := push h cmd slots]> (co_servers c)), Reply (Ok ())).

Definition send (key : str) (cmd : ServerCmd) : api unit := λ c,
  match co_servers c !! key with
  | None => (c, Reply (Err (unknown_server key)))
  | Some h => send_to key h cmd (hd_upload_slots h) c
  end.

(** [rx.await]: [None] when the supervisor drops the other end. *)
Definition awaiting {A} (m : api unit) (rx : option (result A CoreErr)) : api A := λ c,
  match m c with
  | (c, Reply (Ok _)) => (c, Reply (default (Err task_stopped) rx))
  | (c, Reply (Err e)) => (c, Reply (Err e))
  | (c, Full) => (c, Full)
  | (c, Dead) => (c, Dead)
  end.

Definition core_open_shell (key name : str) (cols rows : Z) (random : array 16) (rx : option (result str CoreErr)) : api str :=
  awaiting (send key (CmdOpen name cols rows random)) rx.
Definition core_attach_shell (key shell_hex : str) (cols rows : Z) (rx : option (result AttachInfo CoreErr)) : api AttachInfo :=
  awaiting (send key (CmdAttach shell_hex cols rows)) rx.
Definition shell_input (key shell_hex : str) (data : bytes) : api unit := send key (CmdInput shell_hex data).
Definition resize_shell (key shell_hex : str) (cols rows : Z) : api unit := send key (CmdResize shell_hex cols rows).
Definition detach_shell (key shell_hex : str) : api unit := send key (CmdDetach shell_hex).
Definition terminate_shell (key shell_hex : str) (rx : option (result Z CoreErr)) : api Z :=
  awaiting (send key (CmdTerminate shell_hex)) rx.
Definition core_request_history {A} (key shell_hex : str) (before max_lines : Z) (reply : nat) (rx : option (result A CoreErr))
    : api A := awaiting (send key (CmdHistory shell_hex before max_lines reply)) rx.
Definition cancel_upload (key shell_hex : str) : api unit := send key (CmdCancelUpload shell_hex).
Definition login (key password : str) : api unit := send key (CmdLogin password).

(** The permit travels with the command; it is dropped with one that cannot be
    sent. *)
Definition core_upload_file (key shell_hex local_path : str) (rx : option (result UploadReply CoreErr)) : api UploadReply := λ c,
  match co_servers c !! key with
  | None => (c, Reply (Err (unknown_server key)))
  | Some h =>
      if hd_upload_slots h =? 0 then (c, Reply (Err (KText (lit "too many pending uploads for this server"))))
      else awaiting (send_to key h (CmdUpload shell_hex local_path) (hd_upload_slots h - 1)) rx c
  end.

(** [rx] is what comes within five seconds. *)
Definition socks (key : str) (action : SocksAction) (reply_closed : bool) (start : result Z str)
    (rx : result SocksStatus CoreErr) : api SocksStatus := λ c,
  let connected := match co_statuses c !! key with Some (Connected, _) => true | _ => false end in
  if negb connected then
    (c, Reply (match action with
               | SocksStart _ => Err (KText (lit "connect to the server before starting SOCKS"))
               | _ => Ok socks_status_default
               end))
  else
    match co_servers c !! key with
    | None => (c, Reply (Err (KText (lit "unknown server"))))
    | Some h =>
        match send_to key h (CmdSocks action reply_closed start) (hd_upload_slots h) c with
        | (c, Reply (Ok _)) => (c, Reply rx)
        | (c, _) => (c, Reply (Err (KText (lit "server is busy or disconnected"))))
        end
    end.

(** ** The supervisors' side *)
Definition receive (key : str) (c : Core) : option (Core * ServerCmd) :=
  h ← co_servers c !! key;
  if hd_receiving h then
    match hd_queue h with
    | [] => None
    | cmd :: queue =>
        Some (with_handles c (<[key := {| hd_queue := queue; hd_receiving := true; hd_upload_slots := hd_upload_slots h;
                hd_sent := hd_sent h; hd_received := hd_received h ++ [cmd] |}]> (co_servers c)), cmd)
    end
  else None.

(** The task ends, or an upload's permit comes back. *)
Definition stop (key : str) (c : Core) : Core :=
  with_handles c (alter (λ h, {| hd_queue := hd_queue h; hd_receiving := false; hd_upload_slots := hd_upload_slots h;
    hd_sent := hd_sent h; hd_received := hd_received h |}) key (co_servers c)).
Definition release (key : str) (c : Core) : Core :=
  with_handles c (alter (λ h, {| hd_queue := hd_queue h; hd_receiving := hd_receiving h;
    hd_upload_slots := hd_upload_slots h + 1; hd_sent := hd_sent h; hd_received := hd_received h |}) key (co_servers c)).
Definition show (key : str) (status : ServerStatus) (detail : option str) (c : Core) : Core :=
  with_shown c (<[key := (status, detail)]> (co_statuses c)) (co_capabilities c).
Definition show_capabilities (key : str) (file_uploads : bool) (c : Core) : Core :=
  with_shown c (co_statuses c) (<[key := file_uploads]> (co_capabilities c)).
