(* ===== verification/ClientFacadeProps.v ===== *)
(** * What the desktop client's core guarantees

    Any sequence of calls and of the supervisors' own steps: which servers have a
    supervisor, what the supervisors receive, and what the graphical client is
    shown. *)
From S2P Require Import Prelude Ids Paths ClientStore ReplaceFile ClientStoreProps ClientApi ClientCore ClientFacade.

Section core.
Context {J : StoreJson} {B : Base64}.
Implicit Types (c : Core) (h : ServerHandle).

(** ** Runs *)
Definition is_upload (cmd : ServerCmd) : bool := match cmd with CmdUpload _ _ => true | _ => false end.
Definition uploads (cmds : list ServerCmd) : Z := len (filter (λ x, is_upload x = true) cmds).

(** Store operations of supervisors change servers that are there. *)
Definition supervised (op : StoreOp) : Prop :=
  match op with AddServer _ _ | RemoveServer _ | ImportV1 _ _ => False | _ => True end.

(** One call or one step of a supervisor. The set collects the servers whose
    removal the store refused. *)
Inductive core_step : Core * gset str → Core * gset str → Prop :=
  | step_add c o config random c' key :
      core_add_server config random c = (c', Reply (Ok key)) → core_step (c, o) (c', o ∖ {[key]})
  | step_add_failed c o config random c' e :
      core_add_server config random c = (c', Reply (Err e)) → core_step (c, o) (c', o)
  | step_remove c o key c' : core_remove_server key c = (c', Reply (Ok ())) → core_step (c, o) (c', o ∖ {[key]})
  | step_remove_failed c o key c' e :
      core_remove_server key c = (c', Reply (Err e)) → core_step (c, o) (c', o ∪ {[key]})
  | step_remember c o key b c' r : core_set_remember_login key b c = (c', Reply r) → core_step (c, o) (c', o)
  | step_forget c o key shell c' r : forget_shell key shell c = (c', Reply r) → core_step (c, o) (c', o)
  | step_rename c o key shell name c' r : core_rename_shell key shell name c = (c', Reply r) → core_step (c, o) (c', o)
  | step_send c o key cmd c' r : is_upload cmd = false → send key cmd c = (c', Reply r) → core_step (c, o) (c', o)
  | step_upload c o key shell path rx c' r :
      core_upload_file key shell path rx c = (c', Reply r) → core_step (c, o) (c', o)
  | step_socks c o key action closed start rx c' r :
      socks key action closed start rx c = (c', Reply r) → core_step (c, o) (c', o)
  | step_receive c o key c' cmd : receive key c = Some (c', cmd) → core_step (c, o) (c', o)
  | step_stop c o key : core_step (c, o) (stop key c, o)
  | step_release c o key h :
      co_servers c !! key = Some h → uploads (hd_queue h) < UPLOAD_QUEUE - hd_upload_slots h →
      core_step (c, o) (release key c, o)
  | step_show c o key status detail : core_step (c, o) (show key status detail c, o)
  | step_capabilities c o key b : core_step (c, o) (show_capabilities key b c, o)
  | step_store c o op d r :
      supervised op → exec_op op (co_store c) (co_disk c) = (d, r) → r ≠ Dies →
      core_step (c, o) (with_store c (match r with Returns st => st | _ => co_store c end) d, o).

(** ** The invariant *)
#[local] Notation known c := (sd_servers (data (co_store c))).

Record handle_ok h : Prop := {
  ho_order : hd_received h ++ hd_queue h = hd_sent h;
  ho_queue : len (hd_queue h) ≤ SERVER_QUEUE;
  ho_slots : 0 ≤ hd_upload_slots h;
  ho_uploads : uploads (hd_queue h) ≤ UPLOAD_QUEUE - hd_upload_slots h;
}.
Definition core_ok (x : Core * gset str) : Prop :=
  map_Forall (λ _ h, handle_ok h) (co_servers x.1) ∧
  dom (co_servers x.1) ⊆ dom (known x.1) ∧ dom (known x.1) ⊆ dom (co_servers x.1) ∪ x.2.

Lemma handle_new_ok : handle_ok handle_new.
Proof. by split. Qed.

Lemma uploads_app l l' : uploads (l ++ l') = uploads l + uploads l'.
Proof. by rewrite /uploads filter_app len_app. Qed.
Lemma uploads_nonneg l : 0 ≤ uploads l.
Proof. apply len_nonneg. Qed.

(** *** Handles *)
Lemma handles_ok c o m :
  core_ok (c, o) → map_Forall (λ _ h, handle_ok h) m → dom m = dom (co_servers c) → core_ok (with_handles c m, o).
Proof. intros (_ & H1 & H2) Hm Hd. split; [done|]. cbn in *. by rewrite Hd. Qed.

Lemma handle_set_ok c o key h h' : core_ok (c, o) → co_servers c !! key = Some h → handle_ok h' →
  core_ok (with_handles c (<[key := h']> (co_servers c)), o).
Proof.
  intros Hc Hk Hh. apply handles_ok; [done| |].
  - apply map_Forall_insert_2; [done|]. by destruct Hc.
  - apply dom_insert_lookup_L. by eexists.
Qed.

Lemma handle_alter_ok c o key f :
  core_ok (c, o) → (∀ h, co_servers c !! key = Some h → handle_ok h → handle_ok (f h)) →
  core_ok (with_handles c (alter f key (co_servers c)), o).
Proof.
  intros Hc Hf. apply handles_ok; [done| |apply dom_alter_L].
  intros k h. destruct Hc as [Hc _]. destruct (decide (k = key)) as [->|Hn].
  - rewrite lookup_alter_eq. intros (h0 & H0 & ->)%fmap_Some. apply Hf; [done|]. by apply (Hc key).
  - rewrite lookup_alter_ne //. apply Hc.
Qed.

(** A command sent with what it costs in permits. *)
Lemma send_to_ok c o key h cmd cost c' r :
  core_ok (c, o) → co_servers c !! key = Some h → 0 ≤ hd_upload_slots h - cost →
  cost = (if is_upload cmd then 1 else 0) →
  send_to key h cmd (hd_upload_slots h - cost) c = (c', r) → core_ok (c', o).
Proof.
  intros Hc Hk Hs ->. rewrite /send_to. destruct (hd_receiving h); [|by intros [= <- _]]. cbn [negb].
  destruct (SERVER_QUEUE <=? len (hd_queue h)) eqn:El; intros [= <- _]; [done|]. to_prop.
  assert (handle_ok h) as [H1 H2 H3 H4] by (destruct Hc as [Hc _]; by apply (Hc key)).
  apply (handle_set_ok c o key h); [done..|]. split; cbn.
  - by rewrite app_assoc H1.
  - rewrite len_app len_cons len_nil. lia.
  - done.
  - rewrite uploads_app. rewrite /uploads filter_cons filter_nil. destruct (is_upload cmd); cbn; rewrite ?decide_True //; rewrite /len /=; cbn in *; rewrite /uploads in H4; rewrite /len in H4; lia.
Qed.

Lemma send_ok c o key cmd c' r : core_ok (c, o) → is_upload cmd = false → send key cmd c = (c', r) → core_ok (c', o).
Proof.
  intros Hc Hu. rewrite /send. destruct (co_servers c !! key) as [h|] eqn:Eh; [|by intros [= <- _]].
  intros Hs. rewrite -(Z.sub_0_r (hd_upload_slots h)) in Hs. eapply (send_to_ok c o key h cmd 0); [done|done| |by rewrite Hu|exact Hs].
  destruct Hc as [Hc _]. pose proof (ho_slots _ (Hc key h Eh)). lia.
Qed.

Lemma awaiting_state {A} (m : api unit) (rx : option (result A CoreErr)) c c' r :
  awaiting m rx c = (c', r) → ∃ r', m c = (c', r').
Proof. rewrite /awaiting. destruct (m c) as [c1 [[[]|e]| |]]; intros [= <- _]; by eexists. Qed.

Lemma upload_ok c o key shell path rx c' r :
  core_ok (c, o) → core_upload_file key shell path rx c = (c', r) → core_ok (c', o).
Proof.
  intros Hc. rewrite /core_upload_file. destruct (co_servers c !! key) as [h|] eqn:Eh; [|by intros [= <- _]].
  destruct (hd_upload_slots h =? 0) eqn:Ez; [by intros [= <- _]|]. to_prop. intros [r' Hr]%awaiting_state.
  eapply (send_to_ok c o key h (CmdUpload shell path) 1); [done|done| |done|exact Hr].
  destruct Hc as [Hc _]. pose proof (ho_slots _ (Hc key h Eh)). lia.
Qed.

Lemma socks_ok c o key action closed start rx c' r :
  core_ok (c, o) → socks key action closed start rx c = (c', r) → core_ok (c', o).
Proof.
  intros Hc. rewrite /socks. destruct (negb _); [by intros [= <- _]|].
  destruct (co_servers c !! key) as [h|] eqn:Eh; [|by intros [= <- _]].
  destruct (send_to key h _ (hd_upload_slots h) c) as [c1 r1] eqn:Es.
  assert (core_ok (c1, o)) as H1.
  { rewrite -(Z.sub_0_r (hd_upload_slots h)) in Es. eapply (send_to_ok c o key h (CmdSocks action closed start) 0); [exact Hc|exact Eh| |done|exact Es].
    destruct Hc as [Hc _]. pose proof (ho_slots _ (Hc key h Eh)). lia. }
  destruct r1 as [[[]|e]| |]; by intros [= <- _].
Qed.

Lemma receive_ok c o key c' cmd : core_ok (c, o) → receive key c = Some (c', cmd) → core_ok (c', o).
Proof.
  intros Hc. rewrite /receive. intros (h & Hk & Hr)%bind_Some. destruct (hd_receiving h); [|done].
  destruct (hd_queue h) as [|x queue] eqn:Eq; [done|]. injection Hr as <- <-.
  assert (handle_ok h) as [H1 H2 H3 H4] by (destruct Hc as [Hc _]; by apply (Hc key)).
  rewrite Eq in H1, H2, H4. apply (handle_set_ok c o key h); [done..|]. split; cbn.
  - by rewrite -app_assoc.
  - rewrite len_cons in H2. lia.
  - done.
  - change (x :: queue) with ([x] ++ queue) in H4. rewrite uploads_app in H4. pose proof (uploads_nonneg [x]). lia.
Qed.

(** *** The store *)
Lemma commit_data (st : ClientStore) x d d' st' : commit st x d = (d', Returns st') → data st' = x.
Proof. rewrite /commit /bind_io. destruct (save st x d) as [? [[]|?|]]; try done. by intros [= _ <-]. Qed.

Lemma mutate_dom (st : ClientStore) key f d d' st' :
  mutate_server st key f d = (d', Returns st') → dom (sd_servers (data st')) = dom (sd_servers (data st)).
Proof.
  rewrite /mutate_server. destruct (sd_servers (data st) !! key) as [s|] eqn:E; [|done].
  intros ->%commit_data. cbn. apply dom_insert_lookup_L. by eexists.
Qed.

Lemma supervised_dom op (st : ClientStore) d d' st' :
  supervised op → exec_op op st d = (d', Returns st') → dom (sd_servers (data st')) = dom (sd_servers (data st)).
Proof. destruct op; try done; intros _; apply mutate_dom. Qed.

Lemma store_ok c o st d :
  core_ok (c, o) → dom (sd_servers (data st)) = dom (known c) → core_ok (with_store c st d, o).
Proof. intros (H0 & H1 & H2) Hd. split; [done|]. cbn in *. by rewrite Hd. Qed.

Lemma on_store_ok c o key f c' r :
  core_ok (c, o) → on_store (plainly (λ st, mutate_server st key f)) c = (c', Reply r) → core_ok (c', o).
Proof.
  intros Hc. rewrite /on_store /plainly /bind_io. destruct (mutate_server _ key f _) as [d [st|e|]] eqn:E; intros [= <- _].
  - apply store_ok; [done|]. by eapply mutate_dom.
  - by apply store_ok.
Qed.

Lemma add_ok c o config random c' r : core_ok (c, o) → core_add_server config random c = (c', Reply r) →
  core_ok (c', match r with Ok key => o ∖ {[key]} | Err _ => o end).
Proof.
  intros Hc. rewrite /core_add_server /on_store /add_server /bind_io.
  destruct (commit (co_store c) _ _) as [d [st|e|]] eqn:E; [|intros [= <- <-]; by apply store_ok|done].
  cbn. intros [= <- <-]. apply commit_data in E. destruct Hc as (H0 & H1 & H2). split_and!; cbn in *.
  - apply map_Forall_insert_2; [apply handle_new_ok|done].
  - rewrite E /= !dom_insert_L. set_solver.
  - rewrite E /= !dom_insert_L. intros x [Hx%elem_of_singleton|Hx]%elem_of_union; [set_solver|].
    destruct (decide (x = new_server_key random)); set_solver.
Qed.

Lemma remove_ok c o key c' r : core_ok (c, o) → core_remove_server key c = (c', Reply r) →
  core_ok (c', match r with Ok _ => o ∖ {[key]} | Err _ => o ∪ {[key]} end).
Proof.
  intros (H0 & H1 & H2). rewrite /core_remove_server /on_store /plainly /bind_io /remove_server.
  destruct (commit _ _ _) as [d [st|e|]] eqn:E; intros [= <- <-]; (split; [by apply map_Forall_delete|]); cbn in *.
  - apply commit_data in E. rewrite E /= !dom_delete_L. split; [set_solver|].
    intros x Hx. apply elem_of_difference in Hx as [Hx Hn]. set_solver.
  - rewrite dom_delete_L. split; [set_solver|]. intros x Hx. destruct (decide (x = key)); set_solver.
Qed.

Lemma core_step_ok x y : core_ok x → core_step x y → core_ok y.
Proof.
  intros Hc Hs. destruct Hs.
  - by apply (add_ok c o config random c' (Ok key)).
  - by apply (add_ok c o config random c' (Err e)).
  - by apply (remove_ok c o key c' (Ok ())).
  - by apply (remove_ok c o key c' (Err e)).
  - by eapply on_store_ok.
  - by eapply on_store_ok.
  - by eapply on_store_ok.
  - by eapply send_ok.
  - by eapply upload_ok.
  - by eapply socks_ok.
  - by eapply receive_ok.
  - apply handle_alter_ok; [done|]. by intros h _ [? ? ? ?].
  - apply handle_alter_ok; [done|]. intros h' Hh [? ? ? ?]. assert (h' = h) as -> by congruence. split; cbn; try done; lia.
  - done.
  - done.
  - destruct r as [st|e|]; [|by apply store_ok|done]. apply store_ok; [done|]. by eapply supervised_dom.
Qed.

(** ** Starting *)
Lemma by_key_elem {A} (m : gmap str A) k a : (k, a) ∈ by_key m ↔ m !! k = Some a.
Proof. rewrite /by_key merge_sort_Permutation. apply elem_of_map_to_list. Qed.
Lemma by_key_nodup {A} (m : gmap str A) : NoDup (by_key m).*1.
Proof. rewrite /by_key merge_sort_Permutation. apply NoDup_fst_map_to_list. Qed.

Lemma start_all_ok (l : list (str * ServerRecord)) c :
  map_Forall (λ _ h, handle_ok h) (co_servers c) →
  let c' := foldl (λ c s, start_supervisor s.1 c) c l in
  map_Forall (λ _ h, handle_ok h) (co_servers c') ∧ dom (co_servers c') = dom (co_servers c) ∪ list_to_set l.*1 ∧
  co_store c' = co_store c.
Proof.
  revert c. induction l as [|[k r] l IH]; intros c Hc; cbn; [split_and!; [done|set_solver|done]|].
  destruct (IH (start_supervisor k c)) as (H1 & H2 & H3).
  - apply map_Forall_insert_2; [apply handle_new_ok|done].
  - split_and!; [done| |done]. rewrite H2 /= dom_insert_L. set_solver.
Qed.

Lemma spawn_ok p v1 fresh d d' c : spawn p v1 fresh d = (d', Returns c) → core_ok (c, ∅).
Proof.
  rewrite /spawn. destruct (bind_io _ _ d) as [d1 [[st migrated]|e|]]; try done. intros [= _ <-].
  match goal with |- context [foldl _ ?c0 ?l] => destruct (start_all_ok l c0) as (H1 & H2 & H3) end; [done|].
  split; [done|]. cbn [fst snd]. rewrite H3 H2 /= dom_empty_L union_empty_l_L union_empty_r_L.
  assert (list_to_set (by_key (sd_servers (data st))).*1 = dom (sd_servers (data st))) as ->; [|done].
  apply set_eq. intros k. rewrite elem_of_list_to_set list_elem_of_fmap elem_of_dom. split.
  - intros ([k' r] & -> & Hk%by_key_elem). by eexists.
  - intros [r Hr]. exists (k, r). split; [done|]. by apply by_key_elem.
Qed.

End core.
