(* ===== verification/DesktopOutput.v ===== *)
(** * Terminal output to the desktop's webview

    [desktop/src-tauri/src/main.rs] ([OutputAcks]) and [commands.rs]: the registry
    of acknowledgement channels, and per attachment the task that coalesces output
    into packets and sends a window of them per acknowledgement. The packets go to
    the webview, the output comes from the attachment's reader ([ClientPump]). *)
From S2P Require Import Prelude ClientStore ClientCore.

Definition MAX_ACTIVE_OUTPUT_ACKS : Z := 256.
Definition OUTPUT_QUEUE : Z := 32.
Definition OUTPUT_PACKET_WINDOW : Z := 2.
Definition OUTPUT_BATCH_BYTES : Z := 128 * 1024.
Definition OUTPUT_BATCH_CHUNKS : Z := OUTPUT_QUEUE.

Definition output_packet_requires_ack (sequence : Z) : bool :=
  (sequence =? 0) || (sequence mod OUTPUT_PACKET_WINDOW =? 0).

Record OutputPacket := {
  pk_attachment_id : Z;
  pk_sequence : Z;
  pk_requires_ack : bool;
  pk_data : str;
}.

(** ** Batches *)

(** The batch and its number of chunks, or the chunk that does not fit. *)
Definition append_to_output_batch (batch : bytes) (chunks : Z) (next : bytes) : result (bytes * Z) bytes :=
  if (OUTPUT_BATCH_CHUNKS <=? chunks) || (sat_sub OUTPUT_BATCH_BYTES (len batch) <? len next) then Err next
  else Ok (batch ++ next, chunks + 1).

(** The loop of [drain_output_batch] over what is in the queue; what is left of
    the queue comes last. *)
Fixpoint drain_loop (batch : bytes) (chunks : Z) (sink : list bytes) : bytes * option bytes * list bytes :=
  if chunks <? OUTPUT_BATCH_CHUNKS then
    match sink with
    | [] => (batch, None, [])
    | next :: sink =>
        match append_to_output_batch batch chunks next with
        | Ok (batch, chunks) => drain_loop batch chunks sink
        | Err leftover => (batch, Some leftover, sink)
        end
    end
  else (batch, None, sink).
Definition drain_output_batch (first : bytes) (sink : list bytes) : bytes * option bytes * list bytes :=
  drain_loop first 1 sink.

(** ** The task of an attachment *)

(** Waiting for the acknowledgement of the last packet; with so many packets of
    the window left; returned. *)
Inductive OutPhase := TAck | TWindow (rest : nat) | TDone.
#[export] Instance out_phase_eq_dec : EqDecision OutPhase.
Proof. solve_decision. Defined.

(** With the queue from the reader, and what was queued, sent and acknowledged so
    far. *)
Record OutTask := {
  ot_phase : OutPhase;
  ot_sequence : Z;
  ot_pending : option bytes;
  ot_sink : list bytes;
  ot_sink_open : bool;
  ot_fed : list bytes;
  ot_batches : list bytes;
  ot_packets : list OutputPacket;
  ot_acked : option Z;
}.

Section output.
Context {B : Base64}.

Definition packet (id sequence : Z) (bytes : bytes) : OutputPacket := {|
  pk_attachment_id := id; pk_sequence := sequence; pk_requires_ack := output_packet_requires_ack sequence;
  pk_data := b64_encode bytes |}.

(** The snapshot goes first; [ok]: whether the webview takes a packet. *)
Definition task_start (id : Z) (snapshot : bytes) (ok : bool) : OutTask := {|
  ot_phase := if ok then TAck else TDone; ot_sequence := 0; ot_pending := None; ot_sink := []; ot_sink_open := true;
  ot_fed := []; ot_batches := [snapshot];
  ot_packets := if ok then [packet id 0 snapshot] else []; ot_acked := None |}.

Definition set_phase (t : OutTask) (p : OutPhase) (acked : option Z) : OutTask := {|
  ot_phase := p; ot_sequence := ot_sequence t; ot_pending := ot_pending t; ot_sink := ot_sink t;
  ot_sink_open := ot_sink_open t; ot_fed := ot_fed t; ot_batches := ot_batches t;
  ot_packets := ot_packets t; ot_acked := acked |}.

(** [timeout(OUTPUT_ACK_TIMEOUT, acknowledgements.recv())]: [ack] is what is in the
    channel, [elapsed] when the time is up. *)
Definition await_ack (t : OutTask) (ack : option Z) (elapsed : bool) : option OutTask :=
  match ack with
  | Some ack =>
      if ack =? ot_sequence t then Some (set_phase t (TWindow (Z.to_nat OUTPUT_PACKET_WINDOW)) (Some ack))
      else Some (set_phase t TDone (ot_acked t))
  | None => if elapsed then Some (set_phase t TDone (ot_acked t)) else None
  end.

(** The chunk a packet begins with, and the queue after it: [None] waits; the
    inner [None] is the end of the output. *)
Definition first_chunk (t : OutTask) : option (option (bytes * list bytes)) :=
  match ot_pending t, ot_sink t with
  | Some bytes, sink => Some (Some (bytes, sink))
  | None, bytes :: sink => Some (Some (bytes, sink))
  | None, [] => if ot_sink_open t then None else Some None
  end.

Definition window_turn (id : Z) (t : OutTask) (rest : nat) (ok : bool) : option OutTask :=
  first ← first_chunk t;
  match first with
  | None => Some (set_phase t TDone (ot_acked t))
  | Some (first, sink) =>
      let '(batch, leftover, sink) := drain_output_batch first sink in
      let sequence := Z.min (ot_sequence t + 1) u64_max in
      Some {|
        ot_phase := if negb ok then TDone
                    else if output_packet_requires_ack sequence then TAck
                    else match rest with S (S n) => TWindow (S n) | _ => TAck end;
        ot_sequence := sequence; ot_pending := leftover; ot_sink := sink; ot_sink_open := ot_sink_open t;
        ot_fed := ot_fed t; ot_batches := ot_batches t ++ [batch];
        ot_packets := if ok then ot_packets t ++ [packet id sequence batch] else ot_packets t; ot_acked := ot_acked t |}
  end.

Definition task_turn (id : Z) (t : OutTask) (ack : option Z) (ok elapsed : bool) : option OutTask :=
  match ot_phase t with
  | TAck => await_ack t ack elapsed
  | TWindow rest => window_turn id t rest ok
  | TDone => None
  end.

(** The reader queues output ([None] while the queue is full), or ends. *)
Definition feed (t : OutTask) (bytes : bytes) : option OutTask :=
  match ot_phase t with
  | TDone => None
  | _ =>
      if ot_sink_open t && (len (ot_sink t) <? OUTPUT_QUEUE) then
        Some {| ot_phase := ot_phase t; ot_sequence := ot_sequence t; ot_pending := ot_pending t;
                ot_sink := ot_sink t ++ [bytes]; ot_sink_open := true; ot_fed := ot_fed t ++ [bytes];
                ot_batches := ot_batches t; ot_packets := ot_packets t; ot_acked := ot_acked t |}
      else None
  end.
Definition close_sink (t : OutTask) : OutTask := {|
  ot_phase := ot_phase t; ot_sequence := ot_sequence t; ot_pending := ot_pending t; ot_sink := ot_sink t;
  ot_sink_open := false; ot_fed := ot_fed t; ot_batches := ot_batches t;
  ot_packets := ot_packets t; ot_acked := ot_acked t |}.

(** ** The registry and all tasks

    An entry holds what is in its channel of capacity one. One without a task
    belongs to an attach that is still being answered. *)
Record Outputs := { oa_next_id : Z; oa_entries : gmap Z (option Z); oa_tasks : gmap Z OutTask }.
Definition outputs_new : Outputs := {| oa_next_id := 1; oa_entries := ∅; oa_tasks := ∅ |}.

Definition with_entries (o : Outputs) (e : gmap Z (option Z)) : Outputs := {|
  oa_next_id := oa_next_id o; oa_entries := e; oa_tasks := oa_tasks o |}.

Definition register (o : Outputs) : Outputs * result Z str :=
  if MAX_ACTIVE_OUTPUT_ACKS <=? Z.of_nat (size (oa_entries o)) then (o, Err (lit "too many active terminal output channels"))
  else
    let id := oa_next_id o in
    ({| oa_next_id := wrap64 (id + 1); oa_entries := <[id := None]> (oa_entries o); oa_tasks := oa_tasks o |}, Ok id).

Definition remove (o : Outputs) (id : Z) : Outputs := with_entries o (delete id (oa_entries o)).

Definition acknowledge (o : Outputs) (id sequence : Z) : Outputs * result unit str :=
  match oa_entries o !! id with
  | None => (o, Err (lit "stale terminal output acknowledgement"))
  | Some (Some _) => (o, Err (lit "unexpected terminal output acknowledgement"))
  | Some None => (with_entries o (<[id := Some sequence]> (oa_entries o)), Ok ())
  end.

(** A task's change; when it returns it removes its entry. *)
Definition set_task (o : Outputs) (id : Z) (t : OutTask) : Outputs :=
  let o := {| oa_next_id := oa_next_id o; oa_entries := oa_entries o; oa_tasks := <[id := t]> (oa_tasks o) |} in
  match ot_phase t with TDone => remove o id | _ => o end.

(** The core's answer to the attach; with an error the entry goes. *)
Definition attach_answered (o : Outputs) (id : Z) (info : result AttachInfo CoreErr) (ok : bool) : Outputs :=
  match info with
  | Ok info => set_task o id (task_start id (ai_snapshot info) ok)
  | Err _ => remove o id
  end.

(** One await of a task: waiting for an acknowledgement empties the channel. *)
Definition run_task (o : Outputs) (id : Z) (ok elapsed : bool) : option Outputs :=
  t ← oa_tasks o !! id;
  t' ← task_turn id t (ack ← oa_entries o !! id; ack) ok elapsed;
  let o := match ot_phase t with TAck => with_entries o (alter (λ _, None) id (oa_entries o)) | _ => o end in
  Some (set_task o id t').
End output.

(** ** Links *)
Definition open_external (url : str) : result str str :=
  let lower := map ascii_lowercase url in
  if starts_with (lit "https://") lower || starts_with (lit "http://") lower then Ok url
  else Err (lit "only http(s) URLs can be opened").
