(* ===== verification/ClientProps.v ===== *)
(** * The desktop client's supervisor: properties

    Requests on the control channel are answered once, by their own replies, and
    a silent server is noticed; a resume token is given up only on a verdict of
    the server; a password is used once and interactive authentication is never
    retried by itself. *)
From S2P Require Import Prelude Protocol Framing Ids ClientStore ClientApi ClientCore.

(** ** The control actor *)
Section control.
Import Control.

Definition req_of (e : Event * result unit str) : option (Z * nat) :=
  match e.1 with Req env reply => Some (env_request_id env, reply) | _ => None end.
Definition requests (events : list (Event * result unit str)) : list (Z * nat) := omap req_of events.

Definition answered_of (o : Out) : option nat := match o with Answers r _ => Some r | _ => None end.
Definition answered (outs : list Out) : list nat := omap answered_of outs.

(** A request in flight is none of those still to come, and no two share a
    reply sender. *)
Record fresh_for (c : Control) (events : list (Event * result unit str)) : Prop := {
  ff_ids : NoDup (requests events).*1;
  ff_replies : NoDup (requests events).*2;
  ff_id id s : pending c !! id = Some s → id ∉ (requests events).*1;
  ff_reply id s : pending c !! id = Some s → s ∉ (requests events).*2;
  ff_inj id id' s : pending c !! id = Some s → pending c !! id' = Some s → id = id';
  ff_bound : Z.of_nat (size (pending c)) ≤ MAX_INFLIGHT_CONTROL;
  ff_pings : 0 ≤ outstanding_pings c ≤ MAX_MISSED_PONGS;
}.

Definition in_flight (c : Control) (s : nat) : Prop := ∃ id, pending c !! id = Some s.

(** One turn: what it answers was in flight or is its own request, is no longer
    in flight, and an answer of the server has the id it answers. *)
Record turn_ok (c c' : Control) (e : Event) (outs : list Out) : Prop := {
  to_nodup : NoDup (answered outs);
  to_answered s : s ∈ answered outs → ¬ in_flight c' s ∧ (in_flight c s ∨ ∃ env, e = Req env s);
  to_origin id s : pending c' !! id = Some s →
    pending c !! id = Some s ∨ ∃ env, e = Req env s ∧ env_request_id env = id;
  to_kept id s : pending c !! id = Some s → pending c' !! id = Some s ∨ s ∈ answered outs;
  to_match s env : Answers s (Ok env) ∈ outs →
    e = Recv (Ok env) ∧ pending c !! env_request_id env = Some s;
  to_own env s : e = Req env s → in_flight c' s ∨ s ∈ answered outs;
}.

(** The four things a turn can do to the requests in flight. *)
Inductive turn_shape (c c' : Control) : Event → list Out → Prop :=
  | shape_same e outs : pending c' = pending c → answered outs = [] → (∀ env s, e ≠ Req env s) →
      turn_shape c c' e outs
  | shape_refused env s err : pending c' = pending c →
      turn_shape c c' (Req env s) [Answers s (Err err)]
  | shape_sent env s : pending c' = <[env_request_id env := s]> (pending c) →
      Z.of_nat (size (pending c)) < MAX_INFLIGHT_CONTROL →
      turn_shape c c' (Req env s) [Sends env]
  | shape_answered env s : pending c !! env_request_id env = Some s →
      pending c' = delete (env_request_id env) (pending c) →
      turn_shape c c' (Recv (Ok env)) [Answers s (Ok env)].

Lemma turn_shaped c e sent c' outs go :
  0 ≤ outstanding_pings c ≤ MAX_MISSED_PONGS → turn c e sent = Some (c', outs, go) →
  turn_shape c c' e outs ∧ 0 ≤ outstanding_pings c' ≤ MAX_MISSED_PONGS.
Proof.
  rewrite /MAX_MISSED_PONGS. intros Hp. destruct e as [env s| |[env|[]]|]; simpl.
  - case_match eqn:El; [|destruct sent]; intros [= <- <- <-]; simpl; split; try done.
    + by apply shape_refused.
    + apply shape_sent; [done|]. lia.
    + by apply shape_refused.
  - intros [= <- <- <-]. split; [by apply shape_same|done].
  - assert (∀ c2 outs2 go2,
      match pending c !! env_request_id env with
      | Some reply => Some ({| pending := delete (env_request_id env) (pending c);
          outstanding_pings := outstanding_pings c; nonce := nonce c |}, [Answers reply (Ok env)], true)
      | None => Some (c, [], true)
      end = Some (c2, outs2, go2) →
      turn_shape c c2 (Recv (Ok env)) outs2 ∧ 0 ≤ outstanding_pings c2 ≤ 3) as Ha.
    { intros c2 outs2 go2. destruct (pending c !! env_request_id env) as [s|] eqn:Es; intros [= <- <- <-].
      - split; [by apply shape_answered|done].
      - split; [by apply shape_same|done]. }
    destruct (env_message env) as [[]|]; try apply Ha; clear Ha.
    + destruct sent; intros [= <- <- <-]; (split; [by apply shape_same|done]).
    + intros [= <- <- <-]. simpl. split; [by apply shape_same|lia].
  - intros [= <- <- <-]. split; [by apply shape_same|done].
  - case_match eqn:El; to_prop.
    { intros [= <- <- <-]. split; [by apply shape_same|done]. }
    destruct (checked_add64 _ _); simpl; [|done].
    rewrite /MAX_MISSED_PONGS in El.
    destruct sent; intros [= <- <- <-]; simpl; (split; [by apply shape_same|lia]).
Qed.

Lemma fresh_for_tail c c' e events :
  fresh_for c (e :: events) → (∀ id s, pending c' !! id = Some s → pending c !! id = Some s) →
  (size (pending c') ≤ size (pending c))%nat → 0 ≤ outstanding_pings c' ≤ MAX_MISSED_PONGS →
  fresh_for c' events.
Proof.
  intros [Hids Hreps Hid Hrep Hinj Hb _] Hsub Hsz Hp.
  assert (requests (e :: events) = option_list (req_of e) ++ requests events) as Hr.
  { rewrite /requests /=. by destruct (req_of e). }
  rewrite Hr !fmap_app in Hids, Hreps, Hid, Hrep.
  apply NoDup_app in Hids as (_ & _ & Hids). apply NoDup_app in Hreps as (_ & _ & Hreps).
  split; [done|done| | | |lia|done].
  - intros id s Hs%Hsub%Hid. set_solver.
  - intros id s Hs%Hsub%Hrep. set_solver.
  - intros id id' s ?%Hsub ?%Hsub. by eapply Hinj.
Qed.

Lemma turn_spec c e sent events c' outs go :
  fresh_for c ((e, sent) :: events) → turn c e sent = Some (c', outs, go) →
  fresh_for c' events ∧ turn_ok c c' e outs.
Proof.
  intros F Ht. destruct (turn_shaped _ _ _ _ _ _ (ff_pings _ _ F) Ht) as [Hs Hp].
  destruct Hs as [e outs E En Hne|env s err E|env s E Hlt|env s Es E].
  - split; [eapply fresh_for_tail; [done|by rewrite E|by rewrite E|done]|].
    split; rewrite ?En ?E.
    + constructor.
    + set_solver.
    + auto.
    + auto.
    + intros r env Hin. exfalso. assert (r ∈ answered outs) as Hr; [|rewrite En in Hr; set_solver].
      apply list_elem_of_omap. eexists. split; [exact Hin|done].
    + intros env r ->. by destruct (Hne env r).
  - split; [eapply fresh_for_tail; [done|by rewrite E|by rewrite E|done]|].
    assert (¬ in_flight c' s) as Hnf.
    { intros [id Hi]. rewrite E in Hi. apply (ff_reply _ _ F) in Hi. simpl in Hi. set_solver. }
    split; simpl; rewrite ?E.
    + apply NoDup_singleton.
    + intros r ->%list_elem_of_singleton. split; [done|right; by eexists].
    + auto.
    + auto.
    + intros r env' Hin. set_solver.
    + intros env' r [= <- <-]. right. set_solver.
  - pose proof (ff_ids _ _ F) as Hids. pose proof (ff_replies _ _ F) as Hreps. simpl in Hids, Hreps.
    apply NoDup_cons in Hids as [Hn Hids]. apply NoDup_cons in Hreps as [Hm Hreps].
    assert (∀ id, pending c !! id ≠ Some s) as Hsn.
    { intros id Hi%(ff_reply _ _ F). simpl in Hi. set_solver. }
    assert (pending c !! env_request_id env = None) as Hidn.
    { destruct (pending c !! env_request_id env) as [s'|] eqn:Ei; [|done].
      apply (ff_id _ _ F) in Ei. simpl in Ei. set_solver. }
    split.
    + split; rewrite ?E; [done|done| | | | |done].
      * intros id r [[<- _]|[_ Hi]]%lookup_insert_Some; [done|].
        apply (ff_id _ _ F) in Hi. simpl in Hi. set_solver.
      * intros id r [[_ <-]|[_ Hi]]%lookup_insert_Some; [done|].
        apply (ff_reply _ _ F) in Hi. simpl in Hi. set_solver.
      * intros id id' r [[<- <-]|[Hne Hi]]%lookup_insert_Some [[<- Hr]|[Hne' Hi']]%lookup_insert_Some;
          [done|by destruct (Hsn id')|subst r; by destruct (Hsn id)|by eapply (ff_inj _ _ F)].
      * rewrite map_size_insert_None //. lia.
    + split; simpl; rewrite ?E.
      * constructor.
      * set_solver.
      * intros id r [[<- <-]|[_ Hi]]%lookup_insert_Some; [right; by eexists|by left].
      * intros id r Hi. left. rewrite lookup_insert_ne //. intros <-. by rewrite Hidn in Hi.
      * set_solver.
      * intros env' r [= <- <-]. left. exists (env_request_id env). by rewrite E lookup_insert_eq.
  - split.
    + eapply fresh_for_tail; [done| | |done]; rewrite E.
      * by intros id r [_ Hi]%lookup_delete_Some.
      * rewrite map_size_delete Es. lia.
    + split; simpl; rewrite ?E.
      * apply NoDup_singleton.
      * intros r ->%list_elem_of_singleton. split; [|left; by eexists].
        intros [id Hi]. rewrite E in Hi. apply lookup_delete_Some in Hi as [Hne Hi].
        apply Hne. by eapply (ff_inj _ _ F).
      * intros id r [_ Hi]%lookup_delete_Some. by left.
      * intros id r Hi. destruct (decide (env_request_id env = id)) as [<-|Hne].
        -- right. rewrite Es in Hi. injection Hi as <-. set_solver.
        -- left. by rewrite lookup_delete_ne.
      * intros r env' Hin. apply list_elem_of_singleton in Hin as [= -> ->]. done.
      * done.
Qed.

(** What a run has done with the requests: [all] when it has not ended. *)
Record control_ok (c c' : Control) (events : list (Event * result unit str)) (outs : list Out) (all : bool) : Prop := {
  ro_nodup : NoDup (answered outs);
  ro_answered s : s ∈ answered outs →
    ¬ in_flight c' s ∧ (in_flight c s ∨ s ∈ (requests events).*2);
  ro_origin s : in_flight c' s → in_flight c s ∨ s ∈ (requests events).*2;
  ro_match s env : Answers s (Ok env) ∈ outs →
    (∃ b, (Recv (Ok env), b) ∈ events) ∧
    (pending c !! env_request_id env = Some s ∨
     ∃ req b, (Req req s, b) ∈ events ∧ env_request_id req = env_request_id env);
  ro_kept s : in_flight c s ∨ (all = true ∧ s ∈ (requests events).*2) → in_flight c' s ∨ s ∈ answered outs;
}.

Lemma requests_cons e events : (requests (e :: events)).*2 = (option_list (req_of e)).*2 ++ (requests events).*2.
Proof. rewrite /requests /=. by destruct (req_of e). Qed.

Lemma control_ok_stop c c1 e sent events outs :
  turn_ok c c1 e outs → control_ok c c1 ((e, sent) :: events) outs false.
Proof.
  intros T. assert (∀ env s, e = Req env s → s ∈ (requests ((e, sent) :: events)).*2) as Hreq.
  { intros env s ->. rewrite requests_cons /=. set_solver. }
  split.
  - apply T.
  - intros s [? [?|[env He]]]%(to_answered _ _ _ _ T); split; [done|by left|done|right; by eapply Hreq].
  - intros s [id [Hs|(env & He & _)]%(to_origin _ _ _ _ T)]; [left; by eexists|right; by eapply Hreq].
  - intros s env [-> Hp]%(to_match _ _ _ _ T). split; [exists sent; set_solver|by left].
  - intros s [[id Hs]|[? _]]; [|done].
    destruct (to_kept _ _ _ _ T id s Hs) as [?|?]; [left; by eexists|by right].
Qed.

Lemma control_ok_cons c c1 c2 e sent events outs1 outs2 all :
  fresh_for c ((e, sent) :: events) → turn_ok c c1 e outs1 → control_ok c1 c2 events outs2 all →
  control_ok c c2 ((e, sent) :: events) (outs1 ++ outs2) all.
Proof.
  intros F T R.
  assert (answered (outs1 ++ outs2) = answered outs1 ++ answered outs2) as Ha by apply omap_app.
  assert (∀ env s, e = Req env s → s ∈ (requests ((e, sent) :: events)).*2 ∧ s ∉ (requests events).*2 ∧ ¬ in_flight c s) as Hreq.
  { intros env s ->. pose proof (ff_replies _ _ F) as Hn. rewrite requests_cons /= in Hn. rewrite requests_cons /=.
    apply NoDup_cons in Hn as [Hn _]. split_and!; [set_solver|done|].
    intros [id Hi%(ff_reply _ _ F)]. rewrite requests_cons /= in Hi. set_solver. }
  assert (∀ s, s ∈ (requests events).*2 → s ∈ (requests ((e, sent) :: events)).*2) as Hsub.
  { intros s. rewrite requests_cons. set_solver. }
  assert (∀ s, s ∈ answered outs1 → s ∉ (requests events).*2) as Hnew.
  { intros s [_ [[id Hi%(ff_reply _ _ F)]|[env He]]]%(to_answered _ _ _ _ T); [|by eapply Hreq].
    rewrite requests_cons in Hi. set_solver. }
  split; rewrite ?Ha.
  - apply NoDup_app. split_and!; [apply T| |apply R].
    intros s Hs1 Hs2. destruct (ro_answered _ _ _ _ _ R s Hs2) as [_ [Hf|Hr]].
    + by destruct (to_answered _ _ _ _ T s Hs1).
    + by eapply Hnew.
  - intros s [Hs|Hs]%elem_of_app.
    + destruct (to_answered _ _ _ _ T s Hs) as [Hnf Ho]. split.
      * intros [Hf|Hr]%(ro_origin _ _ _ _ _ R); [done|]. by eapply Hnew.
      * destruct Ho as [?|[env He]]; [by left|right; by eapply Hreq].
    + destruct (ro_answered _ _ _ _ _ R s Hs) as [Hnf Ho]. split; [done|].
      destruct Ho as [[id [Hp|(env & He & _)]%(to_origin _ _ _ _ T)]|Hr];
        [left; by eexists|right; by eapply Hreq|right; auto].
  - intros s [[id [Hp|(env & He & _)]%(to_origin _ _ _ _ T)]|Hr]%(ro_origin _ _ _ _ _ R);
      [left; by eexists|right; by eapply Hreq|right; auto].
  - intros s env [Hs|Hs]%elem_of_app.
    + destruct (to_match _ _ _ _ T s env Hs) as [-> Hp]. split; [exists sent; set_solver|by left].
    + destruct (ro_match _ _ _ _ _ R s env Hs) as [[b Hb] Ho]. split; [exists b; set_solver|].
      destruct Ho as [[?|(req & -> & Hid)]%(to_origin _ _ _ _ T)|(req & b' & ? & ?)].
      * by left.
      * right. exists req, sent. split; [set_solver|done].
      * right. exists req, b'. split; [set_solver|done].
  - intros s Hs.
    assert (in_flight c1 s ∨ s ∈ answered outs1 ∨ (all = true ∧ s ∈ (requests events).*2)) as [Hf|[Hf|Hf]].
    { destruct Hs as [[id Hs]|[Hall Hs]].
      - destruct (to_kept _ _ _ _ T id s Hs); [left; by eexists|auto].
      - rewrite requests_cons in Hs. apply elem_of_app in Hs as [Hs|Hs]; [|auto].
        destruct e as [env r| | |]; simpl in Hs; try (by apply elem_of_nil in Hs).
        apply list_elem_of_singleton in Hs as ->. destruct (to_own _ _ _ _ T env r eq_refl); auto. }
    + destruct (ro_kept _ _ _ _ _ R s) as [?|?]; set_solver.
    + set_solver.
    + destruct (ro_kept _ _ _ _ _ R s) as [?|?]; set_solver.
Qed.

Lemma control_run_spec c events c' outs go :
  fresh_for c events → run c events = Some (c', outs, go) →
  Z.of_nat (size (pending c')) ≤ MAX_INFLIGHT_CONTROL ∧ control_ok c c' events outs go.
Proof.
  revert c c' outs go. induction events as [|[e sent] events IH]; intros c c' outs go F; simpl.
  { intros [= <- <- <-]. split; [apply F|]. split; [constructor|set_solver|auto|set_solver|].
    intros s [?|[_ ?]]; [by left|set_solver]. }
  destruct (turn c e sent) as [[[c1 outs1] [|]]|] eqn:Et; [| |done];
    destruct (turn_spec _ _ _ _ _ _ _ F Et) as [F1 T].
  - destruct (run c1 events) as [[[c2 outs2] go2]|] eqn:Er; [|done]. intros [= <- <- <-].
    destruct (IH _ _ _ _ F1 Er) as [? ?]. split; [done|]. by eapply control_ok_cons.
  - intros [= <- <- <-]. split; [apply F1|by apply control_ok_stop].
Qed.

(** Requests with distinct ids and reply senders, in any interleaving with
    frames and ticks: at most 32 are ever in flight; each is answered at most
    once; an answer from the server is a frame it sent under the request's own
    id; and while the actor runs every request is answered or in flight. *)
Theorem control_multiplex events c outs go :
  NoDup (requests events).*1 → NoDup (requests events).*2 →
  run control_new events = Some (c, outs, go) →
  Z.of_nat (size (pending c)) ≤ MAX_INFLIGHT_CONTROL ∧
  NoDup (answered outs) ∧
  (∀ s env, Answers s (Ok env) ∈ outs →
     ∃ req b b', (Req req s, b) ∈ events ∧ (Recv (Ok env), b') ∈ events ∧
                 env_request_id req = env_request_id env) ∧
  (∀ s, s ∈ (requests events).*2 → go = true →
     (in_flight c s ∧ s ∉ answered outs) ∨ (¬ in_flight c s ∧ s ∈ answered outs)).
Proof.
  intros Hids Hreps Hr.
  assert (fresh_for control_new events) as F.
  { split; simpl; try done; intros *; by rewrite lookup_empty. }
  destruct (control_run_spec _ _ _ _ _ F Hr) as [Hb R]. split_and!; [done|apply R| |].
  - intros s env [[b' Hb'] [Hp|(req & b & ? & ?)]]%(ro_match _ _ _ _ _ R); [by rewrite lookup_empty in Hp|].
    by exists req, b, b'.
  - intros s Hs ->. destruct (ro_kept _ _ _ _ _ R s) as [Hf|Ha]; [by right| |].
    + left. split; [done|]. intros [? _]%(ro_answered _ _ _ _ _ R). done.
    + right. split; [|done]. by apply (ro_answered _ _ _ _ _ R).
Qed.

(** *** Keepalive *)
Definition is_pong (e : Event * result unit str) : bool :=
  match e.1 with Recv (Ok env) => match env_message env with Some (MsgPong _) => true | _ => false end
               | _ => false end.
Definition is_tick (e : Event * result unit str) : bool := match e.1 with Tick => true | _ => false end.
Definition ticks (events : list (Event * result unit str)) : Z := len (filter (λ e, is_tick e = true) events).

Lemma run_silent c events c' outs go :
  0 ≤ outstanding_pings c ≤ MAX_MISSED_PONGS → Forall (λ e, is_pong e = false) events →
  run c events = Some (c', outs, go) → go = true →
  outstanding_pings c' = outstanding_pings c + ticks events ∧ outstanding_pings c' ≤ MAX_MISSED_PONGS.
Proof.
  revert c c' outs go. induction events as [|[e sent] events IH]; intros c c' outs go Hp Hq; simpl.
  { intros [= <- <- <-] _. rewrite /ticks /= len_nil. lia. }
  apply Forall_cons in Hq as [Hq1 Hq].
  destruct (turn c e sent) as [[[c1 outs1] [|]]|] eqn:Et; [| |done]; last by intros [= <- <- <-].
  destruct (run c1 events) as [[[c2 outs2] go2]|] eqn:Er; [|done]. intros [= <- <- <-] ->.
  destruct (turn_shaped _ _ _ _ _ _ Hp Et) as [_ Hp1].
  destruct (IH _ _ _ _ Hp1 Hq Er eq_refl) as [-> ?].
  enough (outstanding_pings c1 + ticks events = outstanding_pings c + ticks ((e, sent) :: events)) by lia.
  rewrite /ticks filter_cons. destruct e as [env r| |[env|[]]|]; simpl in Et |- *.
  - destruct (_ <=? _); [by simplify_eq|]. destruct sent; by simplify_eq.
  - by simplify_eq.
  - rewrite /is_pong /= in Hq1. destruct (env_message env) as [[]|]; try done;
      try (destruct (pending c !! env_request_id env); by simplify_eq).
    destruct sent; simpl in Et; by simplify_eq.
  - by simplify_eq.
  - destruct (_ <=? _); [by simplify_eq|]. destruct (checked_add64 _ _); simpl in Et; [|done].
    destruct sent; simpl in Et; simplify_eq; simpl. rewrite len_cons. lia.
Qed.

Lemma run_app c es1 es2 c' outs go :
  run c (es1 ++ es2) = Some (c', outs, go) →
  ∃ c1 outs1 go1, run c es1 = Some (c1, outs1, go1) ∧
    if go1 then ∃ outs2, run c1 es2 = Some (c', outs2, go) ∧ outs = outs1 ++ outs2
    else c' = c1 ∧ outs = outs1 ∧ go = false.
Proof.
  revert c outs. induction es1 as [|[e sent] es1 IH]; intros c outs; simpl.
  { intros Hr. do 3 eexists. split; [done|]. simpl. eauto. }
  destruct (turn c e sent) as [[[c1 outs1] [|]]|]; [| |done]; last first.
  { intros [= <- <- <-]. by do 3 eexists. }
  destruct (run c1 (es1 ++ es2)) as [[[c2 outs2] go2]|] eqn:Er; [|done]. intros [= <- <- <-].
  destruct (IH _ _ Er) as (c3 & outs3 & go3 & -> & Hg). do 3 eexists. split; [done|].
  destruct go3.
  - destruct Hg as (o & ? & ->). exists o. by rewrite app_assoc.
  - by destruct Hg as (-> & -> & ->).
Qed.

Lemma run_pings c events c' outs go :
  0 ≤ outstanding_pings c ≤ MAX_MISSED_PONGS → run c events = Some (c', outs, go) →
  0 ≤ outstanding_pings c' ≤ MAX_MISSED_PONGS.
Proof.
  revert c outs go. induction events as [|[e sent] es IH]; intros c outs go Hk; simpl; [by intros [= <- _ _]|].
  destruct (turn c e sent) as [[[k1 o1] [|]]|] eqn:Et; [| |done];
    destruct (turn_shaped _ _ _ _ _ _ Hk Et) as [_ Hk1]; last by intros [= <- <- <-].
  destruct (run k1 es) as [[[k2 o2] g2]|] eqn:Er; [|done]. intros [= <- <- <-]. by eapply IH.
Qed.

(** A server that stops answering is noticed at the fourth tick: no run
    survives more than three ticks without a pong. And keepalive alone ends
    nothing: a tick at which fewer than three pings are unanswered goes on
    unless its own write fails. *)
Theorem keepalive_exact before silent c outs go c1 :
  Forall (λ e, is_pong e = false) silent →
  run control_new (before ++ silent) = Some (c, outs, go) →
  (MAX_MISSED_PONGS < ticks silent → go = false) ∧
  (outstanding_pings c1 < MAX_MISSED_PONGS → nonce c1 < u64_max →
   ∃ c2, turn c1 Tick (Ok ()) = Some (c2, [Sends (plain (MsgPing (nonce c1 + 1)))], true)).
Proof.
  intros Hq Hr. split.
  - intros Ht. destruct go; [|done]. exfalso.
    destruct (run_app _ _ _ _ _ _ Hr) as (c0 & outs0 & go0 & Hr0 & Hg).
    destruct go0; [|by destruct Hg as (_ & _ & ?)]. destruct Hg as (outs2 & Hr2 & _).
    pose proof (run_pings _ _ _ _ _ (ltac:(done) : 0 ≤ outstanding_pings control_new ≤ MAX_MISSED_PONGS) Hr0) as Hp0.
    destruct (run_silent _ _ _ _ _ Hp0 Hq Hr2 eq_refl). lia.
  - intros Hlt Hn. rewrite /turn /checked_add64. rewrite (proj2 (Z.leb_gt _ _)) // (proj2 (Z.leb_le _ _)); [|lia].
    simpl. eauto.
Qed.

End control.

(** ** Credentials *)
Section credentials.
Context {PM : ProstMessage Envelope} {J : StoreJson} {B : Base64}.
Variable key : str.

Lemma commit_returns st x d d' st' :
  commit st x d = (d', Returns st') → st' = {| path := path st; data := x |}.
Proof. rewrite /commit /bind_io. destruct (save st x d) as [e [[]|?|]]; by intros [= <- <-]. Qed.

Lemma mutate_returns st k f d d' st' :
  mutate_server st k f d = (d', Returns st') →
  ∃ s, server st k = Some s ∧ server st' k = Some (f s) ∧ path st' = path st ∧
       ∀ k', k' ≠ k → server st' k' = server st k'.
Proof.
  rewrite /mutate_server /server. destruct (sd_servers (data st) !! k) as [s|] eqn:Es; [|done].
  intros ->%commit_returns. exists s. simpl. rewrite lookup_insert_eq. split_and!; [done..|].
  intros k' Hk. by rewrite lookup_insert_ne.
Qed.

(** The server's word on a shell: an attach refused because the shell or the
    token is gone, or a listing without it. *)
Definition judged (S : list stream) (R : list (result Envelope str)) (id : bytes) : Prop :=
  (∃ s token cols rows code retryable message, s ∈ S ∧
     attach_shell s id token cols rows = Some (Err (ARejected code retryable message)) ∧
     code ∈ [ErrNotFound; ErrTokenExpired; ErrTokenReplayed]) ∨
  (∃ reply l, Ok reply ∈ R ∧ env_message reply = Some (MsgShellList l) ∧
     ∀ s, s ∈ l → psi_shell_id s = id → psi_state s ≠ SHELL_STATE_RUNNING).

(** Tokens that came from the server: by attaching or by re-opening. *)
Definition issued (S : list stream) (R : list (result Envelope str)) (id token : bytes) : Prop :=
  (∃ s old cols rows a, s ∈ S ∧ attach_shell s id old cols rows = Some (Ok a) ∧ at_rotated_token a = token) ∨
  (∃ reply, Ok reply ∈ R ∧ ServerConn.opened_of reply = Some (id, token)).

(** How the record of a shell may change: it goes only if the shell was judged,
    it keeps its name and recovery key, and its token is the old one or came
    from the server. *)
Definition evolves (S : list stream) (R : list (result Envelope str)) (shell_hex : str) (id : bytes)
    (st st' : ClientStore) : Prop :=
  match shell st key shell_hex with
  | None => shell st' key shell_hex = None
  | Some r =>
      match shell st' key shell_hex with
      | None => judged S R id
      | Some r' =>
          sr_idempotency_key r' = sr_idempotency_key r ∧ sr_name r' = sr_name r ∧
          (sr_token r' = sr_token r ∨ ∃ t, issued S R id t ∧ sr_token r' = b64_encode t)
      end
  end.

Lemma evolves_refl S R sh id st : evolves S R sh id st st.
Proof. rewrite /evolves. destruct (shell st key sh); auto. Qed.

Lemma evolves_trans S R sh id st1 st2 st3 :
  evolves S R sh id st1 st2 → evolves S R sh id st2 st3 → evolves S R sh id st1 st3.
Proof.
  rewrite /evolves. destruct (shell st1 key sh) as [r1|]; [|by intros ->].
  destruct (shell st2 key sh) as [r2|]; [|by intros Hj ->].
  destruct (shell st3 key sh) as [r3|]; [|done].
  intros (E1 & N1 & T1) (E2 & N2 & T2). split_and!; [congruence..|].
  destruct T2 as [->|?]; [done|by right].
Qed.

Lemma update_token_evolves S R sh sh' id t now st st' d d' :
  update_token st key sh' t now d = (d', Returns st') → (sh' = sh → issued S R id t) →
  evolves S R sh id st st'.
Proof.
  intros (s & Hs & Hs' & _)%mutate_returns Hi. rewrite /evolves /shell Hs Hs' /=.
  destruct (decide (sh' = sh)) as [->|Hne].
  - rewrite lookup_alter_eq. destruct (sv_shells s !! sh) as [r|]; simpl; [|done].
    split_and!; [done|done|right; exists t; auto].
  - rewrite lookup_alter_ne //. destruct (sv_shells s !! sh); auto.
Qed.

Lemma remove_shell_evolves S R sh sh' id st st' d d' :
  remove_shell st key sh' d = (d', Returns st') → judged S R id → evolves S R sh id st st'.
Proof.
  intros (s & Hs & Hs' & _)%mutate_returns Hj. rewrite /evolves /shell Hs Hs' /=.
  destruct (decide (sh' = sh)) as [->|Hne].
  - rewrite lookup_delete_eq. by destruct (sv_shells s !! sh).
  - rewrite lookup_delete_ne //. destruct (sv_shells s !! sh); auto.
Qed.

(** A step of the supervisor that uses up inputs and lets the store evolve. *)
Definition steps (S : list stream) (R : list (result Envelope str)) (sh : str) (id : bytes)
    {A} (m : sup A) (Q : A → Prop) : Prop :=
  ∀ w w' o, m w = (w', o) → su_streams w ⊆ S → su_replies w ⊆ R →
    su_streams w' ⊆ S ∧ su_replies w' ⊆ R ∧ evolves S R sh id (su_store w) (su_store w') ∧
    ∀ a, o = Val a → Q a.

Section steps.
Context (S : list stream) (R : list (result Envelope str)) (sh : str) (id : bytes).
Notation steps := (steps S R sh id).

Lemma steps_ret {A} (a : A) (Q : A → Prop) : Q a → steps (ret_sup a) Q.
Proof. intros HQ w w' o [= <- <-] ??. split_and!; [done|done|apply evolves_refl|by intros ? [= <-]]. Qed.

Lemma steps_bind {A C} (m : sup A) (k : A → sup C) (P : A → Prop) (Q : C → Prop) :
  steps m P → (∀ a, P a → steps (k a) Q) → steps (bind_sup m k) Q.
Proof.
  intros Hm Hk w w' o. rewrite /bind_sup. destruct (m w) as [w1 [a| |]] eqn:Em; intros Hr HS HR;
    destruct (Hm _ _ _ Em HS HR) as (HS1 & HR1 & He & HP).
  - destruct (Hk a (HP a eq_refl) _ _ _ Hr HS1 HR1) as (? & ? & ? & ?).
    split_and!; [done|done|by eapply evolves_trans|done].
  - by simplify_eq.
  - by simplify_eq.
Qed.

Lemma steps_store (op : ClientStore → io ClientStore) :
  (∀ st st' d d', op st d = (d', Returns st') → evolves S R sh id st st') → steps (store_op op) (λ _, True).
Proof.
  intros Hop w w' o. rewrite /store_op. destruct (op _ _) as [d [st'|e|]] eqn:E; intros [= <- <-] ??;
    split_and!; try done; [by eapply Hop|apply evolves_refl|apply evolves_refl].
Qed.

Lemma steps_now : steps now_ms (λ _, True).
Proof. intros w w' o [= <- <-] ??. split_and!; [done|done|apply evolves_refl|done]. Qed.

Lemma steps_emit e : steps (emit e) (λ _, True).
Proof. intros w w' o [= <- <-] ??. split_and!; [done|done|apply evolves_refl|done]. Qed.

Lemma steps_or_panic {A} (o : option A) : steps (or_panic o) (λ a, o = Some a).
Proof.
  intros w w' x. rewrite /or_panic. destruct o; intros [= <- <-] ??;
    (split_and!; [done|done|apply evolves_refl|by intros ? [=]; subst]).
Qed.

Lemma steps_from_wait {A} (o : option A) : steps (from_wait o) (λ a, o = Some a).
Proof.
  intros w w' x. rewrite /from_wait. destruct o; intros [= <- <-] ??;
    (split_and!; [done|done|apply evolves_refl|by intros ? [=]; subst]).
Qed.

Lemma steps_next_stream :
  steps next_stream (λ s, s ∈ S ∨ s = Err (lit "connection closed")).
Proof.
  intros w w' o [= <- <-] HS HR. simpl. split_and!; [|done|apply evolves_refl|].
  - destruct (su_streams w); [done|set_solver].
  - intros a [= <-]. destruct (su_streams w); simpl; [by right|left; set_solver].
Qed.

Lemma steps_spawn c : steps (spawn_pumps c) (λ _, True).
Proof. intros w w' o [= <- <-] ??. split_and!; [done|done|apply evolves_refl|done]. Qed.

Lemma steps_request env :
  steps (ControlHandle.request env) (λ r, ∀ reply, r = Ok reply → Ok reply ∈ R).
Proof.
  intros w w' o [= <- <-] HS HR. simpl. split_and!; [done| |apply evolves_refl|].
  - destruct (su_replies w); [done|set_solver].
  - intros a [= <-] reply. destruct (su_replies w); simpl; [done|]. intros ->. set_solver.
Qed.

Lemma steps_weaken {A} (m : sup A) (P Q : A → Prop) : steps m P → (∀ a, P a → Q a) → steps m Q.
Proof. intros Hm HPQ w w' o E HS HR. destruct (Hm _ _ _ E HS HR) as (? & ? & ? & HP). split_and!; auto. Qed.

Lemma steps_list_shells :
  steps ControlHandle.list_shells (λ r, ∀ l, r = Ok l →
    ∃ reply, Ok reply ∈ R ∧ env_message reply = Some (MsgShellList l)).
Proof.
  eapply steps_bind; [apply steps_request|]. intros [reply|e] Hr; apply steps_ret; [|done].
  intros l Hl. exists reply. split; [by apply Hr|].
  destruct (env_message reply) as [[]|]; by simplify_eq.
Qed.

Lemma steps_open_shell k :
  steps (ControlHandle.open_shell None 0 0 k) (λ r, ∀ id' t, r = Ok (id', t) →
    ∃ reply, Ok reply ∈ R ∧ ServerConn.opened_of reply = Some (id', t)).
Proof.
  eapply steps_bind; [apply steps_request|]. intros [reply|e] Hr; apply steps_ret; [|done].
  intros id' t Hl. exists reply. split; [by apply Hr|]. rewrite /ServerConn.opened_of.
  destruct (env_message reply) as [[]|]; by simplify_eq.
Qed.

Lemma steps_terminate i : steps (ControlHandle.terminate i) (λ _, True).
Proof. eapply steps_bind; [apply steps_request|]. intros r _. by apply steps_ret. Qed.

Lemma not_running l :
  existsb (λ s, bool_decide (psi_shell_id s = id) && (psi_state s =? SHELL_STATE_RUNNING)) l = false →
  ∀ s, s ∈ l → psi_shell_id s = id → psi_state s ≠ SHELL_STATE_RUNNING.
Proof.
  intros He s Hs Hid Hst. assert (existsb (λ s, bool_decide (psi_shell_id s = id) && (psi_state s =? SHELL_STATE_RUNNING)) l = true); [|congruence].
  apply existsb_exists. exists s. split; [by apply list_elem_of_In|].
  rewrite bool_decide_eq_true_2 // Hst. done.
Qed.

Lemma steps_recover k : steps (recover_token key id k) (λ r, ∀ t, r = Ok t → issued S R id t).
Proof.
  eapply steps_bind; [apply steps_list_shells|]. intros [l|e] Hl; [|by apply steps_ret].
  destruct (Hl l eq_refl) as (reply & Hin & Hmsg).
  destruct (existsb _ l) eqn:Er; simpl.
  - eapply steps_bind; [apply steps_open_shell|]. intros [[id' t]|e] Ho; [|by apply steps_ret].
    destruct (Ho id' t eq_refl) as (reply' & Hin' & Hop).
    destruct (bool_decide (id' = id)) eqn:Eid; to_prop; simpl.
    + subst id'. assert (issued S R id t) as Hi by (right; by exists reply').
      eapply steps_bind; [apply steps_now|]. intros now _.
      eapply steps_bind; [apply steps_store|].
      { intros st st' d d' Hu. by eapply update_token_evolves. }
      intros _ _. apply steps_ret. by intros ? [= <-].
    + eapply steps_bind; [apply steps_terminate|]. intros _ _. by apply steps_ret.
  - eapply steps_bind; [apply steps_store|].
    { intros st st' d d' Hu. eapply remove_shell_evolves; [done|].
      right. exists reply, l. split_and!; [done|done|by apply not_running]. }
    intros _ _. by apply steps_ret.
Qed.

Lemma forget_judged s token cols rows e b :
  s ∈ S ∨ s = Err (lit "connection closed") →
  attach_shell s id token cols rows = Some (Err e) → attach_failure_action e b = ForgetAndExit →
  judged S R id.
Proof.
  intros Hs He Ha. left. destruct Hs as [Hs| ->]; [|simpl in He; by injection He as <-].
  destruct e as [e|code retryable message]; [done|].
  exists s, token, cols, rows, code, retryable, message. split_and!; [done|done|].
  destruct code; simpl in Ha; try (by destruct retryable); set_solver.
Qed.

Lemma steps_attach_loop fuel token rk recovered cols rows :
  steps (attach_loop key fuel sh id token rk recovered cols rows) (λ _, True).
Proof.
  revert token recovered. induction fuel as [|fuel IH]; intros token recovered.
  { intros w w' o [= <- <-] ??. split_and!; [done|done|apply evolves_refl|done]. }
  eapply steps_bind; [apply steps_next_stream|]. intros s Hs.
  eapply steps_bind; [apply steps_from_wait|]. intros [a|e] Ha.
  - eapply steps_bind; [apply steps_now|]. intros now _.
    eapply steps_bind; [apply steps_store|].
    { intros st st' d d' Hu. eapply update_token_evolves; [done|]. intros _. left.
      destruct Hs as [Hs| ->]; [by exists s, token, cols, rows, a|discriminate Ha]. }
    intros _ _. eapply steps_bind; [apply steps_spawn|]. intros wr _. by apply steps_ret.
  - destruct (attach_failure_action e _) eqn:Ef.
    + by apply steps_ret.
    + eapply steps_bind; [apply steps_or_panic|]. intros k _.
      eapply steps_bind; [apply steps_recover|]. intros [fresh|re] _; [apply IH|].
      eapply steps_bind; [apply steps_emit|]. intros _ _. by apply steps_ret.
    + eapply steps_bind; [apply steps_store|].
      { intros st st' d d' Hu. eapply remove_shell_evolves; [done|]. eapply forget_judged; [exact Hs|exact Ha|exact Ef]. }
      intros _ _. eapply steps_bind; [apply steps_emit|]. intros _ _. by apply steps_ret.
    + by apply steps_ret.
Qed.

End steps.


(** *** Termination *)
Definition returns {A} (m : sup A) : Prop := ∀ w, (m w).2 ≠ Waits.

Lemma returns_ret {A} (a : A) : returns (ret_sup a).
Proof. by intros w. Qed.
Lemma returns_bind {A C} (m : sup A) (k : A → sup C) :
  returns m → (∀ a, returns (k a)) → returns (bind_sup m k).
Proof.
  intros Hm Hk w. rewrite /bind_sup. specialize (Hm w). destruct (m w) as [w1 [a| |]]; [apply Hk|done|done].
Qed.
Lemma returns_store op : returns (store_op op).
Proof. intros w. rewrite /store_op. by destruct (op _ _) as [d [?|?|]]. Qed.
Lemma returns_or_panic {A} (o : option A) : returns (or_panic o).
Proof. by destruct o. Qed.

Lemma returns_list_shells : returns ControlHandle.list_shells.
Proof. apply returns_bind; [done|]. intros r. apply returns_ret. Qed.
Lemma returns_open_shell c cols rows k : returns (ControlHandle.open_shell c cols rows k).
Proof. apply returns_bind; [done|]. intros r. apply returns_ret. Qed.
Lemma returns_terminate i : returns (ControlHandle.terminate i).
Proof. apply returns_bind; [done|]. intros r. apply returns_ret. Qed.

Lemma returns_recover id k : returns (recover_token key id k).
Proof.
  apply returns_bind; [apply returns_list_shells|]. intros [l|e]; [|apply returns_ret].
  cbv zeta. case_match.
  - apply returns_bind; [apply returns_store|]. intros _. apply returns_ret.
  - apply returns_bind; [apply returns_open_shell|]. intros [[i t]|e]; [|apply returns_ret].
    case_match.
    + apply returns_bind; [apply returns_terminate|]. intros _. apply returns_ret.
    + apply returns_bind; [done|]. intros now. apply returns_bind; [apply returns_store|].
      intros _. apply returns_ret.
Qed.

(** A second recovery is never tried, so two turns of the loop are enough. *)
Lemma attach_loop_returns n shell_hex id token rk (recovered : bool) cols rows :
  (∀ s t, attach_shell s id t cols rows ≠ None) → ((if recovered then 0 else 1) < n)%nat →
  returns (attach_loop key n shell_hex id token rk recovered cols rows).
Proof.
  intros Ha. revert token recovered. induction n as [|n IH]; intros token recovered Hn; [lia|].
  apply returns_bind; [done|]. intros s. apply returns_bind.
  { intros w. rewrite /from_wait. specialize (Ha s token). by destruct (attach_shell s id token cols rows). }
  intros [a|e].
  - apply returns_bind; [done|]. intros now. apply returns_bind; [apply returns_store|]. intros _.
    apply returns_bind; [done|]. intros i. apply returns_ret.
  - destruct (attach_failure_action e _) eqn:Ef; [apply returns_ret| |..|apply returns_ret].
    + apply returns_bind; [apply returns_or_panic|]. intros k. apply returns_bind; [apply returns_recover|].
      intros [fresh|re]; [|apply returns_bind; [done|intros _; apply returns_ret]].
      apply IH. destruct recovered; [|lia]. rewrite andb_false_r in Ef.
      destruct e as [|[] [] ?]; done.
    + apply returns_bind; [apply returns_store|]. intros _. apply returns_bind; [done|]. intros _. apply returns_ret.
Qed.

End credentials.

(** ** Interactive authentication *)
Section interactive.
Context {PM : ProstMessage Envelope} {J : StoreJson} {B : Base64}.
Variable key : str.
Variable store_text : StoreErr → str.

Inductive Label :=
  | LAttempt (tried : list AuthMethod) (error : option ClientErr)
  | LLogin (password : str)
  | LOther.

Definition waiting (p : Phase) : Prop := p = PWaitKey ∨ p = PWaitPassword.

Definition cmd_label (cmd : option ServerCmd) : Label :=
  match cmd with Some (CmdLogin p) => LLogin p | _ => LOther end.

(** The supervisor over time, with any commands, answers and failures. *)
Inductive sup_trace : Loop → list Label → Prop :=
  | st_start : sup_trace loop_start []
  | st_attempt l ls closed connect w w' l' tried e :
      sup_trace l ls → lp_phase l = PConnect →
      attempt key store_text l closed connect w = (w', Val (l', tried, e)) →
      sup_trace l' (LAttempt tried e :: ls)
  | st_wait l ls cmd l' a :
      sup_trace l ls → waiting (lp_phase l) → wait_cmd l cmd = (l', a) → sup_trace l' (cmd_label cmd :: ls)
  | st_wake l ls ms : sup_trace l ls → lp_phase l = PSleep ms → sup_trace (wake l) (LOther :: ls)
  | st_serve l ls f t cmd w w' l' a :
      sup_trace l ls → lp_phase l = PServe f t → serve_cmd key l f t cmd w = (w', Val (l', a)) →
      sup_trace l' (LOther :: ls)
  | st_dead l ls f t w w' l' :
      sup_trace l ls → lp_phase l = PServe f t → serve_dead l w = (w', Val l') →
      sup_trace l' (LOther :: ls).

(** Failures that a person has to resolve. *)
Definition interactive (tried : list AuthMethod) (e : ClientErr) : Prop :=
  (∃ m, e = ESshAuthenticationFailed m) ∨ e = EPasswordRequired ∨ ∃ u p, MPassword u p ∈ tried.

Definition backoff_ok (l : Loop) : Prop := BACKOFF_START_MS ≤ lp_backoff l ≤ BACKOFF_CAP_MS.

Lemma bind_val {A C} (m : sup A) (k : A → sup C) w w' c :
  bind_sup m k w = (w', Val c) → ∃ w1 a, m w = (w1, Val a) ∧ k a w1 = (w', Val c).
Proof. rewrite /bind_sup. destruct (m w) as [w1 [a| |]]; naive_solver. Qed.

Lemma full_auth_password connect rec url password t r tried :
  full_auth connect rec url password t = Some (r, tried) → (∀ u p, MPassword u p ∉ t) →
  ∀ u p, MPassword u p ∈ tried → password = Some p.
Proof.
  rewrite /full_auth. intros Hf Ht u p Hin. revert Hf.
  destruct (sv_username rec) as [u0|], (sv_ssh_key_path rec) as [k|]; try destruct password as [p0|];
    try destruct (connect _ _) as [?|]; simpl; try done; intros [= <- <-];
    rewrite ?elem_of_app ?list_elem_of_singleton in Hin; naive_solver.
Qed.

Lemma connect_password connect st password r tried :
  connect_and_auth key connect st password = Some (r, tried) →
  ∀ u p, MPassword u p ∈ tried → password = Some p.
Proof.
  rewrite /connect_and_auth. destruct (server st key) as [rec|]; [|intros [= <- <-]; set_solver].
  destruct (sv_grant rec ≫= b64_decode) as [grant|].
  2: { intros Hf. apply (full_auth_password _ _ _ _ _ _ _ Hf). set_solver. }
  destruct (connect _ (MGrant grant)) as [[c|e]|]; cbn [mbind option_bind]; [intros [= <- <-]; set_solver| |done].
  intros Hf. apply (full_auth_password _ _ _ _ _ _ _ Hf). set_solver.
Qed.

Lemma connected_result c w w' l : connected key store_text c w = (w', Val l) →
  backoff_ok l ∧ lp_password l = None.
Proof.
  intros (? & ? & _ & (? & ? & _ & (? & ? & _ & (? & ? & _ & (? & r & _ & Hr)%bind_val)%bind_val)%bind_val)%bind_val)%bind_val.
  destruct r as [shells|e].
  - apply bind_val in Hr as (? & ? & _ & (? & ? & _ & (? & ? & _ & [= <- <-])%bind_val)%bind_val). done.
  - by injection Hr as <- <-.
Qed.

Lemma failed_result l b closed e w w' l' :
  backoff_ok l → failed l b closed e w = (w', Val l') →
  backoff_ok l' ∧ lp_password l' = None ∧
  ((∃ m, e = ESshAuthenticationFailed m) ∨ e = EPasswordRequired ∨ b = true → waiting (lp_phase l')).
Proof.
  rewrite /backoff_ok /BACKOFF_START_MS /BACKOFF_CAP_MS /failed /waiting. intros Hb.
  assert (1000 ≤ next_backoff (lp_backoff l) ≤ 15000) as Hn.
  { rewrite /next_backoff /BACKOFF_CAP_MS. lia. }
  destruct e as [t|fe|m|m|]; cbv zeta.
  4: { intros (? & ? & _ & [= <- <-])%bind_val. simpl. auto. }
  all: destruct b; cbn [orb]; intros (? & ? & _ & Hr)%bind_val; try (injection Hr as <- <-; simpl; by auto).
  all: destruct closed; injection Hr as <- <-; simpl; split_and!; try done; try lia; naive_solver.
Qed.

Lemma attempt_result l closed connect w w' l' tried e :
  backoff_ok l → attempt key store_text l closed connect w = (w', Val (l', tried, e)) →
  backoff_ok l' ∧ lp_password l' = None ∧
  (∀ u p, MPassword u p ∈ tried → lp_password l = Some p) ∧
  (∀ x, e = Some x → interactive tried x → waiting (lp_phase l')).
Proof.
  intros Hb (? & ? & _ & (? & ? & _ & (w1 & st & _ & (w2 & [r tr] & Hc & Hr)%bind_val)%bind_val)%bind_val)%bind_val.
  rewrite /from_wait in Hc. destruct (connect_and_auth _ _ _ _) as [[r' t']|] eqn:Ec; [|done].
  injection Hc as <- -> ->. pose proof (connect_password _ _ _ _ _ Ec) as Hp.
  destruct r as [c|err]; apply bind_val in Hr as (w3 & l3 & Hl & [= <- <- <- <-]).
  - destruct (connected_result _ _ _ _ Hl). split_and!; [done|done|done|done].
  - destruct (failed_result _ _ _ _ _ _ _ Hb Hl) as (? & ? & Hw). split_and!; [done|done|done|].
    intros y [= <-] [?|[?|(u & p & Hin)]]; apply Hw; [by left|by right; left|].
    right; right. apply bool_decide_eq_true. rewrite (Hp u p Hin). by eexists.
Qed.

Definition is_attempt (x : Label) : Prop := ∃ tried e, x = LAttempt tried e.

Record trace_ok (l : Loop) (ls : list Label) : Prop := {
  tk_backoff : backoff_ok l;
  tk_password p : lp_password l = Some p → lp_phase l = PConnect ∧ ∃ ls', ls = LLogin p :: ls';
  tk_wait mid tried e post : ls = mid ++ LAttempt tried (Some e) :: post →
    Forall (λ x, ¬ is_attempt x) mid → interactive tried e →
    waiting (lp_phase l) ∨ lp_phase l = PStopped ∨ ∃ p, LLogin p ∈ mid;
  tk_used pre tried e post u p : ls = pre ++ LAttempt tried e :: post → MPassword u p ∈ tried →
    ∃ post', post = LLogin p :: post';
  tk_again pre tried e mid tried' e' post :
    ls = pre ++ LAttempt tried e :: mid ++ LAttempt tried' (Some e') :: post →
    Forall (λ x, ¬ is_attempt x) mid → interactive tried' e' → ∃ p, LLogin p ∈ mid;
}.

(** A step that is no attempt: the facts about attempts stay. *)
Lemma trace_ok_cons l ls l' x :
  trace_ok l ls → ¬ is_attempt x → backoff_ok l' →
  (∀ p, lp_password l' = Some p → lp_phase l' = PConnect ∧ x = LLogin p) →
  (waiting (lp_phase l) ∨ lp_phase l = PStopped →
     waiting (lp_phase l') ∨ lp_phase l' = PStopped ∨ ∃ p, x = LLogin p) →
  trace_ok l' (x :: ls).
Proof.
  intros T Hx Hb Hp Hw. split; [done| | | |].
  - intros p [? ->]%Hp. eauto.
  - intros [|y mid] tried e post; simpl; [intros [= -> _]; by destruct Hx; do 2 eexists|].
    intros [= -> ->] [_ Hm]%Forall_cons Hi.
    destruct (tk_wait _ _ T _ _ _ _ eq_refl Hm Hi) as [?|[?|[p ?]]].
    + destruct Hw as [?|[?|[p ->]]]; [by left|by left|by right; left|]. right; right. exists p. set_solver.
    + destruct Hw as [?|[?|[p ->]]]; [by right|by left|by right; left|]. right; right. exists p. set_solver.
    + right; right. exists p. set_solver.
  - intros [|y pre] tried e post u p; simpl; [intros [= -> _]; by destruct Hx; do 2 eexists|].
    intros [= -> ->]. intros ?. by eapply (tk_used _ _ T).
  - intros [|y pre] tried e mid tried' e' post; simpl; [intros [= -> _]; by destruct Hx; do 2 eexists|].
    intros [= -> ->]. intros ??. by eapply (tk_again _ _ T).
Qed.

Lemma sup_trace_ok l ls : sup_trace l ls → trace_ok l ls.
Proof.
  induction 1 as [|l ls closed connect w w' l' tried e _ T Hph Ha|l ls cmd l' a _ T Hph Hc|l ls ms _ T Hph|
                  l ls f t cmd w w' l' a _ T Hph Hs|l ls f t w w' l' _ T Hph Hs].
  - split; [done|done|by intros []|by intros []|by intros []].
  - destruct (attempt_result _ _ _ _ _ _ _ _ (tk_backoff _ _ T) Ha) as (Hb & Hn & Hp & Hw).
    assert (¬ (waiting (lp_phase l) ∨ lp_phase l = PStopped)) as Hnw by (rewrite Hph; by intros [[]|]).
    split; [done|congruence| | |].
    + intros [|y mid] tried' e' post; simpl; [intros [= <- -> <-] _ Hi; left; by eapply Hw|].
      intros [= <- _] [Hy _]%Forall_cons. destruct Hy. by do 2 eexists.
    + intros [|y pre] tried' e' post u p; simpl.
      * intros [= <- <- <-] Hin. by destruct (tk_password _ _ T p (Hp u p Hin)).
      * intros [= _ ->]. intros ?. by eapply (tk_used _ _ T).
    + intros [|y pre] tried' e' mid tried2 e2 post; simpl.
      * intros [= <- <- ->] Hm Hi. destruct (tk_wait _ _ T _ _ _ _ eq_refl Hm Hi) as [?|[?|?]]; [exfalso; auto..|done].
      * intros [= _ ->]. intros ??. by eapply (tk_again _ _ T).
  - eapply trace_ok_cons; [done| | | |].
    + rewrite /is_attempt. destruct cmd as [[]|]; simpl; naive_solver.
    + pose proof (tk_backoff _ _ T). destruct cmd as [[]|]; simpl in Hc; injection Hc as <- <-; done.
    + intros p Hp. destruct cmd as [[]|]; simpl in Hc |- *; injection Hc as <- <-; simpl in Hp |- *; try done.
      all: try (apply (tk_password _ _ T) in Hp as [Hph' _]; rewrite Hph' in Hph; by destruct Hph).
      split; [done|]. destruct (lp_phase l); naive_solver.
    + intros _. destruct cmd as [[]|]; simpl in Hc |- *; injection Hc as <- <-; simpl; naive_solver.
  - eapply trace_ok_cons; [done|by intros (?&?&?)|apply T|done|]. rewrite Hph. by intros [[]|].
  - assert (lp_password l = None) as Hn.
    { destruct (lp_password l) as [p|] eqn:Ep; [|done]. apply (tk_password _ _ T) in Ep as [? _]. congruence. }
    assert (l' = l ∨ l' = with_phase l PStopped None) as Hl.
    { revert Hs. rewrite /serve_cmd. destruct cmd as [[]|]; try case_match;
        first [by intros [= _ <- _]; left | intros (? & ? & _ & [= _ <- _])%bind_val; auto]. }
    eapply trace_ok_cons; [done|by intros (?&?&?)| | |].
    + destruct Hl as [->| ->]; apply T.
    + destruct Hl as [->| ->]; simpl; congruence.
    + rewrite Hph. by intros [[]|].
  - apply bind_val in Hs as (? & ? & _ & (? & ? & _ & [= <- <-])%bind_val).
    eapply trace_ok_cons; [done|by intros (?&?&?)|apply T|done|]. rewrite Hph. by intros [[]|].
Qed.

(** A password is used in at most one attempt to connect, the one right after
    it was given; after a failure that a person has to resolve (a key that did
    not sign, a missing or wrong password) there is no further attempt before a
    login; and the delay between other attempts stays between one second and
    fifteen. *)
Theorem interactive_auth_once l ls :
  sup_trace l ls →
  (BACKOFF_START_MS ≤ lp_backoff l ≤ BACKOFF_CAP_MS) ∧
  (∀ pre tried e post u p, ls = pre ++ LAttempt tried e :: post → MPassword u p ∈ tried →
     ∃ post', post = LLogin p :: post') ∧
  (∀ pre tried e mid tried' e' post,
     ls = pre ++ LAttempt tried e :: mid ++ LAttempt tried' (Some e') :: post →
     Forall (λ x, ¬ is_attempt x) mid → interactive tried' e' → ∃ p, LLogin p ∈ mid).
Proof. intros T%sup_trace_ok. split_and!; apply T. Qed.

End interactive.
