(* ===== verification/ClientLink.v ===== *)
(** * Client and daemon together

    The desktop client journals the key of an open before it asks for the shell.
    Wherever it is interrupted, the key is on disk as soon as the request is out;
    and when the client comes back, the daemon's connection handler returns the
    same shell for it, with a token that attaches. *)
From S2P Require Import Prelude Protocol Auth Ids Observability Negotiate History TerminalModel Launch SpawnerWire SessionCore SessionSteps SessionProps RateLimiter UploadProto UploadStore Uploads Forward Conn ConnProps ClientStore ClientStoreProps ClientApi ClientCore ClientProps.

(** ** The journal *)
Section journal.
Context {PM : ProstMessage Envelope} {J : StoreJson} {B : Base64} {JL : StoreJsonLaws J}.
Variables (p key : str).

(** The client's memory and disk agree. *)
Record in_sync (h : list StoreData) (w : Sup) : Prop := {
  is_disk : store_disk_wf p h (su_disk w);
  is_path : path (su_store w) = p;
  is_version : sd_version (data (su_store w)) = STORE_VERSION;
  is_describes : describes p (su_disk w) (data (su_store w));
}.

(** What a change of this server's record leaves behind. *)
Lemma store_op_mutate f h w w' o :
  in_sync h w → store_op (λ st, mutate_server st key f) w = (w', o) →
  su_requests w' = su_requests w ∧ su_replies w' = su_replies w ∧
  su_next_request w' = su_next_request w ∧
  match o with
  | Val (Ok _) => (∃ h', in_sync h' w') ∧
      ∃ s, server (su_store w) key = Some s ∧ server (su_store w') key = Some (f s)
  | Val (Err _) => (∃ h', in_sync h' w') ∧ su_store w' = su_store w
  | Died => ∃ h' x, store_disk_wf p h' (su_disk w') ∧ describes p (su_disk w') x ∧
      sd_version x = STORE_VERSION ∧
      (x = data (su_store w) ∨ ∃ s, server (su_store w) key = Some s ∧ sd_servers x !! key = Some (f s))
  | Waits => False
  end.
Proof.
  intros [W Hp Hv Hd].
  pose proof (mutate_server_correct p h (su_store w) (su_disk w) Hp W Hd Hv key f) as Hc.
  rewrite /op_correct in Hc. rewrite /store_op.
  set (x := target (su_store w) (mutate_server (su_store w) key f) (su_disk w)) in Hc.
  assert (x = data (su_store w) ∨
    ∃ s, server (su_store w) key = Some s ∧ sd_servers x !! key = Some (f s)) as Hx.
  { rewrite /x /target. destruct (mutate_server _ _ _ (restart _ _)) as [d1 [st1|e|]] eqn:E; simpl; auto.
    right. destruct (mutate_returns _ _ _ _ _ _ E) as (s & Hs & Hs' & _). by exists s. }
  destruct (mutate_server (su_store w) key f (su_disk w)) as [d' [st'|e|]] eqn:E;
    destruct Hc as (Vx & Wx & Ho & Hret); intros [= <- <-]; simpl; (do 3 (split; [done|])).
  - destruct (Hret st' eq_refl) as [Hp' Hd']. split.
    + exists (x :: h). split; simpl; [done|done|by rewrite Hd'|by rewrite Hd'].
    + destruct (mutate_returns _ _ _ _ _ _ E) as (s & Hs & Hs' & _). by exists s.
  - split; [|done]. by exists (x :: h).
  - destruct Ho as [Ho|Ho]; [exists (x :: h), (data (su_store w))|exists (x :: h), x]; auto.
Qed.

(** The state knows the key: as a pending open or as a shell's recovery key. *)
Definition remembers (ikey : str) (x : StoreData) : Prop :=
  ∃ s, sd_servers x !! key = Some s ∧
    ((∃ q, q ∈ sv_pending_opens s ∧ po_key q = ikey) ∨
     (∃ sh r, sv_shells s !! sh = Some r ∧ sr_idempotency_key r = Some ikey)).

Lemma remembers_persisted ikey x : remembers ikey x → remembers ikey (persisted x).
Proof.
  intros (s & Hs & Hk). exists (consented s). rewrite /persisted /= lookup_fmap Hs. split; [done|].
  rewrite /consented. by destruct (sv_remember_login s).
Qed.

(** What the next process finds. *)
Definition reloads (d : ClientDisk) (x : StoreData) : Prop :=
  load p (restart d []) = (restart d [], Returns ({| path := p; data := x |}, false)).

Lemma in_sync_reloads h w ikey :
  in_sync h w → remembers ikey (data (su_store w)) → ∃ x, reloads (su_disk w) x ∧ remembers ikey x.
Proof.
  intros [W Hp Hv Hd] Hk. exists (persisted (data (su_store w))).
  split; [by eapply load_undisturbed|by apply remembers_persisted].
Qed.

(** The server's answer to an open, as the client reads it. *)
Definition answered_open (w : Sup) : Prop :=
  ∃ reply opened, head (su_replies w) = Some (Ok reply) ∧ ServerConn.opened_of reply = Some opened.

Lemma open_shell_result cols rows k w w' o :
  ControlHandle.open_shell None cols rows k w = (w', o) →
  su_store w' = su_store w ∧ su_disk w' = su_disk w ∧
  su_requests w' = su_requests w ++
    [with_request_id (su_next_request w) (ServerConn.open_envelope None cols rows k)] ∧
  ((∃ id token, o = Val (Ok (id, token)) ∧ answered_open w) ∨
   (∃ e, o = Val (Err e) ∧ ¬ answered_open w)).
Proof.
  rewrite /ControlHandle.open_shell /bind_sup /ControlHandle.request. intros [= <- <-]. simpl.
  split_and!; [done..|]. rewrite /answered_open.
  destruct (head (su_replies w)) as [[reply|e]|]; simpl; [|right; eexists; split; [done|naive_solver]..].
  destruct (env_message reply) as [[]|] eqn:Em;
    try (right; eexists; split; [done|]; rewrite /ServerConn.opened_of; intros (r & x & [= <-] & Hx);
         by rewrite Em in Hx).
  left. eexists _, _. split; [done|]. eexists _, _. split; [done|]. by rewrite /ServerConn.opened_of Em.
Qed.


End journal.

(** ** The daemon's answer to a journalled open *)
Section recovery.
Context {V : VtOps} {P : PtyOps} {S : HashOps} {A : AuthOps} {UB : UploadBackend}
        {T : ErrorText PtyError} (H : Host).
Context {PM : ProstMessage Envelope} {J : StoreJson} {B : Base64}.

(** A connection that may open shells: logged in, not limited by its grant, its
    control channel free and its outgoing queue open. *)
Record may_open (w : World) : Prop := {
  mo_authenticated : authenticated (conn w) = true;
  mo_permits : permits (conn w) (lit "open") = true;
  mo_control : c_forwards (conn w) !! 0 = None;
  mo_out : out_open w = true;
}.

Definition retry_request (user : str) (k : array 16) : OpenShellRequest := {|
  req_user := user; requested_account := None; req_command := None; req_args := [];
  req_cols := 0; req_rows := 0; idempotency_key := k |}.

Definition opened_reply (w : World) (request_id : Z) (id : ShellId) (token : ResumeToken) : Envelope :=
  with_ids (to_wire (server_id (app w))) (to_wire id)
    (respond request_id (MsgShellOpened {|
       so_resume_token := token_to_wire token; so_expires_at_ms := 0 |})).

Lemma dispatch_open inp request_id k w m' o :
  may_open w →
  open_shell H (manager (app w)) (retry_request (user_id (conn w)) k) (in_fresh inp) = Some (m', Ok o) →
  ∃ w', dispatch H inp 0 (with_request_id request_id (ServerConn.open_envelope None 0 0 k)) w = Some (w', true) ∧
    sent w' = sent w ++ [(0, opened_reply w request_id (opened_id o) (opened_token o))] ∧
    manager (app w') = m'.
Proof.
  intros [Ha Hp Hf Ho] Hopen.
  rewrite /dispatch /retain_uploads /bindM /=. rewrite Ha /= Hf /=.
  rewrite /permits /= in Hp. rewrite /on_open_shell /bindM /permits /= Hp /= array_of_bytes /with_manager_opt /=.
  rewrite /retry_request in Hopen. change (wrap16 0) with 0. rewrite Hopen /=. rewrite /send /= Ho. eauto.
Qed.

(** C10: after a shell was opened under a key, and whatever else happened to the
    manager short of removing that shell, a client that comes back with the key
    in its journal asks again on a connection of the same user. The daemon's
    handler answers with the same shell and a fresh token that is now the
    shell's; and the client, given that answer, has the shell with that token
    and the key in its store, under the journalled name, and an empty journal. *)
Theorem journal_recovers_open m req fr m1 o1 os dw inp key w s name d' st' :
  let k := idempotency_key req in
  let ikey := hex (array_bytes k) in
  let id := opened_id o1 in
  let token := fresh_token (in_fresh inp) in
  let now := default 0 (head (su_clock w)) in
  reachable H m → op_ok m (OpOpen req fr) → open_shell H m req fr = Some (m1, Ok o1) →
  run_ok H m1 os → run H m1 os = Some (manager (app dw)) → OpRemove id ∉ os →
  may_open dw → user_id (conn dw) = req_user req →
  server (su_store w) key = Some s → sv_pending_opens s = [{| po_key := ikey; po_name := name |}] →
  resolve_pending_open (su_store w) key ikey (hex (to_wire id)) (token_to_wire token) now (su_disk w)
    = (d', Returns st') →
  let request := with_request_id (su_next_request w) (ServerConn.open_envelope None 0 0 k) in
  ∃ dw' reply e,
    dispatch H inp 0 request dw = Some (dw', true) ∧ sent dw' = sent dw ++ [(0, reply)] ∧
    shells (manager (app dw')) !! id = Some e ∧ owner e = req_user req ∧
    token_hash (runtime e) = token_hash_of token ∧
    ∀ rest, su_replies w = Ok reply :: rest →
      ∃ w', resolve_pending_opens key w = (w', Val ()) ∧
        su_requests w' = su_requests w ++ [request] ∧
        (sv_pending_opens <$> server (su_store w') key) = Some [] ∧
        shell (su_store w') key (hex (to_wire id)) =
          Some {| sr_token := b64_encode (token_to_wire token); sr_idempotency_key := Some ikey;
                  sr_name := name; sr_last_attached_at_ms := now |}.
Proof.
  intros k ikey id token now W Hok Ho Hoks Hrun Hno Hmay Hu Hs Hpend Hres request.
  destruct (open_key_kept H _ _ _ _ _ _ _ W Hok Ho Hoks Hrun Hno) as [W2 Hk].
  destruct (open_reuses H (manager (app dw)) id (retry_request (user_id (conn dw)) k) (in_fresh inp) W2)
    as (e & He & Hown & Hopen).
  { by rewrite /idem_of /= Hu. }
  destruct (dispatch_open inp (su_next_request w) k dw _ _ Hmay Hopen) as (dw' & Hd & Hsent & Hm).
  exists dw', (opened_reply dw (su_next_request w) id token). eexists. split_and!; [exact Hd|exact Hsent|..].
  - rewrite Hm /put_runtime /=. by rewrite lookup_insert_eq.
  - by rewrite /= Hown Hu.
  - done.
  - intros rest Hrep. rewrite /resolve_pending_opens /bind_sup /= Hs Hpend /=.
    rewrite /bind_sup /unhex_key store_unhex_hex /= array_of_bytes /=.
    rewrite /ControlHandle.open_shell /ControlHandle.request /bind_sup /= Hrep /=.
    rewrite /store_op /=. rewrite Hres. eexists. split; [done|]. split; [done|].
    destruct (mutate_returns _ _ _ _ _ _ Hres) as (s0 & Hs0 & Hs' & _).
    rewrite Hs in Hs0. injection Hs0 as <-.
    rewrite /shell Hs' /= Hpend /pending_name /= lookup_insert_eq.
    rewrite decide_True //=. split; [|done]. by rewrite /retain_pending filter_cons_False; [|naive_solver].
Qed.

End recovery.
