(* ===== verification/Socks.v ===== *)
(** * The SOCKS proxy of the native client

    [crates/native-client/src/socks.rs]: a loopback listener that speaks SOCKS5
    CONNECT without authentication, opens a TCP forward on the daemon for every
    accepted connection and relays the bytes, one unacknowledged frame per
    direction. *)
From S2P Require Import Prelude Protocol Framing Forward Utf8 ClientApi.

Definition MAX_CONNECTIONS : Z := 16.

(** ** The application's socket

    [so_in] is what the application will have written before it closes its side;
    an entry of [so_writes] is the failure of the next write. *)
Record Sock := { so_in : bytes; so_writes : list (option str); so_out : bytes }.

Definition io (A : Type) : Type := Sock → Sock * result A ClientErr.
Definition ret_io {A} (a : A) : io A := λ s, (s, Ok a).
Definition fail_io {A} (text : str) : io A := λ s, (s, Err (EText text)).
Definition bind_io {A B} (m : io A) (k : A → io B) : io B := λ s,
  match m s with
  | (s, Ok a) => k a s
  | (s, Err e) => (s, Err e)
  end.
Notation "'sock!' x <- e ; k" := (bind_io e (λ x, k))
  (at level 100, x pattern, e at next level, k at level 200, right associativity) : rust_scope.

Definition read_exact (n : nat) : io bytes := λ s,
  if (length (so_in s) <? n)%nat
  then ({| so_in := []; so_writes := so_writes s; so_out := so_out s |}, Err (EText (lit "early eof")))
  else ({| so_in := drop n (so_in s); so_writes := so_writes s; so_out := so_out s |}, Ok (take n (so_in s))).

Definition write_all (b : bytes) : io unit := λ s,
  let w := tail (so_writes s) in
  match head (so_writes s) with
  | Some (Some e) => ({| so_in := so_in s; so_writes := w; so_out := so_out s |}, Err (EText e))
  | _ => ({| so_in := so_in s; so_writes := w; so_out := so_out s ++ b |}, Ok ())
  end.

(** ** Replies *)
Definition reply_bytes (code : Z) (ip : IpAddress) (port : Z) : bytes :=
  map Z_byte [5; code; 0] ++ Z_byte (match ip with V4 _ => 1 | V6 _ => 4 end) :: ip_bytes ip ++ u16_be port.

Definition reply (code : Z) (ip : IpAddress) (port : Z) : io unit := write_all (reply_bytes code ip port).
Definition reject (code : Z) : io unit := reply code (V4 [0; 0; 0; 0]) 0.

(** ** The text of an address

    [Display] of [Ipv4Addr] and [Ipv6Addr]: an IPv4-mapped address keeps its
    dotted tail, and the longest run of at least two zero segments, the first of
    them, is elided. *)
Definition show_ipv4 (octets : list Z) : str :=
  match map dec_str octets with
  | [a; b; c; d] => a ++ 0x2E :: b ++ 0x2E :: c ++ 0x2E :: d
  | _ => []
  end.

Definition hex_char (d : Z) : char := if d <? 10 then 0x30 + d else 0x61 + (d - 10).
(** [{:x}] of a 16-bit number. *)
Definition hex_u16 (v : Z) : str :=
  let ds := [v / 4096; v / 256 mod 16; v / 16 mod 16; v mod 16] in
  let fix strip n ds := match n, ds with S n, 0 :: ds => strip n ds | _, _ => ds end in
  map hex_char (strip 3%nat ds).

Fixpoint fmt_subslice (segments : list Z) : str :=
  match segments with
  | [] => []
  | [s] => hex_u16 s
  | s :: rest => hex_u16 s ++ 0x3A :: fmt_subslice rest
  end.

(** The longest run of zeros: start and length of the best and of the current
    one. *)
Fixpoint zero_span (segments : list Z) (i : nat) (best cur : nat * nat) : nat * nat :=
  match segments with
  | [] => best
  | s :: rest =>
      if s =? 0 then
        let cur := (if (cur.2 =? 0)%nat then i else cur.1, S cur.2) in
        zero_span rest (S i) (if (best.2 <? cur.2)%nat then cur else best) cur
      else zero_span rest (S i) best (0%nat, 0%nat)
  end.

Definition show_ipv6 (segments : list Z) : str :=
  match segments with
  | [0; 0; 0; 0; 0; 0xFFFF; ab; cd] =>
      lit "::ffff:" ++ show_ipv4 [ab / 256; ab mod 256; cd / 256; cd mod 256]
  | _ =>
      let '(start, n) := zero_span segments 0 (0%nat, 0%nat) (0%nat, 0%nat) in
      if (1 <? n)%nat
      then fmt_subslice (take start segments) ++ lit "::" ++ fmt_subslice (drop (start + n) segments)
      else fmt_subslice segments
  end.

(** ** A request *)
Definition u8 (b : bytes) (i : nat) : Z := from_option byte_Z 0 (b !! i).

(** The destination, by address type. *)
Definition read_host (atyp : Z) : io str :=
  if atyp =? 1 then sock! ip <- read_exact 4; ret_io (show_ipv4 (map byte_Z ip))
  else if atyp =? 4 then sock! ip <- read_exact 16; ret_io (show_ipv6 (be_segments ip))
  else if atyp =? 3 then
    sock! n <- read_exact 1;
    sock! host <- read_exact (Z.to_nat (u8 n 0));
    ret_io (match from_utf8 host with Ok text => text | Err _ => [] end)
  else sock! _ <- reject 8; fail_io (lit "unsupported SOCKS address type").

Definition request : io (str * Z) :=
  sock! greeting <- read_exact 2;
  if negb ((u8 greeting 0 =? 5) && (0 <? u8 greeting 1)) then fail_io (lit "SOCKS5 required")
  else
    sock! methods <- read_exact (Z.to_nat (u8 greeting 1));
    let accepted := bool_decide (Byte.x00 ∈ methods) in
    sock! _ <- write_all (map Z_byte [5; if accepted then 0 else 255]);
    if negb accepted then fail_io (lit "no supported SOCKS authentication method")
    else
      sock! header <- read_exact 4;
      if negb (u8 header 0 =? 5) || negb (u8 header 2 =? 0)
      then sock! _ <- reject 1; fail_io (lit "invalid SOCKS request")
      else if negb (u8 header 1 =? 1)
      then sock! _ <- reject 7; fail_io (lit "only SOCKS CONNECT is supported")
      else
        sock! host <- read_host (u8 header 3);
        sock! p <- read_exact 2;
        let port := u8 p 0 * 256 + u8 p 1 in
        if negb (valid_destination host port)
        then sock! _ <- reject 8; fail_io (lit "invalid SOCKS destination")
        else ret_io (host, port).

(** ** Opening the forward *)
Section serve.
Context {PM : ProstMessage Envelope}.

(** The channel, once the daemon has connected, and the address it bound. A
    reply that does not come within the timer is an error. *)
Definition open_forward (stream : result (list ReadEvent * list (option str)) str) (host : str) (port : Z)
    : result (Chan * IpAddress * Z) ClientErr :=
  let? c := chan_open stream in
  match send_env c (with_request_id 1 (plain (MsgOpenTcpForward host port))) with
  | (_, Err e) => Err e
  | (c, Ok _) =>
      match recv_env c with
      | None => Err (EText (lit "deadline has elapsed"))
      | Some (_, Err e) => Err e
      | Some (c, Ok env) =>
          if negb (env_request_id env =? 1) then Err (EText (lit "wrong TCP forwarding response"))
          else
            match env_message env with
            | Some (MsgTcpForwardOpened bound_ip bound_port) =>
                if negb ((0 <=? bound_port) && (bound_port <=? 65535))
                then Err (EText (lit "out of range integral type conversion attempted"))
                else if bound_port =? 0 then Err (EText (lit "invalid bound port"))
                else
                  match parse_ip_addr bound_ip with
                  | Some ip => Ok (c, ip, bound_port)
                  | None => Err (EText (lit "invalid IP address syntax"))
                  end
            | Some (MsgError e) => Err (EText (lit "forward rejected: " ++ dec_str (err_code e)))
            | _ => Err (EText (lit "unexpected TCP forwarding response"))
            end
      end
  end.

(** [serve] up to the relay, whose channel it returns. *)
Definition serve (stream : result (list ReadEvent * list (option str)) str) : io Chan :=
  sock! (host, port) <- request;
  match open_forward stream host port with
  | Err e => sock! _ <- reject 1; λ s, (s, Err e)
  | Ok (c, ip, bound_port) => sock! _ <- reply 0 ip bound_port; ret_io c
  end.

End serve.

(** ** The relay *)

(** [rl_read] and [rl_written] are the bytes read from and written to the
    application; [rl_end] is set when the relay has returned, to whether it
    failed. *)
Record Relay := {
  rl_waiting_ack : bool;
  rl_local_eof : bool;
  rl_remote_eof : bool;
  rl_end : option bool;
  rl_read : bytes;
  rl_written : bytes;
  rl_shut : bool;
}.

Definition relay_new : Relay := {|
  rl_waiting_ack := false; rl_local_eof := false; rl_remote_eof := false; rl_end := None;
  rl_read := []; rl_written := []; rl_shut := false |}.

Definition relay_failed (r : Relay) : Relay := {|
  rl_waiting_ack := rl_waiting_ack r; rl_local_eof := rl_local_eof r; rl_remote_eof := rl_remote_eof r;
  rl_end := Some true; rl_read := rl_read r; rl_written := rl_written r; rl_shut := rl_shut r |}.
Definition relay_read (r : Relay) (data : bytes) : Relay := {|
  rl_waiting_ack := true; rl_local_eof := is_empty data; rl_remote_eof := rl_remote_eof r;
  rl_end := rl_end r; rl_read := rl_read r ++ data; rl_written := rl_written r; rl_shut := rl_shut r |}.
Definition relay_acked (r : Relay) : Relay := {|
  rl_waiting_ack := false; rl_local_eof := rl_local_eof r; rl_remote_eof := rl_remote_eof r;
  rl_end := rl_end r; rl_read := rl_read r; rl_written := rl_written r; rl_shut := rl_shut r |}.
Definition relay_write (r : Relay) (data : bytes) : Relay := {|
  rl_waiting_ack := rl_waiting_ack r; rl_local_eof := rl_local_eof r; rl_remote_eof := rl_remote_eof r;
  rl_end := rl_end r; rl_read := rl_read r; rl_written := rl_written r ++ data; rl_shut := rl_shut r |}.
Definition relay_shutdown (r : Relay) : Relay := {|
  rl_waiting_ack := rl_waiting_ack r; rl_local_eof := rl_local_eof r; rl_remote_eof := true;
  rl_end := rl_end r; rl_read := rl_read r; rl_written := rl_written r; rl_shut := true |}.

(** The check at the top of the loop. *)
Definition relay_settle (r : Relay) : Relay :=
  if rl_local_eof r && rl_remote_eof r && negb (rl_waiting_ack r) then {|
    rl_waiting_ack := rl_waiting_ack r; rl_local_eof := rl_local_eof r; rl_remote_eof := rl_remote_eof r;
    rl_end := Some false; rl_read := rl_read r; rl_written := rl_written r; rl_shut := rl_shut r |}
  else r.

(** Something is read from the application or a frame arrives, and the writes
    that follow succeed or not ([wrote] bytes of the data are out); or the
    stream, the socket or a timer ends the relay. *)
Inductive RelayEvent :=
  | RRead (data : bytes) (sent : bool)
  | RRecv (env : Envelope) (failure : option nat)
  | RBroken.

Definition relay_recv (r : Relay) (env : Envelope) (failure : option nat) : Relay * list Envelope :=
  if negb ((env_request_id env =? 0) && is_empty (env_server_id env) && is_empty (env_shell_id env))
  then (relay_failed r, [])
  else
    match env_message env with
    | Some MsgTcpForwardAck =>
        if rl_waiting_ack r then (relay_settle (relay_acked r), []) else (relay_failed r, [])
    | Some (MsgTcpForwardData data) =>
        if negb (rl_remote_eof r) && negb (is_empty data) && (len data <=? FORWARD_DATA_BYTES_MAX) then
          match failure with
          | None => (relay_settle (relay_write r data), [plain MsgTcpForwardAck])
          | Some wrote => (relay_failed (relay_write r (take wrote data)), [])
          end
        else (relay_failed r, [])
    | Some MsgTcpForwardEof =>
        if negb (rl_remote_eof r) then
          match failure with
          | None => (relay_settle (relay_shutdown r), [plain MsgTcpForwardAck])
          | Some _ => (relay_failed (relay_shutdown r), [])
          end
        else (relay_failed r, [])
    | _ => (relay_failed r, [])
    end.

(** One turn; [None]: the branch is disabled. *)
Definition relay_turn (r : Relay) (e : RelayEvent) : option (Relay * list Envelope) :=
  match rl_end r, e with
  | Some _, _ => None
  | None, RRead data sent =>
      if rl_local_eof r || rl_waiting_ack r || (FORWARD_DATA_BYTES_MAX <? len data) then None
      else if sent then
        Some (relay_settle (relay_read r data),
              [plain (if is_empty data then MsgTcpForwardEof else MsgTcpForwardData data)])
      else Some (relay_failed (relay_read r data), [])
  | None, RRecv env failure => Some (relay_recv r env failure)
  | None, RBroken => Some (relay_failed r, [])
  end.

(** ** The listener *)
Definition is_loopback (ip : IpAddress) : bool :=
  match ip with
  | V4 octets => bool_decide (head octets = Some 127)
  | V6 segments => bool_decide (segments = [0; 0; 0; 0; 0; 0; 0; 1])
  end.

(** [start] refuses other addresses; [accept]: the connections served after one
    more arrived. *)
Definition start_check (ip : IpAddress) : result unit str :=
  if is_loopback ip then Ok () else Err (lit "SOCKS listener must bind to loopback").
Definition on_accept (clients : Z) (peer : IpAddress) : Z :=
  if negb (is_loopback peer) || (MAX_CONNECTIONS <=? clients) then clients else clients + 1.
