(* ===== verification/ForwardLink.v ===== *)
(** * A TCP forward from end to end

    The client's relay ([Socks]), the daemon's frame gate and its task
    ([ForwardTask]) and the two directions of the stream between them, in any
    interleaving, with any failures. *)
From S2P Require Import Prelude Protocol Framing Forward ForwardTask ClientApi Socks.

Record Link := {
  lk_relay : Relay;
  lk_fwd : Fwd;
  lk_c2d : list Envelope;
  lk_d2c : list Envelope;
}.

(** What can happen next: a read of the application's socket, the arrival of a
    frame at the client or at the daemon, a step of the task, or a failure. *)
Inductive LinkLabel :=
  | LRead (data : bytes) (sent : bool)
  | LRecv (failure : option nat)
  | LBroken
  | LTask (e : TaskEvent)
  | LGate (wrote : nat).

Definition link_step (request_id : Z) (l : Link) (lab : LinkLabel) : option Link :=
  match lab with
  | LRead data sent =>
      '(r, out) ← relay_turn (lk_relay l) (RRead data sent);
      Some {| lk_relay := r; lk_fwd := lk_fwd l; lk_c2d := lk_c2d l ++ out; lk_d2c := lk_d2c l |}
  | LRecv failure =>
      match lk_d2c l with
      | [] => None
      | env :: rest =>
          '(r, out) ← relay_turn (lk_relay l) (RRecv env failure);
          Some {| lk_relay := r; lk_fwd := lk_fwd l; lk_c2d := lk_c2d l ++ out; lk_d2c := rest |}
      end
  | LBroken =>
      '(r, out) ← relay_turn (lk_relay l) RBroken;
      Some {| lk_relay := r; lk_fwd := lk_fwd l; lk_c2d := lk_c2d l ++ out; lk_d2c := lk_d2c l |}
  | LTask e =>
      '(f, out) ← task_step request_id (lk_fwd l) e;
      Some {| lk_relay := lk_relay l; lk_fwd := f; lk_c2d := lk_c2d l; lk_d2c := lk_d2c l ++ out |}
  | LGate wrote =>
      match lk_c2d l with
      | [] => None
      | env :: rest =>
          let '(f, out) := gate_frame (lk_fwd l) env wrote in
          Some {| lk_relay := lk_relay l; lk_fwd := f; lk_c2d := rest; lk_d2c := lk_d2c l ++ out |}
      end
  end.

Inductive link_run (request_id : Z) (l0 : Link) : list LinkLabel → Link → Prop :=
  | lr_nil : link_run request_id l0 [] l0
  | lr_snoc labs l lab l' :
      link_run request_id l0 labs l → link_step request_id l lab = Some l' →
      link_run request_id l0 (labs ++ [lab]) l'.

(** The task after it has connected and said so, and the link then. *)
Definition fwd_open (user : str) : Fwd :=
  set_phase (set_gate (fwd_new user) (set_ready (fw_gate (fwd_new user)) true)) TRunning.
Definition link_open (user : str) : Link := {|
  lk_relay := relay_new; lk_fwd := fwd_open user; lk_c2d := []; lk_d2c := [] |}.

(** No failure of the network, the sockets or a timer. *)
Definition benign (lab : LinkLabel) : bool :=
  match lab with
  | LRead _ sent => sent
  | LRecv failure => bool_decide (failure = None)
  | LBroken => false
  | LTask (EFail _ _) => false
  | LTask _ | LGate _ => true
  end.

Definition payload (x : option bytes) : bytes := default [] x.
Definition data_of (e : Envelope) : option (option bytes) :=
  match env_message e with
  | Some (MsgTcpForwardData d) => Some (Some d)
  | Some MsgTcpForwardEof => Some None
  | _ => None
  end.
Definition ack_of (e : Envelope) : option unit :=
  match env_message e with Some MsgTcpForwardAck => Some () | _ => None end.

Definition datas (es : list Envelope) : list (option bytes) := omap data_of es.
Definition acks (es : list Envelope) : list unit := omap ack_of es.
Arguments datas : simpl never.
Arguments acks : simpl never.

Lemma datas_app es es' : datas (es ++ es') = datas es ++ datas es'.
Proof. apply omap_app. Qed.
Lemma acks_app es es' : acks (es ++ es') = acks es ++ acks es'.
Proof. apply omap_app. Qed.
Lemma datas_nil : datas [] = [].
Proof. done. Qed.
Lemma acks_nil : acks [] = [].
Proof. done. Qed.
Lemma datas_cons e es : datas (e :: es) = option_list (data_of e) ++ datas es.
Proof. rewrite /datas /=. by destruct (data_of e). Qed.
Lemma acks_cons e es : acks (e :: es) = option_list (ack_of e) ++ acks es.
Proof. rewrite /acks /=. by destruct (ack_of e). Qed.

(** What is on its way to the destination, and back. *)
Definition up_items (l : Link) : list (option bytes) :=
  match fw_up (lk_fwd l) with UpWriting x => [x] | _ => [] end ++
  fb_input (fw_gate (lk_fwd l)) ++ datas (lk_c2d l).
Definition down_items (l : Link) : list (option bytes) :=
  datas (lk_d2c l) ++ match fw_down (lk_fwd l) with DnSending x => [x] | _ => [] end.
Definition bytes_of (xs : list (option bytes)) : bytes := concat (map payload xs).

(** ** Integrity, whatever fails *)
Definition task_ok (f : Fwd) : bool := match fw_phase f with TEnded true => false | _ => true end.
Definition relay_ok (r : Relay) : bool := match rl_end r with Some true => false | _ => true end.

Record intact (l : Link) : Prop := {
  in_up : fw_written (lk_fwd l) `prefix_of` rl_read (lk_relay l);
  in_up_all : task_ok (lk_fwd l) = true →
    fw_written (lk_fwd l) ++ bytes_of (up_items l) `prefix_of` rl_read (lk_relay l);
  in_up_eq : task_ok (lk_fwd l) = true → relay_ok (lk_relay l) = true →
    fw_written (lk_fwd l) ++ bytes_of (up_items l) = rl_read (lk_relay l);
  in_down : rl_written (lk_relay l) `prefix_of` fw_read (lk_fwd l);
  in_down_all : relay_ok (lk_relay l) = true →
    rl_written (lk_relay l) ++ bytes_of (down_items l) `prefix_of` fw_read (lk_fwd l);
  in_down_eq : relay_ok (lk_relay l) = true → task_ok (lk_fwd l) = true →
    rl_written (lk_relay l) ++ bytes_of (down_items l) = fw_read (lk_fwd l);
}.

Lemma bytes_of_app xs ys : bytes_of (xs ++ ys) = bytes_of xs ++ bytes_of ys.
Proof. by rewrite /bytes_of map_app concat_app. Qed.

Lemma bytes_of_data data : bytes_of [if is_empty data then None else Some data] = data.
Proof. destruct data as [|x d]; [done|]. by rewrite /bytes_of /= app_nil_r. Qed.

Lemma data_of_read data :
  data_of (plain (if is_empty data then MsgTcpForwardEof else MsgTcpForwardData data)) =
  Some (if is_empty data then None else Some data).
Proof. by destruct data. Qed.

(** A side that has moved: only the clauses it appears in are left. *)
Lemma intact_relay l r c2d d2c :
  intact l →
  rl_read (lk_relay l) `prefix_of` rl_read r →
  (task_ok (lk_fwd l) = true →
     fw_written (lk_fwd l) ++ bytes_of (up_items {| lk_relay := r; lk_fwd := lk_fwd l; lk_c2d := c2d; lk_d2c := d2c |})
       `prefix_of` rl_read r ∧
     (relay_ok r = true →
     fw_written (lk_fwd l) ++ bytes_of (up_items {| lk_relay := r; lk_fwd := lk_fwd l; lk_c2d := c2d; lk_d2c := d2c |})
       = rl_read r)) →
  rl_written r `prefix_of` fw_read (lk_fwd l) →
  (relay_ok r = true → relay_ok (lk_relay l) = true ∧
     rl_written r ++ bytes_of (datas d2c) = rl_written (lk_relay l) ++ bytes_of (datas (lk_d2c l))) →
  intact {| lk_relay := r; lk_fwd := lk_fwd l; lk_c2d := c2d; lk_d2c := d2c |}.
Proof.
  intros [U Ua Ue D Da De] Hr Hu Hw Hd.
  split; simpl; [by etrans|intros Ht; by apply Hu|intros Ht; by apply Hu|done| |].
  - intros Ho. destruct (Hd Ho) as [Hok He]. specialize (Da Hok). revert Da.
    by rewrite /down_items /= !bytes_of_app !app_assoc He.
  - intros Ho Ht. destruct (Hd Ho) as [Hok He]. specialize (De Hok Ht). revert De.
    by rewrite /down_items /= !bytes_of_app !app_assoc He.
Qed.

Lemma relay_settle_same r :
  rl_read (relay_settle r) = rl_read r ∧ rl_written (relay_settle r) = rl_written r ∧
  (rl_end r = None → relay_ok (relay_settle r) = true).
Proof. rewrite /relay_settle /relay_ok. case_match; simpl; split_and!; try done. by intros ->. Qed.

(** What the relay makes of a frame. *)
Lemma relay_recv_cases r env failure r' out :
  rl_end r = None → relay_recv r env failure = (r', out) →
  rl_read r' = rl_read r ∧ datas out = [] ∧
  ((relay_ok r' = true ∧ rl_written r' = rl_written r ++ bytes_of (option_list (data_of env))) ∨
   (relay_ok r' = false ∧ ∃ w, rl_written r' = rl_written r ++ w ∧ w `prefix_of` bytes_of (option_list (data_of env)))).
Proof.
  intros He. rewrite /relay_recv /data_of. case_match.
  { intros [= <- <-]. split_and!; [done..|]. right. split; [done|]. exists []. rewrite app_nil_r. split; [done|apply prefix_nil]. }
  destruct (env_message env) as [[]|];
    try (intros [= <- <-]; split_and!; [done..|]; right; split; [done|]; exists [];
         rewrite app_nil_r; split; [done|apply prefix_nil]).
  - case_match; [destruct failure as [k|]|]; intros [= <- <-]; (split; [by rewrite ?(proj1 (relay_settle_same _))|split; [done|]]).
    + right. split; [done|]. eexists. split; [done|]. rewrite /bytes_of /= app_nil_r. apply prefix_take.
    + left. destruct (relay_settle_same (relay_write r data)) as (_ & -> & Hk).
      split; [by apply Hk|]. by rewrite /bytes_of /= app_nil_r.
    + right. split; [done|]. exists []. rewrite app_nil_r. split; [done|apply prefix_nil].
  - case_match; [destruct failure as [k|]|]; intros [= <- <-]; (split; [by rewrite ?(proj1 (relay_settle_same _))|split; [done|]]).
    + right. split; [done|]. exists []. rewrite app_nil_r. split; [done|apply prefix_nil].
    + left. destruct (relay_settle_same (relay_shutdown r)) as (_ & -> & Hk).
      split; [by apply Hk|]. by rewrite /bytes_of /= app_nil_r.
    + right. split; [done|]. exists []. rewrite app_nil_r. split; [done|apply prefix_nil].
  - case_match; intros [= <- <-]; (split; [by rewrite ?(proj1 (relay_settle_same _))|split; [done|]]).
    + left. destruct (relay_settle_same (relay_acked r)) as (_ & -> & Hk).
      split; [by apply Hk|]. by rewrite /bytes_of /= app_nil_r.
    + right. split; [done|]. exists []. rewrite app_nil_r. split; [done|apply prefix_nil].
Qed.

Definition up_of (f : Fwd) : list (option bytes) :=
  match fw_up f with UpWriting x => [x] | _ => [] end ++ fb_input (fw_gate f).
Definition down_of (f : Fwd) : list (option bytes) :=
  match fw_down f with DnSending x => [x] | _ => [] end.

(** The destination's side has moved: what it wrote was on its way to it, what it
    read is on its way back. *)
Definition permit_ok (f : Fwd) : Prop := is_Some (fb_permit (fw_gate f)) → task_ok f = true.

Record moves (f f' : Fwd) (taken out : list Envelope) : Prop := {
  mv_down : ∃ d, bytes_of (datas out ++ down_of f') = bytes_of (down_of f) ++ d ∧
    fw_read f' = fw_read f ++ d ∧ (d = [] ∨ task_ok f = true);
  mv_up : (task_ok f' = true ∧ task_ok f = true ∧
      fw_written f' ++ bytes_of (up_of f') = fw_written f ++ bytes_of (up_of f ++ datas taken)) ∨
    (task_ok f' = false ∧ ∃ w, fw_written f' = fw_written f ++ w ∧
       (w = [] ∨ task_ok f = true ∧ w `prefix_of` bytes_of (up_of f)));
  mv_permit : permit_ok f → permit_ok f';
}.

Lemma cut_short_moves f wrote :
  fw_read (cut_short f wrote) = fw_read f ∧ down_of (cut_short f wrote) = down_of f ∧
  ∃ w, fw_written (cut_short f wrote) = fw_written f ++ w ∧
    (w = [] ∨ task_ok f = true ∧ w `prefix_of` bytes_of (up_of f)).
Proof.
  rewrite /cut_short /task_ok /up_of.
  destruct (fw_phase f) eqn:Ep; [by split_and!; [..|exists []; rewrite app_nil_r; auto]..| |
    by split_and!; [..|exists []; rewrite app_nil_r; auto]].
  destruct (fw_up f) as [|[data|]| |] eqn:Eu;
    try (by split_and!; [..|exists []; rewrite app_nil_r; auto]).
  split_and!; [done..|]. exists (take wrote data). split; [done|]. right. split; [done|].
  rewrite bytes_of_app {1}/bytes_of /= app_nil_r. apply prefix_app_r, prefix_take.
Qed.

(** The task or the gate gives up. *)
Lemma fail_moves f g wrote taken out :
  g = f ∨ (∃ b, g = set_gate f b) → datas out = [] →
  moves f (task_end (cut_short g wrote) true) taken out.
Proof.
  intros Hg Hout. assert (∃ w, fw_written (cut_short g wrote) = fw_written f ++ w ∧
    (w = [] ∨ task_ok f = true ∧ w `prefix_of` bytes_of (up_of f)) ∧
    fw_read (cut_short g wrote) = fw_read f ∧ down_of (cut_short g wrote) = down_of f) as (w & Hw & Hp & Hr & Hd).
  { destruct (cut_short_moves f wrote) as (Hr & Hd & w & Hw & Hp). exists w.
    destruct Hg as [->|[b ->]]; [done|]. revert Hw Hr Hd. rewrite /cut_short /=.
    destruct (fw_phase f); try done. by destruct (fw_up f) as [|[data|]| |]. }
  split.
  - exists []. rewrite Hout !app_nil_r /=. split; [|by auto].
    change (down_of (task_end (cut_short g wrote) true)) with (down_of (cut_short g wrote)). by rewrite Hd.
  - right. split; [done|]. by exists w.
  - intros _ [u Hu]. done.
Qed.

Lemma give_up_moves f taken out : datas out = [] → moves f (task_end f true) taken out.
Proof.
  intros Ho. split; [exists []; rewrite Ho !app_nil_r; auto| |by intros _ []].
  right. split; [done|]. exists []. rewrite app_nil_r. auto.
Qed.

Lemma quiet_moves f f' taken out :
  datas out = [] → down_of f' = down_of f → fw_read f' = fw_read f → task_ok f = true →
  task_ok f' = true → fw_written f' ++ bytes_of (up_of f') = fw_written f ++ bytes_of (up_of f ++ datas taken) →
  moves f f' taken out.
Proof.
  intros Ho Hd Hr Hk Hk' Hw. split; [|by left|by intros _ _]. exists []. rewrite Ho Hd Hr !app_nil_r. auto.
Qed.

Lemma joined_same f :
  fw_read (joined f) = fw_read f ∧ down_of (joined f) = down_of f ∧ up_of (joined f) = up_of f ∧
  fw_written (joined f) = fw_written f ∧ (task_ok f = true → task_ok (joined f) = true).
Proof. rewrite /joined /down_of /up_of. by destruct (fw_up f) eqn:?, (fw_down f) eqn:?; rewrite /= ?Heqd ?Hequ. Qed.

Lemma task_moves rid f e f' out : task_step rid f e = Some (f', out) → moves f f' [] out.
Proof.
  rewrite /task_step. destruct (fw_phase f) as [|ip port| |b] eqn:Ep; [| | |done].
  - destruct e; try done; intros [= <- <-]; [|by apply fail_moves; [left|destruct told]].
    by apply quiet_moves; rewrite /task_ok ?Ep ?app_nil_r.
  - destruct e; try done; intros [= <- <-]; [|by apply fail_moves; [left|destruct told]].
    by apply quiet_moves; rewrite /task_ok ?Ep ?app_nil_r.
  - assert (task_ok f = true) as Hk by (by rewrite /task_ok Ep).
    destruct e; try done.
    + destruct (fw_up f) eqn:Eu; try done. destruct (fb_input _) as [|x q] eqn:Ei; [done|]. intros [= <- <-].
      apply quiet_moves; try done. by rewrite /up_of /= Eu Ei app_nil_r.
    + destruct (fw_up f) as [|[data|]| |] eqn:Eu; try done; intros [= <- <-];
        (apply quiet_moves; [done..|]; rewrite /up_of /= Eu app_nil_r ?bytes_of_app -?app_assoc //).
      by rewrite {2}/bytes_of /= app_nil_r.
    + destruct (fw_up f) as [| |[]|] eqn:Eu; try done; [case_match|]; intros [= <- <-].
      * destruct (joined_same (set_up f UpDone)) as (E1 & E2 & E3 & E4 & E5).
        apply quiet_moves; rewrite ?E1 ?E2 ?E3 ?E4 //; [by apply E5|]. by rewrite /up_of /= Eu app_nil_r.
      * by apply give_up_moves.
      * apply quiet_moves; try done. by rewrite /up_of /= Eu app_nil_r.
    + destruct (fw_down f) eqn:Ed; try done. case_match; [|done]. intros [= <- <-]. split.
      * exists data. rewrite /down_of /= Ed bytes_of_data. auto.
      * left. by rewrite app_nil_r.
      * by intros _ _.
    + destruct (fw_down f) as [|x| |] eqn:Ed; try done. intros [= <- <-]. split.
      * exists []. rewrite /down_of /= Ed !app_nil_r. destruct x; auto.
      * left. by rewrite app_nil_r.
      * by intros _ _.
    + destruct (fw_down f) as [| |[]|] eqn:Ed; try done; destruct (fb_acks _); try done; intros [= <- <-].
      * by apply give_up_moves.
      * destruct (joined_same (set_down (set_gate f (take_ack (fw_gate f))) DnDone)) as (E1 & E2 & E3 & E4 & E5).
        apply quiet_moves; rewrite ?E1 ?E2 ?E3 ?E4 //; [by rewrite /down_of /= Ed|by apply E5|by rewrite app_nil_r].
      * apply quiet_moves; try done; [by rewrite /down_of /= Ed|by rewrite app_nil_r].
    + intros [= <- <-]. by apply fail_moves; [left|destruct told].
Qed.

Lemma gate_moves f env wrote f' out :
  permit_ok f → gate_frame f env wrote = (f', out) → moves f f' [env] out.
Proof.
  intros Hperm. rewrite /gate_frame. destruct (forward_message (fw_gate f) env) as [[] g] eqn:Em; intros [= <- <-];
    [|by apply fail_moves; [right; by exists g|]].
  assert (is_Some (fb_permit (fw_gate f)) ∧
    fb_input g = fb_input (fw_gate f) ++ option_list (data_of env)) as [Hp Hi].
  { revert Em. rewrite /forward_message /data_of. case_match; [done|].
    assert (∀ x, offer_input (fw_gate f) x = (true, g) →
      is_Some (fb_permit (fw_gate f)) ∧ fb_input g = fb_input (fw_gate f) ++ [x]) as Hoffer.
    { intros x. rewrite /offer_input. destruct (fb_input_ready _); [|done]. case_match eqn:Eb; [|done].
      intros [= <-]. to_prop. split; [done|]. by destruct (fb_input (fw_gate f)). }
    destruct (env_message env) as [[]|]; try done; [case_match; [apply Hoffer|done]|apply Hoffer|].
    rewrite /offer_ack. destruct (fb_ack_expected _); [|done]. case_match eqn:Eb; [|done].
    intros [= <-]. to_prop. by rewrite app_nil_r. }
  apply quiet_moves; try done; [by apply Hperm..|].
  by rewrite /up_of /= Hi datas_cons app_nil_r app_assoc.
Qed.

(** The daemon's side moved: the link stays intact. *)
Lemma intact_moves l f taken rest out :
  intact l → permit_ok (lk_fwd l) → lk_c2d l = taken ++ rest → moves (lk_fwd l) f taken out →
  intact {| lk_relay := lk_relay l; lk_fwd := f; lk_c2d := rest; lk_d2c := lk_d2c l ++ out |} ∧ permit_ok f.
Proof.
  intros [U Ua Ue D Da De] Hpo Hc [(d & Hd & Hr & Hd0) Hu Hpf]. split; [|auto].
  assert (∀ l, bytes_of (up_items l) = bytes_of (up_of (lk_fwd l)) ++ bytes_of (datas (lk_c2d l))) as Hup.
  { intros l'. by rewrite /up_items /up_of app_assoc !bytes_of_app. }
  assert (bytes_of (down_items {| lk_relay := lk_relay l; lk_fwd := f; lk_c2d := rest; lk_d2c := lk_d2c l ++ out |})
    = bytes_of (down_items l) ++ d) as Hdown.
  { rewrite /down_items /= datas_app -app_assoc -/(down_of f) -/(down_of (lk_fwd l)) !bytes_of_app -bytes_of_app Hd.
    by rewrite app_assoc. }
  assert (task_ok f = true → task_ok (lk_fwd l) = true ∧
    fw_written f ++ bytes_of (up_items {| lk_relay := lk_relay l; lk_fwd := f; lk_c2d := rest; lk_d2c := lk_d2c l ++ out |})
    = fw_written (lk_fwd l) ++ bytes_of (up_items l)) as Heq.
  { intros Ht. destruct Hu as [(_ & Hk & He)|[? _]]; [|congruence]. split; [done|].
    by rewrite !Hup /= Hc datas_app bytes_of_app app_assoc He bytes_of_app !app_assoc. }
  split; simpl; rewrite ?Hr.
  - destruct Hu as [(Hk & Hk0 & He)|(_ & w & -> & [->|[Hk Hw]])].
    + destruct (Heq Hk) as [_ He']. specialize (Ua Hk0). rewrite -He' in Ua. etrans; [|exact Ua]. by apply prefix_app_r.
    + by rewrite app_nil_r.
    + etrans; [|exact (Ua Hk)]. apply prefix_app. rewrite Hup. by apply prefix_app_r.
  - intros Ht. destruct (Heq Ht) as [Hk ->]. auto.
  - intros Ht. destruct (Heq Ht) as [Hk ->]. auto.
  - by apply prefix_app_r.
  - intros Ho. rewrite Hdown app_assoc. destruct Hd0 as [->|Hk]; [rewrite !app_nil_r; auto|by rewrite (De Ho Hk)].
  - intros Ho Ht. destruct (Heq Ht) as [Hk _]. by rewrite Hdown app_assoc (De Ho Hk).
Qed.

Lemma relay_failed_intact l r c2d d2c :
  intact l → relay_ok r = false → rl_read (lk_relay l) `prefix_of` rl_read r →
  rl_written r `prefix_of` fw_read (lk_fwd l) → datas c2d = datas (lk_c2d l) →
  intact {| lk_relay := r; lk_fwd := lk_fwd l; lk_c2d := c2d; lk_d2c := d2c |}.
Proof.
  intros I Hr Hp Hw Hc. apply intact_relay; [done..| |done|by rewrite Hr].
  intros Ht. rewrite Hr. split; [|done]. etrans; [|exact Hp]. destruct I as [_ Ua _ _ _ _]. specialize (Ua Ht).
  revert Ua. by rewrite /up_items /= Hc.
Qed.

Lemma link_intact rid l lab l' :
  intact l → permit_ok (lk_fwd l) → link_step rid l lab = Some l' → intact l' ∧ permit_ok (lk_fwd l').
Proof.
  intros I Hpo. destruct lab as [data sent|failure| |e|wrote]; simpl.
  - rewrite /relay_turn. destruct (rl_end (lk_relay l)) eqn:Ee; [done|]. case_match; [done|].
    destruct sent; simpl; intros [= <-]; (split; [|done]).
    + destruct (relay_settle_same (relay_read (lk_relay l) data)) as (E1 & E2 & E3).
      apply intact_relay; rewrite ?E1 ?E2 /=; [done|by apply prefix_app_r| |apply I|].
      * intros Ht. rewrite /up_items /= datas_app datas_cons data_of_read /= !app_assoc bytes_of_app bytes_of_data.
        pose proof (in_up_eq _ I Ht ltac:(by rewrite /relay_ok Ee)) as Hu. rewrite /up_items app_assoc in Hu.
        by rewrite app_assoc Hu.
      * intros _. split; [by rewrite /relay_ok Ee|done].
    + apply relay_failed_intact; [done|done|by apply prefix_app_r|apply I|by rewrite app_nil_r].
  - destruct (lk_d2c l) as [|env rest] eqn:Ed; [done|]. rewrite /relay_turn.
    destruct (rl_end (lk_relay l)) eqn:Ee; [done|].
    destruct (relay_recv _ _ _) as [r out] eqn:Er. simpl. intros [= <-]. split; [|done].
    destruct (relay_recv_cases _ _ _ _ _ Ee Er) as (Hrd & Hout & Hc).
    assert (relay_ok (lk_relay l) = true) as Hok by (by rewrite /relay_ok Ee).
    assert (bytes_of (datas (lk_d2c l)) = bytes_of (option_list (data_of env)) ++ bytes_of (datas rest)) as Hb.
    { by rewrite Ed datas_cons bytes_of_app. }
    assert (rl_written (lk_relay l) ++ bytes_of (option_list (data_of env)) `prefix_of` fw_read (lk_fwd l)) as Hpre.
    { etrans; [|exact (in_down_all _ I Hok)]. apply prefix_app. rewrite /down_items bytes_of_app Hb -app_assoc.
      by apply prefix_app_r. }
    destruct Hc as [[Hk Hw]|(Hk & w & Hw & Hwp)].
    + apply intact_relay; rewrite ?Hrd ?Hw; [done..| |done|].
      * intros Ht. rewrite /up_items /= datas_app Hout app_nil_r. split; [by apply (in_up_all _ I)|].
        intros _. by apply (in_up_eq _ I).
      * intros _. split; [done|]. by rewrite Hb app_assoc.
    + apply relay_failed_intact; [done|done|by rewrite Hrd| |by rewrite datas_app Hout app_nil_r].
      rewrite Hw. etrans; [|exact Hpre]. by apply prefix_app.
  - rewrite /relay_turn. destruct (rl_end (lk_relay l)); [done|]. simpl. intros [= <-]. split; [|done].
    apply relay_failed_intact; [done|done|done|apply I|by rewrite app_nil_r].
  - destruct (task_step rid (lk_fwd l) e) as [[f out]|] eqn:Et; simpl; [|done]. intros [= <-].
    by eapply (intact_moves _ _ []); [| | |eapply task_moves].
  - destruct (lk_c2d l) as [|env rest] eqn:Ec; [done|].
    destruct (gate_frame (lk_fwd l) env wrote) as [f out] eqn:Eg. intros [= <-].
    by eapply (intact_moves _ _ [env]); [| | |eapply gate_moves].
Qed.

Lemma link_open_intact user : intact (link_open user) ∧ permit_ok (lk_fwd (link_open user)).
Proof. by split. Qed.

Lemma run_intact rid user labs l :
  link_run rid (link_open user) labs l → intact l ∧ permit_ok (lk_fwd l).
Proof.
  induction 1 as [|labs l lab l' _ [I P] Hs]; [apply link_open_intact|]. by eapply link_intact.
Qed.

(** ** Flow control, while nothing fails

    Each direction has one token: what was read last is on the stream, in the
    gate's channel, being written, or owed its acknowledgement, which is on its
    way; or nothing is outstanding. *)
Definition is_eof (x : option bytes) : bool := match x with None => true | Some _ => false end.
Definition sized (x : option bytes) : Prop :=
  match x with Some d => d ≠ [] ∧ len d ≤ FORWARD_DATA_BYTES_MAX | None => True end.

Inductive up_token : bool → bool → list unit → Up → list (option bytes) → bool → list (option bytes) → Prop :=
  | ut_free e : up_token false e [] (if e then UpDone else UpIdle) [] (negb e) []
  | ut_stream x : up_token true (is_eof x) [] UpIdle [] true [x]
  | ut_queued x : up_token true (is_eof x) [] UpIdle [x] false []
  | ut_writing x : up_token true (is_eof x) [] (UpWriting x) [] false []
  | ut_owed e : up_token true e [] (UpAck e) [] (negb e) []
  | ut_acked e : up_token true e [()] (if e then UpDone else UpIdle) [] (negb e) [].

Inductive down_token : bool → list (option bytes) → list unit → Down → list unit → bool → Prop :=
  | dt_reading : down_token false [] [] DnReading [] false
  | dt_sending x : sized x → down_token false [] [] (DnSending x) [] true
  | dt_stream x : down_token false [x] [] (DnWaiting (is_eof x)) [] true
  | dt_replied e : down_token e [] [()] (DnWaiting e) [] true
  | dt_acked e : down_token e [] [] (DnWaiting e) [()] false
  | dt_done : down_token true [] [] DnDone [] false.

Inductive frame_ok : Envelope → Prop :=
  | fo_ack : frame_ok (message 0 MsgTcpForwardAck)
  | fo_data x : sized x → frame_ok (message 0 (data_msg x)).

Definition finished (f : Fwd) : bool :=
  match fw_up f, fw_down f with UpDone, DnDone => true | _, _ => false end.
Definition shut_up (u : Up) : bool := match u with UpAck true | UpDone => true | _ => false end.

Record flow (l : Link) : Prop := {
  fl_up : up_token (rl_waiting_ack (lk_relay l)) (rl_local_eof (lk_relay l)) (acks (lk_d2c l))
    (fw_up (lk_fwd l)) (fb_input (fw_gate (lk_fwd l))) (fb_input_ready (fw_gate (lk_fwd l)))
    (datas (lk_c2d l));
  fl_down : down_token (rl_remote_eof (lk_relay l)) (datas (lk_d2c l)) (acks (lk_c2d l))
    (fw_down (lk_fwd l)) (fb_acks (fw_gate (lk_fwd l))) (fb_ack_expected (fw_gate (lk_fwd l)));
  fl_c2d : Forall frame_ok (lk_c2d l);
  fl_d2c : Forall frame_ok (lk_d2c l);
  fl_end : rl_end (lk_relay l) =
    if rl_local_eof (lk_relay l) && rl_remote_eof (lk_relay l) && negb (rl_waiting_ack (lk_relay l))
    then Some false else None;
  fl_phase : fw_phase (lk_fwd l) = if finished (lk_fwd l) then TEnded false else TRunning;
  fl_permit : finished (lk_fwd l) = false → is_Some (fb_permit (fw_gate (lk_fwd l)));
  fl_shut : fw_shut (lk_fwd l) = shut_up (fw_up (lk_fwd l)) ∧ rl_shut (lk_relay l) = rl_remote_eof (lk_relay l);
}.

Lemma link_open_flow user : flow (link_open user).
Proof. by split; try constructor; try apply (ut_free false). Qed.

Lemma settle_end r :
  rl_end r = None →
  rl_end (relay_settle r) =
    if rl_local_eof r && rl_remote_eof r && negb (rl_waiting_ack r) then Some false else None.
Proof. rewrite /relay_settle. by case_match. Qed.
Lemma settle_fields r :
  rl_local_eof (relay_settle r) = rl_local_eof r ∧ rl_remote_eof (relay_settle r) = rl_remote_eof r ∧
  rl_waiting_ack (relay_settle r) = rl_waiting_ack r ∧ rl_shut (relay_settle r) = rl_shut r.
Proof. rewrite /relay_settle. by case_match. Qed.

(** A relay that goes on from a state with the given fields. *)
Lemma flow_relay l r c2d d2c :
  flow l → rl_end r = None → rl_shut r = rl_remote_eof r →
  up_token (rl_waiting_ack r) (rl_local_eof r) (acks d2c) (fw_up (lk_fwd l))
    (fb_input (fw_gate (lk_fwd l))) (fb_input_ready (fw_gate (lk_fwd l))) (datas c2d) →
  down_token (rl_remote_eof r) (datas d2c) (acks c2d) (fw_down (lk_fwd l))
    (fb_acks (fw_gate (lk_fwd l))) (fb_ack_expected (fw_gate (lk_fwd l))) →
  Forall frame_ok c2d → Forall frame_ok d2c →
  flow {| lk_relay := relay_settle r; lk_fwd := lk_fwd l; lk_c2d := c2d; lk_d2c := d2c |}.
Proof.
  intros [U D C E En P Pe [S1 S2]] He Hs Hu Hd Hc Hdc. destruct (settle_fields r) as (E1 & E2 & E3 & E4).
  split; rewrite /= ?E1 ?E2 ?E3 ?E4 //. by apply settle_end.
Qed.

(** How far the outstanding frames and acknowledgements are from their end. *)
Definition up_weight (acks : list unit) (u : Up) (input data : list (option bytes)) : nat :=
  5 * length data + 4 * length input + match u with UpWriting _ => 3 | UpAck _ => 2 | _ => 0 end + length acks.
Definition down_weight (data : list (option bytes)) (acks : list unit) (d : Down) (gate : list unit) : nat :=
  match d with DnSending _ => 4 | _ => 0 end + 3 * length data + 2 * length acks + length gate.
Definition outstanding (l : Link) : nat :=
  up_weight (acks (lk_d2c l)) (fw_up (lk_fwd l)) (fb_input (fw_gate (lk_fwd l))) (datas (lk_c2d l)) +
  down_weight (datas (lk_d2c l)) (acks (lk_c2d l)) (fw_down (lk_fwd l)) (fb_acks (fw_gate (lk_fwd l))).

Definition internal (lab : LinkLabel) : bool :=
  benign lab && match lab with LRead _ _ | LTask (ERead _) => false | _ => true end.

Lemma sized_read data : len data ≤ FORWARD_DATA_BYTES_MAX → sized (if is_empty data then None else Some data).
Proof. by destruct data. Qed.

Lemma flow_read l data l' rid :
  flow l → link_step rid l (LRead data true) = Some l' → flow l'.
Proof.
  intros F. simpl. rewrite /relay_turn. destruct (rl_end (lk_relay l)) eqn:Ee; [done|].
  case_match eqn:Eg; [done|]. to_prop. simpl. intros [= <-].
  pose proof (fl_up _ F) as U. pose proof (fl_down _ F) as D. pose proof (fl_shut _ F) as [_ Hs].
  apply flow_relay; [done..| | | |apply F]; rewrite ?datas_app ?acks_app ?datas_cons ?acks_cons /=.
  - rewrite data_of_read. revert U. rewrite H H1. inversion 1; subst.
    destruct data; [apply (ut_stream None)|apply (ut_stream (Some _))].
  - by destruct data; rewrite /= app_nil_r.
  - apply Forall_app. split; [apply F|]. constructor; [|constructor].
    pose proof (fo_data _ (sized_read data H0)) as Hf. by destruct data.
Qed.

(** The next frame of a direction is an acknowledgement or data. *)
Lemma frame_cases env rest :
  Forall frame_ok (env :: rest) →
  Forall frame_ok rest ∧
  ((env = message 0 MsgTcpForwardAck ∧ acks (env :: rest) = () :: acks rest ∧
    datas (env :: rest) = datas rest) ∨
   (∃ x, env = message 0 (data_msg x) ∧ sized x ∧ acks (env :: rest) = acks rest ∧
    datas (env :: rest) = x :: datas rest)).
Proof. intros [[|[d|] Hx] Hr]%Forall_cons; (split; [done|]); [left|right..]; eauto 7. Qed.


Definition relay_got (r : Relay) (x : option bytes) : Relay :=
  match x with Some d => relay_write r d | None => relay_shutdown r end.

Lemma relay_recv_data r x :
  sized x → rl_remote_eof r = false →
  relay_recv r (message 0 (data_msg x)) None = (relay_settle (relay_got r x), [plain MsgTcpForwardAck]).
Proof.
  intros Hx He. rewrite /relay_recv /=. destruct x as [d|]; simpl; rewrite He //=.
  destruct Hx as [Hd Hl]. rewrite (proj2 (Z.leb_le _ _)) //. by destruct d.
Qed.

Lemma flow_recv l l' rid :
  flow l → link_step rid l (LRecv None) = Some l' → flow l' ∧ (outstanding l' < outstanding l)%nat.
Proof.
  intros F. pose proof (fl_up _ F) as U. pose proof (fl_down _ F) as D. pose proof (fl_shut _ F) as [_ Hs].
  pose proof (fl_d2c _ F) as Fd. pose proof (fl_c2d _ F) as Fc. rewrite /outstanding. simpl.
  destruct (lk_d2c l) as [|env rest] eqn:Ed; [done|]. rewrite /relay_turn.
  destruct (rl_end (lk_relay l)) eqn:Ee; [done|].
  destruct (frame_cases _ _ Fd) as (Fr & [(-> & Ha & Hd)|(x & -> & Hx & Ha & Hd)]); rewrite Ha Hd in U, D |- *.
  - assert (rl_waiting_ack (lk_relay l) = true) as Hw by (by inversion U).
    rewrite /relay_recv /= Hw. intros [= <-]. rewrite app_nil_r. split; [|rewrite /up_weight /=; lia].
    apply flow_relay; try done. simpl. inversion U. apply ut_free.
  - assert (rl_remote_eof (lk_relay l) = false) as Hw by (by inversion D).
    rewrite relay_recv_data //. intros [= <-].
    assert (down_token (is_eof x) (datas rest) (acks (lk_c2d l ++ [plain MsgTcpForwardAck]))
      (fw_down (lk_fwd l)) (fb_acks (fw_gate (lk_fwd l))) (fb_ack_expected (fw_gate (lk_fwd l)))) as D'.
    { rewrite acks_app acks_cons acks_nil /=. inversion D. apply dt_replied. }
    split.
    + apply flow_relay; [done|by destruct x|by destruct x; simpl; congruence| | | |done].
      * rewrite datas_app datas_cons datas_nil /= app_nil_r. by destruct x.
      * by destruct x; simpl; rewrite ?Hw.
      * apply Forall_app. split; [done|]. repeat constructor.
    + simpl. rewrite datas_app acks_app datas_cons acks_cons datas_nil acks_nil /= app_nil_r.
      inversion D. rewrite /down_weight /=. lia.
Qed.

Lemma flow_gate l l' wrote rid :
  flow l → link_step rid l (LGate wrote) = Some l' → flow l' ∧ (outstanding l' < outstanding l)%nat.
Proof.
  intros F. pose proof (fl_up _ F) as U. pose proof (fl_down _ F) as D. pose proof (fl_d2c _ F) as Fd.
  pose proof (fl_c2d _ F) as Fc. rewrite /outstanding. simpl.
  destruct (lk_c2d l) as [|env rest] eqn:Ec; [done|].
  assert (∀ g, fb_permit g = fb_permit (fw_gate (lk_fwd l)) →
    up_token (rl_waiting_ack (lk_relay l)) (rl_local_eof (lk_relay l)) (acks (lk_d2c l))
      (fw_up (lk_fwd l)) (fb_input g) (fb_input_ready g) (datas rest) →
    down_token (rl_remote_eof (lk_relay l)) (datas (lk_d2c l)) (acks rest)
      (fw_down (lk_fwd l)) (fb_acks g) (fb_ack_expected g) → Forall frame_ok rest →
    flow {| lk_relay := lk_relay l; lk_fwd := set_gate (lk_fwd l) g; lk_c2d := rest; lk_d2c := lk_d2c l ++ [] |}) as Hgo.
  { intros g Hp Hu Hd Hf. rewrite app_nil_r. destruct F. split; simpl; rewrite ?Hp //. }
  destruct (frame_cases _ _ Fc) as (Fr & [(-> & Ha & Hd)|(x & -> & Hx & Ha & Hd)]); rewrite Ha Hd in U, D |- *.
  - assert (finished (lk_fwd l) = false) as Hfin by (rewrite /finished; inversion D; by destruct (fw_up (lk_fwd l))).
    pose proof (fl_permit _ F Hfin) as Hp.
    inversion D as [| | |e E1 E2 E3 E4 E5 E6| |].
    rewrite /gate_frame /forward_message /= /offer_ack -E5 -E6 /= bool_decide_eq_true_2 //=. intros [= <-].
    split; [|simpl; rewrite app_nil_r -E2 -E3 -E4 /down_weight /=; lia].
    apply Hgo; simpl; [done|done| |done]. rewrite -E2 -E4 -E3. apply dt_acked.
  - assert (finished (lk_fwd l) = false) as Hfin by (rewrite /finished; by inversion U).
    pose proof (fl_permit _ F Hfin) as Hp.
    assert (gate_frame (lk_fwd l) (message 0 (data_msg x)) wrote = (set_gate (lk_fwd l) {|
      fb_input := [x]; fb_acks := fb_acks (fw_gate (lk_fwd l)); fb_input_ready := false;
      fb_ack_expected := fb_ack_expected (fw_gate (lk_fwd l)); fb_permit := fb_permit (fw_gate (lk_fwd l)) |}, [])) as ->.
    { inversion U as [|y E1 E2 E3 E4 E5 E6 E7| | | |].
      rewrite /gate_frame /forward_message /=. destruct x as [d|]; simpl.
      - destruct Hx as [Hne Hl]. rewrite (proj2 (Z.leb_le _ _)) //. destruct d; [done|]. simpl.
        by rewrite /offer_input -E5 -E6 /= bool_decide_eq_true_2.
      - by rewrite /offer_input -E5 -E6 /= bool_decide_eq_true_2. }
    intros [= <-]. split.
    + apply Hgo; simpl; [done| |done|done]. inversion U. apply ut_queued.
    + simpl. rewrite app_nil_r. inversion U. rewrite /up_weight /=. lia.
Qed.

Lemma joined_views f :
  fw_up (joined f) = fw_up f ∧ fw_down (joined f) = fw_down f ∧
  fb_input (fw_gate (joined f)) = fb_input (fw_gate f) ∧
  fb_input_ready (fw_gate (joined f)) = fb_input_ready (fw_gate f) ∧
  fb_acks (fw_gate (joined f)) = fb_acks (fw_gate f) ∧
  fb_ack_expected (fw_gate (joined f)) = fb_ack_expected (fw_gate f) ∧ fw_shut (joined f) = fw_shut f.
Proof. rewrite /joined. destruct (fw_up f) eqn:Eu, (fw_down f) eqn:Ed; rewrite /= ?Eu ?Ed //. Qed.

Lemma joined_outstanding l f d2c :
  outstanding {| lk_relay := lk_relay l; lk_fwd := joined f; lk_c2d := lk_c2d l; lk_d2c := d2c |} =
  outstanding {| lk_relay := lk_relay l; lk_fwd := f; lk_c2d := lk_c2d l; lk_d2c := d2c |}.
Proof. rewrite /outstanding /=. by destruct (joined_views f) as (-> & -> & -> & _ & -> & _). Qed.

Lemma joined_flow l f out :
  flow l → fw_phase f = TRunning → is_Some (fb_permit (fw_gate f)) → fw_shut f = shut_up (fw_up f) →
  up_token (rl_waiting_ack (lk_relay l)) (rl_local_eof (lk_relay l)) (acks (lk_d2c l ++ out))
    (fw_up f) (fb_input (fw_gate f)) (fb_input_ready (fw_gate f)) (datas (lk_c2d l)) →
  down_token (rl_remote_eof (lk_relay l)) (datas (lk_d2c l ++ out)) (acks (lk_c2d l))
    (fw_down f) (fb_acks (fw_gate f)) (fb_ack_expected (fw_gate f)) →
  Forall frame_ok out →
  flow {| lk_relay := lk_relay l; lk_fwd := joined f; lk_c2d := lk_c2d l; lk_d2c := lk_d2c l ++ out |}.
Proof.
  intros [U D C E En P Pe [S1 S2]] Hph Hpe Hs Hu Hd Ho.
  assert (finished (joined f) = finished f) as Hf.
  { rewrite /joined /finished. destruct (fw_up f) eqn:Eu, (fw_down f) eqn:Ed; rewrite /= ?Eu ?Ed //. }
  destruct (joined_views f) as (E1 & E2 & E3 & E4 & E5 & E6 & E7).
  split; simpl; rewrite ?E1 ?E2 ?E3 ?E4 ?E5 ?E6 ?E7 ?Hf //.
  - by apply Forall_app.
  - rewrite /joined /finished. by destruct (fw_up f), (fw_down f).
  - rewrite /joined /finished. by destruct (fw_up f), (fw_down f).
Qed.

Lemma joined_running f : finished f = false → joined f = f.
Proof. rewrite /joined /finished. by destruct (fw_up f), (fw_down f). Qed.

(** Inversion of a token; the ones for another stage are impossible. *)
Ltac inv_token U :=
  inversion U;
  try (exfalso; match goal with H : (if ?b then _ else _) = _ |- _ => destruct b; discriminate H end).

Lemma flow_task l l' e rid :
  flow l → benign (LTask e) = true → link_step rid l (LTask e) = Some l' →
  flow l' ∧ (internal (LTask e) = true → (outstanding l' < outstanding l)%nat).
Proof.
  intros F Hb. simpl. destruct (task_step rid (lk_fwd l) e) as [[f out]|] eqn:Et; [|done]. simpl. intros [= <-].
  pose proof (fl_up _ F) as U. pose proof (fl_down _ F) as D. pose proof (fl_phase _ F) as Hph.
  pose proof (fl_permit _ F) as Hpe. pose proof (fl_shut _ F) as [Hs _].
  destruct (finished (lk_fwd l)) eqn:Hfin; [by rewrite /task_step Hph in Et|]. specialize (Hpe eq_refl).
  revert Et. rewrite /task_step Hph. destruct e; try done.
  - destruct (fw_up (lk_fwd l)) eqn:Eu; try done. destruct (fb_input _) as [|x q] eqn:Ei; [done|]. intros [= <- <-].
    split.
    + rewrite -(joined_running (set_up _ _)) //. apply joined_flow; simpl; rewrite ?app_nil_r ?Ei //=.
      inv_token U. apply ut_writing.
    + intros _. rewrite /outstanding /= app_nil_r Ei Eu /up_weight /=. lia.
  - destruct (fw_up (lk_fwd l)) as [|x| |] eqn:Eu; try done.
    assert (∀ g, g = set_up (set_gate (put_socket (lk_fwd l) (payload x) (is_eof x)) (set_ready (fw_gate (lk_fwd l)) (negb (is_eof x)))) (UpAck (is_eof x)) →
      flow {| lk_relay := lk_relay l; lk_fwd := g; lk_c2d := lk_c2d l; lk_d2c := lk_d2c l ++ [] |} ∧
      (outstanding {| lk_relay := lk_relay l; lk_fwd := g; lk_c2d := lk_c2d l; lk_d2c := lk_d2c l ++ [] |} < outstanding l)%nat) as Hgo.
    { intros g ->. split.
      - rewrite -(joined_running (set_up _ _)) //. apply joined_flow; simpl; rewrite ?app_nil_r //;
          [by destruct x|]. inv_token U. apply ut_owed.
      - rewrite /outstanding /= app_nil_r Eu /up_weight /=. lia. }
    destruct x as [d|]; intros [= <- <-].
    + destruct (Hgo (set_up (set_gate (put_socket (lk_fwd l) d (fw_shut (lk_fwd l)))
        (set_ready (fw_gate (lk_fwd l)) true)) (UpAck false))) as [? ?]; [by rewrite Hs|done].
    + assert (fb_input_ready (fw_gate (lk_fwd l)) = false) as Hr by (by inv_token U).
      destruct (Hgo (set_up (put_socket (lk_fwd l) [] true) (UpAck true))) as [? ?]; [|done].
      rewrite /set_up /set_gate /set_ready /put_socket /= -Hr. by destruct (fw_gate (lk_fwd l)).
  - destruct (fw_up (lk_fwd l)) as [| |eof|] eqn:Eu; try done.
    assert (fb_input (fw_gate (lk_fwd l)) = []) as Hi by (by inv_token U).
    assert (∀ g, g = joined (set_up (lk_fwd l) (if eof then UpDone else UpIdle)) →
      flow {| lk_relay := lk_relay l; lk_fwd := g; lk_c2d := lk_c2d l; lk_d2c := lk_d2c l ++ [message 0 MsgTcpForwardAck] |} ∧
      (outstanding {| lk_relay := lk_relay l; lk_fwd := g; lk_c2d := lk_c2d l; lk_d2c := lk_d2c l ++ [message 0 MsgTcpForwardAck] |} < outstanding l)%nat) as Hgo.
    { intros g ->. split.
      - apply joined_flow; simpl; try done; rewrite ?datas_app ?acks_app ?datas_cons ?acks_cons ?datas_nil ?acks_nil /= ?app_nil_r //.
        + by destruct eof.
        + inv_token U. apply ut_acked.
        + repeat constructor.
      - rewrite joined_outstanding /outstanding /= datas_app acks_app datas_cons acks_cons datas_nil acks_nil /= app_nil_r Eu.
        rewrite /up_weight length_app /=. destruct eof; lia. }
    rewrite Hi /=. destruct eof; intros [= <- <-].
    + by destruct (Hgo _ eq_refl).
    + destruct (Hgo (set_up (lk_fwd l) UpIdle)) as [? ?]; [by rewrite joined_running|done].
  - destruct (fw_down (lk_fwd l)) eqn:Ed; try done. case_match eqn:El; [|done]. to_prop. intros [= <- <-]. split; [|done].
    rewrite -(joined_running (set_down _ _)).
    + apply joined_flow; simpl; rewrite ?app_nil_r //. inversion D. apply dt_sending. by apply sized_read.
    + rewrite /finished /=. by destruct (fw_up (lk_fwd l)).
  - destruct (fw_down (lk_fwd l)) as [|x| |] eqn:Ed; try done. intros [= <- <-].
    assert (bool_decide (x = None) = is_eof x) as -> by (by destruct x).
    assert (sized x) as Hx by (by inversion D).
    assert (data_of (message 0 (data_msg x)) = Some x ∧ ack_of (message 0 (data_msg x)) = None) as [Hd1 Hd2] by (by destruct x).
    split.
    + rewrite -(joined_running (set_down _ _)); [|rewrite /finished /=; by destruct (fw_up (lk_fwd l))].
      apply joined_flow; simpl; try done;
        rewrite ?datas_app ?acks_app ?datas_cons ?acks_cons ?datas_nil ?acks_nil ?Hd1 ?Hd2 /= ?app_nil_r //.
      * inversion D. apply dt_stream.
      * repeat constructor. done.
    + intros _. rewrite /outstanding /= datas_app acks_app datas_cons acks_cons datas_nil acks_nil Hd1 Hd2 /= app_nil_r Ed.
      rewrite /down_weight length_app /=. lia.
  - destruct (fw_down (lk_fwd l)) as [| |eof|] eqn:Ed; try done.
    { destruct (fb_acks _) eqn:Ea; [done|]. by inversion D. }
    destruct (fb_acks _) as [|[] q] eqn:Ea; [by destruct eof|].
    assert (flow {| lk_relay := lk_relay l;
        lk_fwd := joined (set_down (set_gate (lk_fwd l) (take_ack (fw_gate (lk_fwd l)))) (if eof then DnDone else DnReading));
        lk_c2d := lk_c2d l; lk_d2c := lk_d2c l ++ [] |} ∧
      (outstanding {| lk_relay := lk_relay l;
        lk_fwd := joined (set_down (set_gate (lk_fwd l) (take_ack (fw_gate (lk_fwd l)))) (if eof then DnDone else DnReading));
        lk_c2d := lk_c2d l; lk_d2c := lk_d2c l ++ [] |} < outstanding l)%nat) as Hgo.
    { split.
      - apply joined_flow; simpl; rewrite ?app_nil_r //. rewrite Ea /=. clear U. inversion D.
        destruct (rl_remote_eof (lk_relay l)); [apply dt_done|apply dt_reading].
      - rewrite joined_outstanding /outstanding /= app_nil_r Ed Ea /down_weight /=. destruct eof; lia. }
    destruct eof; intros [= <- <-]; [by destruct Hgo|].
    rewrite joined_running in Hgo; [by destruct Hgo|]. rewrite /finished /=. by destruct (fw_up (lk_fwd l)).
Qed.

Lemma flow_step rid l lab l' :
  flow l → benign lab = true → link_step rid l lab = Some l' →
  flow l' ∧ (internal lab = true → (outstanding l' < outstanding l)%nat).
Proof.
  intros F Hb Hs. destruct lab as [data sent|failure| |e|wrote]; [| |done| |].
  - simpl in Hb. subst sent. split; [by eapply flow_read|done].
  - destruct failure; [done|]. destruct (flow_recv _ _ _ F Hs). auto.
  - by eapply flow_task.
  - destruct (flow_gate _ _ _ _ F Hs). auto.
Qed.

Lemma run_flow rid user labs l :
  link_run rid (link_open user) labs l → Forall (λ lab, benign lab = true) labs → flow l.
Proof.
  induction 1 as [|labs l lab l' _ IH Hs]; intros Hb; [apply link_open_flow|].
  apply Forall_app in Hb as [Hb [Hl _]%Forall_cons]. by eapply flow_step; [apply IH| |].
Qed.

Lemma nonempty_datas es x xs : datas es = x :: xs → ∃ e rest, es = e :: rest.
Proof. destruct es; [done|eauto]. Qed.
Lemma nonempty_acks es x xs : acks es = x :: xs → ∃ e rest, es = e :: rest.
Proof. destruct es; [done|eauto]. Qed.

(** What makes the next internal step possible. *)
Lemma gate_ready rid l e rest : lk_c2d l = e :: rest → ∃ l', link_step rid l (LGate 0) = Some l'.
Proof. intros Hc. rewrite /= Hc. destruct (gate_frame _ _ _). eauto. Qed.
Lemma recv_ready rid l e rest :
  lk_d2c l = e :: rest → rl_end (lk_relay l) = None → ∃ l', link_step rid l (LRecv None) = Some l'.
Proof. intros Hd He. rewrite /= Hd /relay_turn He /=. destruct (relay_recv _ _ _). eauto. Qed.
Lemma task_ready rid l e x :
  task_step rid (lk_fwd l) e = Some x → ∃ l', link_step rid l (LTask e) = Some l'.
Proof. intros Ht. destruct x. rewrite /= Ht /=. eauto. Qed.

Lemma up_progress rid l :
  flow l → rl_waiting_ack (lk_relay l) = true →
  ∃ lab l', internal lab = true ∧ link_step rid l lab = Some l'.
Proof.
  intros F Hw. pose proof (fl_up _ F) as U. pose proof (fl_end _ F) as He. rewrite Hw andb_false_r in He.
  pose proof (fl_phase _ F) as Hph. rewrite /finished in Hph. rewrite Hw in U.
  inversion U as [|x E1 E2 E3 E4 E5 E6 E7|x E1 E2 E3 E4 E5 E6 E7|x E1 E2 E3 E4 E5 E6 E7|e E1 E2 E3 E4 E5 E6 E7|e E1 E2 E3 E4 E5 E6 E7].
  - destruct (nonempty_datas _ _ _ (eq_sym E7)) as (? & ? & Hc). destruct (gate_ready rid l _ _ Hc) as [l' Hl].
    by exists (LGate 0), l'.
  - rewrite -E4 in Hph. destruct (task_ready rid l EInput (set_up (set_gate (lk_fwd l) (take_input (fw_gate (lk_fwd l)))) (UpWriting x), [])) as [l' Hl];
      [by rewrite /task_step Hph -E4 -E5|]. by exists (LTask EInput), l'.
  - rewrite -E4 in Hph. destruct (task_step rid (lk_fwd l) EWrote) as [y|] eqn:Ey;
      [|exfalso; revert Ey; rewrite /task_step Hph -E4; by destruct x].
    destruct (task_ready _ _ _ _ Ey) as [l' Hl]. by exists (LTask EWrote), l'.
  - rewrite -E4 in Hph. destruct (task_step rid (lk_fwd l) EAckSent) as [y|] eqn:Ey;
      [|exfalso; revert Ey; rewrite /task_step Hph -E4 -E5; by destruct (rl_local_eof (lk_relay l))].
    destruct (task_ready _ _ _ _ Ey) as [l' Hl]. by exists (LTask EAckSent), l'.
  - destruct (nonempty_acks _ _ _ (eq_sym E3)) as (? & ? & Hc). destruct (recv_ready rid l _ _ Hc He) as [l' Hl].
    by exists (LRecv None), l'.
Qed.

Lemma down_progress rid l :
  flow l → fw_down (lk_fwd l) ≠ DnReading → fw_down (lk_fwd l) ≠ DnDone →
  ∃ lab l', internal lab = true ∧ link_step rid l lab = Some l'.
Proof.
  intros F Hr Hd. pose proof (fl_down _ F) as D. pose proof (fl_end _ F) as He.
  pose proof (fl_phase _ F) as Hph.
  assert (fw_phase (lk_fwd l) = TRunning) as Hrun.
  { rewrite Hph /finished. by destruct (fw_up (lk_fwd l)), (fw_down (lk_fwd l)). }
  inversion D as [|x Hx E1 E2 E3 E4 E5 E6|x E1 E2 E3 E4 E5 E6|e E1 E2 E3 E4 E5 E6|e E1 E2 E3 E4 E5 E6|]; [done| | | | |done].
  - destruct (task_step rid (lk_fwd l) ESent) as [y|] eqn:Ey;
      [|exfalso; revert Ey; by rewrite /task_step Hrun -E4].
    destruct (task_ready _ _ _ _ Ey) as [l' Hl]. by exists (LTask ESent), l'.
  - rewrite -E1 andb_false_r /= in He. destruct (nonempty_datas _ _ _ (eq_sym E2)) as (? & ? & Hc).
    destruct (recv_ready rid l _ _ Hc He) as [l' Hl]. by exists (LRecv None), l'.
  - destruct (nonempty_acks _ _ _ (eq_sym E3)) as (? & ? & Hc). destruct (gate_ready rid l _ _ Hc) as [l' Hl].
    by exists (LGate 0), l'.
  - destruct (task_step rid (lk_fwd l) EAcked) as [y|] eqn:Ey;
      [|exfalso; revert Ey; rewrite /task_step Hrun -E4 -E5; by destruct (rl_remote_eof (lk_relay l))].
    destruct (task_ready _ _ _ _ Ey) as [l' Hl]. by exists (LTask EAcked), l'.
Qed.

(** C17: bytes are never lost, repeated or reordered in between, whatever fails and
    however the client, the daemon's gate and its task interleave. If nothing
    fails outside, neither side ever refuses a frame of the other, at most one
    frame per direction is unacknowledged, and when the relay returns, both
    sockets have been given everything and were shut down. *)
Theorem forward_end_to_end rid user labs l :
  link_run rid (link_open user) labs l →
  fw_written (lk_fwd l) `prefix_of` rl_read (lk_relay l) ∧
  rl_written (lk_relay l) `prefix_of` fw_read (lk_fwd l) ∧
  (Forall (λ lab, benign lab = true) labs →
     relay_ok (lk_relay l) = true ∧ task_ok (lk_fwd l) = true ∧
     (length (datas (lk_c2d l)) ≤ 1)%nat ∧ (length (datas (lk_d2c l)) ≤ 1)%nat ∧
     (rl_end (lk_relay l) = Some false →
        fw_written (lk_fwd l) = rl_read (lk_relay l) ∧ rl_written (lk_relay l) = fw_read (lk_fwd l) ∧
        fw_shut (lk_fwd l) = true ∧ rl_shut (lk_relay l) = true)).
Proof.
  intros R. destruct (run_intact _ _ _ _ R) as [I _]. split_and!; [apply I|apply I|].
  intros Hb. pose proof (run_flow _ _ _ _ R Hb) as F.
  pose proof (fl_up _ F) as U. pose proof (fl_down _ F) as D. pose proof (fl_end _ F) as He.
  assert (relay_ok (lk_relay l) = true) as Hr by (rewrite /relay_ok He; by case_match).
  assert (task_ok (lk_fwd l) = true) as Ht by (rewrite /task_ok (fl_phase _ F); by destruct (finished _)).
  split_and!; [done|done|by inversion U; simpl; lia|by inversion D; simpl; lia|].
  intros Hend. rewrite Hend in He. case_match eqn:Ec; [|done]. to_prop.
  assert (up_items l = [] ∧ fw_up (lk_fwd l) = UpDone) as [Hu Hup].
  { revert U. rewrite H0 H /up_items. inversion 1. done. }
  assert (down_items l = []) as Hd.
  { revert D. rewrite H1 /down_items. by inversion 1. }
  pose proof (in_up_eq _ I Ht Hr) as Eu. pose proof (in_down_eq _ I Hr Ht) as Ed.
  rewrite Hu app_nil_r in Eu. rewrite Hd app_nil_r in Ed. destruct (fl_shut _ F) as [S1 S2].
  split_and!; [done|done|by rewrite S1 Hup|by rewrite S2].
Qed.

(** C18: while nothing fails, a forward never gets stuck: as long as a frame or an
    acknowledgement is outstanding, the client, the gate or the task can take a
    step that needs no new input, every such step brings it closer, and after at
    most nine of them nothing is outstanding. *)
Theorem forward_progress rid user labs l :
  link_run rid (link_open user) labs l → Forall (λ lab, benign lab = true) labs →
  (outstanding l ≤ 9)%nat ∧
  (outstanding l ≠ 0%nat → ∃ lab l', internal lab = true ∧ link_step rid l lab = Some l') ∧
  (∀ lab l', internal lab = true → link_step rid l lab = Some l' → (outstanding l' < outstanding l)%nat) ∧
  (outstanding l = 0%nat → rl_waiting_ack (lk_relay l) = false ∧
     (fw_down (lk_fwd l) = DnReading ∨ fw_down (lk_fwd l) = DnDone)).
Proof.
  intros R Hb. pose proof (run_flow _ _ _ _ R Hb) as F.
  pose proof (fl_up _ F) as U. pose proof (fl_down _ F) as D. split_and!.
  - rewrite /outstanding. inversion U; inversion D; rewrite /up_weight /down_weight /=; repeat case_match; lia.
  - intros Hne. destruct (rl_waiting_ack (lk_relay l)) eqn:Hw; [by apply up_progress|].
    apply down_progress; [done|intros Ed|intros Ed]; apply Hne; rewrite /outstanding; rewrite Ed in D;
      inversion U; inversion D; rewrite /up_weight /down_weight /= ?Ed; repeat case_match; congruence || done.
  - intros lab l' Hi Hs. eapply flow_step; [done| |done|done]. by apply andb_true_iff in Hi as [? _].
  - rewrite /outstanding. inversion U; inversion D; rewrite /up_weight /down_weight /=; auto; lia.
Qed.

(** ** A concrete run *)
Definition link_exec (request_id : Z) (l : Link) (labs : list LinkLabel) : option Link :=
  foldl (λ o lab, o ≫= λ l, link_step request_id l lab) (Some l) labs.

Lemma link_exec_run rid l labs l' : link_exec rid l labs = Some l' → link_run rid l labs l'.
Proof.
  revert l'. induction labs as [|lab labs IH] using rev_ind; intros l'; rewrite /link_exec ?foldl_app /=.
  - intros [= ->]. constructor.
  - destruct (foldl _ _ labs) as [m|] eqn:Em; simpl; [|done]. intros Hs. econstructor; [by apply IH|done].
Qed.

Definition both_ways : list LinkLabel :=
  [LRead (str_bytes (lit "hi")) true; LGate 0; LTask EInput; LTask EWrote; LTask EAckSent; LRecv None;
   LTask (ERead (str_bytes (lit "yo"))); LTask ESent; LRecv None; LGate 0; LTask EAcked;
   LRead [] true; LGate 0; LTask EInput; LTask EWrote; LTask EAckSent; LRecv None;
   LTask (ERead []); LTask ESent; LRecv None; LGate 0; LTask EAcked].

Definition end_of (labs : list LinkLabel) : Link :=
  default (link_open (lit "u")) (link_exec 7 (link_open (lit "u")) labs).

Lemma both_ways_run : link_run 7 (link_open (lit "u")) both_ways (end_of both_ways).
Proof. apply link_exec_run. vm_compute. reflexivity. Qed.

Lemma both_ways_benign : Forall (λ lab, benign lab = true) both_ways.
Proof. repeat constructor. Qed.

(** Both bytes arrive on each side and both sockets are shut. *)
Lemma forward_end_to_end_witness :
  rl_end (lk_relay (end_of both_ways)) = Some false ∧
  fw_written (lk_fwd (end_of both_ways)) = str_bytes (lit "hi") ∧
  rl_written (lk_relay (end_of both_ways)) = str_bytes (lit "yo").
Proof.
  pose proof (forward_end_to_end 7 (lit "u") both_ways (end_of both_ways) both_ways_run) as (_ & _ & H).
  destruct (H both_ways_benign) as (_ & _ & _ & _ & He).
  assert (rl_end (lk_relay (end_of both_ways)) = Some false) as Hend by (vm_compute; reflexivity).
  destruct (He Hend) as (-> & -> & _). split_and!; [done|vm_compute; reflexivity..].
Defined.

(** In the middle of that run, an acknowledgement is outstanding and a step of
    the client is possible; at its end nothing is left. *)
Lemma forward_progress_witness :
  outstanding (end_of (take 5 both_ways)) ≠ 0%nat ∧
  ∃ lab l', internal lab = true ∧ link_step 7 (end_of (take 5 both_ways)) lab = Some l'.
Proof.
  assert (link_run 7 (link_open (lit "u")) (take 5 both_ways) (end_of (take 5 both_ways))) as R
    by (apply link_exec_run; vm_compute; reflexivity).
  assert (Forall (λ lab, benign lab = true) (take 5 both_ways)) as Hb by (repeat constructor).
  assert (outstanding (end_of (take 5 both_ways)) ≠ 0%nat) as Hn by (vm_compute; lia).
  split; [exact Hn|]. exact (proj1 (proj2 (forward_progress 7 (lit "u") _ _ R Hb)) Hn).
Defined.
