(* ===== verification/Frontdoor.v ===== *)
(** * The shared front door

    [crates/daemon/src/frontdoor_bridge.rs]: a Unix socket on which one trusted
    front-door process hands over HTTP/3 sessions and their streams. Every
    connection begins with a header; the first one of a session becomes its
    control connection, the others its streams. *)
From S2P Require Import Prelude Utf8 Forward Paths.

Definition HEADER_MAGIC : bytes := str_bytes (lit "DWMH3B02").
Definition ACK_MAGIC : bytes := str_bytes (lit "DWMH3A02").
Definition HEADER_FIXED_BYTES : nat := 105.
Definition HOSTNAME_BYTES_MAX : Z := 253.
Definition CONNECTION_HANDSHAKES_MAX : Z := 512.
Definition SESSIONS_MAX : Z := 4096.
Definition STREAMS_PER_SESSION_MAX : Z := 64.
Definition KIND_SESSION : Z := 1.
Definition KIND_STREAM : Z := 2.

(** ** Configuration *)
Definition hostname_byte_ok (b : byte) : bool :=
  is_ascii_lower (byte_Z b) || is_ascii_digit (byte_Z b) || (byte_Z b =? 0x2D).
Definition hostname_label_ok (label : str) : bool :=
  negb (is_empty label) && (str_len label <=? 63) &&
  negb (bool_decide (head label = Some 0x2D)) && negb (bool_decide (last label = Some 0x2D)) &&
  forallb hostname_byte_ok (str_bytes label).

Definition validate_hostname (hostname : str) : result unit str :=
  if is_empty hostname || (HOSTNAME_BYTES_MAX <? str_len hostname) ||
     bool_decide (last hostname = Some 0x2E) || parse_ip hostname ||
     existsb (λ b, is_ascii_upper (byte_Z b)) (str_bytes hostname) ||
     negb (forallb hostname_label_ok (split_char 0x2E hostname))
  then Err (lit "shared H3 front-door hostname must be canonical lowercase DNS")
  else Ok ().

Record FrontdoorBridgeConfig := {
  socket_path : str;
  frontdoor_uid : Z;
  fd_hostname : str;
  public_port : Z;
  maximum_sessions : Z;
  maximum_streams_per_session : Z;
}.

Definition config_validate (c : FrontdoorBridgeConfig) : result unit str :=
  if negb (is_absolute (socket_path c)) || bool_decide (components (socket_path c) = [RootDir]) ||
     bool_decide (file_name (socket_path c) = None) || bool_decide (ParentDir ∈ components (socket_path c))
  then Err (lit "shared H3 front-door socket must be an absolute non-root path")
  else
    let? _ := validate_hostname (fd_hostname c) in
    if (frontdoor_uid c =? 0) || (public_port c =? 0) || (maximum_sessions c =? 0) ||
       (SESSIONS_MAX <? maximum_sessions c) || (maximum_streams_per_session c =? 0) ||
       (STREAMS_PER_SESSION_MAX <? maximum_streams_per_session c)
    then Err (lit "shared H3 front-door identity, port or limits are invalid")
    else Ok ().

(** What [symlink_metadata] says of a path; 0x12 is octal 022, the write bits of
    group and others. *)
Record Metadata := { md_dir : bool; md_symlink : bool; md_socket : bool; md_mode : Z; md_dev : Z; md_ino : Z }.

Definition validate_socket_parent (parent : result Metadata str) : result unit str :=
  let? m := parent in
  if negb (md_dir m) || md_symlink m || negb (Z.land (md_mode m) 0x12 =? 0)
  then Err (lit "shared H3 front-door socket directory must be protected and non-symlinked")
  else Ok ().

(** [SocketGuard]: on drop only the inode that was bound is removed. *)
Record SocketGuard := { sg_device : Z; sg_inode : Z }.
Definition guard_new (m : result Metadata str) : result SocketGuard str :=
  let? m := m in
  if md_socket m then Ok {| sg_device := md_dev m; sg_inode := md_ino m |}
  else Err (lit "shared H3 front-door path is not a Unix socket").
Definition guard_drop (g : SocketGuard) (m : option Metadata) : bool :=
  match m with
  | Some m => md_socket m && (md_dev m =? sg_device g) && (md_ino m =? sg_inode g)
  | None => false
  end.

(** ** The header *)
Record BridgeHeader := {
  bh_kind : Z;
  bh_session_id : bytes;
  bh_stream_id : Z;
  bh_address : IpAddress;
  bh_port : Z;
  bh_hostname : str;
  bh_channel_binding : bytes;
}.

#[export] Instance bridge_header_eq_dec : EqDecision BridgeHeader.
Proof. solve_decision. Defined.

(** [from_be_bytes], and [slice[a..b]]. *)
Definition from_be (l : bytes) : Z := foldl (λ acc b, acc * 256 + byte_Z b) 0 l.
Definition slice (a b : nat) (l : bytes) : bytes := take (b - a) (drop a l).
Definition zeros (n : nat) : bytes := replicate n Byte.x00.

Definition header_validate (h : BridgeHeader) : result unit str :=
  let? _ := validate_hostname (bh_hostname h) in
  if bool_decide (bh_session_id h = zeros 32) || bool_decide (bh_channel_binding h = zeros 32) ||
     ((bh_kind h =? KIND_SESSION) && negb (bh_stream_id h =? 0)) ||
     ((bh_kind h =? KIND_STREAM) && (bh_stream_id h =? 0)) ||
     negb ((bh_kind h =? KIND_SESSION) || (bh_kind h =? KIND_STREAM)) || (bh_port h =? 0)
  then Err (lit "shared H3 bridge header is invalid")
  else Ok ().

Definition header_address (fixed : bytes) : result IpAddress str :=
  let address_bytes := slice 53 69 fixed in
  let family := from_be (slice 52 53 fixed) in
  if (family =? 4) && bool_decide (drop 4 address_bytes = zeros 12)
  then Ok (V4 (map byte_Z (take 4 address_bytes)))
  else if family =? 6 then Ok (V6 (be_segments address_bytes))
  else Err (lit "shared H3 bridge address family is invalid").

(** [BridgeHeader::read] on what the peer has written: the header and what
    follows it on the stream. *)
Definition header_read (input : bytes) : result (BridgeHeader * bytes) str :=
  if (length input <? HEADER_FIXED_BYTES)%nat then Err (lit "read shared H3 bridge header")
  else
    let fixed := take HEADER_FIXED_BYTES input in
    let input := drop HEADER_FIXED_BYTES input in
    if negb (bool_decide (slice 0 8 fixed = HEADER_MAGIC)) || negb (bool_decide (slice 9 12 fixed = zeros 3))
    then Err (lit "shared H3 bridge magic or reserved bytes are invalid")
    else
      let? address := header_address fixed in
      let hostname_length := from_be (slice 71 73 fixed) in
      if (hostname_length =? 0) || (HOSTNAME_BYTES_MAX <? hostname_length)
      then Err (lit "shared H3 bridge hostname length is invalid")
      else if len input <? hostname_length then Err (lit "read shared H3 bridge hostname")
      else
        let? hostname := map_err (λ _, lit "bridge hostname is not UTF-8")
                           (from_utf8 (take (Z.to_nat hostname_length) input)) in
        let header := {|
          bh_kind := from_be (slice 8 9 fixed); bh_session_id := slice 12 44 fixed;
          bh_stream_id := from_be (slice 44 52 fixed); bh_address := address;
          bh_port := from_be (slice 69 71 fixed); bh_hostname := hostname;
          bh_channel_binding := slice 73 105 fixed |} in
        let? _ := header_validate header in
        Ok (header, drop (Z.to_nat hostname_length) input).

(** The layout on the wire. *)
Definition be_bytes (n : nat) (z : Z) : bytes :=
  map (λ i, Z_byte (z / 256 ^ Z.of_nat i)) (reverse (seq 0 n)).
Definition encoded_header (h : BridgeHeader) : bytes :=
  HEADER_MAGIC ++ [Z_byte (bh_kind h)] ++ zeros 3 ++ bh_session_id h ++ be_bytes 8 (bh_stream_id h) ++
  match bh_address h with
  | V4 octets => Byte.x04 :: map Z_byte octets ++ zeros 12
  | V6 segments => Byte.x06 :: concat (map u16_be segments)
  end ++ be_bytes 2 (bh_port h) ++ be_bytes 2 (str_len (bh_hostname h)) ++
  bh_channel_binding h ++ str_bytes (bh_hostname h).

Definition valid_header : BridgeHeader := {|
  bh_kind := KIND_SESSION; bh_session_id := replicate 32 Byte.x31; bh_stream_id := 0;
  bh_address := V4 [127; 0; 0; 1]; bh_port := 4242; bh_hostname := lit "holdfast.example";
  bh_channel_binding := replicate 32 Byte.x42 |}.

Example header_roundtrip_ex :
  header_read (encoded_header valid_header ++ [Byte.x07]) = Ok (valid_header, [Byte.x07]).
Proof. vm_compute. reflexivity. Qed.

(** ** Accepting connections

    A connection is known by a number. Everything the peer will write is fixed
    when it connects ([pe_input]); when its header is read, when a write
    succeeds or fails and when a timer fires is not. *)
Record Peer := { pe_uid : result Z str; pe_input : bytes }.

(** The stream queue of a session is known by the number of its control
    connection. *)
Record SessionEntry := { se_header : BridgeHeader; se_streams : nat; se_next_stream_id : Z }.

(** [accept_connection] between its awaits and locks: waiting for the header,
    holding a slot of the session queue, acknowledging the session, holding a
    stream number, acknowledging the stream. *)
Inductive Phase :=
  | HReading
  | HInsert (header : BridgeHeader)
  | HAckSession (header : BridgeHeader)
  | HReserve (header : BridgeHeader) (session : nat)
  | HAckStream (header : BridgeHeader) (session : nat).

(** A [BridgeSession] and its stream queue; [ss_taken] are the streams its user
    has taken from it, [ss_control] says that its control connection is being
    watched. *)
Record Session := {
  ss_header : BridgeHeader;
  ss_streams : list (nat * BridgeHeader);
  ss_taken : list (nat * BridgeHeader);
  ss_receiver : bool;
  ss_control : bool;
  ss_closed : bool;
}.

Record Bridge := {
  br_next : nat;
  br_peers : gmap nat Peer;
  br_handshakes : gmap nat Phase;
  br_entries : gmap bytes SessionEntry;
  br_sessions : gmap nat Session;
  br_queue : list nat;
  br_accepted : list nat;
}.

Definition bridge_new : Bridge := {|
  br_next := 0; br_peers := ∅; br_handshakes := ∅; br_entries := ∅; br_sessions := ∅;
  br_queue := []; br_accepted := [] |}.

Definition with_handshakes (b : Bridge) (h : gmap nat Phase) : Bridge := {|
  br_next := br_next b; br_peers := br_peers b; br_handshakes := h; br_entries := br_entries b;
  br_sessions := br_sessions b; br_queue := br_queue b; br_accepted := br_accepted b |}.
Definition with_entries (b : Bridge) (e : gmap bytes SessionEntry) : Bridge := {|
  br_next := br_next b; br_peers := br_peers b; br_handshakes := br_handshakes b; br_entries := e;
  br_sessions := br_sessions b; br_queue := br_queue b; br_accepted := br_accepted b |}.
Definition with_sessions (b : Bridge) (s : gmap nat Session) : Bridge := {|
  br_next := br_next b; br_peers := br_peers b; br_handshakes := br_handshakes b; br_entries := br_entries b;
  br_sessions := s; br_queue := br_queue b; br_accepted := br_accepted b |}.
Definition with_queue (b : Bridge) (queue accepted : list nat) : Bridge := {|
  br_next := br_next b; br_peers := br_peers b; br_handshakes := br_handshakes b; br_entries := br_entries b;
  br_sessions := br_sessions b; br_queue := queue; br_accepted := accepted |}.

(** The task of a connection ends. *)
Definition end_handshake (b : Bridge) (id : nat) : Bridge := with_handshakes b (delete id (br_handshakes b)).
Definition set_phase (b : Bridge) (id : nat) (p : Phase) : Bridge :=
  with_handshakes b (<[id := p]> (br_handshakes b)).

Definition set_receiver (s : Session) (receiver : bool) : Session := {|
  ss_header := ss_header s; ss_streams := ss_streams s; ss_taken := ss_taken s; ss_receiver := receiver;
  ss_control := ss_control s; ss_closed := ss_closed s |}.
Definition set_control (s : Session) (control closed : bool) : Session := {|
  ss_header := ss_header s; ss_streams := ss_streams s; ss_taken := ss_taken s; ss_receiver := ss_receiver s;
  ss_control := control; ss_closed := closed |}.
Definition set_streams (s : Session) (streams taken : list (nat * BridgeHeader)) : Session := {|
  ss_header := ss_header s; ss_streams := streams; ss_taken := taken; ss_receiver := ss_receiver s;
  ss_control := ss_control s; ss_closed := ss_closed s |}.

(** Permits of the session queue, and of a stream queue, that are held. *)
Definition holds_slot (p : Phase) : bool :=
  match p with HInsert _ | HAckSession _ => true | _ => false end.
Definition holds_stream (session : nat) (p : Phase) : bool :=
  match p with HAckStream _ s => bool_decide (s = session) | _ => false end.
Definition holders (f : Phase → bool) (hs : gmap nat Phase) : Z :=
  Z.of_nat (size (filter (λ kv, f kv.2 = true) hs)).

Section bridge.
Variable cfg : FrontdoorBridgeConfig.

(** The loop of [accept_connections]. *)
Definition accept_one (b : Bridge) (p : Peer) : Bridge :=
  let id := br_next b in
  {| br_next := S id; br_peers := <[id := p]> (br_peers b);
     br_handshakes := if CONNECTION_HANDSHAKES_MAX <=? Z.of_nat (size (br_handshakes b))
                      then br_handshakes b else <[id := HReading]> (br_handshakes b);
     br_entries := br_entries b; br_sessions := br_sessions b; br_queue := br_queue b;
     br_accepted := br_accepted b |}.

Definition same_origin (e h : BridgeHeader) : bool :=
  bool_decide (bh_hostname e = bh_hostname h) &&
  bool_decide (bh_address e = bh_address h) && (bh_port e =? bh_port h) &&
  bool_decide (bh_channel_binding e = bh_channel_binding h).

(** A stream's number is taken under the lock of the entries. *)
Definition take_number (b : Bridge) (id : nat) (h : BridgeHeader) : Bridge :=
  match br_entries b !! bh_session_id h with
  | None => end_handshake b id
  | Some e =>
      if negb (same_origin (se_header e) h) || negb (bh_stream_id h =? se_next_stream_id e)
      then end_handshake b id
      else
        match checked_add64 (se_next_stream_id e) 1 with
        | None => end_handshake b id
        | Some next =>
            set_phase (with_entries b (<[bh_session_id h := {|
              se_header := se_header e; se_streams := se_streams e; se_next_stream_id := next |}]> (br_entries b)))
              id (HReserve h (se_streams e))
        end
  end.

(** [accept_connection] up to its first lock. *)
Definition on_header (b : Bridge) (id : nat) : option Bridge :=
  match br_handshakes b !! id, br_peers b !! id with
  | Some HReading, Some p =>
      Some match pe_uid p, header_read (pe_input p) with
           | Ok uid, Ok (h, _) =>
               if negb (uid =? frontdoor_uid cfg) then end_handshake b id
               else if negb (bool_decide (bh_hostname h = fd_hostname cfg)) then end_handshake b id
               else if bh_kind h =? KIND_SESSION then
                 if maximum_sessions cfg <=? len (br_queue b) + holders holds_slot (br_handshakes b)
                 then end_handshake b id
                 else set_phase b id (HInsert h)
               else take_number b id h
           | _, _ => end_handshake b id
           end
  | _, _ => None
  end.

(** The session's entry, under the lock. *)
Definition on_insert (b : Bridge) (id : nat) : option Bridge :=
  match br_handshakes b !! id with
  | Some (HInsert h) =>
      Some (if (maximum_sessions cfg <=? Z.of_nat (size (br_entries b))) ||
               bool_decide (is_Some (br_entries b !! bh_session_id h))
            then end_handshake b id
            else
              let b := with_entries b (<[bh_session_id h := {|
                se_header := h; se_streams := id; se_next_stream_id := 1 |}]> (br_entries b)) in
              let b := with_sessions b (<[id := {|
                ss_header := h; ss_streams := []; ss_taken := []; ss_receiver := true;
                ss_control := false; ss_closed := false |}]> (br_sessions b)) in
              set_phase b id (HAckSession h))
  | _ => None
  end.

(** [try_reserve_owned] on the session's stream queue. *)
Definition on_reserve (b : Bridge) (id : nat) : option Bridge :=
  match br_handshakes b !! id with
  | Some (HReserve h session) =>
      Some match br_sessions b !! session with
           | Some s =>
               if ss_receiver s && (len (ss_streams s) + holders (holds_stream session) (br_handshakes b) <?
                                    maximum_streams_per_session cfg)
               then set_phase b id (HAckStream h session)
               else end_handshake b id
           | None => end_handshake b id
           end
  | _ => None
  end.

(** The acknowledgement is written, or not. *)
Definition on_ack (b : Bridge) (id : nat) (written : bool) : option Bridge :=
  match br_handshakes b !! id with
  | Some (HAckSession h) =>
      let b := end_handshake b id in
      Some (if written then
              with_queue (with_sessions b (alter (λ s, set_control s true false) id (br_sessions b)))
                (br_queue b ++ [id]) (br_accepted b)
            else
              with_entries (with_sessions b (alter (λ s, set_receiver s false) id (br_sessions b)))
                (delete (bh_session_id h) (br_entries b)))
  | Some (HAckStream h session) =>
      let b := end_handshake b id in
      Some (if written then
              with_sessions b (alter (λ s,
                if ss_receiver s then set_streams s (ss_streams s ++ [(id, h)]) (ss_taken s) else s)
                session (br_sessions b))
            else b)
  | _ => None
  end.

(** [HANDSHAKE_TIMEOUT]: the future is dropped where it waits. *)
Definition on_timeout (b : Bridge) (id : nat) : option Bridge :=
  match br_handshakes b !! id with
  | Some p =>
      let b := end_handshake b id in
      Some match p with
           | HAckSession _ => with_sessions b (alter (λ s, set_receiver s false) id (br_sessions b))
           | _ => b
           end
  | None => None
  end.

(** The control connection of a session ends or says anything. *)
Definition on_control (b : Bridge) (id : nat) : option Bridge :=
  match br_sessions b !! id with
  | Some s =>
      if ss_control s then
        Some (with_sessions (with_entries b (delete (bh_session_id (ss_header s)) (br_entries b)))
                (<[id := set_control s false true]> (br_sessions b)))
      else None
  | None => None
  end.

(** [FrontdoorBridge::accept], [BridgeSession::accept_bi], and the end of a
    session. *)
Definition accept (b : Bridge) : option Bridge :=
  match br_queue b with
  | id :: queue => Some (with_queue b queue (br_accepted b ++ [id]))
  | [] => None
  end.
Definition accept_bi (b : Bridge) (id : nat) : option Bridge :=
  match br_sessions b !! id with
  | Some s =>
      match ss_streams s with
      | x :: rest =>
          if bool_decide (id ∈ br_accepted b) && ss_receiver s
          then Some (with_sessions b (<[id := set_streams s rest (ss_taken s ++ [x])]> (br_sessions b)))
          else None
      | [] => None
      end
  | None => None
  end.
Definition drop_session (b : Bridge) (id : nat) : option Bridge :=
  if bool_decide (id ∈ br_accepted b)
  then Some (with_sessions b (alter (λ s, set_receiver s false) id (br_sessions b)))
  else None.

Inductive BridgeLabel :=
  | BConnect (p : Peer)
  | BHeader (id : nat)
  | BInsert (id : nat)
  | BReserve (id : nat)
  | BAck (id : nat) (written : bool)
  | BTimeout (id : nat)
  | BControl (id : nat)
  | BAccept
  | BAcceptBi (id : nat)
  | BDrop (id : nat).

Definition bridge_step (b : Bridge) (l : BridgeLabel) : option Bridge :=
  match l with
  | BConnect p => Some (accept_one b p)
  | BHeader id => on_header b id
  | BInsert id => on_insert b id
  | BReserve id => on_reserve b id
  | BAck id written => on_ack b id written
  | BTimeout id => on_timeout b id
  | BControl id => on_control b id
  | BAccept => accept b
  | BAcceptBi id => accept_bi b id
  | BDrop id => drop_session b id
  end.

Inductive bridge_reachable : Bridge → Prop :=
  | br_start : bridge_reachable bridge_new
  | br_step b l b' : bridge_reachable b → bridge_step b l = Some b' → bridge_reachable b'.

End bridge.
