(* ===== verification/FrontdoorProps.v ===== *)
(** * What the front door guarantees

    The header is a canonical encoding; over any interleaving of connections
    only the front-door user's connections become sessions and streams, a
    stream only ever joins the session it names, and every queue keeps its
    bound. *)
From S2P Require Import Prelude Utf8 Forward Paths Frontdoor.

(** ** Big-endian numbers *)
Lemma from_be_snoc l b : from_be (l ++ [b]) = from_be l * 256 + byte_Z b.
Proof. by rewrite /from_be foldl_app. Qed.

Lemma map_rev_reverse {A B} (f : A → B) l : map f (reverse l) = reverse (map f l).
Proof. induction l as [|x l IH]; [done|]. by rewrite /= !reverse_cons map_app IH. Qed.

Lemma be_bytes_S n z : be_bytes (S n) z = be_bytes n (z / 256) ++ [Z_byte z].
Proof.
  rewrite /be_bytes -cons_seq reverse_cons map_app /= Z.div_1_r. f_equal.
  rewrite -seq_shift -map_rev_reverse map_map. apply map_ext. intros i. f_equal.
  rewrite Z.div_div; [|lia|lia]. f_equal. rewrite Nat2Z.inj_succ Z.pow_succ_r; lia.
Qed.

Lemma be_bytes_length n z : length (be_bytes n z) = n.
Proof. by rewrite /be_bytes length_map length_reverse length_seq. Qed.

Lemma from_be_bytes n z : 0 ≤ z < 256 ^ Z.of_nat n → from_be (be_bytes n z) = z.
Proof.
  revert z. induction n as [|n IH]; intros z; [simpl; rewrite /from_be /=; lia|].
  rewrite Nat2Z.inj_succ Z.pow_succ_r; [|lia]. intros Hz.
  rewrite be_bytes_S from_be_snoc IH; [|zlia]. rewrite byte_Z_of_Z /wrap8. zlia.
Qed.

Lemma be_bytes_from l : be_bytes (length l) (from_be l) = l.
Proof.
  induction l as [|b l IH] using rev_ind; [done|]. rewrite length_app /= Nat.add_1_r be_bytes_S from_be_snoc.
  pose proof (byte_Z_range b) as Hb. replace ((from_be l * 256 + byte_Z b) / 256) with (from_be l) by zlia.
  rewrite IH. f_equal. f_equal. apply (inj byte_Z). rewrite byte_Z_of_Z /wrap8. zlia.
Qed.

Lemma from_be_range l : 0 ≤ from_be l < 256 ^ Z.of_nat (length l).
Proof.
  induction l as [|b l IH] using rev_ind; [rewrite /from_be /=; lia|].
  rewrite length_app /= Nat.add_1_r Nat2Z.inj_succ Z.pow_succ_r; [|lia]. rewrite from_be_snoc.
  pose proof (byte_Z_range b). lia.
Qed.

(** ** Slices *)
Lemma slice_skip a b l r : (length l ≤ a)%nat → slice a b (l ++ r) = slice (a - length l) (b - length l) r.
Proof. intros H. rewrite /slice drop_app_ge //. f_equal. lia. Qed.
Lemma slice_here b l r : length l = b → slice 0 b (l ++ r) = l.
Proof. intros <-. by rewrite /slice Nat.sub_0_r drop_0 take_app_length. Qed.
Lemma slice_drop a b l : (a ≤ b)%nat → slice a b l ++ drop b l = drop a l.
Proof. intros H. rewrite /slice -{2}(take_drop (b - a) (drop a l)) drop_drop. f_equal. f_equal. lia. Qed.
Lemma header_slice_length a b l : (b ≤ length l)%nat → length (slice a b l) = (b - a)%nat.
Proof. intros H. rewrite /slice length_take length_drop. lia. Qed.

(** ** The header *)

(** What the fields of a header can hold in the source. *)
Definition header_wf (h : BridgeHeader) : Prop :=
  length (bh_session_id h) = 32%nat ∧ length (bh_channel_binding h) = 32%nat ∧
  0 ≤ bh_stream_id h ≤ u64_max ∧ 0 ≤ bh_port h ≤ u16_max ∧ ip_wf (bh_address h) ∧
  Forall (λ c, is_scalar c = true) (bh_hostname h).

Definition family (ip : IpAddress) : bytes := [match ip with V4 _ => Byte.x04 | V6 _ => Byte.x06 end].
Definition padded (ip : IpAddress) : bytes := ip_bytes ip ++ match ip with V4 _ => zeros 12 | V6 _ => [] end.

Definition fixed_part (h : BridgeHeader) : bytes :=
  HEADER_MAGIC ++ [Z_byte (bh_kind h)] ++ zeros 3 ++ bh_session_id h ++ be_bytes 8 (bh_stream_id h) ++
  family (bh_address h) ++ padded (bh_address h) ++ be_bytes 2 (bh_port h) ++
  be_bytes 2 (str_len (bh_hostname h)) ++ bh_channel_binding h.

Lemma encoded_parts h : encoded_header h = fixed_part h ++ str_bytes (bh_hostname h).
Proof.
  rewrite /encoded_header /fixed_part /family /padded /ip_bytes.
  destruct (bh_address h); by rewrite ?app_nil_r /= -?app_assoc /= -?app_assoc.
Qed.

Lemma concat_u16_length vs : length (concat (map u16_be vs)) = (2 * length vs)%nat.
Proof. induction vs; simpl in *; lia. Qed.

Lemma padded_length ip : ip_wf ip → length (padded ip) = 16%nat.
Proof.
  rewrite /padded /ip_bytes. destruct ip; simpl; intros [Hl _]; rewrite length_app.
  - by rewrite length_map Hl.
  - by rewrite concat_u16_length Hl.
Qed.

Lemma fixed_length h : header_wf h → length (fixed_part h) = HEADER_FIXED_BYTES.
Proof.
  intros (H1 & H2 & _ & _ & Hip & _). pose proof (padded_length _ Hip) as Hp. rewrite /fixed_part.
  generalize dependent (padded (bh_address h)). intros pd Hp. by rewrite !length_app !be_bytes_length Hp H1 H2.
Qed.

(** The slices of a fixed part are its fields. *)
Lemma slices m k z sid st fam ad po hl cb :
  length m = 8%nat → length k = 1%nat → length z = 3%nat → length sid = 32%nat → length st = 8%nat →
  length fam = 1%nat → length ad = 16%nat → length po = 2%nat → length hl = 2%nat → length cb = 32%nat →
  let l := m ++ k ++ z ++ sid ++ st ++ fam ++ ad ++ po ++ hl ++ cb in
  slice 0 8 l = m ∧ slice 8 9 l = k ∧ slice 9 12 l = z ∧ slice 12 44 l = sid ∧ slice 44 52 l = st ∧
  slice 52 53 l = fam ∧ slice 53 69 l = ad ∧ slice 69 71 l = po ∧ slice 71 73 l = hl ∧ slice 73 105 l = cb.
Proof.
  intros E1 E2 E3 E4 E5 E6 E7 E8 E9 E10 l. rewrite /l.
  split_and!; repeat lazymatch goal with
    | |- slice 0 _ (_ ++ _) = _ => by apply slice_here
    | |- slice 0 _ ?x = ?x => rewrite -{1}(app_nil_r x); by apply slice_here
    | |- slice _ _ (?x ++ _) = _ =>
        lazymatch goal with H : length x = _ |- _ => rewrite slice_skip H; [|lia]; cbn [Nat.sub] end
    end.
Qed.

Lemma family_address fixed ip :
  ip_wf ip → slice 52 53 fixed = family ip → slice 53 69 fixed = padded ip → header_address fixed = Ok ip.
Proof.
  intros Hw Hf Ha. rewrite /header_address Hf Ha.
  destruct ip as [octets|segments]; destruct Hw as [Hl Hr]; rewrite /family /padded /ip_bytes /=.
  - rewrite drop_app_length' ?length_map //. rewrite bool_decide_eq_true_2 //.
    rewrite take_app_length' ?length_map //=. do 2 f_equal. rewrite map_map -{2}(map_id octets).
    apply map_ext_Forall. eapply Forall_impl; [exact Hr|]. intros z Hz. rewrite byte_Z_of_Z /wrap8. by apply Z.mod_small.
  - by rewrite app_nil_r -{1}(app_nil_r (concat _)) be_segments_bytes // app_nil_r.
Qed.

(** The other way: the address it is is the address that is written. *)
Lemma header_address_inv fixed ip :
  length fixed = HEADER_FIXED_BYTES → header_address fixed = Ok ip →
  ip_wf ip ∧ slice 52 53 fixed = family ip ∧ slice 53 69 fixed = padded ip.
Proof.
  intros Hl. rewrite /header_address.
  assert (length (slice 53 69 fixed) = 16%nat) as H16 by (apply header_slice_length; rewrite Hl; by apply Nat.leb_le).
  assert (length (slice 52 53 fixed) = 1%nat) as H1 by (apply header_slice_length; rewrite Hl; by apply Nat.leb_le).
  assert (∀ k, from_be (slice 52 53 fixed) = k → slice 52 53 fixed = [Z_byte k]) as Hfam.
  { intros k <-. destruct (slice 52 53 fixed) as [|x [|]]; try done. by rewrite /from_be /= Z_byte_of_byte. }
  case_match eqn:E4.
  - to_prop. intros [= <-]. split_and!.
    + rewrite /= length_map length_take H16. split; [done|]. apply Forall_map, Forall_forall.
      intros x _. apply byte_Z_range.
    + by rewrite (Hfam 4).
    + rewrite /padded /ip_bytes map_map. rewrite -{1}(take_drop 4 (slice 53 69 fixed)). f_equal; [|done].
      rewrite -{1}(map_id (take 4 _)). apply map_ext. intros x. by rewrite Z_byte_of_byte.
  - case_match eqn:E6; [|done]. to_prop. intros [= <-].
    destruct (be_segments_inv 8 (slice 53 69 fixed)) as (E1 & E2 & E3); [done|].
    split_and!; [by split|by rewrite (Hfam 6)|]. by rewrite /padded /ip_bytes E1 app_nil_r.
Qed.

Lemma validate_hostname_len s : validate_hostname s = Ok () → 0 < str_len s ≤ HOSTNAME_BYTES_MAX.
Proof.
  rewrite /validate_hostname. case_match eqn:E; [done|]. to_prop. intros _. split; [|done].
  destruct s as [|c s]; [done|]. rewrite /str_len /str_bytes /= len_app.
  pose proof (len_nonneg (concat (map utf8_encode_char s))).
  assert (0 < len (utf8_encode_char c)); [|lia]. rewrite /utf8_encode_char. by repeat case_match.
Qed.

Lemma kind_byte h : header_validate h = Ok () → from_be [Z_byte (bh_kind h)] = bh_kind h.
Proof.
  rewrite /header_validate. case_match; [|done]. case_match eqn:E; [done|]. to_prop.
  assert (bh_kind h = KIND_SESSION ∨ bh_kind h = KIND_STREAM) as [-> | ->]; [|reflexivity..].
  destruct (bh_kind h =? KIND_SESSION) eqn:E1; to_prop; [by left|]. simpl in *. to_prop. by right.
Qed.

Lemma header_read_encoded h rest :
  header_wf h → header_validate h = Ok () → header_read (encoded_header h ++ rest) = Ok (h, rest).
Proof.
  intros Hw Hv. pose proof (fixed_length h Hw) as Hlen. rewrite encoded_parts -app_assoc.
  destruct Hw as (H1 & H2 & H3 & H4 & Hip & Hs). pose proof (kind_byte h Hv) as Hk.
  assert (0 < str_len (bh_hostname h) ≤ HOSTNAME_BYTES_MAX) as Hhost.
  { revert Hv. rewrite /header_validate. destruct (validate_hostname _) as [[]|] eqn:E; [|done]. intros _.
    by apply validate_hostname_len. }
  rewrite /header_read length_app Hlen. rewrite (proj2 (Nat.ltb_ge _ _)); [|lia].
  rewrite take_app_length' // drop_app_length' //.
  destruct (slices HEADER_MAGIC [Z_byte (bh_kind h)] (zeros 3) (bh_session_id h) (be_bytes 8 (bh_stream_id h))
    (family (bh_address h)) (padded (bh_address h)) (be_bytes 2 (bh_port h))
    (be_bytes 2 (str_len (bh_hostname h))) (bh_channel_binding h)) as (E1 & E2 & E3 & E4 & E5 & E6 & E7 & E8 & E9 & E10);
    [done|done|done|done|apply be_bytes_length|done|by apply padded_length|apply be_bytes_length|
     apply be_bytes_length|done|].
  fold (fixed_part h) in E1, E2, E3, E4, E5, E6, E7, E8, E9, E10.
  rewrite E1 E3 !bool_decide_eq_true_2 //= E2 E4 E5 E8 E9 E10.
  rewrite (family_address _ _ Hip E6 E7) !from_be_bytes; [|unfold HOSTNAME_BYTES_MAX, u64_max, u16_max in *; simpl; lia..].
  rewrite (proj2 (Z.eqb_neq _ _)); [|lia]. rewrite (proj2 (Z.ltb_ge HOSTNAME_BYTES_MAX _)); [|lia].
  assert (Z.to_nat (str_len (bh_hostname h)) = length (str_bytes (bh_hostname h))) as Hn.
  { rewrite /str_len /len. lia. }
  rewrite len_app (proj2 (Z.ltb_ge _ _)); [|pose proof (len_nonneg rest); rewrite /str_len; lia].
  rewrite Hn take_app_length drop_app_length from_utf8_str_bytes //= Hk.
  destruct h; simpl in *. by rewrite Hv.
Qed.

Lemma cut_fixed l :
  length l = HEADER_FIXED_BYTES →
  l = slice 0 8 l ++ slice 8 9 l ++ slice 9 12 l ++ slice 12 44 l ++ slice 44 52 l ++ slice 52 53 l ++
      slice 53 69 l ++ slice 69 71 l ++ slice 71 73 l ++ slice 73 105 l.
Proof.
  intros Hl. assert (∀ a b, (a ≤ b)%nat → drop a l = slice a b l ++ drop b l) as H.
  { intros. by rewrite slice_drop. }
  trans (drop 0 l); [done|]. rewrite (H 0 8)%nat; [|lia]. rewrite (H 8 9)%nat; [|lia]. rewrite (H 9 12)%nat; [|lia].
  rewrite (H 12 44)%nat; [|lia]. rewrite (H 44 52)%nat; [|lia]. rewrite (H 52 53)%nat; [|lia].
  rewrite (H 53 69)%nat; [|lia]. rewrite (H 69 71)%nat; [|lia]. rewrite (H 71 73)%nat; [|lia].
  rewrite (H 73 105)%nat; [|lia]. rewrite (drop_ge l 105) ?app_nil_r //. by rewrite Hl.
Qed.

Lemma header_read_inv input h rest :
  header_read input = Ok (h, rest) → header_wf h ∧ header_validate h = Ok () ∧ input = encoded_header h ++ rest.
Proof.
  rewrite /header_read. case_match eqn:El; [done|]. apply Nat.ltb_ge in El.
  assert (length (take HEADER_FIXED_BYTES input) = HEADER_FIXED_BYTES) as Hl by (rewrite length_take; lia).
  pose proof (take_drop HEADER_FIXED_BYTES input) as Hin. revert Hl Hin.
  generalize (take HEADER_FIXED_BYTES input) (drop HEADER_FIXED_BYTES input). intros fixed tail Hl Hin.
  case_match eqn:Em; [done|]. to_prop. destruct (header_address fixed) as [ip|] eqn:Ea; [|done].
  case_match eqn:En; [done|]. case_match eqn:Et; [done|]. to_prop.
  destruct (from_utf8 _) as [host|] eqn:Eu; cbn [map_err]; [|done].
  destruct (header_validate _) as [[]|] eqn:Ev; [|done]. intros [= <- <-].
  destruct (header_address_inv _ _ Hl Ea) as (Hip & Hfam & Hpad). destruct (from_utf8_inv _ _ Eu) as [Hhost Hsc].
  assert (∀ a b, (b ≤ 105)%nat → length (slice a b fixed) = (b - a)%nat) as Hlen.
  { intros a b Hb. apply header_slice_length. by rewrite Hl. }
  assert (∀ a b, (b ≤ 105)%nat → be_bytes (b - a) (from_be (slice a b fixed)) = slice a b fixed) as Hbe.
  { intros a b Hb. by rewrite -(Hlen a b Hb) be_bytes_from. }
  assert (∀ a b, (b ≤ 105)%nat → 0 ≤ from_be (slice a b fixed) < 256 ^ Z.of_nat (b - a)) as Hr.
  { intros a b Hb. rewrite -(Hlen a b Hb). apply from_be_range. }
  assert (str_len host = from_be (slice 71 73 fixed)) as Hsl.
  { rewrite /str_len Hhost len_take. pose proof (Hr 71%nat 73%nat). lia. }
  split; [|split; [done|]].
  - pose proof (Hr 44%nat 52%nat). pose proof (Hr 69%nat 71%nat). rewrite /header_wf /=.
    split_and!; try done; try (apply Hlen; lia); unfold u64_max, u16_max; simpl in *; lia.
  - rewrite -Hin encoded_parts -app_assoc. cbn [bh_hostname]. rewrite Hhost take_drop. f_equal.
    rewrite /fixed_part. cbn [bh_kind bh_session_id bh_stream_id bh_address bh_port bh_hostname bh_channel_binding].
    rewrite Hsl -Hfam -Hpad (Hbe 44%nat 52%nat) ?(Hbe 69%nat 71%nat) ?(Hbe 71%nat 73%nat); [|lia..].
    assert ([Z_byte (from_be (slice 8 9 fixed))] = slice 8 9 fixed) as ->.
    { rewrite -{2}(Hbe 8%nat 9%nat); [|lia]. by rewrite /be_bytes /= Z.div_1_r. }
    rewrite -H -H0. by apply cut_fixed.
Qed.

(** A connection's header is read exactly when it is the encoding of a valid
    header, and that header is the only one it can be: no other bytes are
    accepted for it, and what follows is left for the stream. *)
Theorem header_canonical input h rest :
  header_read input = Ok (h, rest) ↔
  header_wf h ∧ header_validate h = Ok () ∧ input = encoded_header h ++ rest.
Proof.
  split; [apply header_read_inv|]. intros (Hw & Hv & ->). by apply header_read_encoded.
Qed.

(** ** Over any interleaving *)
Section reachable.
Variable cfg : FrontdoorBridgeConfig.

(** The connection came from the front door's user and said so. *)
Definition authorised (b : Bridge) (id : nat) (h : BridgeHeader) : Prop :=
  ∃ p rest, br_peers b !! id = Some p ∧ pe_uid p = Ok (frontdoor_uid cfg) ∧
    header_read (pe_input p) = Ok (h, rest) ∧ bh_hostname h = fd_hostname cfg.

Definition joins (e h : BridgeHeader) : Prop :=
  same_origin e h = true ∧ bh_session_id h = bh_session_id e.

(** Connection [c] holds, or is, a stream of session [s]. *)
Definition claim (b : Bridge) (s c : nat) (h : BridgeHeader) : Prop :=
  br_handshakes b !! c = Some (HReserve h s) ∨ br_handshakes b !! c = Some (HAckStream h s) ∨
  ∃ ss, br_sessions b !! s = Some ss ∧ (c, h) ∈ ss_taken ss ++ ss_streams ss.

Definition phase_ok (b : Bridge) (id : nat) (p : Phase) : Prop :=
  match p with
  | HReading => br_sessions b !! id = None
  | HInsert h => br_sessions b !! id = None ∧ authorised b id h
  | HAckSession h =>
      (∃ e, br_entries b !! bh_session_id h = Some e ∧ se_streams e = id) ∧
      ∃ ss, br_sessions b !! id = Some ss ∧ ss_header ss = h ∧ ss_control ss = false
  | HReserve _ _ | HAckStream _ _ => True
  end.

Record bridge_inv (b : Bridge) : Prop := {
  bi_peers id : is_Some (br_peers b !! id) → (id < br_next b)%nat;
  bi_handshakes id : is_Some (br_handshakes b !! id) → is_Some (br_peers b !! id);
  bi_phase id p : br_handshakes b !! id = Some p → phase_ok b id p;
  bi_entries sid e : br_entries b !! sid = Some e →
    ∃ ss, br_sessions b !! se_streams e = Some ss ∧ ss_header ss = se_header e ∧
      bh_session_id (se_header e) = sid;
  bi_sessions s ss : br_sessions b !! s = Some ss →
    authorised b s (ss_header ss) ∧
    (ss_control ss = true → ∃ e, br_entries b !! bh_session_id (ss_header ss) = Some e ∧ se_streams e = s);
  bi_claims s c h : claim b s c h →
    authorised b c h ∧ (∃ ss, br_sessions b !! s = Some ss ∧ joins (ss_header ss) h) ∧
    ∀ sid e, br_entries b !! sid = Some e → se_streams e = s → bh_stream_id h < se_next_stream_id e;
  bi_unique s c c' h h' : claim b s c h → claim b s c' h' → bh_stream_id h = bh_stream_id h' → c = c';
  bi_once s ss : br_sessions b !! s = Some ss →
    NoDup (ss_taken ss ++ ss_streams ss).*1 ∧
    ∀ c, c ∈ (ss_taken ss ++ ss_streams ss).*1 → br_handshakes b !! c = None;
  bi_queue id : id ∈ br_queue b ++ br_accepted b → is_Some (br_sessions b !! id);
}.

Lemma bridge_new_inv : bridge_inv bridge_new.
Proof.
  assert (∀ s c h, ¬ claim bridge_new s c h) as Hc.
  { intros s c h [H|[H|(ss & H & _)]]; by rewrite lookup_empty in H. }
  split; intros *; simpl; rewrite ?lookup_empty; try done; try by intros [].
  - by intros ?%Hc.
  - by intros ?%Hc.
  - by intros ?%not_elem_of_nil.
Qed.

(** Fewer connections under way change nothing for the others. *)
Lemma end_handshake_inv b id : bridge_inv b → bridge_inv (end_handshake b id).
Proof.
  intros I. assert (∀ c p, br_handshakes (end_handshake b id) !! c = Some p → br_handshakes b !! c = Some p) as Hs.
  { intros c p. simpl. by intros [_ ?]%lookup_delete_Some. }
  assert (∀ s c h, claim (end_handshake b id) s c h → claim b s c h) as Hc.
  { intros s c h [H|[H|H]]; [left|right; left|by right; right]; by apply Hs. }
  split.
  - apply (bi_peers _ I).
  - intros c [p Hp%Hs]. apply (bi_handshakes _ I). by eexists.
  - intros c p Hp%Hs. apply (bi_phase _ I) in Hp. by destruct p.
  - apply (bi_entries _ I).
  - apply (bi_sessions _ I).
  - intros s c h Hk%Hc. by apply (bi_claims _ I).
  - intros s c c' h h' H1%Hc H2%Hc. by eapply (bi_unique _ I).
  - intros s ss Hss. destruct (bi_once _ I s ss Hss) as [Hn Hd]. split; [done|]. intros c Hin.
    simpl. apply lookup_delete_None. right. by apply Hd.
  - apply (bi_queue _ I).
Qed.

(** A connection that goes on, holding nothing of a session. *)
Lemma set_phase_inv b id p :
  bridge_inv b → is_Some (br_handshakes b !! id) → (∀ h s, p ≠ HReserve h s ∧ p ≠ HAckStream h s) →
  phase_ok b id p → bridge_inv (set_phase b id p).
Proof.
  intros I Hid Hp Hok. assert (∀ s c h, claim (set_phase b id p) s c h → claim b s c h) as Hc.
  { intros s c h [H|[H|H]]; [| |by right; right]; simpl in H; apply lookup_insert_Some in H as [[_ H]|[_ H]];
      try (by destruct (Hp h s)); [by left|by right; left]. }
  split.
  - apply (bi_peers _ I).
  - intros c. simpl. destruct (decide (c = id)) as [->|Hne]; [by intros _; apply (bi_handshakes _ I)|].
    rewrite lookup_insert_ne //. apply (bi_handshakes _ I).
  - intros c q. simpl. intros [[<- <-]|[_ Hq]]%lookup_insert_Some; [by destruct p|].
    apply (bi_phase _ I) in Hq. by destruct q.
  - apply (bi_entries _ I).
  - apply (bi_sessions _ I).
  - intros s c h Hk%Hc. by apply (bi_claims _ I).
  - intros s c c' h h' H1%Hc H2%Hc. by eapply (bi_unique _ I).
  - intros s ss Hss. destruct (bi_once _ I s ss Hss) as [Hn Hd]. split; [done|]. intros c Hin.
    simpl. rewrite lookup_insert_ne; [by apply Hd|]. intros <-. rewrite (Hd _ Hin) in Hid. by destruct Hid.
  - apply (bi_queue _ I).
Qed.

(** A session whose streams and identity stay. *)
Lemma session_inv b id ss ss' :
  bridge_inv b → br_sessions b !! id = Some ss → ss_header ss' = ss_header ss →
  ss_taken ss' ++ ss_streams ss' = ss_taken ss ++ ss_streams ss →
  (ss_control ss' = true →
     (∃ e, br_entries b !! bh_session_id (ss_header ss) = Some e ∧ se_streams e = id) ∧
     ∀ h, br_handshakes b !! id ≠ Some (HAckSession h)) →
  bridge_inv (with_sessions b (<[id := ss']> (br_sessions b))).
Proof.
  intros I Hss Hh Hl Hcon. set (b' := with_sessions b _).
  assert (∀ s, is_Some (br_sessions b !! s) → is_Some (br_sessions b' !! s)) as Hin.
  { intros s Hs. simpl. destruct (decide (s = id)) as [->|]; [by rewrite lookup_insert_eq; eexists|by rewrite lookup_insert_ne]. }
  assert (∀ s x, br_sessions b' !! s = Some x → ∃ y, br_sessions b !! s = Some y ∧ ss_header x = ss_header y ∧
    ss_taken x ++ ss_streams x = ss_taken y ++ ss_streams y ∧ (s ≠ id → x = y) ∧ (s = id → x = ss' ∧ y = ss)) as Hback.
  { intros s x. simpl. intros [[<- <-]|[Hne Hx]]%lookup_insert_Some; [by exists ss|by exists x]. }
  assert (∀ s y, br_sessions b !! s = Some y → ∃ x, br_sessions b' !! s = Some x ∧ ss_header x = ss_header y) as Hfwd.
  { intros s y Hy. simpl. destruct (decide (s = id)) as [->|].
    - rewrite lookup_insert_eq. exists ss'. rewrite Hss in Hy. by injection Hy as <-.
    - rewrite lookup_insert_ne //. by exists y. }
  assert (∀ s c h, claim b' s c h → claim b s c h) as Hc.
  { intros s c h [H|[H|(x & Hx & Hi)]]; [by left|by right; left|right; right].
    destruct (Hback _ _ Hx) as (y & Hy & _ & Hs & _). exists y. by rewrite -Hs. }
  split.
  - apply (bi_peers _ I).
  - apply (bi_handshakes _ I).
  - intros c p Hp. pose proof (bi_phase _ I _ _ Hp) as Hk. destruct p as [|h|h|h s|h s]; try done; simpl in Hk |- *.
    + rewrite lookup_insert_ne //. intros <-. by rewrite Hss in Hk.
    + rewrite lookup_insert_ne //. intros <-. rewrite Hss in Hk. by destruct Hk.
    + destruct Hk as [He (x & Hx & Hxh & Hxc)]. split; [done|]. destruct (decide (c = id)) as [->|].
      * rewrite lookup_insert_eq. exists ss'. rewrite Hss in Hx. injection Hx as <-. split_and!; [done|by rewrite Hh|].
        destruct (ss_control ss') eqn:Ec; [|done]. by destruct (Hcon eq_refl) as [_ []%(λ H, H h)].
      * rewrite lookup_insert_ne //. by exists x.
  - intros sid e He. destruct (bi_entries _ I _ _ He) as (y & Hy & Hyh & Hs).
    destruct (Hfwd _ _ Hy) as (x & Hx & Hxh). exists x. by rewrite Hxh.
  - intros s x Hx. destruct (Hback _ _ Hx) as (y & Hy & Hyh & _ & Hne & Heq). rewrite Hyh.
    destruct (bi_sessions _ I _ _ Hy) as [Ha Hk]. split; [done|]. intros Hxc.
    destruct (decide (s = id)) as [->|Hn]; [destruct (Heq eq_refl) as [-> ->]; by apply Hcon|].
    rewrite (Hne Hn) in Hxc. by apply Hk.
  - intros s c h Hk%Hc. destruct (bi_claims _ I _ _ _ Hk) as (Ha & (y & Hy & Hj) & Hn). split_and!; [done| |done].
    destruct (Hfwd _ _ Hy) as (x & Hx & Hxh). exists x. by rewrite Hxh.
  - intros s c c' h h' H1%Hc H2%Hc. by eapply (bi_unique _ I).
  - intros s x Hx. destruct (Hback _ _ Hx) as (y & Hy & _ & Hs & _). rewrite Hs. by apply (bi_once _ I s).
  - intros c Hq. by apply Hin, (bi_queue _ I).
Qed.

Lemma alter_session_inv b id f :
  bridge_inv b →
  (∀ ss, br_sessions b !! id = Some ss → ss_header (f ss) = ss_header ss ∧
     ss_taken (f ss) ++ ss_streams (f ss) = ss_taken ss ++ ss_streams ss ∧
     (ss_control (f ss) = true →
       (∃ e, br_entries b !! bh_session_id (ss_header ss) = Some e ∧ se_streams e = id) ∧
       ∀ h, br_handshakes b !! id ≠ Some (HAckSession h))) →
  bridge_inv (with_sessions b (alter f id (br_sessions b))).
Proof.
  intros I Hf. destruct (br_sessions b !! id) as [ss|] eqn:Es.
  - replace (alter f id (br_sessions b)) with (<[id := f ss]> (br_sessions b)).
    + destruct (Hf ss eq_refl) as (H1 & H2 & H3). by eapply session_inv.
    + apply map_eq. intros j. destruct (decide (j = id)) as [->|].
      * by rewrite lookup_insert_eq lookup_alter_eq Es.
      * by rewrite lookup_insert_ne // lookup_alter_ne.
  - replace (alter f id (br_sessions b)) with (br_sessions b); [by destruct b|].
    apply map_eq. intros j. destruct (decide (j = id)) as [->|]; [by rewrite lookup_alter_eq Es|by rewrite lookup_alter_ne].
Qed.

(** A receiver that is dropped. *)
Lemma drop_receiver_inv b id :
  bridge_inv b → bridge_inv (with_sessions b (alter (λ s, set_receiver s false) id (br_sessions b))).
Proof.
  intros I. apply alter_session_inv; [done|]. intros ss Hss. split_and!; [done..|]. simpl. intros Hc.
  destruct (bi_sessions _ I _ _ Hss) as [_ Hk]. split; [by apply Hk|]. intros h Hh.
  destruct (bi_phase _ I _ _ Hh) as [_ (x & Hx & _ & Hf)]. congruence.
Qed.

Lemma queue_inv b q a :
  bridge_inv b → (∀ id, id ∈ q ++ a → is_Some (br_sessions b !! id)) → bridge_inv (with_queue b q a).
Proof. intros [] Hq. by split. Qed.

(** An entry that nobody needs. *)
Lemma delete_entry_inv b sid :
  bridge_inv b → (∀ c h, br_handshakes b !! c = Some (HAckSession h) → bh_session_id h ≠ sid) →
  (∀ s ss, br_sessions b !! s = Some ss → ss_control ss = true → bh_session_id (ss_header ss) ≠ sid) →
  bridge_inv (with_entries b (delete sid (br_entries b))).
Proof.
  intros I Hh Hc. assert (∀ k e, delete sid (br_entries b) !! k = Some e → br_entries b !! k = Some e) as Hs.
  { by intros k e [_ ?]%lookup_delete_Some. }
  split.
  - apply (bi_peers _ I).
  - apply (bi_handshakes _ I).
  - intros c p Hp. pose proof (bi_phase _ I _ _ Hp) as Hk. destruct p as [|h|h|h s|h s]; try done.
    destruct Hk as [(e & He & Hse) Hx]. split; [|done]. exists e. simpl. rewrite lookup_delete_ne //.
    apply not_eq_sym. by eapply Hh.
  - intros k e He%Hs. by apply (bi_entries _ I).
  - intros s ss Hss. destruct (bi_sessions _ I _ _ Hss) as [Ha Hk]. split; [done|]. intros Hcon.
    destruct (Hk Hcon) as (e & He & Hse). exists e. simpl. rewrite lookup_delete_ne //. apply not_eq_sym. by eapply Hc.
  - intros s c h Hk. destruct (bi_claims _ I _ _ _ Hk) as (Ha & Hj & Hn). split_and!; [done..|].
    intros k e He%Hs. by eapply Hn.
  - apply (bi_unique _ I).
  - apply (bi_once _ I).
  - apply (bi_queue _ I).
Qed.

Lemma on_control_inv b id b' : bridge_inv b → on_control b id = Some b' → bridge_inv b'.
Proof.
  intros I. rewrite /on_control. destruct (br_sessions b !! id) as [ss|] eqn:Es; [|done].
  destruct (ss_control ss) eqn:Ec; [|done]. intros [= <-].
  destruct (bi_sessions _ I _ _ Es) as [_ Hk]. destruct (Hk Ec) as (e & He & Hse).
  assert (bridge_inv (with_sessions b (<[id := set_control ss false true]> (br_sessions b)))) as I'.
  { by eapply session_inv. }
  apply (delete_entry_inv _ (bh_session_id (ss_header ss)) I').
  - intros c h Hc Heq. destruct (bi_phase _ I _ _ Hc) as [(e' & He' & Hse') (x & Hx & Hxh & Hxc)].
    rewrite Heq He in He'. injection He' as <-. rewrite Hse in Hse'. subst c. congruence.
  - intros s x. simpl. intros [[<- <-]|[Hne Hx]]%lookup_insert_Some; [done|]. intros Hxc Heq.
    destruct (bi_sessions _ I _ _ Hx) as [_ Hk']. destruct (Hk' Hxc) as (e' & He' & Hse').
    rewrite Heq He in He'. injection He' as <-. congruence.
Qed.

(** A stream that is handed over: the claim moves into the session's queue. *)
Lemma deliver_inv b id h s ss :
  bridge_inv b → br_handshakes b !! id = Some (HAckStream h s) → br_sessions b !! s = Some ss →
  bridge_inv (with_sessions (end_handshake b id)
    (<[s := set_streams ss (ss_streams ss ++ [(id, h)]) (ss_taken ss)]> (br_sessions b))).
Proof.
  intros I Hid Hss. set (b' := with_sessions _ _). set (ss' := set_streams ss (ss_streams ss ++ [(id, h)]) (ss_taken ss)).
  assert (∀ c p, br_handshakes b' !! c = Some p → c ≠ id ∧ br_handshakes b !! c = Some p) as Hs.
  { intros c p. simpl. by intros [? ?]%lookup_delete_Some. }
  assert (claim b s id h) as Hme by (by right; left).
  assert (∀ t c k, claim b' t c k → claim b t c k) as Hc.
  { intros t c k [[_ H]%Hs|[[_ H]%Hs|(x & Hx & Hi)]]; [by left|by right; left|].
    simpl in Hx. apply lookup_insert_Some in Hx as [[<- <-]|[Hne Hx]]; [|by right; right; exists x].
    simpl in Hi. rewrite app_assoc in Hi. apply elem_of_app in Hi as [Hi|Hi]; [by right; right; exists ss|].
    apply list_elem_of_singleton in Hi as [= -> ->]. done. }
  assert (∀ t y, br_sessions b !! t = Some y → ∃ x, br_sessions b' !! t = Some x ∧ ss_header x = ss_header y ∧
    ss_control x = ss_control y) as Hfwd.
  { intros t y Hy. simpl. destruct (decide (t = s)) as [->|].
    - rewrite lookup_insert_eq. exists ss'. rewrite Hss in Hy. by injection Hy as <-.
    - rewrite lookup_insert_ne //. by exists y. }
  assert (∀ t, br_sessions b !! t = None → br_sessions b' !! t = None) as Hnone.
  { intros t Ht. simpl. rewrite lookup_insert_ne //. intros <-. by rewrite Hss in Ht. }
  split.
  - apply (bi_peers _ I).
  - intros c [p [_ Hp]%Hs]. apply (bi_handshakes _ I). by eexists.
  - intros c p [_ Hp]%Hs. pose proof (bi_phase _ I _ _ Hp) as Hk. destruct p as [|k|k|k u|k u]; try done.
    + by apply Hnone.
    + destruct Hk as [? ?]. split; [by apply Hnone|done].
    + destruct Hk as [He (y & Hy & Hyh & Hyc)]. split; [done|]. destruct (Hfwd _ _ Hy) as (x & Hx & Hxh & Hxc).
      exists x. by rewrite Hxh Hxc.
  - intros sid e He. destruct (bi_entries _ I _ _ He) as (y & Hy & Hyh & Hsid).
    destruct (Hfwd _ _ Hy) as (x & Hx & Hxh & _). exists x. by rewrite Hxh.
  - intros t x. simpl. intros [[<- <-]|[Hne Hx]]%lookup_insert_Some; [exact (bi_sessions _ I _ _ Hss)|exact (bi_sessions _ I _ _ Hx)].
  - intros t c k Hk%Hc. destruct (bi_claims _ I _ _ _ Hk) as (Ha & (y & Hy & Hj) & Hn). split_and!; [done| |done].
    destruct (Hfwd _ _ Hy) as (x & Hx & Hxh & _). exists x. by rewrite Hxh.
  - intros t c c' k k' H1%Hc H2%Hc. by eapply (bi_unique _ I).
  - intros t x. simpl. intros [[<- <-]|[Hne Hx]]%lookup_insert_Some.
    + destruct (bi_once _ I _ _ Hss) as [Hn Hd]. simpl. rewrite app_assoc fmap_app /=. split.
      * apply NoDup_app. split_and!; [done| |apply NoDup_singleton]. intros c Hin Hs1. apply list_elem_of_singleton in Hs1 as ->.
        by rewrite (Hd _ Hin) in Hid.
      * intros c. rewrite elem_of_app list_elem_of_singleton. rewrite lookup_delete_None.
        intros [Hin|Heq]; [right; by apply Hd|by left].
    + destruct (bi_once _ I _ _ Hx) as [Hn Hd]. split; [done|]. intros c Hin. apply lookup_delete_None. right. by apply Hd.
  - intros c Hq. destruct (bi_queue _ I c Hq) as [y Hy]. destruct (Hfwd _ _ Hy) as (x & Hx & _). by exists x.
Qed.

Lemma on_ack_inv b id written b' : bridge_inv b → on_ack b id written = Some b' → bridge_inv b'.
Proof.
  intros I. rewrite /on_ack. destruct (br_handshakes b !! id) as [[|h|h|h s|h s]|] eqn:Eh; try done; intros [= <-].
  - pose proof (end_handshake_inv b id I) as I1.
    destruct (bi_phase _ I _ _ Eh) as [(e & He & Hse) (x & Hx & Hxh & Hxc)]. destruct written.
    + apply (queue_inv (with_sessions (end_handshake b id) _)).
      * apply (alter_session_inv (end_handshake b id)); [done|]. intros y Hy. simpl in Hy.
        rewrite Hx in Hy. injection Hy as <-. split_and!; [done..|]. intros _. split; [exists e; by rewrite Hxh|].
        intros k. simpl. by rewrite lookup_delete_eq.
      * intros c. simpl. rewrite -app_assoc. intros Hc. destruct (decide (c = id)) as [->|Hne].
        -- rewrite lookup_alter_eq Hx. by eexists.
        -- rewrite lookup_alter_ne //. apply (bi_queue _ I).
           rewrite !elem_of_app in Hc |- *. destruct Hc as [Hc|[Hc|Hc]]; [by left|by apply list_elem_of_singleton in Hc|by right].
    + pose proof (drop_receiver_inv _ id I1) as I2. apply (delete_entry_inv _ (bh_session_id h) I2).
      * intros c k. simpl. intros [Hne Hc]%lookup_delete_Some Heq.
        destruct (bi_phase _ I _ _ Hc) as [(e' & He' & Hse') _]. rewrite Heq He in He'. injection He' as <-. congruence.
      * intros t y. simpl. destruct (decide (t = id)) as [->|Hne].
        -- rewrite lookup_alter_eq Hx. intros [= <-]. simpl. congruence.
        -- rewrite lookup_alter_ne //. intros Hy Hyc Heq. destruct (bi_sessions _ I _ _ Hy) as [_ Hk].
           destruct (Hk Hyc) as (e' & He' & Hse'). rewrite Heq He in He'. injection He' as <-. congruence.
  - destruct written; [|by apply end_handshake_inv]. simpl.
    destruct (br_sessions b !! s) as [ss|] eqn:Es.
    + destruct (ss_receiver ss) eqn:Er.
      * pose proof (deliver_inv _ _ _ _ _ I Eh Es) as I'. revert I'. rewrite /with_sessions /=.
        replace (alter _ s (br_sessions b)) with
          (<[s := set_streams ss (ss_streams ss ++ [(id, h)]) (ss_taken ss)]> (br_sessions b)); [done|].
        apply map_eq. intros j. destruct (decide (j = s)) as [->|].
        -- by rewrite lookup_insert_eq lookup_alter_eq Es /= Er.
        -- by rewrite lookup_insert_ne // lookup_alter_ne.
      * apply (alter_session_inv (end_handshake b id)); [by apply end_handshake_inv|]. simpl. intros y Hy.
        rewrite Es in Hy. injection Hy as <-. rewrite Er. split_and!; [done..|]. intros Hc.
        destruct (bi_sessions _ I _ _ Es) as [_ Hk]. split; [by apply Hk|]. intros k [_ Hp]%lookup_delete_Some.
        destruct (bi_phase _ I _ _ Hp) as [_ (z & Hz & _ & Hf)]. congruence.
    + apply (alter_session_inv (end_handshake b id)); [by apply end_handshake_inv|]. simpl. by rewrite Es.
Qed.

Lemma on_timeout_inv b id b' : bridge_inv b → on_timeout b id = Some b' → bridge_inv b'.
Proof.
  intros I. rewrite /on_timeout. destruct (br_handshakes b !! id) as [p|]; [|done].
  pose proof (end_handshake_inv b id I) as I1. intros [= <-]. destruct p; try done. exact (drop_receiver_inv _ id I1).
Qed.

(** A claim from one stage to the next. *)
Lemma on_reserve_inv b id b' : bridge_inv b → on_reserve cfg b id = Some b' → bridge_inv b'.
Proof.
  intros I. rewrite /on_reserve. destruct (br_handshakes b !! id) as [[|h|h|h s|h s]|] eqn:Eh; try done. intros [= <-].
  destruct (br_sessions b !! s) as [ss|]; [|by apply end_handshake_inv].
  case_match; [|by apply end_handshake_inv].
  assert (∀ t c k, claim (set_phase b id (HAckStream h s)) t c k → claim b t c k) as Hc.
  { intros t c k [Hk|[Hk|Hk]]; [| |by right; right]; simpl in Hk;
      apply lookup_insert_Some in Hk as [[<- Heq]|[_ Hk]]; try done; [by left|by injection Heq as <- <-; left|by right; left]. }
  split.
  - apply (bi_peers _ I).
  - intros c. simpl. destruct (decide (c = id)) as [->|Hne]; [intros _; apply (bi_handshakes _ I); by eexists|].
    rewrite lookup_insert_ne //. apply (bi_handshakes _ I).
  - intros c q. simpl. intros [[<- <-]|[_ Hq]]%lookup_insert_Some; [done|].
    apply (bi_phase _ I) in Hq. by destruct q.
  - apply (bi_entries _ I).
  - apply (bi_sessions _ I).
  - intros t c k Hk%Hc. by apply (bi_claims _ I).
  - intros t c c' k k' H1%Hc H2%Hc. by eapply (bi_unique _ I).
  - intros t x Hx. destruct (bi_once _ I _ _ Hx) as [Hn Hd]. split; [done|]. intros c Hin.
    simpl. rewrite lookup_insert_ne; [by apply Hd|]. intros <-. by rewrite (Hd _ Hin) in Eh.
  - apply (bi_queue _ I).
Qed.

(** A stream takes the next number of its session. *)
Lemma take_number_inv b id h :
  bridge_inv b → br_handshakes b !! id = Some HReading → authorised b id h → bridge_inv (take_number b id h).
Proof.
  intros I Hid Ha. rewrite /take_number. destruct (br_entries b !! bh_session_id h) as [e|] eqn:Ee; [|by apply end_handshake_inv].
  case_match eqn:Ec; [by apply end_handshake_inv|]. to_prop. destruct (checked_add64 _ 1) as [next|] eqn:En; [|by apply end_handshake_inv].
  assert (next = se_next_stream_id e + 1) as -> by (revert En; rewrite /checked_add64; case_match; [by intros [= <-]|done]).
  set (e' := {| se_header := se_header e; se_streams := se_streams e; se_next_stream_id := se_next_stream_id e + 1 |}).
  set (b' := set_phase _ _ _). destruct (bi_entries _ I _ _ Ee) as (ss & Hss & Hssh & Hsid).
  assert (∀ k x, br_entries b' !! k = Some x → ∃ y, br_entries b !! k = Some y ∧ se_header x = se_header y ∧
    se_streams x = se_streams y ∧ se_next_stream_id y ≤ se_next_stream_id x ∧
    (k = bh_session_id h → se_next_stream_id x = se_next_stream_id e + 1)) as Hback.
  { intros k x. simpl. intros [[<- <-]|[Hne Hx]]%lookup_insert_Some; [exists e; simpl; split_and!; [done..|lia|done]|].
    exists x. split_and!; [done..|lia|]. by intros ->. }
  assert (∀ k y, br_entries b !! k = Some y → ∃ x, br_entries b' !! k = Some x ∧ se_streams x = se_streams y) as Hfwd.
  { intros k y Hy. simpl. destruct (decide (k = bh_session_id h)) as [->|].
    - rewrite lookup_insert_eq. exists e'. rewrite Ee in Hy. by injection Hy as <-.
    - rewrite lookup_insert_ne //. by exists y. }
  assert (∀ t c k, claim b' t c k → claim b t c k ∨ (t = se_streams e ∧ c = id ∧ k = h)) as Hc.
  { intros t c k [Hk|[Hk|Hk]]; [| |by left; right; right]; simpl in Hk;
      apply lookup_insert_Some in Hk as [[<- Heq]|[_ Hk]]; try done;
      [by injection Heq as <- <-; right|by left; left|by left; right; left]. }
  assert (∀ c k, claim b (se_streams e) c k → bh_stream_id k < bh_stream_id h) as Hlt.
  { intros c k Hk. destruct (bi_claims _ I _ _ _ Hk) as (_ & _ & Hn). specialize (Hn _ _ Ee eq_refl). lia. }
  split.
  - apply (bi_peers _ I).
  - intros c. simpl. destruct (decide (c = id)) as [->|Hne]; [intros _; apply (bi_handshakes _ I); by eexists|].
    rewrite lookup_insert_ne //. apply (bi_handshakes _ I).
  - intros c q. simpl. intros [[<- <-]|[_ Hq]]%lookup_insert_Some; [done|].
    apply (bi_phase _ I) in Hq. destruct q as [|k|k|k u|k u]; try done.
    destruct Hq as [(y & Hy & Hys) Hx]. split; [|done]. destruct (Hfwd _ _ Hy) as (x & Hx' & Hxs). exists x. by rewrite Hxs.
  - intros k x Hx. destruct (Hback _ _ Hx) as (y & Hy & -> & -> & _). by apply (bi_entries _ I).
  - intros t x Hx. destruct (bi_sessions _ I _ _ Hx) as [Hau Hk]. split; [done|]. intros Hcon.
    destruct (Hk Hcon) as (y & Hy & Hys). destruct (Hfwd _ _ Hy) as (z & Hz & Hzs). exists z. by rewrite Hzs.
  - intros t c k [Hk|(-> & -> & ->)]%Hc.
    + destruct (bi_claims _ I _ _ _ Hk) as (Hau & Hj & Hn). split_and!; [done..|].
      intros sid x Hx Hxs. destruct (Hback _ _ Hx) as (y & Hy & _ & Hys & Hle & _).
      specialize (Hn _ _ Hy ltac:(by rewrite -Hys)). lia.
    + split_and!; [done| |].
      * exists ss. split; [done|]. rewrite /joins Hssh Hsid. done.
      * intros sid x Hx Hxs. destruct (Hback _ _ Hx) as (y & Hy & Hyh & Hys & _ & Hnext).
        destruct (bi_entries _ I _ _ Hy) as (z & Hz & Hzh & Hzs). rewrite -Hys Hxs Hss in Hz. injection Hz as <-.
        rewrite Hnext; [lia|]. rewrite -Hzs -Hzh Hssh. done.
  - intros t c c' k k' [H1|(-> & -> & ->)]%Hc [H2|(E1 & -> & ->)]%Hc Heq; [by eapply (bi_unique _ I)| | |done].
    + subst t. specialize (Hlt _ _ H1). lia.
    + specialize (Hlt _ _ H2). lia.
  - intros t x Hx. destruct (bi_once _ I _ _ Hx) as [Hn Hd]. split; [done|]. intros c Hin.
    simpl. rewrite lookup_insert_ne; [by apply Hd|]. intros <-. by rewrite (Hd _ Hin) in Hid.
  - apply (bi_queue _ I).
Qed.

Lemma on_header_inv b id b' : bridge_inv b → on_header cfg b id = Some b' → bridge_inv b'.
Proof.
  intros I. rewrite /on_header. destruct (br_handshakes b !! id) as [[| | | |]|] eqn:Eh; try done.
  destruct (br_peers b !! id) as [p|] eqn:Ep; [|done]. intros [= <-].
  destruct (pe_uid p) as [uid|] eqn:Eu; [|by apply end_handshake_inv].
  destruct (header_read (pe_input p)) as [[h rest]|] eqn:Er; [|by apply end_handshake_inv].
  case_match eqn:Eid; [by apply end_handshake_inv|]. case_match eqn:Eho; [by apply end_handshake_inv|]. to_prop.
  assert (authorised b id h) as Ha by (exists p, rest; split_and!; [done|by rewrite Eu Eid|done..]).
  case_match; [|by apply take_number_inv]. case_match; [by apply end_handshake_inv|].
  apply set_phase_inv; [done|by rewrite Eh|done|]. split; [exact (bi_phase _ I _ _ Eh)|done].
Qed.

(** The session of a control connection comes into being. *)
Lemma on_insert_inv b id b' : bridge_inv b → on_insert cfg b id = Some b' → bridge_inv b'.
Proof.
  intros I. rewrite /on_insert. destruct (br_handshakes b !! id) as [[|h|h|h s|h s]|] eqn:Eh; try done. intros [= <-].
  case_match eqn:Ec; [by apply end_handshake_inv|]. to_prop. apply eq_None_not_Some in H0.
  destruct (bi_phase _ I _ _ Eh) as [Hnone Ha]. set (b' := set_phase _ _ _).
  set (ss' := {| ss_header := h; ss_streams := []; ss_taken := []; ss_receiver := true; ss_control := false; ss_closed := false |}).
  assert (∀ k y, br_entries b !! k = Some y → br_entries b' !! k = Some y) as He.
  { intros k y Hy. simpl. rewrite lookup_insert_ne //. intros <-. by rewrite H0 in Hy. }
  assert (∀ s x, br_sessions b !! s = Some x → br_sessions b' !! s = Some x) as Hs.
  { intros s x Hx. simpl. rewrite lookup_insert_ne //. intros <-. by rewrite Hnone in Hx. }
  assert (∀ t c k, claim b' t c k → claim b t c k) as Hc.
  { intros t c k [Hk|[Hk|(x & Hx & Hi)]]; simpl in *.
    - apply lookup_insert_Some in Hk as [[_ Hk]|[_ Hk]]; [done|by left].
    - apply lookup_insert_Some in Hk as [[_ Hk]|[_ Hk]]; [done|by right; left].
    - apply lookup_insert_Some in Hx as [[_ <-]|[_ Hx]]; [by apply not_elem_of_nil in Hi|by right; right; exists x]. }
  assert (∀ c, se_streams c = id → ∀ k, br_entries b !! k ≠ Some c) as Hno.
  { intros e Hse k Hk. destruct (bi_entries _ I _ _ Hk) as (x & Hx & _). by rewrite Hse Hnone in Hx. }
  split.
  - apply (bi_peers _ I).
  - intros c. simpl. destruct (decide (c = id)) as [->|Hne]; [intros _; apply (bi_handshakes _ I); by eexists|].
    rewrite lookup_insert_ne //. apply (bi_handshakes _ I).
  - intros c q. simpl. intros [[<- <-]|[Hne Hq]]%lookup_insert_Some.
    + split; [eexists; by rewrite /= lookup_insert_eq|]. exists ss'. by rewrite /= lookup_insert_eq.
    + apply (bi_phase _ I) in Hq. destruct q as [|k|k|k u|k u]; try done; simpl in Hq |- *.
      * by rewrite lookup_insert_ne.
      * by rewrite lookup_insert_ne.
      * destruct Hq as [(y & Hy & Hys) (x & Hx & Hxp)]. split; [exists y; split; [by apply He|done]|].
        exists x. split; [by apply Hs|done].
  - intros k x. simpl. intros [[<- <-]|[Hne Hx]]%lookup_insert_Some; [exists ss'; by rewrite lookup_insert_eq|].
    destruct (bi_entries _ I _ _ Hx) as (y & Hy & Hyp). exists y. split; [by apply Hs|done].
  - intros t x. simpl. intros [[<- <-]|[Hne Hx]]%lookup_insert_Some; [by split|].
    destruct (bi_sessions _ I _ _ Hx) as [Hau Hk]. split; [done|]. intros Hcon.
    destruct (Hk Hcon) as (y & Hy & Hys). exists y. split; [by apply He|done].
  - intros t c k Hk%Hc. destruct (bi_claims _ I _ _ _ Hk) as (Hau & (x & Hx & Hj) & Hn).
    split_and!; [done|exists x; split; [by apply Hs|done]|].
    intros sid y. simpl. intros [[<- <-]|[Hne Hy]]%lookup_insert_Some; [|by eapply Hn]. simpl. intros <-.
    by rewrite Hnone in Hx.
  - intros t c c' k k' H1%Hc H2%Hc. by eapply (bi_unique _ I).
  - intros t x. simpl. intros [[<- <-]|[Hne Hx]]%lookup_insert_Some; [split; [constructor|by intros c ?%not_elem_of_nil]|].
    destruct (bi_once _ I _ _ Hx) as [Hn Hd]. split; [done|]. intros c Hin.
    rewrite lookup_insert_ne; [by apply Hd|]. intros <-. by rewrite (Hd _ Hin) in Eh.
  - intros c Hq. destruct (bi_queue _ I c Hq) as [x Hx]. exists x. by apply Hs.
Qed.

Lemma accept_one_inv b p : bridge_inv b → bridge_inv (accept_one b p).
Proof.
  intros I. set (b' := accept_one b p).
  assert (∀ c, is_Some (br_peers b !! c) → c ≠ br_next b) as Hold by (intros c Hc%(bi_peers _ I); lia).
  assert (∀ c h, authorised b c h → authorised b' c h) as Hau.
  { intros c h (q & rest & Hq & Hr). exists q, rest. split; [|done]. simpl. rewrite lookup_insert_ne //.
    apply not_eq_sym, Hold. by rewrite Hq. }
  assert (∀ c q, br_handshakes b' !! c = Some q → (c = br_next b ∧ q = HReading) ∨ br_handshakes b !! c = Some q) as Hh.
  { intros c q. simpl. case_match; [by right|]. intros [[<- <-]|[_ Hq]]%lookup_insert_Some; [by left|by right]. }
  assert (br_sessions b !! br_next b = None) as Hnone.
  { apply eq_None_not_Some. intros [x Hx]. destruct (bi_sessions _ I _ _ Hx) as [(q & rest & Hq & _) _].
    by destruct (Hold (br_next b)); [rewrite Hq|]. }
  assert (∀ t c k, claim b' t c k → claim b t c k) as Hc.
  { intros t c k [[[_ ?]|Hk]%Hh|[[[_ ?]|Hk]%Hh|Hk]]; [done|by left|done|by right; left|by right; right]. }
  split.
  - intros c. simpl. destruct (decide (c = br_next b)) as [->|]; [lia|].
    rewrite lookup_insert_ne //. intros Hp%(bi_peers _ I). lia.
  - intros c [q [[-> ->]|Hq]%Hh]; simpl; [rewrite lookup_insert_eq; by eexists|].
    assert (is_Some (br_peers b !! c)) as Hp by (apply (bi_handshakes _ I); by eexists).
    rewrite lookup_insert_ne //. by apply not_eq_sym, Hold.
  - intros c q [[-> ->]|Hq]%Hh; [done|]. apply (bi_phase _ I) in Hq. destruct q as [|k|k|k u|k u]; try done.
    destruct Hq. split; auto.
  - apply (bi_entries _ I).
  - intros t x Hx. destruct (bi_sessions _ I _ _ Hx) as [? ?]. auto.
  - intros t c k Hk%Hc. destruct (bi_claims _ I _ _ _ Hk) as (? & ? & ?). auto.
  - intros t c c' k k' H1%Hc H2%Hc. by eapply (bi_unique _ I).
  - intros t x Hx. destruct (bi_once _ I _ _ Hx) as [Hn Hd]. split; [done|]. intros c Hin.
    apply eq_None_not_Some. intros [q [[-> ->]|Hq]%Hh]; [|by rewrite (Hd _ Hin) in Hq].
    apply list_elem_of_fmap in Hin as [[c1 h] [Heq Hin1]]. simpl in Heq. subst c1.
    assert (claim b t (br_next b) h) as Hk by (right; right; by exists x).
    destruct (bi_claims _ I _ _ _ Hk) as ((q & rest & Hq & _) & _). by destruct (Hold (br_next b)); [rewrite Hq|].
  - apply (bi_queue _ I).
Qed.

Lemma accept_bi_inv b id b' : bridge_inv b → accept_bi b id = Some b' → bridge_inv b'.
Proof.
  intros I. rewrite /accept_bi. destruct (br_sessions b !! id) as [ss|] eqn:Es; [|done].
  destruct (ss_streams ss) as [|x rest] eqn:Er; [done|]. case_match; [|done]. intros [= <-].
  eapply session_inv; [done|exact Es|done|by rewrite /= Er -app_assoc|]. simpl. intros Hc.
  destruct (bi_sessions _ I _ _ Es) as [_ Hk]. split; [by apply Hk|]. intros h Hh.
  destruct (bi_phase _ I _ _ Hh) as [_ (y & Hy & _ & Hf)]. congruence.
Qed.

Lemma bridge_step_inv b l b' : bridge_inv b → bridge_step cfg b l = Some b' → bridge_inv b'.
Proof.
  intros I. destruct l; simpl.
  - intros [= <-]. by apply accept_one_inv.
  - by apply on_header_inv.
  - by apply on_insert_inv.
  - by apply on_reserve_inv.
  - by apply on_ack_inv.
  - by apply on_timeout_inv.
  - by apply on_control_inv.
  - rewrite /accept. destruct (br_queue b) as [|id q] eqn:Eq; [done|]. intros [= <-]. apply queue_inv; [done|].
    intros c. rewrite app_assoc elem_of_app list_elem_of_singleton. intros Hc. apply (bi_queue _ I).
    rewrite Eq. destruct Hc as [Hc| ->]; [by apply list_elem_of_further|by apply list_elem_of_here].
  - by apply accept_bi_inv.
  - rewrite /drop_session. case_match; [|done]. intros [= <-]. by apply drop_receiver_inv.
Qed.

Lemma reachable_inv b : bridge_reachable cfg b → bridge_inv b.
Proof. induction 1; [apply bridge_new_inv|by eapply bridge_step_inv]. Qed.

(** *** Bounds *)
Lemma holders_insert f id p hs :
  holders f (<[id := p]> hs) = holders f (delete id hs) + if f p then 1 else 0.
Proof.
  rewrite /holders -insert_delete_eq. destruct (f p) eqn:Ef.
  - rewrite map_filter_insert_True //. rewrite map_size_insert_None; [lia|].
    apply map_lookup_filter_None. left. by rewrite lookup_delete_eq.
  - rewrite map_filter_insert_False /=; [|by rewrite Ef]. rewrite delete_delete_eq. lia.
Qed.

Lemma holders_delete f id hs :
  holders f hs = holders f (delete id hs) + match hs !! id with Some p => if f p then 1 else 0 | None => 0 end.
Proof.
  destruct (hs !! id) as [p|] eqn:E.
  - by rewrite -holders_insert insert_id.
  - rewrite delete_id //. lia.
Qed.

Lemma holders_none f hs : (∀ c p, hs !! c = Some p → f p = false) → holders f hs = 0.
Proof.
  intros H. rewrite /holders. assert (filter (λ kv : nat * Phase, f kv.2 = true) hs = ∅) as ->; [|done].
  apply map_empty. intros c. apply map_lookup_filter_None. right. intros p Hp Hf. simpl in Hf. by rewrite (H c p Hp) in Hf.
Qed.

Record bounded (b : Bridge) : Prop := {
  bo_handshakes : Z.of_nat (size (br_handshakes b)) ≤ CONNECTION_HANDSHAKES_MAX;
  bo_entries : Z.of_nat (size (br_entries b)) ≤ maximum_sessions cfg;
  bo_queue : len (br_queue b) + holders holds_slot (br_handshakes b) ≤ maximum_sessions cfg;
  bo_streams s ss : br_sessions b !! s = Some ss →
    len (ss_streams ss) + holders (holds_stream s) (br_handshakes b) ≤ maximum_streams_per_session cfg;
}.

Lemma size_delete_le {K A} `{Countable K} (i : K) (m : gmap K A) : (size (delete i m) ≤ size m)%nat.
Proof. rewrite map_size_delete. case_match; simpl; lia. Qed.

Lemma end_handshake_bounded b id : bounded b → bounded (end_handshake b id).
Proof.
  intros [H1 H2 H3 H4]. split; simpl; [pose proof (size_delete_le id (br_handshakes b)); lia|done| |].
  - rewrite (holders_delete _ id) in H3. case_match; [case_match|]; lia.
  - intros s ss Hs. specialize (H4 s ss Hs). rewrite (holders_delete _ id) in H4. case_match; [case_match|]; lia.
Qed.

(** A phase that follows one that held as much. *)
Lemma set_phase_bounded b id q p :
  bounded b → br_handshakes b !! id = Some q →
  (holds_slot p = true → holds_slot q = true) →
  (∀ s ss, br_sessions b !! s = Some ss → holds_stream s p = true → holds_stream s q = true) →
  bounded (set_phase b id p).
Proof.
  intros [H1 H2 H3 H4] Hq Hs Ht. split; simpl.
  - by rewrite map_size_insert Hq.
  - done.
  - rewrite (holders_delete _ id) Hq in H3. rewrite holders_insert. destruct (holds_slot p); [rewrite Hs // in H3|].
    case_match; lia.
  - intros s ss Hss. specialize (H4 s ss Hss). rewrite (holders_delete _ id) Hq in H4. rewrite holders_insert.
    specialize (Ht s ss Hss). destruct (holds_stream s p); [rewrite Ht // in H4|]. case_match; lia.
Qed.

(** Sessions whose queues do not grow. *)
Lemma alter_bounded b id f :
  bounded b → (∀ ss, len (ss_streams (f ss)) ≤ len (ss_streams ss)) →
  bounded (with_sessions b (alter f id (br_sessions b))).
Proof.
  intros [H1 H2 H3 H4] Hf. split; simpl; [done..|]. intros s ss. destruct (decide (s = id)) as [->|Hne].
  - rewrite lookup_alter_eq. intros (y & Hy & ->)%fmap_Some. specialize (H4 _ _ Hy). specialize (Hf y). lia.
  - rewrite lookup_alter_ne //. apply H4.
Qed.

Lemma entries_bounded b es :
  bounded b → Z.of_nat (size es) ≤ maximum_sessions cfg → bounded (with_entries b es).
Proof. intros [] ?. by split. Qed.

Lemma on_header_bounded b id b' : bounded b → on_header cfg b id = Some b' → bounded b'.
Proof.
  intros B. rewrite /on_header. destruct (br_handshakes b !! id) as [[| | | |]|] eqn:Eh; try done.
  destruct (br_peers b !! id) as [p|]; [|done]. intros [= <-].
  destruct (pe_uid p); [|by apply end_handshake_bounded].
  destruct (header_read (pe_input p)) as [[h rest]|]; [|by apply end_handshake_bounded].
  case_match; [by apply end_handshake_bounded|]. case_match; [by apply end_handshake_bounded|]. case_match.
  - case_match eqn:Eq; [by apply end_handshake_bounded|]. to_prop. destruct B as [B1 B2 B3 B4]. split; simpl.
    + by rewrite map_size_insert Eh.
    + done.
    + rewrite holders_insert /=. rewrite (holders_delete _ id) Eh in Eq. simpl in Eq. lia.
    + intros s ss Hss. specialize (B4 s ss Hss). rewrite (holders_delete _ id) Eh in B4. simpl in B4.
      by rewrite holders_insert /=.
  - rewrite /take_number. destruct (br_entries b !! bh_session_id h) as [e|] eqn:Ee; [|by apply end_handshake_bounded].
    case_match; [by apply end_handshake_bounded|]. destruct (checked_add64 _ _); [|by apply end_handshake_bounded].
    eapply set_phase_bounded; [apply entries_bounded; [done|]|exact Eh|done|done].
    rewrite map_size_insert Ee. apply B.
Qed.

Lemma on_insert_bounded b id b' :
  0 ≤ maximum_streams_per_session cfg → bridge_inv b → bounded b → on_insert cfg b id = Some b' → bounded b'.
Proof.
  intros Hm I B. rewrite /on_insert. destruct (br_handshakes b !! id) as [[|h|h|h s|h s]|] eqn:Eh; try done. intros [= <-].
  case_match eqn:Ec; [by apply end_handshake_bounded|]. to_prop. apply eq_None_not_Some in H0.
  eapply set_phase_bounded; [|exact Eh|done|done]. destruct B as [B1 B2 B3 B4]. split; simpl; [done| |done|].
  - rewrite map_size_insert H0. lia.
  - intros s ss [[<- <-]|[_ Hss]]%lookup_insert_Some; [|by apply B4]. simpl. rewrite holders_none; [done|].
    intros c p Hp. destruct p as [| | | |k u]; try done. simpl. apply bool_decide_eq_false. intros ->.
    destruct (bi_claims _ I id c k) as (_ & (x & Hx & _) & _); [by right; left|].
    destruct (bi_phase _ I _ _ Eh) as [Hn _]. congruence.
Qed.

Lemma on_reserve_bounded b id b' : bounded b → on_reserve cfg b id = Some b' → bounded b'.
Proof.
  intros B. rewrite /on_reserve. destruct (br_handshakes b !! id) as [[|h|h|h s|h s]|] eqn:Eh; try done. intros [= <-].
  destruct (br_sessions b !! s) as [ss|] eqn:Es; [|by apply end_handshake_bounded].
  case_match eqn:Ec; [|by apply end_handshake_bounded]. to_prop. destruct B as [B1 B2 B3 B4]. split; simpl.
  - by rewrite map_size_insert Eh.
  - done.
  - rewrite (holders_delete _ id) Eh in B3. by rewrite holders_insert.
  - intros t x Hx. specialize (B4 t x Hx). rewrite holders_insert. rewrite (holders_delete _ id) Eh in B4. simpl in B4 |- *.
    case_bool_decide; [|done]. subst t. rewrite Es in Hx. injection Hx as <-.
    rewrite (holders_delete _ id) Eh in H0. simpl in H0. lia.
Qed.

Lemma on_ack_bounded b id written b' : bounded b → on_ack b id written = Some b' → bounded b'.
Proof.
  intros B. pose proof (end_handshake_bounded b id B) as B1. rewrite /on_ack.
  destruct (br_handshakes b !! id) as [[|h|h|h s|h s]|] eqn:Eh; try done; intros [= <-].
  - destruct written.
    + pose proof (alter_bounded _ id (λ s, set_control s true false) B1 ltac:(done)) as [H1 H2 H3 H4].
      split; simpl in *; [done|done| |done]. destruct B as [_ _ H3' _]. rewrite len_app len_cons len_nil.
      rewrite (holders_delete _ id) Eh in H3'. simpl in H3'. lia.
    + apply (entries_bounded (with_sessions (end_handshake b id) _)).
      * exact (alter_bounded _ id (λ s, set_receiver s false) B1 ltac:(done)).
      * simpl. pose proof (size_delete_le (bh_session_id h) (br_entries b)). destruct B. lia.
  - destruct written; [|done]. destruct B1 as [H1 H2 H3 _], B as [_ _ _ H4]. split; simpl in *; [done..|].
    intros t x. specialize (λ y, H4 t y). rewrite (holders_delete _ id) Eh in H4. simpl in H4.
    destruct (decide (t = s)) as [->|Hne].
    + rewrite lookup_alter_eq. intros (y & Hy & ->)%fmap_Some. specialize (H4 y Hy). rewrite bool_decide_eq_true_2 // in H4.
      destruct (ss_receiver y); simpl; [rewrite len_app len_cons len_nil|]; lia.
    + rewrite lookup_alter_ne //. intros Hx. specialize (H4 x Hx). rewrite bool_decide_eq_false_2 // in H4. lia.
Qed.

Lemma bridge_step_bounded b l b' :
  0 ≤ maximum_streams_per_session cfg → bridge_inv b → bounded b → bridge_step cfg b l = Some b' → bounded b'.
Proof.
  intros Hm I B. destruct l; simpl.
  - intros [= <-]. destruct B as [H1 H2 H3 H4]. rewrite /accept_one. case_match; [by split|]. to_prop.
    assert (br_handshakes b !! br_next b = None) as Hn.
    { apply eq_None_not_Some. intros Hs%(bi_handshakes _ I)%(bi_peers _ I). lia. }
    split; simpl; [rewrite map_size_insert Hn; lia|done| |].
    + rewrite holders_insert delete_id //=. lia.
    + intros s ss Hss. rewrite holders_insert delete_id //=. specialize (H4 s ss Hss). lia.
  - by apply on_header_bounded.
  - by apply on_insert_bounded.
  - by apply on_reserve_bounded.
  - by apply on_ack_bounded.
  - rewrite /on_timeout. destruct (br_handshakes b !! id) as [p|]; [|done]. pose proof (end_handshake_bounded b id B) as B1.
    intros [= <-]. destruct p; try done. exact (alter_bounded _ id (λ s, set_receiver s false) B1 ltac:(done)).
  - rewrite /on_control. destruct (br_sessions b !! id) as [ss|] eqn:Es; [|done]. destruct (ss_control ss); [|done].
    intros [= <-]. destruct B as [H1 H2 H3 H4]. split; simpl; [done| |done|].
    + pose proof (size_delete_le (bh_session_id (ss_header ss)) (br_entries b)). lia.
    + intros t x [[<- <-]|[_ Hx]]%lookup_insert_Some; [exact (H4 _ _ Es)|by apply H4].
  - rewrite /accept. destruct (br_queue b) as [|id q] eqn:Eq; [done|]. intros [= <-]. destruct B as [H1 H2 H3 H4].
    split; simpl; [done..| |done]. rewrite Eq len_cons in H3. lia.
  - rewrite /accept_bi. destruct (br_sessions b !! id) as [ss|] eqn:Es; [|done].
    destruct (ss_streams ss) as [|x rest] eqn:Er; [done|]. case_match; [|done]. intros [= <-].
    destruct B as [H1 H2 H3 H4]. split; simpl; [done..|]. intros t y [[<- <-]|[_ Hy]]%lookup_insert_Some; [|by apply H4].
    specialize (H4 _ _ Es). rewrite Er len_cons in H4. simpl. lia.
  - rewrite /drop_session. case_match; [|done]. intros [= <-]. by apply alter_bounded.
Qed.

Lemma reachable_bounded b :
  0 ≤ maximum_sessions cfg → 0 ≤ maximum_streams_per_session cfg → bridge_reachable cfg b → bounded b.
Proof.
  intros H1 H2. induction 1 as [|b l b' R IH Hs].
  - split; simpl; rewrite ?holders_none ?map_size_empty //; intros *; by rewrite lookup_empty.
  - eapply bridge_step_bounded; [done| |done|done]. by apply reachable_inv.
Qed.

(** *** An entry that outlives its session *)
Definition leaked (b : Bridge) (sid : bytes) : Prop :=
  ∃ e, br_entries b !! sid = Some e ∧ (∀ h, br_handshakes b !! se_streams e ≠ Some (HAckSession h)) ∧
    ∃ ss, br_sessions b !! se_streams e = Some ss ∧ ss_control ss = false.

(** A session of which only the streams and the receiver change. *)
Definition tame (f : Session → Session) : Prop := ∀ ss, ss_control (f ss) = ss_control ss.

Lemma leaked_sub b hs ss sid :
  leaked b sid → (∀ c h, hs !! c = Some (HAckSession h) → br_handshakes b !! c = Some (HAckSession h)) →
  (∀ c x, br_sessions b !! c = Some x → ss_control x = false → ∃ y, ss !! c = Some y ∧ ss_control y = false) →
  leaked (with_sessions (with_handshakes b hs) ss) sid.
Proof.
  intros (e & He & Hh & x & Hx & Hc) H1 H2. exists e. split_and!; [done| |by eapply H2]. intros h Hk. by apply (Hh h), H1.
Qed.

Lemma alter_tame_leaked b hs f id sid :
  leaked b sid → (∀ c h, hs !! c = Some (HAckSession h) → br_handshakes b !! c = Some (HAckSession h)) → tame f →
  leaked (with_sessions (with_handshakes b hs) (alter f id (br_sessions b))) sid.
Proof.
  intros L H1 Hf. apply leaked_sub; [done|done|]. intros c x Hx Hc. destruct (decide (c = id)) as [->|].
  - rewrite lookup_alter_eq Hx. exists (f x). by rewrite Hf.
  - rewrite lookup_alter_ne //. by exists x.
Qed.

Lemma handshakes_leaked b hs sid :
  leaked b sid → (∀ c h, hs !! c = Some (HAckSession h) → br_handshakes b !! c = Some (HAckSession h)) →
  leaked (with_handshakes b hs) sid.
Proof. intros (e & He & Hh & Hx) H1. exists e. split_and!; [done| |done]. intros h Hk. by apply (Hh h), H1. Qed.

Lemma delete_sub (hs : gmap nat Phase) id c h : delete id hs !! c = Some (HAckSession h) → hs !! c = Some (HAckSession h).
Proof. by intros [_ ?]%lookup_delete_Some. Qed.

Lemma insert_sub (hs : gmap nat Phase) id p c h :
  (∀ k, p ≠ HAckSession k) → <[id := p]> hs !! c = Some (HAckSession h) → hs !! c = Some (HAckSession h).
Proof. by intros Hp [[_ ->]|[_ ?]]%lookup_insert_Some; [destruct (Hp h)|]. Qed.

Lemma end_leaked b id sid : leaked b sid → leaked (end_handshake b id) sid.
Proof. intros L. apply handshakes_leaked; [done|]. intros c h. apply delete_sub. Qed.

Lemma delete_other_leaked b k e sid :
  leaked b sid → br_entries b !! k = Some e →
  ((∃ h, br_handshakes b !! se_streams e = Some (HAckSession h)) ∨
   (∃ ss, br_sessions b !! se_streams e = Some ss ∧ ss_control ss = true)) → k ≠ sid.
Proof.
  intros (e' & He & Hh & x & Hx & Hc) Hk Hor ->. rewrite He in Hk. injection Hk as ->.
  destruct Hor as [[h Hack]|(y & Hy & Hyc)]; [by destruct (Hh h)|congruence].
Qed.

Lemma leaked_step b l b' sid : bridge_inv b → leaked b sid → bridge_step cfg b l = Some b' → leaked b' sid.
Proof.
  intros I L. destruct l; simpl.
  - intros [= <-]. refine (handshakes_leaked b (br_handshakes (accept_one b p)) sid L _). intros c h. simpl. case_match; [done|]. by apply insert_sub.
  - rewrite /on_header. destruct (br_handshakes b !! id) as [[| | | |]|]; try done.
    destruct (br_peers b !! id) as [p|]; [|done]. intros [= <-].
    destruct (pe_uid p); [|by apply end_leaked]. destruct (header_read (pe_input p)) as [[h rest]|]; [|by apply end_leaked].
    case_match; [by apply end_leaked|]. case_match; [by apply end_leaked|]. case_match.
    + case_match; [by apply end_leaked|]. apply handshakes_leaked; [done|]. intros c k. by apply insert_sub.
    + rewrite /take_number. destruct (br_entries b !! bh_session_id h) as [e|] eqn:Ee; [|by apply end_leaked].
      case_match; [by apply end_leaked|]. destruct (checked_add64 _ _) as [next|]; [|by apply end_leaked].
      apply handshakes_leaked; [|intros c k; by apply insert_sub]. destruct L as (e' & He & Hh & Hx).
      destruct (decide (sid = bh_session_id h)) as [->|Hne].
      * rewrite Ee in He. injection He as <-. eexists. rewrite /= lookup_insert_eq. by split_and!.
      * exists e'. rewrite /= lookup_insert_ne //.
  - rewrite /on_insert. destruct (br_handshakes b !! id) as [[|h|h|h s|h s]|] eqn:Eh; try done. intros [= <-].
    case_match eqn:Ec; [by apply end_leaked|]. to_prop. apply eq_None_not_Some in H0.
    destruct L as (e & He & Hh & x & Hx & Hc). destruct (bi_phase _ I _ _ Eh) as [Hn _].
    assert (se_streams e ≠ id) as Hne by congruence. exists e. simpl. split_and!.
    + rewrite lookup_insert_ne //. congruence.
    + intros k. rewrite lookup_insert_ne //.
    + exists x. by rewrite lookup_insert_ne.
  - rewrite /on_reserve. destruct (br_handshakes b !! id) as [[|h|h|h s|h s]|]; try done. intros [= <-].
    destruct (br_sessions b !! s); [|by apply end_leaked]. case_match; [|by apply end_leaked].
    apply handshakes_leaked; [done|]. intros c k. by apply insert_sub.
  - rewrite /on_ack. destruct (br_handshakes b !! id) as [[|h|h|h s|h s]|] eqn:Eh; try done; intros [= <-].
    + destruct (bi_phase _ I _ _ Eh) as [(e & He & Hse) _]. destruct written.
      * destruct L as (e' & He' & Hh & x & Hx & Hc). assert (se_streams e' ≠ id) as Hne by (intros <-; by apply (Hh h)).
        exists e'. simpl. split_and!; [done|intros k Hk%delete_sub; by apply (Hh k)|].
        exists x. by rewrite lookup_alter_ne.
      * assert (bh_session_id h ≠ sid) as Hne.
        { eapply delete_other_leaked; [done|done|]. left. exists h. by rewrite Hse. }
        apply (alter_tame_leaked b (delete id (br_handshakes b)) (λ s, set_receiver s false) id) in L;
          [|intros c k; apply delete_sub|done].
        destruct L as (e' & He' & Hx). exists e'. split; [|exact Hx]. by rewrite /= lookup_delete_ne.
    + destruct written; [|by apply end_leaked].
      apply alter_tame_leaked; [done|intros c k; apply delete_sub|]. intros ss. by destruct (ss_receiver ss).
  - rewrite /on_timeout. destruct (br_handshakes b !! id) as [p|]; [|done]. intros [= <-].
    destruct p; try by apply end_leaked. apply alter_tame_leaked; [done|intros c k; apply delete_sub|done].
  - rewrite /on_control. destruct (br_sessions b !! id) as [ss|] eqn:Es; [|done]. destruct (ss_control ss) eqn:Ec; [|done].
    intros [= <-]. destruct (bi_sessions _ I _ _ Es) as [_ Hk]. destruct (Hk Ec) as (e & He & Hse).
    assert (bh_session_id (ss_header ss) ≠ sid) as Hne.
    { eapply delete_other_leaked; [done|done|]. right. exists ss. by rewrite Hse. }
    destruct L as (e' & He' & Hh & x & Hx & Hc). exists e'. simpl. split_and!; [by rewrite lookup_delete_ne|done|].
    exists x. rewrite lookup_insert_ne //. congruence.
  - rewrite /accept. destruct (br_queue b); [done|]. by intros [= <-].
  - rewrite /accept_bi. destruct (br_sessions b !! id) as [ss|] eqn:Es; [|done].
    destruct (ss_streams ss); [done|]. case_match; [|done]. intros [= <-]. destruct L as (e & He & Hh & x & Hx & Hc).
    exists e. split_and!; [done..|]. simpl. destruct (decide (se_streams e = id)) as [Heq|].
    + rewrite Heq lookup_insert_eq. eexists. split; [done|]. simpl. rewrite Heq Es in Hx. by injection Hx as ->.
    + rewrite lookup_insert_ne //. by exists x.
  - rewrite /drop_session. case_match; [|done]. intros [= <-].
    apply (alter_tame_leaked b (br_handshakes b) (λ s, set_receiver s false) id) in L; [exact L|done|done].
Qed.

Lemma authorised_fun b c h h' : authorised b c h → authorised b c h' → h = h'.
Proof. intros (p & r & Hp & _ & Hr & _) (p' & r' & Hp' & _ & Hr' & _). congruence. Qed.

(** C20: whatever connects to the socket and in whatever order connections are read,
    acknowledged, time out and close: every session and every stream handed to
    the daemon came from the front door's user with a header naming the
    configured host, a stream belongs to a session with the same identity,
    host, peer address and channel binding and no two streams of a session
    carry the same number, two sessions whose control connections are open have
    different identities, and handshakes, sessions and streams stay within
    their bounds. *)
Theorem frontdoor_safe b :
  0 ≤ maximum_sessions cfg → 0 ≤ maximum_streams_per_session cfg → bridge_reachable cfg b →
  (∀ id ss, br_sessions b !! id = Some ss →
     authorised b id (ss_header ss) ∧
     (∀ c h, (c, h) ∈ ss_taken ss ++ ss_streams ss → authorised b c h ∧ joins (ss_header ss) h) ∧
     NoDup ((λ x, bh_stream_id x.2) <$> ss_taken ss ++ ss_streams ss)) ∧
  (∀ id id' ss ss', br_sessions b !! id = Some ss → br_sessions b !! id' = Some ss' →
     ss_control ss = true → ss_control ss' = true →
     bh_session_id (ss_header ss) = bh_session_id (ss_header ss') → id = id') ∧
  (∀ id, id ∈ br_queue b ++ br_accepted b → is_Some (br_sessions b !! id)) ∧
  bounded b.
Proof.
  intros H1 H2 R. pose proof (reachable_inv b R) as I. split_and!; [| |apply (bi_queue _ I)|by apply reachable_bounded].
  - intros id ss Hss. assert (∀ c h, (c, h) ∈ ss_taken ss ++ ss_streams ss → claim b id c h) as Hc.
    { intros c h Hin. right. right. by exists ss. }
    split_and!; [by apply (bi_sessions _ I _ _ Hss)| |].
    + intros c h Hin%Hc. destruct (bi_claims _ I _ _ _ Hin) as (Ha & (x & Hx & Hj) & _).
      rewrite Hss in Hx. by injection Hx as <-.
    + destruct (bi_once _ I _ _ Hss) as [Hn%NoDup_fmap_1 _]. apply NoDup_fmap_2_strong; [|done].
      intros [c h] [c' h'] Hx%Hc Hy%Hc Heq. simpl in Heq. pose proof (bi_unique _ I _ _ _ _ _ Hx Hy Heq) as <-.
      f_equal. destruct (bi_claims _ I _ _ _ Hx) as (Ha & _), (bi_claims _ I _ _ _ Hy) as (Hb & _).
      by apply (authorised_fun b c).
  - intros id id' ss ss' Hs Hs' Hc Hc' Heq. destruct (bi_sessions _ I _ _ Hs) as [_ K], (bi_sessions _ I _ _ Hs') as [_ K'].
    destruct (K Hc) as (e & He & <-), (K' Hc') as (e' & He' & <-). rewrite Heq He' in He. by injection He as ->.
Qed.

(** A session whose acknowledgement times out is never forgotten: its identity
    stays taken, with no connection behind it, in every state that follows, and
    so counts against the bound on sessions for good. *)
Theorem handshake_timeout_leaks b id h :
  bridge_reachable cfg b → br_handshakes b !! id = Some (HAckSession h) →
  ∃ b', on_timeout b id = Some b' ∧
    ∀ b'', rtc (λ x y, ∃ l, bridge_step cfg x l = Some y) b' b'' →
      is_Some (br_entries b'' !! bh_session_id h) ∧
      ∀ c, br_handshakes b'' !! c = Some (HInsert h) → on_insert cfg b'' c = Some (end_handshake b'' c).
Proof.
  intros R Hh. pose proof (reachable_inv b R) as I. rewrite /on_timeout Hh. eexists. split; [done|].
  destruct (bi_phase _ I _ _ Hh) as [(e & He & Hse) (x & Hx & _ & Hc)].
  set (b' := with_sessions _ _). assert (bridge_inv b') as I'.
  { apply (on_timeout_inv b id); [done|]. by rewrite /on_timeout Hh. }
  assert (leaked b' (bh_session_id h)) as L.
  { exists e. split_and!; [done| |].
    - intros k. by rewrite /= Hse lookup_delete_eq.
    - rewrite /= Hse lookup_alter_eq Hx. by eexists. }
  clearbody b'. clear -I' L. intros b'' Hrun. assert (leaked b'' (bh_session_id h)) as L''.
  { induction Hrun as [|x y z [l Hl] _ IH]; [done|]. apply IH; [by eapply bridge_step_inv|by eapply leaked_step]. }
  destruct L'' as (e & He & _). split; [by eexists|]. intros c Hc. rewrite /on_insert Hc.
  rewrite (bool_decide_eq_true_2 (is_Some _)); [by rewrite orb_true_r|by eexists].
Qed.

End reachable.

(** ** A concrete run *)
Definition config_ex : FrontdoorBridgeConfig := {|
  socket_path := lit "/run/holdfast/h3-bridge.sock"; frontdoor_uid := 973; fd_hostname := lit "holdfast.example";
  public_port := 443; maximum_sessions := 2; maximum_streams_per_session := 2 |}.
Definition stream_header (n : Z) : BridgeHeader := {|
  bh_kind := KIND_STREAM; bh_session_id := replicate 32 Byte.x31; bh_stream_id := n;
  bh_address := V4 [127; 0; 0; 1]; bh_port := 4242; bh_hostname := lit "holdfast.example";
  bh_channel_binding := replicate 32 Byte.x42 |}.
Definition peer_ex (uid : Z) (h : BridgeHeader) : Peer := {| pe_uid := Ok uid; pe_input := encoded_header h |}.

Definition bridge_exec (cfg : FrontdoorBridgeConfig) (b : Bridge) (ls : list BridgeLabel) : option Bridge :=
  foldl (λ o l, o ≫= λ b, bridge_step cfg b l) (Some b) ls.

Lemma bridge_exec_reachable cfg b ls b' :
  bridge_reachable cfg b → bridge_exec cfg b ls = Some b' → bridge_reachable cfg b'.
Proof.
  intros R. revert b'. induction ls as [|l ls IH] using rev_ind; intros b'; rewrite /bridge_exec ?foldl_app /=.
  - by intros [= <-].
  - destruct (foldl _ _ ls) as [m|] eqn:Em; simpl; [|done]. intros Hs. econstructor; [by apply IH|done].
Qed.

(** A session, two of its streams acknowledged in the other order, a stranger and
    a second session with the same identity. *)
Definition session_run : list BridgeLabel :=
  [BConnect (peer_ex 973 valid_header); BHeader 0; BInsert 0; BAck 0 true; BAccept;
   BConnect (peer_ex 973 (stream_header 1)); BConnect (peer_ex 973 (stream_header 2));
   BConnect (peer_ex 0 (stream_header 3)); BConnect (peer_ex 973 valid_header);
   BHeader 1; BHeader 2; BHeader 3; BHeader 4; BInsert 4; BReserve 1; BReserve 2; BAck 2 true; BAck 1 true; BAcceptBi 0].
Definition state_of (ls : list BridgeLabel) : Bridge := default bridge_new (bridge_exec config_ex bridge_new ls).

Lemma state_of_reachable ls :
  bool_decide (is_Some (bridge_exec config_ex bridge_new ls)) = true → bridge_reachable config_ex (state_of ls).
Proof.
  intros [b Hb]%bool_decide_eq_true. rewrite /state_of Hb. by eapply bridge_exec_reachable; [constructor|].
Qed.

Lemma frontdoor_safe_witness :
  (∃ ss, br_sessions (state_of session_run) !! 0%nat = Some ss ∧
     (ss_taken ss ++ ss_streams ss).*1 = [2; 1]%nat ∧
     NoDup ((λ x, bh_stream_id x.2) <$> ss_taken ss ++ ss_streams ss)) ∧
  br_accepted (state_of session_run) = [0%nat] ∧ br_sessions (state_of session_run) !! 4%nat = None.
Proof.
  assert (bridge_reachable config_ex (state_of session_run)) as R.
  { apply state_of_reachable. vm_compute. reflexivity. }
  destruct (frontdoor_safe config_ex (state_of session_run) ltac:(done) ltac:(done) R) as (Hs & _).
  split; [|split; vm_compute; reflexivity].
  destruct (br_sessions (state_of session_run) !! 0%nat) as [ss|] eqn:Es; [|exfalso; revert Es; vm_compute; discriminate].
  destruct (Hs 0%nat ss Es) as (_ & _ & Hn). exists ss. split; [done|]. split; [|exact Hn].
  clear Hn Hs. revert Es. vm_compute. intros [= <-]. reflexivity.
Defined.

Lemma handshake_timeout_leaks_witness :
  ∃ b', on_timeout (state_of (take 3 session_run)) 0 = Some b' ∧
    ∀ b'', rtc (λ x y, ∃ l, bridge_step config_ex x l = Some y) b' b'' →
      is_Some (br_entries b'' !! bh_session_id valid_header).
Proof.
  assert (bridge_reachable config_ex (state_of (take 3 session_run))) as R.
  { apply state_of_reachable. vm_compute. reflexivity. }
  destruct (handshake_timeout_leaks config_ex (state_of (take 3 session_run)) 0%nat valid_header R) as (b' & Hb & Hall);
    [vm_compute; reflexivity|]. exists b'. split; [exact Hb|]. intros b'' Hrun. exact (proj1 (Hall b'' Hrun)).
Defined.
