(* ===== verification/Transport.v ===== *)
(** * WebTransport and front-door sessions

    [crates/daemon/src/webtransport.rs]: the bounded writer queue of each
    stream, the router that feeds them, the session that reads streams into
    [Conn], the static files and the certificate hash; and the loop of
    [crates/daemon/src/ws.rs]. QUIC, TLS and HTTP are outside. *)
From S2P Require Import Prelude Protocol Framing Paths.

Definition WT_CHANNEL_QUEUE_MESSAGES : Z := 128.
Definition WT_CHANNEL_QUEUE_BYTES : Z := 1024 * 1024.
Definition MAX_STATIC_FILE_BYTES : Z := 16 * 1024 * 1024.
Definition MAX_REQUEST_PATH_BYTES : Z := 1024.

(** ** The writer queue of a channel *)
Record WtChannelQueue := {
  wq_frames : list bytes;
  wq_bytes : Z;
  wq_closing : bool;
  message_cap : Z;
  byte_cap : Z;
  overload_frame : bytes;
}.

Definition with_limits (overload : bytes) (message_cap byte_cap : Z) : WtChannelQueue := {|
  wq_frames := []; wq_bytes := 0; wq_closing := false; message_cap := message_cap; byte_cap := byte_cap;
  overload_frame := overload |}.
Definition queue_new (overload : bytes) : WtChannelQueue :=
  with_limits overload WT_CHANNEL_QUEUE_MESSAGES WT_CHANNEL_QUEUE_BYTES.

Definition set_state (q : WtChannelQueue) (frames : list bytes) (bytes : Z) (closing : bool) : WtChannelQueue := {|
  wq_frames := frames; wq_bytes := bytes; wq_closing := closing; message_cap := message_cap q;
  byte_cap := byte_cap q; overload_frame := overload_frame q |}.

(** A frame that does not fit replaces the backlog by the overload frame. *)
Definition push (q : WtChannelQueue) (frame : bytes) : WtChannelQueue :=
  if wq_closing q then q
  else if (message_cap q <=? len (wq_frames q)) || (sat_sub (byte_cap q) (wq_bytes q) <? len frame) then
    set_state q [overload_frame q] (len (overload_frame q)) true
  else set_state q (wq_frames q ++ [frame]) (wq_bytes q + len frame) false.

Definition close (q : WtChannelQueue) : WtChannelQueue := set_state q (wq_frames q) (wq_bytes q) true.

(** [next] once it is ready: a frame, or the end; [None] while it waits. *)
Definition next (q : WtChannelQueue) : option (WtChannelQueue * option bytes) :=
  match wq_frames q with
  | frame :: rest => Some (set_state q rest (wq_bytes q - len frame) (wq_closing q), Some frame)
  | [] => if wq_closing q then Some (q, None) else None
  end.

(** ** The writers and their router *)

(** [run_channel_writer]: the frame being written, the frames that are on the
    stream, and whether the stream was finished. A writer that has returned is
    not alive. *)
Record Writer := {
  wr_queue : WtChannelQueue;
  wr_sending : option bytes;
  wr_written : list bytes;
  wr_fin : bool;
  wr_alive : bool;
}.

Definition writer_new (overload : bytes) : Writer := {|
  wr_queue := queue_new overload; wr_sending := None; wr_written := []; wr_fin := false; wr_alive := true |}.
Definition set_queue (w : Writer) (q : WtChannelQueue) : Writer := {|
  wr_queue := q; wr_sending := wr_sending w; wr_written := wr_written w; wr_fin := wr_fin w; wr_alive := wr_alive w |}.

(** A turn of the loop: take the next frame, or finish the stream. *)
Definition writer_next (w : Writer) : option Writer :=
  if negb (wr_alive w) then None
  else
    match wr_sending w with
    | Some _ => None
    | None =>
        match next (wr_queue w) with
        | Some (q, Some frame) => Some {|
            wr_queue := q; wr_sending := Some frame; wr_written := wr_written w; wr_fin := false; wr_alive := true |}
        | Some (q, None) => Some {|
            wr_queue := q; wr_sending := None; wr_written := wr_written w; wr_fin := true; wr_alive := false |}
        | None => None
        end
    end.

(** [write_all] returns. *)
Definition writer_wrote (w : Writer) (ok : bool) : option Writer :=
  if negb (wr_alive w) then None
  else
    match wr_sending w with
    | Some frame => Some (if ok then {|
        wr_queue := wr_queue w; wr_sending := None; wr_written := wr_written w ++ [frame]; wr_fin := false;
        wr_alive := true |} else {|
        wr_queue := wr_queue w; wr_sending := Some frame; wr_written := wr_written w; wr_fin := false;
        wr_alive := false |})
    | None => None
    end.

(** The router of a session: its map of queues, and the writers of all streams
    that were registered. *)
Record Router := { ro_queues : gset Z; ro_writers : gmap Z Writer }.
Definition router_new : Router := {| ro_queues := ∅; ro_writers := ∅ |}.

Section router.
Context {PM : ProstMessage Envelope}.

Definition too_slow : Envelope := {|
  env_request_id := 0; env_server_id := []; env_shell_id := [];
  env_message := Some (MsgError {|
    err_code := error_code_i32 ErrTooSlow;
    err_human_message := lit "attachment output exceeded its bounded transport queue"; err_retryable := true |}) |}.

(** [expect("fixed slow-consumer error frame must encode")]: [None] is a panic. *)
Definition overload : option bytes :=
  match encode_frame too_slow FRAME_BYTES_DEFAULT with Ok b => Some b | Err _ => None end.

Definition alive (r : Router) (ch : Z) : bool :=
  match ro_writers r !! ch with Some w => wr_alive w | None => false end.

Inductive RouterLabel :=
  | RRegister (channel : Z)
  | RFrame (channel : Z) (env : Envelope)
  | RClose
  | RNext (channel : Z)
  | RWrote (channel : Z) (ok : bool).

(** A message of [writer_rx], its end, or a step of a channel's writer. *)
Definition router_step (o : bytes) (r : Router) (l : RouterLabel) : option Router :=
  match l with
  | RRegister ch =>
      let kept := filter (λ c, alive r c = true) (ro_queues r) in
      Some {| ro_queues := {[ch]} ∪ kept; ro_writers := <[ch := writer_new o]> (ro_writers r) |}
  | RFrame ch env =>
      if bool_decide (ch ∈ ro_queues r) then
        match encode_frame env FRAME_BYTES_DEFAULT with
        | Ok b => Some {| ro_queues := ro_queues r;
                          ro_writers := alter (λ w, set_queue w (push (wr_queue w) b)) ch (ro_writers r) |}
        | Err _ => Some r
        end
      else Some r
  | RClose => Some {| ro_queues := ∅;
      ro_writers := map_imap (λ c w, Some (if bool_decide (c ∈ ro_queues r)
                                           then set_queue w (close (wr_queue w)) else w)) (ro_writers r) |}
  | RNext ch => w ← ro_writers r !! ch; w ← writer_next w;
                Some {| ro_queues := ro_queues r; ro_writers := <[ch := w]> (ro_writers r) |}
  | RWrote ch ok => w ← ro_writers r !! ch; w ← writer_wrote w ok;
                    Some {| ro_queues := ro_queues r; ro_writers := <[ch := w]> (ro_writers r) |}
  end.

End router.

(** ** Static files *)

(** [resolve_static_path]: a file below the web root, or nothing. *)
Definition resolve_static_path (root path : str) : option str :=
  if (MAX_REQUEST_PATH_BYTES <? str_len path) || bool_decide (0x25 ∈ path) || bool_decide (0x5C ∈ path) then None
  else
    match path with
    | c :: relative =>
        if c =? SLASH then
          let relative := if is_empty relative then lit "index.html" else relative in
          if forallb (λ x, match x with Normal _ => true | _ => false end) (components relative)
          then Some (join root relative)
          else None
        else None
    | [] => None
    end.

Definition content_type_for (path : str) : str :=
  let ext := extension path in
  if decide (ext = Some (lit "html")) then lit "text/html; charset=utf-8"
  else if decide (ext = Some (lit "js")) then lit "text/javascript"
  else if decide (ext = Some (lit "css")) then lit "text/css"
  else if decide (ext = Some (lit "json") ∨ ext = Some (lit "map")) then lit "application/json"
  else if decide (ext = Some (lit "wasm")) then lit "application/wasm"
  else if decide (ext = Some (lit "svg")) then lit "image/svg+xml"
  else if decide (ext = Some (lit "png")) then lit "image/png"
  else if decide (ext = Some (lit "ico")) then lit "image/x-icon"
  else if decide (ext = Some (lit "woff2")) then lit "font/woff2"
  else if decide (ext = Some (lit "txt")) then lit "text/plain; charset=utf-8"
  else lit "application/octet-stream".

Inductive Method := GET | HEAD | OtherMethod.
Inductive CertificateMode := DevelopmentHashPin | WebPki.
Definition as_wire_name (m : CertificateMode) : str :=
  match m with DevelopmentHashPin => lit "hash-pin" | WebPki => lit "webpki" end.

(** [send_simple]: the head of the response, and its body unless the request was
    a HEAD. *)
Record Response := { rs_status : Z; rs_content_type : str; rs_content_length : Z; rs_body : bytes }.
Definition send_simple (status : Z) (content_type : str) (body : bytes) (method : Method) : Response := {|
  rs_status := status; rs_content_type := content_type; rs_content_length := len body;
  rs_body := match method with GET => body | _ => [] end |}.
Definition plain_text (status : Z) (text : str) (method : Method) : Response :=
  send_simple status (lit "text/plain; charset=utf-8") (str_bytes text) method.

Definition quoted (s : str) : str := 0x22 :: s ++ [0x22].
Definition webtransport_info_json (port : Z) (hash : str) (mode : CertificateMode) (password : bool) : str :=
  0x7B :: quoted (lit "port") ++ 0x3A :: dec_str port ++ 0x2C ::
  quoted (lit "certHashBase64") ++ 0x3A :: quoted hash ++ 0x2C ::
  quoted (lit "certificateMode") ++ 0x3A :: quoted (as_wire_name mode) ++ 0x2C ::
  quoted (lit "passwordAuth") ++ 0x3A :: (if password then lit "true" else lit "false") ++ [0x7D].

(** The files below the web root, as the daemon sees them: whether a path is a
    file and how long, and what reading it gives. *)
Record Files := { fi_metadata : str → option (bool * Z); fi_read : str → result bytes str }.

(** The response, and the file that was read for it. *)
Definition serve_h3_request (info : option (Z * str * CertificateMode)) (password : bool) (web_root : option str)
    (fs : Files) (method : Method) (path : str) : result (Response * option str) str :=
  match method with
  | OtherMethod => Ok (plain_text 405 (lit "method not allowed") method, None)
  | _ =>
      if decide (path = lit "/webtransport-info") then
        match info with
        | Some (port, hash, mode) =>
            Ok (send_simple 200 (lit "application/json")
                  (str_bytes (webtransport_info_json port hash mode password)) method, None)
        | None => Ok (plain_text 404 (lit "webtransport disabled") method, None)
        end
      else
        let not_found := Ok (plain_text 404 (lit "not found") method, None) in
        match web_root with
        | None => not_found
        | Some root =>
            match resolve_static_path root path with
            | None => not_found
            | Some file =>
                match fi_metadata fs file with
                | None => not_found
                | Some (is_file, length) =>
                    if negb is_file || (MAX_STATIC_FILE_BYTES <? length) then not_found
                    else
                      let? body := fi_read fs file in
                      Ok (send_simple 200 (content_type_for file) body method, Some file)
                end
            end
        end
  end.

(** ** Base64 *)
Definition ALPHABET : str := lit "ABCDEFGHIJKLMNOPQRSTUVWXYZabcdefghijklmnopqrstuvwxyz0123456789+/".
Definition alphabet_at (i : Z) : char := nth (Z.to_nat i) ALPHABET 0.

Definition base64_chunk (b0 : byte) (b1 b2 : option byte) : str :=
  let at_ o := from_option byte_Z 0 o in
  let n := Z.lor (Z.lor (Z.shiftl (byte_Z b0) 16) (Z.shiftl (at_ b1) 8)) (at_ b2) in
  [alphabet_at (Z.land (Z.shiftr n 18) 63); alphabet_at (Z.land (Z.shiftr n 12) 63);
   match b1 with Some _ => alphabet_at (Z.land (Z.shiftr n 6) 63) | None => 0x3D end;
   match b2 with Some _ => alphabet_at (Z.land n 63) | None => 0x3D end].

Fixpoint base64_encode (bs : bytes) : str :=
  match bs with
  | b0 :: b1 :: b2 :: rest => base64_chunk b0 (Some b1) (Some b2) ++ base64_encode rest
  | [b0; b1] => base64_chunk b0 (Some b1) None
  | [b0] => base64_chunk b0 None None
  | [] => []
  end.

Example base64_ex :
  map base64_encode (map (λ s, str_bytes (lit s)) ["f"; "fo"; "foo"; "foob"]%string) =
  map lit ["Zg=="; "Zm8="; "Zm9v"; "Zm9vYg=="]%string.
Proof. vm_compute. reflexivity. Qed.
