(* ===== verification/TransportProps.v ===== *)
(** * What a session's streams deliver

    Each channel's stream carries its frames in order, up to the overload frame
    that replaces a backlog; the queues keep their bounds. *)
From S2P Require Import Prelude Protocol Framing Paths Transport.

Definition total (frames : list bytes) : Z := len (concat frames).

Lemma queued_total_app xs ys : total (xs ++ ys) = total xs + total ys.
Proof. by rewrite /total concat_app len_app. Qed.
Lemma total_one x : total [x] = len x.
Proof. by rewrite /total /= app_nil_r. Qed.
Lemma total_cons x xs : total (x :: xs) = len x + total xs.
Proof. by rewrite /total /= len_app. Qed.
Lemma queued_total_nonneg xs : 0 ≤ total xs.
Proof. apply len_nonneg. Qed.

(** ** One queue *)
Record queue_ok (o : bytes) (q : WtChannelQueue) : Prop := {
  qo_caps : message_cap q = WT_CHANNEL_QUEUE_MESSAGES ∧ byte_cap q = WT_CHANNEL_QUEUE_BYTES ∧ overload_frame q = o;
  qo_bytes : wq_bytes q = total (wq_frames q);
  qo_messages : len (wq_frames q) ≤ WT_CHANNEL_QUEUE_MESSAGES;
  qo_size : wq_bytes q ≤ WT_CHANNEL_QUEUE_BYTES;
}.

Lemma push_ok o q b : len o ≤ WT_CHANNEL_QUEUE_BYTES → queue_ok o q → queue_ok o (push q b).
Proof.
  intros Ho [(C1 & C2 & C3) B M Z]. rewrite /push. case_match; [done|]. rewrite C1 C2 C3.
  case_match eqn:E; to_prop; split; simpl; try done.
  - by rewrite total_one.
  - by rewrite queued_total_app total_one B.
  - rewrite len_app len_cons len_nil. unfold WT_CHANNEL_QUEUE_MESSAGES in *. lia.
  - rewrite /sat_sub in H1. lia.
Qed.

Lemma close_ok o q : queue_ok o q → queue_ok o (close q).
Proof. intros [C B M Z]. by split. Qed.

Lemma next_ok o q q' x : queue_ok o q → next q = Some (q', x) → queue_ok o q'.
Proof.
  intros [C B M Z]. rewrite /next. destruct (wq_frames q) as [|f rest] eqn:E.
  - case_match; [|done]. intros [= <- <-]. split; [done|by rewrite B E|by rewrite E|done].
  - intros [= <- <-]. rewrite total_cons in B. rewrite len_cons in M. pose proof (len_nonneg f). pose proof (queued_total_nonneg rest).
    split; simpl; [done|lia|lia|lia].
Qed.

(** What a push does to the frames of a queue. *)
Lemma push_frames q b :
  (wq_closing q = true ∧ push q b = q) ∨
  (wq_closing q = false ∧ wq_closing (push q b) = true ∧ wq_frames (push q b) = [overload_frame q]) ∨
  (wq_closing q = false ∧ wq_closing (push q b) = false ∧ wq_frames (push q b) = wq_frames q ++ [b]).
Proof. rewrite /push. case_match; [by left|]. right. by case_match; [left|right]. Qed.

(** ** One writer *)

(** What is on the stream, being written, or queued. *)
Definition line (w : Writer) : list bytes :=
  wr_written w ++ option_list (wr_sending w) ++ wq_frames (wr_queue w).

Record writer_ok (o : bytes) (registered : bool) (fs : list bytes) (w : Writer) : Prop := {
  wo_queue : queue_ok o (wr_queue w);
  wo_line : ∃ kept ov, line w = kept ++ ov ∧ kept `prefix_of` fs ∧
    (ov = [] ∨ ov = [o] ∧ wq_closing (wr_queue w) = true);
  wo_all : registered = true → wq_closing (wr_queue w) = false → line w = fs;
  wo_fin : wr_fin w = true → line w = wr_written w ∧ wq_closing (wr_queue w) = true ∧ wr_alive w = false;
}.

Lemma writer_new_ok o : writer_ok o true [] (writer_new o).
Proof. split; [by split| |done|done]. exists [], []. split_and!; [done|done|by left]. Qed.

Lemma writer_ok_weaken o reg fs b w : writer_ok o reg fs w → writer_ok o false (fs ++ b) w.
Proof.
  intros [Q (kept & ov & Hl & Hp & Ho) A F]. split; [done| |done|done].
  exists kept, ov. split_and!; [done| |done]. etrans; [done|]. by apply prefix_app_r.
Qed.

Lemma writer_push_ok o fs b w :
  len o ≤ WT_CHANNEL_QUEUE_BYTES → writer_ok o true fs w →
  writer_ok o true (fs ++ [b]) (set_queue w (push (wr_queue w) b)).
Proof.
  intros Ho [Q (kept & ov & Hl & Hp & Hov) A F]. pose proof (push_ok o _ b Ho Q) as Q'.
  destruct (qo_caps _ _ Q) as (_ & _ & Hof).
  destruct (push_frames (wr_queue w) b) as [[Hc ->]|[(Hc & Hc' & Hf)|(Hc & Hc' & Hf)]]; split; simpl; try done.
  - exists kept, ov. split_and!; [done| |done]. etrans; [done|]. by apply prefix_app_r.
  - congruence.
  - exists (wr_written w ++ option_list (wr_sending w)), [o]. rewrite /line /= Hf Hof app_assoc. split_and!; [done| |by right].
    specialize (A eq_refl Hc). rewrite -A /line. rewrite -app_assoc. rewrite app_assoc -app_assoc. 
    apply prefix_app, prefix_app_r, prefix_app_r. done.
  - congruence.
  - intros Hfin. destruct (F Hfin) as (_ & Hcl & _). congruence.
  - exists (fs ++ [b]), []. specialize (A eq_refl Hc). rewrite /line /= Hf app_nil_r -A /line -!app_assoc. split_and!; [done|done|by left].
  - intros _ _. specialize (A eq_refl Hc). by rewrite /line /= Hf -A /line -!app_assoc.
  - intros Hfin. destruct (F Hfin) as (_ & Hcl & _). congruence.
Qed.

Lemma writer_close_ok o reg fs w : writer_ok o reg fs w → writer_ok o false fs (set_queue w (close (wr_queue w))).
Proof.
  intros [Q (kept & ov & Hl & Hp & Hov) A F]. split; simpl; [by apply close_ok| |done|].
  - exists kept, ov. split_and!; [done..|]. destruct Hov as [->|[-> _]]; [by left|by right].
  - intros Hf. by destruct (F Hf) as (? & _ & ?).
Qed.

Lemma writer_next_ok o reg fs w w' : writer_ok o reg fs w → writer_next w = Some w' → writer_ok o reg fs w'.
Proof.
  intros [Q (kept & ov & Hl & Hp & Hov) A F]. rewrite /writer_next. case_match; [done|].
  destruct (wr_sending w) eqn:Es; [done|]. destruct (next (wr_queue w)) as [[q x]|] eqn:En; [|done].
  pose proof (next_ok _ _ _ _ Q En) as Q'. rewrite /line Es /= in Hl A.
  revert En. rewrite /next. destruct (wq_frames (wr_queue w)) as [|f rest] eqn:Ef.
  - destruct (wq_closing (wr_queue w)) eqn:Ec; [|done]. intros [= <- <-]. intros [= <-]. rewrite app_nil_r in Hl.
    split; [done| |simpl; congruence|]; rewrite /line /= Ef app_nil_r.
    + exists kept, ov. by rewrite Ec.
    + intros _. by rewrite Ec.
  - intros [= <- <-] [= <-]. split; [done| | |done]; rewrite /line /=.
    + by exists kept, ov.
    + exact A.
Qed.

Lemma writer_wrote_ok o reg fs w ok w' :
  writer_ok o reg fs w → writer_wrote w ok = Some w' → writer_ok o reg fs w'.
Proof.
  intros [Q (kept & ov & Hl & Hp & Hov) A F]. rewrite /writer_wrote. case_match; [done|].
  destruct (wr_sending w) as [f|] eqn:Es; [|done]. rewrite /line Es /= in Hl A. intros [= <-].
  destruct ok; split; try done; rewrite /line /= -?app_assoc; try done; by exists kept, ov.
Qed.

(** ** All channels *)
Section router.
Context {PM : ProstMessage Envelope}.

(** What was routed to a channel since it was registered. *)
Definition routed (l : RouterLabel) (log : gmap Z (list bytes)) : gmap Z (list bytes) :=
  match l with
  | RRegister ch => <[ch := []]> log
  | RFrame ch env =>
      match encode_frame env FRAME_BYTES_DEFAULT with
      | Ok b => alter (λ fs, fs ++ [b]) ch log
      | Err _ => log
      end
  | _ => log
  end.

(** The runs of a router; a channel is registered once. *)
Inductive router_run (o : bytes) : Router → gmap Z (list bytes) → Prop :=
  | rr_start : router_run o router_new ∅
  | rr_step r log l r' :
      router_run o r log → (∀ ch, l = RRegister ch → ro_writers r !! ch = None) →
      router_step o r l = Some r' → router_run o r' (routed l log).

Record router_ok (o : bytes) (r : Router) (log : gmap Z (list bytes)) : Prop := {
  rk_dom ch : is_Some (ro_writers r !! ch) ↔ is_Some (log !! ch);
  rk_queues ch : ch ∈ ro_queues r → is_Some (ro_writers r !! ch);
  rk_writers ch w fs : ro_writers r !! ch = Some w → log !! ch = Some fs →
    writer_ok o (bool_decide (ch ∈ ro_queues r)) fs w;
}.

Lemma router_step_ok o r log l r' :
  len o ≤ WT_CHANNEL_QUEUE_BYTES → router_ok o r log →
  (∀ ch, l = RRegister ch → ro_writers r !! ch = None) →
  router_step o r l = Some r' → router_ok o r' (routed l log).
Proof.
  intros Ho [D Q W] Hfresh. destruct l as [ch|ch env| |ch|ch ok]; simpl.
  - intros [= <-]. specialize (Hfresh _ eq_refl). split; simpl.
    + intros c. destruct (decide (c = ch)) as [->|]; [rewrite !lookup_insert_eq; by split; eexists|by rewrite !lookup_insert_ne].
    + intros c. rewrite elem_of_union elem_of_singleton elem_of_filter. intros [->|[_ Hc]]; [rewrite lookup_insert_eq; by eexists|].
      destruct (decide (c = ch)) as [->|]; [rewrite lookup_insert_eq; by eexists|]. rewrite lookup_insert_ne //. by apply Q.
    + intros c w fs. destruct (decide (c = ch)) as [->|Hne].
      * rewrite !lookup_insert_eq. intros [= <-] [= <-]. rewrite bool_decide_eq_true_2; [apply writer_new_ok|set_solver].
      * rewrite !lookup_insert_ne //. intros Hw Hl. case_bool_decide as Hin; specialize (W _ _ _ Hw Hl).
        -- rewrite bool_decide_eq_true_2 in W; [done|]. set_solver.
        -- apply (writer_ok_weaken _ _ _ []) in W. by rewrite app_nil_r in W.
  - destruct (encode_frame env FRAME_BYTES_DEFAULT) as [b|e] eqn:Ee.
    + assert (∀ fs w, log !! ch = Some fs → ro_writers r !! ch = Some w → writer_ok o (bool_decide (ch ∈ ro_queues r)) fs w) by auto.
      intros Hs. assert (ro_queues r' = ro_queues r ∧ ro_writers r' = if bool_decide (ch ∈ ro_queues r)
        then alter (λ w, set_queue w (push (wr_queue w) b)) ch (ro_writers r) else ro_writers r) as [Eq Ew].
      { revert Hs. case_bool_decide; by intros [= <-]. }
      assert (∀ c, is_Some (ro_writers r' !! c) ↔ is_Some (ro_writers r !! c)) as Hd.
      { intros c. rewrite Ew. case_bool_decide; [|done]. destruct (decide (c = ch)) as [->|];
          [by rewrite lookup_alter_eq fmap_is_Some|by rewrite lookup_alter_ne]. }
      split; rewrite ?Eq.
      * intros c. rewrite Hd D. destruct (decide (c = ch)) as [->|]; [by rewrite lookup_alter_eq fmap_is_Some|by rewrite lookup_alter_ne].
      * intros c Hc. rewrite Hd. by apply Q.
      * intros c w fs. destruct (decide (c = ch)) as [->|Hne].
        -- rewrite lookup_alter_eq Ew. case_bool_decide as Hin.
           ++ rewrite lookup_alter_eq. intros (w0 & Hw0 & ->)%fmap_Some (fs0 & Hf0 & ->)%fmap_Some.
              apply writer_push_ok; [done|]. by specialize (H _ _ Hf0 Hw0).
           ++ intros Hw (fs0 & Hf0 & ->)%fmap_Some. specialize (H _ _ Hf0 Hw). by apply (writer_ok_weaken _ _ _ [b]) in H.
        -- rewrite lookup_alter_ne // Ew. case_bool_decide; [rewrite lookup_alter_ne //|]; apply W.
    + intros Hs. assert (r' = r) as -> by (revert Hs; case_bool_decide; by intros [= <-]). by split.
  - intros [= <-]. split; simpl.
    + intros c. rewrite map_lookup_imap -D. by destruct (ro_writers r !! c).
    + set_solver.
    + intros c w fs. rewrite map_lookup_imap. destruct (ro_writers r !! c) as [w0|] eqn:Ew; [|done]. simpl.
      intros [= <-] Hl. rewrite bool_decide_eq_false_2; [|set_solver]. specialize (W _ _ _ Ew Hl).
      destruct (bool_decide (c ∈ ro_queues r)); [by eapply writer_close_ok|].
      apply (writer_ok_weaken _ _ _ []) in W. by rewrite app_nil_r in W.
  - destruct (ro_writers r !! ch) as [w0|] eqn:Ew; [|done]. simpl. destruct (writer_next w0) as [w1|] eqn:En; [|done].
    simpl. intros [= <-]. split; simpl.
    + intros c. rewrite -D. destruct (decide (c = ch)) as [->|]; [rewrite lookup_insert_eq Ew; by split; eexists|by rewrite lookup_insert_ne].
    + intros c Hc. destruct (decide (c = ch)) as [->|]; [rewrite lookup_insert_eq; by eexists|rewrite lookup_insert_ne //; by apply Q].
    + intros c w fs [[<- <-]|[Hne Hw]]%lookup_insert_Some Hl; [|by apply W]. eapply writer_next_ok; [by apply W|done].
  - destruct (ro_writers r !! ch) as [w0|] eqn:Ew; [|done]. simpl. destruct (writer_wrote w0 ok) as [w1|] eqn:En; [|done].
    simpl. intros [= <-]. split; simpl.
    + intros c. rewrite -D. destruct (decide (c = ch)) as [->|]; [rewrite lookup_insert_eq Ew; by split; eexists|by rewrite lookup_insert_ne].
    + intros c Hc. destruct (decide (c = ch)) as [->|]; [rewrite lookup_insert_eq; by eexists|rewrite lookup_insert_ne //; by apply Q].
    + intros c w fs [[<- <-]|[Hne Hw]]%lookup_insert_Some Hl; [|by apply W]. eapply writer_wrote_ok; [by apply W|done].
Qed.

Lemma router_run_ok o r log : len o ≤ WT_CHANNEL_QUEUE_BYTES → router_run o r log → router_ok o r log.
Proof.
  intros Ho. induction 1 as [|r log l r' _ IH Hf Hs]; [|by eapply router_step_ok].
  split; simpl.
  - intros ch. by rewrite !lookup_empty.
  - intros ch []%not_elem_of_empty.
  - intros ch w fs. by rewrite lookup_empty.
Qed.

Lemma encoded_size env b : encode_frame env FRAME_BYTES_DEFAULT = Ok b → len b ≤ FRAME_BYTES_DEFAULT + 4.
Proof.
  intros He. destruct (encode_frame_Ok _ _ _ He) as (hdr & -> & Hh & _ & Hl); [done|].
  rewrite len_app /len Hh. unfold len in Hl. lia.
Qed.

(** C22: in any interleaving of the router with the writers of all channels, the
    stream of each channel carries, in order and once, the frames routed to it:
    all of them while its queue is open, otherwise the first of them and then,
    if a frame did not fit, the one retryable slow-consumer error. A stream is
    finished only when all of that is written. A queue never holds more than
    128 frames or 1 MiB and its byte count is exact, and a frame always fits an
    empty queue. *)
Theorem channel_delivery o r log ch w fs :
  overload = Some o → router_run o r log → ro_writers r !! ch = Some w → log !! ch = Some fs →
  (∃ kept ov, line w = kept ++ ov ∧ kept `prefix_of` fs ∧ (ov = [] ∨ ov = [o])) ∧
  (ch ∈ ro_queues r → wq_closing (wr_queue w) = false → line w = fs) ∧
  (wr_fin w = true → line w = wr_written w) ∧
  wq_bytes (wr_queue w) = total (wq_frames (wr_queue w)) ∧
  len (wq_frames (wr_queue w)) ≤ 128 ∧ wq_bytes (wr_queue w) ≤ 1024 * 1024 ∧
  (∀ env b, encode_frame env FRAME_BYTES_DEFAULT = Ok b → wq_frames (wr_queue w) = [] →
     wq_closing (wr_queue w) = false → wq_frames (push (wr_queue w) b) = [b]).
Proof.
  rewrite /overload. destruct (encode_frame too_slow FRAME_BYTES_DEFAULT) as [b|] eqn:Eo; [|done]. intros [= ->] R Hw Hl.
  assert (len o ≤ WT_CHANNEL_QUEUE_BYTES) as Ho.
  { apply encoded_size in Eo. unfold FRAME_BYTES_DEFAULT, WT_CHANNEL_QUEUE_BYTES in *. lia. }
  destruct (rk_writers _ _ _ (router_run_ok _ _ _ Ho R) _ _ _ Hw Hl) as [Q (kept & ov & Hk & Hp & Hov) A F].
  destruct Q as [(C1 & C2 & _) B M S]. split_and!; try done.
  - exists kept, ov. split_and!; [done..|]. destruct Hov as [->|[-> _]]; auto.
  - intros Hin. apply A. by apply bool_decide_eq_true.
  - intros Hf. by apply F.
  - intros env b He Hempty Hopen. apply encoded_size in He. rewrite /push Hopen C1 C2 B Hempty.
    case_match eqn:E; [|done]. exfalso. apply orb_true_iff in E as [E|E]; to_prop; unfold sat_sub, total, len, WT_CHANNEL_QUEUE_MESSAGES, WT_CHANNEL_QUEUE_BYTES, FRAME_BYTES_DEFAULT in *; simpl in *; lia.
Qed.

End router.

(** ** Static files stay below the root *)
Definition plain_name (n : str) : Prop := SLASH ∉ n ∧ n ≠ [] ∧ n ≠ lit "." ∧ n ≠ lit "..".

Lemma normal_components relative :
  relative ≠ [] →
  forallb (λ x, match x with Normal _ => true | _ => false end) (components relative) = true →
  lead relative = [] ∧ ∃ names, components relative = map Normal names ∧ names ≠ [] ∧ Forall plain_name names.
Proof.
  intros Hr Hall. assert (lead relative = []) as Hl.
  { revert Hall. rewrite /components. rewrite /lead. destruct (is_absolute relative); [done|]. by case_match. }
  split; [done|]. rewrite /components Hl /= in Hall |- *.
  pose proof (named_clean _ (split_char_clean SLASH relative)) as Hc.
  assert (named (split_char SLASH relative) ≠ []) as Hn.
  { revert Hl. rewrite /lead /is_absolute. destruct relative as [|c s]; [done|]. simpl.
    case_bool_decide as Ha; [done|]. rewrite (proj2 (Z.eqb_neq c SLASH)); [|congruence]. case_bool_decide as Hd; [done|]. intros _.
    assert (∀ p ps, p ≠ [] → p ≠ lit "." → named (p :: ps) ≠ []) as Hcons.
    { intros p ps Hp Hp'. rewrite /named filter_cons_True /=; [done|]. rewrite /said. destruct p; [done|]. simpl.
      by rewrite bool_decide_eq_false_2. }
    destruct (split_char SLASH s) as [|p ps]; simpl in Hd; apply Hcons; congruence. }
  revert Hall Hc Hn. generalize (named (split_char SLASH relative)). intros cs Hall Hc Hn.
  assert (∃ names, cs = map Normal names ∧ Forall plain_name names) as (names & -> & Hp).
  { clear Hn. induction cs as [|x cs IH]; [by exists []|]. simpl in Hall. to_prop. apply Forall_cons in Hc as [Hx Hcs].
    destruct (IH H0 Hcs) as (names & -> & Hf). destruct x as [| | |n]; try done. exists (n :: names). by split; [|constructor]. }
  exists names. split_and!; [done| |done]. by intros ->.
Qed.

Lemma resolve_below root path file :
  resolve_static_path root path = Some file →
  ∃ names, names ≠ [] ∧ Forall plain_name names ∧ components file = components root ++ map Normal names.
Proof.
  rewrite /resolve_static_path. case_match; [done|]. destruct path as [|c relative]; [done|]. case_match; [|done].
  case_match eqn:Ea; [|done]. intros [= <-].
  assert ((if is_empty relative then lit "index.html" else relative) ≠ []) as Hr by (by destruct relative).
  destruct (normal_components _ Hr Ea) as (Hl & names & Hc & Hn & Hp).
  exists names. split_and!; [done|done|]. by rewrite components_join // Hc.
Qed.

(** C35: a file that is read for a request lies strictly below the web root: its path
    is the root's components followed by plain names, without a parent
    component, and it was a regular file within the size limit; only GET and
    HEAD read files, and only GET sends their contents. *)
Theorem static_confined info password web_root fs method path resp file :
  serve_h3_request info password web_root fs method path = Ok (resp, Some file) →
  (method = GET ∨ method = HEAD) ∧
  (∃ root names, web_root = Some root ∧ names ≠ [] ∧ Forall plain_name names ∧
     components file = components root ++ map Normal names) ∧
  (∃ n, fi_metadata fs file = Some (true, n) ∧ n ≤ MAX_STATIC_FILE_BYTES) ∧
  ∃ body, fi_read fs file = Ok body ∧ rs_status resp = 200 ∧ rs_content_length resp = len body ∧
    rs_body resp = (match method with GET => body | _ => [] end).
Proof.
  intros Hs. assert (method ≠ OtherMethod) as Hm by (intros ->; done). revert Hs. rewrite /serve_h3_request.
  assert (∀ X, (match method with OtherMethod => Ok (plain_text 405 (lit "method not allowed") method, None) | _ => X end) = X) as ->
    by (by destruct method).
  case_decide; [by destruct info as [[[] ]|]|]. destruct web_root as [root|]; [|done].
  destruct (resolve_static_path root path) as [f|] eqn:Er; [|done].
  destruct (fi_metadata fs f) as [[is_file n]|] eqn:Ef; [|done]. case_match eqn:Ec; [done|]. to_prop.
  destruct (fi_read fs f) as [body|] eqn:Eb; [|done]. intros [= <- <-]. split_and!.
  - destruct method; auto. done.
  - destruct (resolve_below _ _ _ Er) as (names & Hn & Hp & Hc). by exists root, names.
  - exists n. by subst.
  - by exists body.
Qed.

(** ** Base64 *)

(** The reference decoder of RFC 4648: the digits of a chunk, back to octets. *)
Definition digit_of (c : char) : option Z :=
  if is_ascii_upper c then Some (c - 0x41) else if is_ascii_lower c then Some (c - 0x61 + 26)
  else if is_ascii_digit c then Some (c - 0x30 + 52)
  else if c =? 0x2B then Some 62 else if c =? 0x2F then Some 63 else None.

Fixpoint base64_decode (s : str) : option bytes :=
  match s with
  | [] => Some []
  | a :: b :: c :: d :: rest =>
      a ← digit_of a; b ← digit_of b;
      if (c =? 0x3D) && (d =? 0x3D) && is_empty rest then Some [Z_byte (a * 4 + b / 16)]
      else
        c ← digit_of c;
        if (d =? 0x3D) && is_empty rest then Some [Z_byte (a * 4 + b / 16); Z_byte (b mod 16 * 16 + c / 4)]
        else
          d ← digit_of d; rest ← base64_decode rest;
          Some (Z_byte (a * 4 + b / 16) :: Z_byte (b mod 16 * 16 + c / 4) :: Z_byte (c mod 4 * 64 + d) :: rest)
  | _ => None
  end.

Definition digit_ok (i : Z) : bool :=
  match digit_of (alphabet_at i) with Some j => j =? i | None => false end && negb (alphabet_at i =? 0x3D).
Lemma alphabet_digit i : 0 ≤ i < 64 → digit_of (alphabet_at i) = Some i ∧ (alphabet_at i =? 0x3D) = false.
Proof.
  intros Hi. assert (forallb digit_ok (seqZ 0 64) = true) as Hall by (vm_compute; reflexivity).
  pose proof (forallb_seqZ _ _ _ Hall i ltac:(lia)) as H. rewrite /digit_ok in H. apply andb_true_iff in H as [H1 H2].
  apply negb_true_iff in H2. split; [|done]. case_match; [|done]. by apply Z.eqb_eq in H1 as ->.
Qed.

(** The six-bit digits of three octets. *)
Lemma digits_of x y z :
  0 ≤ x < 256 → 0 ≤ y < 256 → 0 ≤ z < 256 →
  let n := Z.lor (Z.lor (Z.shiftl x 16) (Z.shiftl y 8)) z in
  Z.land (Z.shiftr n 18) 63 = x / 4 ∧ Z.land (Z.shiftr n 12) 63 = x mod 4 * 16 + y / 16 ∧
  Z.land (Z.shiftr n 6) 63 = y mod 16 * 4 + z / 64 ∧ Z.land n 63 = z mod 64.
Proof.
  intros Hx Hy Hz n. assert (n = x * 65536 + y * 256 + z) as Hn.
  { rewrite /n (Z.lor_comm (Z.lor _ _)) (Z.lor_comm (Z.shiftl x 16)).
    replace (Z.shiftl x 16) with (Z.shiftl (Z.shiftl x 8) 8) by (by rewrite Z.shiftl_shiftl).
    rewrite -Z.shiftl_lor (lor_shiftl_add z) //. rewrite (lor_shiftl_add y) //. lia. }
  change 63 with (Z.ones 6). rewrite !Z.land_ones // !Z.shiftr_div_pow2 // Hn. split_and!; simpl; zlia.
Qed.

Lemma octets_back x y z :
  0 ≤ x < 256 → 0 ≤ y < 256 → 0 ≤ z < 256 →
  x / 4 * 4 + (x mod 4 * 16 + y / 16) / 16 = x ∧
  (x mod 4 * 16 + y / 16) mod 16 * 16 + (y mod 16 * 4 + z / 64) / 4 = y ∧
  (y mod 16 * 4 + z / 64) mod 4 * 64 + z mod 64 = z.
Proof. intros. split_and!; zlia. Qed.

(** One chunk, given the digits of its octets. *)
Lemma chunk_digits b0 b1 b2 (x := byte_Z b0) (y := from_option byte_Z 0 b1) (z := from_option byte_Z 0 b2) :
  ∃ d0 d1 d2 d3, base64_chunk b0 b1 b2 = [alphabet_at d0; alphabet_at d1;
      if b1 then alphabet_at d2 else 0x3D; if b2 then alphabet_at d3 else 0x3D] ∧
    0 ≤ d0 < 64 ∧ 0 ≤ d1 < 64 ∧ 0 ≤ d2 < 64 ∧ 0 ≤ d3 < 64 ∧
    d0 * 4 + d1 / 16 = x ∧ d1 mod 16 * 16 + d2 / 4 = y ∧ d2 mod 4 * 64 + d3 = z.
Proof.
  assert (∀ o, 0 ≤ from_option byte_Z 0 o < 256) as Hr by (intros [b|]; [apply byte_Z_range|simpl; lia]).
  pose proof (byte_Z_range b0) as R0. pose proof (Hr b1) as R1. pose proof (Hr b2) as R2.
  destruct (digits_of x y z) as (D0 & D1 & D2 & D3); [done..|]. destruct (octets_back x y z) as (O0 & O1 & O2); [done..|].
  exists (x / 4), (x mod 4 * 16 + y / 16), (y mod 16 * 4 + z / 64), (z mod 64).
  split; [rewrite /base64_chunk -/x -/y -/z D0 D1 D2 D3; by destruct b1, b2|].
  subst x y z. split_and!; try done; zlia.
Qed.

(** Encoding a certificate hash loses nothing: the reference decoder gives the
    bytes back, and the text has four characters per three bytes, rounded up. *)
Theorem base64_roundtrip bs :
  base64_decode (base64_encode bs) = Some bs ∧ len (base64_encode bs) = (len bs + 2) / 3 * 4.
Proof.
  induction bs as [bs IH] using (induction_ltof1 _ length). unfold ltof in IH.
  destruct bs as [|b0 [|b1 [|b2 rest]]]; [done| | |].
  - split; [|done]. destruct (chunk_digits b0 None None) as (d0 & d1 & d2 & d3 & E & H0 & H1 & _ & _ & O0 & _ & _).
    cbn [base64_encode]. rewrite E. cbn [base64_decode].
    rewrite (proj1 (alphabet_digit d0 H0)) (proj1 (alphabet_digit d1 H1)) /= O0 Z_byte_of_byte //.
  - split; [|done]. destruct (chunk_digits b0 (Some b1) None) as (d0 & d1 & d2 & d3 & E & H0 & H1 & H2 & _ & O0 & O1 & _).
    cbn [base64_encode]. rewrite E. cbn [base64_decode].
    destruct (alphabet_digit d2 H2) as [-> ->].
    rewrite (proj1 (alphabet_digit d0 H0)) (proj1 (alphabet_digit d1 H1)) /= O0 O1 !Z_byte_of_byte //.
  - destruct (chunk_digits b0 (Some b1) (Some b2)) as (d0 & d1 & d2 & d3 & E & H0 & H1 & H2 & H3 & O0 & O1 & O2).
    destruct (IH rest) as [Hd Hl]; [simpl; lia|]. cbn [base64_encode]. rewrite E. split.
    + cbn [app base64_decode]. destruct (alphabet_digit d2 H2) as [-> ->], (alphabet_digit d3 H3) as [-> ->].
      rewrite (proj1 (alphabet_digit d0 H0)) (proj1 (alphabet_digit d1 H1)) /= Hd /= O0 O1 O2 !Z_byte_of_byte //.
    + rewrite len_app Hl !len_cons len_nil. zlia.
Qed.
