(* ===== verification/TransportSession.v ===== *)
(** * A session between its streams and its connection

    [ProtocolSessionRuntime] of [crates/daemon/src/webtransport.rs]: every
    accepted stream gets the next channel number and a reader task; the readers
    share one [Conn] behind a mutex, which they take for one message at a time.
    The WebSocket loop of [crates/daemon/src/ws.rs] is here too. *)
From S2P Require Import Prelude Protocol Framing Wire Auth Ids Observability Negotiate History TerminalModel Launch SessionCore SessionSteps SessionProps RateLimiter UploadProto UploadStore Uploads Forward Conn ConnProps Transport.

(** Where a reader is: waiting for data, taking frames from its decoder, past its
    loop, done. *)
Inductive ReaderPhase := RdWaiting | RdFrames | RdEnding | RdDone.
Record Reader := { rd_decoder : FrameDecoder; rd_phase : ReaderPhase }.
Definition reader_new : Reader := {| rd_decoder := decoder_new FRAME_BYTES_DEFAULT; rd_phase := RdWaiting |}.

Section session.
Context {V : VtOps} {P : PtyOps} {S : HashOps} {A : AuthOps} {B : UploadBackend}
        {T : ErrorText PtyError} {PM : ProstMessage Envelope} (H : Host).

(** [rt_close] is the value of the watch channel that ends the session. *)
Record Runtime := {
  rt_world : World;
  rt_next_channel : Z;
  rt_readers : gmap Z Reader;
  rt_close : bool;
  rt_finished : bool;
}.

Definition runtime_new (w : World) : Runtime := {|
  rt_world := w; rt_next_channel := 0; rt_readers := ∅; rt_close := false; rt_finished := false |}.

Definition set_reader (r : Runtime) (ch : Z) (d : FrameDecoder) (p : ReaderPhase) : Runtime := {|
  rt_world := rt_world r; rt_next_channel := rt_next_channel r;
  rt_readers := <[ch := {| rd_decoder := d; rd_phase := p |}]> (rt_readers r);
  rt_close := rt_close r; rt_finished := rt_finished r |}.
Definition set_world (r : Runtime) (w : World) : Runtime := {|
  rt_world := w; rt_next_channel := rt_next_channel r; rt_readers := rt_readers r; rt_close := rt_close r;
  rt_finished := rt_finished r |}.
Definition set_close (r : Runtime) : Runtime := {|
  rt_world := rt_world r; rt_next_channel := rt_next_channel r; rt_readers := rt_readers r; rt_close := true;
  rt_finished := rt_finished r |}.

(** [finish]: the readers are aborted and the connection lets go of everything. *)
Definition finish (r : Runtime) : option Runtime :=
  '(w, _) ← detach_all (rt_world r);
  Some {| rt_world := w; rt_next_channel := rt_next_channel r; rt_readers := ∅; rt_close := rt_close r;
          rt_finished := true |}.

(** A stream is accepted, or cannot be numbered any more. *)
Definition register (r : Runtime) : option Runtime :=
  match checked_add64 (rt_next_channel r) 1 with
  | None => finish r
  | Some next => Some {|
      rt_world := rt_world r; rt_next_channel := next;
      rt_readers := <[rt_next_channel r := reader_new]> (rt_readers r);
      rt_close := rt_close r; rt_finished := rt_finished r |}
  end.

(** [recv.read]: data, or the end of the stream. *)
Definition on_chunk (r : Runtime) (ch : Z) (data : bytes) : option Runtime :=
  match rt_readers r !! ch with
  | Some {| rd_decoder := d; rd_phase := RdWaiting |} =>
      match extend d data with
      | (d, Ok _) => Some (set_reader r ch d RdFrames)
      | (d, Err _) => Some (set_close (set_reader r ch d RdEnding))
      end
  | _ => None
  end.
Definition on_eof (r : Runtime) (ch : Z) : option Runtime :=
  match rt_readers r !! ch with
  | Some {| rd_decoder := d; rd_phase := RdWaiting |} => Some (set_reader r ch d RdEnding)
  | _ => None
  end.

(** One turn of the inner loop, with the message it dispatched. *)
Definition on_frame (r : Runtime) (ch : Z) (inp : Inputs) : option (Runtime * option Envelope) :=
  match rt_readers r !! ch with
  | Some {| rd_decoder := d; rd_phase := RdFrames |} =>
      match next_frame d with
      | (d, Ok (Some envelope)) =>
          '(w, go_on) ← dispatch H inp ch envelope (rt_world r);
          let r := set_world r w in
          Some (if (go_on : bool) then set_reader r ch d RdFrames else set_close (set_reader r ch d RdEnding),
                Some envelope)
      | (d, Ok None) => Some (set_reader r ch d RdWaiting, None)
      | (d, Err _) => Some (set_close (set_reader r ch d RdEnding), None)
      end
  | _ => None
  end.

(** After the loop: the control stream ends the session, another stream only
    itself. *)
Definition on_end (r : Runtime) (ch : Z) : option Runtime :=
  match rt_readers r !! ch with
  | Some {| rd_decoder := d; rd_phase := RdEnding |} =>
      if ch =? 0 then Some (set_close (set_reader r ch d RdDone))
      else '(w, _) ← channel_closed ch (rt_world r); Some (set_reader (set_world r w) ch d RdDone)
  | _ => None
  end.

(** Steps of the session; [SElsewhere]: whatever else the daemon does meanwhile.
    [SFinish]: the close signal is seen or no more streams come. *)
Inductive SessionLabel :=
  | SRegister
  | SChunk (channel : Z) (data : bytes)
  | SEof (channel : Z)
  | SFrame (channel : Z) (inp : Inputs)
  | SEnd (channel : Z)
  | SElsewhere (w : World)
  | SFinish.

Definition quiet (o : option Runtime) : option (Runtime * option (Z * Envelope)) :=
  match o with Some r => Some (r, None) | None => None end.

Definition session_step (r : Runtime) (l : SessionLabel) : option (Runtime * option (Z * Envelope)) :=
  if rt_finished r then None
  else
    match l with
    | SRegister => quiet (register r)
    | SChunk ch data => quiet (on_chunk r ch data)
    | SEof ch => quiet (on_eof r ch)
    | SFrame ch inp =>
        match on_frame r ch inp with
        | Some (r, Some env) => Some (r, Some (ch, env))
        | Some (r, None) => Some (r, None)
        | None => None
        end
    | SEnd ch => quiet (on_end r ch)
    | SElsewhere w => Some (set_world r w, None)
    | SFinish => quiet (finish r)
    end.

(** ** WebSocket *)
Inductive WsMessage := WsBinary (data : bytes) | WsClose | WsOther.

(** A message that was received; false: the loop ends. *)
Definition ws_turn (error_text : WireError → str) (inp : Inputs) (m : WsMessage) : M World bool :=
  match m with
  | WsClose => ret false
  | WsOther => ret true
  | WsBinary data =>
      let* c := get conn in
      match decode_message data (max_frame_bytes c) with
      | Ok (channel, envelope) => dispatch H inp channel envelope
      | Err e => let* _ := send_error 0 ErrFrameTooLarge (error_text e) in ret false
      end
  end.

Fixpoint ws_loop (error_text : WireError → str) (ms : list (Inputs * WsMessage)) : M World unit :=
  match ms with
  | [] => detach_all
  | (inp, m) :: ms =>
      let* go_on := ws_turn error_text inp m in
      if go_on then ws_loop error_text ms else detach_all
  end.

(** The writer task: what a queued envelope becomes; one that does not encode is
    dropped. *)
Definition ws_write (out : list (Z * Envelope)) : list bytes :=
  omap (λ '(channel, envelope),
    match encode_message channel envelope FRAME_BYTES_DEFAULT with Ok b => Some b | Err _ => None end) out.

(** ** What is dispatched *)

(** The runs of a session, with the messages dispatched and the data each stream
    has given. *)
Definition heard (l : SessionLabel) (r r' : Runtime) (data : gmap Z bytes) : gmap Z bytes :=
  match l with
  | SRegister => if rt_finished r' then data else <[rt_next_channel r := []]> data
  | SChunk ch bs => alter (λ old, old ++ bs) ch data
  | _ => data
  end.

Inductive session_run (w0 : World) : Runtime → list (Z * Envelope) → gmap Z bytes → Prop :=
  | sr_start : session_run w0 (runtime_new w0) [] ∅
  | sr_step r log data l r' out :
      session_run w0 r log data → session_step r l = Some (r', out) →
      session_run w0 r' (log ++ option_list out) (heard l r r' data).

Definition on_channel (ch : Z) (log : list (Z * Envelope)) : list Envelope :=
  omap (λ '(c, env), if bool_decide (c = ch) then Some env else None) log.

Lemma on_channel_app ch log log' : on_channel ch (log ++ log') = on_channel ch log ++ on_channel ch log'.
Proof. apply omap_app. Qed.
Lemma on_channel_nil ch : on_channel ch [] = [].
Proof. done. Qed.
Lemma on_channel_one ch c env : on_channel ch [(c, env)] = if bool_decide (c = ch) then [env] else [].
Proof. rewrite /on_channel /=. by case_bool_decide. Qed.

Notation MAX := FRAME_BYTES_DEFAULT.

(** What a turn of the decoder says about its buffer. *)
Lemma next_frame_cases (d d' : FrameDecoder) (x : result (option Envelope) FrameError) :
  next_frame d = (d', x) →
  match x with
  | Ok (Some m) => Framing.max_frame_bytes d' = Framing.max_frame_bytes d ∧
      ∀ ms o, Frames (Framing.max_frame_bytes d) (buf d') ms o → Frames (Framing.max_frame_bytes d) (buf d) (m :: ms) o
  | Ok None => d' = d ∧ Frames (M:=Envelope) (Framing.max_frame_bytes d) (buf d) [] (Pending (buf d))
  | Err e => Frames (M:=Envelope) (Framing.max_frame_bytes d) (buf d) [] (Failed e)
  end.
Proof.
  destruct d as [max bs]. cbn [Framing.max_frame_bytes buf].
  destruct (stream_viewP max bs) as [bs Hs|hdr bs Hh Ho|hdr bs Hh Hm Hl|hdr p bs Hh Hm Hl].
  - rewrite next_frame_short //. intros [= <- <-]. split; [done|by constructor].
  - rewrite next_frame_oversized //. intros [= <- <-]. by constructor.
  - rewrite next_frame_partial //. intros [= <- <-]. split; [done|by constructor].
  - rewrite next_frame_full //. destruct (prost_decode p) as [m|] eqn:E; intros [= <- <-]; [|by constructor].
    split; [done|]. intros ms o Hf. by eapply frames_message.
Qed.

Lemma frames_total max bs : ∃ ms o, Frames (M:=Envelope) max bs ms o.
Proof.
  destruct (drain_frames (M:=Envelope) max bs (Datatypes.S (length bs))) as (ms & d & r & _ & _ & Hr); [lia|].
  destruct r as [e|]; [by exists ms, (Failed e)|destruct Hr as [Hr _]; by exists ms, (Pending (buf d))].
Qed.

Definition reader_ok (rd : Reader) (done : list Envelope) (bs : bytes) : Prop :=
  match rd_phase rd with
  | RdWaiting => Framing.max_frame_bytes (rd_decoder rd) = MAX ∧ check_header (rd_decoder rd) = Ok () ∧
      Frames MAX bs done (Pending (buf (rd_decoder rd)))
  | RdFrames => Framing.max_frame_bytes (rd_decoder rd) = MAX ∧
      ∀ ms o, Frames MAX (buf (rd_decoder rd)) ms o → Frames MAX bs (done ++ ms) o
  | RdEnding | RdDone => ∃ ms o, Frames MAX bs ms o ∧ done `prefix_of` ms
  end.

Lemma reader_new_ok : reader_ok reader_new [] [].
Proof. split_and!; [done|done|]. apply (frames_short _ []). simpl. lia. Qed.

Lemma chunk_ok d bs done c d' (x : result unit FrameError) :
  reader_ok {| rd_decoder := d; rd_phase := RdWaiting |} done bs → extend d c = (d', x) →
  reader_ok {| rd_decoder := d'; rd_phase := if is_ok x then RdFrames else RdEnding |} done (bs ++ c).
Proof.
  intros (Hm & Hc & Hf) He. cbn [rd_decoder] in *. rewrite extend_spec // in He.
  assert (buf_extend d c = {| Framing.max_frame_bytes := MAX; buf := buf d ++ c |}) as Hb by (rewrite /buf_extend Hm //).
  destruct (check_header (buf_extend d c)) as [[]|e] eqn:Ec; injection He as <- <-.
  - rewrite Hb. split; [done|]. intros ms o Hms. by eapply frames_app_pending.
  - exists done, (Failed e). split; [|done]. rewrite -(app_nil_r done). eapply frames_app_pending; [done|].
    apply check_header_failed. by rewrite -Hb.
Qed.

Record session_ok (r : Runtime) (log : list (Z * Envelope)) (data : gmap Z bytes) : Prop := {
  so_new ch : rt_next_channel r ≤ ch → data !! ch = None ∧ on_channel ch log = [];
  so_data ch : is_Some (rt_readers r !! ch) → is_Some (data !! ch);
  so_readers ch rd bs : rt_readers r !! ch = Some rd → data !! ch = Some bs → reader_ok rd (on_channel ch log) bs;
  so_past ch bs : data !! ch = Some bs → ∃ ms o, Frames MAX bs ms o ∧ on_channel ch log `prefix_of` ms;
}.

(** One reader moves. *)
Lemma reader_step_ok r r' log data ch rd rd' out bs' :
  session_ok r log data → rt_readers r !! ch = Some rd →
  rt_readers r' = <[ch := rd']> (rt_readers r) → rt_next_channel r' = rt_next_channel r →
  (∀ bs, data !! ch = Some bs → reader_ok rd' (on_channel ch log ++ out) (bs ++ bs')) →
  session_ok r' (log ++ (pair ch <$> out)) (alter (λ old, old ++ bs') ch data).
Proof.
  intros [N D R Pa] Hrd Hr' Hn Hok. assert (is_Some (data !! ch)) as [bs Hbs] by (apply D; by eexists).
  assert (∀ c, on_channel c (log ++ (pair ch <$> out)) = on_channel c log ++ if bool_decide (ch = c) then out else []) as Hlog.
  { intros c. rewrite on_channel_app. f_equal. clear Hok. induction out as [|x xs IH]; [by case_bool_decide|].
    rewrite fmap_cons (on_channel_app c [_]) on_channel_one IH. by case_bool_decide. }
  assert (ch < rt_next_channel r) as Hlt.
  { destruct (Z.lt_ge_cases ch (rt_next_channel r)) as [|Hge]; [done|]. destruct (N ch Hge) as [Hnone _]. congruence. }
  specialize (Hok bs Hbs). split; rewrite ?Hr' ?Hn.
  - intros c Hc. destruct (N c Hc) as [E1 E2]. rewrite lookup_alter_ne; [|lia]. rewrite Hlog E2.
    rewrite bool_decide_eq_false_2; [done|lia].
  - intros c. destruct (decide (c = ch)) as [->|]; [rewrite lookup_alter_eq Hbs; by eexists|].
    rewrite lookup_insert_ne // lookup_alter_ne //. apply D.
  - intros c x b. rewrite Hlog. destruct (decide (c = ch)) as [->|Hne].
    + rewrite lookup_insert_eq lookup_alter_eq Hbs bool_decide_eq_true_2 //. by intros [= <-] [= <-].
    + rewrite lookup_insert_ne // lookup_alter_ne // bool_decide_eq_false_2 // app_nil_r. apply R.
  - intros c b. rewrite Hlog. destruct (decide (c = ch)) as [->|Hne].
    + rewrite lookup_alter_eq Hbs bool_decide_eq_true_2 //. intros [= <-]. revert Hok. rewrite /reader_ok.
      destruct (rd_phase rd'); [|intros [_ Hf]|done|done].
      * intros (_ & _ & Hf). eauto.
      * destruct (frames_total MAX (buf (rd_decoder rd'))) as (ms & o & Hms). specialize (Hf _ _ Hms).
        exists (on_channel ch log ++ out ++ ms), o. rewrite app_assoc. split; [done|by apply prefix_app_r].
    + rewrite lookup_alter_ne // bool_decide_eq_false_2 // app_nil_r. apply Pa.
Qed.

Lemma alter_nil (data : gmap Z bytes) ch : alter (λ old, old ++ []) ch data = data.
Proof.
  apply map_eq. intros c. destruct (decide (c = ch)) as [->|]; [|by rewrite lookup_alter_ne].
  rewrite lookup_alter_eq. destruct (data !! ch); simpl; by rewrite ?app_nil_r.
Qed.

Lemma finish_ok r r' log data : session_ok r log data → finish r = Some r' → session_ok r' log data.
Proof.
  intros [N D R Pa]. rewrite /finish. destruct (detach_all _) as [[w []]|]; [|done]. simpl. intros [= <-].
  split; simpl; [done| | |done]; intros *; rewrite lookup_empty; [by intros []|done].
Qed.

Lemma register_ok r r' log data :
  session_ok r log data → 0 ≤ rt_next_channel r → rt_finished r = false → register r = Some r' →
  session_ok r' log (if rt_finished r' then data else <[rt_next_channel r := []]> data).
Proof.
  intros I H0 Hfin. rewrite /register. destruct (checked_add64 _ 1) as [next|] eqn:En.
  - assert (next = rt_next_channel r + 1) as -> by (revert En; rewrite /checked_add64; case_match; [by intros [= <-]|done]).
    intros [= <-]. rewrite /= Hfin. destruct I as [N D R Pa]. destruct (N (rt_next_channel r)) as [E1 E2]; [lia|].
    split; simpl.
    + intros c Hc. rewrite lookup_insert_ne; [|lia]. apply N. lia.
    + intros c. destruct (decide (c = rt_next_channel r)) as [->|]; [intros _; rewrite lookup_insert_eq; by eexists|].
      rewrite !lookup_insert_ne //. apply D.
    + intros c rd bs. destruct (decide (c = rt_next_channel r)) as [->|]; [|rewrite !lookup_insert_ne //; apply R].
      rewrite !lookup_insert_eq. intros [= <-] [= <-]. rewrite E2. apply reader_new_ok.
    + intros c bs. destruct (decide (c = rt_next_channel r)) as [->|]; [|rewrite !lookup_insert_ne //; apply Pa].
      rewrite lookup_insert_eq E2. intros [= <-]. exists [], (Pending []). split; [apply frames_short; simpl; lia|done].
  - intros Hf. pose proof (finish_ok _ _ _ _ I Hf) as I'. revert Hf. rewrite /finish.
    destruct (detach_all _) as [[w []]|]; [|done]. simpl. by intros [= <-].
Qed.

Lemma on_frame_ok r ch inp r' env log data :
  session_ok r log data → on_frame r ch inp = Some (r', env) →
  session_ok r' (log ++ option_list (pair ch <$> env)) data.
Proof.
  intros I. rewrite /on_frame. destruct (rt_readers r !! ch) as [[d []]|] eqn:Er; try done.
  assert (∀ rd' (out : option Envelope) x, rt_readers x = <[ch := rd']> (rt_readers r) → rt_next_channel x = rt_next_channel r →
    (∀ bs, data !! ch = Some bs → reader_ok rd' (on_channel ch log ++ option_list out) bs) →
    session_ok x (log ++ option_list (pair ch <$> out)) data) as Hgo.
  { intros rd' out x H1 H2 H3. rewrite -(alter_nil data ch).
    replace (option_list (pair ch <$> out)) with (pair ch <$> option_list out) by (by destruct out).
    eapply reader_step_ok; [done|done|done|done|]. intros bs Hbs. rewrite app_nil_r. auto. }
  assert (∀ bs, data !! ch = Some bs → Framing.max_frame_bytes d = MAX ∧
    ∀ ms o, Frames MAX (buf d) ms o → Frames MAX bs (on_channel ch log ++ ms) o) as Hok.
  { intros bs Hbs. exact (so_readers _ _ _ I _ _ _ Er Hbs). }
  destruct (next_frame d) as [d' x] eqn:En. pose proof (next_frame_cases _ _ _ En) as Hc.
  destruct x as [[m|]|e].
  - destruct (dispatch _ _ _ _ _) as [[w go_on]|]; [|done]. simpl. intros [= <- <-].
    assert (∀ bs, data !! ch = Some bs → Framing.max_frame_bytes d' = MAX ∧
      ∀ ms o, Frames MAX (buf d') ms o → Frames MAX bs ((on_channel ch log ++ [m]) ++ ms) o) as Hok'.
    { intros bs Hbs. destruct (Hok bs Hbs) as [Hm Hf]. destruct Hc as [Hm' Hc]. rewrite Hm in Hm', Hc. split; [done|].
      intros ms o Hms. rewrite -app_assoc /=. by apply Hf, Hc. }
    destruct go_on.
    + by apply (Hgo {| rd_decoder := d'; rd_phase := RdFrames |} (Some m)).
    + apply (Hgo {| rd_decoder := d'; rd_phase := RdEnding |} (Some m)); [done|done|]. intros bs Hbs.
      destruct (Hok' bs Hbs) as [_ Hf]. destruct (frames_total MAX (buf d')) as (ms & o & Hms).
      exists ((on_channel ch log ++ [m]) ++ ms), o. split; [by apply Hf|by apply prefix_app_r].
  - intros [= <- <-]. destruct Hc as [-> Hp].
    apply (Hgo {| rd_decoder := d; rd_phase := RdWaiting |} None); [done|done|]. intros bs Hbs. rewrite app_nil_r.
    destruct (Hok bs Hbs) as [Hm Hf]. rewrite Hm in Hp. split_and!; [done| |].
    + by eapply (drained_header (M:=Envelope)).
    + rewrite -(app_nil_r (on_channel ch log)). by apply Hf.
  - intros [= <- <-]. apply (Hgo {| rd_decoder := d'; rd_phase := RdEnding |} None); [done|done|]. intros bs Hbs. rewrite app_nil_r.
    destruct (Hok bs Hbs) as [Hm Hf]. rewrite Hm in Hc. exists (on_channel ch log ++ []), (Failed e).
    split; [by apply Hf|by apply prefix_app_r].
Qed.

Lemma session_step_ok r l r' out log data :
  session_ok r log data → 0 ≤ rt_next_channel r → session_step r l = Some (r', out) →
  session_ok r' (log ++ option_list out) (heard l r r' data) ∧ 0 ≤ rt_next_channel r'.
Proof.
  intros I H0. rewrite /session_step. destruct (rt_finished r) eqn:Ef; [done|].
  assert (∀ o, quiet o = Some (r', out) → out = None ∧ o = Some r') as Hq.
  { intros [x|]; simpl; [|done]. by intros [= <- <-]. }
  assert (∀ x, finish r = Some x → rt_next_channel x = rt_next_channel r) as Hfn.
  { intros x. rewrite /finish. destruct (detach_all _) as [[w []]|]; [|done]. simpl. by intros [= <-]. }
  assert (∀ ch rd rd' x bs', rt_readers r !! ch = Some rd → rt_readers x = <[ch := rd']> (rt_readers r) →
    rt_next_channel x = rt_next_channel r →
    (∀ bs, data !! ch = Some bs → reader_ok rd' (on_channel ch log) (bs ++ bs')) →
    session_ok x (log ++ []) (alter (λ old, old ++ bs') ch data) ∧ 0 ≤ rt_next_channel x) as Hgo.
  { intros ch rd rd' x bs' H1 H2 H3 H4. split; [|by rewrite H3]. eapply (reader_step_ok _ _ _ _ _ _ _ []); [done..|].
    intros bs Hbs. rewrite app_nil_r. auto. }
  destruct l as [|ch c|ch|ch inp|ch|w|]; simpl.
  - intros [-> Hx]%Hq. rewrite app_nil_r. split; [by apply register_ok|]. revert Hx. rewrite /register.
    rewrite /checked_add64. case_match; [|by intros ->%Hfn]. case_match; [|done]. intros [= <-]. simplify_eq. simpl. lia.
  - intros [-> Hx]%Hq. revert Hx. rewrite /on_chunk. destruct (rt_readers r !! ch) as [[d []]|] eqn:Er; try done.
    destruct (extend d c) as [d' x] eqn:Ex.
    assert (∀ bs, data !! ch = Some bs → reader_ok {| rd_decoder := d'; rd_phase := if is_ok x then RdFrames else RdEnding |}
      (on_channel ch log) (bs ++ c)) as Hok.
    { intros bs Hbs. eapply chunk_ok; [|done]. exact (so_readers _ _ _ I _ _ _ Er Hbs). }
    destruct x; intros [= <-]; by eapply Hgo.
  - intros [-> Hx]%Hq. revert Hx. rewrite /on_eof. destruct (rt_readers r !! ch) as [[d []]|] eqn:Er; try done.
    intros [= <-]. rewrite -(alter_nil data ch). eapply Hgo; [done|done|done|]. intros bs Hbs. rewrite app_nil_r.
    destruct (so_readers _ _ _ I _ _ _ Er Hbs) as (_ & _ & Hf). by exists (on_channel ch log), (Pending (buf d)).
  - destruct (on_frame r ch inp) as [[x env]|] eqn:Eo; [|done]. pose proof (on_frame_ok _ _ _ _ _ _ _ I Eo) as I'.
    assert (rt_next_channel x = rt_next_channel r) as Hn.
    { revert Eo. rewrite /on_frame. repeat case_match; try done; [|by intros [= <- <-]..].
      destruct (dispatch _ _ _ _ _) as [[w []]|]; simpl; [by intros [= <- <-]..|done]. }
    destruct env as [m|]; intros [= <- <-]; by rewrite Hn.
  - intros [-> Hx]%Hq. revert Hx. rewrite /on_end. destruct (rt_readers r !! ch) as [[d []]|] eqn:Er; try done.
    assert (∀ x, rt_readers x = <[ch := {| rd_decoder := d; rd_phase := RdDone |}]> (rt_readers r) →
      rt_next_channel x = rt_next_channel r → session_ok x (log ++ []) data ∧ 0 ≤ rt_next_channel x) as Hend.
    { intros x H1 H2. rewrite -(alter_nil data ch). eapply Hgo; [done|done|done|]. intros bs Hbs. rewrite app_nil_r.
      exact (so_readers _ _ _ I _ _ _ Er Hbs). }
    case_match; [intros [= <-]; by apply Hend|]. destruct (channel_closed _ _) as [[w []]|]; [|done]. simpl.
    intros [= <-]. by apply Hend.
  - intros [= <- <-]. rewrite app_nil_r. split; [|done]. by destruct I.
  - intros [-> Hx]%Hq. rewrite app_nil_r. split; [by eapply finish_ok|]. by rewrite (Hfn _ Hx).
Qed.

Lemma session_run_ok w0 r log data : session_run w0 r log data → session_ok r log data ∧ 0 ≤ rt_next_channel r.
Proof.
  induction 1 as [|r log data l r' out _ [I H0] Hs]; [|by eapply session_step_ok].
  split; [|done]. split; simpl; intros *; rewrite ?lookup_empty; try done.
Qed.

(** C21: however the streams of a session are cut into reads, and however their
    readers, new streams and the rest of the daemon interleave, the messages
    dispatched on a channel are, in order and once each, the first messages of
    the bytes its stream delivered; while its reader waits for more they are all
    of them, and only an incomplete frame is held back. Nothing is dispatched on
    a channel without a stream. *)
Theorem session_in_order w0 r log data :
  session_run w0 r log data →
  (∀ ch bs, data !! ch = Some bs →
     ∃ ms o, Frames FRAME_BYTES_DEFAULT bs ms o ∧ on_channel ch log `prefix_of` ms ∧
       ∀ d, rt_readers r !! ch = Some {| rd_decoder := d; rd_phase := RdWaiting |} →
         on_channel ch log = ms ∧ o = Pending (buf d)) ∧
  (∀ ch, data !! ch = None → on_channel ch log = []).
Proof.
  intros R. destruct (session_run_ok _ _ _ _ R) as [I _]. split.
  - intros ch bs Hbs. destruct (so_past _ _ _ I ch bs Hbs) as (ms & o & Hf & Hp). exists ms, o. split_and!; [done..|].
    intros d Hd. destruct (so_readers _ _ _ I _ _ _ Hd Hbs) as (_ & _ & Hf'). by destruct (frames_det _ _ _ _ _ _ Hf' Hf) as [<- <-].
  - clear I. induction R as [|r log data l r' out R IH Hs]; [done|]. intros ch Hch.
    destruct (session_run_ok _ _ _ _ R) as [I H0]. rewrite on_channel_app.
    assert (data !! ch = None) as Hnone.
    { revert Hch. destruct l; simpl; try done; [case_match; [done|]; by intros [? _]%lookup_insert_None|].
      destruct (decide (ch = channel)) as [->|]; [rewrite lookup_alter_eq; by intros ?%fmap_None|by rewrite lookup_alter_ne]. }
    rewrite (IH ch Hnone) /=. destruct out as [[c env]|]; [|done]. rewrite on_channel_one.
    case_bool_decide as Hc; [|done]. subst c. exfalso. revert Hs. rewrite /session_step. case_match; [done|].
    assert (∀ o, quiet o ≠ Some (r', Some (ch, env))) as Hq by (by intros [x|]).
    destruct l as [|k c|k|k inp|k|w|]; simpl; try (by intros ?%Hq); [|done].
    destruct (on_frame r k inp) as [[x [m|]]|] eqn:Eo; [|done..]. intros [= _ -> _].
    revert Eo. rewrite /on_frame. destruct (rt_readers r !! ch) as [rd|] eqn:Er; [|done].
    destruct (so_data _ _ _ I ch) as [y Hy]; [by eexists|]. congruence.
Qed.

End session.
