(* ===== verification/Startup.v ===== *)
(** * Starting the daemon

    [crates/daemon/src/lib.rs] ([DaemonConfig], [Daemon::start]), the listeners
    of [webtransport.rs] and [frontdoor_bridge.rs] it binds, [agent_mode.rs] and
    [crates/daemon/src/main.rs]. What the operating system answers is the record
    [StartEnv]; PEM, TLS and QUIC are among its answers. Paths are text: the
    program's arguments are UTF-8. *)
From S2P Require Import Prelude Protocol Ids Paths Utf8 Observability Auth Pam Negotiate History TerminalModel Launch SpawnerWire SessionCore RateLimiter UploadProto UploadStore Uploads Forward AgentWire Agent Socks Frontdoor Transport.

(** ** Socket addresses *)
Record SocketAddr := { sa_ip : IpAddress; sa_port : Z; sa_scope : Z }.
#[export] Instance socket_addr_eq_dec : EqDecision SocketAddr.
Proof. solve_decision. Defined.

Definition read_char (c : char) (s : str) : option str :=
  match s with d :: s => if d =? c then Some s else None | [] => None end.
Definition read_port (s : str) : option (Z * str) :=
  s ← read_char 0x3A s; read_number 10 u64_max u16_max true s.

(** [str::parse::<SocketAddr>]. *)
Definition parse_socket_addr (s : str) : option SocketAddr :=
  let v4 := '(ip, s) ← read_ipv4 s; '(port, s) ← read_port s;
            Some ({| sa_ip := V4 ip; sa_port := port; sa_scope := 0 |}, s) in
  let v6 := s ← read_char 0x5B s; '(ip, s) ← read_ipv6 s;
            let '(scope, s) := default (0, s) (s ← read_char 0x25 s; read_number 10 u64_max u32_max true s) in
            s ← read_char 0x5D s; '(port, s) ← read_port s;
            Some ({| sa_ip := V6 ip; sa_port := port; sa_scope := scope |}, s) in
  match (match v4 with Some r => Some r | None => v6 end) with
  | Some (a, []) => Some a
  | _ => None
  end.

(** [Display]. *)
Definition show_socket_addr (a : SocketAddr) : str :=
  match sa_ip a with
  | V4 octets => show_ipv4 octets ++ 0x3A :: dec_str (sa_port a)
  | V6 segments =>
      0x5B :: show_ipv6 segments ++ (if sa_scope a =? 0 then [] else 0x25 :: dec_str (sa_scope a)) ++
      0x5D :: 0x3A :: dec_str (sa_port a)
  end.

Definition loopback (a : SocketAddr) : bool := is_loopback (sa_ip a).

(** ** Configuration *)
Inductive AuthConfig :=
  | CfgDevInsecure
  | CfgSshKeys (users : gmap str str).

Record PasswordAuthConfig := { pa_users : gset str; pa_verifier : PamVerifier }.

Record DaemonConfig := {
  dc_bind : SocketAddr;
  dc_webtransport_bind : option SocketAddr;
  dc_webtransport_certificate : option str;
  dc_webtransport_private_key : option str;
  dc_h3_frontdoor : option FrontdoorBridgeConfig;
  dc_web_root : option str;
  dc_auth : AuthConfig;
  dc_password_auth : option PasswordAuthConfig;
  dc_allowed_origins : option (list str);
  dc_enable_websocket : bool;
  dc_account_policy : option (gmap str (list str));
  dc_grant_signing_key : option (array 32);
  dc_server_id : option ServerId;
  dc_upload_root : option str;
  dc_tcp_forward_users : gset str;
  dc_upload_max_file_bytes : Z;
  dc_upload_retention : Z;
  dc_session : SessionCoreConfig;
}.

Definition local (port : Z) : SocketAddr := {| sa_ip := V4 [127; 0; 0; 1]; sa_port := port; sa_scope := 0 |}.

(** [upload_retention] in seconds. *)
Definition daemon_config_default : DaemonConfig := {|
  dc_bind := local 8080; dc_webtransport_bind := Some (local 0); dc_webtransport_certificate := None;
  dc_webtransport_private_key := None; dc_h3_frontdoor := None; dc_web_root := None;
  dc_auth := CfgDevInsecure; dc_password_auth := None; dc_allowed_origins := None;
  dc_enable_websocket := false; dc_account_policy := None; dc_grant_signing_key := None;
  dc_server_id := None; dc_upload_root := None; dc_tcp_forward_users := ∅;
  dc_upload_max_file_bytes := UPLOAD_FILE_BYTES_DEFAULT; dc_upload_retention := 24 * 60 * 60;
  dc_session := session_config_default |}.

(** ** What the system answers *)

(** An opened file: its length and mode, and what reading it to the end gives. *)
Record OpenedFile := { of_len : Z; of_mode : Z; of_read : result bytes str }.

Record StartEnv := {
  se_random_id : ServerId;
  se_random_key : array 32;
  se_open : str → result OpenedFile str;
  se_self_signed : result bytes str;
  se_certificates : bytes → result (list bytes) str;
  se_private_key : bytes → result unit str;
  se_tls_config : list bytes → result unit str;
  se_endpoint : SocketAddr → result SocketAddr str;
  se_metadata : str → result Metadata str;
  se_parent_metadata : str → result Metadata str;
  se_bind_unix : str → result unit str;
  se_chmod : str → Z → result unit str;
  se_create_dir_all : str → result unit str;
  se_open_dir : str → bool;
  se_listen : SocketAddr → result SocketAddr str;
}.

(** ** Listeners *)
Definition MAX_CERTIFICATE_CHAIN_BYTES : Z := 1024 * 1024.
Definition MAX_PRIVATE_KEY_BYTES : Z := 64 * 1024.
Definition MAX_CERTIFICATES : Z := 8.

(** 0x3F is octal 077: any permission of group and others. *)
Definition loose (mode : Z) : bool := negb (Z.land mode 0x3F =? 0).

(** [read_bounded_file]: the length may have changed since it was asked for. *)
Definition read_bounded_file (env : StartEnv) (path : str) (maximum : Z) (kind : str) (private : bool)
    : result bytes str :=
  let? f := map_err (λ e, lit "open " ++ kind ++ lit " " ++ path ++ lit ": " ++ e) (se_open env path) in
  if maximum <? of_len f then Err (kind ++ lit " exceeds " ++ dec_str maximum ++ lit " bytes")
  else if private && loose (of_mode f) then Err (kind ++ lit " " ++ path ++ lit " must be mode 0600 or stricter")
  else
    let? all := of_read f in
    let bytes := take (Z.to_nat (maximum + 1)) all in
    if maximum <? len bytes then Err (kind ++ lit " exceeds " ++ dec_str maximum ++ lit " bytes") else Ok bytes.

Section start.
Context {V : VtOps} {P : PtyOps} {S : HashOps} {K : GrantCrypto} {Q : SshCrypto}.

(** [load_configured_tls], with the hash of the leaf certificate. *)
Definition load_configured_tls (env : StartEnv) (certificate private_key : str) : result (array 32) str :=
  let? pem := read_bounded_file env certificate MAX_CERTIFICATE_CHAIN_BYTES
                (lit "WebTransport certificate chain") false in
  let? certificates := se_certificates env pem in
  match certificates with
  | [] => Err (lit "WebTransport certificate chain contains no certificates")
  | leaf :: _ =>
      if MAX_CERTIFICATES <? len certificates
      then Err (lit "WebTransport certificate chain exceeds " ++ dec_str MAX_CERTIFICATES ++ lit " certificates")
      else
        let? key := read_bounded_file env private_key MAX_PRIVATE_KEY_BYTES (lit "WebTransport private key") true in
        let? _ := map_err (app (lit "parse WebTransport private key: ")) (se_private_key env key) in
        let? _ := se_tls_config env certificates in
        Ok (sha256 leaf)
  end.

(** [self_signed_tls]: the certificate it made. *)
Definition self_signed_tls (env : StartEnv) : result (array 32) str :=
  let? certificate := se_self_signed env in
  let? _ := se_tls_config env [certificate] in
  Ok (sha256 certificate).

Record WtListener := {
  wl_local_addr : SocketAddr;
  wl_cert_hash_base64 : str;
  wl_cert_hash : array 32;
  wl_certificate_mode : CertificateMode;
  wl_web_root : option str;
}.

Definition wt_bind (env : StartEnv) (bind : SocketAddr) (certificate private_key web_root : option str)
    : result WtListener str :=
  let? (hash, mode) :=
    match certificate, private_key with
    | None, None => let? hash := self_signed_tls env in Ok (hash, DevelopmentHashPin)
    | Some c, Some k => let? hash := load_configured_tls env c k in Ok (hash, WebPki)
    | _, _ => Err (lit "WebTransport TLS requires both certificate and private key")
    end in
  let? local_addr := se_endpoint env bind in
  Ok {| wl_local_addr := local_addr; wl_cert_hash_base64 := base64_encode (array_bytes hash);
        wl_cert_hash := hash; wl_certificate_mode := mode; wl_web_root := web_root |}.

(** [FrontdoorBridge::bind]; 0x1B0 is octal 660. *)
Definition frontdoor_bind (env : StartEnv) (c : FrontdoorBridgeConfig) : result SocketGuard str :=
  let? _ := config_validate c in
  let? _ := validate_socket_parent (se_parent_metadata env (socket_path c)) in
  let? _ := map_err (λ _, lit "bind shared H3 front-door socket " ++ socket_path c) (se_bind_unix env (socket_path c)) in
  let? _ := map_err (λ _, lit "protect shared H3 front-door socket") (se_chmod env (socket_path c) 0x1B0) in
  guard_new (se_metadata env (socket_path c)).

(** ** [Daemon::start] *)
Definition SERVER_ID_DOMAIN : str := lit "holdfast-server-id-v1".

(** [None] is the panic of [copy_from_slice], which does not happen. *)
Definition derive_server_id (seed : array 32) : option ServerId :=
  let public := public_bytes (signer_verifier (signer_from_bytes seed)) in
  let digest := sha256 (str_bytes SERVER_ID_DOMAIN ++ array_bytes public) in
  array_of 16 (take 16 (array_bytes digest)).

Definition MAX_USERNAME_BYTES : Z := 128.

(** The checks before anything is bound. *)
Definition check_webtransport (c : DaemonConfig) : result unit str :=
  let? _ := match dc_webtransport_certificate c, dc_webtransport_private_key c with
            | Some _, Some _ | None, None => Ok ()
            | _, _ => Err (lit "WebTransport TLS requires both certificate and private-key paths")
            end in
  match dc_webtransport_bind c with
  | Some bind =>
      if negb (loopback bind) && bool_decide (dc_webtransport_certificate c = None)
      then Err (lit "refusing self-signed WebTransport on non-loopback bind " ++ show_socket_addr bind ++
                lit "; configure a public certificate and private key")
      else Ok ()
  | None =>
      if bool_decide (is_Some (dc_webtransport_certificate c))
      then Err (lit "WebTransport certificate configured while WebTransport is disabled") else Ok ()
  end.

Definition check_frontdoor (c : DaemonConfig) : result unit str :=
  match dc_h3_frontdoor c with
  | None => Ok ()
  | Some frontdoor =>
      let? _ := config_validate frontdoor in
      if bool_decide (is_Some (dc_webtransport_bind c)) || bool_decide (is_Some (dc_webtransport_certificate c)) ||
         bool_decide (is_Some (dc_webtransport_private_key c))
      then Err (lit "shared H3 front-door mode is mutually exclusive with direct WebTransport TLS") else Ok ()
  end.

Fixpoint check_dev_binds (binds : list SocketAddr) : result unit str :=
  match binds with
  | [] => Ok ()
  | bind :: binds =>
      if negb (loopback bind)
      then Err (lit "refusing dev-auth on non-loopback bind " ++ show_socket_addr bind ++ lit " (threat model T7/T4)")
      else check_dev_binds binds
  end.

Definition check_dev_auth (c : DaemonConfig) : result unit str :=
  match dc_auth c with
  | CfgSshKeys _ => Ok ()
  | CfgDevInsecure =>
      if bool_decide (is_Some (dc_h3_frontdoor c))
      then Err (lit "refusing dev-auth behind a shared H3 front door (threat model T7/T4)")
      else
        let? _ := check_dev_binds (dc_bind c :: option_list (dc_webtransport_bind c)) in
        if bool_decide (is_Some (pa_users <$> dc_password_auth c))
        then Err (lit "password auth requires a real auth mode, not dev-auth") else Ok ()
  end.

Definition check_password (c : DaemonConfig) : result unit str :=
  match dc_password_auth c with
  | None => Ok ()
  | Some password =>
      if bool_decide (pa_users password = ∅)
      then Err (lit "password auth enabled with an empty user allowlist")
      else if existsb (λ user, is_empty user || (MAX_USERNAME_BYTES <? str_len user)) (elements (pa_users password))
      then Err (lit "password-auth username must be 1..=" ++ dec_str MAX_USERNAME_BYTES ++ lit " bytes")
      else Ok ()
  end.

Definition check_uploads (c : DaemonConfig) : result unit str :=
  if UPLOAD_FILE_BYTES_HARD_MAX <? dc_upload_max_file_bytes c
  then Err (lit "upload maximum exceeds the hard " ++ dec_str UPLOAD_FILE_BYTES_HARD_MAX ++ lit "-byte ceiling")
  else
    match dc_upload_root c with
    | None => Ok ()
    | Some root =>
        if negb (is_absolute root) then Err (lit "upload root must be absolute")
        else if privilege_drop (dc_session c) && bool_decide (spawner_socket (dc_session c) = None)
        then Err (lit "multi-user uploads require --spawner-socket; refusing daemon-owned output")
        else Ok ()
    end.

Definition check_config (c : DaemonConfig) : result unit str :=
  let? _ := check_webtransport c in
  let? _ := check_frontdoor c in
  let? _ := check_dev_auth c in
  let? _ := check_password c in
  check_uploads c.

(** *** The state the checks lead to *)
Inductive AuthMode := DevInsecure | SshKeys (users : gmap str SshVerifier).

Record AuthState := {
  as_mode : AuthMode;
  as_password : option PasswordAuthConfig;
  as_grant_signer : GrantSigner;
  as_grant_verifier : GrantVerifier;
  as_audience : str;
  as_rate_limiter : RateLimiter (Ip := IpAddr);
}.

Definition auth_state_new (env : StartEnv) (mode : AuthMode) (password : option PasswordAuthConfig)
    (audience : str) (grant_key : option (array 32)) : AuthState :=
  let grant_signer := signer_from_bytes (default (se_random_key env) grant_key) in
  {| as_mode := mode; as_password := password; as_grant_signer := grant_signer;
     as_grant_verifier := signer_verifier grant_signer; as_audience := audience;
     as_rate_limiter := limiter_new rate_policy_default |}.

(** The order of a [BTreeMap<String, _>]. *)
Fixpoint str_le (a b : str) : bool :=
  match a, b with
  | [], _ => true
  | _, [] => false
  | x :: a, y :: b => (x <? y) || ((x =? y) && str_le a b)
  end.
Definition key_le {A} (p q : str * A) : Prop := str_le p.1 q.1 = true.
#[local] Instance key_le_dec {A} : RelDecision (@key_le A).
Proof. intros p q. rewrite /key_le. apply _. Defined.
Definition in_order {A} (m : gmap str A) : list (str * A) := merge_sort key_le (map_to_list m).

Definition ssh_error_text (e : SshError) : str :=
  match e with
  | NoAuthorizedKeys => lit "no authorized_keys available for user"
  | KeyNotAuthorized => lit "offered key is not authorized"
  | MalformedKey => lit "malformed public key"
  | MalformedSignature => lit "malformed signature"
  | SshBadSignature => lit "signature verification failed"
  | ChallengeMismatch => lit "challenge mismatch"
  | UserPresenceMissing => lit "security key did not prove user presence (the key was not touched)"
  end.

Fixpoint ssh_users (users : list (str * str)) (verifiers : gmap str SshVerifier)
    : result (gmap str SshVerifier) str :=
  match users with
  | [] => Ok verifiers
  | (username, keys) :: users =>
      let? verifier := map_err (λ e, lit "authorized_keys for " ++ username ++ lit ": " ++ ssh_error_text e)
                         (from_authorized_keys keys) in
      ssh_users users (<[username := verifier]> verifiers)
  end.

Definition auth_mode (c : AuthConfig) : result AuthMode str :=
  match c with
  | CfgDevInsecure => Ok DevInsecure
  | CfgSshKeys users => let? verifiers := ssh_users (in_order users) ∅ in Ok (SshKeys verifiers)
  end.

Inductive UploadsConfig := SameUid (c : StoreConfig) | SpawnerUploads (socket : str) (max_file_bytes : Z).

(** 0x1C0 is octal 700; [None] is the panic of [expect]. *)
Definition open_uploads (env : StartEnv) (c : DaemonConfig) : option (result (option UploadsConfig) str) :=
  match dc_upload_root c with
  | None => Some (Ok None)
  | Some root =>
      if privilege_drop (dc_session c) then
        socket ← spawner_socket (dc_session c);
        Some (Ok (Some (SpawnerUploads socket (dc_upload_max_file_bytes c))))
      else
        Some (let? _ := se_create_dir_all env root in
              let? metadata := se_metadata env root in
              if md_symlink metadata || negb (md_dir metadata)
              then Err (lit "upload root must be a non-symlink directory")
              else
                let? _ := se_chmod env root 0x1C0 in
                let? store := map_err (λ _, lit "upload root must be an absolute directory opened without following symlinks")
                  (store_open {| cfg_root := root; max_file_bytes := dc_upload_max_file_bytes c |}
                     (is_absolute root) (se_open_dir env root)) in
                Ok (Some (SameUid store)))
  end.

Definition build_shell_manager (session : SessionCoreConfig) (account_policy : option (gmap str (list str)))
    : ShellManager :=
  match account_policy with
  | Some allowed => with_policy session (StaticPolicy allowed)
  | None => manager_new session
  end.

Record Daemon := {
  d_server_id : ServerId;
  d_auth : AuthState;
  d_manager : ShellManager;
  d_allowed_origins : option (list str);
  d_webtransport_info : option (Z * str * CertificateMode);
  d_webtransport_cert_hash : option (array 32);
  d_uploads : option UploadsConfig;
  d_forwards : ForwardService;
  d_webtransport : option WtListener;
  d_frontdoor : option (FrontdoorBridgeConfig * SocketGuard);
  d_web_root : option str;
  d_enable_websocket : bool;
  d_local_addr : SocketAddr;
}.

(** [.map(f).transpose()?] *)
Definition transpose {A B} (o : option A) (f : A → result B str) : result (option B) str :=
  match o with Some a => let? b := f a in Ok (Some b) | None => Ok None end.

Definition start (env : StartEnv) (c : DaemonConfig) : option (result Daemon str) :=
  match check_config c with
  | Err e => Some (Err e)
  | Ok _ =>
      server_id ← match dc_server_id c, dc_grant_signing_key c with
                  | Some id, _ => Some id
                  | None, Some seed => derive_server_id seed
                  | None, None => Some (se_random_id env)
                  end;
      match (let? mode := auth_mode (dc_auth c) in
             let auth := auth_state_new env mode (dc_password_auth c) (display SERVER_PREFIX server_id)
                           (dc_grant_signing_key c) in
             let? wt := transpose (dc_webtransport_bind c) (λ bind,
               wt_bind env bind (dc_webtransport_certificate c) (dc_webtransport_private_key c) (dc_web_root c)) in
             let? frontdoor := transpose (dc_h3_frontdoor c) (λ f, let? g := frontdoor_bind env f in Ok (f, g)) in
             Ok (auth, wt, frontdoor)) with
      | Err e => Some (Err e)
      | Ok (auth, wt, frontdoor) =>
          let info := match frontdoor with
                      | Some (f, _) => Some (public_port f, [], WebPki)
                      | None => (λ l, (sa_port (wl_local_addr l), wl_cert_hash_base64 l, wl_certificate_mode l)) <$> wt
                      end in
          uploads ← open_uploads env c;
          Some (
            let? uploads := uploads in
            let? forwards := ok_or (forward_new (dc_tcp_forward_users c))
                               (lit "TCP forwarding permits at most 256 usernames of 1..128 bytes") in
            let? local_addr := se_listen env (dc_bind c) in
            Ok {| d_server_id := server_id; d_auth := auth;
                  d_manager := build_shell_manager (dc_session c) (dc_account_policy c);
                  d_allowed_origins := dc_allowed_origins c; d_webtransport_info := info;
                  d_webtransport_cert_hash := wl_cert_hash <$> wt; d_uploads := uploads;
                  d_forwards := forwards; d_webtransport := wt; d_frontdoor := frontdoor;
                  d_web_root := dc_web_root c; d_enable_websocket := dc_enable_websocket c;
                  d_local_addr := local_addr |})
      end
  end.

(** *** Requests on the TCP side *)
Definition quic_first (d : Daemon) : bool :=
  match d_webtransport_info d with Some (_, _, WebPki) => true | _ => false end.

Inductive Handler :=
  | WtInfo | TerminalWs | Interstitial | ServeDir (root : str) | NotFound | MethodNotAllowed.

Definition tcp_route (d : Daemon) (method : Method) (path : str) : Handler :=
  if bool_decide (path = lit "/webtransport-info") then
    match method with OtherMethod => MethodNotAllowed | _ => WtInfo end
  else if d_enable_websocket d && bool_decide (path = lit "/terminal/ws") then TerminalWs
  else if quic_first d then Interstitial
  else match d_web_root d with Some root => ServeDir root | None => NotFound end.

(** The [alt-svc] header put on every response of the TCP side. *)
Definition alt_svc (d : Daemon) : option str :=
  match d_webtransport_info d with
  | Some (port, _, WebPki) => Some (lit "h3=" ++ quoted (0x3A :: dec_str port) ++ lit "; ma=86400")
  | _ => None
  end.

Definition origin_allowed (allowed_origins : option (list str)) (origin : option str) : bool :=
  match allowed_origins, origin with
  | None, _ => true
  | Some _, None => true
  | Some list, Some o => existsb (λ a, bool_decide (a = o)) list
  end.

(** [wt_info_handler]. *)
Definition wt_info (d : Daemon) : Z * str :=
  match d_webtransport_info d with
  | Some (port, hash, mode) =>
      (200, webtransport_info_json port hash mode (bool_decide (is_Some (pa_users <$> as_password (d_auth d)))))
  | None => (404, lit "webtransport disabled")
  end.

(** [ws_handler]: whether the connection becomes a session. *)
Definition ws_upgrade (d : Daemon) (origin : option str) : bool := origin_allowed (d_allowed_origins d) origin.

(** A request on the QUIC side, before or without a session. *)
Inductive H3Outcome := OriginForbidden | SessionAccepted (channel_binding : bytes) | Page (r : result (Response * option str) str).

Definition h3_request (d : Daemon) (web_root : option str) (fs : Files) (webtransport : bool) (method : Method)
    (path : str) (origin : option str) : H3Outcome :=
  if webtransport then
    if negb (origin_allowed (d_allowed_origins d) origin) then OriginForbidden
    else SessionAccepted (from_option array_bytes [] (d_webtransport_cert_hash d))
  else Page (serve_h3_request (d_webtransport_info d)
               (bool_decide (is_Some (pa_users <$> as_password (d_auth d)))) web_root fs method path).

(** *** The idle reaper: milliseconds between scans *)
Definition reaper_period (ttl : Z) : Z := Z.min (Z.max (ttl / 4) 1000) 60000.

(** ** Agent mode *)
Record AgentDaemonConfig := {
  ac_reconnect : ReconnectPolicy;
  ac_grant_verifier : GrantVerifier;
  ac_grant_audience : str;
  ac_account_policy : option (gmap str (list str));
  ac_session : SessionCoreConfig;
}.

Record AgentDaemon := {
  ad_manager : ShellManager;
  ad_reconnect : ReconnectPolicy;
  ad_grant_verifier : GrantVerifier;
  ad_grant_audience : str;
}.

Definition agent_daemon_start (c : AgentDaemonConfig) : result AgentDaemon AgentError :=
  match ac_account_policy c with
  | None => Err AeMissingAccountPolicy
  | Some _ =>
      let? (policy, audience) := supervisor_new (ac_reconnect c) (ac_grant_audience c) in
      Ok {| ad_manager := build_shell_manager (ac_session c) (ac_account_policy c); ad_reconnect := policy;
            ad_grant_verifier := ac_grant_verifier c; ad_grant_audience := audience |}
  end.
End start.
