(* ===== verification/Holdfastd.v ===== *)
(** * The program [holdfastd]

    [crates/daemon/src/main.rs]: the command line, the checks on it, the grant
    key file and the choice between the standalone daemon and agent mode. The
    feature [agent-mode] and the version are parameters of the build; files and
    sockets are the records [KeyFile], [KeyEnv] and [MainEnv]. *)
From S2P Require Import Prelude Protocol Ids Paths Utf8 Auth Pam History TerminalModel Launch SessionCore UploadProto Forward Agent Frontdoor Startup.

(** ** The grant key *)
Record KeyFile := { kf_mode : Z; kf_bytes : bytes }.

(** What happens to one load: the random seed, the mode a new file gets before
    it is set, a failed write (with how much of the file was created), and
    failures of the other calls. *)
Record KeyEnv := {
  ke_seed : array 32;
  ke_new_mode : Z;
  ke_write : option (option nat * str);
  ke_chmod : option str;
  ke_stat : option str;
  ke_read : option str;
}.

(** 0x180 is octal 600; [None] is a panic. *)
Definition load_or_create_grant_key (ke : KeyEnv) (fs : gmap str KeyFile) (path : str)
    : option (gmap str KeyFile * result (array 32) str) :=
  match fs !! path with
  | None =>
      let hex := str_bytes (hex_bytes (array_bytes (ke_seed ke))) in
      match ke_write ke with
      | Some (created, e) =>
          Some (match created with
                | Some n => <[path := {| kf_mode := ke_new_mode ke; kf_bytes := take n hex |}]> fs
                | None => fs
                end, Err (lit "write grant key " ++ path ++ lit ": " ++ e))
      | None =>
          match ke_chmod ke with
          | Some e => Some (<[path := {| kf_mode := ke_new_mode ke; kf_bytes := hex |}]> fs, Err e)
          | None => Some (<[path := {| kf_mode := 0x180; kf_bytes := hex |}]> fs, Ok (ke_seed ke))
          end
      end
  | Some f =>
      match ke_stat ke, ke_read ke, from_utf8 (kf_bytes f) with
      | Some e, _, _ => Some (fs, Err e)
      | None, read, utf8 =>
          if loose (kf_mode f) then Some (fs, Err (lit "grant key " ++ path ++ lit " must be mode 0600 or stricter"))
          else
            match read, utf8 with
            | Some e, _ => Some (fs, Err e)
            | None, Err _ => Some (fs, Err (lit "stream did not contain valid UTF-8"))
            | None, Ok text =>
                let text := trim text in
                if negb (str_len text =? 64) || negb (forallb is_ascii_hexdigit text)
                then Some (fs, Err (lit "grant key " ++ path ++ lit " must be 64 hex characters"))
                else
                  r ← parse_slots 32 (str_bytes text);
                  match r with
                  | Ok l => seed ← array_of 32 l; Some (fs, Ok seed)
                  | Err _ => Some (fs, Err (lit "invalid digit found in string"))
                  end
            end
      end
  end.

(** ** The command line *)
Record AgentCli := {
  ag_enabled : bool;
  ag_gateway : option SocketAddr;
  ag_gateway_name : option str;
  ag_ca_path : option str;
  ag_cert_path : option str;
  ag_key_path : option str;
  ag_grant_verify_key_path : option str;
  ag_grant_audience : option str;
}.
Definition agent_cli_default : AgentCli := {|
  ag_enabled := false; ag_gateway := None; ag_gateway_name := None; ag_ca_path := None; ag_cert_path := None;
  ag_key_path := None; ag_grant_verify_key_path := None; ag_grant_audience := None |}.

(** The variables of [main]; [cl_files] and [cl_keys] are the files the grant key
    may be in and what happens to each load of it. *)
Record Cli := {
  cl_config : DaemonConfig;
  cl_password_users : gset str;
  cl_pam_service : option str;
  cl_direct_webtransport_explicit : bool;
  cl_frontdoor_socket : option str;
  cl_frontdoor_uid : option Z;
  cl_frontdoor_hostname : option str;
  cl_frontdoor_port : option Z;
  cl_agent : AgentCli;
  cl_files : gmap str KeyFile;
  cl_keys : nat → KeyEnv;
}.

Definition cli_default (fs : gmap str KeyFile) (keys : nat → KeyEnv) : Cli := {|
  cl_config := daemon_config_default; cl_password_users := ∅; cl_pam_service := None;
  cl_direct_webtransport_explicit := false; cl_frontdoor_socket := None; cl_frontdoor_uid := None;
  cl_frontdoor_hostname := None; cl_frontdoor_port := None; cl_agent := agent_cli_default;
  cl_files := fs; cl_keys := keys |}.

Definition set_bind (x : SocketAddr) (c : DaemonConfig) : DaemonConfig := {|
  dc_bind := x; dc_webtransport_bind := dc_webtransport_bind c; dc_webtransport_certificate :=
  dc_webtransport_certificate c; dc_webtransport_private_key := dc_webtransport_private_key c; dc_h3_frontdoor
  := dc_h3_frontdoor c; dc_web_root := dc_web_root c; dc_auth := dc_auth c; dc_password_auth := dc_password_auth
  c; dc_allowed_origins := dc_allowed_origins c; dc_enable_websocket := dc_enable_websocket c; dc_account_policy
  := dc_account_policy c; dc_grant_signing_key := dc_grant_signing_key c; dc_server_id := dc_server_id c;
  dc_upload_root := dc_upload_root c; dc_tcp_forward_users := dc_tcp_forward_users c; dc_upload_max_file_bytes
  := dc_upload_max_file_bytes c; dc_upload_retention := dc_upload_retention c; dc_session := dc_session c |}.
Definition set_webtransport_bind (x : option SocketAddr) (c : DaemonConfig) : DaemonConfig := {|
  dc_bind := dc_bind c; dc_webtransport_bind := x; dc_webtransport_certificate := dc_webtransport_certificate c;
  dc_webtransport_private_key := dc_webtransport_private_key c; dc_h3_frontdoor := dc_h3_frontdoor c;
  dc_web_root := dc_web_root c; dc_auth := dc_auth c; dc_password_auth := dc_password_auth c; dc_allowed_origins
  := dc_allowed_origins c; dc_enable_websocket := dc_enable_websocket c; dc_account_policy := dc_account_policy
  c; dc_grant_signing_key := dc_grant_signing_key c; dc_server_id := dc_server_id c; dc_upload_root :=
  dc_upload_root c; dc_tcp_forward_users := dc_tcp_forward_users c; dc_upload_max_file_bytes :=
  dc_upload_max_file_bytes c; dc_upload_retention := dc_upload_retention c; dc_session := dc_session c |}.
Definition set_webtransport_certificate (x : option str) (c : DaemonConfig) : DaemonConfig := {|
  dc_bind := dc_bind c; dc_webtransport_bind := dc_webtransport_bind c; dc_webtransport_certificate := x;
  dc_webtransport_private_key := dc_webtransport_private_key c; dc_h3_frontdoor := dc_h3_frontdoor c;
  dc_web_root := dc_web_root c; dc_auth := dc_auth c; dc_password_auth := dc_password_auth c; dc_allowed_origins
  := dc_allowed_origins c; dc_enable_websocket := dc_enable_websocket c; dc_account_policy := dc_account_policy
  c; dc_grant_signing_key := dc_grant_signing_key c; dc_server_id := dc_server_id c; dc_upload_root :=
  dc_upload_root c; dc_tcp_forward_users := dc_tcp_forward_users c; dc_upload_max_file_bytes :=
  dc_upload_max_file_bytes c; dc_upload_retention := dc_upload_retention c; dc_session := dc_session c |}.
Definition set_webtransport_private_key (x : option str) (c : DaemonConfig) : DaemonConfig := {|
  dc_bind := dc_bind c; dc_webtransport_bind := dc_webtransport_bind c; dc_webtransport_certificate :=
  dc_webtransport_certificate c; dc_webtransport_private_key := x; dc_h3_frontdoor := dc_h3_frontdoor c;
  dc_web_root := dc_web_root c; dc_auth := dc_auth c; dc_password_auth := dc_password_auth c; dc_allowed_origins
  := dc_allowed_origins c; dc_enable_websocket := dc_enable_websocket c; dc_account_policy := dc_account_policy
  c; dc_grant_signing_key := dc_grant_signing_key c; dc_server_id := dc_server_id c; dc_upload_root :=
  dc_upload_root c; dc_tcp_forward_users := dc_tcp_forward_users c; dc_upload_max_file_bytes :=
  dc_upload_max_file_bytes c; dc_upload_retention := dc_upload_retention c; dc_session := dc_session c |}.
Definition set_h3_frontdoor (x : option FrontdoorBridgeConfig) (c : DaemonConfig) : DaemonConfig := {|
  dc_bind := dc_bind c; dc_webtransport_bind := dc_webtransport_bind c; dc_webtransport_certificate :=
  dc_webtransport_certificate c; dc_webtransport_private_key := dc_webtransport_private_key c; dc_h3_frontdoor
  := x; dc_web_root := dc_web_root c; dc_auth := dc_auth c; dc_password_auth := dc_password_auth c;
  dc_allowed_origins := dc_allowed_origins c; dc_enable_websocket := dc_enable_websocket c; dc_account_policy :=
  dc_account_policy c; dc_grant_signing_key := dc_grant_signing_key c; dc_server_id := dc_server_id c;
  dc_upload_root := dc_upload_root c; dc_tcp_forward_users := dc_tcp_forward_users c; dc_upload_max_file_bytes
  := dc_upload_max_file_bytes c; dc_upload_retention := dc_upload_retention c; dc_session := dc_session c |}.
Definition set_web_root (x : option str) (c : DaemonConfig) : DaemonConfig := {|
  dc_bind := dc_bind c; dc_webtransport_bind := dc_webtransport_bind c; dc_webtransport_certificate :=
  dc_webtransport_certificate c; dc_webtransport_private_key := dc_webtransport_private_key c; dc_h3_frontdoor
  := dc_h3_frontdoor c; dc_web_root := x; dc_auth := dc_auth c; dc_password_auth := dc_password_auth c;
  dc_allowed_origins := dc_allowed_origins c; dc_enable_websocket := dc_enable_websocket c; dc_account_policy :=
  dc_account_policy c; dc_grant_signing_key := dc_grant_signing_key c; dc_server_id := dc_server_id c;
  dc_upload_root := dc_upload_root c; dc_tcp_forward_users := dc_tcp_forward_users c; dc_upload_max_file_bytes
  := dc_upload_max_file_bytes c; dc_upload_retention := dc_upload_retention c; dc_session := dc_session c |}.
Definition set_auth (x : AuthConfig) (c : DaemonConfig) : DaemonConfig := {|
  dc_bind := dc_bind c; dc_webtransport_bind := dc_webtransport_bind c; dc_webtransport_certificate :=
  dc_webtransport_certificate c; dc_webtransport_private_key := dc_webtransport_private_key c; dc_h3_frontdoor
  := dc_h3_frontdoor c; dc_web_root := dc_web_root c; dc_auth := x; dc_password_auth := dc_password_auth c;
  dc_allowed_origins := dc_allowed_origins c; dc_enable_websocket := dc_enable_websocket c; dc_account_policy :=
  dc_account_policy c; dc_grant_signing_key := dc_grant_signing_key c; dc_server_id := dc_server_id c;
  dc_upload_root := dc_upload_root c; dc_tcp_forward_users := dc_tcp_forward_users c; dc_upload_max_file_bytes
  := dc_upload_max_file_bytes c; dc_upload_retention := dc_upload_retention c; dc_session := dc_session c |}.
Definition set_password_auth (x : option PasswordAuthConfig) (c : DaemonConfig) : DaemonConfig := {|
  dc_bind := dc_bind c; dc_webtransport_bind := dc_webtransport_bind c; dc_webtransport_certificate :=
  dc_webtransport_certificate c; dc_webtransport_private_key := dc_webtransport_private_key c; dc_h3_frontdoor
  := dc_h3_frontdoor c; dc_web_root := dc_web_root c; dc_auth := dc_auth c; dc_password_auth := x;
  dc_allowed_origins := dc_allowed_origins c; dc_enable_websocket := dc_enable_websocket c; dc_account_policy :=
  dc_account_policy c; dc_grant_signing_key := dc_grant_signing_key c; dc_server_id := dc_server_id c;
  dc_upload_root := dc_upload_root c; dc_tcp_forward_users := dc_tcp_forward_users c; dc_upload_max_file_bytes
  := dc_upload_max_file_bytes c; dc_upload_retention := dc_upload_retention c; dc_session := dc_session c |}.
Definition set_allowed_origins (x : option (list str)) (c : DaemonConfig) : DaemonConfig := {|
  dc_bind := dc_bind c; dc_webtransport_bind := dc_webtransport_bind c; dc_webtransport_certificate :=
  dc_webtransport_certificate c; dc_webtransport_private_key := dc_webtransport_private_key c; dc_h3_frontdoor
  := dc_h3_frontdoor c; dc_web_root := dc_web_root c; dc_auth := dc_auth c; dc_password_auth := dc_password_auth
  c; dc_allowed_origins := x; dc_enable_websocket := dc_enable_websocket c; dc_account_policy :=
  dc_account_policy c; dc_grant_signing_key := dc_grant_signing_key c; dc_server_id := dc_server_id c;
  dc_upload_root := dc_upload_root c; dc_tcp_forward_users := dc_tcp_forward_users c; dc_upload_max_file_bytes
  := dc_upload_max_file_bytes c; dc_upload_retention := dc_upload_retention c; dc_session := dc_session c |}.
Definition set_account_policy (x : option (gmap str (list str))) (c : DaemonConfig) : DaemonConfig := {|
  dc_bind := dc_bind c; dc_webtransport_bind := dc_webtransport_bind c; dc_webtransport_certificate :=
  dc_webtransport_certificate c; dc_webtransport_private_key := dc_webtransport_private_key c; dc_h3_frontdoor
  := dc_h3_frontdoor c; dc_web_root := dc_web_root c; dc_auth := dc_auth c; dc_password_auth := dc_password_auth
  c; dc_allowed_origins := dc_allowed_origins c; dc_enable_websocket := dc_enable_websocket c; dc_account_policy
  := x; dc_grant_signing_key := dc_grant_signing_key c; dc_server_id := dc_server_id c; dc_upload_root :=
  dc_upload_root c; dc_tcp_forward_users := dc_tcp_forward_users c; dc_upload_max_file_bytes :=
  dc_upload_max_file_bytes c; dc_upload_retention := dc_upload_retention c; dc_session := dc_session c |}.
Definition set_grant_signing_key (x : option (array 32)) (c : DaemonConfig) : DaemonConfig := {|
  dc_bind := dc_bind c; dc_webtransport_bind := dc_webtransport_bind c; dc_webtransport_certificate :=
  dc_webtransport_certificate c; dc_webtransport_private_key := dc_webtransport_private_key c; dc_h3_frontdoor
  := dc_h3_frontdoor c; dc_web_root := dc_web_root c; dc_auth := dc_auth c; dc_password_auth := dc_password_auth
  c; dc_allowed_origins := dc_allowed_origins c; dc_enable_websocket := dc_enable_websocket c; dc_account_policy
  := dc_account_policy c; dc_grant_signing_key := x; dc_server_id := dc_server_id c; dc_upload_root :=
  dc_upload_root c; dc_tcp_forward_users := dc_tcp_forward_users c; dc_upload_max_file_bytes :=
  dc_upload_max_file_bytes c; dc_upload_retention := dc_upload_retention c; dc_session := dc_session c |}.
Definition set_server_id (x : option ServerId) (c : DaemonConfig) : DaemonConfig := {|
  dc_bind := dc_bind c; dc_webtransport_bind := dc_webtransport_bind c; dc_webtransport_certificate :=
  dc_webtransport_certificate c; dc_webtransport_private_key := dc_webtransport_private_key c; dc_h3_frontdoor
  := dc_h3_frontdoor c; dc_web_root := dc_web_root c; dc_auth := dc_auth c; dc_password_auth := dc_password_auth
  c; dc_allowed_origins := dc_allowed_origins c; dc_enable_websocket := dc_enable_websocket c; dc_account_policy
  := dc_account_policy c; dc_grant_signing_key := dc_grant_signing_key c; dc_server_id := x; dc_upload_root :=
  dc_upload_root c; dc_tcp_forward_users := dc_tcp_forward_users c; dc_upload_max_file_bytes :=
  dc_upload_max_file_bytes c; dc_upload_retention := dc_upload_retention c; dc_session := dc_session c |}.
Definition set_upload_root (x : option str) (c : DaemonConfig) : DaemonConfig := {|
  dc_bind := dc_bind c; dc_webtransport_bind := dc_webtransport_bind c; dc_webtransport_certificate :=
  dc_webtransport_certificate c; dc_webtransport_private_key := dc_webtransport_private_key c; dc_h3_frontdoor
  := dc_h3_frontdoor c; dc_web_root := dc_web_root c; dc_auth := dc_auth c; dc_password_auth := dc_password_auth
  c; dc_allowed_origins := dc_allowed_origins c; dc_enable_websocket := dc_enable_websocket c; dc_account_policy
  := dc_account_policy c; dc_grant_signing_key := dc_grant_signing_key c; dc_server_id := dc_server_id c;
  dc_upload_root := x; dc_tcp_forward_users := dc_tcp_forward_users c; dc_upload_max_file_bytes :=
  dc_upload_max_file_bytes c; dc_upload_retention := dc_upload_retention c; dc_session := dc_session c |}.
Definition set_tcp_forward_users (x : gset str) (c : DaemonConfig) : DaemonConfig := {|
  dc_bind := dc_bind c; dc_webtransport_bind := dc_webtransport_bind c; dc_webtransport_certificate :=
  dc_webtransport_certificate c; dc_webtransport_private_key := dc_webtransport_private_key c; dc_h3_frontdoor
  := dc_h3_frontdoor c; dc_web_root := dc_web_root c; dc_auth := dc_auth c; dc_password_auth := dc_password_auth
  c; dc_allowed_origins := dc_allowed_origins c; dc_enable_websocket := dc_enable_websocket c; dc_account_policy
  := dc_account_policy c; dc_grant_signing_key := dc_grant_signing_key c; dc_server_id := dc_server_id c;
  dc_upload_root := dc_upload_root c; dc_tcp_forward_users := x; dc_upload_max_file_bytes :=
  dc_upload_max_file_bytes c; dc_upload_retention := dc_upload_retention c; dc_session := dc_session c |}.
Definition set_upload_max_file_bytes (x : Z) (c : DaemonConfig) : DaemonConfig := {|
  dc_bind := dc_bind c; dc_webtransport_bind := dc_webtransport_bind c; dc_webtransport_certificate :=
  dc_webtransport_certificate c; dc_webtransport_private_key := dc_webtransport_private_key c; dc_h3_frontdoor
  := dc_h3_frontdoor c; dc_web_root := dc_web_root c; dc_auth := dc_auth c; dc_password_auth := dc_password_auth
  c; dc_allowed_origins := dc_allowed_origins c; dc_enable_websocket := dc_enable_websocket c; dc_account_policy
  := dc_account_policy c; dc_grant_signing_key := dc_grant_signing_key c; dc_server_id := dc_server_id c;
  dc_upload_root := dc_upload_root c; dc_tcp_forward_users := dc_tcp_forward_users c; dc_upload_max_file_bytes
  := x; dc_upload_retention := dc_upload_retention c; dc_session := dc_session c |}.
Definition set_upload_retention (x : Z) (c : DaemonConfig) : DaemonConfig := {|
  dc_bind := dc_bind c; dc_webtransport_bind := dc_webtransport_bind c; dc_webtransport_certificate :=
  dc_webtransport_certificate c; dc_webtransport_private_key := dc_webtransport_private_key c; dc_h3_frontdoor
  := dc_h3_frontdoor c; dc_web_root := dc_web_root c; dc_auth := dc_auth c; dc_password_auth := dc_password_auth
  c; dc_allowed_origins := dc_allowed_origins c; dc_enable_websocket := dc_enable_websocket c; dc_account_policy
  := dc_account_policy c; dc_grant_signing_key := dc_grant_signing_key c; dc_server_id := dc_server_id c;
  dc_upload_root := dc_upload_root c; dc_tcp_forward_users := dc_tcp_forward_users c; dc_upload_max_file_bytes
  := dc_upload_max_file_bytes c; dc_upload_retention := x; dc_session := dc_session c |}.
Definition set_session (x : SessionCoreConfig) (c : DaemonConfig) : DaemonConfig := {|
  dc_bind := dc_bind c; dc_webtransport_bind := dc_webtransport_bind c; dc_webtransport_certificate :=
  dc_webtransport_certificate c; dc_webtransport_private_key := dc_webtransport_private_key c; dc_h3_frontdoor
  := dc_h3_frontdoor c; dc_web_root := dc_web_root c; dc_auth := dc_auth c; dc_password_auth := dc_password_auth
  c; dc_allowed_origins := dc_allowed_origins c; dc_enable_websocket := dc_enable_websocket c; dc_account_policy
  := dc_account_policy c; dc_grant_signing_key := dc_grant_signing_key c; dc_server_id := dc_server_id c;
  dc_upload_root := dc_upload_root c; dc_tcp_forward_users := dc_tcp_forward_users c; dc_upload_max_file_bytes
  := dc_upload_max_file_bytes c; dc_upload_retention := dc_upload_retention c; dc_session := x |}.
Definition set_privilege_drop (x : bool) (c : DaemonConfig) : DaemonConfig := set_session {|
  max_shells := max_shells (dc_session c); max_shells_per_user := max_shells_per_user (dc_session c);
  max_attachments_per_shell := max_attachments_per_shell (dc_session c); max_queued_chunks :=
  max_queued_chunks (dc_session c); scrollback_max_lines := scrollback_max_lines (dc_session c);
  scrollback_max_bytes := scrollback_max_bytes (dc_session c); privilege_drop := x; shell_resource_limits :=
  shell_resource_limits (dc_session c); spawner_socket := spawner_socket (dc_session c); idle_shell_ttl :=
  idle_shell_ttl (dc_session c) |} c.
Definition set_shell_resource_limits (x : ShellResourceLimits) (c : DaemonConfig) : DaemonConfig := set_session {|
  max_shells := max_shells (dc_session c); max_shells_per_user := max_shells_per_user (dc_session c);
  max_attachments_per_shell := max_attachments_per_shell (dc_session c); max_queued_chunks :=
  max_queued_chunks (dc_session c); scrollback_max_lines := scrollback_max_lines (dc_session c);
  scrollback_max_bytes := scrollback_max_bytes (dc_session c); privilege_drop := privilege_drop (dc_session
  c); shell_resource_limits := x; spawner_socket := spawner_socket (dc_session c); idle_shell_ttl :=
  idle_shell_ttl (dc_session c) |} c.
Definition set_spawner_socket (x : option str) (c : DaemonConfig) : DaemonConfig := set_session {|
  max_shells := max_shells (dc_session c); max_shells_per_user := max_shells_per_user (dc_session c);
  max_attachments_per_shell := max_attachments_per_shell (dc_session c); max_queued_chunks :=
  max_queued_chunks (dc_session c); scrollback_max_lines := scrollback_max_lines (dc_session c);
  scrollback_max_bytes := scrollback_max_bytes (dc_session c); privilege_drop := privilege_drop (dc_session
  c); shell_resource_limits := shell_resource_limits (dc_session c); spawner_socket := x; idle_shell_ttl :=
  idle_shell_ttl (dc_session c) |} c.
Definition set_idle_shell_ttl (x : option Z) (c : DaemonConfig) : DaemonConfig := set_session {|
  max_shells := max_shells (dc_session c); max_shells_per_user := max_shells_per_user (dc_session c);
  max_attachments_per_shell := max_attachments_per_shell (dc_session c); max_queued_chunks :=
  max_queued_chunks (dc_session c); scrollback_max_lines := scrollback_max_lines (dc_session c);
  scrollback_max_bytes := scrollback_max_bytes (dc_session c); privilege_drop := privilege_drop (dc_session
  c); shell_resource_limits := shell_resource_limits (dc_session c); spawner_socket := spawner_socket
  (dc_session c); idle_shell_ttl := x |} c.
Definition with_config (f : DaemonConfig → DaemonConfig) (c : Cli) : Cli := {|
  cl_config := f (cl_config c); cl_password_users := cl_password_users c; cl_pam_service := cl_pam_service c;
  cl_direct_webtransport_explicit := cl_direct_webtransport_explicit c; cl_frontdoor_socket :=
  cl_frontdoor_socket c; cl_frontdoor_uid := cl_frontdoor_uid c; cl_frontdoor_hostname := cl_frontdoor_hostname
  c; cl_frontdoor_port := cl_frontdoor_port c; cl_agent := cl_agent c; cl_files := cl_files c; cl_keys :=
  cl_keys c |}.
Definition with_password_users (x : gset str) (c : Cli) : Cli := {|
  cl_config := cl_config c; cl_password_users := x; cl_pam_service := cl_pam_service c;
  cl_direct_webtransport_explicit := cl_direct_webtransport_explicit c; cl_frontdoor_socket :=
  cl_frontdoor_socket c; cl_frontdoor_uid := cl_frontdoor_uid c; cl_frontdoor_hostname := cl_frontdoor_hostname
  c; cl_frontdoor_port := cl_frontdoor_port c; cl_agent := cl_agent c; cl_files := cl_files c; cl_keys :=
  cl_keys c |}.
Definition with_pam_service (x : option str) (c : Cli) : Cli := {|
  cl_config := cl_config c; cl_password_users := cl_password_users c; cl_pam_service := x;
  cl_direct_webtransport_explicit := cl_direct_webtransport_explicit c; cl_frontdoor_socket :=
  cl_frontdoor_socket c; cl_frontdoor_uid := cl_frontdoor_uid c; cl_frontdoor_hostname := cl_frontdoor_hostname
  c; cl_frontdoor_port := cl_frontdoor_port c; cl_agent := cl_agent c; cl_files := cl_files c; cl_keys :=
  cl_keys c |}.
Definition with_direct_webtransport_explicit (x : bool) (c : Cli) : Cli := {|
  cl_config := cl_config c; cl_password_users := cl_password_users c; cl_pam_service := cl_pam_service c;
  cl_direct_webtransport_explicit := x; cl_frontdoor_socket := cl_frontdoor_socket c; cl_frontdoor_uid :=
  cl_frontdoor_uid c; cl_frontdoor_hostname := cl_frontdoor_hostname c; cl_frontdoor_port := cl_frontdoor_port
  c; cl_agent := cl_agent c; cl_files := cl_files c; cl_keys := cl_keys c |}.
Definition with_frontdoor_socket (x : option str) (c : Cli) : Cli := {|
  cl_config := cl_config c; cl_password_users := cl_password_users c; cl_pam_service := cl_pam_service c;
  cl_direct_webtransport_explicit := cl_direct_webtransport_explicit c; cl_frontdoor_socket := x;
  cl_frontdoor_uid := cl_frontdoor_uid c; cl_frontdoor_hostname := cl_frontdoor_hostname c; cl_frontdoor_port :=
  cl_frontdoor_port c; cl_agent := cl_agent c; cl_files := cl_files c; cl_keys := cl_keys c |}.
Definition with_frontdoor_uid (x : option Z) (c : Cli) : Cli := {|
  cl_config := cl_config c; cl_password_users := cl_password_users c; cl_pam_service := cl_pam_service c;
  cl_direct_webtransport_explicit := cl_direct_webtransport_explicit c; cl_frontdoor_socket :=
  cl_frontdoor_socket c; cl_frontdoor_uid := x; cl_frontdoor_hostname := cl_frontdoor_hostname c;
  cl_frontdoor_port := cl_frontdoor_port c; cl_agent := cl_agent c; cl_files := cl_files c; cl_keys := cl_keys c |}.
Definition with_frontdoor_hostname (x : option str) (c : Cli) : Cli := {|
  cl_config := cl_config c; cl_password_users := cl_password_users c; cl_pam_service := cl_pam_service c;
  cl_direct_webtransport_explicit := cl_direct_webtransport_explicit c; cl_frontdoor_socket :=
  cl_frontdoor_socket c; cl_frontdoor_uid := cl_frontdoor_uid c; cl_frontdoor_hostname := x; cl_frontdoor_port
  := cl_frontdoor_port c; cl_agent := cl_agent c; cl_files := cl_files c; cl_keys := cl_keys c |}.
Definition with_frontdoor_port (x : option Z) (c : Cli) : Cli := {|
  cl_config := cl_config c; cl_password_users := cl_password_users c; cl_pam_service := cl_pam_service c;
  cl_direct_webtransport_explicit := cl_direct_webtransport_explicit c; cl_frontdoor_socket :=
  cl_frontdoor_socket c; cl_frontdoor_uid := cl_frontdoor_uid c; cl_frontdoor_hostname := cl_frontdoor_hostname
  c; cl_frontdoor_port := x; cl_agent := cl_agent c; cl_files := cl_files c; cl_keys := cl_keys c |}.
Definition with_agent (x : AgentCli) (c : Cli) : Cli := {|
  cl_config := cl_config c; cl_password_users := cl_password_users c; cl_pam_service := cl_pam_service c;
  cl_direct_webtransport_explicit := cl_direct_webtransport_explicit c; cl_frontdoor_socket :=
  cl_frontdoor_socket c; cl_frontdoor_uid := cl_frontdoor_uid c; cl_frontdoor_hostname := cl_frontdoor_hostname
  c; cl_frontdoor_port := cl_frontdoor_port c; cl_agent := x; cl_files := cl_files c; cl_keys := cl_keys c |}.
Definition with_files (fs : gmap str KeyFile) (keys : nat → KeyEnv) (c : Cli) : Cli := {|
  cl_config := cl_config c; cl_password_users := cl_password_users c; cl_pam_service := cl_pam_service c;
  cl_direct_webtransport_explicit := cl_direct_webtransport_explicit c; cl_frontdoor_socket :=
  cl_frontdoor_socket c; cl_frontdoor_uid := cl_frontdoor_uid c; cl_frontdoor_hostname := cl_frontdoor_hostname
  c; cl_frontdoor_port := cl_frontdoor_port c; cl_agent := cl_agent c; cl_files := fs; cl_keys := keys |}.
Definition set_agent_enabled (x : bool) (a : AgentCli) : AgentCli := {|
  ag_enabled := x; ag_gateway := ag_gateway a; ag_gateway_name := ag_gateway_name a; ag_ca_path := ag_ca_path a;
  ag_cert_path := ag_cert_path a; ag_key_path := ag_key_path a; ag_grant_verify_key_path :=
  ag_grant_verify_key_path a; ag_grant_audience := ag_grant_audience a |}.
Definition set_agent_gateway (x : option SocketAddr) (a : AgentCli) : AgentCli := {|
  ag_enabled := ag_enabled a; ag_gateway := x; ag_gateway_name := ag_gateway_name a; ag_ca_path := ag_ca_path a;
  ag_cert_path := ag_cert_path a; ag_key_path := ag_key_path a; ag_grant_verify_key_path :=
  ag_grant_verify_key_path a; ag_grant_audience := ag_grant_audience a |}.
Definition set_agent_gateway_name (x : option str) (a : AgentCli) : AgentCli := {|
  ag_enabled := ag_enabled a; ag_gateway := ag_gateway a; ag_gateway_name := x; ag_ca_path := ag_ca_path a;
  ag_cert_path := ag_cert_path a; ag_key_path := ag_key_path a; ag_grant_verify_key_path :=
  ag_grant_verify_key_path a; ag_grant_audience := ag_grant_audience a |}.
Definition set_agent_ca_path (x : option str) (a : AgentCli) : AgentCli := {|
  ag_enabled := ag_enabled a; ag_gateway := ag_gateway a; ag_gateway_name := ag_gateway_name a; ag_ca_path := x;
  ag_cert_path := ag_cert_path a; ag_key_path := ag_key_path a; ag_grant_verify_key_path :=
  ag_grant_verify_key_path a; ag_grant_audience := ag_grant_audience a |}.
Definition set_agent_cert_path (x : option str) (a : AgentCli) : AgentCli := {|
  ag_enabled := ag_enabled a; ag_gateway := ag_gateway a; ag_gateway_name := ag_gateway_name a; ag_ca_path :=
  ag_ca_path a; ag_cert_path := x; ag_key_path := ag_key_path a; ag_grant_verify_key_path :=
  ag_grant_verify_key_path a; ag_grant_audience := ag_grant_audience a |}.
Definition set_agent_key_path (x : option str) (a : AgentCli) : AgentCli := {|
  ag_enabled := ag_enabled a; ag_gateway := ag_gateway a; ag_gateway_name := ag_gateway_name a; ag_ca_path :=
  ag_ca_path a; ag_cert_path := ag_cert_path a; ag_key_path := x; ag_grant_verify_key_path :=
  ag_grant_verify_key_path a; ag_grant_audience := ag_grant_audience a |}.
Definition set_agent_grant_verify_key_path (x : option str) (a : AgentCli) : AgentCli := {|
  ag_enabled := ag_enabled a; ag_gateway := ag_gateway a; ag_gateway_name := ag_gateway_name a; ag_ca_path :=
  ag_ca_path a; ag_cert_path := ag_cert_path a; ag_key_path := ag_key_path a; ag_grant_verify_key_path := x;
  ag_grant_audience := ag_grant_audience a |}.
Definition set_agent_grant_audience (x : option str) (a : AgentCli) : AgentCli := {|
  ag_enabled := ag_enabled a; ag_gateway := ag_gateway a; ag_gateway_name := ag_gateway_name a; ag_ca_path :=
  ag_ca_path a; ag_cert_path := ag_cert_path a; ag_key_path := ag_key_path a; ag_grant_verify_key_path :=
  ag_grant_verify_key_path a; ag_grant_audience := x |}.

(** Standard-library parse errors are named by the value that did not parse. *)
Inductive CliError :=
  | CeText (s : str)
  | CeParse (value : str)
  | CeId (e : IdError)
  | CePam (e : PamError)
  | CeGrant (e : GrantError)
  | CeAgent (e : AgentError).

Definition text_error {A} (s : str) : option (result A CliError) := Some (Err (CeText s)).

(** [args.next().ok_or_else(..)?] *)
Notation "'next!' ( v , rest ) := args 'or' text ; k" :=
  (match args with [] => text_error (lit text%string) | v :: rest => k end)
  (at level 200, v name, rest name, args at level 100, text at level 100, k at level 200, only parsing).
(** [.parse()?] *)
Notation "'parse!' x := o 'of' v ; k" :=
  (match o with None => Some (Err (CeParse v)) | Some x => k end)
  (at level 200, x pattern, o at level 100, v at level 100, k at level 200, only parsing).

Definition USAGE : str := lit " (supported: --bind, --web-root, --ssh-auth <user> <keys>, --password-auth <user>, --pam-service <name>, --account <user> <accts>, --allowed-origin <origin>, --drop-privileges, --shell-max-processes <n>, --shell-max-open-files <n>, --shell-max-core-bytes <bytes>, --shell-idle-ttl <seconds>, --wt-bind, --wt-cert, --wt-key, --no-webtransport, --h3-frontdoor-socket <path>, --h3-frontdoor-uid <uid>, --h3-frontdoor-hostname <dns-name>, --h3-frontdoor-port <udp-port>, --grant-key <path>, --server-id <srv_hex>, --spawner-socket <path>)".

(** One more user of [--ssh-auth]; it also leaves dev-auth. *)
Definition add_ssh_user (user keys : str) (c : DaemonConfig) : DaemonConfig :=
  match dc_auth c with
  | CfgSshKeys users => set_auth (CfgSshKeys (<[user := keys]> users)) c
  | CfgDevInsecure => set_auth (CfgSshKeys {[user := keys]}) c
  end.
Definition add_origin (origin : str) (c : DaemonConfig) : DaemonConfig :=
  set_allowed_origins (Some (default [] (dc_allowed_origins c) ++ [origin])) c.
Definition add_accounts (user : str) (accounts : list str) (c : DaemonConfig) : DaemonConfig :=
  set_account_policy (Some (<[user := accounts]> (default ∅ (dc_account_policy c)))) c.
Definition add_forward_user (user : str) (c : DaemonConfig) : DaemonConfig :=
  set_tcp_forward_users ({[user]} ∪ dc_tcp_forward_users c) c.

(** The accounts of [--account]. *)
Definition account_list (accounts : str) : list str :=
  filter (λ s, is_empty s = false) (map trim (split_char 0x2C accounts)).

Definition limits (c : DaemonConfig) : ShellResourceLimits := shell_resource_limits (dc_session c).
Definition set_max_processes (n : Z) (c : DaemonConfig) : DaemonConfig := set_shell_resource_limits
  {| max_processes := n; max_open_files := max_open_files (limits c); max_core_bytes := max_core_bytes (limits c) |} c.
Definition set_max_open_files (n : Z) (c : DaemonConfig) : DaemonConfig := set_shell_resource_limits
  {| max_processes := max_processes (limits c); max_open_files := n; max_core_bytes := max_core_bytes (limits c) |} c.
Definition set_max_core_bytes (n : Z) (c : DaemonConfig) : DaemonConfig := set_shell_resource_limits
  {| max_processes := max_processes (limits c); max_open_files := max_open_files (limits c); max_core_bytes := n |} c.

(** The next load of a grant key. *)
Definition load_key (c : Cli) (path : str) : option (result (Cli * array 32) CliError) :=
  '(fs, r) ← load_or_create_grant_key (cl_keys c 0%nat) (cl_files c) path;
  Some (let? seed := map_err CeText r in Ok (with_files fs (λ n, cl_keys c (1 + n)%nat) c, seed)).

Record MainEnv := {
  me_read_to_string : str → result str str;
  me_mode : str → result Z str;
  me_pem_certs : str → result (list (result bytes str)) str;
  me_add_root : bytes → result unit str;
  me_pem_key : str → result (option bytes) str;
  me_mtls : list bytes → bytes → result unit str;
  me_connector : SocketAddr → SocketAddr → str → result unit str;
  me_start : StartEnv;
}.

Section args.
Variables (agent_mode : bool) (read_to_string : str → result str str).

Fixpoint arg_loop (args : list str) (c : Cli) : option (result Cli CliError) :=
  match args with
  | [] => Some (Ok c)
  | arg :: args =>
      let flag s := bool_decide (arg = lit s) in
      if flag "--bind"%string then
        next! (v, rest) := args or "--bind needs an address";
        parse! a := parse_socket_addr v of v; arg_loop rest (with_config (set_bind a) c)
      else if flag "--web-root"%string then
        next! (v, rest) := args or "--web-root needs a path";
        arg_loop rest (with_config (set_web_root (Some v)) c)
      else if flag "--ssh-auth"%string then
        next! (user, rest) := args or "--ssh-auth needs a username";
        next! (path, rest') := rest or "--ssh-auth needs an authorized_keys path";
        match read_to_string path with
        | Err e => text_error (lit "read " ++ path ++ lit ": " ++ e)
        | Ok keys => arg_loop rest' (with_config (add_ssh_user user keys) c)
        end
      else if flag "--password-auth"%string then
        next! (user, rest) := args or "--password-auth needs a username";
        arg_loop rest (with_password_users ({[user]} ∪ cl_password_users c) c)
      else if flag "--pam-service"%string then
        next! (v, rest) := args or "--pam-service needs a service name";
        arg_loop rest (with_pam_service (Some v) c)
      else if flag "--wt-bind"%string then
        next! (v, rest) := args or "--wt-bind needs a UDP address";
        parse! a := parse_socket_addr v of v;
        arg_loop rest (with_config (set_webtransport_bind (Some a)) (with_direct_webtransport_explicit true c))
      else if flag "--wt-cert"%string then
        next! (v, rest) := args or "--wt-cert needs a PEM path";
        arg_loop rest (with_config (set_webtransport_certificate (Some v)) (with_direct_webtransport_explicit true c))
      else if flag "--wt-key"%string then
        next! (v, rest) := args or "--wt-key needs a PEM path";
        arg_loop rest (with_config (set_webtransport_private_key (Some v)) (with_direct_webtransport_explicit true c))
      else if flag "--no-webtransport"%string then arg_loop args (with_config (set_webtransport_bind None) c)
      else if flag "--h3-frontdoor-socket"%string then
        next! (v, rest) := args or "--h3-frontdoor-socket needs a path";
        arg_loop rest (with_frontdoor_socket (Some v) c)
      else if flag "--h3-frontdoor-uid"%string then
        next! (v, rest) := args or "--h3-frontdoor-uid needs a UID";
        parse! u := parse_uint u32_max v of v; arg_loop rest (with_frontdoor_uid (Some u) c)
      else if flag "--h3-frontdoor-hostname"%string then
        next! (v, rest) := args or "--h3-frontdoor-hostname needs a DNS hostname";
        arg_loop rest (with_frontdoor_hostname (Some v) c)
      else if flag "--h3-frontdoor-port"%string then
        next! (v, rest) := args or "--h3-frontdoor-port needs a UDP port";
        parse! p := parse_uint u16_max v of v; arg_loop rest (with_frontdoor_port (Some p) c)
      else if flag "--grant-key"%string then
        next! (path, rest) := args or "--grant-key needs a path";
        r ← load_key c path;
        match r with
        | Err e => Some (Err e)
        | Ok (c, seed) => arg_loop rest (with_config (set_grant_signing_key (Some seed)) c)
        end
      else if flag "--allowed-origin"%string then
        next! (v, rest) := args or "--allowed-origin needs a value";
        arg_loop rest (with_config (add_origin v) c)
      else if flag "--account"%string then
        next! (user, rest) := args or "--account needs a username";
        next! (accounts, rest') := rest or "--account needs a comma-separated account list";
        if is_empty (account_list accounts)
        then text_error (lit "--account " ++ user ++ lit ": account list is empty")
        else arg_loop rest' (with_config (add_accounts user (account_list accounts)) c)
      else if flag "--drop-privileges"%string then arg_loop args (with_config (set_privilege_drop true) c)
      else if flag "--spawner-socket"%string then
        next! (v, rest) := args or "--spawner-socket needs a path";
        arg_loop rest (with_config (set_spawner_socket (Some v)) c)
      else if flag "--tcp-forward-user"%string then
        next! (v, rest) := args or "--tcp-forward-user needs a username";
        arg_loop rest (with_config (add_forward_user v) c)
      else if flag "--upload-root"%string then
        next! (v, rest) := args or "--upload-root needs an absolute path";
        arg_loop rest (with_config (set_upload_root (Some v)) c)
      else if flag "--upload-max-bytes"%string then
        next! (v, rest) := args or "--upload-max-bytes needs a byte count";
        parse! n := parse_uint u64_max v of v; arg_loop rest (with_config (set_upload_max_file_bytes n) c)
      else if flag "--upload-retention-hours"%string then
        next! (v, rest) := args or "--upload-retention-hours needs a value";
        parse! hours := parse_uint u64_max v of v;
        if hours =? 0 then text_error (lit "--upload-retention-hours must be greater than zero")
        else if u64_max <? hours * (60 * 60) then text_error (lit "upload retention is too large")
        else arg_loop rest (with_config (set_upload_retention (hours * (60 * 60))) c)
      else if flag "--shell-max-processes"%string then
        next! (v, rest) := args or "--shell-max-processes needs a value";
        parse! n := parse_uint u64_max v of v;
        if n =? 0 then text_error (lit "--shell-max-processes must be greater than zero")
        else arg_loop rest (with_config (set_max_processes n) c)
      else if flag "--shell-max-open-files"%string then
        next! (v, rest) := args or "--shell-max-open-files needs a value";
        parse! n := parse_uint u64_max v of v;
        if n =? 0 then text_error (lit "--shell-max-open-files must be greater than zero")
        else arg_loop rest (with_config (set_max_open_files n) c)
      else if flag "--shell-max-core-bytes"%string then
        next! (v, rest) := args or "--shell-max-core-bytes needs a value";
        parse! n := parse_uint u64_max v of v; arg_loop rest (with_config (set_max_core_bytes n) c)
      else if flag "--shell-idle-ttl"%string then
        next! (v, rest) := args or "--shell-idle-ttl needs seconds";
        parse! seconds := parse_uint u64_max v of v;
        if seconds =? 0 then text_error (lit "--shell-idle-ttl must be > 0 (omit the flag to disable)")
        else arg_loop rest (with_config (set_idle_shell_ttl (Some (seconds * 1000))) c)
      else if flag "--agent"%string then
        if agent_mode then arg_loop args (with_agent (set_agent_enabled true (cl_agent c)) c)
        else text_error (lit "agent mode is not compiled in; rebuild with `--features agent-mode`")
      else if agent_mode && flag "--gateway"%string then
        next! (v, rest) := args or "--gateway needs an address";
        parse! a := parse_socket_addr v of v; arg_loop rest (with_agent (set_agent_gateway (Some a) (cl_agent c)) c)
      else if agent_mode && flag "--gateway-name"%string then
        next! (v, rest) := args or "--gateway-name needs a TLS DNS name";
        arg_loop rest (with_agent (set_agent_gateway_name (Some v) (cl_agent c)) c)
      else if flag "--server-id"%string then
        next! (v, rest) := args or "--server-id needs srv_<hex>";
        r ← from_str SERVER_PREFIX v;
        match r with
        | Err e => Some (Err (CeId e))
        | Ok id => arg_loop rest (with_config (set_server_id (Some id)) c)
        end
      else if agent_mode && flag "--agent-ca"%string then
        next! (v, rest) := args or "--agent-ca needs a PEM path";
        arg_loop rest (with_agent (set_agent_ca_path (Some v) (cl_agent c)) c)
      else if agent_mode && flag "--agent-cert"%string then
        next! (v, rest) := args or "--agent-cert needs a PEM path";
        arg_loop rest (with_agent (set_agent_cert_path (Some v) (cl_agent c)) c)
      else if agent_mode && flag "--agent-key"%string then
        next! (v, rest) := args or "--agent-key needs a PEM path";
        arg_loop rest (with_agent (set_agent_key_path (Some v) (cl_agent c)) c)
      else if agent_mode && flag "--grant-verify-key"%string then
        next! (v, rest) := args or "--grant-verify-key needs a path";
        arg_loop rest (with_agent (set_agent_grant_verify_key_path (Some v) (cl_agent c)) c)
      else if agent_mode && flag "--grant-audience"%string then
        next! (v, rest) := args or "--grant-audience needs a value";
        arg_loop rest (with_agent (set_agent_grant_audience (Some v) (cl_agent c)) c)
      else text_error (lit "unknown argument: " ++ arg ++ USAGE)
  end.
End args.

(** ** After the loop *)
Definition is_some {A} (o : option A) : bool := match o with Some _ => true | None => false end.

Definition take_frontdoor (c : Cli) : result Cli CliError :=
  if negb (is_some (cl_frontdoor_socket c) || is_some (cl_frontdoor_uid c) || is_some (cl_frontdoor_hostname c) ||
           is_some (cl_frontdoor_port c)) then Ok c
  else if cl_direct_webtransport_explicit c || is_some (dc_webtransport_certificate (cl_config c)) ||
          is_some (dc_webtransport_private_key (cl_config c))
  then Err (CeText (lit "shared H3 front-door options cannot be combined with --wt-bind/--wt-cert/--wt-key"))
  else
    let? socket := ok_or (cl_frontdoor_socket c) (CeText (lit "shared H3 mode requires --h3-frontdoor-socket")) in
    let? uid := ok_or (cl_frontdoor_uid c) (CeText (lit "shared H3 mode requires --h3-frontdoor-uid")) in
    let? hostname := ok_or (cl_frontdoor_hostname c) (CeText (lit "shared H3 mode requires --h3-frontdoor-hostname")) in
    let? port := ok_or (cl_frontdoor_port c) (CeText (lit "shared H3 mode requires --h3-frontdoor-port")) in
    Ok (with_config (λ d, set_h3_frontdoor (Some {|
          socket_path := socket; frontdoor_uid := uid; fd_hostname := hostname; public_port := port;
          maximum_sessions := 256; maximum_streams_per_session := 64 |}) (set_webtransport_bind None d)) c).

(** An unset WebTransport port becomes 4433. *)
Definition stable_port (c : Cli) : Cli :=
  if bool_decide (dc_webtransport_bind (cl_config c) = dc_webtransport_bind daemon_config_default)
  then with_config (set_webtransport_bind (Some (local 4433))) c else c.

Definition take_password (c : Cli) : option (result Cli CliError) :=
  if bool_decide (cl_password_users c = ∅) then Some (Ok c)
  else
    r ← pam_verifier_new (default DEFAULT_PAM_SERVICE (cl_pam_service c));
    Some (let? verifier := map_err CePam r in
          Ok (with_config (λ d, set_password_auth (Some {| pa_users := cl_password_users c; pa_verifier := verifier |})
                (match dc_auth d with CfgDevInsecure => set_auth (CfgSshKeys ∅) d | CfgSshKeys _ => d end)) c)).

Definition check_cli (c : Cli) : option (result Cli CliError) :=
  match take_frontdoor c with
  | Err e => Some (Err e)
  | Ok c =>
      let c := stable_port c in
      if bool_decide (is_Some (cl_pam_service c)) && bool_decide (cl_password_users c = ∅)
      then text_error (lit "--pam-service requires at least one --password-auth <user>")
      else if bool_decide (is_Some (spawner_socket (dc_session (cl_config c)))) &&
              negb (privilege_drop (dc_session (cl_config c)))
      then text_error (lit "--spawner-socket requires --drop-privileges")
      else
        r ← take_password c;
        match r with
        | Err e => Some (Err e)
        | Ok c =>
            match privilege_drop (dc_session (cl_config c)), dc_account_policy (cl_config c) with
            | true, None =>
                text_error (lit "--drop-privileges requires at least one --account <user> <accounts> mapping (otherwise any authenticated user could run a shell as any account)")
            | _, _ => Some (Ok c)
            end
        end
  end.

Section main.
Context {V : VtOps} {P : PtyOps} {S : HashOps} {K : GrantCrypto} {Q : SshCrypto}.
Variables (agent_mode : bool) (version : str) (env : MainEnv).

(** *** Agent mode *)
Definition load_grant_verifier (path : str) : option (result GrantVerifier CliError) :=
  match me_read_to_string env path with
  | Err e => text_error e
  | Ok value =>
      let hex := trim value in
      if negb (str_len hex =? 64)
      then text_error (path ++ lit " must contain exactly 64 hexadecimal characters")
      else
        r ← parse_slots 32 (str_bytes hex);
        match r with
        | Err _ => text_error (path ++ lit " contains invalid hexadecimal")
        | Ok l => bytes ← array_of 32 l; Some (map_err CeGrant (verifier_from_public_bytes bytes))
        end
  end.

Fixpoint add_roots (certs : list (result bytes str)) : result unit str :=
  match certs with
  | [] => Ok ()
  | cert :: certs => let? cert := cert in let? _ := me_add_root env cert in add_roots certs
  end.
Fixpoint collect (certs : list (result bytes str)) : result (list bytes) str :=
  match certs with
  | [] => Ok []
  | cert :: certs => let? cert := cert in let? rest := collect certs in Ok (cert :: rest)
  end.

Definition load_agent_tls (ca_path cert_path key_path : str) : result unit str :=
  let? mode := me_mode env key_path in
  if loose mode
  then Err (key_path ++ lit " must not be readable or writable by group/other (expected mode 0600 or stricter)")
  else
    let? ca := me_pem_certs env ca_path in
    let? _ := add_roots ca in
    if is_empty ca then Err (ca_path ++ lit " contains no CA certificates")
    else
      let? certs := me_pem_certs env cert_path in
      let? chain := collect certs in
      if is_empty chain then Err (cert_path ++ lit " contains no agent certificate")
      else
        let? key := me_pem_key env key_path in
        let? key := ok_or key (key_path ++ lit " contains no private key") in
        me_mtls env chain key.

Definition is_ipv4 (a : SocketAddr) : bool := match sa_ip a with V4 _ => true | V6 _ => false end.
Definition any_addr (v4 : bool) : SocketAddr :=
  {| sa_ip := if v4 then V4 [0; 0; 0; 0] else V6 [0; 0; 0; 0; 0; 0; 0; 0]; sa_port := 0; sa_scope := 0 |}.

Inductive Running :=
  | Standalone (d : Daemon)
  | AgentLinked (server_id : ServerId) (gateway : SocketAddr) (d : AgentDaemon).

Definition needed {A} (o : option A) (what : string) : result A CliError :=
  ok_or o (CeText (lit "--agent requires " ++ lit what)).

Definition run_agent (c : Cli) : option (result Running CliError) :=
  let a := cl_agent c in
  match (let? gateway := needed (ag_gateway a) "--gateway <address>"%string in
         let? gateway_name := needed (ag_gateway_name a) "--gateway-name <TLS DNS name>"%string in
         let? server_id := needed (dc_server_id (cl_config c)) "--server-id <srv_hex>"%string in
         let? ca_path := needed (ag_ca_path a) "--agent-ca <PEM>"%string in
         let? cert_path := needed (ag_cert_path a) "--agent-cert <PEM>"%string in
         let? key_path := needed (ag_key_path a) "--agent-key <PEM>"%string in
         let? verify_key := needed (ag_grant_verify_key_path a) "--grant-verify-key <32-byte-hex file>"%string in
         let? grant_audience := needed (ag_grant_audience a) "--grant-audience <value>"%string in
         let? _ := map_err CeText (load_agent_tls ca_path cert_path key_path) in
         Ok (gateway, gateway_name, server_id, verify_key, grant_audience)) with
  | Err e => Some (Err e)
  | Ok (gateway, gateway_name, server_id, verify_key, grant_audience) =>
      verifier ← load_grant_verifier verify_key;
      Some (
        let? grant_verifier := verifier in
        let? _ := map_err CeAgent (registration_request_new server_id version) in
        let? _ := map_err CeText (me_connector env (any_addr (is_ipv4 gateway)) gateway gateway_name) in
        let? d := map_err CeAgent (agent_daemon_start {|
          ac_reconnect := reconnect_default; ac_grant_verifier := grant_verifier;
          ac_grant_audience := grant_audience; ac_account_policy := dc_account_policy (cl_config c);
          ac_session := dc_session (cl_config c) |}) in
        Ok (AgentLinked server_id gateway d))
  end.

(** [main] until it waits: what runs, and the files it leaves. *)
Definition main (fs : gmap str KeyFile) (keys : nat → KeyEnv) (args : list str)
    : option (result (Running * Cli) CliError) :=
  r ← arg_loop agent_mode (me_read_to_string env) args (cli_default fs keys);
  match r with
  | Err e => Some (Err e)
  | Ok c =>
      r ← check_cli c;
      match r with
      | Err e => Some (Err e)
      | Ok c =>
          r ← if ag_enabled (cl_agent c) then run_agent c
              else r ← start (me_start env) (cl_config c); Some (let? d := map_err CeText r in Ok (Standalone d));
          Some (let? d := r in Ok (d, c))
      end
  end.
End main.
