(* ===== verification/HoldfastdProps.v ===== *)
(** * What a started daemon guarantees

    Every command line either is refused or starts a daemon that keeps the
    rules of the threat model; grants outlive a restart when the key is kept. *)
From S2P Require Import Prelude Protocol Ids Paths Utf8 Auth Pam History TerminalModel Launch SessionCore UploadProto UploadStore Forward AgentWire Agent Frontdoor Transport Startup Holdfastd.

(** ** The argument loop *)
Lemma parse_digits_range max acc s n : 0 ≤ acc ≤ max → parse_digits max acc s = Some n → 0 ≤ n ≤ max.
Proof.
  revert acc. induction s as [|c s IH]; intros acc Ha; simpl; [by intros [= <-]|].
  case_match eqn:E; [|done]. to_prop. apply IH. rewrite /is_ascii_digit in H. lia.
Qed.
Lemma parse_uint_range max s n : 0 ≤ max → parse_uint max s = Some n → 0 ≤ n ≤ max.
Proof.
  intros Hm. rewrite /parse_uint. destruct s as [|c s]; [done|]. repeat case_match; try done; apply parse_digits_range; lia.
Qed.

(** What the loop keeps of the configuration. *)
Record loop_ok (c : DaemonConfig) : Prop := {
  lo_processes : 0 < max_processes (shell_resource_limits (dc_session c));
  lo_files : 0 < max_open_files (shell_resource_limits (dc_session c));
  lo_ttl : ∀ t, idle_shell_ttl (dc_session c) = Some t → 0 < t;
  lo_accounts : ∀ m, dc_account_policy c = Some m → map_Forall (λ _ l, l ≠ [] ∧ Forall (λ a, a ≠ []) l) m;
  lo_retention : 0 < dc_upload_retention c ≤ u64_max;
  lo_websocket : dc_enable_websocket c = false;
  lo_frontdoor : dc_h3_frontdoor c = None;
  lo_password : dc_password_auth c = None;
}.

Lemma account_list_ok s : Forall (λ a, a ≠ []) (account_list s).
Proof. apply Forall_forall. intros a. rewrite /account_list list_elem_of_filter. by destruct a; intros []. Qed.

Lemma loop_default : loop_ok daemon_config_default.
Proof. split; cbn; try done; lia. Qed.

(** A turn other than the load of a key changes what does not depend on the
    files, and keeps [loop_ok]. *)
Record plain (u : Cli → Cli) : Prop := {
  pl_files c : cl_files (u c) = cl_files c;
  pl_commutes fs keys c : u (with_files fs keys c) = with_files fs keys (u c);
  pl_ok c : loop_ok (cl_config c) → loop_ok (cl_config (u c));
}.

(** What a turn is: the end, another turn with fewer arguments, or a key. *)
Inductive Turn (loop : list str → Cli → option (result Cli CliError)) (n : nat) (F : Cli → option (result Cli CliError)) : Prop :=
  | TStop : (∀ c c', F c ≠ Some (Ok c')) → Turn loop n F
  | TStep rest u : (length rest < n)%nat → plain u → (∀ c, F c = loop rest (u c)) → Turn loop n F
  | TLoad path rest : (length rest < n)%nat →
      (∀ c, F c = (r ← load_key c path;
                   match r with
                   | Err e => Some (Err e)
                   | Ok (c, seed) => loop rest (with_config (set_grant_signing_key (Some seed)) c)
                   end)) → Turn loop n F.

Ltac turn arg :=
  rewrite /text_error; cbn beta zeta;
  repeat (let E := fresh "E" in
    match goal with
    | |- Turn _ _ (λ c, if bool_decide (arg = ?x) then _ else _) => destruct (bool_decide (arg = x))
    | |- Turn _ _ (λ c, if ?b && bool_decide (arg = ?x) then _ else _) => destruct (b && bool_decide (arg = x))
    | |- Turn _ _ (λ c, if ?b then _ else _) => destruct b eqn:E
    | |- Turn _ _ (λ c, match ?l with [] => _ | _ :: _ => _ end) => destruct l eqn:E
    | |- Turn _ _ (λ c, match ?o with Some _ => _ | None => _ end) => destruct o eqn:E
    | |- Turn _ _ (λ c, match ?r with Ok _ => _ | Err _ => _ end) => destruct r eqn:E
    | |- Turn _ _ (λ c, mbind _ (from_str ?p ?v)) => destruct (from_str p v) eqn:E; cbn [mbind option_bind]
    | |- Turn _ _ (λ c, Some (Err _)) => apply TStop; discriminate
    | |- Turn _ _ (λ c, None) => apply TStop; discriminate
    | |- Turn _ _ (λ c, mbind _ (load_key c ?path)) => eapply (TLoad _ _ _ path); [|reflexivity]; simpl; lia
    | |- Turn _ _ (λ c, arg_loop _ _ ?rest (@?u c)) => apply (TStep _ _ _ rest u); [simpl; lia| |intros; reflexivity]
    end).

(** ** The grant key file *)
Lemma forallb_Forall_true {A} (f : A → bool) l : forallb f l = true → Forall (λ x, f x = true) l.
Proof. induction l as [|x l IH]; simpl; [done|]. intros [? ?]%andb_true_iff. constructor; [done|by apply IH]. Qed.

Lemma parse_slots_length n hex l : parse_slots n hex = Some (Ok l) → length l = n.
Proof.
  revert hex l. induction n as [|n IH]; intros hex l; unfold parse_slots; fold parse_slots; [by intros [= <-]|].
  destruct hex as [|a [|b hex]]; [done..|]. case_match; [|done]. destruct (radix16 a b); [|done].
  destruct (parse_slots n hex) as [[vs|]|] eqn:E; simpl; try done. intros [= <-]. simpl. by rewrite (IH hex vs).
Qed.

Lemma hexdigit_facts c : is_ascii_hexdigit c = true → is_whitespace c = false ∧ is_ascii c = true.
Proof. rewrite /is_ascii_hexdigit /is_ascii_digit /is_whitespace /is_ascii. lia. Qed.

Lemma hex_bytes_digits l : Forall (λ c, is_ascii_hexdigit c = true) (hex_bytes l).
Proof.
  rewrite /hex_bytes. induction l as [|b l IH]; simpl; [constructor|]. pose proof (byte_Z_range b).
  assert (∀ n, 0 ≤ n < 16 → is_ascii_hexdigit (hex_digit n) = true) as Hd.
  { intros n Hn. rewrite /hex_digit /is_ascii_hexdigit /is_ascii_digit. case_match; lia. }
  constructor; [apply Hd; zlia|]. constructor; [apply Hd; zlia|done].
Qed.

(** What a file's text says, without the faults of the calls. *)
Definition key_text (f : KeyFile) (seed : array 32) : Prop :=
  loose (kf_mode f) = false ∧ ∃ text, from_utf8 (kf_bytes f) = Ok text ∧
    str_len (trim text) = 64 ∧ Forall (λ c, is_ascii_hexdigit c = true) (trim text) ∧
    parse_slots 32 (str_bytes (trim text)) = Some (Ok (array_bytes seed)).

Lemma key_text_fun f seed seed' : key_text f seed → key_text f seed' → seed = seed'.
Proof. intros (_ & x & Hx & _ & _ & Hp) (_ & y & Hy & _ & _ & Hq). apply (inj array_bytes). congruence. Qed.

Lemma written_key seed : key_text {| kf_mode := 0x180; kf_bytes := str_bytes (hex_bytes (array_bytes seed)) |} seed.
Proof.
  pose proof (hex_bytes_digits (array_bytes seed)) as Hd. pose proof (hex_bytes_ascii (array_bytes seed)) as Ha.
  split; [done|]. exists (hex_bytes (array_bytes seed)). cbn [kf_bytes].
  assert (trim (hex_bytes (array_bytes seed)) = hex_bytes (array_bytes seed)) as ->.
  { apply trim_id. eapply Forall_impl; [exact Hd|]. intros c Hc. by apply hexdigit_facts. }
  assert (str_bytes (hex_bytes (array_bytes seed)) = map Z_byte (hex_bytes (array_bytes seed))) as Hb by by apply str_bytes_ascii.
  split_and!; [| |done|].
  - apply from_utf8_str_bytes. eapply Forall_impl; [exact Ha|]. intros c. rewrite /is_ascii /is_scalar. lia.
  - rewrite /str_len Hb /len length_map hex_bytes_length array_bytes_length. done.
  - rewrite Hb -{1}(array_bytes_length seed). apply parse_slots_hex.
Qed.

(** A load creates the file or leaves everything as it was; what it returns is
    what the file says. *)
Lemma load_Ok ke fs path fs' seed :
  load_or_create_grant_key ke fs path = Some (fs', Ok seed) →
  fs ⊆ fs' ∧ (∃ f, fs' !! path = Some f ∧ key_text f seed) ∧ (is_Some (fs !! path) → fs' = fs).
Proof.
  rewrite /load_or_create_grant_key. destruct (fs !! path) as [f|] eqn:Ef.
  - destruct (ke_stat ke); [done|]. case_match eqn:El; [done|]. destruct (ke_read ke); [done|].
    destruct (from_utf8 (kf_bytes f)) as [text|] eqn:Eu; [|done]. case_match eqn:Eg; [done|]. to_prop.
    destruct (parse_slots _ _) as [[l|]|] eqn:Ep; simpl; try done. destruct (array_of 32 l) as [s|] eqn:Ea; [|done].
    intros [= <- <-]. apply array_of_Some in Ea. split_and!; [done| |done]. exists f. split; [done|]. split; [done|].
    exists text. split_and!; [done|done| |by rewrite Ea]. by apply forallb_Forall_true.
  - destruct (ke_write ke) as [[]|]; [done|]. destruct (ke_chmod ke); [done|]. intros [= <- <-].
    split_and!; [by apply insert_subseteq| |by intros []]. eexists. rewrite lookup_insert_eq. split; [done|apply written_key].
Qed.

Lemma load_stable ke fs path fs' seed ke' F F' seed' :
  load_or_create_grant_key ke fs path = Some (fs', Ok seed) → fs' ⊆ F →
  load_or_create_grant_key ke' F path = Some (F', Ok seed') → F' = F ∧ seed' = seed.
Proof.
  intros (_ & (f & Hf & Hk) & _)%load_Ok Hsub (_ & (f' & Hf' & Hk') & Hs)%load_Ok.
  assert (F !! path = Some f) as HF by by eapply lookup_weaken.
  assert (F' = F) as -> by (apply Hs; rewrite HF; by eexists).
  split; [done|]. rewrite HF in Hf'. injection Hf' as <-. by eapply key_text_fun.
Qed.

(** A load never panics. *)
Lemma load_total ke fs path : is_Some (load_or_create_grant_key ke fs path).
Proof.
  rewrite /load_or_create_grant_key. destruct (fs !! path) as [f|]; [|repeat case_match; by eexists].
  destruct (ke_stat ke); [by eexists|]. case_match; [by eexists|]. destruct (ke_read ke); [by eexists|].
  destruct (from_utf8 (kf_bytes f)) as [text|]; [|by eexists]. case_match eqn:Eg; [by eexists|]. to_prop.
  assert (Forall (λ c, is_ascii c = true) (trim text)) as Ha.
  { eapply Forall_impl; [by apply forallb_Forall_true|]. intros c Hc. by apply hexdigit_facts. }
  assert (str_bytes (trim text) = map Z_byte (trim text)) as Hb by by apply str_bytes_ascii.
  destruct (parse_slots_ascii 32 (trim text)) as [r Hr]; [done| |].
  { rewrite /str_len Hb /len length_map in H0. lia. }
  rewrite Hb Hr /=. destruct r as [l|]; [|by eexists].
  destruct (array_of 32 l) eqn:Ea; [by eexists|]. apply array_of_None in Ea. exfalso. apply Ea.
  by apply (parse_slots_length _ _ _ Hr).
Qed.

Section loop.
Variables (agent_mode : bool) (read_to_string : str → result str str).

Notation loop := (arg_loop agent_mode read_to_string).

Lemma arg_turn arg args : Turn loop (S (length args)) (λ c, loop (arg :: args) c).
Proof.
  cbn [arg_loop]. turn arg.
  all: split; [by intros|intros; try done|intros c I; try exact I].
  all: repeat match goal with H : parse_uint _ _ = Some _ |- _ => apply parse_uint_range in H; [|done] end; to_prop.
  all: try (destruct I; split; cbn; done).
  - by rewrite /= /add_ssh_user; destruct (dc_auth (cl_config c)); destruct I.
  - destruct I as [????????]. split; try done. cbn. intros m [= <-].
    apply map_Forall_insert_2; [|destruct (dc_account_policy (cl_config c)); [by apply lo_accounts0|apply map_Forall_empty]].
    split; [by destruct (account_list l1)|apply account_list_ok].
  - destruct I. split; try done. cbn. lia.
  - destruct I. split; try done. cbn. lia.
  - destruct I. split; try done. cbn. lia.
  - destruct I. split; try done. cbn. intros t [= <-]. lia.
Qed.

(** The induction over the loop. *)
Lemma arg_loop_ind (R : list str → Cli → Cli → Prop) :
  (∀ c, R [] c c) →
  (∀ args rest u c c', plain u → (∀ c, loop args c = loop rest (u c)) → loop rest (u c) = Some (Ok c') →
     R rest (u c) c' → R args c c') →
  (∀ args rest path c fs seed c',
     (∀ c, loop args c = (r ← load_key c path;
        match r with Err e => Some (Err e)
        | Ok (c, seed) => loop rest (with_config (set_grant_signing_key (Some seed)) c) end)) →
     load_or_create_grant_key (cl_keys c 0%nat) (cl_files c) path = Some (fs, Ok seed) →
     let next := with_config (set_grant_signing_key (Some seed)) (with_files fs (λ n, cl_keys c (1 + n)%nat) c) in
     loop rest next = Some (Ok c') → R rest next c' → R args c c') →
  ∀ args c c', loop args c = Some (Ok c') → R args c c'.
Proof.
  intros Hnil Hstep Hload args. induction args as [args IH] using (induction_ltof1 _ length). unfold ltof in IH.
  intros c c' Hl. destruct args as [|arg args]; [injection Hl as <-; apply Hnil|].
  destruct (arg_turn arg args) as [Hs|rest u Hlen Hp Hu|path rest Hlen Hu]; [by destruct (Hs c c')| |].
  - pose proof Hl as Hl'. rewrite Hu in Hl'. apply (Hstep _ rest u); try done. apply IH; [simpl; lia|done].
  - pose proof Hl as Hl'. rewrite Hu /load_key in Hl'.
    destruct (load_or_create_grant_key _ _ _) as [[fs [seed|e]]|] eqn:El; simpl in Hl'; try done.
    eapply (Hload _ rest path); try done. apply IH; [simpl; lia|done].
Qed.

Lemma arg_loop_ok args c c' : loop args c = Some (Ok c') → loop_ok (cl_config c) → loop_ok (cl_config c').
Proof.
  revert args c c'. apply (arg_loop_ind (λ _ c c', loop_ok (cl_config c) → loop_ok (cl_config c'))); [done| |].
  - intros _ rest u c c' Hp _ _ IH I. by apply IH, Hp.
  - intros _ rest path c fs seed c' _ _ next _ IH I. apply IH. destruct I. by split.
Qed.

Lemma arg_loop_files args c c' : loop args c = Some (Ok c') → cl_files c ⊆ cl_files c'.
Proof.
  revert args c c'. apply (arg_loop_ind (λ _ c c', cl_files c ⊆ cl_files c')); [done| |].
  - intros _ rest u c c' Hp _ _ IH. by rewrite -(pl_files _ Hp c).
  - intros _ rest path c fs seed c' _ Hl next _ IH. etrans; [|exact IH]. by apply load_Ok in Hl as [? _].
Qed.

(** The same arguments after a run, over the files it left, give the same
    configuration. *)
Lemma arg_loop_again args c c' :
  loop args c = Some (Ok c') → ∀ fs keys c2, cl_files c' ⊆ fs →
  loop args (with_files fs keys c) = Some (Ok c2) → ∃ keys', c2 = with_files fs keys' c'.
Proof.
  revert args c c'. apply (arg_loop_ind (λ args c c', ∀ fs keys c2, cl_files c' ⊆ fs →
    loop args (with_files fs keys c) = Some (Ok c2) → ∃ keys', c2 = with_files fs keys' c')).
  - intros c fs keys c2 _ [= <-]. by exists keys.
  - intros args rest u c c' Hp Hu _ IH fs keys c2 Hsub. rewrite Hu (pl_commutes _ Hp). by apply IH.
  - intros args rest path c fs0 seed c' Hu Hl next Hr IH fs keys c2 Hsub. rewrite Hu /load_key.
    cbn [cl_keys cl_files with_files].
    destruct (load_or_create_grant_key (keys 0%nat) fs path) as [[F [seed'|e]]|] eqn:El; simpl; try done.
    apply arg_loop_files in Hr. destruct (load_stable _ _ _ _ _ _ _ _ _ Hl (transitivity Hr Hsub) El) as [-> ->].
    by apply (IH fs (λ n, keys (1 + n)%nat)).
Qed.
End loop.

(** ** What the checks of [start] establish *)
Record checked (c : DaemonConfig) : Prop := {
  ck_wt a : dc_webtransport_bind c = Some a → loopback a = false →
    is_Some (dc_webtransport_certificate c) ∧ is_Some (dc_webtransport_private_key c);
  ck_frontdoor f : dc_h3_frontdoor c = Some f → config_validate f = Ok () ∧ dc_webtransport_bind c = None;
  ck_dev : dc_auth c = CfgDevInsecure →
    loopback (dc_bind c) = true ∧ (∀ a, dc_webtransport_bind c = Some a → loopback a = true) ∧
    dc_h3_frontdoor c = None ∧ dc_password_auth c = None;
  ck_password p : dc_password_auth c = Some p →
    pa_users p ≠ ∅ ∧ ∀ u, u ∈ pa_users p → 0 < str_len u ≤ 128;
  ck_max : dc_upload_max_file_bytes c ≤ UPLOAD_FILE_BYTES_HARD_MAX;
  ck_root root : dc_upload_root c = Some root → is_absolute root = true ∧
    (privilege_drop (dc_session c) = true → is_Some (spawner_socket (dc_session c)));
}.

Lemma check_dev_binds_Ok l : check_dev_binds l = Ok () → Forall (λ a, loopback a = true) l.
Proof. induction l as [|a l IH]; simpl; [done|]. destruct (loopback a) eqn:E; simpl; [|done]. intros ?. constructor; auto. Qed.

Lemma check_webtransport_Ok c : check_webtransport c = Ok () →
  ∀ a, dc_webtransport_bind c = Some a → loopback a = false →
    is_Some (dc_webtransport_certificate c) ∧ is_Some (dc_webtransport_private_key c).
Proof.
  rewrite /check_webtransport. intros Hc a Ha Hl. rewrite Ha Hl /= in Hc.
  destruct (dc_webtransport_certificate c), (dc_webtransport_private_key c); try done.
Qed.

Lemma check_frontdoor_Ok c f : check_frontdoor c = Ok () → dc_h3_frontdoor c = Some f →
  config_validate f = Ok () ∧ dc_webtransport_bind c = None.
Proof.
  rewrite /check_frontdoor. intros Hc Hf. rewrite Hf in Hc. destruct (config_validate f) as [[]|]; [|done].
  case_match eqn:E; [done|]. to_prop. split; [done|]. by destruct (dc_webtransport_bind c); [destruct H; eexists|].
Qed.

Lemma check_dev_auth_Ok c : check_dev_auth c = Ok () → dc_auth c = CfgDevInsecure →
  loopback (dc_bind c) = true ∧ (∀ a, dc_webtransport_bind c = Some a → loopback a = true) ∧
  dc_h3_frontdoor c = None ∧ dc_password_auth c = None.
Proof.
  rewrite /check_dev_auth. intros Hc Ha. rewrite Ha in Hc. case_bool_decide as Hf; [done|].
  destruct (check_dev_binds _) as [[]|] eqn:Eb; [|done]. apply check_dev_binds_Ok, Forall_cons in Eb as [Hb Hw].
  case_bool_decide as Hp; [done|]. split_and!; [done| | |].
  - intros a Hx. rewrite Hx /= in Hw. by apply Forall_cons in Hw as [? _].
  - by destruct (dc_h3_frontdoor c); [destruct Hf; eexists|].
  - by destruct (dc_password_auth c); [destruct Hp; eexists|].
Qed.

Lemma str_len_pos s : s ≠ [] → 0 < str_len s.
Proof.
  destruct s as [|c s]; [done|]. intros _. rewrite /str_len /str_bytes /=.
  assert (utf8_encode_char c ≠ []) by (rewrite /utf8_encode_char; by repeat case_match).
  destruct (utf8_encode_char c); [done|]. rewrite /len /=. lia.
Qed.

Lemma check_password_Ok c p : check_password c = Ok () → dc_password_auth c = Some p →
  pa_users p ≠ ∅ ∧ ∀ u, u ∈ pa_users p → 0 < str_len u ≤ 128.
Proof.
  rewrite /check_password. intros Hc Hp. rewrite Hp in Hc. case_bool_decide as He; [done|].
  case_match eqn:E; [done|]. split; [done|]. intros u Hu. apply elem_of_elements, list_elem_of_In in Hu.
  assert ((is_empty u || (MAX_USERNAME_BYTES <? str_len u)) = false) as Hx.
  { destruct (_ || _) eqn:Ex in |- *; [|done]. rewrite -E. symmetry. apply existsb_exists. by exists u. }
  to_prop. rewrite /MAX_USERNAME_BYTES in H0. split; [|lia]. apply str_len_pos. by destruct u.
Qed.

Lemma check_config_Ok c : check_config c = Ok () → checked c.
Proof.
  rewrite /check_config. destruct (check_webtransport c) as [[]|] eqn:E1; [|done].
  destruct (check_frontdoor c) as [[]|] eqn:E2; [|done]. destruct (check_dev_auth c) as [[]|] eqn:E3; [|done].
  destruct (check_password c) as [[]|] eqn:E4; [|done]. rewrite /check_uploads. case_match eqn:E5; [done|].
  intros E6. split.
  - by apply check_webtransport_Ok.
  - intros f. by apply check_frontdoor_Ok.
  - by apply check_dev_auth_Ok.
  - intros p. by apply check_password_Ok.
  - to_prop. lia.
  - intros root Hr. rewrite Hr in E6. destruct (is_absolute root); [|done]. split; [done|]. intros Hp.
    rewrite Hp /= in E6. case_bool_decide; [done|]. by destruct (spawner_socket (dc_session c)); [eexists|].
Qed.

Section start.
Context {V : VtOps} {P : PtyOps} {HO : HashOps} {K : GrantCrypto} {Q : SshCrypto}.

(** The state [start] builds, read off its result. *)
Record started (env : StartEnv) (c : DaemonConfig) (d : Daemon) : Prop := {
  sd_checked : check_config c = Ok ();
  sd_mode : auth_mode (dc_auth c) = Ok (as_mode (d_auth d));
  sd_password : as_password (d_auth d) = dc_password_auth c;
  sd_signer : as_grant_signer (d_auth d) = signer_from_bytes (default (se_random_key env) (dc_grant_signing_key c));
  sd_verifier : as_grant_verifier (d_auth d) = signer_verifier (as_grant_signer (d_auth d));
  sd_audience : as_audience (d_auth d) = display SERVER_PREFIX (d_server_id d);
  sd_server_id : match dc_server_id c, dc_grant_signing_key c with
                 | Some id, _ => d_server_id d = id
                 | None, Some seed => derive_server_id seed = Some (d_server_id d)
                 | None, None => d_server_id d = se_random_id env
                 end;
  sd_wt : transpose (dc_webtransport_bind c) (λ bind, wt_bind env bind (dc_webtransport_certificate c)
            (dc_webtransport_private_key c) (dc_web_root c)) = Ok (d_webtransport d);
  sd_frontdoor : transpose (dc_h3_frontdoor c) (λ f, let? g := frontdoor_bind env f in Ok (f, g)) = Ok (d_frontdoor d);
  sd_uploads : open_uploads env c = Some (Ok (d_uploads d));
  sd_manager : d_manager d = build_shell_manager (dc_session c) (dc_account_policy c);
  sd_websocket : d_enable_websocket d = dc_enable_websocket c;
}.

Lemma start_Ok env c d : start env c = Some (Ok d) → started env c d.
Proof.
  rewrite /start. destruct (check_config c) as [[]|] eqn:Ec; [|done].
  destruct (match dc_server_id c with Some id => _ | None => _ end) as [id|] eqn:Ei; simpl; [|done].
  destruct (auth_mode (dc_auth c)) as [mode|] eqn:Em; simpl; [|done].
  destruct (transpose (dc_webtransport_bind c) _) as [wt|] eqn:Ew; simpl; [|done].
  destruct (transpose (dc_h3_frontdoor c) _) as [fd|] eqn:Ef; simpl; [|done].
  destruct (open_uploads env c) as [[up|]|] eqn:Eu; simpl; try done.
  destruct (ok_or _ _); simpl; [|done]. destruct (se_listen _ _); simpl; [|done]. intros [= <-].
  split; try done. cbn [d_server_id]. by destruct (dc_server_id c), (dc_grant_signing_key c); try injection Ei as <-.
Qed.

(** [start] never panics. *)
Lemma start_total env c : is_Some (start env c).
Proof.
  rewrite /start. destruct (check_config c) as [[]|] eqn:Ec; [|by eexists]. apply check_config_Ok in Ec.
  destruct (match dc_server_id c with Some id => _ | None => _ end) as [id|] eqn:Ei; last first.
  { destruct (dc_server_id c); [done|]. destruct (dc_grant_signing_key c); [|done].
    apply array_of_None in Ei. by rewrite length_take array_bytes_length in Ei. }
  simpl. destruct (auth_mode (dc_auth c)); simpl; [|by eexists].
  destruct (transpose (dc_webtransport_bind c) _); simpl; [|by eexists].
  destruct (transpose (dc_h3_frontdoor c) _); simpl; [|by eexists].
  assert (is_Some (open_uploads env c)) as [u ->]; [|by eexists].
  rewrite /open_uploads. destruct (dc_upload_root c) as [root|] eqn:Er; [|by eexists].
  destruct (ck_root _ Ec _ Er) as [_ Hp]. destruct (privilege_drop (dc_session c)); [|by eexists].
  destruct Hp as [s ->]; [done|]. by eexists.
Qed.

Lemma wt_bind_mode env bind cert key root l :
  is_Some cert → wt_bind env bind cert key root = Ok l → wl_certificate_mode l = WebPki.
Proof.
  intros [x ->]. rewrite /wt_bind. destruct key; [|done]. destruct (load_configured_tls _ _ _); simpl; [|done].
  destruct (se_endpoint _ _); simpl; [|done]. by intros [= <-].
Qed.

Lemma dev_mode c : auth_mode c = Ok DevInsecure → c = CfgDevInsecure.
Proof. destruct c as [|users]; [done|]. simpl. by destruct (ssh_users _ _). Qed.

(** The account policy of a multi-user daemon names every account it uses. *)
Definition accounts_listed (m : ShellManager) : Prop :=
  ∃ allowed, policy m = StaticPolicy allowed ∧
    ∀ user requested account, resolve (policy m) user requested = Ok account →
      ∃ a listed, account = Some a ∧ a ≠ [] ∧ allowed !! user = Some listed ∧ a ∈ listed.

Lemma static_accounts session allowed :
  map_Forall (λ _ l, l ≠ [] ∧ Forall (λ a, a ≠ []) l) allowed →
  accounts_listed (build_shell_manager session (Some allowed)).
Proof.
  intros Ha. exists allowed. split; [done|]. intros user requested account. cbn.
  destruct (allowed !! user) as [l|] eqn:El; [|done]. cbn. destruct (Ha _ _ El) as [Hn Hf].
  rewrite Forall_forall in Hf. destruct (non_empty requested) as [r|].
  - case_bool_decide as Hr; [|done]. intros [= <-]. exists r, l. split_and!; [done|by apply Hf|done|done].
  - destruct l as [|a l]; [done|]. intros [= <-]. exists a, (a :: l).
    split_and!; [done|apply Hf; by left|done|by left].
Qed.
End start.

(** ** After the loop *)

(** What the checks of [main] leave as the loop left it. *)
Record same_core (c c' : Cli) : Prop := {
  sm_session : dc_session (cl_config c') = dc_session (cl_config c);
  sm_policy : dc_account_policy (cl_config c') = dc_account_policy (cl_config c);
  sm_websocket : dc_enable_websocket (cl_config c') = dc_enable_websocket (cl_config c);
  sm_key : dc_grant_signing_key (cl_config c') = dc_grant_signing_key (cl_config c);
  sm_id : dc_server_id (cl_config c') = dc_server_id (cl_config c);
  sm_retention : dc_upload_retention (cl_config c') = dc_upload_retention (cl_config c);
  sm_files : cl_files c' = cl_files c;
  sm_agent : cl_agent c' = cl_agent c;
}.
Lemma same_core_trans c1 c2 c3 : same_core c1 c2 → same_core c2 c3 → same_core c1 c3.
Proof. intros [] []. split; congruence. Qed.

Lemma take_frontdoor_Ok c c' : take_frontdoor c = Ok c' →
  same_core c c' ∧ (dc_h3_frontdoor (cl_config c') = dc_h3_frontdoor (cl_config c) ∨
    ∃ f, dc_h3_frontdoor (cl_config c') = Some f ∧ maximum_sessions f = 256 ∧ maximum_streams_per_session f = 64).
Proof.
  rewrite /take_frontdoor. case_match; [intros [= <-]; split; [done|by left]|]. case_match; [done|].
  destruct (ok_or (cl_frontdoor_socket c) _); [|done]. destruct (ok_or (cl_frontdoor_uid c) _); [|done].
  destruct (ok_or (cl_frontdoor_hostname c) _); [|done]. destruct (ok_or (cl_frontdoor_port c) _); [|done].
  intros [= <-]. split; [done|]. right. by eexists.
Qed.

Lemma stable_port_core c : same_core c (stable_port c) ∧
  dc_h3_frontdoor (cl_config (stable_port c)) = dc_h3_frontdoor (cl_config c).
Proof. rewrite /stable_port. by case_bool_decide. Qed.

Lemma take_password_Ok c c' : take_password c = Some (Ok c') →
  same_core c c' ∧ dc_h3_frontdoor (cl_config c') = dc_h3_frontdoor (cl_config c).
Proof.
  rewrite /take_password. case_bool_decide; [by intros [= <-]|].
  destruct (pam_verifier_new _) as [[v|]|]; simpl; try done. intros [= <-].
  split; [split|]; cbn; by destruct (dc_auth (cl_config c)).
Qed.

Lemma check_cli_Ok c c' : check_cli c = Some (Ok c') →
  same_core c c' ∧
  (is_Some (spawner_socket (dc_session (cl_config c'))) → privilege_drop (dc_session (cl_config c')) = true) ∧
  (privilege_drop (dc_session (cl_config c')) = true → is_Some (dc_account_policy (cl_config c'))) ∧
  (dc_h3_frontdoor (cl_config c) = None → ∀ f, dc_h3_frontdoor (cl_config c') = Some f →
     maximum_sessions f = 256 ∧ maximum_streams_per_session f = 64).
Proof.
  rewrite /check_cli. destruct (take_frontdoor c) as [c1|] eqn:E1; [|done]. apply take_frontdoor_Ok in E1 as [S1 F1].
  destruct (stable_port_core c1) as [S2 F2]. case_match; [done|]. case_match eqn:Es; [done|].
  destruct (take_password (stable_port c1)) as [[c3|]|] eqn:E3; simpl; try done. apply take_password_Ok in E3 as [S3 F3].
  intros Hc. assert (c3 = c') as ->.
  { rewrite /text_error in Hc. by destruct (privilege_drop (dc_session (cl_config c3))), (dc_account_policy (cl_config c3)); simplify_eq. }
  split_and!.
  - by eapply same_core_trans, same_core_trans.
  - rewrite (sm_session _ _ S3). intros Hs. destruct (privilege_drop _); [done|]. by rewrite bool_decide_eq_true_2 in Es.
  - intros Hp. rewrite Hp in Hc. by destruct (dc_account_policy (cl_config c')).
  - intros Hn f Hf. rewrite F3 F2 in Hf. destruct F1 as [F1|(x & F1 & ?)]; rewrite F1 in Hf; [congruence|].
    by injection Hf as <-.
Qed.

Section main.
Context {V : VtOps} {P : PtyOps} {HO : HashOps} {K : GrantCrypto} {Q : SshCrypto}.
Variables (agent_mode : bool) (version : str) (env : MainEnv).

(** A daemon that may serve: [c] is the configuration it was started with. *)
Record secure (c : DaemonConfig) (d : Daemon) : Prop := {
  sec_dev : as_mode (d_auth d) = DevInsecure →
    loopback (dc_bind c) = true ∧ (∀ a, dc_webtransport_bind c = Some a → loopback a = true) ∧
    d_frontdoor d = None ∧ as_password (d_auth d) = None;
  sec_tls a : dc_webtransport_bind c = Some a → loopback a = false →
    ∃ l, d_webtransport d = Some l ∧ wl_certificate_mode l = WebPki;
  sec_frontdoor f g : d_frontdoor d = Some (f, g) →
    d_webtransport d = None ∧ config_validate f = Ok () ∧
    maximum_sessions f = 256 ∧ maximum_streams_per_session f = 64;
  sec_password p : as_password (d_auth d) = Some p →
    pa_users p ≠ ∅ ∧ ∀ u, u ∈ pa_users p → 0 < str_len u ≤ 128;
  sec_accounts : privilege_drop (config (d_manager d)) = true → accounts_listed (d_manager d);
  sec_spawner : is_Some (spawner_socket (config (d_manager d))) → privilege_drop (config (d_manager d)) = true;
  sec_uploads u : d_uploads d = Some u →
    match u with
    | SameUid s => privilege_drop (config (d_manager d)) = false ∧ is_absolute (cfg_root s) = true ∧
        max_file_bytes s ≤ UPLOAD_FILE_BYTES_HARD_MAX
    | SpawnerUploads socket n => privilege_drop (config (d_manager d)) = true ∧
        spawner_socket (config (d_manager d)) = Some socket ∧ n ≤ UPLOAD_FILE_BYTES_HARD_MAX
    end;
  sec_limits : let l := shell_resource_limits (config (d_manager d)) in 0 < max_processes l ∧ 0 < max_open_files l;
  sec_routes method path : tcp_route d method path ≠ TerminalWs ∧
    (quic_first d = true → ∀ root, tcp_route d method path ≠ ServeDir root);
}.

Lemma config_build session p : config (build_shell_manager session p) = session.
Proof. by destruct p. Qed.

Lemma uploads_choice senv c u :
  checked c → open_uploads senv c = Some (Ok (Some u)) →
  match u with
  | SameUid s => privilege_drop (dc_session c) = false ∧ is_absolute (cfg_root s) = true ∧
      max_file_bytes s ≤ UPLOAD_FILE_BYTES_HARD_MAX
  | SpawnerUploads socket n => privilege_drop (dc_session c) = true ∧
      spawner_socket (dc_session c) = Some socket ∧ n ≤ UPLOAD_FILE_BYTES_HARD_MAX
  end.
Proof.
  intros Hc. rewrite /open_uploads. destruct (dc_upload_root c) as [root|] eqn:Er; [|done].
  destruct (privilege_drop (dc_session c)); [destruct (spawner_socket (dc_session c)) as [s|]; simpl; [|done]|].
  - intros [= <-]. split_and!; [done|done|apply Hc].
  - destruct (se_create_dir_all _ _); [|done]. destruct (se_metadata _ _); [|done]. case_match; [done|].
    destruct (se_chmod _ _ _); [|done]. rewrite /store_open. destruct (is_absolute root) eqn:Ea; [|done].
    destruct (se_open_dir _ _); [|done]. intros [= <-]. split_and!; [done|done|apply Hc].
Qed.

Lemma start_secure senv c d :
  loop_ok (set_h3_frontdoor None (set_password_auth None c)) →
  (is_Some (spawner_socket (dc_session c)) → privilege_drop (dc_session c) = true) →
  (privilege_drop (dc_session c) = true → is_Some (dc_account_policy c)) →
  (∀ f, dc_h3_frontdoor c = Some f → maximum_sessions f = 256 ∧ maximum_streams_per_session f = 64) →
  start senv c = Some (Ok d) → secure c d.
Proof.
  intros Hl Hs Hp Hf Hd%start_Ok. destruct Hd. pose proof (check_config_Ok _ sd_checked0) as Hc.
  assert (d_frontdoor d = None ∧ dc_h3_frontdoor c = None ∨
          ∃ f g, d_frontdoor d = Some (f, g) ∧ dc_h3_frontdoor c = Some f) as Hfd.
  { rewrite /transpose in sd_frontdoor0. destruct (dc_h3_frontdoor c) as [f|]; [|left; by injection sd_frontdoor0 as <-].
    destruct (frontdoor_bind senv f) as [g|]; [|done]. injection sd_frontdoor0 as <-. right. by exists f, g. }
  split; rewrite ?sd_manager0 ?config_build ?sd_password0 ?sd_websocket0.
  - intros Hm. rewrite Hm in sd_mode0. apply dev_mode in sd_mode0.
    destruct (ck_dev _ Hc sd_mode0) as (? & ? & Hn & ?). split_and!; try done.
    destruct Hfd as [[? _]|(f & g & _ & ?)]; congruence.
  - intros a Ha Hlo. destruct (ck_wt _ Hc _ Ha Hlo) as [Hcert _]. rewrite Ha /= in sd_wt0.
    destruct (wt_bind _ _ _ _ _) as [l|] eqn:El; [|done]. injection sd_wt0 as <-. exists l. split; [done|].
    by eapply wt_bind_mode.
  - intros f g Hx. destruct Hfd as [[? _]|(f' & g' & Hy & Hz)]; [congruence|]. rewrite Hx in Hy. injection Hy as <- <-.
    destruct (ck_frontdoor _ Hc _ Hz) as [? Hw]. rewrite Hw /= in sd_wt0. injection sd_wt0 as <-.
    split_and!; [done|done|by apply Hf..].
  - apply (ck_password _ Hc).
  - intros Hx. destruct (Hp Hx) as [m Hm]. rewrite Hm. apply static_accounts. by apply (lo_accounts _ Hl).
  - done.
  - intros u Hu. rewrite Hu in sd_uploads0. by eapply uploads_choice.
  - split; [apply (lo_processes _ Hl)|apply (lo_files _ Hl)].
  - intros method path. pose proof (lo_websocket _ Hl) as Hw. cbn in Hw. rewrite /tcp_route sd_websocket0 Hw /=.
    split; [|intros ->]; by repeat case_match.
Qed.

(** The files [main] leaves contain the ones it found. *)
Lemma main_Ok fs keys args r c :
  main agent_mode version env fs keys args = Some (Ok (r, c)) →
  ∃ c0, arg_loop agent_mode (me_read_to_string env) args (cli_default fs keys) = Some (Ok c0) ∧ check_cli c0 = Some (Ok c) ∧
    loop_ok (cl_config c0) ∧
    (if ag_enabled (cl_agent c) then run_agent version env c = Some (Ok r)
     else ∃ d, r = Standalone d ∧ start (me_start env) (cl_config c) = Some (Ok d)).
Proof.
  rewrite /main. destruct (arg_loop _ _ _ _) as [[c0|]|] eqn:El; simpl; try done.
  destruct (check_cli c0) as [[c1|]|] eqn:Ec; simpl; try done. intros Hr.
  exists c0. split; [done|]. pose proof (arg_loop_ok _ _ _ _ _ El loop_default) as Hok.
  destruct (ag_enabled (cl_agent c1)) eqn:Ea.
  - destruct (run_agent _ _ _) as [[r1|]|] eqn:Er; simpl in Hr; try done. injection Hr as <- <-. by rewrite Ea.
  - destruct (start _ _) as [[d|]|] eqn:Es; simpl in Hr; try done. injection Hr as <- <-. rewrite Ea.
    split_and!; try done. by exists d.
Qed.

Lemma run_agent_Ok c r :
  run_agent version env c = Some (Ok r) →
  ∃ d id gw m, r = AgentLinked id gw d ∧ dc_account_policy (cl_config c) = Some m ∧
    ad_manager d = build_shell_manager (dc_session (cl_config c)) (dc_account_policy (cl_config c)) ∧
    0 < str_len (ad_grant_audience d) ≤ AGENT_AUDIENCE_BYTES_MAX.
Proof.
  rewrite /run_agent. case_match eqn:E; [|done]. destruct a as [[[[gw name] id] key] aud]. clear E.
  destruct (load_grant_verifier _ _) as [[v|]|]; simpl; try done.
  destruct (map_err _ (registration_request_new _ _)); simpl; [|done].
  destruct (map_err _ (me_connector _ _ _ _)); simpl; [|done].
  destruct (agent_daemon_start _) as [d|] eqn:Ed; simpl; [|done]. intros [= <-].
  rewrite /agent_daemon_start /= in Ed. destruct (dc_account_policy (cl_config c)) as [m|] eqn:Em; [|done].
  rewrite /supervisor_new in Ed. destruct (_ || _) eqn:Ea in Ed; [done|]. to_prop.
  destruct (validate_policy _); simpl in Ed; [|done]. injection Ed as <-. cbn.
  eexists _, id, gw, m. split_and!; [done..| |cbn; lia]. apply str_len_pos. by destruct aud.
Qed.

(** C9: whatever the command line: a daemon that starts without real authentication
    listens on loopback addresses only, has no front door and no password login;
    WebTransport reachable from outside presents the operator's certificate; a
    front door is validated, bounded and the only QUIC endpoint; password login
    is limited to a non-empty allowlist of well-formed names; with privilege
    drop every shell runs under an account the operator listed for its user, and
    uploads are written by the spawner, never by the daemon; shells have resource
    limits; the legacy WebSocket endpoint is never served and, with a public
    certificate, nothing but the QUIC side serves the application. An agent
    always has an account policy with listed accounts, and a bounded audience. *)
Theorem holdfastd_secure fs keys args r c :
  main agent_mode version env fs keys args = Some (Ok (r, c)) →
  match r with
  | Standalone d => secure (cl_config c) d
  | AgentLinked _ _ d => accounts_listed (ad_manager d) ∧
      0 < str_len (ad_grant_audience d) ≤ AGENT_AUDIENCE_BYTES_MAX ∧
      (privilege_drop (config (ad_manager d)) = true ∨ spawner_socket (config (ad_manager d)) = None)
  end.
Proof.
  intros (c0 & _ & Hc & Hl & Hr)%main_Ok. apply check_cli_Ok in Hc as (Hs & Hsp & Hpr & Hfd).
  specialize (Hfd (lo_frontdoor _ Hl)).
  assert (loop_ok (set_h3_frontdoor None (set_password_auth None (cl_config c)))) as Hl'.
  { destruct Hl, Hs. split; cbn; rewrite ?sm_session0 ?sm_policy0 ?sm_websocket0 ?sm_retention0; done. }
  destruct (ag_enabled (cl_agent c)); [|destruct Hr as (d & -> & Hd); by apply (start_secure (me_start env))].
  destruct (run_agent_Ok _ _ Hr) as (d & id & gw & m & -> & Hm & Hmgr & Ha). rewrite Hmgr config_build. split_and!.
  - rewrite Hm. apply static_accounts. by apply (lo_accounts _ Hl').
  - apply Ha.
  - apply Ha.
  - destruct (spawner_socket _) eqn:E; [left; apply Hsp; by eexists|by right].
Qed.
End main.

(** C28: a daemon that keeps its grant key keeps its clients: run again with the same
    arguments, over the files the first run left and with whatever random values
    and addresses the system now gives, it has the same identity, and a grant the
    first run issued is accepted by the second until it expires. *)
Theorem grants_survive_restart {K : GrantCrypto} {KL : GrantCryptoLaws K} {V : VtOps} {P : PtyOps} {HO : HashOps} {Q : SshCrypto}
    agent_mode version env env' fs keys keys' args d c d' c' seed :
  main agent_mode version env fs keys args = Some (Ok (Standalone d, c)) →
  dc_grant_signing_key (cl_config c) = Some seed →
  me_read_to_string env' = me_read_to_string env →
  main agent_mode version env' (cl_files c) keys' args = Some (Ok (Standalone d', c')) →
  d_server_id d' = d_server_id d ∧ cl_files c' = cl_files c ∧
  ∀ claims now, aud claims = as_audience (d_auth d) → now < exp_ms claims →
    iat_ms claims ≤ sat_i64 (now + CLOCK_SKEW_MS) →
    verify (as_grant_verifier (d_auth d')) (issue (as_grant_signer (d_auth d)) claims)
      (as_audience (d_auth d')) now = Ok claims.
Proof.
  intros (c0 & Hl & Hc & _ & Hr)%main_Ok Hk Hread (c0' & Hl' & Hc' & _ & Hr')%main_Ok. rewrite Hread in Hl'.
  apply check_cli_Ok in Hc as (Hs & _). apply check_cli_Ok in Hc' as (Hs' & _).
  assert (∃ ks, c0' = with_files (cl_files c) ks c0) as [ks ->].
  { apply (arg_loop_again _ _ _ _ _ Hl (cl_files c) keys'); [by rewrite (sm_files _ _ Hs)|done]. }
  destruct Hs, Hs'. cbn in *.
  assert (∃ d0, Standalone d = Standalone d0 ∧ start (me_start env) (cl_config c) = Some (Ok d0)) as (d0 & [= <-] & Hd%start_Ok).
  { destruct (ag_enabled (cl_agent c)); [|exact Hr]. by apply run_agent_Ok in Hr as (? & ? & ? & ? & ? & _). }
  assert (∃ d0, Standalone d' = Standalone d0 ∧ start (me_start env') (cl_config c') = Some (Ok d0)) as (d0 & [= <-] & Hd'%start_Ok).
  { destruct (ag_enabled (cl_agent c')); [|exact Hr']. by apply run_agent_Ok in Hr' as (? & ? & ? & ? & ? & _). }
  assert (dc_grant_signing_key (cl_config c') = Some seed) as Hk' by congruence.
  destruct Hd as [_ _ _ Es Ev Ea Ei _ _ _ _ _], Hd' as [_ _ _ Es' Ev' Ea' Ei' _ _ _ _ _].
  assert (d_server_id d' = d_server_id d) as Hid.
  { rewrite Hk in Ei. rewrite Hk' in Ei'. rewrite sm_id0 in Ei. rewrite sm_id1 in Ei'.
    destruct (dc_server_id (cl_config c0)); [congruence|]. by rewrite Ei in Ei'; injection Ei'. }
  split_and!; [done|done|]. intros claims now Haud Hexp Hiat.
  rewrite Ev' Ea' Hid -Ea Es' Hk'. rewrite Es Hk /=. by apply issue_verifies.
Qed.

(** ** The idle reaper *)
Section reaper.
Context {V : VtOps} {P : PtyOps} {HO : HashOps}.

(** [as_millis() as i64] wraps: a time to live so long that its milliseconds have
    the sign bit set expires every detached shell at the next scan. *)
Lemma idle_ttl_wraps seconds now (e : ShellEntry) :
  i64_max < wrap64 (seconds * 1000) → 0 ≤ now ≤ i64_max →
  state (runtime e) = SessionCore.Running → attachments (runtime e) = ∅ → idle_anchor_ms e ≤ now →
  expired (reap_cutoff now (seconds * 1000)) e = true.
Proof.
  intros Hw Hn Hs Ha Hi. rewrite /expired Hs Ha !bool_decide_eq_true_2 //=. apply Z.leb_le.
  rewrite /reap_cutoff /as_i64. case_match; to_prop; [lia|]. pose proof (wrap64_range (seconds * 1000)).
  rewrite /sat_i64 /u64_max in H0 |- *. lia.
Qed.

(** The time to live runs from the last attach, not from the detach: a shell
    attached for longer than it is expired as soon as its last attachment goes. *)
Lemma ttl_counts_attached_time cutoff (e : ShellEntry) aid ch :
  state (runtime e) = SessionCore.Running → attachments (runtime e) = {[aid := ch]} → idle_anchor_ms e ≤ cutoff →
  expired cutoff (set_runtime e (drop_sender (runtime e) aid)) = true.
Proof.
  intros Hs Ha Hi. rewrite /drop_sender Ha lookup_singleton_eq /expired /= Hs delete_singleton_eq /=.
  apply Z.leb_le, Hi.
Qed.
End reaper.
