(* ===== verification/SshAdapter.v ===== *)
(** * The SSH compatibility adapter

    [crates/ssh-adapter/src/lib.rs] and [main.rs]: its options and key files, the
    callbacks of one SSH connection, and the task that bridges its one terminal
    channel to a remote shell. The SSH transport (russh) calls the callbacks, and
    those about channels only on a connection one of the authentication
    callbacks accepted; the remote shell is reached through [ClientApi]. *)
From S2P Require Import Prelude Protocol Utf8 Conn Framing UploadProto Auth Pam ClientApi Forward Socks Transport Startup.

(** ** Configuration *)
Definition DEFAULT_LISTEN : str := lit "127.0.0.1:2222".
Definition DEFAULT_MAX_CONNECTIONS : Z := 16.
Definition MAX_CONNECTIONS : Z := 256.
Definition MAX_AUTHORIZED_KEYS_BYTES : Z := 256 * 1024.
Definition MAX_HOST_KEY_BYTES : Z := 64 * 1024.
Definition SSH_PACKET_BYTES : Z := 32 * 1024.
Definition SSH_WINDOW_BYTES : Z := 512 * 1024.
Definition SSH_CHANNEL_MESSAGES : Z := 16.
Definition SSH_EVENT_MESSAGES : Z := 16.
Definition INPUT_MESSAGES : Z := 64.
Definition MAX_TERMINAL_DIMENSION : Z := 4096.
Definition MAX_TERM_BYTES : Z := 64.
Definition MAX_LOCAL_USER_BYTES : Z := 128.
Definition AUTH_REJECTION_DELAY_MS : Z := 1000.

Section adapter.
Context {Q : SshCrypto}.

Definition pam_error_text (e : PamError) : str :=
  lit "PAM service name must be 1..=" ++ dec_str MAX_PAM_SERVICE_BYTES ++
  lit " bytes of ASCII letters, digits, '-', '_' or non-leading '.'".

(** A password verifier; [None] is a panic of the blocking task. *)
Notation PasswordVerifier := (str → str → option bool) (only parsing).

Record AdapterConfig := {
  listen : SocketAddr;
  remote_url : str;
  remote_auth : AuthMethod;
  local_user : str;
  authorized_keys : SshVerifier;
  password_auth : option PasswordVerifier;
  host_key : bytes;
  max_connections : Z;
}.

Definition adapter_validate (c : AdapterConfig) : result unit str :=
  if negb (loopback (listen c)) then Err (lit "SSH compatibility listener must use a loopback address")
  else if (2048 <? str_len (remote_url c)) || negb (starts_with (lit "http://") (remote_url c))
  then Err (lit "remote URL must be a bounded http:// URL")
  else if is_empty (local_user c) || (MAX_LOCAL_USER_BYTES <? str_len (local_user c))
  then Err (lit "local username must be 1..=" ++ dec_str MAX_LOCAL_USER_BYTES ++ lit " bytes")
  else if (max_connections c =? 0) || (MAX_CONNECTIONS <? max_connections c)
  then Err (lit "max connections must be 1..=" ++ dec_str MAX_CONNECTIONS)
  else Ok ().

(** ** Key files *)
Record AdapterEnv := {
  ae_open : str → result OpenedFile str;
  ae_parse_key : bytes → option bool;
  ae_bind : SocketAddr → result SocketAddr str;
}.

Definition open_bounded (env : AdapterEnv) (path : str) (maximum : Z) (kind : str) : result OpenedFile str :=
  let? f := map_err (λ _, lit "open " ++ kind ++ lit " " ++ path) (ae_open env path) in
  if maximum <? of_len f then Err (kind ++ lit " exceeds " ++ dec_str maximum ++ lit " bytes") else Ok f.

Definition read_opened_bounded (f : OpenedFile) (path : str) (maximum : Z) (kind : str) : result bytes str :=
  let? all := map_err (λ _, lit "read " ++ kind ++ lit " " ++ path) (of_read f) in
  let bytes := take (Z.to_nat (maximum + 1)) all in
  if maximum <? len bytes then Err (kind ++ lit " exceeds " ++ dec_str maximum ++ lit " bytes") else Ok bytes.

Definition read_bounded (env : AdapterEnv) (path : str) (maximum : Z) (kind : str) : result bytes str :=
  let? f := open_bounded env path maximum kind in read_opened_bounded f path maximum kind.

Definition load_authorized_keys (env : AdapterEnv) (path : str) : result SshVerifier str :=
  let? bytes := read_bounded env path MAX_AUTHORIZED_KEYS_BYTES (lit "authorized_keys") in
  let? text := map_err (λ _, lit "authorized_keys is not UTF-8") (from_utf8 bytes) in
  map_err (λ _, lit "no usable unrestricted authorized key") (from_authorized_keys text).

(** The key is the text that parsed; [ae_parse_key] says whether it is encrypted. *)
Definition load_host_key (env : AdapterEnv) (path : str) : result bytes str :=
  let? f := open_bounded env path MAX_HOST_KEY_BYTES (lit "host key") in
  if loose (of_mode f) then Err (lit "host key " ++ path ++ lit " must not be accessible by group or others")
  else
    let? bytes := read_opened_bounded f path MAX_HOST_KEY_BYTES (lit "host key") in
    let? encrypted := ok_or (ae_parse_key env bytes) (lit "parse host key " ++ path) in
    if encrypted then Err (lit "encrypted SSH host keys are not supported") else Ok bytes.

(** [serve] and [serve_on] up to the accept loop: the address and what the SSH
    server is told. *)
Inductive MethodKind := PublicKeyMethod | PasswordMethod.

Record SshConfig := {
  methods : list MethodKind;
  auth_rejection_time_ms : Z;
  keys : list bytes;
  window_size : Z;
  maximum_packet_size : Z;
  channel_buffer_size : Z;
  event_buffer_size : Z;
  max_auth_attempts : Z;
  inactivity_timeout_s : option Z;
  keepalive_interval_s : option Z;
  keepalive_max : Z;
}.

Definition serve_on (local : SocketAddr) (c : AdapterConfig) : result SshConfig str :=
  let? _ := adapter_validate c in
  if negb (loopback local) then Err (lit "bound SSH compatibility listener is not loopback")
  else Ok {|
    methods := PublicKeyMethod :: match password_auth c with Some _ => [PasswordMethod] | None => [] end;
    auth_rejection_time_ms := AUTH_REJECTION_DELAY_MS; keys := [host_key c]; window_size := SSH_WINDOW_BYTES;
    maximum_packet_size := SSH_PACKET_BYTES; channel_buffer_size := SSH_CHANNEL_MESSAGES;
    event_buffer_size := SSH_EVENT_MESSAGES; max_auth_attempts := 3; inactivity_timeout_s := Some (60 * 60);
    keepalive_interval_s := Some 30; keepalive_max := 3 |}.

Definition serve (env : AdapterEnv) (c : AdapterConfig) : result (SocketAddr * SshConfig) str :=
  let? _ := adapter_validate c in
  let? local := map_err (λ _, lit "bind SSH adapter " ++ show_socket_addr (listen c)) (ae_bind env (listen c)) in
  let? ssh_config := serve_on local c in
  Ok (local, ssh_config).

(** A permit is taken before a connection is accepted; [live]: the connections
    served. *)
Definition accept (c : AdapterConfig) (live : Z) : option Z :=
  if live <? max_connections c then Some (live + 1) else None.

(** ** Options *)
Record Options := {
  op_listen : SocketAddr;
  op_url : str;
  op_local_user : option str;
  op_authorized_keys : option str;
  op_host_key : option str;
  op_remote_user : option str;
  op_remote_key : option str;
  op_dev_auth : bool;
  op_password_auth : bool;
  op_pam_service : option str;
  op_max_connections : Z;
}.
Definition opt_listen (x : SocketAddr) (o : Options) : Options := {|
  op_listen := x; op_url := op_url o; op_local_user := op_local_user o; op_authorized_keys := op_authorized_keys
  o; op_host_key := op_host_key o; op_remote_user := op_remote_user o; op_remote_key := op_remote_key o;
  op_dev_auth := op_dev_auth o; op_password_auth := op_password_auth o; op_pam_service := op_pam_service o;
  op_max_connections := op_max_connections o |}.
Definition opt_url (x : str) (o : Options) : Options := {|
  op_listen := op_listen o; op_url := x; op_local_user := op_local_user o; op_authorized_keys :=
  op_authorized_keys o; op_host_key := op_host_key o; op_remote_user := op_remote_user o; op_remote_key :=
  op_remote_key o; op_dev_auth := op_dev_auth o; op_password_auth := op_password_auth o; op_pam_service :=
  op_pam_service o; op_max_connections := op_max_connections o |}.
Definition opt_local_user (x : option str) (o : Options) : Options := {|
  op_listen := op_listen o; op_url := op_url o; op_local_user := x; op_authorized_keys := op_authorized_keys o;
  op_host_key := op_host_key o; op_remote_user := op_remote_user o; op_remote_key := op_remote_key o;
  op_dev_auth := op_dev_auth o; op_password_auth := op_password_auth o; op_pam_service := op_pam_service o;
  op_max_connections := op_max_connections o |}.
Definition opt_authorized_keys (x : option str) (o : Options) : Options := {|
  op_listen := op_listen o; op_url := op_url o; op_local_user := op_local_user o; op_authorized_keys := x;
  op_host_key := op_host_key o; op_remote_user := op_remote_user o; op_remote_key := op_remote_key o;
  op_dev_auth := op_dev_auth o; op_password_auth := op_password_auth o; op_pam_service := op_pam_service o;
  op_max_connections := op_max_connections o |}.
Definition opt_host_key (x : option str) (o : Options) : Options := {|
  op_listen := op_listen o; op_url := op_url o; op_local_user := op_local_user o; op_authorized_keys :=
  op_authorized_keys o; op_host_key := x; op_remote_user := op_remote_user o; op_remote_key := op_remote_key o;
  op_dev_auth := op_dev_auth o; op_password_auth := op_password_auth o; op_pam_service := op_pam_service o;
  op_max_connections := op_max_connections o |}.
Definition opt_remote_user (x : option str) (o : Options) : Options := {|
  op_listen := op_listen o; op_url := op_url o; op_local_user := op_local_user o; op_authorized_keys :=
  op_authorized_keys o; op_host_key := op_host_key o; op_remote_user := x; op_remote_key := op_remote_key o;
  op_dev_auth := op_dev_auth o; op_password_auth := op_password_auth o; op_pam_service := op_pam_service o;
  op_max_connections := op_max_connections o |}.
Definition opt_remote_key (x : option str) (o : Options) : Options := {|
  op_listen := op_listen o; op_url := op_url o; op_local_user := op_local_user o; op_authorized_keys :=
  op_authorized_keys o; op_host_key := op_host_key o; op_remote_user := op_remote_user o; op_remote_key := x;
  op_dev_auth := op_dev_auth o; op_password_auth := op_password_auth o; op_pam_service := op_pam_service o;
  op_max_connections := op_max_connections o |}.
Definition opt_dev_auth (x : bool) (o : Options) : Options := {|
  op_listen := op_listen o; op_url := op_url o; op_local_user := op_local_user o; op_authorized_keys :=
  op_authorized_keys o; op_host_key := op_host_key o; op_remote_user := op_remote_user o; op_remote_key :=
  op_remote_key o; op_dev_auth := x; op_password_auth := op_password_auth o; op_pam_service := op_pam_service o;
  op_max_connections := op_max_connections o |}.
Definition opt_password_auth (x : bool) (o : Options) : Options := {|
  op_listen := op_listen o; op_url := op_url o; op_local_user := op_local_user o; op_authorized_keys :=
  op_authorized_keys o; op_host_key := op_host_key o; op_remote_user := op_remote_user o; op_remote_key :=
  op_remote_key o; op_dev_auth := op_dev_auth o; op_password_auth := x; op_pam_service := op_pam_service o;
  op_max_connections := op_max_connections o |}.
Definition opt_pam_service (x : option str) (o : Options) : Options := {|
  op_listen := op_listen o; op_url := op_url o; op_local_user := op_local_user o; op_authorized_keys :=
  op_authorized_keys o; op_host_key := op_host_key o; op_remote_user := op_remote_user o; op_remote_key :=
  op_remote_key o; op_dev_auth := op_dev_auth o; op_password_auth := op_password_auth o; op_pam_service := x;
  op_max_connections := op_max_connections o |}.
Definition opt_max_connections (x : Z) (o : Options) : Options := {|
  op_listen := op_listen o; op_url := op_url o; op_local_user := op_local_user o; op_authorized_keys :=
  op_authorized_keys o; op_host_key := op_host_key o; op_remote_user := op_remote_user o; op_remote_key :=
  op_remote_key o; op_dev_auth := op_dev_auth o; op_password_auth := op_password_auth o; op_pam_service :=
  op_pam_service o; op_max_connections := x |}.

Definition usage : str := lit "hf-ssh-adapter --local-user USER --authorized-keys PATH --host-key PATH [--listen 127.0.0.1:2222] [--url http://127.0.0.1:8080] (--dev-auth | --remote-user USER --remote-key PATH) [--password-auth [--pam-service holdfast-ssh]] [--max-connections 16]".

(** [-h] prints the usage and ends the program. *)
Inductive Parsed := Help | Given (o : Options).

(** [value()?] and its uses. *)
Notation "'value!' v , rest := args 'of' flag ; k" :=
  (match args with [] => Err (flag ++ lit " needs a value") | v :: rest => k end)
  (at level 200, v name, rest name, args at level 100, flag at level 100, k at level 200, only parsing).

Fixpoint options_loop (args : list str) (o : Options) : result Parsed str :=
  match args with
  | [] => Ok (Given o)
  | flag :: args =>
      let named s := bool_decide (flag = lit s) in
      if named "--listen"%string then
        value! v, rest := args of flag;
        match parse_socket_addr v with
        | Some a => options_loop rest (opt_listen a o) | None => Err (lit "parse --listen") end
      else if named "--url"%string then value! v, rest := args of flag; options_loop rest (opt_url v o)
      else if named "--local-user"%string then value! v, rest := args of flag; options_loop rest (opt_local_user (Some v) o)
      else if named "--authorized-keys"%string then
        value! v, rest := args of flag; options_loop rest (opt_authorized_keys (Some v) o)
      else if named "--host-key"%string then value! v, rest := args of flag; options_loop rest (opt_host_key (Some v) o)
      else if named "--remote-user"%string then value! v, rest := args of flag; options_loop rest (opt_remote_user (Some v) o)
      else if named "--remote-key"%string then value! v, rest := args of flag; options_loop rest (opt_remote_key (Some v) o)
      else if named "--max-connections"%string then
        value! v, rest := args of flag;
        match parse_uint u64_max v with
        | Some n => options_loop rest (opt_max_connections n o) | None => Err (lit "parse --max-connections") end
      else if named "--dev-auth"%string then options_loop args (opt_dev_auth true o)
      else if named "--password-auth"%string then options_loop args (opt_password_auth true o)
      else if named "--pam-service"%string then value! v, rest := args of flag; options_loop rest (opt_pam_service (Some v) o)
      else if named "-h"%string || named "--help"%string then Ok Help
      else Err (lit "unknown option " ++ flag ++ 0xA :: usage)
  end.

Definition options_default : Options := {|
  op_listen := {| sa_ip := V4 [127; 0; 0; 1]; sa_port := 2222; sa_scope := 0 |};
  op_url := lit "http://127.0.0.1:8080"; op_local_user := None; op_authorized_keys := None; op_host_key := None;
  op_remote_user := None; op_remote_key := None; op_dev_auth := false; op_password_auth := false;
  op_pam_service := None; op_max_connections := DEFAULT_MAX_CONNECTIONS |}.

Definition remote_auth_of (o : Options) : result AuthMethod str :=
  match op_dev_auth o, op_remote_user o, op_remote_key o with
  | true, None, None => Ok MDev
  | false, Some username, Some private_key_path => Ok (MSshKey username private_key_path)
  | _, _, _ => Err (lit "choose exactly one remote auth mode: --dev-auth or both --remote-user and --remote-key")
  end.

Definition password_auth_of (verifier : PamVerifier → PasswordVerifier) (o : Options)
    : option (result (option PasswordVerifier) str) :=
  match op_password_auth o, op_pam_service o with
  | false, Some _ => Some (Err (lit "--pam-service requires --password-auth"))
  | false, None => Some (Ok None)
  | true, service =>
      r ← pam_verifier_new (default DEFAULT_PAM_SERVICE service);
      Some (let? v := map_err pam_error_text r in Ok (Some (verifier v)))
  end.

(** [parse_options] and [main] up to [serve]: [verifier] is how a PAM service
    checks a password. [Ok None] is the end after [-h]. *)
Definition adapter_main (env : AdapterEnv) (verifier : PamVerifier → PasswordVerifier) (args : list str)
    : option (result (option (AdapterConfig * SocketAddr * SshConfig)) str) :=
  match options_loop args options_default with
  | Err e => Some (Err e)
  | Ok Help => Some (Ok None)
  | Ok (Given o) =>
      match remote_auth_of o with
      | Err e => Some (Err e)
      | Ok remote_auth =>
          r ← password_auth_of verifier o;
          Some (
            let? password_auth := r in
            let? local_user := ok_or (op_local_user o) (lit "--local-user is required") in
            let? authorized_keys := ok_or (op_authorized_keys o) (lit "--authorized-keys is required") in
            let? host_key := ok_or (op_host_key o) (lit "--host-key is required") in
            let? authorized_keys := load_authorized_keys env authorized_keys in
            let? host_key := load_host_key env host_key in
            let c := {| listen := op_listen o; remote_url := op_url o; remote_auth := remote_auth;
                        local_user := local_user; authorized_keys := authorized_keys; password_auth := password_auth;
                        host_key := host_key; max_connections := op_max_connections o |} in
            let? _ := adapter_validate c in
            let? (local, ssh_config) := serve env c in
            Ok (Some (c, local, ssh_config)))
      end
  end.

(** ** The callbacks of one connection *)
Record TerminalSize := { ts_cols : Z; ts_rows : Z }.

Record Shared := {
  sh_remote_url : str;
  sh_remote_auth : AuthMethod;
  sh_local_user : str;
  sh_authorized_keys : SshVerifier;
  sh_password_auth : option PasswordVerifier;
}.

Definition shared_of (c : AdapterConfig) : Shared := {|
  sh_remote_url := remote_url c; sh_remote_auth := remote_auth c; sh_local_user := local_user c;
  sh_authorized_keys := authorized_keys c; sh_password_auth := password_auth c |}.

(** [cs_input], [cs_resize], [cs_cancel]: the handler holds that sender. *)
Record ChannelState := {
  cs_id : Z;
  cs_size : TerminalSize;
  cs_pty_accepted : bool;
  cs_shell_started : bool;
  cs_input : bool;
  cs_resize : bool;
  cs_cancel : bool;
}.

(** What was asked of the remote shell and told to the SSH client. *)
Inductive RemoteOp := RInput (data : bytes) | RResize (size : TerminalSize) | RPong (nonce : Z) | RTerminate.
Inductive SshOut := SData (data : bytes) | SExitStatus (status : Z) | SEof | SClose.

(** [bridge_shell] before its loop, in it, after it, and returned: whether the
    shell had exited. *)
Inductive BridgePhase := BSnapshot | BLoop | BUnclean | BEnded (clean : bool).

(** The task, with the input queue, the size it has not seen and the
    cancellation it has not seen. *)
Record Bridge := {
  bg_conn : ServerConn;
  bg_shell_id : bytes;
  bg_snapshot : bytes;
  bg_chan : Chan;
  bg_queue : list bytes;
  bg_size : option TerminalSize;
  bg_cancelled : bool;
  bg_phase : BridgePhase;
  bg_remote : list RemoteOp;
  bg_ssh : list SshOut;
}.

(** How the connection was authenticated. *)
Inductive Credential := ByKey (line : option str) | ByPassword (password : str).
Inductive Reply := Opened (id : Z) | Rejected (id : Z) | Success (id : Z) | Failure (id : Z) | Close (id : Z).

Record Adapter := {
  ad_channel : option ChannelState;
  ad_bridge : option Bridge;
  ad_user : option (str * Credential);
  ad_replies : list Reply;
  ad_dropped : bool;
}.
Definition adapter_new : Adapter := {|
  ad_channel := None; ad_bridge := None; ad_user := None; ad_replies := []; ad_dropped := false |}.

Definition set_channel (a : Adapter) (c : option ChannelState) : Adapter := {|
  ad_channel := c; ad_bridge := ad_bridge a; ad_user := ad_user a; ad_replies := ad_replies a;
  ad_dropped := ad_dropped a |}.
Definition set_bridge (a : Adapter) (b : Bridge) : Adapter := {|
  ad_channel := ad_channel a; ad_bridge := Some b; ad_user := ad_user a; ad_replies := ad_replies a;
  ad_dropped := ad_dropped a |}.
Definition reply (a : Adapter) (r : Reply) : Adapter := {|
  ad_channel := ad_channel a; ad_bridge := ad_bridge a; ad_user := ad_user a; ad_replies := ad_replies a ++ [r];
  ad_dropped := ad_dropped a |}.

(** [authorized]: [key] is the line [to_openssh] gives, if any. *)
Definition authorized (s : Shared) (user : str) (key : option str) : bool :=
  bool_decide (user = sh_local_user s) &&
  match key with
  | Some line => is_ok (is_authorized (sh_authorized_keys s) line)
  | None => false
  end.

Definition auth_password (s : Shared) (user password : str) : bool :=
  match sh_password_auth s with
  | Some verify =>
      bool_decide (user = sh_local_user s) && negb (is_empty password) &&
      (str_len password <=? MAX_PASSWORD_BYTES) && default false (verify user password)
  | None => false
  end.

(** The channel the call names, if it is the handler's. *)
Definition own_channel (a : Adapter) (id : Z) : option ChannelState :=
  c ← ad_channel a; if cs_id c =? id then Some c else None.

Definition channel_open_session (a : Adapter) (id : Z) : Adapter :=
  match ad_channel a with
  | Some _ => reply a (Rejected id)
  | None =>
      reply (set_channel a (Some {| cs_id := id; cs_size := {| ts_cols := 80; ts_rows := 24 |};
        cs_pty_accepted := false; cs_shell_started := false; cs_input := false; cs_resize := false;
        cs_cancel := false |})) (Opened id)
  end.

Definition pty_request (a : Adapter) (id : Z) (term : str) (cols rows : Z) : Adapter :=
  match own_channel a id with
  | None => reply a (Failure id)
  | Some c =>
      if cs_shell_started c || (MAX_TERM_BYTES <? str_len term) || (MAX_TERMINAL_DIMENSION <? cols) ||
         (MAX_TERMINAL_DIMENSION <? rows)
      then reply a (Failure id)
      else
        reply (set_channel a (Some {| cs_id := cs_id c;
          cs_size := {| ts_cols := if cols =? 0 then 80 else wrap16 cols;
                        ts_rows := if rows =? 0 then 24 else wrap16 rows |};
          cs_pty_accepted := true; cs_shell_started := cs_shell_started c; cs_input := cs_input c;
          cs_resize := cs_resize c; cs_cancel := cs_cancel c |})) (Success id)
  end.

Definition window_change_request (a : Adapter) (id : Z) (cols rows : Z) : Adapter :=
  let valid := (0 <? cols) && (0 <? rows) && (cols <=? MAX_TERMINAL_DIMENSION) && (rows <=? MAX_TERMINAL_DIMENSION) in
  match own_channel a id, valid with
  | Some c, true =>
      let size := {| ts_cols := wrap16 cols; ts_rows := wrap16 rows |} in
      let a := set_channel a (Some {| cs_id := cs_id c; cs_size := size; cs_pty_accepted := cs_pty_accepted c;
        cs_shell_started := cs_shell_started c; cs_input := cs_input c; cs_resize := cs_resize c;
        cs_cancel := cs_cancel c |}) in
      let a := match ad_bridge a with
               | Some b =>
                   if cs_resize c then set_bridge a {| bg_conn := bg_conn b; bg_shell_id := bg_shell_id b;
                     bg_snapshot := bg_snapshot b; bg_chan := bg_chan b; bg_queue := bg_queue b;
                     bg_size := Some size; bg_cancelled := bg_cancelled b; bg_phase := bg_phase b;
                     bg_remote := bg_remote b; bg_ssh := bg_ssh b |} else a
               | None => a
               end in
      reply a (Success id)
  | _, _ => reply a (Failure id)
  end.

(** The cancellation sent, when the sender is there. *)
Definition cancel_bridge (b : Bridge) : Bridge := {|
  bg_conn := bg_conn b; bg_shell_id := bg_shell_id b; bg_snapshot := bg_snapshot b; bg_chan := bg_chan b;
  bg_queue := bg_queue b; bg_size := bg_size b; bg_cancelled := true; bg_phase := bg_phase b;
  bg_remote := bg_remote b; bg_ssh := bg_ssh b |}.
Definition send_cancel (a : Adapter) (c : ChannelState) : Adapter :=
  match ad_bridge a with Some b => if cs_cancel c then set_bridge a (cancel_bridge b) else a | None => a end.

(** [channel_close]: [cancel_channel]. *)
Definition channel_close (a : Adapter) (id : Z) : Adapter :=
  match own_channel a id with
  | None => a
  | Some c =>
      set_channel (send_cancel a c) (Some {| cs_id := cs_id c; cs_size := cs_size c;
        cs_pty_accepted := cs_pty_accepted c; cs_shell_started := cs_shell_started c; cs_input := false;
        cs_resize := false; cs_cancel := false |})
  end.

(** [Drop] of the handler, after which nothing is called. *)
Definition handler_drop (a : Adapter) : Adapter :=
  let a := match ad_channel a with Some c => set_channel (send_cancel a c) None | None => a end in
  {| ad_channel := ad_channel a; ad_bridge := ad_bridge a; ad_user := ad_user a; ad_replies := ad_replies a;
     ad_dropped := true |}.

(** The receiving end of the input queue exists until the task returns. *)
Definition receiving (b : Bridge) : bool := match bg_phase b with BEnded _ => false | _ => true end.

(** [data]; [None] while the queue is full. *)
Definition data (a : Adapter) (id : Z) (bytes : bytes) : option Adapter :=
  match own_channel a id, ad_bridge a with
  | Some c, Some b =>
      if cs_shell_started c && cs_input c then
        if (SSH_PACKET_BYTES <? len bytes) || negb (receiving b) then Some (reply a (Close id))
        else if INPUT_MESSAGES <=? len (bg_queue b) then None
        else Some (set_bridge a {| bg_conn := bg_conn b; bg_shell_id := bg_shell_id b; bg_snapshot := bg_snapshot b;
               bg_chan := bg_chan b; bg_queue := bg_queue b ++ [bytes]; bg_size := bg_size b;
               bg_cancelled := bg_cancelled b; bg_phase := bg_phase b; bg_remote := bg_remote b; bg_ssh := bg_ssh b |})
      else Some (reply a (Close id))
  | _, _ => Some (reply a (Close id))
  end.

(** ** The remote shell *)
Section remote.
Context {PM : ProstMessage Envelope} {HO : HashOps}.

(** What the adapter finds when it opens a shell: the network, the stream of the
    attachment, a random key. *)
Record Remote := { rm_network : Network; rm_stream : result (list ReadEvent * list (option str)) str; rm_key : array 16 }.

(** An error comes with the connection as it was left. *)
Definition open_remote (s : Shared) (r : Remote) (size : TerminalSize)
    : option (result (ServerConn * bytes * AttachedShell) (option ServerConn)) :=
  connected ← connect_with (rm_network r) (sh_remote_url s) (sh_remote_auth s);
  match connected with
  | Err _ => Some (Err None)
  | Ok connection =>
      '(connection, opened) ← ServerConn.open_shell connection None (ts_cols size) (ts_rows size) (rm_key r);
      match opened with
      | Err _ => Some (Err (Some connection))
      | Ok (shell_id, token) =>
          attached ← attach_shell (rm_stream r) shell_id token (ts_cols size) (ts_rows size);
          match attached with
          | Ok attached => Some (Ok (connection, shell_id, attached))
          | Err _ =>
              '(connection, _) ← ServerConn.terminate connection shell_id;
              Some (Err (Some connection))
          end
      end
  end.

Definition shell_request (s : Shared) (a : Adapter) (id : Z) (remote : Remote) : option Adapter :=
  match own_channel a id with
  | None => Some (reply a (Failure id))
  | Some c =>
      if negb (cs_pty_accepted c) || cs_shell_started c then Some (reply a (Failure id))
      else
        let started live := Some {| cs_id := cs_id c; cs_size := cs_size c; cs_pty_accepted := cs_pty_accepted c;
          cs_shell_started := true; cs_input := live; cs_resize := live; cs_cancel := live |} in
        opened ← open_remote s remote (cs_size c);
        Some match opened with
             | Err _ => reply (set_channel a (started false)) (Failure id)
             | Ok (connection, shell_id, attached) =>
                 let a := set_channel a (started true) in
                 reply (set_bridge a {| bg_conn := connection; bg_shell_id := shell_id;
                   bg_snapshot := at_snapshot attached; bg_chan := at_chan attached; bg_queue := [];
                   bg_size := None; bg_cancelled := false; bg_phase := BSnapshot; bg_remote := []; bg_ssh := [] |})
                   (Success id)
             end
  end.

(** ** The bridge, one turn at a time *)
Definition put (b : Bridge) (chan : Chan) (queue : list bytes) (size : option TerminalSize) (p : BridgePhase)
    (remote : list RemoteOp) (ssh : list SshOut) : Bridge := {|
  bg_conn := bg_conn b; bg_shell_id := bg_shell_id b; bg_snapshot := bg_snapshot b; bg_chan := chan;
  bg_queue := queue; bg_size := size; bg_cancelled := bg_cancelled b; bg_phase := p;
  bg_remote := bg_remote b ++ remote; bg_ssh := bg_ssh b ++ ssh |}.

(** Before the loop: [ok] says whether the SSH client takes the snapshot; when it
    does not, the task waits for the termination without a limit. *)
Definition bridge_snapshot (b : Bridge) (ok : bool) : option Bridge :=
  match bg_phase b with
  | BSnapshot =>
      if is_empty (bg_snapshot b) then Some (put b (bg_chan b) (bg_queue b) (bg_size b) BLoop [] [])
      else if ok then Some (put b (bg_chan b) (bg_queue b) (bg_size b) BLoop [] [SData (bg_snapshot b)])
      else
        '(_, _) ← ServerConn.terminate (bg_conn b) (bg_shell_id b);
        Some (put b (bg_chan b) (bg_queue b) (bg_size b) (BEnded false) [RTerminate] [])
  | _ => None
  end.

(** The writer's half of the channel. *)
Definition write_to (b : Bridge) (op : RemoteOp) (w : Chan * result unit ClientErr) (queue : list bytes)
    (size : option TerminalSize) : Bridge :=
  match w with
  | (chan, Ok _) => put b chan queue size BLoop [op] []
  | (chan, Err _) => put b chan queue size BUnclean [] []
  end.

(** The first branches of the biased [select!]: cancellation, input, size. The
    flags say which senders the handler holds; [None] when none is ready. *)
Definition bridge_turn (c : option ChannelState) (b : Bridge) : option Bridge :=
  let held f := match c with Some c => f c | None => false end in
  match bg_phase b with
  | BLoop =>
      if bg_cancelled b || negb (held cs_cancel)
      then Some (put b (bg_chan b) (bg_queue b) (bg_size b) BUnclean [] [])
      else
        match bg_queue b with
        | bytes :: queue => Some (write_to b (RInput bytes) (input (bg_chan b) bytes) queue (bg_size b))
        | [] =>
            if negb (held cs_input) then Some (put b (bg_chan b) [] (bg_size b) BUnclean [] [])
            else
              match bg_size b with
              | Some size =>
                  Some (write_to b (RResize size) (resize (bg_chan b) (ts_cols size) (ts_rows size)) [] None)
              | None => if negb (held cs_resize) then Some (put b (bg_chan b) [] None BUnclean [] []) else None
              end
        end
  | _ => None
  end.

Definition exit_status (code : Z) : Z := if code <? 0 then 255 else code.

(** The last branch, when no other is ready: [ok] says whether the SSH client
    takes the output. *)
Definition bridge_event (c : option ChannelState) (b : Bridge) (ok : bool) : option Bridge :=
  match bg_phase b, bridge_turn c b with
  | BLoop, None =>
      '(chan, event) ← next_event (bg_chan b);
      Some match event with
           | Ok (EvOutput bytes) =>
               if ok then put b chan [] None BLoop [] [SData bytes] else put b chan [] None BUnclean [] []
           | Ok (EvExited code) => put b chan [] None (BEnded true) [] [SExitStatus (exit_status code); SEof; SClose]
           | Ok (EvPing nonce) => write_to b (RPong nonce) (pong chan nonce) [] None
           | Err _ => put b chan [] None BUnclean [] []
           end
  | _, _ => None
  end.

(** After the loop, with at most five seconds for the termination. *)
Definition bridge_finish (b : Bridge) : option Bridge :=
  match bg_phase b with
  | BUnclean => Some (put b (bg_chan b) (bg_queue b) (bg_size b) (BEnded false) [RTerminate]
                        [SExitStatus 255; SEof; SClose])
  | _ => None
  end.

(** ** Everything one connection does *)
Inductive AdapterLabel :=
  | LOffered (user : str) (key : option str)
  | LPublicKey (user : str) (key : option str)
  | LPassword (user password : str)
  | LOpen (id : Z)
  | LPty (id : Z) (term : str) (cols rows : Z)
  | LShell (id : Z) (remote : Remote)
  | LData (id : Z) (bytes : bytes)
  | LWindow (id cols rows : Z)
  | LClose (id : Z)
  | LEof (id : Z)
  | LRefused (id : Z)
  | LDrop
  | LSnapshot (ok : bool)
  | LTurn
  | LEvent (ok : bool)
  | LFinish.

Definition accepted (a : Adapter) (ok : bool) (user : str) (c : Credential) : Adapter :=
  if ok then {| ad_channel := ad_channel a; ad_bridge := ad_bridge a; ad_user := Some (user, c);
                ad_replies := ad_replies a; ad_dropped := ad_dropped a |}
  else a.

Definition on_bridge (a : Adapter) (f : Bridge → option Bridge) : option Adapter :=
  b ← ad_bridge a; set_bridge a <$> f b.

(** Channel callbacks need an accepted connection, authentication one that is
    not. *)
Definition logged_in (a : Adapter) (r : option Adapter) : option Adapter :=
  match ad_user a, ad_dropped a with Some _, false => r | _, _ => None end.
Definition logging_in (a a' : Adapter) : option Adapter :=
  match ad_user a, ad_dropped a with None, false => Some a' | _, _ => None end.

Definition adapter_step (s : Shared) (a : Adapter) (l : AdapterLabel) : option Adapter :=
  match l with
  | LOffered user key => logging_in a a
  | LPublicKey user key =>
      logging_in a (accepted a (authorized s user key) user (ByKey key))
  | LPassword user password =>
      logging_in a (accepted a (auth_password s user password) user (ByPassword password))
  | LOpen id => logged_in a (Some (channel_open_session a id))
  | LPty id term cols rows => logged_in a (Some (pty_request a id term cols rows))
  | LShell id remote => logged_in a (shell_request s a id remote)
  | LData id bytes => logged_in a (data a id bytes)
  | LWindow id cols rows => logged_in a (Some (window_change_request a id cols rows))
  | LClose id => logged_in a (Some (channel_close a id))
  | LEof _ => logged_in a (Some a)
  | LRefused id => logged_in a (Some (reply a (Failure id)))
  | LDrop => if ad_dropped a then None else Some (handler_drop a)
  | LSnapshot ok => on_bridge a (λ b, bridge_snapshot b ok)
  | LTurn => on_bridge a (bridge_turn (ad_channel a))
  | LEvent ok => on_bridge a (λ b, bridge_event (ad_channel a) b ok)
  | LFinish => on_bridge a bridge_finish
  end.
End remote.
End adapter.
