(* ===== verification/SshAdapterProps.v ===== *)
(** * What the SSH adapter guarantees *)
From S2P Require Import Prelude Protocol Utf8 Conn Framing UploadProto Auth Pam ClientApi Forward Socks Transport Startup HoldfastdProps SshAdapter.

Section adapter.
Context {Q : SshCrypto} {PM : ProstMessage Envelope} {HO : HashOps}.
Variable s : Shared.

(** ** Runs, with the input taken and the shells opened *)
Definition taken (l : AdapterLabel) (a a' : Adapter) : list bytes :=
  match l with
  | LData _ bytes => if (length (ad_replies a') =? length (ad_replies a))%nat then [bytes] else []
  | _ => []
  end.
Definition opened (l : AdapterLabel) (a a' : Adapter) : list TerminalSize :=
  match l, ad_channel a' with
  | LShell id _, Some c => match last (ad_replies a') with Some (Success _) => [cs_size c] | _ => [] end
  | _, _ => []
  end.

(** The numbers of a request are [u32]. *)
Definition label_wf (l : AdapterLabel) : Prop :=
  match l with LPty _ _ cols rows => 0 ≤ cols ≤ u32_max ∧ 0 ≤ rows ≤ u32_max | _ => True end.

Inductive adapter_run : Adapter → list bytes → list TerminalSize → Prop :=
  | run_new : adapter_run adapter_new [] []
  | run_step a ins shells l a' : adapter_run a ins shells → label_wf l → adapter_step s a l = Some a' →
      adapter_run a' (ins ++ taken l a a') (shells ++ opened l a a').

(** ** The invariant *)
Definition size_ok (z : TerminalSize) : Prop := 1 ≤ ts_cols z ≤ 4096 ∧ 1 ≤ ts_rows z ≤ 4096.
Definition credential_ok (user : str) (c : Credential) : Prop :=
  user = sh_local_user s ∧
  match c with
  | ByKey key => ∃ line, key = Some line ∧ is_ok (is_authorized (sh_authorized_keys s) line) = true
  | ByPassword p => ∃ verify, sh_password_auth s = Some verify ∧ 0 < str_len p ≤ 1024 ∧ verify user p = Some true
  end.

Definition inputs (ops : list RemoteOp) : list bytes := omap (λ o, match o with RInput d => Some d | _ => None end) ops.
Definition terminations (ops : list RemoteOp) : list unit := omap (λ o, match o with RTerminate => Some () | _ => None end) ops.
Definition sizes (ops : list RemoteOp) : list TerminalSize := omap (λ o, match o with RResize z => Some z | _ => None end) ops.
Definition closes (outs : list SshOut) : list unit := omap (λ o, match o with SClose => Some () | _ => None end) outs.

Definition running (b : Bridge) : bool := match bg_phase b with BSnapshot | BLoop => true | _ => false end.

Record bridge_ok (b : Bridge) (ins : list bytes) : Prop := {
  bo_inputs : ∃ rest, inputs (bg_remote b) ++ rest = ins ∧ (running b = true → rest = bg_queue b);
  bo_terminate : terminations (bg_remote b) = match bg_phase b with BEnded false => [tt] | _ => [] end;
  bo_close : match bg_phase b with
             | BEnded true => closes (bg_ssh b) = [tt]
             | BEnded false => (length (closes (bg_ssh b)) ≤ 1)%nat
             | _ => closes (bg_ssh b) = [] end;
  bo_sizes : Forall size_ok (sizes (bg_remote b) ++ option_list (bg_size b));
  bo_queue : len (bg_queue b) ≤ 64 ∧ Forall (λ x, len x ≤ 32768) (bg_queue b);
}.

Record adapter_ok (a : Adapter) (ins : list bytes) (shells : list TerminalSize) : Prop := {
  ao_out : ad_user a = None → ad_channel a = None ∧ ad_bridge a = None;
  ao_user u c : ad_user a = Some (u, c) → credential_ok u c;
  ao_size c : ad_channel a = Some c → size_ok (cs_size c);
  ao_none : ad_bridge a = None → ins = [] ∧ shells = [];
  ao_bridge b : ad_bridge a = Some b →
    bridge_ok b ins ∧ (∃ z, shells = [z] ∧ size_ok z) ∧
    (ad_channel a = None → ad_dropped a = true) ∧ ∀ c, ad_channel a = Some c → cs_shell_started c = true;
}.

(** ** The bridge keeps its part *)

(** A step of the loop: what it takes from the queue it writes, unless it ends
    the loop. *)
Lemma put_ok b ins chan queue size p remote ssh :
  bridge_ok b ins → running b = true →
  (∃ dropped, bg_queue b = inputs remote ++ dropped ++ queue ∧
     (match p with BSnapshot | BLoop => dropped = [] | _ => True end)) →
  Forall size_ok (sizes remote ++ option_list size) →
  terminations remote = match p with BEnded false => [tt] | _ => [] end →
  match p with
  | BEnded true => closes ssh = [tt]
  | BEnded false => (length (closes ssh) ≤ 1)%nat
  | _ => closes ssh = [] end →
  bridge_ok (put b chan queue size p remote ssh) ins.
Proof.
  intros [(rest & Hi & Hr) Ht Hc Hz [Hq Hl]] Hrun (dropped & Hd & Hp) Hs Hte Hcl. rewrite (Hr Hrun) Hd in Hi.
  assert (terminations (bg_remote b) = [] ∧ closes (bg_ssh b) = []) as [Ht0 Hc0].
  { rewrite /running in Hrun. by destruct (bg_phase b). }
  assert (len queue ≤ len (bg_queue b)) as Hlen by (rewrite Hd !len_app; pose proof (len_nonneg (inputs remote)); pose proof (len_nonneg dropped); lia).
  split; cbn.
  - exists (dropped ++ queue). rewrite /inputs omap_app -!app_assoc -Hi. split; [done|]. rewrite /running /=.
    destruct p; try done; by rewrite Hp.
  - by rewrite /terminations omap_app -/terminations -/(terminations (bg_remote b)) Ht0.
  - rewrite /closes omap_app -/(closes (bg_ssh b)) -/(closes ssh) Hc0. by destruct p as [| | |[]].
  - apply Forall_app in Hz as [Hz _]. rewrite /sizes omap_app -app_assoc. apply Forall_app. by split.
  - split; [lia|]. rewrite Hd in Hl. by rewrite !Forall_app in Hl; destruct Hl as (_ & _ & ?).
Qed.

Lemma write_to_ok b ins op w queue size :
  bridge_ok b ins → running b = true → op ≠ RTerminate →
  (bg_queue b = inputs [op] ++ queue) → Forall size_ok (sizes [op] ++ option_list size) →
  bridge_ok (write_to b op w queue size) ins.
Proof.
  intros Hb Hr Ho Hq Hs. rewrite /write_to. destruct w as [chan [|]]; apply put_ok; try done.
  - by exists [].
  - by destruct op.
  - exists (inputs [op]). by rewrite Hq.
  - by apply Forall_app in Hs as [_ ?].
Qed.

Lemma bridge_snapshot_ok b ok b' ins : bridge_ok b ins → bridge_snapshot b ok = Some b' → bridge_ok b' ins.
Proof.
  intros Hb. rewrite /bridge_snapshot. destruct (bg_phase b) eqn:Ep; try done.
  assert (running b = true) as Hr by by rewrite /running Ep.
  pose proof (proj2 (proj1 (Forall_app _ _ _) (bo_sizes _ _ Hb))) as Hz.
  destruct (is_empty (bg_snapshot b)); [intros [= <-]; apply put_ok; try done; by exists []|].
  destruct ok; [intros [= <-]; apply put_ok; try done; by exists []|].
  destruct (ServerConn.terminate _ _) as [[? ?]|]; [|done]. intros [= <-]. apply put_ok; try done; (by exists []) || (simpl; lia).
Qed.

Lemma bridge_turn_ok c b b' ins : bridge_ok b ins → bridge_turn c b = Some b' → bridge_ok b' ins.
Proof.
  intros Hb. rewrite /bridge_turn. destruct (bg_phase b) eqn:Ep; try done.
  assert (running b = true) as Hr by by rewrite /running Ep.
  pose proof (proj2 (proj1 (Forall_app _ _ _) (bo_sizes _ _ Hb))) as Hz.
  destruct (_ || _) in |- *; [intros [= <-]; apply put_ok; try done; by exists []|].
  destruct (bg_queue b) as [|x queue] eqn:Eq; [|by intros [= <-]; apply write_to_ok].
  destruct (negb _) in |- *; [intros [= <-]; apply put_ok; try done; by exists []|].
  destruct (bg_size b) as [z|] eqn:Ez.
  - intros [= <-]. by apply write_to_ok.
  - destruct (negb _) in |- *; [|done]. intros [= <-]. apply put_ok; try done. by exists [].
Qed.

(** Nothing is ready only while the loop waits with an empty queue. *)
Lemma bridge_turn_None c b : bg_phase b = BLoop → bridge_turn c b = None →
  bg_queue b = [] ∧ bg_size b = None ∧ bg_cancelled b = false ∧
  ∃ ch, c = Some ch ∧ cs_cancel ch = true ∧ cs_input ch = true ∧ cs_resize ch = true.
Proof.
  intros Hp. rewrite /bridge_turn Hp. destruct (bg_cancelled b); [done|]. simpl.
  destruct c as [ch|]; [|done]. destruct (cs_cancel ch) eqn:?; [|done]. simpl. destruct (bg_queue b); [|done].
  destruct (cs_input ch) eqn:?; [|done]. simpl. destruct (bg_size b); [done|].
  destruct (cs_resize ch) eqn:?; [|done]. intros _. split_and!; try done. by exists ch.
Qed.

Lemma bridge_event_ok c b ok b' ins : bridge_ok b ins → bridge_event c b ok = Some b' → bridge_ok b' ins.
Proof.
  intros Hb. rewrite /bridge_event. destruct (bg_phase b) eqn:Ep; try done.
  destruct (bridge_turn c b) eqn:Et; [done|]. destruct (bridge_turn_None _ _ Ep Et) as (Hq & _).
  assert (running b = true) as Hr by by rewrite /running Ep.
  destruct (next_event _) as [[chan event]|]; simpl; [|done].
  destruct event as [[bytes|code|nonce]|]; [destruct ok| | |]; intros [= <-].
  all: try (apply put_ok; try done; by exists []).
  by apply write_to_ok.
Qed.

Lemma bridge_finish_ok b b' ins : bridge_ok b ins → bridge_finish b = Some b' → bridge_ok b' ins.
Proof.
  intros [(rest & Hi & Hr) Ht Hc Hz Hq]. rewrite /bridge_finish. destruct (bg_phase b) eqn:Ep; try done. intros [= <-].
  split; cbn.
  - exists rest. rewrite /inputs omap_app app_nil_r. by split.
  - by rewrite /terminations omap_app -/(terminations (bg_remote b)) Ht.
  - by rewrite /closes omap_app -/(closes (bg_ssh b)) Hc.
  - by rewrite /sizes omap_app app_nil_r.
  - done.
Qed.

(** ** The handler keeps the invariant *)
Lemma own_channel_Some a id c : own_channel a id = Some c → ad_channel a = Some c.
Proof. rewrite /own_channel. destruct (ad_channel a) as [x|]; [|done]. simpl. case_match; [|done]. by intros [= ->]. Qed.

Lemma reply_ok a ins shells r : adapter_ok a ins shells → adapter_ok (reply a r) ins shells.
Proof. intros []. by split. Qed.

Lemma set_channel_ok a c c' ins shells :
  adapter_ok a ins shells → ad_channel a = Some c → size_ok (cs_size c') →
  cs_shell_started c' = cs_shell_started c → adapter_ok (set_channel a (Some c')) ins shells.
Proof.
  intros [Ho Hu Hs Hn Hb] Hc Hz Hst. split; cbn; try done.
  - intros Hx. destruct (Ho Hx) as [? ?]. congruence.
  - by intros ? [= <-].
  - intros b Hx. destruct (Hb b Hx) as (? & ? & ? & Hy). split_and!; try done. intros ? [= <-]. rewrite Hst. by apply Hy.
Qed.

Lemma set_bridge_ok a b b' ins ins' shells :
  adapter_ok a ins shells → ad_bridge a = Some b → bridge_ok b' ins' → adapter_ok (set_bridge a b') ins' shells.
Proof.
  intros [Ho Hu Hs Hn Hb] Hx Hb'. split; cbn; try done.
  - intros Hy. destruct (Ho Hy). congruence.
  - intros ? [= <-]. destruct (Hb _ Hx) as (_ & ?). by split.
Qed.

Lemma on_bridge_ok a f a' ins shells :
  (∀ b b', bridge_ok b ins → f b = Some b' → bridge_ok b' ins) →
  adapter_ok a ins shells → on_bridge a f = Some a' → adapter_ok a' ins shells.
Proof.
  intros Hf Ha. rewrite /on_bridge. destruct (ad_bridge a) as [b|] eqn:Eb; [|done]. simpl.
  destruct (f b) as [b'|] eqn:Ef; [|done]. intros [= <-]. apply (set_bridge_ok a b _ ins); try done.
  eapply Hf; [|done]. by apply (ao_bridge _ _ _ Ha).
Qed.

Lemma accepted_ok a ok user c ins shells :
  adapter_ok a ins shells → ad_user a = None → (ok = true → credential_ok user c) → adapter_ok (accepted a ok user c) ins shells.
Proof.
  intros Ha Hn Hc. rewrite /accepted. destruct ok; [|done]. destruct Ha as [Ho Hu Hs Hx Hb]. split; cbn; try done.
  intros u c' [= <- <-]. by apply Hc.
Qed.

Lemma authorized_ok user key : authorized s user key = true → credential_ok user (ByKey key).
Proof.
  rewrite /authorized. intros [Hu Hk]%andb_true_iff. to_prop. split; [done|]. destruct key as [line|]; [|done]. by exists line.
Qed.
Lemma auth_password_ok user p : auth_password s user p = true → credential_ok user (ByPassword p).
Proof.
  rewrite /auth_password. destruct (sh_password_auth s) as [v|] eqn:Ev; [|done]. intros H. to_prop. split; [done|].
  exists v. split_and!; [done| |done|].
  - rewrite /str_len /str_bytes. destruct p as [|c p]; [done|]. simpl.
    assert (utf8_encode_char c ≠ []) by (rewrite /utf8_encode_char; by repeat case_match).
    destruct (utf8_encode_char c); [done|]. rewrite /len /=. lia.
  - by destruct (v user p) as [[]|].
Qed.

Lemma cancel_bridge_ok b ins : bridge_ok b ins → bridge_ok (cancel_bridge b) ins.
Proof. intros []. by split. Qed.

Lemma send_cancel_ok a c ins shells : adapter_ok a ins shells → adapter_ok (send_cancel a c) ins shells.
Proof.
  intros Ha. rewrite /send_cancel. destruct (ad_bridge a) as [b|] eqn:Eb; [|done]. case_match; [|done].
  apply (set_bridge_ok a b _ ins); try done. apply cancel_bridge_ok. by apply (ao_bridge _ _ _ Ha).
Qed.

Lemma send_cancel_channel a c : ad_channel (send_cancel a c) = ad_channel a.
Proof. rewrite /send_cancel. by repeat case_match. Qed.

Lemma pty_ok a id term cols rows ins shells :
  adapter_ok a ins shells → 0 ≤ cols → 0 ≤ rows → adapter_ok (pty_request a id term cols rows) ins shells.
Proof.
  intros Ha Hc Hr. rewrite /pty_request. destruct (own_channel a id) as [c|] eqn:Ec; [|by apply reply_ok].
  apply own_channel_Some in Ec. case_match eqn:E; [by apply reply_ok|]. to_prop.
  apply reply_ok, (set_channel_ok a c); try done. rewrite /size_ok /= /wrap16 /MAX_TERMINAL_DIMENSION in H0, H1 |- *.
  split; case_match; to_prop; try lia; rewrite Z.mod_small; lia.
Qed.

Lemma window_ok a id cols rows ins shells :
  adapter_ok a ins shells → adapter_ok (window_change_request a id cols rows) ins shells.
Proof.
  intros Ha. rewrite /window_change_request. destruct (own_channel a id) as [c|] eqn:Ec; [|by apply reply_ok].
  apply own_channel_Some in Ec. case_match eqn:E; [|by apply reply_ok]. to_prop. apply reply_ok.
  rewrite /MAX_TERMINAL_DIMENSION in H0, H1.
  assert (size_ok {| ts_cols := wrap16 cols; ts_rows := wrap16 rows |}) as Hz.
  { rewrite /size_ok /= /wrap16 !Z.mod_small; lia. }
  cbn [ad_bridge set_channel]. destruct (ad_bridge a) as [b|] eqn:Eb; [|by apply (set_channel_ok a c)].
  case_match; [|by apply (set_channel_ok a c)]. apply (set_bridge_ok _ b _ ins); [by apply (set_channel_ok a c)|done|].
  destruct (ao_bridge _ _ _ Ha b Eb) as ([] & _). split; try done. cbn. apply Forall_app in bo_sizes0 as [? _].
  apply Forall_app. split; [done|by constructor].
Qed.

Lemma data_ok a id bytes a' ins shells :
  adapter_ok a ins shells → data a id bytes = Some a' → adapter_ok a' (ins ++ taken (LData id bytes) a a') shells.
Proof.
  intros Ha. rewrite /data /taken.
  assert (∀ r, adapter_ok (reply a r) (ins ++ (if (length (ad_replies (reply a r)) =? length (ad_replies a))%nat then [bytes] else [])) shells) as Hrep.
  { intros r. cbn. rewrite length_app /= (proj2 (Nat.eqb_neq _ _)); [|lia]. rewrite app_nil_r. by apply reply_ok. }
  destruct (own_channel a id) as [c|]; [|intros [= <-]; apply Hrep].
  destruct (ad_bridge a) as [b|] eqn:Eb; [|intros [= <-]; apply Hrep].
  destruct (cs_shell_started c && cs_input c); [|intros [= <-]; apply Hrep].
  case_match eqn:E; [intros [= <-]; apply Hrep|]. case_match eqn:El; [done|]. to_prop. intros [= <-]. cbn [ad_replies set_bridge].
  rewrite Nat.eqb_refl. apply (set_bridge_ok a b _ ins); try done.
  destruct (ao_bridge _ _ _ Ha b Eb) as ([(rest & Hi & Hr) Ht Hc Hz [Hq Hl]] & _). split; cbn; try done.
  - exists (rest ++ [bytes]). rewrite app_assoc Hi. split; [done|]. intros Hx. rewrite (Hr Hx) //.
  - rewrite /INPUT_MESSAGES in El. rewrite len_app /len /= in El |- *. unfold len in *. split; [lia|].
    apply Forall_app. split; [done|]. constructor; [rewrite /SSH_PACKET_BYTES in H; unfold len in H; lia|done].
Qed.

Lemma shell_ok a id remote a' ins shells :
  adapter_ok a ins shells → shell_request s a id remote = Some a' →
  adapter_ok a' ins (shells ++ opened (LShell id remote) a a').
Proof.
  intros Ha. rewrite /shell_request.
  assert (adapter_ok (reply a (Failure id)) ins (shells ++ opened (LShell id remote) a (reply a (Failure id)))) as Hrep.
  { rewrite /opened /= last_snoc. destruct (ad_channel a); rewrite app_nil_r; by apply reply_ok. }
  destruct (own_channel a id) as [c|] eqn:Ec; [|by intros [= <-]]. apply own_channel_Some in Ec.
  destruct (negb (cs_pty_accepted c) || cs_shell_started c) eqn:E; [by intros [= <-]|]. to_prop.
  assert (ad_bridge a = None) as Hn.
  { destruct (ad_bridge a) as [b|] eqn:Eb; [|done]. destruct (ao_bridge _ _ _ Ha b Eb) as (_ & _ & _ & Hx).
    rewrite (Hx c Ec) in H0. done. }
  destruct Ha as [Ho Hu Hs Hx Hb]. destruct (Hx Hn) as [-> ->].
  assert (ad_user a ≠ None) as Hlog by (intros Hy; destruct (Ho Hy); congruence).
  destruct (open_remote _ _ _) as [[[[conn sid] att]|]|]; simpl; try done; intros [= <-].
  - rewrite /opened /= last_snoc. split; cbn; try done; [by intros ? [= <-]; apply (Hs c)|].
    intros b [= <-]. split_and!; [|exists (cs_size c); split; [done|by apply Hs]|done|by intros ? [= <-]].
    split; cbn; try done. by exists [].
  - rewrite /opened /= last_snoc. split; cbn; try done; [by intros ? [= <-]; apply (Hs c)|]. congruence.
Qed.

Lemma channel_close_ok a id ins shells : adapter_ok a ins shells → adapter_ok (channel_close a id) ins shells.
Proof.
  intros Ha. rewrite /channel_close. destruct (own_channel a id) as [c|] eqn:Ec; [|done]. apply own_channel_Some in Ec.
  apply (set_channel_ok _ c); [by apply send_cancel_ok|by rewrite send_cancel_channel| |done]. exact (ao_size _ _ _ Ha c Ec).
Qed.

Lemma handler_drop_ok a ins shells : adapter_ok a ins shells → adapter_ok (handler_drop a) ins shells.
Proof.
  intros Ha. rewrite /handler_drop.
  assert (adapter_ok (match ad_channel a with Some c => send_cancel a c | None => a end) ins shells) as Hs.
  { destruct (ad_channel a); [by apply send_cancel_ok|done]. }
  destruct (ad_channel a) as [c|] eqn:Ec; destruct Hs as [Ho Hu Hs Hx Hb]; split; cbn; try done.
  - intros Hy. by destruct (Ho Hy).
  - intros b Hy. destruct (Hb b Hy) as (? & ? & _). by split_and!.
  - intros b Hy. destruct (Hb b Hy) as (? & ? & _ & ?). by split_and!.
Qed.

Lemma open_ok a id ins shells :
  ad_user a ≠ None → ad_dropped a = false → adapter_ok a ins shells → adapter_ok (channel_open_session a id) ins shells.
Proof.
  intros Hl Hd Ha. rewrite /channel_open_session. destruct (ad_channel a) as [c|] eqn:Ec; [by apply reply_ok|].
  apply reply_ok. destruct Ha as [Ho Hu Hs Hx Hb]. split; cbn; try done; [intros ? [= <-]; split; cbn; lia|].
  intros b Hy. destruct (Hb b Hy) as (? & ? & Hz & _). rewrite Hz in Hd; done.
Qed.

Lemma adapter_step_ok a ins shells l a' :
  adapter_ok a ins shells → label_wf l → adapter_step s a l = Some a' →
  adapter_ok a' (ins ++ taken l a a') (shells ++ opened l a a').
Proof.
  intros Ha Hw. rewrite /adapter_step /logged_in /logging_in.
  assert (∀ a'', taken l a a'' = [] → opened l a a'' = [] → adapter_ok a'' ins shells →
    adapter_ok a'' (ins ++ taken l a a'') (shells ++ opened l a a'')) as Hk by (intros ? -> ->; by rewrite !app_nil_r).
  destruct l.
  1-3: destruct (ad_user a) eqn:Eu, (ad_dropped a); try done; intros [= <-]; apply Hk; try done.
  - apply accepted_ok; [done..|apply authorized_ok].
  - apply accepted_ok; [done..|apply auth_password_ok].
  - destruct (ad_user a) eqn:Eu, (ad_dropped a) eqn:Ed; try done; intros [= <-]; apply Hk; try done. by apply open_ok; rewrite ?Eu.
  - destruct (ad_user a), (ad_dropped a); try done; intros [= <-]; apply Hk; try done. destruct Hw as [[? ?] [? ?]]. by apply pty_ok.
  - destruct (ad_user a), (ad_dropped a); try done. intros H. rewrite app_nil_r. by apply shell_ok.
  - destruct (ad_user a), (ad_dropped a); try done. intros H. rewrite app_nil_r. by apply data_ok.
  - destruct (ad_user a), (ad_dropped a); try done; intros [= <-]; apply Hk; try done. by apply window_ok.
  - destruct (ad_user a), (ad_dropped a); try done; intros [= <-]; apply Hk; try done. by apply channel_close_ok.
  - destruct (ad_user a), (ad_dropped a); try done; intros [= <-]. by apply Hk.
  - destruct (ad_user a), (ad_dropped a); try done; intros [= <-]; apply Hk; try done. by apply reply_ok.
  - destruct (ad_dropped a); [done|]. intros [= <-]. apply Hk; try done. by apply handler_drop_ok.
  - intros H. apply Hk; try done. eapply on_bridge_ok; [|done|done].
    intros b0 b1 H0 H1. exact (bridge_snapshot_ok b0 ok b1 ins H0 H1).
  - intros H. apply Hk; try done. eapply on_bridge_ok; [|done|done].
    intros b0 b1 H0 H1. exact (bridge_turn_ok (ad_channel a) b0 b1 ins H0 H1).
  - intros H. apply Hk; try done. eapply on_bridge_ok; [|done|done].
    intros b0 b1 H0 H1. exact (bridge_event_ok (ad_channel a) b0 ok b1 ins H0 H1).
  - intros H. apply Hk; try done. eapply on_bridge_ok; [|done|done].
    intros b0 b1 H0 H1. exact (bridge_finish_ok b0 b1 ins H0 H1).
Qed.

Lemma adapter_run_ok a ins shells : adapter_run a ins shells → adapter_ok a ins shells.
Proof. induction 1 as [|a ins shells l a' _ IH Hw Hs]; [by split|by apply adapter_step_ok]. Qed.

End adapter.

(** * A started adapter *)
Section start.
Context {Q : SshCrypto}.
Implicit Types (c : AdapterConfig) (env : AdapterEnv).

Lemma adapter_validate_Ok c : adapter_validate c = Ok () → 0 ≤ max_connections c →
  loopback (listen c) = true ∧ str_len (remote_url c) ≤ 2048 ∧ starts_with (lit "http://") (remote_url c) = true ∧
  0 < str_len (local_user c) ≤ 128 ∧ 1 ≤ max_connections c ≤ 256.
Proof.
  rewrite /adapter_validate /MAX_LOCAL_USER_BYTES /MAX_CONNECTIONS.
  destruct (loopback (listen c)); [|done]. cbn [negb]. case_match eqn:E1; [done|]. case_match eqn:E2; [done|]. case_match eqn:E3; [done|].
  intros _ Hm. to_prop. split_and!; try done; try lia. apply str_len_pos. by destruct (local_user c).
Qed.

Lemma options_loop_range args o o' :
  0 ≤ op_max_connections o → options_loop args o = Ok (Given o') → 0 ≤ op_max_connections o'.
Proof.
  assert (∀ n args o, (length args < n)%nat → 0 ≤ op_max_connections o → options_loop args o = Ok (Given o') →
    0 ≤ op_max_connections o') as Hx; [|by apply (Hx (Datatypes.S (length args)) args o); [lia|..]].
  clear args o. intros n. induction n as [|n IH]; intros [|flag args] o Hn Ho; [simpl in Hn; lia..|by intros [= <-]|].
  simpl in Hn. cbn [options_loop].
  assert (∀ o1, 0 ≤ op_max_connections o1 → options_loop args o1 = Ok (Given o') → 0 ≤ op_max_connections o') as H1
    by (intros o1; apply IH; lia).
  assert (∀ v rest o1, args = v :: rest → 0 ≤ op_max_connections o1 → options_loop rest o1 = Ok (Given o') →
    0 ≤ op_max_connections o') as H2 by (intros v rest o1 ->; simpl in Hn; apply IH; lia).
  repeat (match goal with |- (if ?x then _ else _) = _ → _ => destruct x end;
    [first [done|by apply H1|destruct args as [|v rest]; [done|]]|]); try done; try by eapply H2.
  - destruct (parse_socket_addr v); [|done]. by eapply H2.
  - destruct (parse_uint u64_max v) as [m|] eqn:Em; [|done]. eapply H2; [done|]. cbn.
    apply (parse_uint_range u64_max v); [vm_compute; discriminate|done].
Qed.

Lemma read_opened_bounded_Ok f path maximum kind b : 0 ≤ maximum →
  read_opened_bounded f path maximum kind = Ok b → of_read f = Ok b ∧ len b ≤ maximum.
Proof.
  intros Hm. rewrite /read_opened_bounded. destruct (of_read f) as [all|]; [|done]. cbn. case_match eqn:E; [done|].
  intros [= <-]. to_prop. split; [|lia]. f_equal. symmetry. apply take_ge. rewrite /len length_take in E. lia.
Qed.

Lemma open_bounded_Ok env path maximum kind f :
  open_bounded env path maximum kind = Ok f → ae_open env path = Ok f ∧ of_len f ≤ maximum.
Proof.
  rewrite /open_bounded. destruct (ae_open env path) as [g|]; [|done]. cbn. case_match eqn:E; [done|].
  intros [= <-]. to_prop. by split; [|lia].
Qed.

(** What the files the adapter was given must be. *)
Definition host_key_ok env (path : str) (key : bytes) : Prop :=
  ∃ f, ae_open env path = Ok f ∧ Z.land (of_mode f) 0x3F = 0 ∧ of_read f = Ok key ∧ len key ≤ 65536 ∧
       ae_parse_key env key = Some false.
Definition keys_ok env (path : str) (v : SshVerifier) : Prop :=
  ∃ f b text, ae_open env path = Ok f ∧ of_read f = Ok b ∧ len b ≤ 262144 ∧ from_utf8 b = Ok text ∧
              from_authorized_keys text = Ok v.

Lemma load_host_key_Ok env path key : load_host_key env path = Ok key → host_key_ok env path key.
Proof.
  rewrite /load_host_key. destruct (open_bounded _ _ _ _) as [f|] eqn:Ef; [|done]. apply open_bounded_Ok in Ef as [Ef _].
  destruct (loose (of_mode f)) eqn:El; [done|]. destruct (read_opened_bounded _ _ _ _) as [b|] eqn:Eb; [|done].
  apply read_opened_bounded_Ok in Eb as [Eb Hl]; [|done]. destruct (ae_parse_key env b) as [[]|] eqn:Ek; [done| |done].
  intros [= <-]. exists f. split_and!; try done. rewrite /loose in El. to_prop. lia.
Qed.

Lemma load_authorized_keys_Ok env path v : load_authorized_keys env path = Ok v → keys_ok env path v.
Proof.
  rewrite /load_authorized_keys /read_bounded. destruct (open_bounded _ _ _ _) as [f|] eqn:Ef; [|done].
  apply open_bounded_Ok in Ef as [Ef _]. destruct (read_opened_bounded _ _ _ _) as [b|] eqn:Eb; [|done].
  apply read_opened_bounded_Ok in Eb as [Eb Hl]; [|done]. destruct (from_utf8 b) as [text|] eqn:Et; [|done]. cbn.
  destruct (from_authorized_keys text) as [w|] eqn:Ew; [|done]. intros [= <-]. by exists f, b, text.
Qed.

(** A verifier exists only when asked for, and its PAM service has a valid name. *)
Lemma password_auth_of_Ok verifier o p : password_auth_of verifier o = Some (Ok p) →
  match p with
  | None => op_password_auth o = false ∧ op_pam_service o = None
  | Some w => op_password_auth o = true ∧ ∃ v, w = verifier v ∧
      pam_verifier_new (default DEFAULT_PAM_SERVICE (op_pam_service o)) = Some (Ok v)
  end.
Proof.
  rewrite /password_auth_of. destruct (op_password_auth o).
  - intros (r & Hr & [= H])%bind_Some. destruct r as [v|]; [|done]. injection H as <-. split; [done|]. by exists v.
  - destruct (op_pam_service o); [done|]. by intros [= <-].
Qed.

(** When the adapter starts, it listens on loopback only, as one named user and
    for a bounded number of connections, towards a bounded [http://] origin under
    exactly one way to authenticate; its host key is unencrypted and private to
    its owner and its authorised keys usable, both of bounded size; and password
    authentication is offered exactly when it was asked for, by a PAM service of
    a valid name. *)
Theorem adapter_start_safe env verifier args c local ssh :
  adapter_main env verifier args = Some (Ok (Some (c, local, ssh))) →
  ∃ o user akeys hkey,
    options_loop args options_default = Ok (Given o) ∧
    op_local_user o = Some user ∧ op_authorized_keys o = Some akeys ∧ op_host_key o = Some hkey ∧
    (loopback (listen c) = true ∧ ae_bind env (listen c) = Ok local ∧ loopback local = true) ∧
    (local_user c = user ∧ 0 < str_len user ≤ 128 ∧ 1 ≤ max_connections c ≤ 256) ∧
    (str_len (remote_url c) ≤ 2048 ∧ starts_with (lit "http://") (remote_url c) = true) ∧
    host_key_ok env hkey (host_key c) ∧ keys ssh = [host_key c] ∧ keys_ok env akeys (authorized_keys c) ∧
    match remote_auth c with
    | MDev => op_dev_auth o = true ∧ op_remote_user o = None ∧ op_remote_key o = None
    | MSshKey u path => op_dev_auth o = false ∧ op_remote_user o = Some u ∧ op_remote_key o = Some path
    | _ => False
    end ∧
    match password_auth c with
    | None => op_password_auth o = false ∧ op_pam_service o = None ∧ methods ssh = [PublicKeyMethod]
    | Some w => op_password_auth o = true ∧ methods ssh = [PublicKeyMethod; PasswordMethod] ∧
        ∃ v, w = verifier v ∧ pam_verifier_new (default DEFAULT_PAM_SERVICE (op_pam_service o)) = Some (Ok v)
    end.
Proof.
  rewrite /adapter_main. destruct (options_loop args options_default) as [[|o]|] eqn:Eo; try done.
  destruct (remote_auth_of o) as [ra|] eqn:Er; [|done]. intros (r & Ep & [= H])%bind_Some.
  destruct r as [p|]; [|done]. apply password_auth_of_Ok in Ep.
  destruct (op_local_user o) as [user|] eqn:E1; [|done]. destruct (op_authorized_keys o) as [akeys|] eqn:E2; [|done].
  destruct (op_host_key o) as [hkey|] eqn:E3; [|done]. cbn [ok_or] in H.
  destruct (load_authorized_keys env akeys) as [v|] eqn:Ev; [|done].
  destruct (load_host_key env hkey) as [k|] eqn:Ek; [|done]. cbn beta iota zeta in H.
  match type of H with context [adapter_validate ?x] => set (c0 := x) in * end.
  destruct (adapter_validate c0) as [[]|] eqn:Ec; [|done]. rewrite /serve Ec in H.
  destruct (ae_bind env (listen c0)) as [l|] eqn:Eb; [|done]. cbn [map_err] in H.
  rewrite /serve_on Ec in H. destruct (loopback l) eqn:El; [|done]. injection H as <- <- <-.
  apply adapter_validate_Ok in Ec as (? & ? & ? & [? ?] & [? ?]); [|by apply (options_loop_range args options_default o)].
  exists o, user, akeys, hkey. split_and!; try done.
  - by apply load_host_key_Ok.
  - by apply load_authorized_keys_Ok.
  - clear -Er. subst c0. cbn. rewrite /remote_auth_of in Er.
    destruct (op_dev_auth o), (op_remote_user o), (op_remote_key o); try done; by injection Er as <-.
  - subst c0. cbn. by destruct p; destruct Ep.
Qed.
End start.
