(* ===== verification/HfState.v ===== *)
(** * The command-line client's state file

    [crates/native-client/src/state.rs], and the functions of [cli.rs] that change
    it: shells with their newest resume tokens and recovery keys, and a connection
    grant, per server. The disk is that of [ClientStore]; the names are those of
    the file's directory. *)
From S2P Require Import Prelude Ids Utf8 Paths ClientStore.

Definition STATE_VERSION : Z := 1.

Record ShellEntry := { en_token : str; en_name : str; en_idempotency_key : option str }.
Record HfState := {
  hs_version : Z;
  hs_servers : gmap str (gmap str ShellEntry);
  hs_grants : gmap str str;
}.
Definition hf_state_default : HfState := {| hs_version := STATE_VERSION; hs_servers := ∅; hs_grants := ∅ |}.

#[export] Instance shell_entry_eq_dec : EqDecision ShellEntry.
Proof. solve_decision. Defined.
#[export] Instance hf_state_eq_dec : EqDecision HfState.
Proof. solve_decision. Defined.

(** [serde_json] on the file: what is written is text, and reads back. *)
Class HfJson := { hf_json : HfState → bytes; hf_parse : bytes → option HfState }.
Class HfJsonLaws {J : HfJson} : Prop := {
  hf_json_text s : is_ok (from_utf8 (hf_json s)) = true;
  hf_json_roundtrip s : hf_parse (hf_json s) = Some s;
}.
Arguments HfJsonLaws J : clear implicits.

(** [var] is [HOLDFAST_STATE], [config] the user's configuration directory. *)
Definition state_path (var config : option str) : result str str :=
  match var with
  | Some (c :: path) => Ok (c :: path)
  | _ =>
      let? config := ok_or config (lit "no per-user config directory") in
      Ok (join config (lit "holdfast/state.json"))
  end.

(** The file's name in its directory; a path without one cannot be opened. *)
Definition state_file (var config : option str) : result str str :=
  let? path := state_path var config in ok_or (file_name path) (lit "is a directory").

Definition read_file (i : nat) : io bytes := syscall (λ d, (d, Ok (inode_content d i))).

Definition read_to_string (name : str) : io bytes :=
  do! file <- open_read name;
  do! b <- read_file file;
  if is_ok (from_utf8 b) then ret_io b else throw_io SInvalid.

(** [now] is the time in milliseconds. *)
Definition backup_name (now : Z) : str := lit "state.json.corrupt-" ++ dec_str now.

Section state.
Context {J : HfJson} {B : Base64}.
Variable file : str.

Definition hf_load (now : Z) : io HfState := λ d,
  match read_to_string file d with
  | (d, Dies) => (d, Dies)
  | (d, Throws e) =>
      if bool_decide (e = SIo NOT_FOUND) then (d, Returns hf_state_default) else (d, Throws e)
  | (d, Returns text) =>
      match hf_parse text with
      | Some state =>
          if STATE_VERSION <? hs_version state then (d, Throws (SNewerSchema (hs_version state)))
          else (d, Returns state)
      | None => (do! _ <- rename_file file (backup_name now); ret_io hf_state_default) d
      end
  end.

Definition hf_save (state : HfState) : io unit :=
  do! _ <- create_dir_all;
  let json := hf_json state in
  let tmp := tmp_name file in
  do! f <- open_truncate tmp;
  do! _ <- write_file f json;
  do! _ <- sync_file f;
  rename_file tmp file.

(** ** Changes *)
Definition with_servers (s : HfState) (m : gmap str (gmap str ShellEntry)) : HfState := {|
  hs_version := hs_version s; hs_servers := m; hs_grants := hs_grants s |}.

Definition store_grant (url : str) (grant : bytes) (s : HfState) : HfState := {|
  hs_version := hs_version s; hs_servers := hs_servers s; hs_grants := <[url := b64_encode grant]> (hs_grants s) |}.

Definition store_entry (url id_hex : str) (token : bytes) (name : str) (key : option (array 16)) (s : HfState)
    : HfState :=
  let shells := default ∅ (hs_servers s !! url) in
  let key :=
    match key with
    | Some k => Some (hex (array_bytes k))
    | None => e ← shells !! id_hex; en_idempotency_key e
    end in
  with_servers s (<[url := <[id_hex := {| en_token := b64_encode token; en_name := name;
                                          en_idempotency_key := key |}]> shells]> (hs_servers s)).

Definition remove_entry (url id_hex : str) (s : HfState) : HfState :=
  with_servers s (alter (delete id_hex) url (hs_servers s)).

(** Load, change, save. *)
Definition change (now : Z) (f : HfState → HfState) : io unit :=
  do! stored <- hf_load now; hf_save (f stored).

Definition persist_grant (now : Z) (url : str) (grant : bytes) : io unit :=
  if is_empty grant then ret_io () else change now (store_grant url grant).
Definition persist_entry (now : Z) (url id_hex : str) (token : bytes) (name : str) (key : option (array 16))
    : io unit := change now (store_entry url id_hex token name key).
Definition forget_token (now : Z) (url id_hex : str) : io unit := change now (remove_entry url id_hex).
End state.
