(* ===== verification/HfCli.v ===== *)
(** * The command-line client

    [crates/native-client/src/cli.rs]: the command line, connecting with a stored
    grant or a key, the commands, and the interactive session as turns of its two
    loops. The network, the terminal and the clock are what the program finds when
    it asks; messages on the error stream are left out, and error texts that quote
    an argument are shortened. *)
From S2P Require Import Prelude Protocol Ids Utf8 Conn Framing UploadProto ClientStore ClientApi HfState.

Inductive HfErr := HText (text : str) | HStore (e : StoreErr) | HClient (e : ClientErr) | HAttach (e : AttachError).

(** Why a session returned: the shell exited, the user detached, attaching was
    refused for good with the entry forgotten or kept, or recovery failed. *)
Inductive End := EndExited (code : Z) | EndDetached (sent : Chan) | EndForgot (e : AttachError) | EndKept (e : AttachError) | EndRecovery (e : HfErr).
Definition end_result (e : End) : result unit HfErr :=
  match e with
  | EndExited _ | EndDetached _ => Ok ()
  | EndForgot e | EndKept e => Err (HAttach e)
  | EndRecovery e => Err e
  end.

(** What the program finds and what it leaves: the disk; a network for each
    connection; a stream for each attachment; the answers of the terminal about
    its size and of the output about each write; random keys; the clock; the
    output, the waits, the tokens it has held, and why it gave up its shell. *)
Record Hf := {
  hf_disk : ClientDisk;
  hf_networks : list Network;
  hf_streams : list (result (list ReadEvent * list (option str)) str);
  hf_winsizes : list (option (Z * Z));
  hf_stdout_ok : list bool;
  hf_random : list (array 16);
  hf_clock : list Z;
  hf_stdout : bytes;
  hf_slept : list Z;
  hf_held : list bytes;
  hf_verdict : option End;
}.

(** A call returns; fails; panics; the process dies in it; or it never returns. *)
Inductive done (A : Type) := Val (a : A) | Fails (e : HfErr) | Panics | Killed | Waits.
Arguments Val {A} a.
Arguments Fails {A} e.
Arguments Panics {A}.
Arguments Killed {A}.
Arguments Waits {A}.

Definition hf (A : Type) : Type := Hf → Hf * done A.
Definition ret_hf {A} (a : A) : hf A := λ w, (w, Val a).
Definition fail_hf {A} (e : HfErr) : hf A := λ w, (w, Fails e).
Definition panic_hf {A} : hf A := λ w, (w, Panics).
Definition bind_hf {A B} (m : hf A) (k : A → hf B) : hf B := λ w,
  match m w with
  | (w, Val a) => k a w
  | (w, Fails e) => (w, Fails e)
  | (w, Panics) => (w, Panics)
  | (w, Killed) => (w, Killed)
  | (w, Waits) => (w, Waits)
  end.
Notation "'hf!' x <- e ; k" := (bind_hf e (λ x, k))
  (at level 100, x pattern, e at next level, k at level 200, right associativity) : rust_scope.

(** The error as a value. *)
Definition try_hf {A} (m : hf A) : hf (result A HfErr) := λ w,
  match m w with
  | (w, Val a) => (w, Val (Ok a))
  | (w, Fails e) => (w, Val (Err e))
  | (w, Panics) => (w, Panics)
  | (w, Killed) => (w, Killed)
  | (w, Waits) => (w, Waits)
  end.
Definition from_result {A E} (f : E → HfErr) (r : result A E) : hf A :=
  match r with Ok a => ret_hf a | Err e => fail_hf (f e) end.

(** A remote call: [None] never returns. *)
Definition wait {A} (o : option A) : hf A := λ w, match o with Some a => (w, Val a) | None => (w, Waits) end.

Definition with_disk (w : Hf) (d : ClientDisk) (clock : list Z) : Hf := {|
  hf_disk := d; hf_networks := hf_networks w; hf_streams := hf_streams w; hf_winsizes := hf_winsizes w;
  hf_stdout_ok := hf_stdout_ok w; hf_random := hf_random w; hf_clock := clock; hf_stdout := hf_stdout w;
  hf_slept := hf_slept w; hf_held := hf_held w; hf_verdict := hf_verdict w |}.
Definition with_found (w : Hf) (n : list Network) (s : list (result (list ReadEvent * list (option str)) str))
    (z : list (option (Z * Z))) (r : list (array 16)) : Hf := {|
  hf_disk := hf_disk w; hf_networks := n; hf_streams := s; hf_winsizes := z; hf_stdout_ok := hf_stdout_ok w;
  hf_random := r; hf_clock := hf_clock w; hf_stdout := hf_stdout w; hf_slept := hf_slept w; hf_held := hf_held w; hf_verdict := hf_verdict w |}.
Definition with_left (w : Hf) (ok : list bool) (out : bytes) (slept : list Z) (held : list bytes)
    (verdict : option End) : Hf := {|
  hf_disk := hf_disk w; hf_networks := hf_networks w; hf_streams := hf_streams w; hf_winsizes := hf_winsizes w;
  hf_stdout_ok := ok; hf_random := hf_random w; hf_clock := hf_clock w; hf_stdout := out; hf_slept := slept;
  hf_held := held; hf_verdict := verdict |}.

(** ** Asking and telling *)
Definition next_network : hf Network := λ w,
  match hf_networks w with
  | n :: ns => (with_found w ns (hf_streams w) (hf_winsizes w) (hf_random w), Val n)
  | [] => (w, Waits)
  end.
Definition next_stream : hf (result (list ReadEvent * list (option str)) str) := λ w,
  match hf_streams w with
  | s :: ss => (with_found w (hf_networks w) ss (hf_winsizes w) (hf_random w), Val s)
  | [] => (w, Waits)
  end.
Definition random_key : hf (array 16) := λ w,
  (with_found w (hf_networks w) (hf_streams w) (hf_winsizes w) (tail (hf_random w)),
   Val (default (array_repeat 16 Byte.x00) (head (hf_random w)))).

(** [TIOCGWINSZ]: [None] when the call fails. *)
Definition terminal_size : hf (Z * Z) := λ w,
  (with_found w (hf_networks w) (hf_streams w) (tail (hf_winsizes w)) (hf_random w),
   Val (match head (hf_winsizes w) with
        | Some (Some (cols, rows)) => if (0 <? cols) && (0 <? rows) then (cols, rows) else (80, 24)
        | _ => (80, 24)
        end)).

Definition sleep (secs : Z) : hf unit := λ w,
  (with_left w (hf_stdout_ok w) (hf_stdout w) (hf_slept w ++ [secs]) (hf_held w) (hf_verdict w), Val ()).
Definition write_stdout (b : bytes) : hf unit := λ w,
  let ok := tail (hf_stdout_ok w) in
  match head (hf_stdout_ok w) with
  | Some false => (with_left w ok (hf_stdout w) (hf_slept w) (hf_held w) (hf_verdict w), Fails (HText (lit "write failed")))
  | _ => (with_left w ok (hf_stdout w ++ b) (hf_slept w) (hf_held w) (hf_verdict w), Val ())
  end.
(** [println!] panics where [write_all] fails. *)
Definition println (line : str) : hf unit := λ w,
  match write_stdout (str_bytes line ++ [Byte.x0a]) w with (w, Fails _) => (w, Panics) | r => r end.
(** The session's token from here on. *)
Definition hold (token : bytes) : hf unit := λ w,
  (with_left w (hf_stdout_ok w) (hf_stdout w) (hf_slept w) (hf_held w ++ [token]) (hf_verdict w), Val ()).

(** The entry is about to be dropped, and why. *)
Definition judge (e : End) : hf unit := λ w,
  (with_left w (hf_stdout_ok w) (hf_stdout w) (hf_slept w) (hf_held w) (Some e), Val ()).

(** ** Text *)

(** [&s[..n]]: [None] is the panic when [n] is out of range or inside a
    character. *)
Fixpoint slice_to (n : Z) (s : str) : option str :=
  if n =? 0 then Some []
  else
    match s with
    | [] => None
    | c :: s => let n := n - str_len [c] in if n <? 0 then None else r ← slice_to n s; Some (c :: r)
    end.
Definition slice (n : Z) (s : str) : hf str := λ w,
  match slice_to n s with Some r => (w, Val r) | None => (w, Panics) end.

(** [{:<n}]. *)
Definition pad (n : nat) (s : str) : str := s ++ repeat 0x20 (n - length s).

Definition show_i32 (z : Z) : str := if z <? 0 then lit "-" ++ dec_str (- z) else dec_str z.

Definition state_word (state : Z) : str :=
  if state =? 2 then lit "running" else if state =? 3 then lit "exited"
  else if state =? 4 then lit "terminating" else lit "unknown".

(** ** Options *)
Record Opts := { o_url : str; o_user : option str; o_key : option str }.
Definition opts_default : Opts := {| o_url := lit "http://127.0.0.1:8080"; o_user := None; o_key := None |}.

Fixpoint global_flags (args : list str) (o : Opts) : result (Opts * list str) str :=
  match args with
  | [] => Ok (o, [])
  | flag :: rest =>
      if bool_decide (flag = lit "--url") then
        match rest with
        | [] => Err (lit "--url needs a value")
        | v :: rest => global_flags rest {| o_url := v; o_user := o_user o; o_key := o_key o |}
        end
      else if bool_decide (flag = lit "--user") then
        match rest with
        | [] => Err (lit "--user needs a value")
        | v :: rest => global_flags rest {| o_url := o_url o; o_user := Some v; o_key := o_key o |}
        end
      else if bool_decide (flag = lit "--key") then
        match rest with
        | [] => Err (lit "--key needs a path")
        | v :: rest => global_flags rest {| o_url := o_url o; o_user := o_user o; o_key := Some v |}
        end
      else Ok (o, args)
  end.

Inductive Command := CmdList | CmdOpen (command : option str) | CmdAttach (prefix : str) | CmdTerminate (prefix : str).

Definition command_of (args : list str) : result Command str :=
  let command := default (lit "list") (head args) in
  let argument := head (tail args) in
  if bool_decide (command = lit "list") then Ok CmdList
  else if bool_decide (command = lit "open") then Ok (CmdOpen argument)
  else if bool_decide (command = lit "attach") then
    let? prefix := ok_or argument (lit "attach needs a shell id prefix") in Ok (CmdAttach prefix)
  else if bool_decide (command = lit "terminate") then
    let? prefix := ok_or argument (lit "terminate needs a shell id prefix") in Ok (CmdTerminate prefix)
  else Err (lit "unknown command " ++ command ++
            lit " (list | open [cmd] | attach <id> | terminate <id>); global flags: --url --user --key").

Section cli.
Context {PM : ProstMessage Envelope} {HO : HashOps} {J : HfJson} {B : Base64}.
(** The state file's name, or why there is none. *)
Variable file : result str str.

Definition on_disk {A} (f : str → Z → io A) : hf A := λ w,
  match file with
  | Err e => (w, Fails (HText e))
  | Ok name =>
      match f name (default 0 (head (hf_clock w))) (hf_disk w) with
      | (d, Returns a) => (with_disk w d (tail (hf_clock w)), Val a)
      | (d, Throws e) => (with_disk w d (tail (hf_clock w)), Fails (HStore e))
      | (d, Dies) => (with_disk w d (tail (hf_clock w)), Killed)
      end
  end.

(** ** Connecting *)
Definition connect_net (url : str) (auth : AuthMethod) : hf (result ServerConn ClientErr) :=
  hf! n <- next_network; wait (connect_with n url auth).

Definition keep_grant (o : Opts) (conn : ServerConn) : hf ServerConn :=
  hf! _ <- on_disk (λ name now, persist_grant name now (o_url o) (sc_grant conn)); ret_hf conn.

Definition full_method (o : Opts) : AuthMethod :=
  match o_user o, o_key o with
  | Some user, Some key => MSshKey user key
  | _, _ => MDev
  end.

Definition connect (o : Opts) : hf ServerConn :=
  hf! stored <- on_disk hf_load;
  hf! reused <- match (g ← hs_grants stored !! o_url o; b64_decode g) with
                | Some grant => hf! r <- connect_net (o_url o) (MGrant grant); ret_hf (match r with Ok c => Some c | Err _ => None end)
                | None => ret_hf None
                end;
  match reused with
  | Some conn => keep_grant o conn
  | None =>
      hf! r <- connect_net (o_url o) (full_method o);
      hf! conn <- from_result HClient r;
      keep_grant o conn
  end.

(** ** Commands *)
Definition row (known : option (gmap str ShellEntry)) (shell : PbShellInfo) : hf unit :=
  let id := hex (psi_shell_id shell) in
  let entry := m ← known; m !! id in
  hf! short <- slice (Z.min 32 (str_len id)) id;
  println (pad 34 short ++ lit " " ++ pad 12 (state_word (psi_state shell)) ++ lit " " ++
           pad 8 (match entry with Some _ => lit "yes" | None => lit "no" end) ++ lit " " ++
           from_option en_name (lit "-") entry).

Fixpoint rows (known : option (gmap str ShellEntry)) (shells : list PbShellInfo) : hf unit :=
  match shells with
  | [] => ret_hf ()
  | shell :: shells => hf! _ <- row known shell; rows known shells
  end.

Definition list_header : str :=
  pad 34 (lit "ID") ++ lit " " ++ pad 12 (lit "STATE") ++ lit " " ++ pad 8 (lit "TOKEN?") ++ lit " shell".

Definition cmd_list (o : Opts) : hf unit :=
  hf! conn <- connect o;
  hf! stored <- on_disk hf_load;
  let known := hs_servers stored !! o_url o in
  hf! (_, r) <- wait (ServerConn.list_shells conn);
  hf! shells <- from_result HClient r;
  if is_empty shells then println (lit "no shells on " ++ o_url o)
  else hf! _ <- println list_header; rows known shells.

Definition cmd_terminate (o : Opts) (prefix : str) : hf unit :=
  hf! conn <- connect o;
  hf! (conn, r) <- wait (ServerConn.list_shells conn);
  hf! shells <- from_result HClient r;
  match filter (λ id, starts_with prefix (hex id) = true) (map psi_shell_id shells) with
  | [] => fail_hf (HText (lit "no shell matches"))
  | [id] =>
      hf! (_, r) <- wait (ServerConn.terminate conn id);
      hf! code <- from_result HClient r;
      hf! _ <- on_disk (λ name now, forget_token name now (o_url o) (hex id));
      println (lit "terminated (exit code " ++ show_i32 code ++ lit ")")
  | _ => fail_hf (HText (lit "ambiguous prefix"))
  end.

(** ** Sessions *)
Record Session := {
  ss_opts : Opts;
  ss_shell_id : bytes;
  ss_name : str;
  ss_key : option (array 16);
  ss_conn : option ServerConn;
  ss_token : bytes;
  ss_backoff : Z;
}.
Definition run_session (o : Opts) (conn : ServerConn) (shell_id token : bytes) (name : str) (key : option (array 16))
    : hf Session :=
  hf! _ <- hold token;
  ret_hf {| ss_opts := o; ss_shell_id := shell_id; ss_name := name; ss_key := key; ss_conn := Some conn;
            ss_token := token; ss_backoff := 1 |}.

Definition cmd_open (o : Opts) (command : option str) : hf Session :=
  hf! conn <- connect o;
  hf! (cols, rows) <- terminal_size;
  hf! key <- random_key;
  hf! (conn, r) <- wait (ServerConn.open_shell conn command cols rows key);
  hf! (shell_id, token) <- from_result HClient r;
  let id_hex := hex shell_id in
  let name := default (lit "shell") command in
  hf! _ <- on_disk (λ file now, persist_entry file now (o_url o) id_hex token name (Some key));
  hf! _ <- slice 16 id_hex;
  run_session o conn shell_id token name (Some key).

(** [unhex]: [None] is its panic. *)
Definition unhex_hf (text : str) : hf (option bytes) := λ w,
  match unhex text with Some r => (w, Val r) | None => (w, Panics) end.

Fixpoint slices (ids : list str) : hf unit :=
  match ids with
  | [] => ret_hf ()
  | id :: ids => hf! _ <- slice 16 id; slices ids
  end.

(** The one entry that matches. *)
Definition attach_entry (o : Opts) (id : str) (entry : ShellEntry) : hf Session :=
  hf! shell_id <- unhex_hf id;
  hf! shell_id <- from_result HText (ok_or shell_id (lit "corrupt state file"));
  hf! token <- from_result HText (ok_or (b64_decode (en_token entry)) (lit "invalid base64"));
  hf! key <- match en_idempotency_key entry with
             | Some text => hf! k <- unhex_hf text; ret_hf (k ← k; array_of 16 k)
             | None => ret_hf None
             end;
  hf! conn <- connect o;
  run_session o conn shell_id token (en_name entry) key.

Definition cmd_attach (o : Opts) (prefix : str) : hf Session :=
  hf! stored <- on_disk hf_load;
  hf! shells <- from_result HText (ok_or (hs_servers stored !! o_url o) (lit "no stored shells for " ++ o_url o));
  match filter (λ e, starts_with prefix e.1 = true) (map_to_list shells) with
  | [] => fail_hf (HText (lit "no stored shell matches"))
  | [(id, entry)] => attach_entry o id entry
  | multiple => hf! _ <- slices multiple.*1; fail_hf (HText (lit "ambiguous prefix"))
  end.

(** What the command line leads to. *)
Inductive Started := Finished | Interactive (s : Session).

Definition main (args : list str) : hf Started :=
  hf! (o, args) <- from_result HText (global_flags args opts_default);
  hf! command <- from_result HText (command_of args);
  match command with
  | CmdList => hf! _ <- cmd_list o; ret_hf Finished
  | CmdOpen command => hf! s <- cmd_open o command; ret_hf (Interactive s)
  | CmdAttach prefix => hf! s <- cmd_attach o prefix; ret_hf (Interactive s)
  | CmdTerminate prefix => hf! _ <- cmd_terminate o prefix; ret_hf Finished
  end.

(** Recovery of a shell whose token was superseded; the connection is left as the
    last exchange left it. *)
Definition recover_shell (session : ServerConn) (shell_id : bytes) (key : array 16) (cols rows : Z)
    : option (ServerConn * result bytes HfErr) :=
  '(session, r) ← ServerConn.list_shells session;
  match r with
  | Err e => Some (session, Err (HClient e))
  | Ok shells =>
      let running := existsb (λ s, bool_decide (psi_shell_id s = shell_id) && (psi_state s =? SHELL_STATE_RUNNING)) shells in
      if negb running then Some (session, Err (HText (lit "shell no longer running on the server")))
      else
        '(session, r) ← ServerConn.open_shell session None cols rows key;
        match r with
        | Err e => Some (session, Err (HClient e))
        | Ok (new_id, new_token) =>
            if bool_decide (new_id = shell_id) then Some (session, Ok new_token)
            else
              '(session, _) ← ServerConn.terminate session new_id;
              Some (session, Err (HText (lit "idempotency key resolved to a different shell")))
        end
  end.

Definition next_backoff (secs : Z) : Z := Z.min (secs * 2) 15.

Definition set_session (s : Session) (conn : option ServerConn) (token : bytes) (backoff : Z) : Session := {|
  ss_opts := ss_opts s; ss_shell_id := ss_shell_id s; ss_name := ss_name s; ss_key := ss_key s; ss_conn := conn;
  ss_token := token; ss_backoff := backoff |}.

Inductive Turn := Again (s : Session) | Attached (conn : ServerConn) (shell : AttachedShell) (s : Session) | Ended (e : End).

Definition save_token (s : Session) (token : bytes) : hf unit :=
  hf! _ <- hold token;
  on_disk (λ file now, persist_entry file now (o_url (ss_opts s)) (hex (ss_shell_id s)) token (ss_name s) None).
Definition forget (s : Session) (e : End) : hf Turn :=
  hf! _ <- judge e;
  hf! _ <- on_disk (λ file now, forget_token file now (o_url (ss_opts s)) (hex (ss_shell_id s)));
  ret_hf (Ended e).
Definition retry (s : Session) : hf Turn :=
  hf! _ <- sleep (ss_backoff s);
  ret_hf (Again (set_session s None (ss_token s) (next_backoff (ss_backoff s)))).

(** An attach that failed. *)
Definition attach_failed (s : Session) (session : ServerConn) (cols rows : Z) (e : AttachError) : hf Turn :=
  match attach_failure_action e (match ss_key s with Some _ => true | None => false end) with
  | Retry => retry s
  | RecoverViaIdempotency =>
      match ss_key s with
      | None => panic_hf
      | Some key =>
          hf! (session, r) <- wait (recover_shell session (ss_shell_id s) key cols rows);
          match r with
          | Ok token =>
              hf! _ <- save_token s token; ret_hf (Again (set_session s (Some session) token (ss_backoff s)))
          | Err err => forget s (EndRecovery err)
          end
      end
  | ForgetAndExit => forget s (EndForgot e)
  | ExitKeepToken => ret_hf (Ended (EndKept e))
  end.

(** One turn of the outer loop, up to the inner one. *)
Definition session_turn (s : Session) : hf Turn :=
  hf! conn <- match ss_conn s with Some c => ret_hf (Ok c) | None => try_hf (connect (ss_opts s)) end;
  match conn with
  | Err _ => retry s
  | Ok session =>
      hf! (cols, rows) <- terminal_size;
      hf! stream <- next_stream;
      hf! r <- wait (attach_shell stream (ss_shell_id s) (ss_token s) cols rows);
      match r with
      | Err e => attach_failed s session cols rows e
      | Ok shell =>
          hf! _ <- save_token s (at_rotated_token shell);
          hf! _ <- write_stdout (at_snapshot shell);
          ret_hf (Attached session shell (set_session s None (at_rotated_token shell) 1))
      end
  end.

(** What the inner [select!] finds ready. *)
Inductive Ready := RdyShell | RdyStdin (bytes : bytes) | RdyWinch.

Definition DETACH_KEY : Byte.byte := Byte.x1d.

Definition set_chan (a : AttachedShell) (c : Chan) : AttachedShell := {|
  at_chan := c; at_shell_id := at_shell_id a; at_snapshot := at_snapshot a; at_rotated_token := at_rotated_token a;
  at_oldest_history_line_id := at_oldest_history_line_id a;
  at_newest_history_line_id := at_newest_history_line_id a |}.

(** A write to the shell: its failure ends the attachment. *)
Definition written (conn : ServerConn) (shell : AttachedShell) (s : Session) (r : Chan * result unit ClientErr) : hf Turn :=
  match r with
  | (c, Ok _) => ret_hf (Attached conn (set_chan shell c) s)
  | (_, Err _) => ret_hf (Again s)
  end.

Definition live_turn (conn : ServerConn) (shell : AttachedShell) (s : Session) (ready : Ready) : hf Turn :=
  match ready with
  | RdyShell =>
      hf! (c, event) <- wait (next_event (at_chan shell));
      match event with
      | Ok (EvOutput data) => hf! _ <- write_stdout data; ret_hf (Attached conn (set_chan shell c) s)
      | Ok (EvExited code) => forget s (EndExited code)
      | Ok (EvPing nonce) => written conn shell s (pong c nonce)
      | Err _ => ret_hf (Again s)
      end
  | RdyStdin bytes =>
      match list_find (λ b, b = DETACH_KEY) bytes with
      | Some (pos, _) =>
          let c := if (0 <? pos)%nat then (input (at_chan shell) (take pos bytes)).1 else at_chan shell in
          let c := (detach c).1 in
          hf! _ <- slice 16 (hex (ss_shell_id s));
          ret_hf (Ended (EndDetached c))
      | None => written conn shell s (input (at_chan shell) bytes)
      end
  | RdyWinch =>
      hf! (cols, rows) <- terminal_size;
      ret_hf (Attached conn (set_chan shell (resize (at_chan shell) cols rows).1) s)
  end.

(** ** The process, one turn at a time *)
Inductive Phase :=
  | PLoop (s : Session)
  | PLive (conn : ServerConn) (shell : AttachedShell) (s : Session)
  | PEnded (e : End)
  | PFailed (e : HfErr)
  | PPanicked
  | PKilled.

Definition phase_of (d : done Turn) : option Phase :=
  match d with
  | Val (Again s) => Some (PLoop s)
  | Val (Attached conn shell s) => Some (PLive conn shell s)
  | Val (Ended e) => Some (PEnded e)
  | Fails e => Some (PFailed e)
  | Panics => Some PPanicked
  | Killed => Some PKilled
  | Waits => None
  end.

Definition session_step (p : Phase) (ready : Ready) (w : Hf) : option (Phase * Hf) :=
  match p with
  | PLoop s => let '(w', d) := session_turn s w in p' ← phase_of d; Some (p', w')
  | PLive conn shell s => let '(w', d) := live_turn conn shell s ready w in p' ← phase_of d; Some (p', w')
  | _ => None
  end.
End cli.
