(* ===== verification/HfProps.v ===== *)
(** * What the command-line client guarantees about its credentials *)
From S2P Require Import Prelude Protocol Ids Utf8 Conn Framing UploadProto ClientStore ReplaceFile ClientStoreProps ClientApi HfState HfCli.

(** ** The state file *)
Section file.
Context {J : HfJson} {B : Base64} {JL : HfJsonLaws J}.
Variable name : str.

Definition written_as (x : HfState) (b : bytes) : Prop := b = hf_json x.
Definition readable (x : HfState) : Prop := hs_version x ≤ STATE_VERSION.
#[local] Notation disk_wf := (@ReplaceFile.disk_wf name HfState written_as readable).
#[local] Notation holds := (@ReplaceFile.holds name HfState written_as).

Definition value (o : option HfState) : HfState := default hf_state_default o.

(** The disk is sound and the file says [x]. *)
Definition says (d : ClientDisk) (x : HfState) : Prop :=
  genuine (schedule d) ∧ readable x ∧ ∃ hist o, disk_wf hist d ∧ holds d o ∧ value o = x.

(** *** System calls use up the schedule *)
Definition consumes {A} (m : io A) : Prop := ∀ d, genuine (schedule d) → genuine (schedule (m d).1).

Lemma genuine_tail s : genuine s → genuine (tail s).
Proof. rewrite /genuine. destruct s; [done|]. by intros [_ ?]%Forall_cons. Qed.

Lemma consumes_syscall {A} (f : ClientDisk → ClientDisk * result A Z) :
  (∀ d, schedule (f d).1 = schedule d) → consumes (syscall f).
Proof.
  intros Hf d G%genuine_tail. rewrite /syscall.
  destruct (schedule d) as [|[|errno wrote|wrote []] s]; simpl in *; try done.
  - specialize (Hf (set_schedule d [])). destruct (f _) as [d' [|]]; simpl in *; by rewrite Hf.
  - specialize (Hf (set_schedule d s)). destruct (f _) as [d' [|]]; simpl in *; by rewrite Hf.
  - by rewrite Hf.
Qed.

Lemma consumes_bind {A C} (m : io A) (k : A → io C) : consumes m → (∀ a, consumes (k a)) → consumes (bind_io m k).
Proof. intros Hm Hk d G. rewrite /bind_io. specialize (Hm d G). destruct (m d) as [d' [a|e|]]; simpl in *; try done. by apply Hk. Qed.

Lemma consumes_ret {A} (a : A) : consumes (ret_io a).
Proof. by intros d. Qed.

Lemma consumes_write i b : consumes (write_file i b).
Proof.
  intros d G%genuine_tail. rewrite /write_file.
  assert (∀ q c, schedule (append_inode (set_schedule d q) i c) = q) as Ha.
  { intros q c. rewrite /append_inode. by destruct (inodes _ !! i). }
  destruct (schedule d) as [|[|errno wrote|wrote eff] s]; simpl in *; by rewrite Ha.
Qed.

Lemma consumes_save x : consumes (hf_save name x).
Proof.
  rewrite /hf_save. apply consumes_bind; [by apply consumes_syscall|]. intros _.
  apply consumes_bind; [|intros i; apply consumes_bind; [apply consumes_write|intros _; apply consumes_bind; [|intros _]]].
  - apply consumes_syscall. intros d. by destruct (names d !! _).
  - apply consumes_syscall. intros d. by destruct (inodes d !! i).
  - apply consumes_syscall. intros d. by destruct (names d !! _).
Qed.

(** *** Loading and saving *)
Lemma read_to_string_cases d :
  genuine (schedule d) →
  ∃ s r, read_to_string name d = (set_schedule d s, r) ∧ genuine s ∧
    (∀ b, r = Returns b → ∃ i, names d !! name = Some i ∧ b = inode_content d i) ∧
    (r = Throws (SIo NOT_FOUND) → names d !! name = None).
Proof.
  intros G. rewrite /read_to_string {1}/bind_io /open_read.
  destruct (syscall_read (λ d, ok_or (names d !! name) NOT_FOUND) d) as (s & r & -> & Hs & Hr & Hn); [done|].
  specialize (Hs G). destruct r as [i|e|]; [|exists s; eexists; split_and!; [done..|]|by exists s; eexists].
  2:{ intros He. specialize (Hn ltac:(congruence) G). by destruct (names d !! name). }
  specialize (Hr i eq_refl). apply ok_or_Ok in Hr. rewrite {1}/bind_io /read_file.
  destruct (syscall_read (λ d, Ok (inode_content d i)) (set_schedule d s)) as (s2 & r2 & -> & Hs2 & Hr2 & Hn2); [done|].
  specialize (Hs2 Hs). exists s2. destruct r2 as [b|e|]; [|eexists; split_and!; [done..|]|by eexists].
  2:{ intros He. by specialize (Hn2 ltac:(congruence) Hs). }
  specialize (Hr2 b eq_refl). injection Hr2 as <-. rewrite inode_content_schedule.
  destruct (is_ok (from_utf8 (inode_content d i))); eexists; split_and!; try done.
  intros b [= <-]. by exists i.
Qed.

Lemma says_schedule d s x : genuine s → says d x → says (set_schedule d s) x.
Proof.
  intros G (_ & Hr & hist & o & W & Hh & Hv). split_and!; [done..|]. exists hist, o.
  split_and!; [by apply disk_wf_schedule|by apply holds_schedule|done].
Qed.

Lemma load_says now d x :
  says d x → let '(d', r) := hf_load name now d in says d' x ∧ (∀ y, r = Returns y → y = x).
Proof.
  intros Hs. pose proof Hs as (G & Hr & hist & o & W & Hh & Hv). rewrite /hf_load.
  destruct (read_to_string_cases d G) as (s & r & -> & Gs & Hb & Hn).
  pose proof (says_schedule d s x Gs Hs) as Hs'. destruct r as [b|e|]; [|case_bool_decide as He|done].
  - destruct (Hb b eq_refl) as (i & Hi & ->). destruct o as [y|]; simpl in Hh, Hv; [|congruence]. subst x.
    destruct Hh as (j & b & Hj & -> & Hc). assert (j = i) as -> by congruence.
    rewrite /inode_content Hc /= hf_json_roundtrip. rewrite (proj2 (Z.ltb_ge _ _)); [|done].
    split; [done|]. by intros y' [= <-].
  - split; [done|]. intros y [= <-]. subst e. specialize (Hn eq_refl). destruct o as [z|]; [|by subst x].
    destruct Hh as (j & b & Hj & _). congruence.
  - by split.
Qed.

Lemma save_says d x y :
  says d x → readable y →
  let '(d', r) := hf_save name y d in
  match r with Returns _ => says d' y | Throws _ => says d' x | Dies => says d' x ∨ says d' y end.
Proof.
  intros (G & Hr & hist & o & W & Hh & Hv) Hy.
  assert (disk_wf (y :: hist) d) as W'.
  { apply (disk_wf_mono hist); [set_solver| |done]. intros z [->|Hz]%elem_of_cons; [done|]. by apply (dw_good _ _ W). }
  assert (let '(d', r) := hf_save name y d in disk_wf (y :: hist) d' ∧ outcome (p := name) (encodes := written_as) o y r d') as Ho.
  { rewrite /hf_save. eapply io_keeps_bind; [by apply keeps_create_dir_all|]. intros [] d1 W1 H1 _.
    apply replace_outcome; [done..| |done]. set_solver. }
  pose proof (consumes_save y d G) as G'. destruct (hf_save name y d) as [d' [[]|e|]]; simpl in *; destruct Ho as [W2 Ho].
  - split_and!; [done..|]. by exists (y :: hist), (Some y).
  - split_and!; [done..|]. by exists (y :: hist), o.
  - destruct Ho as [Ho|Ho]; [left|right]; (split_and!; [done..|]); [by exists (y :: hist), o|by exists (y :: hist), (Some y)].
Qed.

(** A change happens as a whole or not at all. *)
Lemma change_says now f d x :
  says d x → readable (f x) →
  let '(d', r) := change name now f d in
  match r with Returns _ => says d' (f x) | Throws _ => says d' x | Dies => says d' x ∨ says d' (f x) end.
Proof.
  intros Hs Hf. rewrite /change /bind_io. pose proof (load_says now d x Hs) as Hl.
  destruct (hf_load name now d) as [d1 [y|e|]]; destruct Hl as [H1 H2]; [|done|by left].
  rewrite (H2 y eq_refl). by apply save_says.
Qed.
End file.

(** ** Reasoning about the program *)

(** [m] started where [P] holds ends where [Q] does. *)
Definition triple {A} (P : Hf → Prop) (m : hf A) (Q : done A → Hf → Prop) : Prop := ∀ w, P w → Q (m w).2 (m w).1.

Lemma triple_bind {A C} (P : Hf → Prop) (m : hf A) (k : A → hf C) (R : done A → Hf → Prop) (Q : done C → Hf → Prop) :
  triple P m R → (∀ a, triple (R (Val a)) (k a) Q) →
  (∀ w e, R (Fails e) w → Q (Fails e) w) → (∀ w, R Panics w → Q Panics w) → (∀ w, R Killed w → Q Killed w) →
  (∀ w, R Waits w → Q Waits w) → triple P (bind_hf m k) Q.
Proof.
  intros Hm Hk H1 H2 H3 H4 w Hw. rewrite /bind_hf. specialize (Hm w Hw).
  destruct (m w) as [w' [a|e| | |]]; simpl in *; auto. by apply Hk.
Qed.

(** A call that keeps [P] whatever it does. *)
Definition invariant {A} (P : Hf → Prop) (m : hf A) : Prop := triple P m (λ _ w, P w).

Lemma invariant_then {A C} (P : Hf → Prop) (m : hf A) (k : A → hf C) (Q : done C → Hf → Prop) :
  invariant P m → (∀ a, triple P (k a) Q) →
  (∀ w, P w → (∀ e, Q (Fails e) w) ∧ Q Panics w ∧ Q Killed w ∧ Q Waits w) → triple P (bind_hf m k) Q.
Proof.
  intros Hm Hk Hq. eapply triple_bind; [exact Hm|exact Hk|..]; intros w; [intros e|..]; intros Hw; by destruct (Hq w Hw) as (? & ? & ? & ?).
Qed.

Lemma invariant_bind {A C} (P : Hf → Prop) (m : hf A) (k : A → hf C) :
  invariant P m → (∀ a, invariant P (k a)) → invariant P (bind_hf m k).
Proof. intros Hm Hk. by apply invariant_then. Qed.

Lemma invariant_ret {A} (P : Hf → Prop) (a : A) : invariant P (ret_hf a).
Proof. by intros w Hw. Qed.
Lemma invariant_result {A E} (P : Hf → Prop) (f : E → HfErr) (r : result A E) : invariant P (from_result f r).
Proof. intros w Hw. by destruct r. Qed.
Lemma invariant_wait {A} (P : Hf → Prop) (o : option A) : invariant P (wait o).
Proof. intros w Hw. rewrite /wait. by destruct o. Qed.
Lemma invariant_try {A} (P : Hf → Prop) (m : hf A) : invariant P m → invariant P (try_hf m).
Proof. intros Hm w Hw. specialize (Hm w Hw). rewrite /try_hf. by destruct (m w) as [w' [a|e| | |]]. Qed.

(** What is on disk, held and judged. *)
Definition facts (w : Hf) : ClientDisk * list bytes * option End := (hf_disk w, hf_held w, hf_verdict w).
Definition stable (P : Hf → Prop) : Prop := ∀ w w', facts w = facts w' → P w → P w'.

Lemma invariant_quiet {A} (P : Hf → Prop) (m : hf A) : stable P → (∀ w, facts (m w).1 = facts w) → invariant P m.
Proof. intros Hs Hq w. by apply Hs. Qed.

Lemma quiet_write b w : facts (write_stdout b w).1 = facts w.
Proof. rewrite /write_stdout. by destruct (head (hf_stdout_ok w)) as [[]|]. Qed.

Section cli.
Context {PM : ProstMessage Envelope} {HO : HashOps} {J : HfJson} {B : Base64} {JL : HfJsonLaws J} {BL : Base64Laws B}.
Variables (name : str).
#[local] Notation file := (Ok name : result str str).

(** *** Changes to the file *)
Definition entry (x : HfState) (url id : str) : option ShellEntry := m ← hs_servers x !! url; m !! id.

Definition on_file (Q : HfState → Hf → Prop) (w : Hf) : Prop := ∃ x, says name (hf_disk w) x ∧ Q x w.

Lemma load_triple (P : Hf → Prop) (Q : HfState → Prop) :
  (∀ w d c, P w → (∀ x, says name (hf_disk w) x → says name d x) → P (with_disk w d c)) →
  (∀ w, P w → ∃ x, says name (hf_disk w) x ∧ Q x) →
  triple P (on_disk file hf_load) (λ r w, P w ∧ match r with Val x => says name (hf_disk w) x ∧ Q x | _ => True end).
Proof.
  intros Hd Hx w Hw. destruct (Hx w Hw) as (x & Hs & HQ). rewrite /on_disk.
  destruct (hf_load name _ (hf_disk w)) as [d r] eqn:E.
  assert (∀ y, says name (hf_disk w) y → says name d y) as Hl.
  { intros y Hy. pose proof (load_says name (default 0 (head (hf_clock w))) _ _ Hy) as H. rewrite E in H. by destruct H. }
  pose proof (load_says name (default 0 (head (hf_clock w))) _ _ Hs) as H. rewrite E in H. destruct H as [H1 H2].
  destruct r as [y|e|]; simpl; (split; [by apply Hd|]); try done. by rewrite (H2 y eq_refl).
Qed.

Lemma change_triple (P : Hf → Prop) (R : done unit → Hf → Prop) (f : HfState → HfState) :
  (∀ w, P w → ∃ x, says name (hf_disk w) x ∧ readable (f x) ∧
     ∀ d c, (says name d (f x) → R (Val ()) (with_disk w d c) ∧ R Killed (with_disk w d c)) ∧
            (says name d x → (∀ e, R (Fails e) (with_disk w d c)) ∧ R Killed (with_disk w d c))) →
  triple P (on_disk file (λ n now, change n now f)) R.
Proof.
  intros HP w Hw. destruct (HP w Hw) as (x & Hs & Hr & Hd). rewrite /on_disk.
  pose proof (change_says name (default 0 (head (hf_clock w))) f _ _ Hs Hr) as Hc.
  destruct (change name _ f (hf_disk w)) as [d [[]|e|]]; simpl in *.
  - by apply Hd.
  - by apply Hd.
  - destruct Hc as [Hc|Hc]; by apply (Hd d (tail (hf_clock w))) in Hc as [? ?].
Qed.

(** *** Entries *)
Lemma entry_store x url id token nm key u i :
  entry (store_entry url id token nm key x) u i =
  if decide ((u, i) = (url, id))
  then Some {| en_token := b64_encode token; en_name := nm;
               en_idempotency_key := match key with Some k => Some (hex (array_bytes k))
                                     | None => e ← entry x url id; en_idempotency_key e end |}
  else entry x u i.
Proof.
  rewrite /entry /store_entry /=. case_decide as Hd.
  - injection Hd as -> ->. rewrite lookup_insert_eq /= lookup_insert_eq. do 2 f_equal.
    destruct key; [done|]. by destruct (hs_servers x !! url).
  - destruct (decide (u = url)) as [->|Hu]; [|by rewrite lookup_insert_ne].
    rewrite lookup_insert_eq /= lookup_insert_ne; [|congruence]. by destruct (hs_servers x !! url).
Qed.

Lemma entry_remove x url id u i :
  entry (remove_entry url id x) u i = if decide ((u, i) = (url, id)) then None else entry x u i.
Proof.
  rewrite /entry /remove_entry /=. case_decide as Hd.
  - injection Hd as -> ->. rewrite lookup_alter_eq. destruct (hs_servers x !! url); [|done]. by rewrite /= lookup_delete_eq.
  - destruct (decide (u = url)) as [->|Hu]; [|by rewrite lookup_alter_ne].
    rewrite lookup_alter_eq. destruct (hs_servers x !! url); [|done]. rewrite /= lookup_delete_ne //. congruence.
Qed.

(** What the file says and what is held and judged. *)
Definition fileinv (G : HfState → Prop) (R : list bytes → option End → Prop) (w : Hf) : Prop :=
  ∃ x, says name (hf_disk w) x ∧ G x ∧ R (hf_held w) (hf_verdict w).

Lemma fileinv_quiet {A} G R (m : hf A) : (∀ w, facts (m w).1 = facts w) → invariant (fileinv G R) m.
Proof. apply invariant_quiet. intros w w' [= Hd Hh Hv]. by rewrite /fileinv Hd Hh Hv. Qed.

Lemma load_inv G R :
  triple (fileinv G R) (on_disk file hf_load) (λ r w, fileinv G R w ∧ match r with Val x => G x ∧ says name (hf_disk w) x | _ => True end).
Proof.
  intros w Hw. apply (load_triple (fileinv G R) G) in Hw as [H1 H2].
  - split; [done|]. destruct (on_disk file hf_load w).2; [|done..]. by destruct H2.
  - clear. intros w d c (x & Hs & Hx) Hd. exists x. split; [by apply Hd|done].
  - clear. intros w (x & Hs & ? & _). by exists x.
Qed.

Lemma load_invariant G R : invariant (fileinv G R) (on_disk file hf_load).
Proof. intros w Hw. by apply load_inv in Hw as [? _]. Qed.

Lemma grant_inv G R o conn : (∀ g x, G x → G (store_grant (o_url o) g x)) → invariant (fileinv G R) (keep_grant file o conn).
Proof.
  intros Hg. rewrite /keep_grant. apply invariant_bind; [|intros; apply invariant_ret]. rewrite /persist_grant.
  destruct (is_empty (sc_grant conn)); [by apply fileinv_quiet|]. apply change_triple. clear -Hg.
  intros w (x & Hs & Hx & Hr). exists x. split; [done|]. split; [by destruct Hs as (_ & ? & _)|]. intros d c.
  split; intros Hd; (split; [try intros ?|]); (eexists; split; [exact Hd|]; split; [|exact Hr]); auto.
Qed.

Lemma connect_net_inv G R url auth : invariant (fileinv G R) (connect_net url auth).
Proof.
  apply invariant_bind; [|intros; apply invariant_wait]. apply fileinv_quiet. intros w. rewrite /next_network.
  by destruct (hf_networks w).
Qed.

Lemma connect_inv G R o : (∀ g x, G x → G (store_grant (o_url o) g x)) → invariant (fileinv G R) (connect file o).
Proof.
  intros Ho. pose proof (connect_net_inv G R (o_url o)) as Hn.
  rewrite /connect. apply invariant_bind; [apply load_invariant|]. intros stored.
  apply invariant_bind. { destruct (_ ≫= _); [|apply invariant_ret]. apply invariant_bind; [done|]. intros; apply invariant_ret. }
  intros [conn|]; [by apply grant_inv|]. apply invariant_bind; [done|]. intros r.
  apply invariant_bind; [apply invariant_result|]. intros conn. by apply grant_inv.
Qed.

(** *** A session's entry *)

(** The recovery key in an entry. *)
Definition key_of (e : ShellEntry) : option (array 16) :=
  text ← en_idempotency_key e;
  match unhex text with Some (Some k) => array_of 16 k | _ => None end.

Section session.
Variables (x0 : HfState) (url : str) (shell_id : bytes) (nm : str) (key : option (array 16)).
#[local] Notation id := (hex shell_id).
#[local] Notation has_key := (match key with Some _ => true | None => false end).

Definition others (x : HfState) : Prop :=
  (∀ u i, (u, i) ≠ (url, id) → entry x u i = entry x0 u i) ∧
  (∀ u, u ≠ url → hs_grants x !! u = hs_grants x0 !! u).
Definition own (x : HfState) (token : bytes) : Prop :=
  ∃ e, entry x url id = Some e ∧ b64_decode (en_token e) = Some token ∧ en_name e = nm ∧ key_of e = key.

(** The verdicts on which an entry may go. *)
Definition final (e : End) : Prop :=
  match e with
  | EndExited _ => True
  | EndForgot e => attach_failure_action e has_key = ForgetAndExit
  | EndRecovery _ => has_key = true
  | _ => False
  end.

(** While the session lives, and when it is over. *)
Definition living (token : bytes) : Hf → Prop :=
  fileinv (λ x, others x ∧ own x token) (λ held verdict, last held = Some token ∧ verdict = None).
Definition over (w : Hf) : Prop :=
  ∃ x, says name (hf_disk w) x ∧ others x ∧
    ((∃ token, token ∈ hf_held w ∧ own x token) ∨ (entry x url id = None ∧ ∃ e, hf_verdict w = Some e ∧ final e)).

Lemma living_over token w : living token w → over w.
Proof.
  intros (x & Hs & [Ho Hw] & Hl & _). exists x. split_and!; [done..|]. left. exists token. split; [|done].
  apply last_Some in Hl as (l & ->). set_solver.
Qed.

Lemma living_quiet {A} token (m : hf A) : (∀ w, facts (m w).1 = facts w) → invariant (living token) m.
Proof. apply fileinv_quiet. Qed.

Lemma others_grant g x : others x → others (store_grant url g x).
Proof. intros [Hx Hg]. split; [done|]. intros u Hu. rewrite /= lookup_insert_ne; [by apply Hg|congruence]. Qed.

Lemma connect_living token o : o_url o = url → invariant (living token) (connect file o).
Proof. intros Ho. apply connect_inv. rewrite Ho. intros g x [H1 H2]. by split; [apply others_grant|]. Qed.

(** The session is the one this entry belongs to. *)
Definition of_entry (s : Session) : Prop :=
  o_url (ss_opts s) = url ∧ ss_shell_id s = shell_id ∧ ss_name s = nm ∧ ss_key s = key.

Definition turned (r : done Turn) (w : Hf) : Prop :=
  match r with
  | Val (Again s) | Val (Attached _ _ s) => of_entry s ∧ living (ss_token s) w
  | _ => over w
  end.

Lemma living_rest token w : living token w → (∀ e, turned (Fails e) w) ∧ turned Panics w ∧ turned Killed w ∧ turned Waits w.
Proof. intros Hw%living_over. by split_and!. Qed.

Lemma living_then {A} token (m : hf A) (k : A → hf Turn) :
  invariant (living token) m → (∀ a, triple (living token) (k a) turned) → triple (living token) (bind_hf m k) turned.
Proof. intros Hm Hk. apply invariant_then; [done..|]. apply living_rest. Qed.

Lemma save_token_triple s token token' : of_entry s →
  triple (living token) (save_token file s token') (λ r w, match r with Val _ => living token' w | _ => over w end).
Proof.
  intros (Hu & Hi & Hn & _). rewrite /save_token.
  eapply (triple_bind _ _ _ (λ r w, match r with
    | Val _ => ∃ x, says name (hf_disk w) x ∧ others x ∧ own x token ∧ token ∈ hf_held w ∧ last (hf_held w) = Some token' ∧ hf_verdict w = None
    | _ => False end)); [|intros []|done..].
  - intros w (x & Hs & [Ho Hw] & Hl & Hv). exists x. cbn. rewrite last_snoc. split_and!; try done.
    apply last_Some in Hl as (l & ->). set_solver.
  - apply change_triple. intros w (x & Hs & [Hx Hg] & Hw & Ht & Hl & Hv). exists x. rewrite Hu Hi Hn.
    split; [done|]. split; [by destruct Hs as (_ & ? & _)|]. intros d c.
    assert (others (store_entry url id token' nm None x) ∧ own (store_entry url id token' nm None x) token') as [Ho' Hw'].
    { split; [split; [|done]|].
      - intros u i Hd. rewrite entry_store decide_False //. by apply Hx.
      - destruct Hw as (e & He & _ & _ & Hk). rewrite /own entry_store decide_True // He /=. eexists. split; [done|].
        by rewrite /= b64_roundtrip. }
    split; intros Hd.
    + assert (living token' (with_disk w d c)) as Hl' by by eexists. split; [done|]. by apply (living_over token').
    + split; [intros e|]; exists x; (split_and!; [done..|]); left; by exists token.
Qed.

Lemma forget_triple s token e : of_entry s → final e → triple (living token) (forget file s e) turned.
Proof.
  intros (Hu & Hi & _) Hf. rewrite /forget.
  eapply (triple_bind _ _ _ (λ r w, match r with
    | Val _ => ∃ x, says name (hf_disk w) x ∧ others x ∧ own x token ∧ token ∈ hf_held w ∧ hf_verdict w = Some e
    | _ => False end)); [|intros []|done..].
  { intros w (x & Hs & [Ho Hw] & Hl & Hv). exists x. cbn. split_and!; try done.
    apply last_Some in Hl as (l & ->). set_solver. }
  eapply (triple_bind _ _ _ (λ _, over)); [|by intros [] w|done..]. apply change_triple.
  intros w (x & Hs & [Hx Hg] & Hw & Ht & Hv). exists x. rewrite Hu Hi. split; [done|].
  split; [by destruct Hs as (_ & ? & _)|]. intros d c.
  assert (says name d (remove_entry url id x) → over (with_disk w d c)) as H1.
  { intros Hd. eexists. split; [exact Hd|]. split.
    - split; [|done]. intros u i Hn. rewrite entry_remove decide_False //. by apply Hx.
    - right. rewrite entry_remove decide_True //. split; [done|]. by exists e. }
  assert (says name d x → over (with_disk w d c)) as H2.
  { intros Hd. exists x. split_and!; [done..|]. left. by exists token. }
  split; intros Hd; (split; [try intros ?|]); auto.
Qed.

Lemma retry_triple s : of_entry s → triple (living (ss_token s)) (retry s) turned.
Proof. intros Hs. apply living_then; [by apply living_quiet|]. by intros [] w. Qed.

Lemma attach_failed_triple s session cols rows e : of_entry s →
  triple (living (ss_token s)) (attach_failed file s session cols rows e) turned.
Proof.
  intros Hs. pose proof Hs as (_ & _ & _ & Hk). rewrite /attach_failed.
  destruct (attach_failure_action e _) eqn:Ea.
  - by apply retry_triple.
  - destruct (ss_key s) as [k|] eqn:Ek; [|intros w; by apply living_over].
    apply living_then; [apply invariant_wait|]. intros [session' [token|err]]; [|apply forget_triple; [done|]].
    + eapply triple_bind; [by apply save_token_triple|..]; done.
    + by rewrite /final -Hk.
  - apply forget_triple; [done|]. by rewrite /final -Hk.
  - intros w. apply living_over.
Qed.

Lemma session_turn_triple s : of_entry s → triple (living (ss_token s)) (session_turn file s) turned.
Proof.
  intros Hs. pose proof Hs as (Hu & _). apply living_then.
  { destruct (ss_conn s); [apply invariant_ret|]. by apply invariant_try, connect_living. }
  intros [session|e]; [|by apply retry_triple]. apply living_then; [by apply living_quiet|]. intros [cols rows].
  apply living_then. { apply living_quiet. intros w. rewrite /next_stream. by destruct (hf_streams w). }
  intros stream. apply living_then; [apply invariant_wait|]. intros [shell|e]; [|by apply attach_failed_triple].
  eapply triple_bind; [by apply save_token_triple|..]; try done. intros [].
  apply living_then; [apply living_quiet, quiet_write|]. intros [] w Hw. by split.
Qed.

Lemma live_turn_triple conn shell s ready : of_entry s → triple (living (ss_token s)) (live_turn file conn shell s ready) turned.
Proof.
  intros Hs. assert (∀ r, triple (living (ss_token s)) (written conn shell s r) turned) as Hw.
  { intros [c [|]] w Hw; by split. }
  destruct ready as [|bytes|]; simpl.
  - apply living_then; [apply invariant_wait|]. intros [c [[data|code|nonce]|e]].
    + apply living_then; [apply living_quiet, quiet_write|]. intros [] w Hl. by split.
    + by apply forget_triple.
    + apply Hw.
    + intros w Hl. by split.
  - destruct (list_find _ bytes) as [[pos ?]|]; [|apply Hw].
    apply living_then; [|intros ? w; apply living_over]. apply living_quiet. intros w. rewrite /slice. by destruct (slice_to _ _).
  - apply living_then; [by apply living_quiet|]. intros [cols rows] w Hl. by split.
Qed.
End session.

(** ** Runs of a session *)
Inductive session_run (s : Session) (w : Hf) : Phase → Hf → Prop :=
  | run_start : session_run s w (PLoop s) w
  | run_turn p1 w1 ready p2 w2 :
      session_run s w p1 w1 → session_step file p1 ready w1 = Some (p2, w2) → session_run s w p2 w2.

Definition session_of (p : Phase) : option Session :=
  match p with PLoop s | PLive _ _ s => Some s | _ => None end.

Lemma run_facts x0 url shell_id nm key s w p w' :
  of_entry url shell_id nm key s → living x0 url shell_id nm key (ss_token s) w → session_run s w p w' →
  match session_of p with
  | Some s' => of_entry url shell_id nm key s' ∧ living x0 url shell_id nm key (ss_token s') w'
  | None => over x0 url shell_id nm key w'
  end.
Proof.
  intros Hs Hl. induction 1 as [|p1 w1 ready p2 w2 _ IH Hstep]; [done|].
  assert (∀ d : done Turn, turned x0 url shell_id nm key d w2 → phase_of d = Some p2 →
    match session_of p2 with
    | Some s' => of_entry url shell_id nm key s' ∧ living x0 url shell_id nm key (ss_token s') w2
    | None => over x0 url shell_id nm key w2 end) as Hd.
  { intros d Hd Hp. destruct d as [[| |]|e| | |]; simplify_eq/=; done. }
  destruct p1 as [s1|conn shell s1|?|?| |]; simpl in IH, Hstep; try done; destruct IH as [H1 H2].
  - pose proof (session_turn_triple x0 url shell_id nm key s1 H1 w1 H2) as Ht.
    destruct (session_turn file s1 w1) as [w3 d]. apply bind_Some in Hstep as (p3 & Hp & [= -> ->]). by apply (Hd d).
  - pose proof (live_turn_triple x0 url shell_id nm key conn shell s1 ready H1 w1 H2) as Ht.
    destruct (live_turn file conn shell s1 ready w1) as [w3 d]. apply bind_Some in Hstep as (p3 & Hp & [= -> ->]). by apply (Hd d).
Qed.

(** ** From the command line to the session *)
Section start.
Variable x0 : HfState.

(** Identifiers are stored as [hex] writes them. *)
Definition canonical (x : HfState) : Prop := ∀ u i e, entry x u i = Some e → ∃ b, i = hex b.
Hypothesis Hcan : canonical x0.

Definition same_entries (url : str) (x : HfState) : Prop :=
  (∀ u i, entry x u i = entry x0 u i) ∧ ∀ u, u ≠ url → hs_grants x !! u = hs_grants x0 !! u.
Definition untouched (held : list bytes) (verdict : option End) : Prop := held = [] ∧ verdict = None.
Definition begun (s : Session) (w : Hf) : Prop :=
  living x0 (o_url (ss_opts s)) (ss_shell_id s) (ss_name s) (ss_key s) (ss_token s) w.
Definition begins (r : done Session) (w : Hf) : Prop := match r with Val s => begun s w | _ => True end.

Lemma same_entries_grant url g x : same_entries url x → same_entries url (store_grant url g x).
Proof. intros [Hx Hg]. split; [done|]. intros u Hu. rewrite /= lookup_insert_ne; [by apply Hg|congruence]. Qed.

Lemma start_then {A} url (m : hf A) (k : A → hf Session) :
  invariant (fileinv (same_entries url) untouched) m →
  (∀ a, triple (fileinv (same_entries url) untouched) (k a) begins) →
  triple (fileinv (same_entries url) untouched) (bind_hf m k) begins.
Proof. intros Hm Hk. by apply invariant_then. Qed.

(** A session begins where its entry is on disk. *)
Lemma run_session_begins o conn shell_id token nm key :
  triple (fileinv (λ x, others x0 (o_url o) shell_id x ∧ own (o_url o) shell_id nm key x token) untouched)
    (run_session o conn shell_id token nm key) begins.
Proof. intros w (x & Hs & Hx & [Hh Hv]). exists x. cbn. by rewrite Hh. Qed.

Lemma cmd_open_begins o command : triple (fileinv (same_entries (o_url o)) untouched) (cmd_open file o command) begins.
Proof.
  apply start_then; [apply connect_inv; intros g x; apply same_entries_grant|]. intros conn.
  apply start_then; [by apply fileinv_quiet|]. intros [cols rows].
  apply start_then; [by apply fileinv_quiet|]. intros key.
  apply start_then; [apply invariant_wait|]. intros [conn' r].
  apply start_then; [apply invariant_result|]. intros [shell_id token].
  set (nm := default (lit "shell") command).
  eapply (triple_bind _ _ _ (λ r w, match r with Val _ =>
      fileinv (λ x, others x0 (o_url o) shell_id x ∧ own (o_url o) shell_id nm (Some key) x token) untouched w | _ => True end));
    [|intros []|done..].
  - apply change_triple. intros w (x & Hs & [Hx Hg] & Hu). exists x. split; [done|]. split; [by destruct Hs as (_ & ? & _)|].
    intros d c. split; [|done]. intros Hd. split; [|done]. eexists. split; [exact Hd|]. split; [|done]. split; [split; [|done]|].
    + intros u i Hn. by rewrite entry_store decide_False.
    + rewrite /own entry_store decide_True //. eexists. split; [done|]. rewrite b64_roundtrip. split_and!; [done..|].
      by rewrite /key_of /= store_unhex_hex array_of_bytes.
  - apply invariant_then; [|intros; apply run_session_begins|done]. apply fileinv_quiet.
    intros w. rewrite /slice. by destruct (slice_to _ _).
Qed.

Lemma attach_entry_begins o b e : entry x0 (o_url o) (hex b) = Some e →
  triple (fileinv (same_entries (o_url o)) untouched) (attach_entry file o (hex b) e) begins.
Proof.
  intros He. rewrite /attach_entry.
  assert (∀ text, unhex_hf text = (λ w, match unhex text with Some r => (w, Val r) | None => (w, Panics) end)) as Hu by done.
  rewrite {1}/bind_hf {1}Hu store_unhex_hex. change (triple (fileinv (same_entries (o_url o)) untouched)
    (hf! token <- from_result HText (ok_or (b64_decode (en_token e)) (lit "invalid base64"));
     hf! key <- match en_idempotency_key e with
                | Some text => hf! k <- unhex_hf text; ret_hf (k ← k; array_of 16 k)
                | None => ret_hf None
                end;
     hf! conn <- connect file o;
     run_session o conn b token (en_name e) key) begins).
  destruct (b64_decode (en_token e)) as [token|] eqn:Et; [|by intros w]. cbn [ok_or from_result].
  assert (∀ key, key_of e = key → triple (fileinv (same_entries (o_url o)) untouched)
    (hf! conn <- connect file o; run_session o conn b token (en_name e) key) begins) as Hrun.
  { intros key Hk. apply start_then; [apply connect_inv; intros g x; apply same_entries_grant|]. intros conn w (x & Hs & [Hx Hg] & Hv).
    apply run_session_begins. exists x. split; [done|]. split; [|done]. split; [split; [|done]|].
    - intros u i _. apply Hx.
    - exists e. by rewrite Hx. }
  destruct (en_idempotency_key e) as [text|] eqn:Ek.
  - destruct (unhex text) as [k|] eqn:Ex; last first.
    { intros w Hw. by rewrite /bind_hf /ret_hf /unhex_hf Ex. }
    intros w Hw. apply (Hrun (k ← k; array_of 16 k)) in Hw; [|by rewrite /key_of Ek /= Ex; destruct k].
    revert Hw. by rewrite /bind_hf /ret_hf /unhex_hf Ex.
  - apply (Hrun None). by rewrite /key_of Ek.
Qed.

Lemma triple_pure {A} (φ : Prop) (P : Hf → Prop) (m : hf A) (Q : done A → Hf → Prop) :
  (φ → triple P m Q) → triple (λ w, P w ∧ φ) m Q.
Proof. intros H w [Hw Hp]. by apply H. Qed.

Lemma cmd_attach_begins o prefix : triple (fileinv (same_entries (o_url o)) untouched) (cmd_attach file o prefix) begins.
Proof.
  eapply (triple_bind _ _ _ (λ r w, fileinv (same_entries (o_url o)) untouched w ∧
    match r with Val x => same_entries (o_url o) x | _ => True end)); [|intros stored|done..].
  { intros w Hw. apply load_inv in Hw as [? H]. split; [done|]. destruct (on_disk file hf_load w).2; [|done..]. by destruct H. }
  apply triple_pure. intros [Hst _]. destruct (hs_servers stored !! o_url o) as [shells|] eqn:Esh; [|by intros w].
  cbn [ok_or from_result].
  change (triple (fileinv (same_entries (o_url o)) untouched)
    (match filter (λ e, starts_with prefix e.1 = true) (map_to_list shells) with
     | [] => fail_hf (HText (lit "no stored shell matches"))
     | [(id, entry)] => attach_entry file o id entry
     | multiple => hf! _ <- slices multiple.*1; fail_hf (HText (lit "ambiguous prefix"))
     end) begins).
  destruct (filter _ (map_to_list shells)) as [|[i e] [|]] eqn:Ef; [by intros w| |].
  - assert ((i, e) ∈ filter (λ e, starts_with prefix e.1 = true) (map_to_list shells)) as Hin by (rewrite Ef; set_solver).
    apply list_elem_of_filter in Hin as [_ Hin]. apply elem_of_map_to_list in Hin.
    assert (entry x0 (o_url o) i = Some e) as He by by rewrite -Hst /entry Esh.
    destruct (Hcan _ _ _ He) as [b ->]. by apply attach_entry_begins.
  - intros w _. rewrite /bind_hf. by destruct (slices _ w) as [? [[]|?| | |]].
Qed.

Lemma main_begins args w w1 s :
  says name (hf_disk w) x0 → hf_held w = [] → hf_verdict w = None →
  main file args w = (w1, Val (Interactive s)) → begun s w1.
Proof.
  intros Hs Hh Hv. assert (∀ url, fileinv (same_entries url) untouched w) as Hw by (intros url; by exists x0).
  rewrite /main. destruct (global_flags args opts_default) as [[o rest]|]; [|done].
  destruct (command_of rest) as [c|] eqn:Ec; rewrite /bind_hf {1}/from_result {1}/ret_hf Ec; [|done].
  rewrite /from_result {1}/ret_hf. destruct c as [|command|pre|pre].
  - destruct (cmd_list file o w) as [? [[]|?| | |]]; intros H; discriminate H.
  - pose proof (cmd_open_begins o command w (Hw _)) as Hb. destruct (cmd_open file o command w) as [? [?|?| | |]]; try (intros H; discriminate H).
    by intros [= <- <-].
  - pose proof (cmd_attach_begins o pre w (Hw _)) as Hb. destruct (cmd_attach file o pre w) as [? [?|?| | |]]; try (intros H; discriminate H).
    by intros [= <- <-].
  - destruct (cmd_terminate file o pre w) as [? [[]|?| | |]]; intros H; discriminate H.
Qed.
End start.

End cli.

(** * Moving to the desktop client *)
Section import.
Context {J : HfJson} {JL : HfJsonLaws J} {SJ : StoreJson} {SB : Base64} {SJL : StoreJsonLaws SJ}.

(** The desktop client's reading of the file: it knows neither the version nor
    anything else. *)
Definition v1_shell (e : ShellEntry) : V1Shell := {|
  v1_token := en_token e; v1_name := en_name e; v1_idempotency_key := en_idempotency_key e |}.
Definition v1_of (x : HfState) : V1State := {|
  v1_servers := (λ m : gmap str ShellEntry, v1_shell <$> m) <$> hs_servers x; v1_grants := hs_grants x |}.

(** Distinct keys: every address gets a record. *)
Lemma import_loop_other v1 urls fresh n servers k :
  k ∉ map (λ i, new_server_key (fresh i)) (seq n (length urls)) →
  import_loop v1 urls fresh n servers !! k = servers !! k.
Proof.
  revert n servers. induction urls as [|url urls IH]; intros n servers Hk; [done|]. simpl in *.
  rewrite IH; [|set_solver]. rewrite lookup_insert_ne //. set_solver.
Qed.

Lemma import_loop_lookup v1 urls fresh n servers url :
  NoDup (map (λ i, new_server_key (fresh i)) (seq n (length urls))) → url ∈ urls →
  ∃ k, import_loop v1 urls fresh n servers !! k = Some (import_record v1 url).
Proof.
  revert n servers. induction urls as [|u urls IH]; intros n servers Hn Hu; [set_solver|]. simpl in *.
  apply NoDup_cons in Hn as [Hk Hn]. apply elem_of_cons in Hu as [->|Hu]; [|by apply IH].
  exists (new_server_key (fresh n)). by rewrite import_loop_other // lookup_insert_eq.
Qed.

Lemma import_urls_elem v1 url : url ∈ import_urls v1 ↔ is_Some (v1_servers v1 !! url) ∨ is_Some (v1_grants v1 !! url).
Proof. rewrite /import_urls merge_sort_Permutation elem_of_elements elem_of_union !elem_of_dom. done. Qed.

(** The records of the addresses are distinct. *)
Definition fresh_keys (fresh : nat → array 8) (n : nat) : Prop := NoDup (map (λ i, new_server_key (fresh i)) (seq 0 n)).

(** C29: the first start of the desktop client over the file the command-line client
    left: when the import succeeds, every shell of every server is in the store,
    under its server's address, with the same token, name and recovery key, and
    without a grant. *)
Theorem hf_state_imported name x d st fresh d' st' n u id e :
  v1_parse (hf_json x) = Some (v1_of x) →
  says name d x → sd_servers (data st) = ∅ → fresh_keys fresh (length (import_urls (v1_of x))) →
  import_v1 st name fresh d = (d', Returns (st', n)) → entry x u id = Some e → names d !! name ≠ None →
  ∃ k r, sd_servers (data st') !! k = Some r ∧ sv_url r = u ∧ sv_grant r = None ∧
    sv_shells r !! id = Some {| sr_token := en_token e; sr_idempotency_key := en_idempotency_key e;
                                sr_name := en_name e; sr_last_attached_at_ms := 0 |}.
Proof.
  intros Hv (G & Hr & hist & o & W & Hh & Hval) He Hf Him Hent Hne. rewrite /import_v1 in Him.
  destruct (read_bounded_cases name d) as (s & r & Er & Hb & Hn). rewrite Er in Him.
  destruct r as [b|err|]; [|case_bool_decide as Hnf; [|done]; subst err; by specialize (Hn eq_refl G)|done].
  destruct (Hb b eq_refl) as (_ & i & Hi & ->). destruct o as [y|]; [|done]. simpl in Hh, Hval. subst y.
  destruct Hh as (j & b & Hj & -> & Hc). assert (j = i) as -> by congruence.
  rewrite /inode_content Hc /import_text Hv He bool_decide_true // in Him. cbn [negb content from_option] in Him.
  rewrite /entry in Hent. destruct (hs_servers x !! u) as [m|] eqn:Eu; [|done]. cbn in Hent.
  assert (u ∈ import_urls (v1_of x)) as Hu.
  { apply import_urls_elem. left. by rewrite /= lookup_fmap Eu. }
  destruct (is_empty (import_urls (v1_of x))) eqn:Ee.
  { destruct (import_urls (v1_of x)); [set_solver|done]. }
  rewrite /commit /bind_io in Him. destruct (save st _ _) as [? [[]|?|]]; try done. injection Him as <- <- <-.
  destruct (import_loop_lookup (v1_of x) (import_urls (v1_of x)) fresh 0 ∅ u Hf Hu) as [k Hk].
  exists k, (import_record (v1_of x) u). split_and!; try done. by rewrite /= lookup_fmap Eu /= lookup_fmap lookup_fmap Hent.
Qed.
End import.
