(* ===== verification/ClientPump.v ===== *)
(** * The pumps of an attachment

    [crates/client-core/src/shell.rs]: a writer task puts commands and pongs on
    the attachment's stream, a reader task takes what the server sends to the
    GUI's output sink, to the waiting history requests and to the store. Their
    turns interleave in any order. *)
From S2P Require Import Prelude Protocol Framing Ids ClientStore ClientApi ClientCore.

Definition MAX_PENDING_HISTORY : Z := 4.
Definition PONG_QUEUE : Z := 8.

Record HistoryPage := { hp_lines : list str; hp_first_line_id : Z; hp_truncated : bool }.

(** [pm_pump] is the writer: its stream, queue and whether it runs. [pm_history]
    are the history requests awaiting an answer, by reply sender; [pm_output]
    what the GUI was sent, [pm_sink] whether it still listens; [pm_senders]
    whether anything still holds the writer's handle. *)
Record Pumps := {
  pm_pump : Pump;
  pm_senders : bool;
  pm_pongs : list Z;
  pm_history : list nat;
  pm_reader : bool;
  pm_sink : bool;
  pm_output : list bytes;
  pm_answers : list (nat * result HistoryPage str);
}.

Definition pumps_new (c : Chan) : Pumps := {|
  pm_pump := {| pu_chan := c; pu_queue := []; pu_alive := true |}; pm_senders := true;
  pm_pongs := []; pm_history := []; pm_reader := true; pm_sink := true; pm_output := [];
  pm_answers := [] |}.

Definition with_pump (p : Pumps) (w : Pump) : Pumps := {|
  pm_pump := w; pm_senders := pm_senders p; pm_pongs := pm_pongs p; pm_history := pm_history p;
  pm_reader := pm_reader p; pm_sink := pm_sink p; pm_output := pm_output p;
  pm_answers := pm_answers p |}.
Definition with_pongs (p : Pumps) (n : list Z) : Pumps := {|
  pm_pump := pm_pump p; pm_senders := pm_senders p; pm_pongs := n; pm_history := pm_history p;
  pm_reader := pm_reader p; pm_sink := pm_sink p; pm_output := pm_output p;
  pm_answers := pm_answers p |}.
Definition with_history (p : Pumps) (h : list nat) (a : list (nat * result HistoryPage str)) : Pumps := {|
  pm_pump := pm_pump p; pm_senders := pm_senders p; pm_pongs := pm_pongs p; pm_history := h;
  pm_reader := pm_reader p; pm_sink := pm_sink p; pm_output := pm_output p; pm_answers := a |}.
Definition with_output (p : Pumps) (o : list bytes) : Pumps := {|
  pm_pump := pm_pump p; pm_senders := pm_senders p; pm_pongs := pm_pongs p; pm_history := pm_history p;
  pm_reader := pm_reader p; pm_sink := pm_sink p; pm_output := o; pm_answers := pm_answers p |}.
Definition reader_ends (p : Pumps) : Pumps := {|
  pm_pump := pm_pump p; pm_senders := pm_senders p; pm_pongs := pm_pongs p; pm_history := pm_history p;
  pm_reader := false; pm_sink := pm_sink p; pm_output := pm_output p; pm_answers := pm_answers p |}.
Definition set_chan (p : Pumps) (c : Chan) : Pumps :=
  with_pump p {| pu_chan := c; pu_queue := pu_queue (pm_pump p); pu_alive := pu_alive (pm_pump p) |}.
Definition set_queue (p : Pumps) (q : list WriterCmd) : Pumps :=
  with_pump p {| pu_chan := pu_chan (pm_pump p); pu_queue := q; pu_alive := pu_alive (pm_pump p) |}.
Definition writer_ends (p : Pumps) : Pumps :=
  with_pump p {| pu_chan := pu_chan (pm_pump p); pu_queue := pu_queue (pm_pump p); pu_alive := false |}.

Section pumps.
Context {PM : ProstMessage Envelope} {J : StoreJson} {B : Base64}.

(** ** The writer *)

(** A write; the task ends when it fails. *)
Definition write (p : Pumps) (send : Chan → Chan * result unit ClientErr) : Pumps :=
  match send (pu_chan (pm_pump p)) with
  | (c, Ok _) => set_chan p c
  | (c, Err _) => writer_ends (set_chan p c)
  end.

Definition writer_cmd (p : Pumps) (cmd : WriterCmd) : Pumps :=
  match cmd with
  | WInput data => write p (λ c, input c data)
  | WResize cols rows => write p (λ c, resize c cols rows)
  | WHistory before_line_id max_lines reply =>
      if MAX_PENDING_HISTORY <=? len (pm_history p)
      then with_history p (pm_history p)
             (pm_answers p ++ [(reply, Err (lit "too many pending history requests"))])
      else write (with_history p (pm_history p ++ [reply]) (pm_answers p))
             (λ c, request_history c before_line_id max_lines)
  | WDetach => writer_ends (set_chan p (detach (pu_chan (pm_pump p))).1)
  end.

(** One turn of the [select!]: the command or the pong branch wins. [None]: that
    branch is not ready. *)
Definition writer_turn (p : Pumps) (pong_first : bool) : option Pumps :=
  if negb (pu_alive (pm_pump p)) then None
  else if pong_first then
    match pm_pongs p with
    | nonce :: rest => Some (write (with_pongs p rest) (λ c, pong c nonce))
    | [] => if pm_reader p then None else Some (writer_ends p)
    end
  else
    match pu_queue (pm_pump p) with
    | cmd :: q => Some (writer_cmd (set_queue p q) cmd)
    | [] => if pm_senders p then None else Some (writer_ends p)
    end.

(** ** The reader *)

(** [ctx_pop] and the answer. *)
Definition pop_answer (p : Pumps) (page : HistoryPage) : Pumps :=
  match pm_history p with
  | reply :: rest => with_history p rest (pm_answers p ++ [(reply, Ok page)])
  | [] => p
  end.

Variables (key shell_hex : str).

(** What becomes of one message; [Waits] while the pong queue is full. *)
Definition on_envelope (p : Pumps) (env : Envelope) : sup Pumps :=
  match env_message env with
  | Some (MsgTerminalOutput data) =>
      ret_sup (if pm_sink p then with_output p (pm_output p ++ [data]) else reader_ends p)
  | Some (MsgPing nonce) =>
      if negb (pu_alive (pm_pump p)) then ret_sup (reader_ends p)
      else if len (pm_pongs p) <? PONG_QUEUE then ret_sup (with_pongs p (pm_pongs p ++ [nonce]))
      else λ w, (w, Waits)
  | Some (MsgHistoryChunk chunk) =>
      ret_sup (pop_answer p {| hp_lines := hc_lines chunk; hp_first_line_id := hc_first_line_id chunk;
                               hp_truncated := hc_truncated_by_eviction chunk |})
  | Some (MsgHistoryEnd _) =>
      ret_sup (pop_answer p {| hp_lines := []; hp_first_line_id := 0; hp_truncated := false |})
  | Some (MsgShellExited e) =>
      let! _ := store_op (λ st, remove_shell st key shell_hex) in
      let! _ := emit_shell_state shell_hex ExitedState (Some (se_exit_code e)) in
      ret_sup (reader_ends p)
  | Some (MsgError e) =>
      if err_code e =? error_code_i32 ErrTooSlow then
        let! _ := emit_shell_state shell_hex Detached None in ret_sup (reader_ends p)
      else ret_sup p
  | _ => ret_sup p
  end.

(** One turn of the reader: the message it took, if any. *)
Definition reader_turn (p : Pumps) : sup (Pumps * option Envelope) :=
  if negb (pm_reader p) then λ w, (w, Waits)
  else
    let! r := from_wait (recv_env (pu_chan (pm_pump p))) in
    let '(c, r) := r in
    let p := set_chan p c in
    match r with
    | Err _ =>
        let! _ := emit_shell_state shell_hex Detached None in ret_sup (reader_ends p, None)
    | Ok env => let! p := on_envelope p env in ret_sup (p, Some env)
    end.

(** ** The supervisor and the GUI *)

(** A command put into the queue; refused when the writer is gone. *)
Definition enqueue (p : Pumps) (cmd : WriterCmd) : option Pumps :=
  if pu_alive (pm_pump p) && pm_senders p then Some (set_queue p (pu_queue (pm_pump p) ++ [cmd])) else None.

Definition drop_handle (p : Pumps) : Pumps := {|
  pm_pump := pm_pump p; pm_senders := false; pm_pongs := pm_pongs p; pm_history := pm_history p;
  pm_reader := pm_reader p; pm_sink := pm_sink p; pm_output := pm_output p;
  pm_answers := pm_answers p |}.
Definition close_sink (p : Pumps) : Pumps := {|
  pm_pump := pm_pump p; pm_senders := pm_senders p; pm_pongs := pm_pongs p; pm_history := pm_history p;
  pm_reader := pm_reader p; pm_sink := false; pm_output := pm_output p; pm_answers := pm_answers p |}.

End pumps.
