(* ===== verification/ClientPumpProps.v ===== *)
(** * The pumps of an attachment: properties

    Input goes out in order, output comes in in order, every ping is answered by
    its own pong, and every history request gets at most one answer, in any
    interleaving of the two tasks with the supervisor and the GUI. *)
From S2P Require Import Prelude Protocol Framing Ids ClientStore ClientApi ClientCore ClientPump.

Section props.
Context {PM : ProstMessage Envelope} {J : StoreJson} {B : Base64}.
Variables (key shell_hex : str).

(** ** Traces *)

(** Everything that can happen to the pumps of one attachment; the lists are the
    commands put into the queue and the messages the reader took. *)
Inductive pump_trace (c0 : Chan) : Pumps → list WriterCmd → list Envelope → Prop :=
  | pt_new : pump_trace c0 (pumps_new c0) [] []
  | pt_enqueue p cmds seen cmd p' :
      pump_trace c0 p cmds seen → enqueue p cmd = Some p' → pump_trace c0 p' (cmds ++ [cmd]) seen
  | pt_writer p cmds seen first p' :
      pump_trace c0 p cmds seen → writer_turn p first = Some p' → pump_trace c0 p' cmds seen
  | pt_reader p cmds seen w w' p' o :
      pump_trace c0 p cmds seen → reader_turn key shell_hex p w = (w', Val (p', o)) →
      pump_trace c0 p' cmds (seen ++ option_list o)
  | pt_drop p cmds seen : pump_trace c0 p cmds seen → pump_trace c0 (drop_handle p) cmds seen
  | pt_close p cmds seen : pump_trace c0 p cmds seen → pump_trace c0 (close_sink p) cmds seen.

Definition output_of (e : Envelope) : option bytes :=
  match env_message e with Some (MsgTerminalOutput d) => Some d | _ => None end.
Definition ping_of (e : Envelope) : option Z :=
  match env_message e with Some (MsgPing n) => Some n | _ => None end.
Definition pong_of (e : Envelope) : option Z :=
  match env_message e with Some (MsgPong n) => Some n | _ => None end.
Definition reply_of (c : WriterCmd) : option nat :=
  match c with WHistory _ _ reply => Some reply | _ => None end.

(** Input, resizes and detaching, as commands and as messages. *)
Definition control_of (c : WriterCmd) : option Msg :=
  match c with
  | WInput data => Some (MsgTerminalInput data)
  | WResize cols rows => Some (MsgTerminalResize cols rows)
  | WDetach => Some MsgDetachShell
  | WHistory _ _ _ => None
  end.
Definition control_msg (e : Envelope) : option Msg :=
  match env_message e with
  | Some (MsgTerminalInput d) => Some (MsgTerminalInput d)
  | Some (MsgTerminalResize c r) => Some (MsgTerminalResize c r)
  | Some MsgDetachShell => Some MsgDetachShell
  | _ => None
  end.

(** ** The invariant *)
Record pumps_ok (c0 : Chan) (p : Pumps) (handled : list WriterCmd) (seen sent : list Envelope)
    (frames : list bytes) : Prop := {
  po_wire : ch_out (pu_chan (pm_pump p)) = ch_out c0 ++ concat frames;
  po_frames : Forall2 (λ e b, encode_frame e FRAME_BYTES_DEFAULT = Ok b) sent frames;
  po_order : omap control_msg sent `prefix_of` omap control_of handled;
  po_order_alive : pu_alive (pm_pump p) = true → omap control_msg sent = omap control_of handled;
  po_pong : omap pong_of sent `prefix_of` omap ping_of seen;
  po_pong_alive : pu_alive (pm_pump p) = true → omap pong_of sent ++ pm_pongs p = omap ping_of seen;
  po_output : pm_output p `prefix_of` omap output_of seen;
  po_output_alive : pm_reader p = true → pm_output p = omap output_of seen;
  po_answers : (pm_answers p).*1 ++ pm_history p ≡ₚ omap reply_of handled;
  po_history : len (pm_history p) ≤ MAX_PENDING_HISTORY;
  po_pongs : len (pm_pongs p) ≤ PONG_QUEUE;
}.

(** What a write does: the frame goes out, or the writer ends. *)
Lemma write_spec p env :
  let p' := write p (λ c, send_env c env) in
  pm_senders p' = pm_senders p ∧ pm_pongs p' = pm_pongs p ∧ pm_history p' = pm_history p ∧
  pm_reader p' = pm_reader p ∧ pm_output p' = pm_output p ∧ pm_answers p' = pm_answers p ∧
  pu_queue (pm_pump p') = pu_queue (pm_pump p) ∧
  ((∃ b, encode_frame env FRAME_BYTES_DEFAULT = Ok b ∧
      ch_out (pu_chan (pm_pump p')) = ch_out (pu_chan (pm_pump p)) ++ b ∧
      pu_alive (pm_pump p') = pu_alive (pm_pump p)) ∨
   (ch_out (pu_chan (pm_pump p')) = ch_out (pu_chan (pm_pump p)) ∧ pu_alive (pm_pump p') = false)).
Proof.
  rewrite /write /send_env. destruct (encode_frame env _) as [b|e] eqn:Ee; simpl; [|by split_and!; auto].
  rewrite /write_stream. destruct (head _) as [[e|]|]; simpl; split_and!; eauto 6.
Qed.

Lemma omap_snoc {A C} (f : A → option C) l x : omap f (l ++ [x]) = omap f l ++ option_list (f x).
Proof. rewrite omap_app /=. by destruct (f x). Qed.

Lemma concat_snoc {A} (ls : list (list A)) l : concat (ls ++ [l]) = concat ls ++ l.
Proof. by rewrite concat_app /= app_nil_r. Qed.

Lemma prefix_snoc {A} (l k m : list A) : l `prefix_of` k → l `prefix_of` k ++ m.
Proof. intros [x ->]. rewrite -app_assoc. apply prefix_app_r. done. Qed.

(** Writing one message, after its cause was taken from the queue or from the
    pongs. *)
Lemma write_ok c0 p handled seen sent frames env h' :
  pumps_ok c0 p handled seen sent frames → pu_alive (pm_pump p) = true →
  omap control_of h' = omap control_of handled ++ option_list (control_msg env) →
  omap reply_of h' = omap reply_of handled → pong_of env = None →
  ∃ sent' frames', pumps_ok c0 (write p (λ c, send_env c env)) h' seen sent' frames'.
Proof.
  intros [Wi Fr Or Oa Po Pa Ou Oua An Hi Pn] Ha Hc Hr Hp. specialize (Oa Ha). specialize (Pa Ha).
  destruct (write_spec p env) as (_ & E1 & E2 & E3 & E4 & E5 & _ & [(b & Eb & Eo & El)|[Eo El]]).
  - exists (sent ++ [env]), (frames ++ [b]). split; rewrite ?E1 ?E2 ?E3 ?E4 ?E5 ?omap_snoc ?Hp ?app_nil_r ?Hr //.
    + by rewrite Eo Wi concat_snoc app_assoc.
    + apply Forall2_app; [done|]. by constructor.
    + by rewrite Hc Oa.
    + intros _. by rewrite Hc Oa.
  - exists sent, frames. split; rewrite ?E1 ?E2 ?E3 ?E4 ?E5 ?Hr ?El //.
    + by rewrite Eo.
    + rewrite Hc. by apply prefix_snoc.
Qed.

Lemma queue_ok c0 p q handled seen sent frames :
  pumps_ok c0 p handled seen sent frames → pumps_ok c0 (set_queue p q) handled seen sent frames.
Proof. by intros []. Qed.

Lemma writer_ends_ok c0 p handled seen sent frames :
  pumps_ok c0 p handled seen sent frames → pumps_ok c0 (writer_ends p) handled seen sent frames.
Proof. by intros []. Qed.

Lemma writer_cmd_ok c0 p cmd handled seen sent frames :
  pumps_ok c0 p handled seen sent frames → pu_alive (pm_pump p) = true →
  ∃ sent' frames', pumps_ok c0 (writer_cmd p cmd) (handled ++ [cmd]) seen sent' frames'.
Proof.
  intros I Ha. destruct cmd as [data|cols rows|before lines reply|]; simpl.
  - by eapply write_ok; [done..| |rewrite omap_snoc /= ?app_nil_r|]; rewrite ?omap_snoc.
  - by eapply write_ok; [done..| |rewrite omap_snoc /= ?app_nil_r|]; rewrite ?omap_snoc.
  - destruct I as [Wi Fr Or Oa Po Pa Ou Oua An Hi Pn]. case_match eqn:El; to_prop.
    + exists sent, frames. split; rewrite ?omap_snoc /= ?app_nil_r //.
      rewrite fmap_app -An /=. solve_Permutation.
    + eapply (write_ok _ _ (handled ++ [WHistory before lines reply]));
        [|done|by rewrite app_nil_r|done|done].
      split; rewrite ?omap_snoc /= ?app_nil_r //.
      * rewrite -An. solve_Permutation.
      * rewrite len_app len_cons len_nil. lia.
  - destruct (write_ok c0 p handled seen sent frames (plain MsgDetachShell) (handled ++ [WDetach]) I Ha)
      as (sent' & frames' & I'); [by rewrite omap_snoc|by rewrite omap_snoc app_nil_r|done|].
    exists sent', frames'. apply writer_ends_ok in I'. revert I'. rewrite /write /detach.
    by destruct (send_env _ _) as [c [?|?]].
Qed.

Lemma writer_pong_ok c0 p nonce rest handled seen sent frames :
  pumps_ok c0 p handled seen sent frames → pu_alive (pm_pump p) = true → pm_pongs p = nonce :: rest →
  ∃ sent' frames', pumps_ok c0 (write (with_pongs p rest) (λ c, pong c nonce)) handled seen sent' frames'.
Proof.
  intros [Wi Fr Or Oa Po Pa Ou Oua An Hi Pn] Ha Hn. specialize (Oa Ha). specialize (Pa Ha).
  rewrite Hn in Pa Pn. rewrite len_cons in Pn.
  destruct (write_spec (with_pongs p rest) (plain (MsgPong nonce)))
    as (_ & E1 & E2 & E3 & E4 & E5 & _ & [(b & Eb & Eo & El)|[Eo El]]).
  - exists (sent ++ [plain (MsgPong nonce)]), (frames ++ [b]).
    split; rewrite /pong ?E1 ?E2 ?E3 ?E4 ?E5 ?omap_snoc /= ?app_nil_r //.
    + by rewrite Eo /= Wi concat_snoc app_assoc.
    + apply Forall2_app; [done|]. by constructor.
    + rewrite -Pa. apply prefix_app, (prefix_app_r [_] [_]). done.
    + intros _. by rewrite -Pa -app_assoc.
    + lia.
  - exists sent, frames. split; rewrite /pong ?E1 ?E2 ?E3 ?E4 ?E5 ?El /= //; [by rewrite Eo|lia].
Qed.

Lemma writer_turn_ok c0 p first p' handled seen sent frames :
  pumps_ok c0 p handled seen sent frames → writer_turn p first = Some p' →
  ∃ handled' sent' frames',
    handled' ++ pu_queue (pm_pump p') = handled ++ pu_queue (pm_pump p) ∧
    pumps_ok c0 p' handled' seen sent' frames'.
Proof.
  intros I. rewrite /writer_turn. destruct (pu_alive (pm_pump p)) eqn:Ha; simpl; [|done]. destruct first.
  - destruct (pm_pongs p) as [|nonce rest] eqn:Hn.
    + destruct (pm_reader p); [done|]. intros [= <-]. exists handled, sent, frames.
      split; [done|by apply writer_ends_ok].
    + intros [= <-]. destruct (writer_pong_ok _ _ _ _ _ _ _ _ I Ha Hn) as (s & f & I').
      exists handled, s, f. split; [|done].
      f_equal. apply (write_spec (with_pongs p rest) (plain (MsgPong nonce))).
  - destruct (pu_queue (pm_pump p)) as [|cmd q] eqn:Hq.
    + destruct (pm_senders p); [done|]. intros [= <-]. exists handled, sent, frames.
      split; [by rewrite /= Hq|by apply writer_ends_ok].
    + intros [= <-]. destruct (writer_cmd_ok c0 (set_queue p q) cmd handled seen sent frames) as (s & f & I');
        [by apply queue_ok|done|]. exists (handled ++ [cmd]), s, f. split; [|done].
      rewrite -app_assoc. f_equal. simpl. f_equal. clear. destruct cmd; simpl.
      * apply (write_spec (set_queue p q) (plain (MsgTerminalInput data))).
      * apply (write_spec (set_queue p q) (plain (MsgTerminalResize cols rows))).
      * case_match; [done|]. set (p1 := with_history _ _ _).
        apply (write_spec p1 (plain (MsgRequestHistory _))).
      * done.
Qed.

Lemma recv_env_out c c' r : recv_env c = Some (c', r) → ch_out c' = ch_out c.
Proof. rewrite /recv_env /recv_env_with. destruct (recv_loop _ _ _) as [[[? ?] ?]|]; naive_solver. Qed.

(** What one message does to the pumps, whatever it does to the store. *)
Lemma on_envelope_pumps p env w w' p' :
  on_envelope key shell_hex p env w = (w', Val p') →
  pm_pump p' = pm_pump p ∧
  ((p' = p ∧ output_of env = None ∧ ping_of env = None) ∨
   (p' = reader_ends p ∧ (ping_of env = None ∨ pu_alive (pm_pump p) = false)) ∨
   (∃ page, p' = pop_answer p page ∧ output_of env = None ∧ ping_of env = None) ∨
   (∃ data, p' = with_output p (pm_output p ++ [data]) ∧ output_of env = Some data ∧ ping_of env = None) ∨
   (∃ nonce, p' = with_pongs p (pm_pongs p ++ [nonce]) ∧ output_of env = None ∧ ping_of env = Some nonce ∧
      len (pm_pongs p) < PONG_QUEUE)).
Proof.
  rewrite /on_envelope /output_of /ping_of /bind_sup.
  destruct (env_message env) as [[]|]; try (intros [= <- <-]; split; [done|]; auto; fail).
  - destruct (pm_sink p); intros [= <- <-]; (split; [done|]); [do 3 right; left; eauto|right; left; auto].
  - case_match; simpl; intros [= <- <-]; (split; [done|]); [right; left; auto|auto].
  - destruct (store_op _ w) as [w1 [r| |]]; [|done..]. simpl. intros [= <- <-]. split; [done|]. right; left; auto.
  - intros [= <- <-]. split; [by rewrite /pop_answer; destruct (pm_history p)|]. do 2 right; left. eauto.
  - intros [= <- <-]. split; [by rewrite /pop_answer; destruct (pm_history p)|]. do 2 right; left. eauto.
  - destruct (pu_alive (pm_pump p)) eqn:Ha; simpl; [|intros [= <- <-]; split; [done|]; right; left; auto].
    case_match eqn:El; [|done]. to_prop. intros [= <- <-]. split; [done|]. do 4 right. eauto.
Qed.

Lemma on_envelope_ok c0 p env w w' p' handled seen sent frames :
  pumps_ok c0 p handled seen sent frames → pm_reader p = true →
  on_envelope key shell_hex p env w = (w', Val p') → pumps_ok c0 p' handled (seen ++ [env]) sent frames.
Proof.
  intros [Wi Fr Or Oa Po Pa Ou Oua An Hi Pn] Hrd He. specialize (Oua Hrd).
  destruct (on_envelope_pumps _ _ _ _ _ He) as [_ Hc].
  destruct Hc as [(-> & Ho & Hp)|[(-> & Hp)|[(page & -> & Ho & Hp)|[(data & -> & Ho & Hp)|(n & -> & Ho & Hp & Hl)]]]].
  - split; rewrite ?omap_snoc ?Ho ?Hp /= ?app_nil_r //.
  - split; rewrite ?omap_snoc; try done; [by apply prefix_snoc| |by apply prefix_snoc].
    simpl. destruct Hp as [-> | ->]; [|done]. intros Ha. by rewrite /= app_nil_r Pa.
  - assert (∀ q, q = pop_answer p page →
      pm_pump q = pm_pump p ∧ pm_pongs q = pm_pongs p ∧ pm_output q = pm_output p ∧
      pm_reader q = pm_reader p ∧ (pm_answers q).*1 ++ pm_history q ≡ₚ (pm_answers p).*1 ++ pm_history p ∧
      len (pm_history q) ≤ len (pm_history p)) as Hq.
    { intros q ->. rewrite /pop_answer. destruct (pm_history p) as [|r rest] eqn:Eh; rewrite ?Eh //=.
      split_and!; [done..| |rewrite len_cons; lia]. rewrite fmap_app /=. solve_Permutation. }
    destruct (Hq _ eq_refl) as (E1 & E2 & E3 & E4 & E5 & E6).
    split; rewrite ?E1 ?E2 ?E3 ?E4 ?E5 ?omap_snoc ?Ho ?Hp /= ?app_nil_r //. lia.
  - split; rewrite ?omap_snoc ?Ho ?Hp /= ?app_nil_r ?Oua //.
  - split; rewrite ?omap_snoc ?Ho ?Hp /= ?app_nil_r //.
    + by apply prefix_snoc.
    + intros Ha. by rewrite -Pa // app_assoc.
    + rewrite len_app len_cons len_nil. lia.
Qed.

Lemma reader_turn_ok c0 p w w' p' o handled seen sent frames :
  pumps_ok c0 p handled seen sent frames → reader_turn key shell_hex p w = (w', Val (p', o)) →
  pu_queue (pm_pump p') = pu_queue (pm_pump p) ∧ pumps_ok c0 p' handled (seen ++ option_list o) sent frames.
Proof.
  intros I. rewrite /reader_turn /bind_sup /from_wait. destruct (pm_reader p) eqn:Hrd; simpl; [|done].
  destruct (recv_env _) as [[c [env|e]]|] eqn:Er; [| |done].
  - assert (pumps_ok c0 (set_chan p c) handled seen sent frames) as I1.
    { destruct I. split; try done. simpl. by rewrite (recv_env_out _ _ _ Er). }
    destruct (on_envelope key shell_hex (set_chan p c) env w) as [w1 [p1| |]] eqn:Ee; [|done..].
    intros [= <- <- <-]. split; [|by eapply on_envelope_ok].
    destruct (on_envelope_pumps _ _ _ _ _ Ee) as [-> _]. done.
  - simpl. intros [= <- <- <-]. rewrite app_nil_r. split; [done|].
    destruct I. split; try done. simpl. by rewrite (recv_env_out _ _ _ Er).
Qed.

(** C19: in any interleaving: the stream carries, in order, the frames of the input,
    resizes and detaches that were queued, with nothing lost or repeated while
    the writer runs; every ping that came in is answered by a pong with its
    nonce, in order; the GUI received the terminal output in the order the
    server sent it, all of it while the reader runs; every history request the
    writer took is either waiting or answered once; and the waiting requests
    and pongs stay within their bounds. *)
Theorem pumps_correct c0 p cmds seen :
  pump_trace c0 p cmds seen →
  ∃ handled sent frames,
    cmds = handled ++ pu_queue (pm_pump p) ∧
    ch_out (pu_chan (pm_pump p)) = ch_out c0 ++ concat frames ∧
    Forall2 (λ e b, encode_frame e FRAME_BYTES_DEFAULT = Ok b) sent frames ∧
    omap control_msg sent `prefix_of` omap control_of handled ∧
    omap pong_of sent `prefix_of` omap ping_of seen ∧
    (pu_alive (pm_pump p) = true →
       omap control_msg sent = omap control_of handled ∧
       omap pong_of sent ++ pm_pongs p = omap ping_of seen) ∧
    pm_output p `prefix_of` omap output_of seen ∧
    (pm_reader p = true → pm_output p = omap output_of seen) ∧
    (pm_answers p).*1 ++ pm_history p ≡ₚ omap reply_of handled ∧
    len (pm_history p) ≤ MAX_PENDING_HISTORY ∧ len (pm_pongs p) ≤ PONG_QUEUE.
Proof.
  intros T. enough (∃ handled sent frames, cmds = handled ++ pu_queue (pm_pump p) ∧
    pumps_ok c0 p handled seen sent frames) as (h & s & f & Hc & []).
  { exists h, s, f. split_and!; try done. auto. }
  induction T as [|p cmds seen cmd p' _ IH He|p cmds seen first p' _ IH Hw|p cmds seen w w' p' o _ IH Hr|
                  p cmds seen _ IH|p cmds seen _ IH]; try destruct IH as (h & s & f & -> & I).
  - exists [], [], []. split; [done|]. split; simpl; rewrite ?app_nil_r //; by rewrite len_nil.
  - exists h, s, f. revert He. rewrite /enqueue. case_match; [|done]. intros [= <-].
    split; [by rewrite /= app_assoc|by apply queue_ok].
  - destruct (writer_turn_ok _ _ _ _ _ _ _ _ I Hw) as (h' & s' & f' & Hq & I'). exists h', s', f'. by rewrite Hq.
  - destruct (reader_turn_ok _ _ _ _ _ _ _ _ _ _ I Hr) as [Hq I']. exists h, s, f. by rewrite Hq.
  - exists h, s, f. split; [done|]. by destruct I.
  - exists h, s, f. split; [done|]. by destruct I.
Qed.

(** ** What the reader reports *)

(** The reader touches the store only when the server says that the shell
    exited, and then removes this shell's record and tells the GUI; a broken
    transport or a server that dropped the attachment is reported as a detach,
    with the store as it was; nothing else is reported. *)
Lemma reader_reports p w w' p' o :
  reader_turn key shell_hex p w = (w', Val (p', o)) →
  (∃ env e, o = Some env ∧ env_message env = Some (MsgShellExited e) ∧ pm_reader p' = false ∧
     su_events w' = su_events w ++ [EvShellState shell_hex ExitedState (Some (se_exit_code e))] ∧
     ∃ w1 r, store_op (λ st, remove_shell st key shell_hex) w = (w1, Val r) ∧ su_store w' = su_store w1) ∨
  (su_store w' = su_store w ∧ su_disk w' = su_disk w ∧
   ((pm_reader p' = false ∧ su_events w' = su_events w ++ [EvShellState shell_hex Detached None]) ∨
    su_events w' = su_events w)).
Proof.
  rewrite /reader_turn /bind_sup /from_wait. destruct (pm_reader p); simpl; [|done].
  destruct (recv_env _) as [[c [env|e]]|] eqn:Er; [|intros [= <- <- <-]; auto 6|done].
  rewrite /on_envelope /bind_sup. destruct (env_message env) as [[]|] eqn:Em; simpl;
    try (intros [= <- <- <-]; auto; fail).
  - destruct (err_code m =? _); simpl; intros [= <- <- <-]; auto 6.
  - destruct (store_op _ w) as [w1 [r| |]] eqn:Es; [|done..]. simpl. intros [= <- <- <-]. left.
    assert (su_events w1 = su_events w) as He.
    { revert Es. rewrite /store_op. destruct (remove_shell _ _ _ _) as [d [st|e|]]; by intros [= <- _]. }
    exists env, m. split_and!; [done..| |by exists w1, r]. by rewrite /= He.
  - destruct (negb _); simpl; [intros [= <- <- <-]; auto|].
    destruct (_ <? _); simpl; [intros [= <- <- <-]; auto|done].
Qed.

(** Answers to history requests that arrive in the given order. *)
Fixpoint receive (p : Pumps) (envs : list Envelope) : sup Pumps :=
  match envs with
  | [] => ret_sup p
  | env :: envs => let! p := on_envelope key shell_hex p env in receive p envs
  end.

Definition page_of (c : HistoryChunk) : HistoryPage := {|
  hp_lines := hc_lines c; hp_first_line_id := hc_first_line_id c;
  hp_truncated := hc_truncated_by_eviction c |}.
Definition empty_page : HistoryPage := {| hp_lines := []; hp_first_line_id := 0; hp_truncated := false |}.

(** The daemon answers a request with a chunk and an end. A request that waits
    alone gets its chunk. *)
Lemma history_alone p r c n w :
  pm_history p = [r] →
  receive p [plain (MsgHistoryChunk c); plain (MsgHistoryEnd n)] w =
    (w, Val (with_history p [] (pm_answers p ++ [(r, Ok (page_of c))]))).
Proof. intros Hh. by rewrite /= /bind_sup /= /pop_answer Hh. Qed.

(** Of two that wait, the second is answered with an empty page by the end of
    the first one's answer, and its own chunk is dropped. *)
Lemma history_mispaired p r1 r2 c1 c2 n1 n2 w :
  pm_history p = [r1; r2] →
  receive p [plain (MsgHistoryChunk c1); plain (MsgHistoryEnd n1);
             plain (MsgHistoryChunk c2); plain (MsgHistoryEnd n2)] w =
    (w, Val (with_history p [] (pm_answers p ++ [(r1, Ok (page_of c1)); (r2, Ok empty_page)]))).
Proof. intros Hh. by rewrite /= /bind_sup /= /pop_answer Hh /= -app_assoc. Qed.

End props.
