(* ===== verification/ClientWitness.v ===== *)
(** * Concrete runs of the client

    Codecs that stand in for JSON, base64 and protobuf, a small disk and store,
    and the properties of the client on them. *)
From S2P Require Import Prelude PrefixCode Protocol Framing Auth Ids Observability Negotiate History TerminalModel Launch SessionCore SessionSteps SessionProps SessionWitness RateLimiter Uploads Forward Conn ConnProps ConnWitness UploadProto UploadStore ClientStore ClientStoreProps ClientApi ClientUpload ClientCore ClientFacade ClientFacadeProps ClientProps ClientLink ClientPump ClientPumpProps.

(** ** The state file *)

(** A prefix code with its law, and ways to combine such codes. *)
Record code (A : Type) := {
  put : A → bytes;
  get : bytes → option (A * bytes);
  get_put x r : get (put x ++ r) = Some (x, r);
}.
Arguments put {A}.
Arguments get {A}.
Arguments get_put {A}.

Definition number : code Z := {| put := put_Z; get := get_Z; get_put := get_put_Z |}.
Definition text : code str := {| put := put_str; get := get_str; get_put := get_put_str |}.
Definition flag : code bool := {| put := put_bool; get := get_bool; get_put := get_put_bool |}.

Program Definition both {A B} (a : code A) (b : code B) : code (A * B) := {|
  put x := put a x.1 ++ put b x.2;
  get l := '(x, l) ← get a l; '(y, l) ← get b l; Some ((x, y), l) |}.
Next Obligation. intros A B a b [x y] r. by rewrite -app_assoc get_put /= get_put. Qed.

Program Definition many {A} (a : code A) : code (list A) := {|
  put := put_list (put a); get := get_list (get a) |}.
Next Obligation. intros A a xs r. apply get_put_list, get_put. Qed.

Program Definition via {A B} (a : code A) (f : B → A) (g : A → B) (H : ∀ x, g (f x) = x) : code B := {|
  put x := put a (f x); get l := '(x, l) ← get a l; Some (g x, l) |}.
Next Obligation. intros A B a f g H x r. by rewrite /= get_put /= H. Qed.

Program Definition maybe {A} (a : code A) : code (option A) := via (many a) option_list head _.
Next Obligation. by intros A a []. Qed.

Program Definition table {A} (a : code A) : code (gmap str A) :=
  via (many (both text a)) map_to_list list_to_map _.
Next Obligation. intros A a m. apply list_to_map_to_list. Qed.

Program Definition shell_code : code ShellRecord :=
  via (both text (both (maybe text) (both text number)))
    (λ s, (sr_token s, (sr_idempotency_key s, (sr_name s, sr_last_attached_at_ms s))))
    (λ x, {| sr_token := x.1; sr_idempotency_key := x.2.1; sr_name := x.2.2.1;
             sr_last_attached_at_ms := x.2.2.2 |}) _.
Next Obligation. by intros []. Qed.

Program Definition pending_code : code PendingOpen :=
  via (both text text) (λ p, (po_key p, po_name p)) (λ x, {| po_key := x.1; po_name := x.2 |}) _.
Next Obligation. by intros []. Qed.

Program Definition server_code : code ServerRecord :=
  via (both (both text (both text (both (maybe text) (maybe text))))
         (both flag (both (maybe text) (both (table shell_code) (many pending_code)))))
    (λ s, ((sv_url s, (sv_display_name s, (sv_username s, sv_ssh_key_path s))),
           (sv_remember_login s, (sv_grant s, (sv_shells s, sv_pending_opens s)))))
    (λ x, {| sv_url := x.1.1; sv_display_name := x.1.2.1; sv_username := x.1.2.2.1;
             sv_ssh_key_path := x.1.2.2.2; sv_remember_login := x.2.1; sv_grant := x.2.2.1;
             sv_shells := x.2.2.2.1; sv_pending_opens := x.2.2.2.2 |}) _.
Next Obligation. by intros []. Qed.

Definition data_code : code (Z * gmap str ServerRecord) := both number (table server_code).

(** The toy [to_writer] writes everything at once. *)
#[export] Instance toy_json : StoreJson := {|
  store_chunks d := Some [put data_code (sd_version d, sd_servers d)];
  store_parse l := '((v, m), _) ← get data_code l; Some {| sd_version := v; sd_servers := m |};
  v1_parse _ := None |}.

#[export] Instance toy_json_laws : StoreJsonLaws toy_json.
Proof.
  intros [v m] cs Hc. assert (cs = [put data_code (v, m)]) as -> by (symmetry; by injection Hc).
  change (store_parse _) with
    ('((v, m), _) ← get data_code (put data_code (v, m) ++ []); Some {| sd_version := v; sd_servers := m |}).
  by rewrite get_put.
Qed.

#[export] Instance toy_base64 : Base64 := {|
  b64_encode := hex; b64_decode t := from_option id None (unhex t) |}.
#[export] Instance toy_base64_laws : Base64Laws toy_base64.
Proof. intros b. by rewrite /= store_unhex_hex. Qed.

(** ** A store with one server, on an empty disk *)
Definition toy_path : str := lit "desktop.json".
Definition toy_disk0 : ClientDisk := {|
  names := ∅; survivors := []; inodes := ∅; next_inode := 0; schedule := [] |}.
Definition toy_st0 : ClientStore := {| path := toy_path; data := store_data_default |}.

Definition toy_key : str := new_server_key (array_repeat 8 Byte.x01).
Definition toy_shell_id : bytes := replicate 16 Byte.x07.
Definition toy_shell : str := hex toy_shell_id.
Definition toy_record : ShellRecord := {|
  sr_token := b64_encode [Byte.x0a]; sr_idempotency_key := Some (hex (replicate 16 Byte.x02));
  sr_name := lit "build"; sr_last_attached_at_ms := 5 |}.
Definition toy_server : ServerRecord := {|
  sv_url := lit "host"; sv_display_name := lit "h"; sv_username := Some (lit "bob");
  sv_ssh_key_path := None; sv_remember_login := false; sv_grant := Some (lit "c0");
  sv_shells := {[ toy_shell := toy_record ]}; sv_pending_opens := [] |}.

Definition toy_add : StoreOp := AddServer (array_repeat 8 Byte.x01) toy_server.
Definition store_of (st : ClientStore) (x : ClientDisk * exec ClientStore) : ClientStore :=
  match x.2 with Returns st' => st' | _ => st end.
Definition toy_added : ClientDisk * exec ClientStore := exec_op toy_add toy_st0 (restart toy_disk0 []).
Definition toy_disk1 : ClientDisk := toy_added.1.
Definition toy_st1 : ClientStore := store_of toy_st0 toy_added.
Definition toy_h1 : list StoreData := [target toy_st0 (exec_op toy_add toy_st0) toy_disk0].

Lemma toy_reach0 : reach toy_path [] {| cw_disk := toy_disk0; cw_store := Some toy_st0 |}.
Proof.
  eapply (reach_start toy_path [] toy_disk0 [] _ (Returns (toy_st0, false))).
  - apply reach_init. split_and!; [done..|]. intros n i. by rewrite lookup_empty.
  - constructor.
  - vm_compute. reflexivity.
Qed.

Lemma toy_reach1 : reach toy_path toy_h1 {| cw_disk := toy_disk1; cw_store := Some toy_st1 |}.
Proof.
  eapply (reach_op toy_path [] toy_disk0 toy_st0 toy_add [] toy_disk1 (Returns toy_st1)).
  - apply toy_reach0.
  - constructor.
  - vm_compute. reflexivity.
Qed.

(** A journal entry is written; the process dies in the rename, after its
    effect. *)
Definition toy_push : StoreOp := PushPendingOpen toy_key (lit "ab") (lit "x").
Definition toy_death : list Sched := [Proceed; Proceed; Proceed; Proceed; Die 0 true].
Definition toy_died : ClientDisk * exec ClientStore := exec_op toy_push toy_st1 (restart toy_disk1 toy_death).
Definition toy_disk2 : ClientDisk := toy_died.1.
Definition toy_x2 : StoreData := target toy_st1 (exec_op toy_push toy_st1) toy_disk1.

Lemma store_op_atomic_witness :
  exec_op toy_push toy_st1 (restart toy_disk1 toy_death) = (toy_disk2, Dies) ∧
  ∃ x, load toy_path (restart toy_disk2 []) =
         (restart toy_disk2 [], Returns ({| path := toy_path; data := persisted x |}, false)) ∧
       (x = data toy_st1 ∨ x = toy_x2).
Proof.
  assert (exec_op toy_push toy_st1 (restart toy_disk1 toy_death) = (toy_disk2, Dies)) as He
    by (vm_compute; reflexivity).
  split; [exact He|].
  exact (store_op_atomic toy_path toy_h1 toy_disk1 toy_st1 toy_push toy_death toy_disk2 Dies
           toy_reach1 ltac:(repeat constructor) He).
Defined.

(** Then power is lost, and the directory comes back as it was before that
    rename. *)
Definition back_to (d : ClientDisk) (D : gmap str nat) : ClientDisk := {|
  names := D; survivors := []; inodes := inodes d; next_inode := next_inode d; schedule := [] |}.

Lemma back_to_power_loss d D : D ∈ survivors d → power_loss d (back_to d D).
Proof.
  intros HD. split_and!; [|done..|].
  - apply elem_of_cons. by right.
  - intros i n n' Hn Hn' _. simpl in Hn'. rewrite Hn in Hn'. by injection Hn'.
Qed.

Lemma head_in {A} (x : A) l : is_empty l = false → default x (head l) ∈ l.
Proof. destruct l; [done|]. intros _. apply list_elem_of_here. Qed.

Definition toy_disk3 : ClientDisk := back_to toy_disk2 (default ∅ (head (survivors toy_disk2))).


(** ** The control channel *)
Definition toy_req (id : Z) : Envelope := with_request_id id (plain MsgListShells).
Definition toy_reply (id : Z) : Envelope := with_request_id id (plain (MsgShellList [])).
(** Two requests, a ping, and the replies in the other order; the first comes
    twice. *)
Definition toy_events : list (Control.Event * result unit str) :=
  map (λ e, (e, Ok ())) [Control.Req (toy_req 1) 10; Control.Req (toy_req 2) 11;
    Control.Recv (Ok (plain (MsgPing 4))); Control.Recv (Ok (toy_reply 2));
    Control.Recv (Ok (toy_reply 2)); Control.Recv (Ok (toy_reply 1))].
Definition toy_outs : list Control.Out := [
  Control.Sends (toy_req 1); Control.Sends (toy_req 2); Control.Sends (plain (MsgPong 4));
  Control.Answers 11 (Ok (toy_reply 2)); Control.Answers 10 (Ok (toy_reply 1))].

Lemma control_multiplex_witness :
  Control.run Control.control_new toy_events = Some (Control.control_new, toy_outs, true) ∧
  NoDup (answered toy_outs) ∧
  (∀ s env, Control.Answers s (Ok env) ∈ toy_outs →
     ∃ req b b', (Control.Req req s, b) ∈ toy_events ∧ (Control.Recv (Ok env), b') ∈ toy_events ∧
                 env_request_id req = env_request_id env).
Proof.
  assert (Control.run Control.control_new toy_events = Some (Control.control_new, toy_outs, true)) as Hr
    by (vm_compute; reflexivity).
  split; [exact Hr|].
  destruct (control_multiplex toy_events Control.control_new toy_outs true
    ltac:(apply (@bool_decide_unpack _ _); vm_compute; exact I)
    ltac:(apply (@bool_decide_unpack _ _); vm_compute; exact I) Hr) as (_ & Hn & Hm & _).
  exact (conj Hn Hm).
Defined.

Definition toy_ticks : list (Control.Event * result unit str) := repeat (Control.Tick, Ok ()) 4.

Lemma keepalive_exact_witness :
  match Control.run Control.control_new toy_ticks with
  | Some (_, _, go) => go = false
  | None => False
  end.
Proof.
  destruct (Control.run Control.control_new toy_ticks) as [[[c outs] go]|] eqn:E; [|vm_compute in E; discriminate E].
  apply (keepalive_exact [] toy_ticks c outs go Control.control_new);
    [repeat constructor|exact E|vm_compute; reflexivity].
Defined.

(** ** Channels

    A stand-in for protobuf, for the messages of these runs. *)
Definition msg_parts (m : option Msg) : Parts :=
  match m with
  | Some (MsgError e) => (1, [err_code e], [err_retryable e], [], [err_human_message e])
  | Some (MsgShellAttached a) =>
      (2, [sa_screen_revision a; sa_oldest_history_line_id a; sa_newest_history_line_id a], [],
       [sa_screen_snapshot a; sa_rotated_resume_token a], [])
  | Some (MsgUploadAccepted a) => (3, [ua_maximum_chunk_bytes a], [], [ua_upload_id a], [])
  | Some (MsgUploadFinished f) =>
      (4, [uf_bytes_written f], [], [uf_upload_id f; uf_sha256 f], [uf_remote_path f])
  | Some (MsgTerminalOutput d) => (5, [], [], [d], [])
  | Some (MsgPing n) => (6, [n], [], [], [])
  | _ => (0, [], [], [], [])
  end.
Definition parts_msg (p : Parts) : option Msg :=
  match p with
  | (1, [c], [r], [], [t]) =>
      Some (MsgError {| err_code := c; err_human_message := t; err_retryable := r |})
  | (2, [v; o; n], [], [s; t], []) =>
      Some (MsgShellAttached {| sa_screen_snapshot := s; sa_screen_revision := v;
        sa_rotated_resume_token := t; sa_oldest_history_line_id := o; sa_newest_history_line_id := n |})
  | (3, [n], [], [i], []) => Some (MsgUploadAccepted {| ua_upload_id := i; ua_maximum_chunk_bytes := n |})
  | (4, [n], [], [i; h], [t]) =>
      Some (MsgUploadFinished {| uf_upload_id := i; uf_remote_path := t; uf_bytes_written := n; uf_sha256 := h |})
  | (5, [], [], [d], []) => Some (MsgTerminalOutput d)
  | (6, [n], [], [], []) => Some (MsgPing n)
  | _ => None
  end.
#[local] Instance toy_prost : ProstMessage Envelope := {|
  prost_encode e := put_Z (env_request_id e) ++ put_parts (msg_parts (env_message e));
  prost_decode l :=
    '(i, l) ← get_Z l; p ← get_parts l;
    Some {| env_request_id := i; env_server_id := []; env_shell_id := []; env_message := parts_msg p |} |}.

Definition toy_read (m : Msg) : ReadEvent :=
  match encode_frame (plain m) FRAME_BYTES_DEFAULT with Ok b => RData b | Err _ => RClosed end.
Definition toy_stream (ms : list Msg) : stream := Ok (map toy_read ms, []).

(** ** Attaching with a replayed token

    The server refuses the stored token as replayed; the shell is still listed,
    opening it again under its key gives a token, and attaching with that one a
    rotated one. *)
Definition toy_info : PbShellInfo := {|
  psi_server_id := []; psi_shell_id := toy_shell_id; psi_state := SHELL_STATE_RUNNING;
  psi_title := []; psi_created_at_ms := 0; psi_last_attached_at_ms := 0 |}.
Definition toy_replayed : Msg := MsgError {|
  err_code := error_code_i32 ErrTokenReplayed; err_human_message := lit "replayed"; err_retryable := false |}.
Definition toy_attached : Msg := MsgShellAttached {|
  sa_screen_snapshot := [Byte.x61]; sa_screen_revision := 1; sa_rotated_resume_token := [Byte.x0c];
  sa_oldest_history_line_id := 0; sa_newest_history_line_id := 0 |}.
Definition toy_sup (st : ClientStore) (d : ClientDisk) (streams : list stream)
    (replies : list (result Envelope str)) : Sup := {|
  su_store := st; su_disk := d; su_status := None; su_capability := None; su_events := [];
  su_requests := []; su_next_request := 1; su_replies := replies; su_streams := streams;
  su_clock := [100; 200; 300]; su_live := ∅; su_pumps := ∅; su_uploads := ∅; su_socks := None |}.
Definition toy_opened (id token : bytes) : Envelope :=
  with_shell_id id (plain (MsgShellOpened {| so_resume_token := token; so_expires_at_ms := 0 |})).
Definition toy_attaching : Sup :=
  toy_sup toy_st1 toy_disk1 [toy_stream [toy_replayed]; toy_stream [MsgTerminalOutput [Byte.x62]; toy_attached]]
    [Ok (plain (MsgShellList [toy_info])); Ok (toy_opened toy_shell_id [Byte.x0b])].


(** ** An attachment at work

    A key is typed and a page of history asked for; output and a ping come in. *)
Definition toy_chan : Chan := {|
  ch_reads := map toy_read [MsgTerminalOutput [Byte.x62]; MsgPing 7];
  ch_writes := []; ch_decoder := decoder_new FRAME_BYTES_DEFAULT; ch_out := [] |}.
Definition toy_cmds : list WriterCmd := [WInput [Byte.x61]; WHistory 0 100 5].
Definition pumped (p : Pumps) (first : bool) : Pumps := default p (writer_turn p first).
Definition queued (p : Pumps) (cmd : WriterCmd) : Pumps := default p (enqueue p cmd).
Definition read_turn (p : Pumps) : Sup * outcome (Pumps * option Envelope) :=
  reader_turn toy_key toy_shell p (toy_sup toy_st1 toy_disk1 [] []).
Definition fed (p : Pumps) : Pumps := match (read_turn p).2 with Val (p, _) => p | _ => p end.

Lemma read_turn_eq p p' o : (read_turn p).2 = Val (p', o) → read_turn p = ((read_turn p).1, Val (p', o)).
Proof. by destruct (read_turn p) as [w x]; simpl; intros ->. Qed.

Definition toy_p1 : Pumps := foldl queued (pumps_new toy_chan) toy_cmds.
Definition toy_p2 : Pumps := fed (fed (pumped toy_p1 false)).
Definition toy_p3 : Pumps := pumped (pumped toy_p2 true) false.
Definition toy_seen : list Envelope := [plain (MsgTerminalOutput [Byte.x62]); plain (MsgPing 7)].

Lemma toy_pump_trace : pump_trace toy_key toy_shell toy_chan toy_p3 toy_cmds toy_seen.
Proof.
  apply (pt_writer _ _ _ (pumped toy_p2 true) _ _ false); [|vm_compute; reflexivity].
  apply (pt_writer _ _ _ toy_p2 _ _ true); [|vm_compute; reflexivity].
  eapply (pt_reader _ _ _ (fed (pumped toy_p1 false)) toy_cmds [plain (MsgTerminalOutput [Byte.x62])]
            _ _ _ (Some (plain (MsgPing 7)))); [|apply read_turn_eq; vm_compute; reflexivity].
  eapply (pt_reader _ _ _ (pumped toy_p1 false) toy_cmds [] _ _ _
            (Some (plain (MsgTerminalOutput [Byte.x62])))); [|apply read_turn_eq; vm_compute; reflexivity].
  apply (pt_writer _ _ _ toy_p1 _ _ false); [|vm_compute; reflexivity].
  apply (pt_enqueue _ _ _ (queued (pumps_new toy_chan) (WInput [Byte.x61])) [WInput [Byte.x61]]);
    [|vm_compute; reflexivity].
  apply (pt_enqueue _ _ _ (pumps_new toy_chan) []); [constructor|vm_compute; reflexivity].
Qed.

Lemma pumps_correct_witness :
  pm_output toy_p3 = [[Byte.x62]] ∧ pm_history toy_p3 = [5%nat] ∧
  ∃ handled sent frames,
    toy_cmds = handled ++ pu_queue (pm_pump toy_p3) ∧
    ch_out (pu_chan (pm_pump toy_p3)) = concat frames ∧
    Forall2 (λ e b, encode_frame e FRAME_BYTES_DEFAULT = Ok b) sent frames ∧
    omap control_msg sent = [MsgTerminalInput [Byte.x61]] ∧ omap pong_of sent = [7].
Proof.
  destruct (pumps_correct toy_key toy_shell toy_chan toy_p3 toy_cmds toy_seen toy_pump_trace)
    as (handled & sent & frames & Hc & Hw & Hf & _ & _ & Ha & _).
  split; [vm_compute; reflexivity|]. split; [vm_compute; reflexivity|].
  destruct Ha as [Hm Hp]; [vm_compute; reflexivity|].
  assert (pu_queue (pm_pump toy_p3) = []) as Hq by (vm_compute; reflexivity).
  assert (pm_pongs toy_p3 = []) as Hg by (vm_compute; reflexivity).
  exists handled, sent, frames. split; [exact Hc|]. split; [exact Hw|]. split; [exact Hf|].
  rewrite Hq app_nil_r in Hc. subst handled. split; [exact Hm|]. by rewrite Hg app_nil_r in Hp.
Defined.

(** ** An upload of three bytes, in chunks of two *)
#[local] Existing Instances toy_pty toy_hash echo_vt.

Definition toy_file : LocalFile := {|
  lf_lstat := Ok (false, true); lf_open := Ok (); lf_fstat := Ok (true, 3); lf_name := Some (lit "a b.txt");
  lf_first := concat demo_pieces; lf_seek := Ok (); lf_second := concat demo_pieces |}.
Definition toy_turns : list Turn := repeat (Go 9) 20.
Definition toy_upload : stream := toy_stream [
  MsgUploadAccepted {| ua_upload_id := array_bytes demo_id; ua_maximum_chunk_bytes := 2 |};
  MsgUploadFinished {| uf_upload_id := array_bytes demo_id; uf_remote_path := lit "/up/x";
    uf_bytes_written := 3; uf_sha256 := array_bytes (sha256 (concat demo_pieces)) |}].
Definition toy_uploaded : UploadResult := {|
  ur_remote_path := lit "/up/x"; ur_bytes_written := 3; ur_sha256 := sha256 (concat demo_pieces) |}.
Definition toy_upload_chan : option Chan :=
  x ← upload_file toy_turns toy_upload toy_shell_id toy_file; x.1.


(** ** A wrong password *)
Definition no_text : StoreErr → str := λ _, [].
Definition toy_connect (_ : str) (_ : AuthMethod) : option (result ServerConn ClientErr) :=
  Some (Err (EAuthenticationRejected (lit "no"))).
Definition try_once (l : Loop) : Sup * outcome (Loop * list AuthMethod * option ClientErr) :=
  attempt toy_key no_text l false toy_connect (toy_sup toy_st1 toy_disk1 [] []).
Definition loop_of (l : Loop) : Loop :=
  match (try_once l).2 with Val (l', _, _) => l' | _ => l end.
Definition toy_loop2 : Loop := (wait_cmd (loop_of loop_start) (Some (CmdLogin (lit "pw")))).1.
Definition toy_labels : list Label := [
  LAttempt [MGrant [Byte.xc0]; MPassword (lit "bob") (lit "pw")] (Some (EAuthenticationRejected (lit "no")));
  LLogin (lit "pw"); LAttempt [MGrant [Byte.xc0]] (Some EPasswordRequired)].

Lemma try_once_eq l l' t e :
  (try_once l).2 = Val (l', t, e) → try_once l = ((try_once l).1, Val (l', t, e)).
Proof. by destruct (try_once l) as [w o]; simpl; intros ->. Qed.

Lemma toy_trace : sup_trace toy_key no_text (loop_of toy_loop2) toy_labels.
Proof.
  eapply (st_attempt _ _ toy_loop2 _ false toy_connect (toy_sup toy_st1 toy_disk1 [] []));
    [|vm_compute; reflexivity|apply try_once_eq; vm_compute; reflexivity].
  apply (st_wait _ _ (loop_of loop_start) _ (Some (CmdLogin (lit "pw"))) _ ANone);
    [|vm_compute; auto|vm_compute; reflexivity].
  eapply (st_attempt _ _ loop_start _ false toy_connect (toy_sup toy_st1 toy_disk1 [] []));
    [constructor|vm_compute; reflexivity|apply try_once_eq; vm_compute; reflexivity].
Qed.

Lemma interactive_auth_once_witness :
  (BACKOFF_START_MS ≤ lp_backoff (loop_of toy_loop2) ≤ BACKOFF_CAP_MS) ∧ lp_phase (loop_of toy_loop2) = PWaitPassword ∧
  ∃ p, LLogin p ∈ [LLogin (lit "pw")].
Proof.
  destruct (interactive_auth_once toy_key no_text (loop_of toy_loop2) toy_labels toy_trace) as (Hb & _ & Hl).
  split; [exact Hb|]. split; [vm_compute; reflexivity|].
  eapply (Hl [] _ _ [LLogin (lit "pw")] [MGrant [Byte.xc0]] EPasswordRequired []); [reflexivity| |right; left; reflexivity].
  constructor; [intros (? & ? & Hx); discriminate Hx|constructor].
Defined.

(** ** The journal *)
Definition toy_random : array 16 := array_repeat 16 Byte.x03.
Definition toy_opening : Sup :=
  toy_sup toy_st1 toy_disk1 [] [Ok (toy_opened (replicate 16 Byte.x09) [Byte.x0d])].

Lemma toy_in_sync : in_sync toy_path toy_h1 toy_opening.
Proof.
  destruct (reach_wf toy_path _ _ toy_reach1) as [W Hst]. destruct (Hst toy_st1 eq_refl) as (Hp & Hv & Hd).
  by split.
Qed.


(** Alice's client asked for a shell, the daemon opened it, and the answer was
    lost; it asks again from the journal. *)
#[local] Existing Instances toy_auth toy_texts.

Definition toy_alice : World := {|
  app := toy_app;
  conn := {| peer_ip := []; negotiated := Some toy_negotiated; authenticated := true; user_id := alice;
             op_scope := None; channel_binding := []; pending_challenge := None;
             transport_datagrams := false; c_attachments := ∅; c_uploads := ∅; c_forwards := ∅ |};
  sent := []; out_open := true; actors := ∅; next_actor := 0 |}.
Definition toy_ikey : str := hex (array_bytes (idempotency_key SessionWitness.toy_req)).
Definition toy_push2 : ClientDisk * exec ClientStore :=
  push_pending_open toy_st1 toy_key toy_ikey (lit "mine") (restart toy_disk1 []).
Definition toy_reply2 : Envelope :=
  opened_reply toy_alice 1 toy_id (fresh_token (in_fresh toy_inputs)).
Definition toy_returning : Sup := toy_sup (store_of toy_st1 toy_push2) toy_push2.1 [] [Ok toy_reply2].
Definition toy_resolved : ClientDisk * exec ClientStore :=
  resolve_pending_open (su_store toy_returning) toy_key toy_ikey (hex (to_wire toy_id))
    (token_to_wire (fresh_token (in_fresh toy_inputs))) 100 (su_disk toy_returning).

Lemma toy_resolved_eq :
  toy_resolved = (toy_resolved.1, Returns (store_of toy_st1 toy_resolved)).
Proof. vm_compute. reflexivity. Qed.

Definition toy_retry : Envelope :=
  with_request_id 1 (ServerConn.open_envelope None 0 0 (idempotency_key SessionWitness.toy_req)).

Lemma journal_recovers_open_witness :
  ∃ dw' e w',
    dispatch toy_host toy_inputs 0 toy_retry toy_alice = Some (dw', true) ∧ sent dw' = [(0, toy_reply2)] ∧
    shells (manager (app dw')) !! toy_id = Some e ∧ owner e = alice ∧
    resolve_pending_opens toy_key toy_returning = (w', Val ()) ∧
    (sv_pending_opens <$> server (su_store w') toy_key) = Some [] ∧
    sr_name <$> shell (su_store w') toy_key (hex (to_wire toy_id)) = Some (lit "mine").
Proof.
  destruct (server (su_store toy_returning) toy_key) as [s|] eqn:Es; [|vm_compute in Es; discriminate Es].
  destruct (journal_recovers_open toy_host toy_m0 SessionWitness.toy_req toy_fresh toy_m1
              SessionWitness.toy_opened [] toy_alice toy_inputs toy_key toy_returning s (lit "mine")
              toy_resolved.1 (store_of toy_st1 toy_resolved))
    as (dw' & reply & e & Hd & Hsent & He & Ho & _ & Hr).
  - apply toy_m0_reachable.
  - reflexivity.
  - vm_compute. reflexivity.
  - exact I.
  - reflexivity.
  - apply not_elem_of_nil.
  - by split.
  - reflexivity.
  - exact Es.
  - vm_compute in Es. injection Es as <-. reflexivity.
  - apply toy_resolved_eq.
  - assert (((λ x, sent x.1) <$> dispatch toy_host toy_inputs 0 toy_retry toy_alice) = Some [(0, toy_reply2)]) as Hq
      by (vm_compute; reflexivity).
    change (dispatch toy_host toy_inputs 0 toy_retry toy_alice = Some (dw', true)) in Hd.
    rewrite Hd in Hq. assert (sent dw' = [(0, toy_reply2)]) as Hq' by (by injection Hq).
    rewrite Hq' in Hsent. assert (reply = toy_reply2) as -> by (by injection Hsent).
    destruct (Hr [] eq_refl) as (w' & Hw & _ & Hp & Hsh). exists dw', e, w'.
    split; [exact Hd|]. split; [exact Hq'|]. split; [exact He|]. split; [exact Ho|].
    split; [exact Hw|]. split; [exact Hp|]. by rewrite Hsh.
Defined.

(** ** The core at work

    It starts over the stored server, is asked to log in, and the supervisor takes
    the command; a second server is added. *)
Definition toy_spawned : ClientDisk * exec Core := spawn toy_path None (λ _, array_repeat 8 Byte.x00) (restart toy_disk1 []).
Definition core_or (c : Core) (r : exec Core) : Core := match r with Returns c => c | _ => c end.
Definition no_core : Core := {|
  co_store := toy_st0; co_disk := toy_disk0; co_servers := ∅; co_events := []; co_statuses := ∅; co_capabilities := ∅ |}.
Definition toy_c0 : Core := core_or no_core toy_spawned.2.
Definition toy_c1 : Core := (ClientFacade.send toy_key (CmdLogin (lit "pw")) toy_c0).1.
Definition toy_c2 : Core := from_option fst toy_c1 (ClientFacade.receive toy_key toy_c1).
Definition toy_config : ServerConfig := {|
  sf_remember_login := false; sf_url := lit "b.example"; sf_display_name := lit "b"; sf_username := None; sf_ssh_key_path := None |}.
Definition toy_c3 : Core := (core_add_server toy_config (array_repeat 8 Byte.x02) toy_c2).1.

