(* ===== verification/TransportWitness.v ===== *)
(** * Concrete sessions

    A channel whose consumer is too slow, a page request, and a session with two
    streams cut in the middle of a frame. *)
From S2P Require Import Prelude Protocol Framing Wire Auth Ids Observability Negotiate History TerminalModel Launch SessionCore SessionSteps SessionProps SessionWitness RateLimiter UploadProto UploadStore Uploads Forward Conn ConnProps ConnWitness Paths ClientApi ClientWitness Transport TransportProps TransportSession.

#[local] Existing Instances toy_prost toy_pty toy_hash echo_vt toy_auth toy_texts.

(** ** A router with one slow channel *)
Definition overload_ex : bytes := default [] overload.

Definition log_step (acc : option (Router * gmap Z (list bytes))) (l : RouterLabel) : option (Router * gmap Z (list bytes)) :=
  '(r, log) ← acc; r' ← router_step overload_ex r l; Some (r', routed l log).
Definition router_exec (ls : list RouterLabel) : option (Router * gmap Z (list bytes)) :=
  foldl log_step (Some (router_new, ∅)) ls.

Definition ping (n : Z) : Envelope := plain (MsgPing n).
Definition slow_run : list RouterLabel :=
  [RRegister 0; RRegister 1; RFrame 0 (ping 7); RFrame 1 (ping 8); RNext 1; RFrame 1 (ping 9)] ++
  repeat (RFrame 1 (ping 10)) 128 ++ [RNext 0; RWrote 0 true; RWrote 1 true; RNext 1; RWrote 1 true; RNext 1].

Definition slow_router : Router := from_option fst router_new (router_exec slow_run).
Definition slow_log : gmap Z (list bytes) := from_option snd ∅ (router_exec slow_run).

Lemma slow_router_run : router_run overload_ex slow_router slow_log.
Proof.
  assert (∀ ls r log, Forall (λ l, ∀ ch, l = RRegister ch → False) ls → router_run overload_ex r log →
    ∀ r' log', foldl log_step (Some (r, log)) ls = Some (r', log') → router_run overload_ex r' log') as Hgo.
  { intros ls. induction ls as [|l ls IH]; intros r log Hf R r' log'; simpl; [by intros [= <- <-]|].
    apply Forall_cons in Hf as [Hl Hls]. destruct (router_step overload_ex r l) as [r1|] eqn:E; simpl; last first.
    { intros Habs. exfalso. clear -Habs. induction ls; simpl in *; auto; done. }
    apply IH; [done|]. econstructor; [done| |done]. intros ch Hch. by destruct (Hl ch). }
  assert (router_run overload_ex router_new ∅) as R0 by constructor.
  assert (∃ r log, foldl log_step (Some (router_new, ∅)) (take 2 slow_run) = Some (r, log) ∧ router_run overload_ex r log) as (r & log & E & R).
  { eexists _, _. split; [reflexivity|]. econstructor; [econstructor; [exact R0| |reflexivity]| |reflexivity].
    - intros ch [= <-]. vm_compute. reflexivity.
    - intros ch [= <-]. vm_compute. reflexivity. }
  apply (Hgo (drop 2 slow_run) r log).
  - repeat constructor; done.
  - done.
  - rewrite -E -foldl_app take_drop. vm_compute. reflexivity.
Qed.

(** The channel with the backlog gets the first frame, which was being written,
    and the error; the other channel gets its frame. *)
Lemma channel_delivery_witness :
  ∃ w fs, ro_writers slow_router !! 1 = Some w ∧ slow_log !! 1 = Some fs ∧ len fs = 130 ∧
    wr_written w = [default [] (head fs); overload_ex] ∧ wr_fin w = true ∧
    ∃ kept ov, line w = kept ++ ov ∧ kept `prefix_of` fs ∧ (ov = [] ∨ ov = [overload_ex]).
Proof.
  destruct (ro_writers slow_router !! 1) as [w|] eqn:Ew; [|exfalso; revert Ew; vm_compute; discriminate].
  destruct (slow_log !! 1) as [fs|] eqn:Ef; [|exfalso; revert Ef; vm_compute; discriminate].
  assert (overload = Some overload_ex) as Ho by (vm_compute; reflexivity).
  destruct (channel_delivery overload_ex slow_router slow_log 1 w fs Ho slow_router_run Ew Ef) as (Hk & _).
  exists w, fs. split; [done|]. split; [done|].
  assert ((len fs =? 130) && bool_decide (wr_written w = [default [] (head fs); overload_ex]) && wr_fin w = true) as Hb.
  { assert (match ro_writers slow_router !! 1, slow_log !! 1 with
      | Some w, Some fs => (len fs =? 130) && bool_decide (wr_written w = [default [] (head fs); overload_ex]) && wr_fin w
      | _, _ => false end = true) as Hc by (vm_compute; reflexivity).
    by rewrite Ew Ef in Hc. }
  apply andb_true_iff in Hb as [Hb H3]. apply andb_true_iff in Hb as [H1 H2].
  split; [by apply Z.eqb_eq|]. split; [by apply bool_decide_eq_true in H2|]. split; [exact H3|exact Hk].
Defined.

(** ** A page *)
Definition page_files : Files := {|
  fi_metadata p := if decide (p = lit "/srv/web/index.html") then Some (true, 2) else None;
  fi_read p := Ok (str_bytes (lit "ok")) |}.

Lemma static_confined_witness :
  ∃ root names, Some (lit "/srv/web") = Some root ∧ names ≠ [] ∧ Forall plain_name names ∧
    components (lit "/srv/web/index.html") = components root ++ map Normal names.
Proof.
  destruct (static_confined None false (Some (lit "/srv/web")) page_files GET (lit "/")
    (send_simple 200 (content_type_for (lit "/srv/web/index.html")) (str_bytes (lit "ok")) GET)
    (lit "/srv/web/index.html")) as (_ & H & _); [vm_compute; reflexivity|exact H].
Defined.

(** ** A session with two streams *)
Definition session_log_step (acc : option (Runtime * list (Z * Envelope) * gmap Z bytes)) (l : SessionLabel) :
    option (Runtime * list (Z * Envelope) * gmap Z bytes) :=
  '(r, log, data) ← acc;
  match session_step toy_host r l with
  | Some (r', out) => Some (r', log ++ option_list out, heard l r r' data)
  | None => None
  end.
Definition session_exec (ls : list SessionLabel) : option (Runtime * list (Z * Envelope) * gmap Z bytes) :=
  foldl session_log_step (Some (runtime_new (toy_world true), [], ∅)) ls.

Lemma session_exec_run ls r log data :
  session_exec ls = Some (r, log, data) → session_run toy_host (toy_world true) r log data.
Proof.
  revert r log data. induction ls as [|l ls IH] using rev_ind; intros r log data; rewrite /session_exec ?foldl_app /=.
  - intros [= <- <- <-]. constructor.
  - destruct (foldl _ _ ls) as [[[r0 log0] data0]|] eqn:E; simpl; [|done].
    destruct (session_step toy_host r0 l) as [[r' out]|] eqn:Es; [|done]. intros [= <- <- <-].
    econstructor; [by apply IH|done].
Qed.

Definition frame_of (m : Msg) : bytes :=
  match encode_frame (plain m) FRAME_BYTES_DEFAULT with Ok b => b | Err _ => [] end.
Definition two_streams : list SessionLabel :=
  [SRegister; SRegister; SChunk 0 (take 5 (frame_of (MsgPing 1))); SFrame 0 toy_inputs;
   SChunk 1 (frame_of (MsgPing 2) ++ frame_of (MsgPing 3)); SFrame 1 toy_inputs;
   SChunk 0 (drop 5 (frame_of (MsgPing 1))); SFrame 0 toy_inputs; SFrame 1 toy_inputs; SFrame 0 toy_inputs].
Definition two_result : Runtime * list (Z * Envelope) * gmap Z bytes :=
  default (runtime_new (toy_world true), [], ∅) (session_exec two_streams).

Lemma session_in_order_witness :
  map fst two_result.1.2 = [1; 0; 1] ∧
  ∃ ms o, Frames FRAME_BYTES_DEFAULT (frame_of (MsgPing 1)) ms o ∧ on_channel 0 two_result.1.2 `prefix_of` ms.
Proof.
  assert (session_run toy_host (toy_world true) two_result.1.1 two_result.1.2 two_result.2) as R.
  { apply (session_exec_run two_streams). rewrite /two_result.
    assert (bool_decide (is_Some (session_exec two_streams)) = true) as [x Hx]%bool_decide_eq_true by (vm_compute; reflexivity).
    rewrite Hx. by destruct x as [[? ?] ?]. }
  destruct (session_in_order toy_host (toy_world true) _ _ _ R) as [Hd _].
  split; [vm_compute; reflexivity|].
  destruct (Hd 0 (frame_of (MsgPing 1))) as (ms & o & Hf & Hp & _); [vm_compute; reflexivity|]. by exists ms, o.
Defined.
