(* ===== verification/HoldfastdWitness.v ===== *)
(** * Concrete starts of the daemon *)
From S2P Require Import Prelude PrefixCode Protocol Ids Paths Utf8 Auth Pam History TerminalModel Launch SessionCore SessionWitness Forward ConnAuth Frontdoor Transport Startup Holdfastd HoldfastdProps.

(** Signatures that carry their key. *)
Definition keyed_sign (k : array 32) (msg : bytes) : array 64 :=
  default (array_repeat 64 Byte.x00) (array_of 64 (array_bytes k ++ replicate 32 (default Byte.x00 (head msg)))).
#[local] Instance keyed_crypto : GrantCrypto := {|
  SigningKey := array 32; VerifyingKey := array 32;
  signing_from_bytes k := k; verifying_key k := k;
  verifying_from_bytes b := Some b; verifying_to_bytes k := k;
  ed_sign := keyed_sign; ed_verify k msg sig := bool_decide (sig = keyed_sign k msg);
  b64_encode := hex_bytes; b64_decode := unhex;
  claims_to_json c := pos_bytes (encode (claims_tuple c));
  claims_from_json l := tuple_claims <$> countable.decode (bytes_pos l) |}.
#[local] Instance keyed_laws : GrantCryptoLaws keyed_crypto.
Proof.
  split; simpl.
  - intros. by apply bool_decide_eq_true.
  - apply unhex_hex.
  - apply hex_no_dot.
  - intros [s a sv o i e j]. rewrite bytes_pos_bytes decode_encode //.
Qed.
#[local] Existing Instances toy_pty toy_hash echo_vt toy_ssh_crypto.

(** A system where every call succeeds; [b] is where its random values come from. *)
Definition easy_start (b : Byte.byte) : StartEnv := {|
  se_random_id := array_repeat 16 b; se_random_key := array_repeat 32 b;
  se_open _ := Ok {| of_len := 0; of_mode := 0x180; of_read := Ok [] |};
  se_self_signed := Ok [b]; se_certificates _ := Ok [[b]]; se_private_key _ := Ok (); se_tls_config _ := Ok ();
  se_endpoint a := Ok a;
  se_metadata _ := Ok {| md_dir := true; md_symlink := false; md_socket := true; md_mode := 0x1C0; md_dev := 1; md_ino := 2 |};
  se_parent_metadata _ := Ok {| md_dir := true; md_symlink := false; md_socket := false; md_mode := 0x1C0; md_dev := 1; md_ino := 1 |};
  se_bind_unix _ := Ok (); se_chmod _ _ := Ok (); se_create_dir_all _ := Ok (); se_open_dir _ := true;
  se_listen a := Ok a |}.
Definition easy_main (b : Byte.byte) : MainEnv := {|
  me_read_to_string _ := Ok []; me_mode _ := Ok 0x180; me_pem_certs _ := Ok [Ok []]; me_add_root _ := Ok ();
  me_pem_key _ := Ok (Some []); me_mtls _ _ := Ok (); me_connector _ _ _ := Ok (); me_start := easy_start b |}.
Definition easy_key (b : Byte.byte) : KeyEnv := {|
  ke_seed := array_repeat 32 b; ke_new_mode := 0x1A4; ke_write := None; ke_chmod := None; ke_stat := None; ke_read := None |}.

(** A multi-user deployment reachable from outside. *)
Definition deployment : list str := map lit [
  "--bind"; "0.0.0.0:8080"; "--wt-bind"; "[2001:db8::1]:4433"; "--wt-cert"; "/etc/c.pem"; "--wt-key"; "/etc/k.pem";
  "--ssh-auth"; "ann"; "/home/ann/keys"; "--password-auth"; "bob"; "--grant-key"; "/var/lib/grant.key";
  "--account"; "ann"; " ann , web"; "--drop-privileges"; "--spawner-socket"; "/run/spawner";
  "--upload-root"; "/var/uploads"; "--shell-idle-ttl"; "3600" ]%string.

Definition is_standalone {V : VtOps} {P : PtyOps} {HO : HashOps} {K : GrantCrypto} {Q : SshCrypto}
    (r : option (result (Running * Cli) CliError)) : bool :=
  match r with Some (Ok (Standalone _, _)) => true | _ => false end.

#[local] Notation first_run := (main false (lit "1") (easy_main Byte.x01) ∅ (λ _, easy_key Byte.x05) deployment).
#[local] Notation second_run fs := (main false (lit "1") (easy_main Byte.x02) fs (λ _, easy_key Byte.x06) deployment).

Example refused :
  is_standalone (main false (lit "1") (easy_main Byte.x01) ∅ (λ _, easy_key Byte.x05) (map lit ["--bind"; "0.0.0.0:1"]%string)) = false ∧
  is_standalone (main false (lit "1") (easy_main Byte.x01) ∅ (λ _, easy_key Byte.x05) []) = true ∧
  is_standalone (main false (lit "1") (easy_main Byte.x01) ∅ (λ _, easy_key Byte.x05) (map lit ["--drop-privileges"]%string)) = false.
Proof. by vm_compute. Qed.

Lemma holdfastd_secure_witness :
  ∃ d c, first_run = Some (Ok (Standalone d, c)) ∧ secure (cl_config c) d.
Proof.
  assert (is_standalone first_run = true) as H by (vm_compute; reflexivity).
  destruct first_run as [[[[d|? ? ?] c]|]|] eqn:E; try discriminate H.
  exists d, c. split; [reflexivity|]. exact (holdfastd_secure _ _ _ _ _ _ _ _ E).
Defined.

(** Restarted with other random values: the key file decides. *)
Lemma grants_survive_restart_witness :
  ∃ d c d' c' seed, first_run = Some (Ok (Standalone d, c)) ∧ second_run (cl_files c) = Some (Ok (Standalone d', c')) ∧
    dc_grant_signing_key (cl_config c) = Some seed ∧ d_server_id d' = d_server_id d.
Proof.
  assert (match first_run with
          | Some (Ok (Standalone _, c)) =>
              is_standalone (second_run (cl_files c)) && bool_decide (is_Some (dc_grant_signing_key (cl_config c)))
          | _ => false
          end = true) as H by (vm_compute; reflexivity).
  destruct first_run as [[[[d|? ? ?] c]|]|] eqn:E; try discriminate H.
  apply andb_true_iff in H as [H Hk%bool_decide_eq_true].
  destruct (second_run (cl_files c)) as [[[[d'|? ? ?] c']|]|] eqn:E'; try discriminate H.
  destruct (dc_grant_signing_key (cl_config c)) as [seed|] eqn:Ek; [|by destruct Hk].
  exists d, c, d', c', seed. split_and!; [reflexivity|exact E'|exact Ek|].
  exact (proj1 (grants_survive_restart false (lit "1") (easy_main Byte.x01) (easy_main Byte.x02) _ _ _ _ _ _ _ _ _ E Ek eq_refl E')).
Defined.
