(* ===== verification/SshAdapterWitness.v ===== *)
(** * Concrete connections to the SSH adapter

    A started adapter, and a connection that logs in with a key, opens a
    terminal, types, sees output and goes away. *)
From S2P Require Import Prelude Protocol Utf8 Conn Framing UploadProto Auth Pam SessionWitness ConnAuth ClientApi Forward Socks Transport Startup SshAdapter SshAdapterProps.
#[local] Existing Instances toy_ssh_crypto toy_hash.

(** ** Starting *)
Definition adapter_env : AdapterEnv := {|
  ae_open _ := Ok {| of_len := 1; of_mode := 0x180; of_read := Ok [Byte.x33] |};
  ae_parse_key b := if is_empty b then None else Some false;
  ae_bind a := Ok a |}.
Definition any_password (_ : PamVerifier) (user password : str) : option bool := Some (bool_decide (user = password)).
Definition adapter_args : list str :=
  [lit "--local-user"; lit "bob"; lit "--authorized-keys"; lit "ak"; lit "--host-key"; lit "hk"; lit "--dev-auth";
   lit "--password-auth"; lit "--max-connections"; lit "4"].

Lemma adapter_start_safe_witness :
  match adapter_main adapter_env any_password adapter_args with
  | Some (Ok (Some (c, local, ssh))) =>
      loopback local = true ∧ 1 ≤ max_connections c ≤ 256 ∧ methods ssh = [PublicKeyMethod; PasswordMethod]
  | _ => False
  end.
Proof.
  assert (match adapter_main adapter_env any_password adapter_args with
          | Some (Ok (Some (c, _, _))) => match password_auth c with Some _ => true | None => false end
          | _ => false
          end = true) as Hp by (vm_compute; reflexivity).
  destruct (adapter_main adapter_env any_password adapter_args) as [[[[[c local] ssh]|]|]|] eqn:E; [|discriminate Hp..].
  destruct (adapter_start_safe adapter_env any_password adapter_args c local ssh E)
    as (o & user & akeys & hkey & _ & _ & _ & _ & (_ & _ & Hl) & (_ & _ & Hm) & _ & _ & _ & _ & _ & Hw).
  split; [exact Hl|]. split; [exact Hm|]. destruct (password_auth c); [exact (proj1 (proj2 Hw))|discriminate Hp].
Defined.

(** ** One connection

    A stand-in for protobuf, for what the server says in this run. *)
Definition said (e : Envelope) : bytes :=
  match env_message e with
  | Some (MsgServerHello _) => [Byte.x01]
  | Some (MsgAuthenticationResult _) => [Byte.x02]
  | Some (MsgShellOpened _) => [Byte.x03]
  | Some (MsgShellAttached _) => [Byte.x04]
  | Some (MsgTerminalOutput d) => Byte.x05 :: d
  | _ => [Byte.x00]
  end.
Definition demo_hello : ServerHello := {|
  sh_protocol_major := PROTOCOL_MAJOR; sh_protocol_minor := PROTOCOL_MINOR; sh_capabilities := [];
  sh_max_frame_bytes := FRAME_BYTES_DEFAULT; sh_max_datagram_bytes := 1200; sh_keepalive_interval_ms := 0 |}.
Definition demo_attached : ShellAttached := {|
  sa_screen_snapshot := [Byte.x24]; sa_screen_revision := 1; sa_rotated_resume_token := [Byte.x0c];
  sa_oldest_history_line_id := 0; sa_newest_history_line_id := 0 |}.
Definition demo_opened : Envelope :=
  with_request_id 1 (with_shell_id [Byte.x07] (plain (MsgShellOpened {| so_resume_token := [Byte.x08]; so_expires_at_ms := 0 |}))).
Definition meant (l : bytes) : option Envelope :=
  match l with
  | [Byte.x01] => Some (plain (MsgServerHello demo_hello))
  | [Byte.x02] => Some (auth_ok 0 (lit "bob") 0)
  | [Byte.x03] => Some demo_opened
  | [Byte.x04] => Some (plain (MsgShellAttached demo_attached))
  | Byte.x05 :: d => Some (plain (MsgTerminalOutput d))
  | _ => None
  end.
#[local] Instance said_prost : ProstMessage Envelope := {| prost_encode := said; prost_decode := meant |}.

Definition heard (b : bytes) : ReadEvent :=
  match meant b with
  | Some e => match encode_frame e FRAME_BYTES_DEFAULT with Ok f => RData f | Err _ => RClosed end
  | None => RClosed
  end.
Definition demo_remote : Remote := {|
  rm_network := {| net_info _ := Ok (Some 4433, Some (Ok (repeat Byte.x00 32)));
    net_webtransport _ _ _ := Ok []; net_stream := Ok (map heard [[Byte.x01]; [Byte.x02]; [Byte.x03]], []);
    net_keys _ := Err []; net_build := [] |};
  rm_stream := Ok (map heard [[Byte.x04]; [Byte.x05; Byte.x61]], []);
  rm_key := array_repeat 16 Byte.x00 |}.
Definition demo_shared : Shared := {|
  sh_remote_url := lit "http://127.0.0.1:8080"; sh_remote_auth := MDev; sh_local_user := lit "bob";
  sh_authorized_keys := toy_verifier; sh_password_auth := None |}.

Definition demo_labels : list AdapterLabel :=
  [LPublicKey (lit "bob") (Some (lit "4")); LPublicKey (lit "bob") (Some (lit "3")); LOpen 1; LOpen 2;
   LPty 1 (lit "xterm") 100 30; LShell 1 demo_remote; LShell 1 demo_remote; LSnapshot true; LData 1 [Byte.x6c];
   LTurn; LEvent true; LData 1 [Byte.x73]; LClose 1].

Fixpoint replay (ls : list AdapterLabel) (r : Adapter * list bytes * list TerminalSize)
    : option (Adapter * list bytes * list TerminalSize) :=
  match ls with
  | [] => Some r
  | l :: ls =>
      let '(a, ins, shells) := r in
      a' ← adapter_step demo_shared a l; replay ls (a', ins ++ taken l a a', shells ++ opened l a a')
  end.
Lemma replay_run ls a ins shells a' ins' shells' :
  Forall label_wf ls → adapter_run demo_shared a ins shells → replay ls (a, ins, shells) = Some (a', ins', shells') →
  adapter_run demo_shared a' ins' shells'.
Proof.
  revert a ins shells. induction ls as [|l ls IH]; intros a ins shells Hw Hr; simpl; [by intros [= <- <- <-]|].
  apply Forall_cons in Hw as [Hl Hw]. intros (a1 & H1 & H2)%bind_Some. eapply IH; [done| |exact H2]. by apply run_step.
Qed.

Definition demo_run : Adapter * list bytes * list TerminalSize :=
  default (adapter_new, [], []) (replay demo_labels (adapter_new, [], [])).
Lemma demo_ran : adapter_run demo_shared demo_run.1.1 demo_run.1.2 demo_run.2.
Proof.
  apply (replay_run demo_labels adapter_new [] []).
  - repeat constructor; vm_compute; discriminate.
  - constructor.
  - vm_compute. reflexivity.
Qed.

