(* ===== verification/HfWitness.v ===== *)
(** * Concrete runs of the command-line client *)
From S2P Require Import Prelude PrefixCode Protocol Ids Utf8 Framing Conn UploadProto SessionWitness ClientStore ReplaceFile ClientStoreProps ClientApi ClientWitness HfState HfCli HfProps.
#[local] Existing Instances toy_base64 toy_base64_laws toy_hash.

(** ** The file, as text *)
Program Definition entry_code : code ShellEntry :=
  via (both text (both text (maybe text))) (λ e, (en_token e, (en_name e, en_idempotency_key e)))
    (λ x, {| en_token := x.1; en_name := x.2.1; en_idempotency_key := x.2.2 |}) _.
Next Obligation. by intros []. Qed.
Program Definition hf_code : code HfState :=
  via (both number (both (table (table entry_code)) (table text))) (λ s, (hs_version s, (hs_servers s, hs_grants s)))
    (λ x, {| hs_version := x.1; hs_servers := x.2.1; hs_grants := x.2.2 |}) _.
Next Obligation. by intros []. Qed.

Definition from_text (b : bytes) : option bytes :=
  match from_utf8 b with Ok t => from_option id None (unhex t) | Err _ => None end.
#[local] Instance toy_hf_json : HfJson := {|
  hf_json s := str_bytes (hex (put hf_code s));
  hf_parse l := b ← from_text l; '(s, _) ← get hf_code b; Some s |}.

Lemma hex_text l : from_utf8 (str_bytes (hex l)) = Ok (hex l).
Proof.
  apply from_utf8_str_bytes. eapply Forall_impl; [apply hex_bytes_ascii|]. intros c Hc.
  rewrite /is_ascii in Hc. rewrite /is_scalar. to_prop. lia.
Qed.
#[local] Instance toy_hf_json_laws : HfJsonLaws toy_hf_json.
Proof.
  split; intros s.
  - change (is_ok (from_utf8 (str_bytes (hex (put hf_code s)))) = true). by rewrite hex_text.
  - change ((b ← from_text (str_bytes (hex (put hf_code s))); '(s, _) ← get hf_code b; Some s) = Some s).
    rewrite /from_text hex_text store_unhex_hex. change (('(s, _) ← get hf_code (put hf_code s); Some s) = Some s).
    by rewrite -{1}(app_nil_r (put hf_code s)) get_put.
Qed.

(** ** A shell opened, lost, recovered and left

    What the server says, by number. *)
Definition hf_shell : bytes := replicate 8 Byte.x07.
Definition hf_hello : ServerHello := {|
  sh_protocol_major := PROTOCOL_MAJOR; sh_protocol_minor := PROTOCOL_MINOR; sh_capabilities := [];
  sh_max_frame_bytes := FRAME_BYTES_DEFAULT; sh_max_datagram_bytes := 1200; sh_keepalive_interval_ms := 0 |}.
Definition hf_opened (request : Z) (token : Byte.byte) : Envelope :=
  with_request_id request (with_shell_id hf_shell (plain (MsgShellOpened {| so_resume_token := [token]; so_expires_at_ms := 0 |}))).
Definition hf_attached (token : Byte.byte) : Envelope :=
  plain (MsgShellAttached {| sa_screen_snapshot := [Byte.x24]; sa_screen_revision := 1; sa_rotated_resume_token := [token];
    sa_oldest_history_line_id := 0; sa_newest_history_line_id := 0 |}).
Definition hf_listed : Envelope :=
  with_request_id 1 (plain (MsgShellList [{| psi_server_id := []; psi_shell_id := hf_shell; psi_state := SHELL_STATE_RUNNING;
    psi_title := []; psi_created_at_ms := 0; psi_last_attached_at_ms := 0 |}])).
Definition hf_meant (l : bytes) : option Envelope :=
  match l with
  | [Byte.x01] => Some (plain (MsgServerHello hf_hello))
  | [Byte.x02] => Some (auth_ok 0 (lit "bob") 0)
  | [Byte.x03] => Some (hf_opened 1 Byte.x0a)
  | [Byte.x04] => Some (hf_attached Byte.x0b)
  | [Byte.x05] => Some (plain (MsgTerminalOutput [Byte.x61]))
  | [Byte.x06] => Some (plain toy_replayed)
  | [Byte.x07] => Some hf_listed
  | [Byte.x08] => Some (hf_opened 2 Byte.x0c)
  | [Byte.x09] => Some (hf_attached Byte.x0d)
  | _ => None
  end.
#[local] Instance hf_prost : ProstMessage Envelope := {| prost_encode _ := [Byte.x00]; prost_decode := hf_meant |}.

Definition says_byte (b : Byte.byte) : ReadEvent := RData [Byte.x00; Byte.x00; Byte.x00; Byte.x01; b].
Definition network (said : bytes) : Network := {|
  net_info _ := Ok (Some 4433, Some (Ok (repeat Byte.x00 32))); net_webtransport _ _ _ := Ok [];
  net_stream := Ok (map says_byte said, []); net_keys _ := Err []; net_build := [] |}.
Definition hf_world : Hf := {|
  hf_disk := toy_disk0; hf_networks := [network [Byte.x01; Byte.x02; Byte.x03]; network [Byte.x01; Byte.x02; Byte.x07; Byte.x08]];
  hf_streams := [Ok (map says_byte [Byte.x04; Byte.x05] ++ [RClosed], []); Ok (map says_byte [Byte.x06], []);
                 Ok (map says_byte [Byte.x09], [])];
  hf_winsizes := [Some (100, 30)]; hf_stdout_ok := []; hf_random := [array_repeat 16 Byte.x02]; hf_clock := [];
  hf_stdout := []; hf_slept := []; hf_held := []; hf_verdict := None |}.
Definition hf_name : str := lit "state.json".
#[local] Notation hf_file := (Ok hf_name : result str str).

Definition hf_started : Hf * done Started := main hf_file [lit "open"] hf_world.
Definition hf_session : Session :=
  match hf_started.2 with
  | Val (Interactive s) => s
  | _ => {| ss_opts := opts_default; ss_shell_id := []; ss_name := []; ss_key := None; ss_conn := None; ss_token := [];
            ss_backoff := 0 |}
  end.
Fixpoint play (ready : list Ready) (r : Phase * Hf) : Phase * Hf :=
  match ready with
  | [] => r
  | x :: ready => play ready (default r (session_step hf_file r.1 x r.2))
  end.
Definition hf_labels : list Ready :=
  [RdyShell; RdyStdin [Byte.x6c]; RdyShell; RdyShell; RdyShell; RdyShell; RdyWinch].
Definition hf_ran : Phase * Hf := play hf_labels (PLoop hf_session, hf_started.1).

Lemma play_run ready s w p1 w1 : session_run hf_name s w p1 w1 → session_run hf_name s w (play ready (p1, w1)).1 (play ready (p1, w1)).2.
Proof.
  revert p1 w1. induction ready as [|x ready IH]; intros p1 w1 Hr; [done|]. cbn [play fst snd].
  destruct (session_step hf_file p1 x w1) as [[p2 w2]|] eqn:E; cbn [default]; apply IH; [|done]. by eapply run_turn.
Qed.

Lemma fresh_says : says hf_name toy_disk0 hf_state_default.
Proof.
  split_and!; [constructor|done|]. exists [], None. split_and!; [|done..]. split; [..|set_solver].
  - intros D i HD. assert (D = ∅) as -> by (cbn in HD; set_solver). by rewrite lookup_empty.
  - intros D i HD. assert (D = ∅) as -> by (cbn in HD; set_solver). by rewrite lookup_empty.
  - intros D i HD. assert (D = ∅) as -> by (cbn in HD; set_solver). by rewrite lookup_empty.
  - intros D n i HD. assert (D = ∅) as -> by (cbn in HD; set_solver). by rewrite lookup_empty.
Qed.


(** ** Recovery cut off

    The same, but the second connection is lost before the server has answered:
    the session ends and its entry, recovery key included, is gone. *)
Definition cut_network : Network := {|
  net_info _ := Ok (Some 4433, Some (Ok (repeat Byte.x00 32))); net_webtransport _ _ _ := Ok [];
  net_stream := Ok (map says_byte [Byte.x01; Byte.x02] ++ [RClosed], []); net_keys _ := Err []; net_build := [] |}.
Definition lost_world : Hf := with_found hf_world
  [network [Byte.x01; Byte.x02; Byte.x03]; cut_network]
  [Ok (map says_byte [Byte.x04] ++ [RClosed], []); Ok (map says_byte [Byte.x06], [])] [] [array_repeat 16 Byte.x02].
Definition lost_ran : Phase * Hf :=
  match main hf_file [lit "open"] lost_world with
  | (w, Val (Interactive s)) => play [RdyShell; RdyShell; RdyShell] (PLoop s, w)
  | (w, _) => (PPanicked, w)
  end.
Definition on_file_now (w : Hf) : option HfState :=
  i ← names (hf_disk w) !! hf_name; hf_parse (inode_content (hf_disk w) i).

Lemma recovery_loss_forgets :
  match lost_ran with
  | (PEnded (EndRecovery (HClient (EText _))), w) =>
      (x ← on_file_now w; Some (entry x (lit "http://127.0.0.1:8080") (hex hf_shell))) = Some None
  | _ => False
  end.
Proof. vm_compute. reflexivity. Qed.

(** ** The desktop client takes over *)
#[local] Instance toy_json_v1 : StoreJson := {|
  store_chunks := @store_chunks toy_json; store_parse := @store_parse toy_json;
  v1_parse b := v1_of <$> hf_parse b |}.
#[local] Instance toy_json_v1_laws : StoreJsonLaws toy_json_v1.
Proof. intros d cs. apply (@store_json_roundtrip toy_json _ d cs). Qed.
Definition hf_entry : ShellEntry := {|
  en_token := hex [Byte.x0d]; en_name := lit "shell"; en_idempotency_key := Some (hex (replicate 16 Byte.x02)) |}.
Definition hf_left : HfState := {|
  hs_version := 1; hs_servers := {[ lit "http://127.0.0.1:8080" := {[ hex hf_shell := hf_entry ]} ]}; hs_grants := ∅ |}.
Definition hf_saved : ClientDisk := (hf_save hf_name hf_left toy_disk0).1.
Definition imported : ClientDisk * exec (ClientStore * Z) :=
  import_v1 toy_st0 hf_name (λ _, array_repeat 8 Byte.x01) hf_saved.

Lemma hf_state_imported_witness :
  match imported.2 with
  | Returns (st, n) => n = 1 ∧ ∃ k r, sd_servers (data st) !! k = Some r ∧ sv_url r = lit "http://127.0.0.1:8080" ∧
      sr_token <$> sv_shells r !! hex hf_shell = Some (hex [Byte.x0d])
  | _ => False
  end.
Proof.
  assert (says hf_name hf_saved hf_left) as Hs.
  { assert (hf_save hf_name hf_left toy_disk0 = (hf_saved, Returns ())) as E by (vm_compute; reflexivity).
    pose proof (save_says hf_name toy_disk0 _ hf_left fresh_says ltac:(vm_compute; discriminate)) as H.
    rewrite E in H. exact H. }
  assert (match imported.2 with Returns (_, n) => n =? 1 | _ => false end = true) as Hi by (vm_compute; reflexivity).
  destruct imported as [d' [[st n]|?|]] eqn:E; [|discriminate Hi..]. cbn [snd] in Hi |- *.
  split; [by apply Z.eqb_eq in Hi|].
  destruct (hf_state_imported hf_name hf_left hf_saved toy_st0 (λ _, array_repeat 8 Byte.x01) d' st n
    (lit "http://127.0.0.1:8080") (hex hf_shell) hf_entry) as (k & r & Hk & Hu & _ & Hr).
  - change (v1_of <$> hf_parse (hf_json hf_left) = Some (v1_of hf_left)). by rewrite hf_json_roundtrip.
  - exact Hs.
  - reflexivity.
  - apply (@bool_decide_unpack _ _). vm_compute. exact I.
  - exact E.
  - vm_compute. reflexivity.
  - vm_compute. discriminate.
  - exists k, r. split; [exact Hk|]. split; [exact Hu|]. by rewrite Hr.
Defined.
