(* ===== verification/DesktopOutputProps.v ===== *)
(** * The desktop's webview gets the terminal's output in order, within bounds *)
From S2P Require Import Prelude ClientStore ClientCore ClientWitness DesktopOutput.

Section output.
Context {B : Base64}.
Implicit Types (t : OutTask) (o : Outputs).

(** ** Batches *)
Lemma drain_loop_spec batch chunks sink batch' leftover sink' :
  drain_loop batch chunks sink = (batch', leftover, sink') →
  batch ++ concat sink = batch' ++ default [] leftover ++ concat sink' ∧
  (batch' = batch ∨ len batch' ≤ OUTPUT_BATCH_BYTES) ∧
  (∀ x, leftover = Some x ∨ x ∈ sink' → x ∈ sink) ∧ len sink' ≤ len sink.
Proof.
  revert batch chunks. induction sink as [|next sink IH]; intros batch chunks; cbn [drain_loop].
  - destruct (chunks <? _); intros [= <- <- <-]; cbn; split_and!; try done; try (by left); try lia; intros x [?|?]; (done || set_solver).
  - destruct (chunks <? _); [|intros [= <- <- <-]; cbn; split_and!; try done; first [by left|lia|set_solver]].
    rewrite /append_to_output_batch. destruct (_ || _) eqn:Eo.
    + intros [= <- <- <-]. cbn. rewrite len_cons. split_and!; try done; first [by left|lia|set_solver].
    + to_prop. intros (H1 & H2 & H3 & H4)%IH. cbn. rewrite len_cons. split_and!; [by rewrite -H1 app_assoc| |set_solver|lia].
      destruct H2 as [->|H2]; [|by right]. rewrite /sat_sub in H0. destruct next as [|x next]; [left; by rewrite app_nil_r|right].
      rewrite len_app. rewrite len_cons in H0 |- *. pose proof (len_nonneg next). lia.
Qed.

(** ** One task *)
Definition waiting (pending : option bytes) (sink : list bytes) : bytes := default [] pending ++ concat sink.

Record task_ok (id : Z) t : Prop := {
  ok_stream : ∃ snapshot bs, ot_batches t = snapshot :: bs ∧
    concat bs ++ waiting (ot_pending t) (ot_sink t) = concat (ot_fed t) ∧
    Forall (λ b, len b ≤ OUTPUT_BATCH_BYTES ∨ b ∈ ot_fed t) bs;
  ok_packets : ∃ n, ot_packets t = imap (λ i b, packet id (Z.min (Z.of_nat i) u64_max) b) (take n (ot_batches t)) ∧
    (ot_phase t ≠ TDone → n = length (ot_batches t));
  ok_sequence : ot_sequence t = Z.min (len (ot_batches t) - 1) u64_max;
  ok_sink : len (ot_sink t) ≤ OUTPUT_QUEUE;
  ok_from x : ot_pending t = Some x ∨ x ∈ ot_sink t → x ∈ ot_fed t;
  ok_window : len (ot_batches t) ≤ u64_max →
    match ot_phase t with
    | TAck => (ot_acked t = None ∧ ot_sequence t = 0) ∨ (ot_acked t = Some (ot_sequence t - 2) ∧ Z.even (ot_sequence t) = true)
    | TWindow n => ∃ a, ot_acked t = Some a ∧ Z.even a = true ∧ ((n = 2%nat ∧ ot_sequence t = a) ∨ (n = 1%nat ∧ ot_sequence t = a + 1))
    | TDone => ot_sequence t ≤ default 0 (ot_acked t) + 2
    end;
}.

Lemma requires_ack_even n : output_packet_requires_ack n = Z.even n.
Proof.
  rewrite /output_packet_requires_ack /OUTPUT_PACKET_WINDOW Zeven_mod. destruct (n =? 0) eqn:E; [|done]. to_prop. by subst.
Qed.

Lemma task_start_ok id snapshot ok : task_ok id (task_start id snapshot ok).
Proof.
  split; cbn.
  - exists snapshot, []. by split_and!.
  - destruct ok; [exists 1%nat|exists 0%nat]; (split; [|done]); [|done]. cbn. rewrite Z.min_l //.
  - done.
  - done.
  - intros x [?|?]; [done|set_solver].
  - intros _. destruct ok; [by left|done].
Qed.

Lemma window_bound id t : task_ok id t → len (ot_batches t) ≤ u64_max → ot_sequence t ≤ default 0 (ot_acked t) + 2.
Proof.
  intros [_ _ _ _ _ Hw] Hl. specialize (Hw Hl). destruct (ot_phase t) as [|n|]; [| |done].
  - destruct Hw as [[-> ->]|[-> _]]; cbn; lia.
  - destruct Hw as (a & -> & _ & [[_ ->]|[_ ->]]); cbn; lia.
Qed.

Lemma set_done_ok id t : task_ok id t → task_ok id (set_phase t TDone (ot_acked t)).
Proof.
  intros Ht. pose proof (window_bound id t Ht) as Hb. destruct Ht as [H1 (n & H2 & _) H3 H4 H5 _]. split; try done.
  by exists n.
Qed.

Lemma await_ack_ok id t ack elapsed t' : task_ok id t → ot_phase t = TAck → await_ack t ack elapsed = Some t' → task_ok id t'.
Proof.
  intros Ht Hp. rewrite /await_ack. destruct ack as [a|]; [|destruct elapsed; [|done]; intros [= <-]; by apply set_done_ok].
  destruct (a =? ot_sequence t) eqn:Ea; intros [= <-]; [|by apply set_done_ok]. to_prop. subst a.
  destruct Ht as [H1 (n & H2 & Hn) H3 H4 H5 H6]. rewrite Hp in Hn, H6. split; try done.
  - exists n. split; [done|]. intros _. by apply Hn.
  - intros Hl. cbn in *. exists (ot_sequence t). split; [done|]. split; [|by left].
    destruct (H6 Hl) as [[_ ->]|[_ ?]]; done.
Qed.

(** What a packet starts with comes from the output. *)
Lemma first_chunk_spec t first sink : first_chunk t = Some (Some (first, sink)) →
  waiting (ot_pending t) (ot_sink t) = first ++ concat sink ∧ (ot_pending t = Some first ∨ first ∈ ot_sink t) ∧
  (∀ x, x ∈ sink → x ∈ ot_sink t) ∧ len sink ≤ len (ot_sink t).
Proof.
  rewrite /first_chunk /waiting. destruct (ot_pending t) as [x|]; [|destruct (ot_sink t) as [|x s]; [by destruct (ot_sink_open t)|]];
    intros [= <- <-]; cbn; rewrite ?len_cons; split_and!; try done; try lia; try (by left); (set_solver || by right; set_solver).
Qed.

Lemma window_turn_ok id t rest ok t' :
  task_ok id t → ot_phase t = TWindow rest → window_turn id t rest ok = Some t' → task_ok id t'.
Proof.
  intros Ht Hp. rewrite /window_turn. intros (f & Hf & H)%bind_Some.
  destruct f as [[first sink]|]; [|injection H as <-; by apply set_done_ok].
  destruct (drain_output_batch first sink) as [[batch leftover] sink'] eqn:Ed. injection H as <-.
  apply first_chunk_spec in Hf as (Hw & Hin & Hsub & Hl). apply drain_loop_spec in Ed as (D1 & D2 & D3 & D4).
  destruct Ht as [(snapshot & bs & Eb & Hs & Hbs) (n & H2 & Hn) H3 H4 H5 H6]. rewrite Hp in Hn, H6. specialize (Hn ltac:(done)).
  assert (first ∈ ot_fed t) as Hfirst by (apply H5; destruct Hin; auto).
  assert (1 ≤ len (ot_batches t)) as Hpos by (rewrite Eb len_cons; pose proof (len_nonneg bs); lia).
  split; cbn [ot_batches ot_pending ot_sink ot_fed ot_packets ot_phase ot_sequence ot_acked].
  - exists snapshot, (bs ++ [batch]). split; [by rewrite Eb|]. split.
    + rewrite concat_app /= app_nil_r -app_assoc -Hs Hw D1. by rewrite /waiting.
    + apply Forall_app. split; [done|]. constructor; [|done]. destruct D2 as [->|D2]; [by right|by left].
  - subst n. rewrite firstn_all in H2. destruct ok.
    + exists (length (ot_batches t ++ [batch])). split; [|done]. rewrite firstn_all imap_app H2. f_equal. cbn.
      rewrite Nat.add_0_r H3. do 2 f_equal. rewrite /len in Hpos |- *. lia.
    + exists (length (ot_batches t)). split; [|done]. by rewrite take_app_length H2.
  - rewrite H3 len_app len_cons len_nil. lia.
  - lia.
  - intros x Hx. apply H5. right. apply Hsub, D3, Hx.
  - rewrite len_app len_cons len_nil. intros Hmax. destruct (H6 ltac:(lia)) as (a & Ha & Hev & Hcase).
    assert (Z.min (ot_sequence t + 1) u64_max = ot_sequence t + 1) as -> by (rewrite H3; lia).
    rewrite requires_ack_even Ha. destruct ok; cbn [negb].
    + destruct Hcase as [[-> Hq]|[-> Hq]]; rewrite Hq.
      * rewrite Z.even_add Hev /=. exists a. split_and!; [done..|]. right. done.
      * assert (Z.even (a + 1 + 1) = true) as Hev2 by by rewrite -Z.add_assoc Z.even_add Hev.
        rewrite Hev2. right. split; [f_equal; lia|done].
    + cbn. lia.
Qed.

Lemma task_turn_ok id t ack ok elapsed t' : task_ok id t → task_turn id t ack ok elapsed = Some t' → task_ok id t'.
Proof.
  intros Ht. rewrite /task_turn. destruct (ot_phase t) eqn:Ep; [by apply await_ack_ok|by apply window_turn_ok|done].
Qed.

Lemma feed_ok id t b t' : task_ok id t → feed t b = Some t' → task_ok id t'.
Proof.
  intros [(snapshot & bs & Eb & Hs & Hbs) H2 H3 H4 H5 H6]. rewrite /feed.
  assert (∀ q, (if ot_sink_open t && (len (ot_sink t) <? OUTPUT_QUEUE) then Some q else None) = Some t' →
    q = t' ∧ len (ot_sink t) < OUTPUT_QUEUE) as Hq.
  { intros q. destruct (_ && _) eqn:E; [|done]. intros [= <-]. to_prop. done. }
  intros H. assert (ot_phase t ≠ TDone) as Hd by by destruct (ot_phase t).
  assert (len (ot_sink t) < OUTPUT_QUEUE ∧ t' = {| ot_phase := ot_phase t; ot_sequence := ot_sequence t; ot_pending := ot_pending t;
                ot_sink := ot_sink t ++ [b]; ot_sink_open := true; ot_fed := ot_fed t ++ [b];
                ot_batches := ot_batches t; ot_packets := ot_packets t; ot_acked := ot_acked t |}) as [Hl ->].
  { destruct (ot_phase t); [apply Hq in H as [<- ?]; done..|done]. }
  split; cbn; try done.
  - exists snapshot, bs. split; [done|]. split.
    + rewrite /waiting !concat_app -Hs /waiting -!app_assoc. done.
    + eapply Forall_impl; [exact Hbs|]. intros x [?|?]; [by left|right; set_solver].
  - rewrite len_app len_cons len_nil. lia.
  - intros x [Hx|Hx]; [set_solver|]. apply elem_of_app in Hx as [?|?]; set_solver.
Qed.

Lemma close_sink_ok id t : task_ok id t → task_ok id (close_sink t).
Proof. by intros [? ? ? ? ? ?]; split. Qed.

(** ** All tasks *)
Inductive out_step : Outputs → Outputs → Prop :=
  | out_register o o' id : oa_next_id o < u64_max → register o = (o', Ok id) → out_step o o'
  | out_answered o id ack info ok :
      oa_entries o !! id = Some ack → oa_tasks o !! id = None → out_step o (attach_answered o id info ok)
  | out_feed o id t b t' : oa_tasks o !! id = Some t → feed t b = Some t' → out_step o (set_task o id t')
  | out_close o id t : oa_tasks o !! id = Some t → out_step o (set_task o id (close_sink t))
  | out_ack o id sequence : out_step o (acknowledge o id sequence).1
  | out_run o id ok elapsed o' : run_task o id ok elapsed = Some o' → out_step o o'.

Record outputs_ok o : Prop := {
  oo_tasks : map_Forall task_ok (oa_tasks o);
  oo_next : 0 < oa_next_id o;
  oo_fresh id : is_Some (oa_entries o !! id) ∨ is_Some (oa_tasks o !! id) → id < oa_next_id o;
  oo_entry id t : oa_tasks o !! id = Some t → (is_Some (oa_entries o !! id) ↔ ot_phase t ≠ TDone);
  oo_size : Z.of_nat (size (oa_entries o)) ≤ MAX_ACTIVE_OUTPUT_ACKS;
}.

Lemma outputs_new_ok : outputs_ok outputs_new.
Proof. split; [done|done| |done|done]. cbn. intros id. rewrite !lookup_empty. by intros [[? ?]|[? ?]]. Qed.

(** The channels' content matters to none of this. *)
Lemma with_entries_ok o e : outputs_ok o → dom e = dom (oa_entries o) → outputs_ok (with_entries o e).
Proof.
  intros [H1 H2 H3 H4 H5] Hd. assert (∀ id, is_Some (e !! id) ↔ is_Some (oa_entries o !! id)) as He.
  { intros id. by rewrite -!elem_of_dom Hd. }
  split; cbn; try done.
  - intros id. rewrite He. apply H3.
  - intros id t Ht. rewrite He. by apply H4.
  - by rewrite -!size_dom Hd size_dom in H5 |- *.
Qed.

Lemma remove_size {V} (m : gmap Z V) id : Z.of_nat (size (delete id m)) ≤ Z.of_nat (size m).
Proof.
  destruct (m !! id) eqn:E; [|by rewrite delete_id]. rewrite map_size_delete E. lia.
Qed.

Lemma set_task_ok o id t : outputs_ok o → task_ok id t → is_Some (oa_entries o !! id) ∨ ot_phase t = TDone →
  is_Some (oa_entries o !! id) ∨ is_Some (oa_tasks o !! id) → outputs_ok (set_task o id t).
Proof.
  intros [H1 H2 H3 H4 H5] Ht He Hk. rewrite /set_task.
  assert (map_Forall task_ok (<[id := t]> (oa_tasks o))) as Hm by by apply map_Forall_insert_2.
  assert (∀ i, is_Some (<[id := t]> (oa_tasks o) !! i) → i < oa_next_id o) as Hf.
  { intros i [Hi|Hi]%lookup_insert_is_Some; [subst i; by apply H3|]. apply H3. right. by destruct Hi. }
  destruct (ot_phase t) eqn:Ep; [| |clear He]; try (destruct He as [He|He]; [|done]).
  1,2: split; cbn; try done; [intros i [Hi|Hi]; [apply H3; by left|by apply Hf]|];
    intros i t' [[<- <-]|[Hn Hi]]%lookup_insert_Some; [rewrite Ep; done|by apply H4].
  split; cbn; try done.
  - intros i [Hi|Hi]; [|by apply Hf]. rewrite lookup_delete_is_Some in Hi. apply H3. left. by destruct Hi.
  - intros i t' [[<- <-]|[Hn Hi]]%lookup_insert_Some.
    + rewrite Ep lookup_delete_eq. split; [by intros [? ?]|done].
    + rewrite lookup_delete_ne //. by apply H4.
  - pose proof (remove_size (oa_entries o) id). lia.
Qed.

Lemma feed_phase t b t' : feed t b = Some t' → ot_phase t ≠ TDone ∧ ot_phase t' = ot_phase t.
Proof.
  rewrite /feed. destruct (ot_phase t) eqn:Ep; [..|done]; destruct (_ && _); try done; intros [= <-]; by rewrite /= ?Ep.
Qed.

Lemma task_turn_live id t ack ok elapsed t' : task_turn id t ack ok elapsed = Some t' → ot_phase t ≠ TDone.
Proof. rewrite /task_turn. by destruct (ot_phase t). Qed.

Lemma out_step_ok o o' : outputs_ok o → out_step o o' → outputs_ok o'.
Proof.
  intros Ho Hs. pose proof Ho as [H1 H2 H3 H4 H5]. destruct Hs as [o o' id Hn Hr|o id ack info ok He Ht|o id t b t' Ht Hf|o id t Ht|o id sequence|o id ok elapsed o' Hr].
  - revert Hr. rewrite /register. destruct (_ <=? _) eqn:El; [done|]. to_prop. intros [= <- <-].
    assert (wrap64 (oa_next_id o + 1) = oa_next_id o + 1) as Hw by (apply Z.mod_small; unfold u64_max in Hn; lia).
    split; cbn; rewrite ?Hw; [done|lia| | |].
    + intros i Hi. assert (i = oa_next_id o ∨ i < oa_next_id o) as [->|?]; [|lia..].
      destruct Hi as [Hi|Hi]; [|right; apply H3; by right].
      apply lookup_insert_is_Some in Hi as [<-|[_ Hi]]; [by left|right; apply H3; by left].
    + intros i t Hi. rewrite lookup_insert_ne; [by apply H4|]. intros <-. pose proof (H3 (oa_next_id o) ltac:(right; by eexists)). lia.
    + rewrite map_size_insert. destruct (oa_entries o !! oa_next_id o); unfold MAX_ACTIVE_OUTPUT_ACKS in *; cbn; lia.
  - destruct info as [info|e]; cbn.
    + apply set_task_ok; [done|apply task_start_ok|left; by eexists|left; by eexists].
    + split; cbn; try done.
      * intros i [Hi|Hi]; [rewrite lookup_delete_is_Some in Hi; apply H3; left; by destruct Hi|apply H3; by right].
      * intros i t Hi. rewrite lookup_delete_ne; [by apply H4|]. intros <-. congruence.
      * pose proof (remove_size (oa_entries o) id). lia.
  - destruct (feed_phase _ _ _ Hf) as [Hd Hp]. apply set_task_ok; [done| | |].
    + eapply feed_ok; [by apply (H1 id)|done].
    + left. by apply (H4 id t).
    + right. by eexists.
  - apply set_task_ok; [done| | |].
    + apply close_sink_ok. by apply (H1 id).
    + cbn. destruct (decide (ot_phase t = TDone)); [by right|left; by apply (H4 id t)].
    + right. by eexists.
  - rewrite /acknowledge. destruct (oa_entries o !! id) as [[|]|] eqn:E; cbn; [done| |done].
    apply with_entries_ok; [done|]. apply dom_insert_lookup_L. by eexists.
  - revert Hr. rewrite /run_task. intros (t & Ht & (t' & Hr & [= <-])%bind_Some)%bind_Some.
    pose proof (task_turn_live _ _ _ _ _ _ Hr) as Hd. pose proof (proj2 (H4 id t Ht) Hd) as He.
    assert (task_ok id t') as Hok by (eapply task_turn_ok; [by apply (H1 id)|done]).
    assert (∀ e, dom e = dom (oa_entries o) → outputs_ok (set_task (with_entries o e) id t')) as Hset.
    { intros e Hde. apply set_task_ok; [by apply with_entries_ok|done| |right; by eexists].
      left. cbn. apply elem_of_dom. rewrite Hde. by apply elem_of_dom. }
    destruct (ot_phase t); [apply Hset, dom_alter_L|..]; by apply (Hset (oa_entries o)).
Qed.

(** A task that has not returned can go on, or waits for the acknowledgement of
    its last packet, or for output. *)
Lemma task_progress o id t : outputs_ok o → oa_tasks o !! id = Some t → ot_phase t ≠ TDone →
  (∃ o', run_task o id true false = Some o') ∨
  (ot_phase t = TAck ∧ (acknowledge o id (ot_sequence t)).2 = Ok () ∧
   ∃ o', run_task (acknowledge o id (ot_sequence t)).1 id true false = Some o') ∨
  (∃ n, ot_phase t = TWindow n ∧ ot_pending t = None ∧ ot_sink t = [] ∧ ot_sink_open t = true).
Proof.
  intros Ho Ht Hd. pose proof (proj2 (oo_entry _ Ho id t Ht) Hd) as [ack He].
  rewrite /run_task Ht /= He /=. destruct (ot_phase t) as [|n|] eqn:Ep; [| |done].
  - destruct ack as [a|].
    + left. rewrite /task_turn Ep /=. by destruct (a =? _); eexists.
    + right. left. rewrite /acknowledge He /= Ht /= lookup_insert_eq /= /task_turn Ep /= Z.eqb_refl. split_and!; [done..|by eexists].
  - rewrite /task_turn Ep /window_turn /first_chunk.
    destruct (ot_pending t) as [x|] eqn:Epe; [left; cbn; destruct (drain_output_batch _ _) as [[? ?] ?]; by eexists|].
    destruct (ot_sink t) as [|x s] eqn:Es; [|left; cbn; destruct (drain_output_batch _ _) as [[? ?] ?]; by eexists].
    destruct (ot_sink_open t) eqn:Eo; [|left; by eexists]. right. right. by exists n.
Qed.

End output.

(** ** A concrete run *)
#[local] Existing Instances toy_base64.

Definition shown : AttachInfo := {| ai_snapshot := [Byte.x24]; ai_oldest := 0; ai_newest := 0 |}.
Definition fed (o : Outputs) (b : bytes) : Outputs :=
  match oa_tasks o !! 1 with Some t => from_option (set_task o 1) o (feed t b) | None => o end.
Definition ran (o : Outputs) : Outputs := default o (run_task o 1 true false).

(** The snapshot, its acknowledgement, two chunks in one packet, a third in the
    next, and one that waits. *)
Definition out_1 : Outputs := (register outputs_new).1.
Definition out_2 : Outputs := attach_answered out_1 1 (Ok shown) true.
Definition out_3 : Outputs := (acknowledge out_2 1 0).1.
Definition out_4 : Outputs := fed (fed (ran out_3) [Byte.x61; Byte.x62]) [Byte.x63].
Definition out_5 : Outputs := fed (ran out_4) [Byte.x64].
Definition out_6 : Outputs := fed (ran out_5) [Byte.x65].

Lemma fed_step o t b t' : oa_tasks o !! 1 = Some t → feed t b = Some t' → out_step o (fed o b).
Proof. intros Ht Hf. rewrite /fed Ht Hf. by eapply out_feed. Qed.
Lemma ran_step o o' : run_task o 1 true false = Some o' → out_step o (ran o).
Proof. intros Hr. rewrite /ran Hr. by eapply out_run. Qed.

