(* ===== verification/DockerWm.v ===== *)
(** * Handing a link to a running DockerWM desktop

    [client-core/src/dockerwm.rs]: the descriptor file another application leaves,
    with a loopback port and a bearer token, and one HTTP request to that port. The
    parser of the descriptor and the printer of the request's body are those of
    [serde_json]: parameters. What the system answers to each call of one run is a
    record; the bytes written to the socket are the result beside the verdict. *)
From S2P Require Import Prelude Paths Utf8.

Definition DESCRIPTOR_BYTES_MAX : Z := 4096.
Definition RESPONSE_BYTES_MAX : Z := 4096.
Definition URL_BYTES_MAX : Z := 2048.
Definition TOKEN_HEX_BYTES : Z := 64.

Record Descriptor := { d_version : Z; d_address : str; d_port : Z; d_token : str; d_pid : Z }.

(** The errors of the source by their context; [DwIo] carries the failed call. *)
Inductive DwErr :=
  | NoDataDirectory
  | UrlTooLong
  | NotHttp
  | DwIo (call : str)
  | NotBoundedFile
  | TooBroad
  | ParseError
  | InvalidDescriptor
  | ResponseTooLarge
  | Rejected (status : str).

Class DwJson := {
  parse_descriptor : str → option Descriptor;
  url_body : str → bytes;
}.

(** [fs::metadata]: not found, another error, or kind, length and mode. *)
Inductive MetadataAnswer :=
  | MissingFile
  | MetadataFailed
  | MetadataOf (regular : bool) (length mode : Z).

(** One run: each write says how many bytes got out before it failed, if it did;
    the reads are what [read] returns, in order, [None] for an error, and the end
    of the stream after them. *)
Record DwEnv := {
  e_metadata : MetadataAnswer;
  e_read : option str;
  e_connect : bool;
  e_timeouts : bool;
  e_head : option nat;
  e_body : option nat;
  e_flush : bool;
  e_reads : list (option bytes);
}.

Definition descriptor_path (config_dir : option str) : result str DwErr :=
  match config_dir with
  | Some base => Ok (join (join base (lit "dockerwm")) (lit "link-bridge-v1.json"))
  | None => Err NoDataDirectory
  end.

Definition checked_url (url : str) : result unit DwErr :=
  if URL_BYTES_MAX <? str_len url then Err UrlTooLong
  else
    let lower := map ascii_lowercase url in
    if negb (starts_with (lit "https://") lower || starts_with (lit "http://") lower) then Err NotHttp
    else Ok ().

Section bridge.
Context `{J : DwJson}.

Definition descriptor_invalid (d : Descriptor) : bool :=
  negb (d_version d =? 1) || negb (bool_decide (d_address d = lit "127.0.0.1")) || (d_port d =? 0) ||
  negb (str_len (d_token d) =? TOKEN_HEX_BYTES) ||
  negb (forallb (λ b, is_ascii_hexdigit (byte_Z b)) (str_bytes (d_token d))).

Definition read_descriptor (env : DwEnv) : result (option Descriptor) DwErr :=
  match e_metadata env with
  | MissingFile => Ok None
  | MetadataFailed => Err (DwIo (lit "metadata"))
  | MetadataOf regular length mode =>
      if negb regular || (DESCRIPTOR_BYTES_MAX <? length) then Err NotBoundedFile
      else if negb (Z.land mode 0x3F =? 0) then Err TooBroad
      else
        let? raw := ok_or (e_read env) (DwIo (lit "read")) in
        let? descriptor := ok_or (parse_descriptor raw) ParseError in
        if descriptor_invalid descriptor then Err InvalidDescriptor else Ok (Some descriptor)
  end.

Definition CRLF : str := [0xD; 0xA].

Definition request_head (d : Descriptor) (body : bytes) : str :=
  lit "POST /v1/open HTTP/1.1" ++ CRLF ++
  lit "Host: 127.0.0.1:" ++ dec_str (d_port d) ++ CRLF ++
  lit "Authorization: Bearer " ++ d_token d ++ CRLF ++
  lit "Content-Type: application/json" ++ CRLF ++
  lit "Content-Length: " ++ dec_str (len body) ++ CRLF ++
  lit "Connection: close" ++ CRLF ++ CRLF.

(** The loop that reads the response; a read of no bytes ends it. *)
Fixpoint read_response (reads : list (option bytes)) (response : bytes) : result bytes DwErr :=
  match reads with
  | [] | Some [] :: _ => Ok response
  | None :: _ => Err (DwIo (lit "read"))
  | Some chunk :: reads =>
      if RESPONSE_BYTES_MAX <? len response + len chunk then Err ResponseTooLarge
      else read_response reads (response ++ chunk)
  end.

(** The bytes before the first line feed, as text; none if they are not UTF-8. *)
Fixpoint first_line (l : bytes) : bytes :=
  match l with
  | [] => []
  | b :: l => if byte_Z b =? 0xA then [] else b :: first_line l
  end.

Definition status_line (response : bytes) : str :=
  match from_utf8 (first_line response) with Ok s => s | Err _ => [] end.

(** [trim_end_matches('\r')]. *)
Fixpoint trim_end_cr (s : str) : str :=
  match s with
  | [] => []
  | c :: s => match trim_end_cr s with
              | [] => if c =? 0xD then [] else [c]
              | t => c :: t
              end
  end.

(** [write_all]: everything, or what got out before the error. *)
Definition write_all (failed : option nat) (data : bytes) : result unit DwErr * bytes :=
  match failed with
  | None => (Ok (), data)
  | Some n => (Err (DwIo (lit "write")), take n data)
  end.

(** The exchange over an open connection. *)
Definition exchange (env : DwEnv) (d : Descriptor) (url : str) : result bool DwErr * bytes :=
  if negb (e_timeouts env) then (Err (DwIo (lit "timeout")), [])
  else
    let body := url_body url in
    let '(r1, out1) := write_all (e_head env) (str_bytes (request_head d body)) in
    match r1 with
    | Err e => (Err e, out1)
    | Ok _ =>
        let '(r2, out2) := write_all (e_body env) body in
        match r2 with
        | Err e => (Err e, out1 ++ out2)
        | Ok _ =>
            let sent := out1 ++ out2 in
            if negb (e_flush env) then (Err (DwIo (lit "flush")), sent)
            else
              match read_response (e_reads env) [] with
              | Err e => (Err e, sent)
              | Ok response =>
                  let status := status_line response in
                  if starts_with (lit "HTTP/1.1 200 ") status || starts_with (lit "HTTP/1.0 200 ") status
                  then (Ok true, sent)
                  else (Err (Rejected (trim_end_cr status)), sent)
              end
        end
    end.

(** The verdict, and per connection made the port and the bytes written to it. *)
Definition open_at (env : DwEnv) (url : str) : result bool DwErr * option (Z * bytes) :=
  match checked_url url with
  | Err e => (Err e, None)
  | Ok _ =>
      match read_descriptor env with
      | Err e => (Err e, None)
      | Ok None => (Ok false, None)
      | Ok (Some descriptor) =>
          if negb (e_connect env) then (Ok false, None)
          else let '(r, sent) := exchange env descriptor url in (r, Some (d_port descriptor, sent))
      end
  end.

Definition open_in_running_desktop (config_dir : option str) (env : str → DwEnv) (url : str) :
    result bool DwErr * option (Z * bytes) :=
  match descriptor_path config_dir with
  | Err e => (Err e, None)
  | Ok path => open_at (env path) url
  end.

(** ** Properties *)

(** A descriptor the client acts on came from a private regular file of bounded
    size and names the loopback address, a port and a token of hexadecimal digits. *)
Record trusted (env : DwEnv) (d : Descriptor) : Prop := {
  tr_private : ∃ length mode, e_metadata env = MetadataOf true length mode ∧ length ≤ 4096 ∧ Z.land mode 0x3F = 0;
  tr_parsed : ∃ raw, e_read env = Some raw ∧ parse_descriptor raw = Some d;
  tr_address : d_address d = lit "127.0.0.1" ∧ d_port d ≠ 0;
  tr_token : len (str_bytes (d_token d)) = 64 ∧ Forall (λ b, is_ascii_hexdigit (byte_Z b) = true) (str_bytes (d_token d));
}.

Lemma read_descriptor_trusted env d : read_descriptor env = Ok (Some d) → trusted env d.
Proof.
  rewrite /read_descriptor. destruct (e_metadata env) as [| |regular length mode] eqn:Em; [done..|].
  destruct (negb regular || _) eqn:E1; [done|]. destruct (negb (Z.land mode _ =? 0)) eqn:E2; [done|].
  destruct (e_read env) as [raw|] eqn:Er; simpl; [|done]. destruct (parse_descriptor raw) as [d'|] eqn:Ep; simpl; [|done].
  destruct (descriptor_invalid d') eqn:Ei; [done|]. intros [= <-].
  rewrite /descriptor_invalid /DESCRIPTOR_BYTES_MAX /TOKEN_HEX_BYTES in E1, Ei. to_prop.
  destruct regular; [|done]. split.
  - by exists length, mode.
  - by exists raw.
  - done.
  - split; [done|]. apply Forall_forall. intros b Hb.
    match goal with Hx : forallb _ _ = true |- _ => rewrite forallb_forall in Hx; apply Hx end. by apply list_elem_of_In.
Qed.

Lemma read_response_bounded reads response r :
  len response ≤ RESPONSE_BYTES_MAX → read_response reads response = Ok r → len r ≤ RESPONSE_BYTES_MAX.
Proof.
  revert response. induction reads as [|[[|b chunk]|] reads IH]; intros response Hl; simpl; try naive_solver.
  case_match; [done|]. to_prop. apply IH. rewrite len_app. lia.
Qed.

Definition full_request (d : Descriptor) (url : str) : bytes :=
  str_bytes (request_head d (url_body url)) ++ url_body url.

Lemma exchange_sends env d url r sent :
  exchange env d url = (r, sent) →
  sent `prefix_of` full_request d url ∧ r ≠ Ok false ∧
  (r = Ok true → sent = full_request d url ∧
     ∃ response, read_response (e_reads env) [] = Ok response ∧ len response ≤ RESPONSE_BYTES_MAX ∧
       (starts_with (lit "HTTP/1.1 200 ") (status_line response) = true ∨
        starts_with (lit "HTTP/1.0 200 ") (status_line response) = true)).
Proof.
  rewrite /exchange /write_all /full_request. cbv zeta.
  generalize (str_bytes (request_head d (url_body url))). generalize (url_body url). intros body head.
  destruct (e_timeouts env); simpl; [|intros [= <- <-]; split_and!; [apply prefix_nil|done|done]].
  destruct (e_head env) as [n|].
  { intros [= <- <-]. split_and!; [|done|done]. exists (drop n head ++ body). by rewrite app_assoc take_drop. }
  destruct (e_body env) as [n|].
  { intros [= <- <-]. split_and!; [|done|done]. apply prefix_app. exists (drop n body). by rewrite take_drop. }
  destruct (e_flush env); simpl; [|intros [= <- <-]; done].
  destruct (read_response (e_reads env) []) as [response|] eqn:Er; [|intros [= <- <-]; done].
  destruct (_ || _) eqn:Es; intros [= <- <-]; split_and!; try done. intros _. split; [done|]. exists response. split; [done|].
  split; [eapply (read_response_bounded _ []); [|exact Er]; by vm_compute|by apply orb_true_iff].
Qed.

(** Nothing is sent but the one request to the loopback port of a trusted descriptor,
    for an http(s) address of bounded length; the link counts as opened exactly when
    the whole request went out and a bounded response has status 200; the fallback is
    chosen only when nothing was sent. *)
Theorem dockerwm_handoff env url r conn :
  open_at env url = (r, conn) →
  (∀ port sent, conn = Some (port, sent) →
     checked_url url = Ok () ∧ ∃ d, trusted env d ∧ port = d_port d ∧ sent `prefix_of` full_request d url) ∧
  (r = Ok false → conn = None) ∧
  (r = Ok true → ∃ d, trusted env d ∧ conn = Some (d_port d, full_request d url) ∧
     ∃ response, read_response (e_reads env) [] = Ok response ∧ len response ≤ RESPONSE_BYTES_MAX ∧
       (starts_with (lit "HTTP/1.1 200 ") (status_line response) = true ∨
        starts_with (lit "HTTP/1.0 200 ") (status_line response) = true)).
Proof.
  rewrite /open_at. destruct (checked_url url) as [[]|] eqn:Eu; [|by intros [= <- <-]].
  destruct (read_descriptor env) as [[d|]|] eqn:Ed; [|by intros [= <- <-]..].
  apply read_descriptor_trusted in Ed. destruct (e_connect env); simpl; [|by intros [= <- <-]].
  destruct (exchange env d url) as [r' sent] eqn:Ex. apply exchange_sends in Ex as (Hp & Hf & Ht). intros [= <- <-].
  split_and!; [intros port s [= <- <-]; eauto|done|]. intros Hr. destruct (Ht Hr) as [-> Hresp]. eauto.
Qed.
End bridge.

(** A run against a bridge that answers, and one with a world-readable descriptor. *)
Definition example_descriptor : Descriptor :=
  {| d_version := 1; d_address := lit "127.0.0.1"; d_port := 4711; d_token := replicate 64 0x61; d_pid := 17 |}.

Definition example_json : DwJson :=
  {| parse_descriptor := λ _, Some example_descriptor; url_body := str_bytes |}.

Definition example_env (mode : Z) : DwEnv :=
  {| e_metadata := MetadataOf true 200 mode; e_read := Some []; e_connect := true; e_timeouts := true; e_head := None;
     e_body := None; e_flush := true;
     e_reads := [Some (str_bytes (lit "HTTP/1.1 2")); Some (str_bytes (lit "00 OK" ++ CRLF ++ CRLF))] |}.

Example dockerwm_runs :
  (open_at (J := example_json) (example_env 0x80) (lit "HTTPS://example.com")).1 = Ok true ∧
  open_at (J := example_json) (example_env 0x84) (lit "https://example.com") = (Err TooBroad, None) ∧
  open_at (J := example_json) (example_env 0x80) (lit "file:///etc/passwd") = (Err NotHttp, None).
Proof. vm_compute. done. Qed.
