(* ===== verification/WidthTables.v ===== *)
(** * Width tables

    [tools/xterm-width-tables/src/main.rs]: the generator that turns one dump of
    glibc's [wcwidth] into the width tables of the server's terminal model
    ([vendor/avt/src/widths.rs]) and of both clients ([server-width.ts]), and the
    code it generates around the tables. A Rust panic of the generator is
    [None]. The disk is the map of the files that can be read as text. The lines
    the program prints are not part of the model; the text it writes is, to the
    character. *)
From S2P Require Import Prelude Paths.

Definition QUOTE : char := 0x22.
Definition NEWLINE : char := 0xA.
Definition EM_DASH : char := 0x2014.

(** A raw string of the source, by its lines. *)
Definition unlines (ls : list str) : str := concat (map (λ l, l ++ [NEWLINE]) ls).

(** [str::lines]: a line feed ends a line, with the carriage return before it. *)
Definition strip_cr (l : str) : str := if decide (last l = Some 0xD) then removelast l else l.

Fixpoint lines_of (pieces : list str) : list str :=
  match pieces with
  | [] => []
  | [l] => if is_empty l then [] else [l]
  | l :: ls => strip_cr l :: lines_of ls
  end.

Definition lines (text : str) : list str := lines_of (split_char NEWLINE text).

(** ** The authority *)
Definition AUTHORITY : str := lit "tools/xterm-width-tables/data/wcwidth-glibc-2.41-C.UTF-8.txt".

Definition DUMP_LO : Z := 0x20.

Record Authority := { widths : list Z; glibc_version : str; locale_name : str }.

(** The reading of one character of the dump; any other panics. *)
Definition width_class (c : char) : option Z :=
  if c =? 0x30 then Some 0
  else if c =? 0x31 then Some 1
  else if c =? 0x32 then Some 2
  else if c =? 0x4E then Some 1
  else if c =? 0x73 then Some 1
  else None.

(** One turn of the loop over the lines. *)
Definition load_line (a : Authority) (line : str) : option Authority :=
  match strip_prefix (lit "#") line with
  | Some rest =>
      let rest := trim rest in
      match strip_prefix (lit "glibc:") rest with
      | Some v => Some {| widths := widths a; glibc_version := trim v; locale_name := locale_name a |}
      | None =>
          match strip_prefix (lit "locale:") rest with
          | Some v => Some {| widths := widths a; glibc_version := glibc_version a; locale_name := trim v |}
          | None => Some a
          end
      end
  | None =>
      ws ← mapM width_class line;
      Some {| widths := widths a ++ ws; glibc_version := glibc_version a; locale_name := locale_name a |}
  end.

Fixpoint load_lines (a : Authority) (ls : list str) : option Authority :=
  match ls with
  | [] => Some a
  | l :: ls => a ← load_line a l; load_lines a ls
  end.

Definition load_text (text : str) : option Authority :=
  a ← load_lines {| widths := []; glibc_version := []; locale_name := [] |} (lines text);
  if negb (len (widths a) =? 0x110000 - DUMP_LO) then None
  else if is_empty (glibc_version a) then None
  else if is_empty (locale_name a) then None
  else Some a.

Definition load (fs : gmap str str) (repo_root : str) : option Authority :=
  text ← fs !! join repo_root AUTHORITY; load_text text.

(** Indexing past the end panics. *)
Definition width_of (a : Authority) (cp : Z) : option Z :=
  if cp <? DUMP_LO then Some 1 else widths a !! Z.to_nat (cp - DUMP_LO).

(** The body of the loop of [ranges], on the pair ([out], [run]). *)
Definition range_step (cp : Z) (st : list (Z * Z) * option (Z * Z)) : list (Z * Z) * option (Z * Z) :=
  let '(out, run) := st in
  match run with
  | Some (s, e) => if e + 1 =? cp then (out, Some (s, cp)) else (out ++ [(s, e)], Some (cp, cp))
  | None => (out, Some (cp, cp))
  end.

Fixpoint range_loop (a : Authority) (class : Z) (cps : list Z) (st : list (Z * Z) * option (Z * Z)) :
    option (list (Z * Z) * option (Z * Z)) :=
  match cps with
  | [] => Some st
  | cp :: cps =>
      w ← width_of a cp;
      range_loop a class cps (if w =? class then range_step cp st else st)
  end.

(** [lo..=hi] is [seqZ lo (hi + 1 - lo)]. *)
Definition ranges (a : Authority) (lo hi class : Z) : option (list (Z * Z)) :=
  '(out, run) ← range_loop a class (seqZ lo (hi + 1 - lo)) ([], None);
  Some (out ++ option_list run).

(** ** Printing the tables *)

(** [{n:04X}] of a [u32]: upper-case hexadecimal, at least four digits. *)
Definition upper_digit (n : Z) : char := if n <? 10 then 0x30 + n else 0x41 + (n - 10).

Fixpoint upper_digits (fuel : nat) (n : Z) (acc : str) : str :=
  match fuel with
  | O => acc
  | S fuel =>
      let acc := upper_digit (n mod 16) :: acc in
      if n / 16 =? 0 then acc else upper_digits fuel (n / 16) acc
  end.

(** Eight digits hold every [u32]. *)
Definition hex04 (n : Z) : str :=
  let ds := upper_digits 8 n [] in replicate (4 - length ds) 0x30 ++ ds.

(** [slice::chunks(3)]. *)
Fixpoint chunks3 {A} (l : list A) : list (list A) :=
  match l with
  | a :: b :: c :: l => [a; b; c] :: chunks3 l
  | [] => []
  | l => [l]
  end.

(** [String::pop] drops the last character. *)
Definition emit_ranges_ts (name : str) (rs : list (Z * Z)) : str :=
  foldl (λ s chunk,
      removelast (foldl (λ s '(start, stop), s ++ lit "[0x" ++ hex04 start ++ lit ", 0x" ++ hex04 stop ++ lit "], ")
        (s ++ lit "  ") chunk) ++ [NEWLINE])
    (lit "const " ++ name ++ lit ": [number, number][] = [" ++ [NEWLINE]) (chunks3 rs) ++ lit "];" ++ [NEWLINE].

Definition emit_ranges_rs (name : str) (rs : list (Z * Z)) : str :=
  foldl (λ s chunk,
      removelast (foldl (λ s '(start, stop), s ++ lit "(0x" ++ hex04 start ++ lit ", 0x" ++ hex04 stop ++ lit "), ")
        (s ++ lit "    ") chunk) ++ [NEWLINE])
    (lit "static " ++ name ++ lit ": &[(u32, u32)] = &[" ++ [NEWLINE]) (chunks3 rs) ++ lit "];" ++ [NEWLINE].

Record Tables := {
  bmp_zero : list (Z * Z);
  bmp_wide : list (Z * Z);
  high_zero : list (Z * Z);
  high_wide : list (Z * Z);
}.

(** ** The generated files *)

(** The text of [server-width.ts] before the tables. *)
Definition ts_header (glibc locale : str) : str :=
  unlines
    [lit "/**";
     lit " * GENERATED FILE " ++ [EM_DASH] ++ lit " DO NOT EDIT.";
     lit " *";
     lit " * xterm.js width provider generated from the project's width authority: a";
     lit " * committed dump of glibc " ++ glibc ++ lit "'s wcwidth(3) under " ++ locale ++ lit " (ADR 0026),";
     lit " * which is what the terminal *application* lays its screen out with. The";
     lit " * server-side model (vendored avt) is generated from the same dump. The";
     lit " * application, the server and this provider must agree on every character's";
     lit " * cell width: a single disagreement shifts every later wrap point and shears";
     lit " * the attach snapshot (see README " ++ [QUOTE] ++ lit "Zero-width characters sheared attach";
     lit " * snapshots" ++ [QUOTE] ++ lit " and the Unicode-11 note it supersedes).";
     lit " *";
     lit " * Regenerate with: cargo run -p hf-xterm-width-tables";
     lit " * Verify with:     cargo run -p hf-xterm-width-tables -- --check";
     lit " */";
     [];
     lit "import type { Terminal, ITerminalAddon, IUnicodeVersionProvider } from " ++ [QUOTE] ++ lit "@xterm/xterm" ++ [QUOTE] ++ lit ";";
     [];
     lit "export const SERVER_WIDTH_VERSION = " ++ [QUOTE] ++ lit "server" ++ [QUOTE] ++ lit ";";
     []].

(** The text after the tables: the provider. *)
Definition ts_code : str :=
  unlines
    [[];
     lit "// BMP lookup table, built lazily on first use (64 KiB).";
     lit "let table: Uint8Array | undefined;";
     [];
     lit "function buildTable(): Uint8Array {";
     lit "  const t = new Uint8Array(65536);";
     lit "  t.fill(1);";
     lit "  t.fill(0, 0, 32); // C0 + NUL";
     lit "  t.fill(0, 0x7f, 0xa0); // DEL + C1";
     lit "  for (const [start, end] of BMP_ZERO) t.fill(0, start, end + 1);";
     lit "  for (const [start, end] of BMP_WIDE) t.fill(2, start, end + 1);";
     lit "  return t;";
     lit "}";
     [];
     lit "function bisearch(cp: number, ranges: [number, number][]): boolean {";
     lit "  let lo = 0;";
     lit "  let hi = ranges.length - 1;";
     lit "  const first = ranges[0];";
     lit "  const last = ranges[hi];";
     lit "  if (first === undefined || last === undefined || cp < first[0] || cp > last[1]) return false;";
     lit "  while (lo <= hi) {";
     lit "    const mid = (lo + hi) >> 1;";
     lit "    const range = ranges[mid];";
     lit "    if (range === undefined) return false;";
     lit "    if (cp > range[1]) lo = mid + 1;";
     lit "    else if (cp < range[0]) hi = mid - 1;";
     lit "    else return true;";
     lit "  }";
     lit "  return false;";
     lit "}";
     [];
     lit "// xterm's UnicodeCharProperties packing (public provider contract):";
     lit "// bit 0 = shouldJoin, bits 1-2 = width, bits 3+ = state.";
     lit "function createPropertyValue(state: number, width: number, shouldJoin = false): number {";
     lit "  return ((state & 0xffffff) << 3) | ((width & 3) << 1) | (shouldJoin ? 1 : 0);";
     lit "}";
     [];
     lit "function extractWidth(value: number): number {";
     lit "  return (value >> 1) & 0x3;";
     lit "}";
     [];
     lit "export class ServerWidthProvider implements IUnicodeVersionProvider {";
     lit "  public readonly version = SERVER_WIDTH_VERSION;";
     [];
     lit "  public wcwidth(num: number): 0 | 1 | 2 {";
     lit "    if (num < 32) return 0;";
     lit "    if (num < 127) return 1;";
     lit "    if (num < 65536) {";
     lit "      if (!table) table = buildTable();";
     lit "      return table[num] as 0 | 1 | 2;";
     lit "    }";
     lit "    if (bisearch(num, HIGH_ZERO)) return 0;";
     lit "    if (bisearch(num, HIGH_WIDE)) return 2;";
     lit "    return 1;";
     lit "  }";
     [];
     lit "  public charProperties(codepoint: number, preceding: number): number {";
     lit "    let width: number = this.wcwidth(codepoint);";
     lit "    // xterm clears `preceding` on CSI/SGR even though cursor positioning can";
     lit "    // leave a physical cell immediately to the left. Its print path checks";
     lit "    // the actual cursor column before joining, so keep zero-width characters";
     lit "    // joinable even when this textual state is empty. Without this, a";
     lit "    // field-leading combining mark creates a hidden width-0 buffer cell,";
     lit "    // advances the cursor by one and shears live output from the snapshot.";
     lit "    const shouldJoin = width === 0;";
     lit "    if (shouldJoin) {";
     lit "      const oldWidth = extractWidth(preceding);";
     lit "      if (oldWidth > width) {";
     lit "        width = oldWidth;";
     lit "      }";
     lit "    }";
     lit "    return createPropertyValue(0, width, shouldJoin);";
     lit "  }";
     lit "}";
     [];
     lit "export class ServerWidthAddon implements ITerminalAddon {";
     lit "  public activate(terminal: Terminal): void {";
     lit "    terminal.unicode.register(new ServerWidthProvider());";
     lit "  }";
     [];
     lit "  public dispose(): void {}";
     lit "}"].

(** The text of [widths.rs] before and after the tables. *)
Definition rs_header (glibc locale : str) : str :=
  unlines
    [lit "//! GENERATED FILE " ++ [EM_DASH] ++ lit " DO NOT EDIT.";
     lit "//!";
     lit "//! Cell widths for the terminal model, generated from the project's width";
     lit "//! authority: a committed dump of glibc " ++ glibc ++ lit "'s `wcwidth(3)` under";
     lit "//! " ++ locale ++ lit " (ADR 0026). Both clients' `server-width.ts` are generated from";
     lit "//! the same dump, so the model and the renderers cannot drift " ++ [EM_DASH] ++ lit " and, more to";
     lit "//! the point, both now agree with what the terminal *application* used to lay";
     lit "//! its screen out with, which the `unicode-width` crate did not (304";
     lit "//! codepoints disagreed).";
     lit "//!";
     lit "//! Regenerate with: cargo run -p hf-xterm-width-tables";
     lit "//! Verify with:     cargo run -p hf-xterm-width-tables -- --check";
     []].

Definition rs_code : str :=
  unlines
    [[];
     lit "fn bisearch(cp: u32, ranges: &[(u32, u32)]) -> bool {";
     lit "    ranges";
     lit "        .binary_search_by(|&(start, end)| {";
     lit "            if cp < start {";
     lit "                std::cmp::Ordering::Greater";
     lit "            } else if cp > end {";
     lit "                std::cmp::Ordering::Less";
     lit "            } else {";
     lit "                std::cmp::Ordering::Equal";
     lit "            }";
     lit "        })";
     lit "        .is_ok()";
     lit "}";
     [];
     lit "/// Display width of `ch` in cells: 0 (combining/zero-width), 1 or 2.";
     lit "///";
     lit "/// Control characters never reach this " ++ [EM_DASH] ++ lit " the parser handles them " ++ [EM_DASH] ++ lit " so C0, DEL";
     lit "/// and C1 all take the width-1 fast path, exactly as the pre-generation code";
     lit "/// did (`unicode_width` returned `None` there and it was treated as 1).";
     lit "pub(crate) fn width_of(ch: char) -> u8 {";
     lit "    let cp = ch as u32;";
     lit "    // Measured: nothing below U+00AD disagrees between the authority and the";
     lit "    // old crate table, so this fast path is free of the ADR 0026 change.";
     lit "    if cp < 0xa0 {";
     lit "        return 1;";
     lit "    }";
     lit "    if cp <= 0xffff {";
     lit "        if bisearch(cp, BMP_ZERO) {";
     lit "            return 0;";
     lit "        }";
     lit "        if bisearch(cp, BMP_WIDE) {";
     lit "            return 2;";
     lit "        }";
     lit "        return 1;";
     lit "    }";
     lit "    if bisearch(cp, HIGH_ZERO) {";
     lit "        return 0;";
     lit "    }";
     lit "    if bisearch(cp, HIGH_WIDE) {";
     lit "        return 2;";
     lit "    }";
     lit "    1";
     lit "}"].

Definition build_typescript (a : Authority) (t : Tables) : str :=
  ts_header (glibc_version a) (locale_name a) ++
  emit_ranges_ts (lit "BMP_ZERO") (bmp_zero t) ++ [NEWLINE] ++
  emit_ranges_ts (lit "BMP_WIDE") (bmp_wide t) ++ [NEWLINE] ++
  emit_ranges_ts (lit "HIGH_ZERO") (high_zero t) ++ [NEWLINE] ++
  emit_ranges_ts (lit "HIGH_WIDE") (high_wide t) ++ ts_code.

Definition build_rust (a : Authority) (t : Tables) : str :=
  rs_header (glibc_version a) (locale_name a) ++
  emit_ranges_rs (lit "BMP_ZERO") (bmp_zero t) ++ [NEWLINE] ++
  emit_ranges_rs (lit "BMP_WIDE") (bmp_wide t) ++ [NEWLINE] ++
  emit_ranges_rs (lit "HIGH_ZERO") (high_zero t) ++ [NEWLINE] ++
  emit_ranges_rs (lit "HIGH_WIDE") (high_wide t) ++ rs_code.

Definition build_tables (a : Authority) : option Tables :=
  bz ← ranges a 0xA0 0xFFFF 0;
  bw ← ranges a 0xA0 0xFFFF 2;
  hz ← ranges a 0x10000 0x10FFFF 0;
  hw ← ranges a 0x10000 0x10FFFF 2;
  Some {| bmp_zero := bz; bmp_wide := bw; high_zero := hz; high_wide := hw |}.

Definition WEB_WIDTHS : str := lit "web/src/client/server-width.ts".
Definition DESKTOP_WIDTHS : str := lit "desktop/src/server-width.ts".
Definition MODEL_WIDTHS : str := lit "vendor/avt/src/widths.rs".

Definition outputs (fs : gmap str str) (repo_root : str) : option (list (str * str)) :=
  authority ← load fs repo_root;
  tables ← build_tables authority;
  let ts := build_typescript authority tables in
  let rs := build_rust authority tables in
  Some [(join repo_root WEB_WIDTHS, ts); (join repo_root DESKTOP_WIDTHS, ts); (join repo_root MODEL_WIDTHS, rs)].

(** How the process ends. *)
Inductive exit := Finished | Exit1 | Panicked.

#[export] Instance exit_eq_dec : EqDecision exit.
Proof. solve_decision. Defined.

(** [std::fs::write]: whether it is refused, and then what the file is left with,
    is up to the system. *)
Record Writes := { refused : str → bool; left_behind : str → option str }.

Fixpoint write_outputs (w : Writes) (out : list (str * str)) (fs : gmap str str) : gmap str str * exit :=
  match out with
  | [] => (fs, Finished)
  | (path, content) :: out =>
      if refused w path then
        (match left_behind w path with Some t => <[path := t]> fs | None => fs end, Panicked)
      else write_outputs w out (<[path := content]> fs)
  end.

(** A file that cannot be read counts as empty. *)
Definition stale (fs : gmap str str) (out : list (str * str)) : list str :=
  map fst (filter (λ o, default [] (fs !! o.1) ≠ o.2) out).

Definition main (w : Writes) (args : list str) (repo_root : str) (fs : gmap str str) : gmap str str * exit :=
  let check := bool_decide (lit "--check" ∈ args) in
  match outputs fs repo_root with
  | None => (fs, Panicked)
  | Some out =>
      if check then (if is_empty (stale fs out) then (fs, Finished) else (fs, Exit1))
      else write_outputs w out fs
  end.

(** ** The generated Rust code *)

(** [slice::binary_search_by] as the standard library has it: halve the window
    without looking for a match, compare once at the end. [Gt] stands for
    [Greater]: the range lies above the code point. *)
Definition range_cmp (cp : Z) (r : Z * Z) : comparison :=
  if cp <? r.1 then Gt else if r.2 <? cp then Lt else Eq.

Fixpoint search_by (fuel : nat) (cp : Z) (rs : list (Z * Z)) (base size : nat) : option nat :=
  match fuel with
  | O => None
  | S fuel =>
      if (1 <? size)%nat then
        let half := Nat.div2 size in
        let mid := (base + half)%nat in
        r ← rs !! mid;
        search_by fuel cp rs (match range_cmp cp r with Gt => base | _ => mid end) (size - half)
      else Some base
  end.

Definition bisearch_rs (cp : Z) (rs : list (Z * Z)) : bool :=
  match rs with
  | [] => false
  | _ => match search_by (length rs) cp rs 0 (length rs) with
         | Some base => match rs !! base with
                        | Some r => match range_cmp cp r with Eq => true | _ => false end
                        | None => false
                        end
         | None => false
         end
  end.

(** [width_of] of [vendor/avt/src/widths.rs]. *)
Definition model_width (t : Tables) (cp : Z) : Z :=
  if cp <? 0xA0 then 1
  else if cp <=? 0xFFFF then
    if bisearch_rs cp (bmp_zero t) then 0
    else if bisearch_rs cp (bmp_wide t) then 2
    else 1
  else if bisearch_rs cp (high_zero t) then 0
  else if bisearch_rs cp (high_wide t) then 2
  else 1.

(** ** The generated TypeScript code *)

(** [Uint8Array.prototype.fill]: both ends are clipped to the array. *)
Definition fill (v start stop : Z) (t : list Z) : list Z :=
  let stop := Z.to_nat (Z.min stop (len t)) in
  let start := Z.to_nat start in
  if (start <? stop)%nat then take start t ++ replicate (stop - start) v ++ drop stop t else t.

Definition buildTable (t : Tables) : list Z :=
  let a := replicate (Z.to_nat 65536) 0 in
  let a := fill 1 0 65536 a in
  let a := fill 0 0 32 a in
  let a := fill 0 0x7F 0xA0 a in
  let a := foldl (λ a '(start, stop), fill 0 start (stop + 1) a) a (bmp_zero t) in
  foldl (λ a '(start, stop), fill 2 start (stop + 1) a) a (bmp_wide t).

Fixpoint bisearch_loop (fuel : nat) (cp : Z) (rs : list (Z * Z)) (lo hi : Z) : option bool :=
  match fuel with
  | O => None
  | S fuel =>
      if lo <=? hi then
        let mid := Z.shiftr (lo + hi) 1 in
        match rs !! Z.to_nat mid with
        | None => Some false
        | Some range =>
            if range.2 <? cp then bisearch_loop fuel cp rs (mid + 1) hi
            else if cp <? range.1 then bisearch_loop fuel cp rs lo (mid - 1)
            else Some true
        end
      else Some false
  end.

(** The window shrinks in every turn: one turn more than ranges is enough. *)
Definition bisearch_ts (cp : Z) (rs : list (Z * Z)) : option bool :=
  match head rs, last rs with
  | Some first, Some final =>
      if (cp <? first.1) || (final.2 <? cp) then Some false
      else bisearch_loop (S (length rs)) cp rs 0 (len rs - 1)
  | _, _ => Some false
  end.

(** The method of [ServerWidthProvider]; [table] is built on first use and kept. *)
Definition wcwidth (t : Tables) (num : Z) : option Z :=
  if num <? 32 then Some 0
  else if num <? 127 then Some 1
  else if num <? 65536 then buildTable t !! Z.to_nat num
  else zero ← bisearch_ts num (high_zero t);
       if (zero : bool) then Some 0
       else wide ← bisearch_ts num (high_wide t);
            Some (if (wide : bool) then 2 else 1).

Definition createPropertyValue (state width : Z) (shouldJoin : bool) : Z :=
  Z.lor (Z.lor (Z.shiftl (Z.land state 0xFFFFFF) 3) (Z.shiftl (Z.land width 3) 1)) (Z.b2z shouldJoin).

Definition extractWidth (value : Z) : Z := Z.land (Z.shiftr value 1) 3.

Definition charProperties (t : Tables) (codepoint preceding : Z) : option Z :=
  width ← wcwidth t codepoint;
  let shouldJoin := width =? 0 in
  let width := if shouldJoin && (width <? extractWidth preceding) then extractWidth preceding else width in
  Some (createPropertyValue 0 width shouldJoin).
