(* ===== verification/WidthTablesText.v ===== *)
(** * Reading the width tables back from the generated text

    A reader of the array initialisers, as the compilers of the two languages
    read them, and the proof that it returns the ranges the generator printed. *)
From S2P Require Import Prelude Paths WidthTables.

(** ** The reader *)
Definition hex_value (c : char) : option Z :=
  if (0x30 <=? c) && (c <=? 0x39) then Some (c - 0x30)
  else if (0x41 <=? c) && (c <=? 0x46) then Some (c - 0x41 + 10)
  else None.

(** The hexadecimal literals of a line: an [x] starts one, the first character
    that is no digit ends it. *)
Fixpoint literals (open : option Z) (s : str) : list Z :=
  match s, open with
  | [], None => []
  | [], Some n => [n]
  | c :: s, None => if c =? 0x78 then literals (Some 0) s else literals None s
  | c :: s, Some n =>
      match hex_value c with
      | Some d => literals (Some (16 * n + d)) s
      | None => n :: literals None s
      end
  end.

Fixpoint pairs (l : list Z) : list (Z * Z) :=
  match l with
  | a :: b :: l => (a, b) :: pairs l
  | _ => []
  end.

(** The lines after the first one that is [opening]. *)
Fixpoint after_line (opening : str) (ls : list str) : option (list str) :=
  match ls with
  | [] => None
  | l :: ls => if decide (l = opening) then Some ls else after_line opening ls
  end.

(** The lines up to the one that closes the array. *)
Fixpoint array_rows (ls : list str) : option (list str) :=
  match ls with
  | [] => None
  | l :: ls => if decide (l = lit "];") then Some [] else rows ← array_rows ls; Some (l :: rows)
  end.

Definition read_table (opening text : str) : option (list (Z * Z)) :=
  ls ← after_line opening (split_char NEWLINE text);
  rows ← array_rows ls;
  Some (pairs (concat (map (literals None) rows))).

Definition read_tables (opening : str → str) (text : str) : option Tables :=
  bz ← read_table (opening (lit "BMP_ZERO")) text;
  bw ← read_table (opening (lit "BMP_WIDE")) text;
  hz ← read_table (opening (lit "HIGH_ZERO")) text;
  hw ← read_table (opening (lit "HIGH_WIDE")) text;
  Some {| bmp_zero := bz; bmp_wide := bw; high_zero := hz; high_wide := hw |}.

Definition opening_ts (name : str) : str := lit "const " ++ name ++ lit ": [number, number][] = [".
Definition opening_rs (name : str) : str := lit "static " ++ name ++ lit ": &[(u32, u32)] = &[".

(** ** Hexadecimal literals *)
Lemma hex_value_digit n : 0 ≤ n < 16 → hex_value (upper_digit n) = Some n.
Proof.
  rewrite /upper_digit /hex_value => Hn. destruct (n <? 10) eqn:E; to_prop.
  - rewrite (proj2 (Z.leb_le _ _)) ?(proj2 (Z.leb_le (0x30 + n) _)); [simpl; f_equal; lia|lia..].
  - rewrite (proj2 (Z.leb_gt (_ + _) 0x39)) ?andb_false_r; [|lia].
    rewrite (proj2 (Z.leb_le _ _)) ?(proj2 (Z.leb_le (0x41 + (n - 10)) _)); [simpl; f_equal; lia|lia..].
Qed.

Lemma upper_digits_app fuel n acc t : upper_digits fuel n acc ++ t = upper_digits fuel n (acc ++ t).
Proof.
  revert n acc. induction fuel as [|fuel IH]; intros n acc; [done|]. simpl.
  destruct (n / 16 =? 0); [done|]. by rewrite IH.
Qed.

Lemma literals_digits fuel n acc :
  0 ≤ n < 16 ^ Z.of_nat fuel → literals (Some 0) (upper_digits fuel n acc) = literals (Some n) acc.
Proof.
  revert n acc. induction fuel as [|fuel IH]; intros n acc Hn; [simpl in *; by replace n with 0 by lia|].
  rewrite Nat2Z.inj_succ Z.pow_succ_r in Hn; [|lia]. cbn [upper_digits].
  assert (0 ≤ n mod 16 < 16) as Hm by zlia. pose proof (hex_value_digit _ Hm) as Hd.
  destruct (n / 16 =? 0) eqn:E; to_prop; [|rewrite IH; [|zlia]]; cbn [literals]; rewrite Hd; do 2 f_equal; zlia.
Qed.

Lemma literals_hex04 n c t :
  0 ≤ n ≤ u32_max → hex_value c = None → literals (Some 0) (hex04 n ++ c :: t) = n :: literals None t.
Proof.
  rewrite /u32_max /hex04 => Hn Hc. rewrite -app_assoc. induction (4 - length (upper_digits 8 n []))%nat as [|k IH]; [|exact IH].
  change (literals (Some 0) (upper_digits 8 n [] ++ c :: t) = n :: literals None t).
  rewrite upper_digits_app app_nil_l literals_digits; [|simpl; lia]. by rewrite /= Hc.
Qed.

(** A character that is neither a digit nor an [x] can be left out at the end. *)
Lemma literals_snoc c open s : hex_value c = None → c ≠ 0x78 → literals open (s ++ [c]) = literals open s.
Proof.
  intros Hc Hx. revert open. induction s as [|d s IH]; intros [n|]; simpl.
  - by rewrite Hc.
  - by rewrite (proj2 (Z.eqb_neq c 0x78)).
  - by destruct (hex_value d); rewrite IH.
  - by destruct (d =? 0x78); rewrite IH.
Qed.

(** ** Printed tables by lines *)
Section print.
Context (opening indent lpar rpar : str).

Definition cell (r : Z * Z) : str := lpar ++ hex04 r.1 ++ lit ", 0x" ++ hex04 r.2 ++ rpar.

Definition row (chunk : list (Z * Z)) : str := indent ++ removelast (concat (map cell chunk)).

Definition block (rs : list (Z * Z)) : list str := opening :: map row (chunks3 rs) ++ [lit "];"].

Definition print_table (rs : list (Z * Z)) : str :=
  foldl (λ s chunk,
      removelast (foldl (λ s '(start, stop), s ++ lpar ++ hex04 start ++ lit ", 0x" ++ hex04 stop ++ rpar)
        (s ++ indent) chunk) ++ [NEWLINE])
    (opening ++ [NEWLINE]) (chunks3 rs) ++ lit "];" ++ [NEWLINE].

Lemma cells_concat s chunk :
  foldl (λ s '(start, stop), s ++ lpar ++ hex04 start ++ lit ", 0x" ++ hex04 stop ++ rpar) s chunk =
  s ++ concat (map cell chunk).
Proof.
  revert s. induction chunk as [|[a b] chunk IH]; intros s; simpl; [by rewrite app_nil_r|].
  by rewrite IH -!app_assoc /cell /= -!app_assoc.
Qed.

(** The chunks of a list are not empty and make it up. *)
Lemma chunks3_spec {A} (l : list A) : concat (chunks3 l) = l ∧ Forall (λ c, c ≠ []) (chunks3 l).
Proof.
  assert (∀ n (l : list A), (length l ≤ n)%nat → concat (chunks3 l) = l ∧ Forall (λ c, c ≠ []) (chunks3 l)) as H.
  { clear. induction n as [|n IH]; intros [|a [|b [|c l]]] Hl; simpl in *; try lia; try (by repeat constructor).
    destruct (IH l) as [-> ?]; [lia|]. by repeat constructor. }
  by apply (H (length l)).
Qed.

Lemma unlines_app ls ks : unlines (ls ++ ks) = unlines ls ++ unlines ks.
Proof. by rewrite /unlines map_app concat_app. Qed.

Context (Hrpar : ∃ p, rpar = p ++ lit ", " ∧ ∃ c q, p = c :: q ∧ hex_value c = None ∧ ∀ t, literals None (q ++ t) = literals None t).
Context (Hlpar : ∀ t, literals None (lpar ++ t) = literals (Some 0) t).
Context (Hindent : ∀ t, literals None (indent ++ t) = literals None t).

Lemma cells_nonempty chunk : chunk ≠ [] → concat (map cell chunk) ≠ [].
Proof.
  destruct chunk as [|r chunk]; [done|]. intros _ H. simpl in H. apply app_eq_nil in H as [H _].
  rewrite /cell in H. repeat (apply app_eq_nil in H as [? H]). destruct Hrpar as (p & -> & _). by apply app_eq_nil in H as [].
Qed.

Lemma print_table_lines rs : print_table rs = unlines (block rs).
Proof.
  rewrite /print_table /block. destruct (chunks3_spec rs) as [_ Hne]. rewrite -/([opening] ++ _) !unlines_app.
  change (unlines [lit "];"]) with (lit "];" ++ [NEWLINE]). rewrite (app_assoc (unlines [opening])). f_equal.
  change (unlines [opening]) with ((opening ++ [NEWLINE]) ++ []). rewrite app_nil_r.
  generalize (opening ++ [NEWLINE]) as s. induction Hne as [|c cs Hc Hne IH]; intros s; simpl; [by rewrite /unlines /= app_nil_r|].
  rewrite IH cells_concat removelast_app; [|by apply cells_nonempty].
  by rewrite /unlines /= /row -!app_assoc.
Qed.

Lemma cell_app r t : cell r ++ t = lpar ++ hex04 r.1 ++ 0x2C :: lit " 0x" ++ hex04 r.2 ++ rpar ++ t.
Proof. unfold cell. by rewrite <- !app_assoc. Qed.

Lemma literals_cells chunk t :
  Forall (λ r, 0 ≤ r.1 ≤ u32_max ∧ 0 ≤ r.2 ≤ u32_max) chunk →
  literals None (concat (map cell chunk) ++ t) = concat (map (λ r, [r.1; r.2]) chunk) ++ literals None t.
Proof.
  intros H. induction H as [|[a b] chunk [Ha Hb] H IH]; [done|]. cbn [map concat fst snd] in *.
  rewrite -(app_assoc (cell _)) cell_app Hlpar. cbn [fst snd]. rewrite (literals_hex04 a) //.
  change (literals None (lit " 0x" ++ ?t)) with (literals (Some 0) t).
  destruct Hrpar as (p & -> & c & q & -> & Hc & Hq). rewrite -(app_assoc (c :: q)) -app_comm_cons (literals_hex04 b) //.
  rewrite Hq. change (literals None (lit ", " ++ ?t)) with (literals None t). by rewrite IH.
Qed.
Lemma cells_last chunk : chunk ≠ [] → ∃ init, concat (map cell chunk) = init ++ [0x20].
Proof.
  intros Hne. destruct (exists_last Hne) as (init & r & ->). rewrite map_app concat_app. cbn [map concat].
  destruct Hrpar as (p & Hp & _). rewrite app_nil_r. unfold cell at 2. rewrite Hp. change (lit ", ") with ([0x2C] ++ [0x20]).
  eexists. by rewrite !app_assoc.
Qed.

Lemma row_literals chunk :
  chunk ≠ [] → Forall (λ r, 0 ≤ r.1 ≤ u32_max ∧ 0 ≤ r.2 ≤ u32_max) chunk →
  literals None (row chunk) = concat (map (λ r, [r.1; r.2]) chunk).
Proof.
  intros Hne Hr. rewrite /row Hindent. pose proof (literals_cells chunk [] Hr) as Hl. rewrite !app_nil_r in Hl. rewrite -Hl.
  destruct (cells_last chunk Hne) as [init ->]. by rewrite removelast_last literals_snoc.
Qed.

Context (Hchars : Forall (λ c, c ≠ NEWLINE) (opening ++ indent ++ lpar ++ rpar)).
Context (Hhead : head indent = Some 0x20).

Lemma upper_digits_chars fuel n acc :
  0 ≤ n → Forall (λ c, c ≠ NEWLINE) acc → Forall (λ c, c ≠ NEWLINE) (upper_digits fuel n acc).
Proof.
  revert n acc. induction fuel as [|fuel IH]; intros n acc Hn Ha; [done|]. simpl.
  assert (upper_digit (n mod 16) ≠ NEWLINE) by (rewrite /upper_digit /NEWLINE; case_match; zlia).
  destruct (n / 16 =? 0); [by constructor|]. apply IH; [zlia|by constructor].
Qed.

Lemma hex04_chars n : 0 ≤ n → Forall (λ c, c ≠ NEWLINE) (hex04 n).
Proof.
  intros. rewrite /hex04. apply Forall_app. split; [by apply Forall_replicate|]. by apply upper_digits_chars.
Qed.

Lemma row_chars chunk :
  Forall (λ r, 0 ≤ r.1 ≤ u32_max ∧ 0 ≤ r.2 ≤ u32_max) chunk → Forall (λ c, c ≠ NEWLINE) (row chunk).
Proof.
  apply Forall_app in Hchars as (_ & (Hi & (Hl & Hp)%Forall_app)%Forall_app).
  intros Hr. rewrite /row. apply Forall_app. split; [done|].
  assert (Forall (λ c, c ≠ NEWLINE) (concat (map cell chunk))) as Hc.
  { induction Hr as [|r chunk [Ha Hb] Hr IH]; [constructor|]. cbn [map concat]. apply Forall_app. split; [|done].
    unfold cell. rewrite 4!Forall_app.
    split_and!; [done|apply hex04_chars; lia|by apply (bool_decide_unpack _)|apply hex04_chars; lia|done]. }
  destruct (concat (map cell chunk)) as [|c l] using rev_ind; [constructor|].
  rewrite removelast_last. by apply Forall_app in Hc as [].
Qed.

Lemma row_no_end chunk : row chunk ≠ lit "];".
Proof. clear -Hhead. rewrite /row. destruct indent as [|c i]; [done|]. injection Hhead as ->. by intros [= ?]. Qed.

Lemma array_rows_block chunks rest :
  array_rows (map row chunks ++ lit "];" :: rest) = Some (map row chunks).
Proof.
  induction chunks as [|c cs IH]; [done|].
  cbn [map app array_rows]. pose proof (row_no_end c). case_decide; [done|]. by rewrite IH.
Qed.

Lemma pairs_flat (l : list (Z * Z)) : pairs (concat (map (λ r, [r.1; r.2]) l)) = l.
Proof. induction l as [|[a b] l IH]; [done|]. simpl. by rewrite IH. Qed.

Lemma block_literals rs :
  Forall (λ r, 0 ≤ r.1 ≤ u32_max ∧ 0 ≤ r.2 ≤ u32_max) rs →
  concat (map (literals None) (map row (chunks3 rs))) = concat (map (λ r, [r.1; r.2]) rs).
Proof.
  destruct (chunks3_spec rs) as [Hc Hne]. rewrite -{1 3}Hc. clear Hc.
  induction Hne as [|c cs Hn Hne IH]; [done|]. cbn [map concat]. intros [Hr Hrs]%Forall_app.
  by rewrite row_literals // IH // map_app concat_app.
Qed.
End print.

(** ** Finding a table *)
Lemma split_unlines ls t :
  Forall (Forall (λ c, c ≠ NEWLINE)) ls → split_char NEWLINE (unlines ls ++ t) = ls ++ split_char NEWLINE t.
Proof.
  rewrite /unlines. induction 1 as [|l ls Hl Hls IH]; [done|]. cbn [map concat app].
  rewrite -!app_assoc split_char_cons ?IH //. intros Hin. rewrite Forall_forall in Hl. by apply (Hl _ Hin).
Qed.

Lemma after_line_skip opening pre ls :
  Forall (λ l, l ≠ opening) pre → after_line opening (pre ++ opening :: ls) = Some ls.
Proof. induction 1 as [|l pre Hl Hp IH]; simpl; [by rewrite decide_True|]. by rewrite decide_False. Qed.

(** ** The formats of the two languages *)
Record format := { fm_opening : str → str; fm_indent : str; fm_lpar : str; fm_rpar : str }.

Definition format_ts : format :=
  {| fm_opening := opening_ts; fm_indent := lit "  "; fm_lpar := lit "[0x"; fm_rpar := lit "], " |}.
Definition format_rs : format :=
  {| fm_opening := opening_rs; fm_indent := lit "    "; fm_lpar := lit "(0x"; fm_rpar := lit "), " |}.

(** The lines of one table in a format. *)
Definition table_lines (F : format) (name : str) (rs : list (Z * Z)) : list str :=
  block (fm_opening F name) (fm_indent F) (fm_lpar F) (fm_rpar F) rs.

Definition NAMES : list str := [lit "BMP_ZERO"; lit "BMP_WIDE"; lit "HIGH_ZERO"; lit "HIGH_WIDE"].

(** What the reader needs of a format. *)
Class Readable (F : format) : Prop := {
  rd_rpar : ∃ p, fm_rpar F = p ++ lit ", " ∧
    ∃ c q, p = c :: q ∧ hex_value c = None ∧ ∀ t, literals None (q ++ t) = literals None t;
  rd_lpar t : literals None (fm_lpar F ++ t) = literals (Some 0) t;
  rd_indent t : literals None (fm_indent F ++ t) = literals None t;
  rd_chars : Forall (λ n, Forall (λ c, c ≠ NEWLINE) (fm_opening F n ++ fm_indent F ++ fm_lpar F ++ fm_rpar F)) NAMES;
  rd_head : head (fm_indent F) = Some 0x20;
  rd_opening : Forall (λ n, head (fm_opening F n) ≠ Some 0x20 ∧ fm_opening F n ≠ lit "];" ∧ fm_opening F n ≠ []) NAMES;
  rd_inj : NoDup (map (fm_opening F) NAMES);
}.

#[export] Instance format_ts_readable : Readable format_ts.
Proof.
  split; try done; try (by apply (bool_decide_unpack _)).
  exists (lit "]"). split; [done|]. by eexists _, [].
Qed.

#[export] Instance format_rs_readable : Readable format_rs.
Proof.
  split; try done; try (by apply (bool_decide_unpack _)).
  exists (lit ")"). split; [done|]. by eexists _, [].
Qed.

Definition fits (rs : list (Z * Z)) : Prop := Forall (λ r, 0 ≤ r.1 ≤ u32_max ∧ 0 ≤ r.2 ≤ u32_max) rs.

Section read.
Context (F : format) `{!Readable F}.

(** A line that the search for a table passes over. *)
Definition passed (name : str) (l : str) : Prop := Forall (λ c, c ≠ NEWLINE) l ∧ l ≠ fm_opening F name.

Lemma table_lines_chars name rs :
  name ∈ NAMES → fits rs → Forall (Forall (λ c, c ≠ NEWLINE)) (table_lines F name rs).
Proof.
  intros Hn Hr. pose proof rd_chars as Hc. rewrite Forall_forall in Hc. specialize (Hc _ Hn).
  rewrite /table_lines /block. constructor; [by apply Forall_app in Hc as []|].
  apply Forall_app. split; [|apply Forall_singleton; by apply (bool_decide_unpack _)].
  destruct (chunks3_spec rs) as [Hcs _]. rewrite /fits -Hcs Forall_concat in Hr. rewrite Forall_fmap.
  eapply Forall_impl; [exact Hr|]. intros chunk Hch. by eapply row_chars.
Qed.

(** The search for a table passes over the lines of the others. *)
Lemma table_lines_passed name other rs :
  name ∈ NAMES → other ∈ NAMES → fm_opening F other ≠ fm_opening F name → fits rs →
  Forall (passed name) (table_lines F other rs).
Proof.
  intros Hn Ho Hne Hr. pose proof (table_lines_chars other rs Ho Hr) as Hc.
  pose proof rd_opening as Hop. rewrite Forall_forall in Hop. destruct (Hop _ Hn) as (Hh & He & _).
  apply Forall_and. split; [done|]. clear Hc Hr. rewrite /table_lines /block. constructor; [done|].
  apply Forall_app. split; [|by apply Forall_singleton]. rewrite Forall_fmap. apply Forall_true. intros chunk. simpl.
  rewrite /row. pose proof rd_head as Hi. destruct (fm_indent F) as [|c i]; [done|]. injection Hi as ->.
  intros Heq. by rewrite -Heq in Hh.
Qed.

Lemma read_table_lines name pre rs t :
  name ∈ NAMES → Forall (passed name) pre → fits rs →
  read_table (fm_opening F name) (unlines (pre ++ table_lines F name rs) ++ t) = Some rs.
Proof.
  intros Hn Hpre Hr. apply Forall_and in Hpre as [Hp1 Hp2]. rewrite /read_table split_unlines.
  2:{ apply Forall_app. split; [done|by apply table_lines_chars]. }
  rewrite -app_assoc {1}/table_lines /block -app_comm_cons after_line_skip //=.
  rewrite -app_assoc /= array_rows_block; [|apply rd_head]. simpl. f_equal.
  rewrite block_literals ?pairs_flat //; [apply rd_rpar|apply rd_lpar|apply rd_indent].
Qed.

(** The lines of a generated file up to the end of its last table. *)
Definition file_lines (hd : list str) (t : Tables) : list str :=
  (((((((hd ++ table_lines F (lit "BMP_ZERO") (bmp_zero t)) ++ [[]]) ++ table_lines F (lit "BMP_WIDE") (bmp_wide t)) ++ [[]]) ++
    table_lines F (lit "HIGH_ZERO") (high_zero t)) ++ [[]]) ++ table_lines F (lit "HIGH_WIDE") (high_wide t)).

Record tables_fit (t : Tables) : Prop := {
  fit_bz : fits (bmp_zero t); fit_bw : fits (bmp_wide t); fit_hz : fits (high_zero t); fit_hw : fits (high_wide t);
}.

Lemma blank_passed name : name ∈ NAMES → Forall (passed name) [[]].
Proof.
  intros Hn. apply Forall_singleton. split; [constructor|]. pose proof rd_opening as Hop. rewrite Forall_forall in Hop.
  destruct (Hop _ Hn) as (_ & _ & ?). done.
Qed.

Lemma read_tables_file hd t code :
  Forall (λ n, Forall (passed n) hd) NAMES → tables_fit t →
  read_tables (fm_opening F) (unlines (file_lines hd t) ++ code) = Some t.
Proof.
  intros Hhd [H1 H2 H3 H4]. pose proof rd_inj as Hd. rewrite Forall_forall in Hhd.
  rewrite /= !NoDup_cons !not_elem_of_cons in Hd. destruct Hd as ((Hd1 & Hd2 & Hd3 & _) & (Hd4 & Hd5 & _) & (Hd6 & _) & _).
  assert (lit "BMP_ZERO" ∈ NAMES ∧ lit "BMP_WIDE" ∈ NAMES ∧ lit "HIGH_ZERO" ∈ NAMES ∧ lit "HIGH_WIDE" ∈ NAMES)
    as (N1 & N2 & N3 & N4) by (rewrite /NAMES; set_solver).
  pose proof (blank_passed _ N2). pose proof (blank_passed _ N3). pose proof (blank_passed _ N4).
  assert (∀ name pre rs, name ∈ NAMES → Forall (passed name) pre → fits rs →
    (∃ post, file_lines hd t = pre ++ table_lines F name rs ++ post) →
    read_table (fm_opening F name) (unlines (file_lines hd t) ++ code) = Some rs) as Hread.
  { intros name pre rs Hn Hpre Hr [post ->]. rewrite app_assoc unlines_app -app_assoc. by apply read_table_lines. }
  rewrite /read_tables. rewrite (Hread _ hd (bmp_zero t) N1); [|by apply Hhd|done|eexists; by rewrite /file_lines -!app_assoc].
  rewrite /= (Hread _ (hd ++ table_lines F (lit "BMP_ZERO") (bmp_zero t) ++ [[]]) (bmp_wide t) N2);
    [|rewrite !Forall_app; split_and!; eauto using table_lines_passed|done|eexists; by rewrite /file_lines -!app_assoc].
  rewrite /= (Hread _ (hd ++ table_lines F (lit "BMP_ZERO") (bmp_zero t) ++ [[]] ++
      table_lines F (lit "BMP_WIDE") (bmp_wide t) ++ [[]]) (high_zero t) N3);
    [|rewrite !Forall_app; split_and!; eauto using table_lines_passed|done|eexists; by rewrite /file_lines -!app_assoc].
  rewrite /= (Hread _ (hd ++ table_lines F (lit "BMP_ZERO") (bmp_zero t) ++ [[]] ++
      table_lines F (lit "BMP_WIDE") (bmp_wide t) ++ [[]] ++ table_lines F (lit "HIGH_ZERO") (high_zero t) ++ [[]])
      (high_wide t) N4);
    [|rewrite !Forall_app; split_and!; eauto using table_lines_passed|done|exists []; by rewrite /file_lines -!app_assoc app_nil_r].
  by destruct t.
Qed.
End read.

(** ** The two files *)

Lemma emit_ranges_ts_lines name rs : emit_ranges_ts name rs = unlines (table_lines format_ts name rs).
Proof.
  rewrite /table_lines -print_table_lines; [|apply rd_rpar].
  rewrite /emit_ranges_ts /print_table /format_ts /opening_ts /=. by rewrite -!app_assoc.
Qed.

Lemma emit_ranges_rs_lines name rs : emit_ranges_rs name rs = unlines (table_lines format_rs name rs).
Proof.
  rewrite /table_lines -print_table_lines; [|apply rd_rpar].
  rewrite /emit_ranges_rs /print_table /format_rs /opening_rs /=. by rewrite -!app_assoc.
Qed.

Lemma file_text F hd t code :
  unlines (file_lines F hd t) ++ code =
  unlines hd ++ unlines (table_lines F (lit "BMP_ZERO") (bmp_zero t)) ++ [NEWLINE] ++
  unlines (table_lines F (lit "BMP_WIDE") (bmp_wide t)) ++ [NEWLINE] ++
  unlines (table_lines F (lit "HIGH_ZERO") (high_zero t)) ++ [NEWLINE] ++
  unlines (table_lines F (lit "HIGH_WIDE") (high_wide t)) ++ code.
Proof.
  unfold file_lines. rewrite !unlines_app. change (unlines [[]]) with [NEWLINE]. by rewrite <- !app_assoc.
Qed.

(** A line whose first character no opening line has is passed over. *)
Lemma passed_by_head F c l name :
  Forall (λ d, d ≠ NEWLINE) l → head (fm_opening F name) = Some c → head l ≠ Some c → passed F name l.
Proof. intros Hl Hc Hh. split; [done|]. intros Heq. rewrite Heq in Hh. by apply Hh. Qed.

Lemma headers_passed F c hd :
  Forall (λ n, head (fm_opening F n) = Some c) NAMES →
  Forall (λ l, Forall (λ d, d ≠ NEWLINE) l ∧ head l ≠ Some c) hd →
  Forall (λ n, Forall (passed F n) hd) NAMES.
Proof.
  intros Hn Hh. eapply Forall_impl; [exact Hn|]. intros n Hc. eapply Forall_impl; [exact Hh|].
  intros l [Hl Hne]. exact (passed_by_head F c l n Hl Hc Hne).
Qed.

Ltac fixed_line :=
  split; [rewrite ?Forall_app; repeat split; first [assumption | by apply (bool_decide_unpack _)] | by vm_compute].

Section files.
Context (a : Authority) (t : Tables).
Context (Hglibc : Forall (λ c, c ≠ NEWLINE) (glibc_version a)) (Hlocale : Forall (λ c, c ≠ NEWLINE) (locale_name a)).

Lemma ts_header_lines :
  ∃ hd, ts_header (glibc_version a) (locale_name a) = unlines hd ∧ Forall (λ n, Forall (passed format_ts n) hd) NAMES.
Proof.
  eexists. split; [rewrite /ts_header; reflexivity|]. apply (headers_passed _ 0x63); [by apply (bool_decide_unpack _)|].
  repeat (apply Forall_cons; split; [fixed_line|]). constructor.
Qed.

Lemma rs_header_lines :
  ∃ hd, rs_header (glibc_version a) (locale_name a) = unlines hd ∧ Forall (λ n, Forall (passed format_rs n) hd) NAMES.
Proof.
  eexists. split; [rewrite /rs_header; reflexivity|]. apply (headers_passed _ 0x73); [by apply (bool_decide_unpack _)|].
  repeat (apply Forall_cons; split; [fixed_line|]). constructor.
Qed.

(** Reading the tables from the generated files gives the tables. *)
Lemma typescript_roundtrip : tables_fit t → read_tables opening_ts (build_typescript a t) = Some t.
Proof.
  intros Ht. destruct ts_header_lines as (hd & Hh & Hhd).
  rewrite /build_typescript Hh !emit_ranges_ts_lines -file_text. by apply (read_tables_file format_ts).
Qed.

Lemma rust_roundtrip : tables_fit t → read_tables opening_rs (build_rust a t) = Some t.
Proof.
  intros Ht. destruct rs_header_lines as (hd & Hh & Hhd).
  rewrite /build_rust Hh !emit_ranges_rs_lines -file_text. by apply (read_tables_file format_rs).
Qed.
End files.
