(* ===== verification/WidthTablesProps.v ===== *)
(** * The width tables agree with their authority

    The ranges the generator collects cover exactly the code points of a class;
    both generated searches find exactly the covered code points; the tables are
    read back from the generated text; and a passing [--check] means that the
    terminal model and both clients measure every printable code point as the
    dump does. *)
From S2P Require Import Prelude Paths WidthTables WidthTablesText.

(** ** Ranges *)

(** [cp] lies in one of the ranges. *)
Definition covered (rs : list (Z * Z)) (cp : Z) : Prop := Exists (λ r, r.1 ≤ cp ≤ r.2) rs.

(** Ranges in ascending order, none empty, no two overlapping. *)
Definition apart (rs : list (Z * Z)) : Prop :=
  Forall (λ r, r.1 ≤ r.2) rs ∧ StronglySorted (λ r r', r.2 < r'.1) rs.

Lemma covered_lookup rs cp : covered rs cp ↔ ∃ k r, rs !! k = Some r ∧ r.1 ≤ cp ≤ r.2.
Proof.
  rewrite /covered Exists_exists. split.
  - intros (r & [k Hk]%list_elem_of_lookup & Hr). by exists k, r.
  - intros (k & r & Hk & Hr). exists r. split; [by eapply list_elem_of_lookup_2|done].
Qed.

Lemma apart_lookup rs i j r r' :
  apart rs → rs !! i = Some r → rs !! j = Some r' → (i < j)%nat → r.2 < r'.1.
Proof.
  intros [_ Hs] Hi Hj Hij. revert i j Hi Hj Hij.
  induction Hs as [|x l Hs IH Hx]; intros [|i] [|j] Hi Hj Hij; simplify_eq/=; try lia.
  - rewrite Forall_forall in Hx. apply Hx. by eapply list_elem_of_lookup_2.
  - eapply IH; [done..|lia].
Qed.

Lemma apart_valid rs i r : apart rs → rs !! i = Some r → r.1 ≤ r.2.
Proof. intros [Hv _] Hi. by eapply (Forall_lookup_1 (λ r : Z * Z, r.1 ≤ r.2)). Qed.

Lemma apart_snoc rs r :
  apart (rs ++ [r]) ↔ apart rs ∧ r.1 ≤ r.2 ∧ Forall (λ q, q.2 < r.1) rs.
Proof.
  rewrite /apart Forall_app Forall_singleton StronglySorted_app (Forall_forall (λ q : Z * Z, q.2 < r.1)).
  split.
  - intros ([? ?] & Hl & ? & _). split_and!; [done..|]. intros q Hq. apply (Hl q r); [done|by left].
  - intros ([? ?] & ? & Hl). split_and!; [done|done| |done|repeat constructor].
    intros q ? Hq ->%list_elem_of_singleton. by apply Hl.
Qed.

(** What the loop of [ranges] has after the code points from [lo] to before [hi]. *)
Record collected (a : Authority) (class lo hi : Z) (rs : list (Z * Z)) : Prop := {
  col_apart : apart rs;
  col_bounds : Forall (λ r, lo ≤ r.1 ∧ r.2 < hi) rs;
  col_exact : ∀ cp, lo ≤ cp < hi → width_of a cp = Some class ↔ covered rs cp;
}.

Lemma covered_snoc rs r cp : covered (rs ++ [r]) cp ↔ covered rs cp ∨ r.1 ≤ cp ≤ r.2.
Proof. rewrite /covered Exists_app Exists_cons Exists_nil. naive_solver. Qed.

Lemma covered_bounds rs lo hi cp :
  Forall (λ r, lo ≤ r.1 ∧ r.2 < hi) rs → covered rs cp → lo ≤ cp < hi.
Proof. intros Hb Hc. rewrite /covered in Hc. induction Hb; inversion Hc; subst; [lia|auto]. Qed.

Lemma collected_skip a class lo hi rs w :
  collected a class lo hi rs → width_of a hi = Some w → w ≠ class → collected a class lo (hi + 1) rs.
Proof.
  intros [Ha Hb He] Hw Hn. split; [done| |].
  - eapply Forall_impl; [exact Hb|]. intros; simpl in *; lia.
  - intros cp Hcp. destruct (decide (cp = hi)) as [->|]; [|apply He; lia].
    split; [congruence|]. intros Hc. apply (covered_bounds _ lo hi) in Hc; [lia|done].
Qed.

(** A new range of one code point, and the last range grown by one. *)
Lemma collected_new a class lo hi rs :
  lo ≤ hi → collected a class lo hi rs → width_of a hi = Some class → collected a class lo (hi + 1) (rs ++ [(hi, hi)]).
Proof.
  intros Hlo [Ha Hb He] Hw. split.
  - apply apart_snoc. split_and!; [done|done|]. eapply Forall_impl; [exact Hb|]. intros; simpl in *; lia.
  - apply Forall_app. split; [|apply Forall_singleton; simpl; lia].
    eapply Forall_impl; [exact Hb|]. intros; simpl in *; lia.
  - intros cp Hcp. rewrite covered_snoc /=. destruct (decide (cp = hi)) as [->|].
    + split; [intros _; right; lia|done].
    + rewrite (He cp); last lia. split; [by left|]. intros [|]; [done|lia].
Qed.

Lemma collected_grow a class lo hi rs s e :
  collected a class lo hi (rs ++ [(s, e)]) → e + 1 = hi → width_of a hi = Some class →
  collected a class lo (hi + 1) (rs ++ [(s, hi)]).
Proof.
  intros [Ha Hb He] Hhi Hw. apply apart_snoc in Ha as (Ha & Hse & Hl). simpl in *.
  apply Forall_app in Hb as [Hb Hr]. apply Forall_inv in Hr. simpl in Hr. split.
  - apply apart_snoc. split_and!; [done|simpl; lia|done].
  - apply Forall_app. split; [|apply Forall_singleton; simpl; lia].
    eapply Forall_impl; [exact Hb|]. intros; simpl in *; lia.
  - intros cp Hcp. rewrite covered_snoc /=. destruct (decide (cp = hi)) as [->|].
    + split; [intros _; right; lia|done].
    + rewrite (He cp); last lia. rewrite covered_snoc /=.
      split; (intros [|]; [by left|right; lia]).
Qed.

Lemma range_loop_collects a class lo n hi st :
  lo ≤ hi → (∀ cp, hi ≤ cp < hi + Z.of_nat n → is_Some (width_of a cp)) →
  collected a class lo hi (st.1 ++ option_list st.2) →
  ∃ st', range_loop a class (seqZ hi (Z.of_nat n)) st = Some st' ∧
         collected a class lo (hi + Z.of_nat n) (st'.1 ++ option_list st'.2).
Proof.
  revert hi st. induction n as [|n IH]; intros hi st Hlo Hs Hc.
  { exists st. by rewrite seqZ_nil ?Z.add_0_r; [|lia..]. }
  rewrite seqZ_cons; last lia. replace (Z.pred (Z.of_nat (S n))) with (Z.of_nat n) by lia.
  simpl. destruct (Hs hi) as [w Hw]; [lia|]. rewrite Hw /=.
  replace (hi + Z.of_nat (S n)) with ((hi + 1) + Z.of_nat n) by lia. rewrite -Z.add_1_r.
  apply IH; [lia|intros cp ?; apply Hs; lia|].
  destruct (w =? class) eqn:Ew; to_prop; [subst w|by eapply collected_skip].
  destruct st as [out [[s e]|]]; simpl in *.
  - destruct (e + 1 =? hi) eqn:Ee; to_prop; [by eapply collected_grow|].
    by apply collected_new.
  - rewrite app_nil_r in Hc. by apply collected_new.
Qed.

Lemma ranges_collect a lo hi class :
  lo ≤ hi → (∀ cp, lo ≤ cp ≤ hi → is_Some (width_of a cp)) →
  ∃ rs, ranges a lo hi class = Some rs ∧ collected a class lo (hi + 1) rs.
Proof.
  intros Hlo Hs. destruct (range_loop_collects a class lo (Z.to_nat (hi + 1 - lo)) lo ([], None)) as (st & Hl & Hc).
  - lia.
  - intros cp ?. apply Hs. lia.
  - split; [split; constructor|constructor|]. intros; lia.
  - rewrite Z2Nat.id in Hl, Hc; [|lia..]. exists (st.1 ++ option_list st.2). rewrite /ranges Hl /=. destruct st as [out run].
    split; [done|]. by replace (hi + 1) with (lo + (hi + 1 - lo)) by lia.
Qed.

(** ** The two searches *)

(** At most one range holds a code point, and the comparison tells where it is. *)
Lemma range_cmp_side rs cp i r k q :
  apart rs → rs !! i = Some r → rs !! k = Some q → q.1 ≤ cp ≤ q.2 →
  match range_cmp cp r with Gt => (k < i)%nat | Lt => (i < k)%nat | Eq => k = i end.
Proof.
  intros Ha Hi Hk Hq. pose proof (apart_valid _ _ _ Ha Hi).
  rewrite /range_cmp. destruct (cp <? r.1) eqn:E1; [|destruct (r.2 <? cp) eqn:E2]; to_prop;
    destruct (lt_eq_lt_dec k i) as [[Hl| ->]|Hl]; try done; simplify_eq; try lia;
    first [pose proof (apart_lookup _ _ _ _ _ Ha Hk Hi Hl) | pose proof (apart_lookup _ _ _ _ _ Ha Hi Hk Hl)]; lia.
Qed.

Lemma search_by_spec fuel cp rs base size :
  apart rs → (0 < size ≤ fuel)%nat → (base + size ≤ length rs)%nat →
  ∃ b, search_by fuel cp rs base size = Some b ∧ (b < length rs)%nat ∧
    ∀ k q, rs !! k = Some q → q.1 ≤ cp ≤ q.2 → (base ≤ k < base + size)%nat → k = b.
Proof.
  intros Ha. revert base size. induction fuel as [|fuel IH]; intros base size Hs Hb; [lia|]. simpl.
  destruct (1 <? size)%nat eqn:E1; [apply Nat.ltb_lt in E1|apply Nat.ltb_ge in E1; exists base; split_and!; [done|lia|lia]].
  assert (0 < Nat.div2 size < size)%nat as Hh.
  { rewrite Nat.div2_div. split; [apply Nat.div_str_pos; lia|apply Nat.div_lt; lia]. }
  destruct (lookup_lt_is_Some_2 rs (base + Nat.div2 size)) as [r Hr]; [lia|]. rewrite Hr /=.
  edestruct (IH (match range_cmp cp r with Gt => base | _ => base + Nat.div2 size end)%nat (size - Nat.div2 size)%nat)
    as (b & Hb1 & Hb2 & Hb3); [lia|destruct (range_cmp cp r); lia|].
  exists b. split_and!; [done|done|]. intros k q Hk Hq Hkb. apply (Hb3 k q); [done|done|].
  pose proof (range_cmp_side _ _ _ _ _ _ Ha Hr Hk Hq) as Hside.
  destruct (range_cmp cp r); [lia|lia|].
  assert (Nat.div2 size ≤ size - Nat.div2 size)%nat; [|lia].
  rewrite Nat.div2_div. pose proof (Nat.div_mod size 2). lia.
Qed.

Lemma bisearch_rs_spec cp rs : apart rs → bisearch_rs cp rs = true ↔ covered rs cp.
Proof.
  intros Ha. rewrite /bisearch_rs covered_lookup. destruct rs as [|r0 rs]; [naive_solver|].
  destruct (search_by_spec (length (r0 :: rs)) cp (r0 :: rs) 0 (length (r0 :: rs))) as (b & -> & Hb & Hk);
    [done|simpl; lia|lia|].
  destruct (lookup_lt_is_Some_2 _ _ Hb) as [r Hr]. rewrite Hr. split.
  - rewrite /range_cmp. intros H. exists b, r. split; [done|].
    destruct (cp <? r.1) eqn:?; [done|]. destruct (r.2 <? cp) eqn:?; [done|]. to_prop. lia.
  - intros (k & q & Hkq & Hq). pose proof (lookup_lt_Some _ _ _ Hkq).
    assert (k = b) as -> by (apply (Hk k q); [done|done|lia]).
    pose proof (range_cmp_side _ _ _ _ _ _ Ha Hr Hkq Hq). by destruct (range_cmp cp r); try lia.
Qed.

Lemma bisearch_loop_spec fuel cp rs lo hi :
  apart rs → 0 ≤ lo ≤ hi + 1 → hi < len rs → hi - lo + 1 < Z.of_nat fuel →
  ∃ b, bisearch_loop fuel cp rs lo hi = Some b ∧
    (b = true ↔ ∃ k q, rs !! k = Some q ∧ q.1 ≤ cp ≤ q.2 ∧ lo ≤ Z.of_nat k ≤ hi).
Proof.
  intros Ha. rewrite /len. revert lo hi. induction fuel as [|fuel IH]; intros lo hi Hlo Hhi Hf; [lia|].
  simpl. destruct (lo <=? hi) eqn:E; to_prop;
    [|exists false; split; [done|]; split; [done|]; intros (k & q & ? & ? & ?); lia].
  assert (lo ≤ Z.shiftr (lo + hi) 1 ≤ hi) as Hm by (rewrite Z.shiftr_div_pow2 //; zlia).
  set (mid := Z.shiftr (lo + hi) 1) in *.
  destruct (lookup_lt_is_Some_2 rs (Z.to_nat mid)) as [r Hr]; [lia|]. rewrite Hr.
  assert (∀ k q, rs !! k = Some q → q.1 ≤ cp ≤ q.2 →
    match range_cmp cp r with Gt => (k < Z.to_nat mid)%nat | Lt => (Z.to_nat mid < k)%nat | Eq => k = Z.to_nat mid end)
    as Hside by (intros; by eapply range_cmp_side).
  rewrite /range_cmp in Hside. pose proof (apart_valid _ _ _ Ha Hr).
  destruct (r.2 <? cp) eqn:E2; to_prop.
  - rewrite (proj2 (Z.ltb_ge cp r.1)) in Hside; last lia.
    destruct (IH (mid + 1) hi) as (b & Hl & Hb); [lia..|]. exists b. split; [done|]. rewrite Hb.
    split; intros (k & q & Hk & Hq & Hb'); pose proof (Hside _ _ Hk Hq); exists k, q; (split_and!; [done|lia..]).
  - destruct (cp <? r.1) eqn:E1; to_prop.
    + destruct (IH lo (mid - 1)) as (b & Hl & Hb); [lia..|]. exists b. split; [done|]. rewrite Hb.
      split; intros (k & q & Hk & Hq & Hb'); pose proof (Hside _ _ Hk Hq); exists k, q; (split_and!; [done|lia..]).
    + exists true. split; [done|]. split; [|done]. intros _. exists (Z.to_nat mid), r. split_and!; [done|lia..].
Qed.

Lemma bisearch_ts_spec cp rs : apart rs → ∃ b, bisearch_ts cp rs = Some b ∧ (b = true ↔ covered rs cp).
Proof.
  intros Ha. rewrite /bisearch_ts. setoid_rewrite covered_lookup.
  destruct (head rs) as [f|] eqn:Ef; [|destruct rs; [exists false; naive_solver|done]].
  destruct (last rs) as [l|] eqn:El; [|by apply last_None in El as ->].
  rewrite last_lookup in El. rewrite head_lookup in Ef.
  destruct (_ || _) eqn:Eb.
  - exists false. split; [done|]. split; [done|]. intros (k & q & Hk & Hq).
    pose proof (lookup_lt_Some _ _ _ Hk). pose proof (lookup_lt_Some _ _ _ El).
    assert (f.1 ≤ cp ∧ cp ≤ l.2) as []; [|apply orb_true_iff in Eb as []; to_prop; lia].
    pose proof (apart_valid _ _ _ Ha Ef). pose proof (apart_valid _ _ _ Ha El). split.
    + destruct (decide (k = 0)%nat) as [->|]; [simplify_eq; lia|].
      pose proof (apart_lookup _ _ _ _ _ Ha Ef Hk). lia.
    + destruct (decide (k = pred (length rs))) as [->|]; [simplify_eq; lia|].
      pose proof (apart_lookup _ _ _ _ _ Ha Hk El). lia.
  - assert (0 < length rs)%nat by (by apply lookup_lt_Some in Ef).
    destruct (bisearch_loop_spec (S (length rs)) cp rs 0 (len rs - 1)) as (b & -> & Hb); [done|unfold len; lia..|].
    rewrite /len in Hb. exists b. split; [done|]. rewrite Hb. split; [naive_solver|]. intros (k & q & Hk & Hq).
    exists k, q. pose proof (lookup_lt_Some _ _ _ Hk). split_and!; [done|lia..].
Qed.

(** ** The lookup table of the clients *)
Lemma fill_length v s e t : length (fill v s e t) = length t.
Proof.
  rewrite /fill /len. case_match; [|done]. apply Nat.ltb_lt in H.
  rewrite !length_app length_take length_replicate length_drop. lia.
Qed.

Lemma fill_lookup v s e t i :
  0 ≤ s → 0 ≤ i < len t →
  fill v s e t !! Z.to_nat i = if (s <=? i) && (i <? e) then Some v else t !! Z.to_nat i.
Proof.
  rewrite /fill /len => Hs Hi.
  destruct ((s <=? i) && (i <? e)) eqn:E; to_prop.
  - rewrite (proj2 (Nat.ltb_lt _ _)); last lia.
    rewrite lookup_app_r length_take; [|lia]. rewrite lookup_app_l ?length_replicate; [|lia].
    apply lookup_replicate_2. lia.
  - case_match; [|done]. apply Nat.ltb_lt in H. apply andb_false_iff in E.
    rewrite lookup_app length_take. destruct (decide (i < s)).
    + rewrite lookup_take_lt; [|lia]. destruct (lookup_lt_is_Some_2 t (Z.to_nat i)) as [x ->]; [lia|done].
    + rewrite lookup_take_ge; [|lia]. rewrite lookup_app_r length_replicate; [|destruct E; to_prop; lia].
      rewrite lookup_drop. f_equal. destruct E; to_prop; lia.
Qed.

Definition fills (v : Z) (rs : list (Z * Z)) (t : list Z) : list Z :=
  foldl (λ a '(start, stop), fill v start (stop + 1) a) t rs.

Lemma fills_length v rs t : length (fills v rs t) = length t.
Proof.
  rewrite /fills. revert t. induction rs as [|[s e] rs IH]; intros t; [done|]. simpl. by rewrite IH fill_length.
Qed.

Lemma fills_lookup v rs t i :
  Forall (λ r, 0 ≤ r.1) rs → 0 ≤ i < len t →
  (covered rs i → fills v rs t !! Z.to_nat i = Some v) ∧
  (¬ covered rs i → fills v rs t !! Z.to_nat i = t !! Z.to_nat i).
Proof.
  rewrite /covered => Hr. revert t. induction Hr as [|[s e] rs Hs Hr IH]; intros t Hi.
  { split; [by intros ?%Exists_nil|done]. }
  change (fills v ((s, e) :: rs) t) with (fills v rs (fill v s (e + 1) t)). simpl in Hs.
  destruct (IH (fill v s (e + 1) t)) as [H1 H2]; [by rewrite /len fill_length|].
  rewrite Exists_cons /=. destruct (decide (Exists (λ r : Z * Z, r.1 ≤ i ≤ r.2) rs)) as [Hc|Hc].
  - split; [by intros _; apply H1|]. intros []. by right.
  - rewrite H2 // fill_lookup //. split.
    + intros [?|?]; [|done]. by rewrite (proj2 (Z.leb_le s i)) ?(proj2 (Z.ltb_lt i (e + 1))); [|lia..].
    + intros Hn. destruct ((s <=? i) && (i <? e + 1)) eqn:E; [|done]. to_prop. destruct Hn. left. lia.
Qed.

(** ** What the generated code measures *)

(** What [load] guarantees: one width of zero, one or two per code point. *)
Record authority_wf (a : Authority) : Prop := {
  wf_size : len (widths a) = 0x110000 - DUMP_LO;
  wf_class : Forall (λ w, w = 0 ∨ w = 1 ∨ w = 2) (widths a);
}.

Lemma width_of_total a cp :
  authority_wf a → cp ≤ 0x10FFFF → width_of a cp = Some 0 ∨ width_of a cp = Some 1 ∨ width_of a cp = Some 2.
Proof.
  intros [Hs Hc] Hcp. rewrite /width_of /DUMP_LO /len in Hs |- *. destruct (cp <? 0x20) eqn:E; to_prop; [naive_solver|].
  destruct (lookup_lt_is_Some_2 (widths a) (Z.to_nat (cp - 0x20))) as [w Hw]; [lia|].
  rewrite Hw. pose proof (Forall_lookup_1 _ _ _ _ Hc Hw). naive_solver.
Qed.

(** The four tables of an authority. *)
Record tables_of (a : Authority) (t : Tables) : Prop := {
  of_bz : collected a 0 0xA0 0x10000 (bmp_zero t);
  of_bw : collected a 2 0xA0 0x10000 (bmp_wide t);
  of_hz : collected a 0 0x10000 0x110000 (high_zero t);
  of_hw : collected a 2 0x10000 0x110000 (high_wide t);
}.

Lemma build_tables_of a : authority_wf a → ∃ t, build_tables a = Some t ∧ tables_of a t.
Proof.
  intros Hwf. assert (∀ cp, cp ≤ 0x10FFFF → is_Some (width_of a cp)) as Hs.
  { intros cp Hcp. destruct (width_of_total a cp Hwf Hcp) as [->|[->| ->]]; by eexists. }
  rewrite /build_tables.
  destruct (ranges_collect a 0xA0 0xFFFF 0) as (bz & -> & Hbz); [lia|intros; apply Hs; lia|].
  destruct (ranges_collect a 0xA0 0xFFFF 2) as (bw & -> & Hbw); [lia|intros; apply Hs; lia|].
  destruct (ranges_collect a 0x10000 0x10FFFF 0) as (hz & -> & Hhz); [lia|intros; apply Hs; lia|].
  destruct (ranges_collect a 0x10000 0x10FFFF 2) as (hw & -> & Hhw); [lia|intros; apply Hs; lia|].
  simpl. eexists. split; [done|]. by split.
Qed.

(** Zero if in the first table, two if in the second, else one. *)
Lemma collected_width a lo hi zs ws cp :
  authority_wf a → hi ≤ 0x110000 → lo ≤ cp < hi → collected a 0 lo hi zs → collected a 2 lo hi ws →
  (covered zs cp ∧ width_of a cp = Some 0) ∨
  (¬ covered zs cp ∧ covered ws cp ∧ width_of a cp = Some 2) ∨
  (¬ covered zs cp ∧ ¬ covered ws cp ∧ width_of a cp = Some 1).
Proof.
  intros Hwf Hhi Hcp Hz Hw. rewrite -(col_exact _ _ _ _ _ Hz) // -(col_exact _ _ _ _ _ Hw) //.
  destruct (width_of_total a cp Hwf) as [->|[->| ->]]; [lia|naive_solver..].
Qed.

Lemma bisearch_rs_decide cp rs : apart rs → bisearch_rs cp rs = bool_decide (covered rs cp).
Proof.
  intros Ha. pose proof (bisearch_rs_spec cp rs Ha) as H. case_bool_decide as Hc; [by apply H|].
  destruct (bisearch_rs cp rs); [|done]. by destruct Hc; apply H.
Qed.

Lemma bisearch_ts_decide cp rs : apart rs → bisearch_ts cp rs = Some (bool_decide (covered rs cp)).
Proof.
  intros Ha. destruct (bisearch_ts_spec cp rs Ha) as (b & -> & H). f_equal. case_bool_decide as Hc; [by apply H|].
  destruct b; [|done]. by destruct Hc; apply H.
Qed.

#[export] Hint Resolve col_apart : holdfast.

Lemma model_width_spec a t cp :
  authority_wf a → tables_of a t → 0xA0 ≤ cp ≤ 0x10FFFF → width_of a cp = Some (model_width t cp).
Proof.
  intros Hwf [Hbz Hbw Hhz Hhw] Hcp. rewrite /model_width (proj2 (Z.ltb_ge cp 0xA0)); last lia.
  rewrite !bisearch_rs_decide; [|eauto with holdfast..].
  destruct (cp <=? 0xFFFF) eqn:E; to_prop.
  - destruct (collected_width a 0xA0 0x10000 (bmp_zero t) (bmp_wide t) cp) as [[]|[[? []]|[? []]]]; try done; try lia;
      repeat (first [rewrite bool_decide_true; [|done] | rewrite bool_decide_false; [|done]]); done.
  - destruct (collected_width a 0x10000 0x110000 (high_zero t) (high_wide t) cp) as [[]|[[? []]|[? []]]]; try done; try lia;
      repeat (first [rewrite bool_decide_true; [|done] | rewrite bool_decide_false; [|done]]); done.
Qed.

Lemma collected_nonneg a class lo hi rs : 0 ≤ lo → collected a class lo hi rs → Forall (λ r, 0 ≤ r.1) rs.
Proof. intros ? Hc. eapply Forall_impl; [exact (col_bounds _ _ _ _ _ Hc)|]. intros; simpl in *; lia. Qed.

(** The table starts with zero for the control characters and one elsewhere. *)
Definition blank_table : list Z := fill 0 0x7F 0xA0 (fill 0 0 32 (fill 1 0 65536 (replicate (Z.to_nat 65536) 0))).

Lemma blank_table_len : len blank_table = 65536.
Proof. rewrite /len /blank_table !fill_length length_replicate. lia. Qed.

Lemma blank_table_lookup i :
  0 ≤ i < 65536 → blank_table !! Z.to_nat i = Some (if (i <? 32) || ((0x7F <=? i) && (i <? 0xA0)) then 0 else 1).
Proof.
  assert (len (replicate (Z.to_nat 65536) 0) = 65536) as Hl by (rewrite /len length_replicate; lia).
  rewrite /blank_table. generalize dependent (replicate (Z.to_nat 65536) 0). intros t Hl Hi.
  assert (∀ v s e u, len u = 65536 → len (fill v s e u) = 65536) as Hf by (intros; by rewrite /len fill_length).
  rewrite !fill_lookup; try (rewrite ?Hf //; lia); try lia.
  rewrite (proj2 (Z.leb_le 0 i)) ?(proj2 (Z.ltb_lt i 65536)); [|lia..]. simpl.
  destruct ((0x7F <=? i) && (i <? 0xA0)) eqn:E1; [by rewrite orb_true_r|]. rewrite orb_false_r. by destruct (i <? 32).
Qed.

Lemma buildTable_fills t : buildTable t = fills 2 (bmp_wide t) (fills 0 (bmp_zero t) blank_table).
Proof. cbv beta zeta delta [buildTable fills blank_table]. reflexivity. Qed.

Lemma wcwidth_spec a t cp :
  authority_wf a → tables_of a t → 0xA0 ≤ cp ≤ 0x10FFFF → wcwidth t cp = width_of a cp.
Proof.
  intros Hwf [Hbz Hbw Hhz Hhw] Hcp. rewrite /wcwidth.
  rewrite (proj2 (Z.ltb_ge cp 32)) ?(proj2 (Z.ltb_ge cp 127)); [|lia..].
  destruct (cp <? 65536) eqn:E; to_prop.
  - rewrite buildTable_fills.
    assert (covered (bmp_wide t) cp → width_of a cp = Some 2) as Hwide by (intros; apply (col_exact _ _ _ _ _ Hbw); [lia|done]).
    pose proof (collected_width a 0xA0 0x10000 (bmp_zero t) (bmp_wide t) cp Hwf ltac:(lia) ltac:(lia) Hbz Hbw) as Hcases.
    apply collected_nonneg in Hbz; [|lia]. apply collected_nonneg in Hbw; [|lia].
    pose proof (blank_table_lookup cp ltac:(lia)) as Hl. pose proof blank_table_len as Hb.
    generalize dependent blank_table. intros blank Hl Hb.
    destruct (fills_lookup 0 (bmp_zero t) blank cp) as [Z1 Z2]; [done|lia|].
    destruct (fills_lookup 2 (bmp_wide t) (fills 0 (bmp_zero t) blank) cp) as [W1 W2];
      [done|rewrite /len fills_length; rewrite /len in Hb; lia|].
    destruct Hcases as [[? Hw]|[(? & ? & Hw)|(? & ? & Hw)]].
    + rewrite Hw W2 ?Z1 //. intros Hn. specialize (Hwide Hn). congruence.
    + by rewrite Hw W1.
    + rewrite Hw W2 // Z2 // Hl.
      by rewrite (proj2 (Z.ltb_ge cp 32)) ?(proj2 (Z.ltb_ge cp 0xA0)) ?andb_false_r; [|lia..].
  - rewrite !bisearch_ts_decide; [|eauto with holdfast..]. simpl.
    destruct (collected_width a 0x10000 0x110000 (high_zero t) (high_wide t) cp) as [[]|[[? []]|[? []]]]; try done; try lia;
      repeat (first [rewrite bool_decide_true; [|done] | rewrite bool_decide_false; [|done]]); done.
Qed.

(** Below the tables only constants. *)
Lemma wcwidth_low t cp :
  Forall (λ r, 0xA0 ≤ r.1) (bmp_zero t) → Forall (λ r, 0xA0 ≤ r.1) (bmp_wide t) → cp < 0xA0 →
  wcwidth t cp = Some (if (cp <? 32) || (0x7F <=? cp) then 0 else 1).
Proof.
  intros Hz Hw Hcp. rewrite /wcwidth. destruct (cp <? 32) eqn:E1; [done|]. destruct (cp <? 127) eqn:E2; to_prop.
  { by rewrite (proj2 (Z.leb_gt 0x7F cp)); last lia. }
  rewrite (proj2 (Z.ltb_lt cp 65536)); last lia. rewrite (proj2 (Z.leb_le 0x7F cp)) // orb_true_r.
  assert (∀ rs, Forall (λ r, 0xA0 ≤ r.1) rs → ¬ covered rs cp ∧ Forall (λ r, 0 ≤ r.1) rs) as Hn.
  { intros rs Hr. split; [|eapply Forall_impl; [exact Hr|]; intros; simpl in *; lia].
    intros (r & Hin & ?)%Exists_exists. rewrite Forall_forall in Hr. specialize (Hr _ Hin). simpl in *. lia. }
  rewrite buildTable_fills. pose proof (blank_table_lookup cp ltac:(lia)) as Hl. pose proof blank_table_len as Hb.
  generalize dependent blank_table. intros blank Hl Hb.
  rewrite (proj2 (fills_lookup _ _ _ cp (proj2 (Hn _ Hw)) _)); [|rewrite /len fills_length; rewrite /len in Hb; lia|by apply Hn].
  rewrite (proj2 (fills_lookup _ _ _ cp (proj2 (Hn _ Hz)) _)); [|lia|by apply Hn].
  rewrite Hl (proj2 (Z.leb_le 0x7F cp)) // (proj2 (Z.ltb_lt cp 0xA0)) //. by rewrite orb_true_r.
Qed.

(** ** Loading the dump *)

(** The characters of the dump, comment lines left out, and the one of a code
    point. *)
Definition dump_data (text : str) : str := concat (filter (λ l, strip_prefix (lit "#") l = None) (lines text)).

Definition dump_char (text : str) (cp : Z) : option char := dump_data text !! Z.to_nat (cp - DUMP_LO).

Lemma width_class_range c w : width_class c = Some w → w = 0 ∨ w = 1 ∨ w = 2.
Proof. rewrite /width_class. repeat case_match; naive_solver. Qed.

Lemma load_lines_widths ls a0 a :
  load_lines a0 ls = Some a →
  ∃ ws, mapM width_class (concat (filter (λ l, strip_prefix (lit "#") l = None) ls)) = Some ws ∧ widths a = widths a0 ++ ws.
Proof.
  revert a0. induction ls as [|l ls IH]; intros a0 Hl.
  { simplify_eq/=. exists []. by rewrite app_nil_r. }
  cbn [load_lines] in Hl. apply bind_Some in Hl as (a1 & Hl1 & Hl). apply IH in Hl as (ws & Hws & Hw).
  rewrite /load_line in Hl1. destruct (strip_prefix (lit "#") l) as [rest|] eqn:Es.
  - rewrite filter_cons_False; [|by rewrite Es]. exists ws. split; [done|]. rewrite Hw. f_equal. repeat case_match; naive_solver.
  - rewrite filter_cons_True //. apply bind_Some in Hl1 as (w1 & Hw1 & [= <-]). simpl in *.
    exists (w1 ++ ws). rewrite app_assoc. split; [|done].
    apply mapM_Some. apply mapM_Some in Hw1, Hws. by apply Forall2_app.
Qed.

Lemma split_char_chars sep s : Forall (Forall (λ c, c ≠ sep)) (split_char sep s).
Proof.
  eapply Forall_impl; [apply split_char_clean|]. intros p Hp. apply Forall_forall. by intros c Hc ->.
Qed.

Lemma lines_chars text : Forall (Forall (λ c, c ≠ NEWLINE)) (lines text).
Proof.
  rewrite /lines. induction (split_char_chars NEWLINE text) as [|l ls Hl Hls IH]; [constructor|]. cbn [lines_of].
  destruct ls as [|l' ls]; [destruct (is_empty l); by repeat constructor|]. constructor; [|done].
  rewrite /strip_cr. case_decide; [|done]. destruct l as [|c l _] using rev_ind; [done|].
  rewrite removelast_last. by apply Forall_app in Hl as [].
Qed.

Lemma trim_chars (P : Z → Prop) s : Forall P s → Forall P (trim s).
Proof.
  intros Hs. rewrite /trim. assert (Forall P (trim_start s)) as Hst.
  { induction Hs; simpl; [constructor|]. case_match; [done|by constructor]. }
  induction Hst as [|c l Hc Hl IH]; simpl; [constructor|].
  destruct (trim_end l); [case_match; by repeat constructor|by constructor].
Qed.

Lemma strip_prefix_chars (P : Z → Prop) p s rest : strip_prefix p s = Some rest → Forall P s → Forall P rest.
Proof. rewrite /strip_prefix. intros H Hs. case_decide; simplify_eq. by apply Forall_drop. Qed.

Lemma load_lines_provenance ls a0 a :
  load_lines a0 ls = Some a → Forall (Forall (λ c, c ≠ NEWLINE)) ls →
  Forall (λ c, c ≠ NEWLINE) (glibc_version a0) → Forall (λ c, c ≠ NEWLINE) (locale_name a0) →
  Forall (λ c, c ≠ NEWLINE) (glibc_version a) ∧ Forall (λ c, c ≠ NEWLINE) (locale_name a).
Proof.
  intros Hl Hls. revert a0 Hl. induction Hls as [|l ls Hc Hls IH]; intros a0 Hl Hg Ho; [by simplify_eq/=|].
  cbn [load_lines] in Hl. apply bind_Some in Hl as (a1 & Hl1 & Hl).
  rewrite /load_line in Hl1. destruct (strip_prefix (lit "#") l) as [rest|] eqn:Es;
    [|apply bind_Some in Hl1 as (w1 & _ & [= <-]); by apply (IH _ Hl)].
  apply (strip_prefix_chars (λ c, c ≠ NEWLINE)) in Es; [|done]. apply trim_chars in Es.
  destruct (strip_prefix (lit "glibc:") (trim rest)) as [v|] eqn:Eg; simplify_eq.
  { apply (strip_prefix_chars _ _ _ _ Eg), trim_chars in Es. by apply (IH _ Hl). }
  destruct (strip_prefix (lit "locale:") (trim rest)) as [v|] eqn:El; simplify_eq; [|by apply (IH _ Hl)].
  apply (strip_prefix_chars _ _ _ _ El), trim_chars in Es. by apply (IH _ Hl).
Qed.

Record loaded (text : str) (a : Authority) : Prop := {
  ld_wf : authority_wf a;
  ld_glibc : Forall (λ c, c ≠ NEWLINE) (glibc_version a);
  ld_locale : Forall (λ c, c ≠ NEWLINE) (locale_name a);
  ld_dump : ∀ cp, DUMP_LO ≤ cp → width_of a cp = dump_char text cp ≫= width_class;
}.

Lemma load_text_loaded text a : load_text text = Some a → loaded text a.
Proof.
  rewrite /load_text. intros (a1 & Hl & Ha)%bind_Some. repeat (case_match; [done|]). simplify_eq. to_prop.
  destruct (load_lines_provenance _ _ _ Hl) as [? ?]; [apply lines_chars|constructor|constructor|].
  apply load_lines_widths in Hl as (ws & Hws & Hw). simpl in Hw. subst ws. apply mapM_Some in Hws.
  split; [|done|done|].
  - split; [done|]. apply Forall_lookup. intros i w Hi.
    destruct (Forall2_lookup_r _ _ _ _ _ Hws Hi) as (c & _ & Hc). by eapply width_class_range.
  - intros cp Hcp. rewrite /width_of (proj2 (Z.ltb_ge cp DUMP_LO)) // /dump_char /dump_data.
    destruct (concat _ !! _) as [c|] eqn:Ec; simpl.
    + destruct (Forall2_lookup_l _ _ _ _ _ Hws Ec) as (w & -> & ->). done.
    + apply lookup_ge_None_1 in Ec. apply lookup_ge_None_2. by rewrite -(Forall2_length _ _ _ Hws).
Qed.

(** ** The generated files *)
Lemma collected_fits a class lo hi rs : 0 ≤ lo → hi ≤ 0x110000 → collected a class lo hi rs → fits rs.
Proof.
  intros Hlo Hhi Hc. apply Forall_forall. intros r Hr.
  pose proof (col_bounds _ _ _ _ _ Hc) as Hb. rewrite Forall_forall in Hb. specialize (Hb _ Hr).
  destruct (col_apart _ _ _ _ _ Hc) as [Hv _]. rewrite Forall_forall in Hv. specialize (Hv _ Hr).
  rewrite /u32_max. simpl in *. lia.
Qed.

Lemma tables_of_fit a t : tables_of a t → tables_fit t.
Proof. intros [Hbz Hbw Hhz Hhw]. split; (eapply collected_fits; [| |done]; lia). Qed.

Lemma join_inj root p q : is_absolute p = false → is_absolute q = false → join root p = join root q → p = q.
Proof.
  rewrite /join => -> ->. simpl. destruct (is_empty root); [done|]. case_decide; intros Heq; apply app_inv_head in Heq; by simplify_eq.
Qed.

(** What the terminal model and a client measure with the tables of their file. *)
Definition measured_model (fs : gmap str str) (root : str) (cp : Z) : option Z :=
  text ← fs !! join root MODEL_WIDTHS;
  t ← read_tables opening_rs text;
  Some (model_width t cp).

Definition measured_client (fs : gmap str str) (root path : str) (cp : Z) : option Z :=
  text ← fs !! join root path;
  t ← read_tables opening_ts text;
  wcwidth t cp.

(** The three files hold what the dump at hand gives. *)
Definition current (fs : gmap str str) (root : str) : Prop :=
  ∃ text a t, fs !! join root AUTHORITY = Some text ∧ load_text text = Some a ∧ build_tables a = Some t ∧
    fs !! join root WEB_WIDTHS = Some (build_typescript a t) ∧
    fs !! join root DESKTOP_WIDTHS = Some (build_typescript a t) ∧
    fs !! join root MODEL_WIDTHS = Some (build_rust a t).

Lemma outputs_Some fs root out :
  outputs fs root = Some out ↔ ∃ text a t, fs !! join root AUTHORITY = Some text ∧ load_text text = Some a ∧
    build_tables a = Some t ∧
    out = [(join root WEB_WIDTHS, build_typescript a t); (join root DESKTOP_WIDTHS, build_typescript a t);
           (join root MODEL_WIDTHS, build_rust a t)].
Proof.
  rewrite /outputs /load. generalize build_typescript build_rust load_text build_tables AUTHORITY.
  clear. intros ts rs load_text build_tables AUTHORITY. split.
  - intros (a & (text & ? & ?)%bind_Some & (t & ? & ?)%bind_Some)%bind_Some. simplify_eq. by eexists _, _, _.
  - intros (text & a & t & -> & Ha & Ht & ->). by rewrite /= Ha /= Ht.
Qed.

Lemma build_typescript_nonempty a t : build_typescript a t ≠ [].
Proof. unfold build_typescript. generalize (emit_ranges_ts (lit "BMP_ZERO") (bmp_zero t)). intros s. by destruct s. Qed.

Lemma build_rust_nonempty a t : build_rust a t ≠ [].
Proof. unfold build_rust. generalize (emit_ranges_rs (lit "BMP_ZERO") (bmp_zero t)). intros s. by destruct s. Qed.

Lemma current_check fs root :
  current fs root ↔ ∃ out, outputs fs root = Some out ∧ is_empty (stale fs out) = true.
Proof.
  setoid_rewrite outputs_Some. rewrite /current.
  pose proof build_typescript_nonempty as Hts. pose proof build_rust_nonempty as Hrs.
  generalize dependent build_typescript. intros build_typescript Hts.
  generalize dependent build_rust. intros build_rust Hrs. split.
  - intros (text & a & t & Hf & Ha & Ht & H1 & H2 & H3). eexists. split; [by exists text, a, t|].
    rewrite is_empty_true /stale. by rewrite !filter_cons_False; try (simpl; rewrite ?H1 ?H2 ?H3; tauto).
  - intros (out & (text & a & t & Hf & Ha & Ht & ->) & He). exists text, a, t.
    rewrite is_empty_true /stale in He. apply fmap_nil_inv in He.
    assert (∀ p want, (p, want) ∈ [(join root WEB_WIDTHS, build_typescript a t); (join root DESKTOP_WIDTHS, build_typescript a t);
           (join root MODEL_WIDTHS, build_rust a t)] → want ≠ [] → fs !! p = Some want) as Hp.
    { intros p want Hin Hw. destruct (decide (default [] (fs !! p) = want)) as [<-|Hn]; [by destruct (fs !! p)|].
      assert ((p, want) ∈ ([] : list (str * str))) as []%not_elem_of_nil. rewrite -He list_elem_of_filter. done. }
    split_and!; [done..| | |]; apply Hp; by [set_solver|].
Qed.

(** Writing the files makes them current; checking changes nothing. *)
Lemma main_current w args root fs fs' :
  main w args root fs = (fs', Finished) → current fs' root ∧ (lit "--check" ∈ args → fs' = fs).
Proof.
  rewrite /main. destruct (outputs fs root) as [out|] eqn:Eo; [|done]. case_bool_decide as Hc.
  { destruct (is_empty _) eqn:Es; [|done]. intros [= <-]. split; [|done]. apply current_check. by exists out. }
  apply outputs_Some in Eo as (text & a & t & Hf & Ha & Ht & ->). cbn [write_outputs].
  repeat (case_match; [done|]). intros [= <-]. split; [|done]. exists text, a, t.
  assert (∀ p q, is_absolute p = false → is_absolute q = false → p ≠ q → join root p ≠ join root q) as Hj
    by (intros p q ? ? Hne ?; by apply Hne, (join_inj root)).
  split_and!; [|done|done| | |].
  - rewrite !lookup_insert_ne //; by apply Hj.
  - rewrite 2?lookup_insert_ne ?lookup_insert_eq //; by apply Hj.
  - rewrite lookup_insert_ne ?lookup_insert_eq //; by apply Hj.
  - by rewrite lookup_insert_eq.
Qed.

Lemma current_measures fs root :
  current fs root → ∃ text a t, fs !! join root AUTHORITY = Some text ∧ loaded text a ∧ tables_of a t ∧
    ∀ cp, measured_model fs root cp = Some (model_width t cp) ∧ measured_client fs root WEB_WIDTHS cp = wcwidth t cp ∧
          measured_client fs root DESKTOP_WIDTHS cp = wcwidth t cp.
Proof.
  intros (text & a & t & Hf & Ha & Ht & H1 & H2 & H3). apply load_text_loaded in Ha as Hl.
  destruct (build_tables_of a (ld_wf _ _ Hl)) as (t' & Ht' & Hof). simplify_eq.
  exists text, a, t. split_and!; [done..|]. intros cp. rewrite /measured_model /measured_client H1 H2 H3 /=.
  destruct Hl. pose proof (tables_of_fit _ _ Hof). by rewrite rust_roundtrip ?typescript_roundtrip.
Qed.

Lemma tables_of_low a t cp : tables_of a t → cp < 0xA0 → wcwidth t cp = Some (if (cp <? 32) || (0x7F <=? cp) then 0 else 1).
Proof.
  intros [Hbz Hbw _ _]. apply wcwidth_low.
  - eapply Forall_impl; [exact (col_bounds _ _ _ _ _ Hbz)|]. intros ? []; lia.
  - eapply Forall_impl; [exact (col_bounds _ _ _ _ _ Hbw)|]. intros ? []; lia.
Qed.

(** The packing of xterm's character properties: a character of width zero joins
    its predecessor and keeps the predecessor's width. *)
Lemma createPropertyValue_unpack w j : 0 ≤ w < 4 →
  extractWidth (createPropertyValue 0 w j) = w ∧ Z.testbit (createPropertyValue 0 w j) 0 = j.
Proof. intros Hw. assert (w = 0 ∨ w = 1 ∨ w = 2 ∨ w = 3) as [->|[->|[->| ->]]] by lia; by destruct j. Qed.

Lemma charProperties_spec t cp preceding v w :
  wcwidth t cp = Some w → 0 ≤ w ≤ 2 → charProperties t cp preceding = Some v →
  Z.testbit v 0 = (w =? 0) ∧ extractWidth v = (if w =? 0 then extractWidth preceding else w).
Proof.
  rewrite /charProperties => -> Hw /= [= <-].
  assert (0 ≤ extractWidth preceding < 4) as Hp.
  { rewrite /extractWidth. change 3 with (Z.ones 2). rewrite Z.land_ones //. apply Z.mod_pos_bound. done. }
  destruct (w =? 0) eqn:E; to_prop; simpl.
  - subst w. destruct (0 <? extractWidth preceding) eqn:Ep; to_prop.
    + destruct (createPropertyValue_unpack (extractWidth preceding) true); [lia|]. done.
    + replace (extractWidth preceding) with 0 by lia. done.
  - destruct (createPropertyValue_unpack w false); [lia|]. done.
Qed.

(** C25: whenever the generator ends successfully, having written the files or having
    checked them, reading the tables from the three generated files and searching
    them as the generated code does gives, for every printable code point, the width
    the dump at hand records (one for ASCII), the same in the terminal model and both
    clients; control characters are one wide in the model and zero in the clients; a
    check changes no file, and a check after the run passes. *)
Theorem widths_agree w args root fs fs' :
  main w args root fs = (fs', Finished) →
  (lit "--check" ∈ args → fs' = fs) ∧ main w [lit "--check"] root fs' = (fs', Finished) ∧
  ∃ text, fs' !! join root AUTHORITY = Some text ∧
  ∀ cp, 0 ≤ cp ≤ 0x10FFFF →
    ∃ m c, measured_model fs' root cp = Some m ∧ measured_client fs' root WEB_WIDTHS cp = Some c ∧
      measured_client fs' root DESKTOP_WIDTHS cp = Some c ∧
      if (cp <? 0x20) || ((0x7F <=? cp) && (cp <? 0xA0)) then m = 1 ∧ c = 0
      else m = c ∧ if cp <? 0x7F then m = 1 else dump_char text cp ≫= width_class = Some m.
Proof.
  intros Hmain. apply main_current in Hmain as [Hcur Hfs]. split_and!; [done| |].
  { apply current_check in Hcur as (out & Ho & He). rewrite /main Ho bool_decide_true; [|set_solver]. by rewrite He. }
  apply current_measures in Hcur as (text & a & t & Hf & Hl & Hof & Hm). exists text. split; [done|].
  intros cp Hcp. destruct (Hm cp) as (-> & -> & ->). destruct (decide (cp < 0xA0)) as [Hlow|Hhigh].
  - rewrite (tables_of_low a) //. eexists _, _. split_and!; [done..|].
    rewrite /model_width (proj2 (Z.ltb_lt cp 0xA0)) // andb_true_r.
    destruct (cp <? 0x20); [done|]. destruct (0x7F <=? cp) eqn:E; to_prop; [done|].
    simpl. by rewrite (proj2 (Z.ltb_lt cp 0x7F)); last lia.
  - pose proof (model_width_spec a t cp (ld_wf _ _ Hl) Hof ltac:(lia)) as Hw.
    rewrite (wcwidth_spec a) //; [|apply Hl|lia]. exists (model_width t cp), (model_width t cp).
    rewrite (proj2 (Z.ltb_ge cp 0x20)) ?(proj2 (Z.ltb_ge cp 0xA0)) ?(proj2 (Z.ltb_ge cp 0x7F)) ?andb_false_r; [|lia..].
    rewrite -(ld_dump _ _ Hl); [done|rewrite /DUMP_LO; lia].
Qed.

(** ** A run of the generator

    A dump in which the combining marks from U+0300 to U+036F have no width, the
    code points below them are one cell wide and those above two. *)
Definition sample_data : str :=
  replicate 736 0x31 ++ replicate 112 0x30 ++ replicate (Z.to_nat (0x110000 - DUMP_LO) - 848) 0x32.

Definition sample_dump (data : str) : str :=
  unlines [lit "# glibc:      2.41"; lit "# range:      U+0020..U+10FFFF"; lit "# locale:     C.UTF-8"; data].

Definition plain_char (c : char) : Prop := c = 0x30 ∨ c = 0x31 ∨ c = 0x32.

Lemma sample_data_plain : Forall plain_char sample_data.
Proof. rewrite /sample_data !Forall_app. split_and!; apply Forall_replicate; rewrite /plain_char; auto. Qed.

Lemma sample_data_len : len sample_data = 0x110000 - DUMP_LO.
Proof. rewrite /len /sample_data !length_app !length_replicate /DUMP_LO. lia. Qed.

Lemma sample_lines data :
  Forall plain_char data →
  lines (sample_dump data) = [lit "# glibc:      2.41"; lit "# range:      U+0020..U+10FFFF"; lit "# locale:     C.UTF-8"; data].
Proof.
  intros Hd. rewrite /lines /sample_dump -(app_nil_r (unlines _)) split_unlines.
  2:{ repeat (apply Forall_cons; split; [by apply (bool_decide_unpack _)|]). apply Forall_singleton.
      eapply Forall_impl; [exact Hd|]. rewrite /plain_char /NEWLINE. intros; lia. }
  cbn -[lit strip_cr]. assert (strip_cr data = data) as ->; [|done]. rewrite /strip_cr. case_decide as Hl; [|done].
  apply last_Some_elem_of in Hl. rewrite Forall_forall in Hd. apply Hd in Hl. rewrite /plain_char in Hl. lia.
Qed.

Lemma plain_no_hash data : Forall plain_char data → strip_prefix (lit "#") data = None.
Proof.
  intros [|c l Hc Hl]; [done|]. rewrite /strip_prefix. case_decide as H; [|done].
  injection H as Hh. rewrite /plain_char in Hc. vm_compute in Hh. lia.
Qed.

Lemma plain_classes data : Forall plain_char data → ∃ ws, mapM width_class data = Some ws ∧ length ws = length data.
Proof.
  induction 1 as [|c l Hc Hl (ws & IH & Hlen)]; [by exists []|].
  assert (∃ w, width_class c = Some w) as [w Hw] by (destruct Hc as [->|[->| ->]]; by eexists).
  exists (w :: ws). rewrite /= Hw /= IH /=. by rewrite Hlen.
Qed.

Lemma sample_loads data :
  Forall plain_char data → len data = 0x110000 - DUMP_LO → ∃ a, load_text (sample_dump data) = Some a.
Proof.
  intros Hd Hl. destruct (plain_classes data Hd) as (ws & Hws & Hlen).
  exists {| widths := ws; glibc_version := lit "2.41"; locale_name := lit "C.UTF-8" |}.
  assert (len ws = 0x110000 - DUMP_LO) as Hwl by (rewrite /len Hlen; exact Hl).
  rewrite /load_text sample_lines //.
  change (load_lines ?a [_; _; _; data]) with
    (load_lines {| widths := []; glibc_version := lit "2.41"; locale_name := lit "C.UTF-8" |} [data]).
  rewrite /load_lines /load_line plain_no_hash // Hws /= Hwl Z.eqb_refl. done.
Qed.

Lemma sample_dump_data data : Forall plain_char data → dump_data (sample_dump data) = data.
Proof.
  intros Hd. rewrite /dump_data sample_lines //. do 3 (rewrite filter_cons_False; [|by vm_compute]).
  rewrite filter_cons_True; [|by apply plain_no_hash]. by rewrite /= app_nil_r.
Qed.

Lemma combining_lookup : sample_data !! 736%nat = Some 0x30.
Proof. rewrite /sample_data lookup_app_r ?length_replicate //. Qed.

Lemma main_writes root fs out :
  outputs fs root = Some out →
  ∃ fs', main {| refused := λ _, false; left_behind := λ _, None |} [] root fs = (fs', Finished) ∧
    ∀ p, p ∉ out.*1 → fs' !! p = fs !! p.
Proof.
  intros Ho. rewrite /main Ho. assert (bool_decide (lit "--check" ∈ ([] : list str)) = false) as -> by done.
  clear Ho. revert fs. induction out as [|[p c] out IH]; intros fs; [by eexists|].
  destruct (IH (<[p := c]> fs)) as (fs' & Hw & Hp). exists fs'. split; [exact Hw|].
  intros q [Hq Hq']%not_elem_of_cons. rewrite Hp // lookup_insert_ne //.
Qed.

(** Generating from the sample dump: U+0300 has width zero in the terminal model and
    both clients. *)
Lemma widths_agree_witness :
  ∃ fs fs', main {| refused := λ _, false; left_behind := λ _, None |} [] (lit "/src") fs = (fs', Finished) ∧
    measured_model fs' (lit "/src") 0x300 = Some 0 ∧ measured_client fs' (lit "/src") WEB_WIDTHS 0x300 = Some 0 ∧
    measured_client fs' (lit "/src") DESKTOP_WIDTHS 0x300 = Some 0.
Proof.
  destruct (sample_loads sample_data sample_data_plain sample_data_len) as [a Ha].
  destruct (build_tables_of a (ld_wf _ _ (load_text_loaded _ _ Ha))) as (t & Ht & _).
  pose proof (sample_dump_data sample_data sample_data_plain) as Hdump. pose proof combining_lookup as Hc.
  revert Ha Hdump Hc. generalize (sample_dump sample_data). generalize sample_data. intros data dump Ha Hdump Hc.
  assert (({[join (lit "/src") AUTHORITY := dump]} : gmap str str) !! join (lit "/src") AUTHORITY = Some dump) as Hfs
    by apply lookup_singleton_eq.
  edestruct (main_writes (lit "/src") {[join (lit "/src") AUTHORITY := dump]}) as (fs' & Hm & Hsame).
  { apply outputs_Some. exists dump, a, t. split_and!; [exact Hfs|exact Ha|exact Ht|reflexivity]. }
  exists {[join (lit "/src") AUTHORITY := dump]}, fs'. split; [exact Hm|].
  destruct (widths_agree _ _ _ _ _ Hm) as (_ & _ & text & Hauth & Hall).
  destruct (Hall 0x300) as (m & c & -> & -> & -> & Heq & Hw); [lia|].
  rewrite Hsame in Hauth; [|by apply (bool_decide_unpack _)]. rewrite Hfs in Hauth. injection Hauth as <-.
  rewrite /dump_char Hdump in Hw. change (Z.to_nat (0x300 - DUMP_LO)) with 736%nat in Hw. rewrite Hc in Hw.
  injection Hw as <-. by rewrite -Heq.
Defined.
